(* ===== verification/_CoqProject ===== *)
-Q . S2P
Prelude.v
Clock.v
Extern.v
Merkle.v
Wal.v
CxxString.v
Credential.v
KeyBuilder.v
ReplicationLog.v
OrdMap.v
Blob.v
Samples.v
Store.v
StoreSpec.v
Engine.v
Recovery.v
Lww.v
EngineProps.v
Scan.v
Sync.v
SyncProps.v
Repair.v
Converge.v
Zmq.v
Frontend.v
Metrics.v
SyncMetrics.v
CxxStream.v
Json.v
MetricsText.v
Mesh.v
Main.v
Service.v
Logger.v
CqArith.v
CqProducer.v
CqInv.v
CqFreeList.v
CqTable.v
CqIndex.v
CqLin.v
CqSub.v
CqFifo.v
CqQueue.v
CqDtor.v
CqBlocking.v
CqExit.v
CqBulk.v
ShardLoop.v
