(* ===== verification/Prelude.v ===== *)
(** * L3KV: a verified model of a replicated key-value store

    L3KV (src/) is a C++ key-value service.  An engine keeps JSON or binary documents in
    eight in-memory shards, each owned by a thread with a message queue, logs every write
    to a write-ahead log before applying it, stamps it with a hybrid logical clock, and
    maintains a Merkle tree over all values.  Nodes gossip their Merkle roots over a mesh
    of TCP connections, descend to the buckets that differ, and exchange values as
    mutations resolved by last-writer-wins.  Clients talk to a ZeroMQ front end that
    authenticates sessions; the engine checks per-prefix access rules.

    This library translates the program into executable definitions and proves what makes
    it correct.  Definitions keep the names of the source; a data member [x_] is the record
    field [x_].

    ** Files and what they model

    Shared:
    - [Prelude]: bytes, machine integers with their wrap-around written out ([u32], [i64],
      ...), little-endian encodings, exceptions as [result], tactics and hint databases.
    - [Extern]: the libraries the program only calls, as classes of operations with classes
      of laws: xxHash ([XXH3]), lite3cpp buffers and JSON ([Lite3]), zstd ([Zstd]).
    - [CxxString]: the parts of std::string and its numeric conversions the source uses.
    - [CxxStream]: what std::ostream prints: integers, [std::fixed] and general doubles, padding.
    - [Json]: a reader of JSON texts, the reference for the text the service prints.
    - [OrdMap]: std::map with string keys as a sorted association list.
    - [Samples]: concrete instances of the library classes, which satisfy the laws; the
      witnesses evaluate with them.

    Components (file under src/engine/ unless given):
    - [Clock]: clock.hpp, clock.cpp.  [hlc_now], [hlc_update], [reserve_logical],
      [tlc_now]; [sys_step] interleaves the global clock with any number of thread-local
      ones.  Readings of the physical clock are an input list.
    - [Merkle]: merkle.hpp.  Five levels with dirty flags, [apply_delta],
      [recompute_dirty], [get_root_hash].
    - [Wal]: wal.hpp (the POSIX branch).  Record formats, CRC-32, [write_raw] against a list
      of answers of write(2), [append], [append_batch], [recover] with truncation.
    - [Credential]: credential_manager.hpp.  Users, rules, [check_permission]; std::sort is
      a class with its contract.
    - [KeyBuilder]: KeyBuilder.hpp, including the two recycled buffers the views point into.
    - [ReplicationLog]: replication_log.hpp.
    - [Blob]: [ZstdManager] and [Blob] of store.hpp.
    - [Store]: the shard maps, routing, [apply_put] with the credential hooks,
      [apply_patch_int], [apply_patch_str], [apply_del], [get] of store.hpp.
    - [Engine]: the rest of [Engine] in store.hpp as a state monad over the store, log,
      clock and shard queues: [put], [patch_int], [patch_str], [del], [batch_put],
      [batch_get], [apply_mutation], [apply_batch_mutations], [wait_all_shards], the replay
      of the log and [engine_open].  A shard thread is [core_step] on its queue.
    - [Scan]: bucket listings and prefix scans of store.hpp.
    - [Sync]: sync_manager.hpp, every message and handler; [SyncMetrics]: what they report to
      the metrics.
    - [Zmq]: src/zmq/zmq_server.cpp, one iteration of the serving loop; [Frontend]: the loop
      over a sequence of requests and the abstract service it implements.
    - [Metrics]: src/observability/simple_metrics.cpp, the counters; [MetricsText]: the text
      renderings [dump_metrics], [get_metrics_string] and [get_json].
    - [Mesh]: mesh.hpp, mesh.cpp.  Both directions of a connection as event-driven state
      machines, the peer table and [Mesh::send].
    - [Main]: src/main.cpp.  Command line, [load_config] (nlohmann::json is a class), the
      connect loop, the message callback, and clusters of nodes wired by it.
    - [Service]: the threads of main.cpp, the gossip loop of sync_manager.hpp and the accept
      handler of mesh.cpp, from start-up to the joins.
    - [Logger]: src/observability/file_logger.hpp and the start-up messages of main.cpp.

    The vendored queue (src/lib/concurrentqueue), as far as the engine uses it:
    - [CqArith]: comparison of wrapping indices, powers of two, the hash of thread ids.
    - [CqProducer]: concurrentqueue.h, [ImplicitProducer], the sub-queue of one enqueuing
      thread, and the block pool.  [enqueue_step] and [dequeue_step] are one access to shared
      memory each; [step] interleaves one enqueuing thread, any number of dequeuing threads
      and the other users of the pool.
    - [CqFreeList]: concurrentqueue.h, [FreeList], the reference-counted stack of free blocks.
    - [CqTable]: concurrentqueue.h, [get_or_add_implicit_producer], the lock-free table that
      gives every thread a sub-queue of its own, its growth, and the exit of threads.
    - [CqInv], [CqIndex], [CqLin]: the invariant: tickets of the dequeuers, counting per
      block, ownership of blocks, the block index; its preservation and the events it emits.
    - [CqSub]: a sub-queue from its first access on: memory safety, the accesses a call needs,
      calls made one at a time.
    - [CqFifo]: what interleaved calls return: a queue that is atomic except for dequeues that
      may find nothing while others are under way.
    - [CqQueue]: [try_dequeue] and [size_approx] over all sub-queues, against the interface
      [SubQueue], which implicit producers that share one pool satisfy; whole calls in sequence.
    - [CqDtor]: [~ImplicitProducer] and [~ConcurrentQueue].
    - [CqExit]: [ThreadExitNotifier], the per-thread lists of sub-queues to tell when a thread
      exits, against threads that subscribe, unsubscribe and exit in any order.
    - [CqBulk]: [dequeue_bulk] as a whole call.
    - [CqBlocking]: blockingconcurrentqueue.h; the semaphore is the class [Semaphore].  A
      dequeue visits the sub-queues one step at a time, enqueues interleaving; one thread
      dequeues, as every shard queue of the engine has one consumer.
    - [ShardLoop]: the loop of a shard thread and [~Engine] of store.hpp on that queue.

    Properties that span components are in [StoreSpec], [Recovery], [Lww], [EngineProps],
    [SyncProps], [Repair] (a whole round of anti-entropy between two nodes), [Converge] (two
    rounds) and the last part of [Main].

    ** What is shown

    - The whole: to any sequence of requests the server answers what a map of documents behind
      sessions and access rules answers ([service_refines_kv]), and a prefix of the requests survives a crash
      ([service_survives_crash]).
    - Contents: the store refines a map from keys to documents ([store_refines_kv]); scans
      return exactly the live keys ([prefix_scan_exact], [prefix_scan_complete]); keys with
      a common tag share a shard ([hash_tag_colocates]).
    - Durability: log recovery after a crash at any byte, after damage and after
      continuation ([crash_recovery], [corrupt_byte_stops_recovery],
      [recover_then_continue]); the log's write loop ([write_raw_spec],
      [write_raw_terminates]); atomicity and durability of whole engine calls
      ([crash_atomicity]).
    - Time: uniqueness and causality of timestamps and termination of [now]
      ([timestamps_unique], [tlc_now_refines], [hlc_causality], [hlc_now_terminates]).
    - Anti-entropy: the tree is what a full rehash gives and is a function of the contents
      ([lazy_root_is_full_root], [merkle_reflects_contents],
      [bucket_listing_explains_leaf]); gossip finds exactly the differing buckets, listings
      request exactly the differing keys, transfers repair them
      ([gossip_finds_divergence], [listing_requests_differences], [transfer_repairs_key],
      [parse_meta_roundtrip]); replicas converge ([lww_convergence]).  A whole exchange, all
      lanes delivered, leaves the receiver with the merge of both nodes
      ([anti_entropy_merges]); two exchanges, one in each direction, make both nodes equal
      ([nodes_converge]).
    - Concurrency: the outcome of an asynchronous batch does not depend on the order in
      which shard threads run ([batch_put_any_schedule]).  A sub-queue of the lock-free queue
      refines an atomic queue whose dequeues may find nothing only when another dequeue holds
      an element back ([subqueue_refines_fifo]), touches no freed memory
      ([subqueue_memory_safe]), ends every call within a fixed number of its own accesses and
      one call of the pool of blocks ([subqueue_steps_bounded]), and run alone is a list
      ([subqueue_sequential]); the list of free blocks is a set ([free_list_is_set]) and no two
      threads share a sub-queue ([producers_exclusive]); the whole queue keeps the order of
      every enqueuing thread ([queue_keeps_threads_in_order]) and nothing more
      ([threads_not_ordered]); its destruction loses no element and frees every block
      ([queue_destroyed]); a bulk dequeue is as many single ones
      ([dequeue_bulk_is_dequeues]); the exit of threads refines lists of listeners
      ([exit_notifier_refines]) and touches no freed one while queues outlive the exits
      ([exit_memory_safe]); the one
      thread that dequeues never spins once it has a permit ([permits_are_elements]); a shard thread executes the
      submitted tasks and ends at shutdown ([shard_thread_executes], [shutdown_drains]).
    - Access: [check_permission_longest], [set_acl_effective], [denied_leaves_no_trace],
      [session_confined], [auth_checks_secret], [unauthenticated_rejected].
    - Transport and service: [frames_in_order], [framing_roundtrip], [mesh_send_spec],
      [metrics_count_events], [max_latency_is_maximum], [metrics_fit_types],
      [get_json_parses], [dump_is_metrics_string], [log_reads_back], [configured_peers_have_ids],
      [replication_window], [meta_key_injective], [main_never_flushes], [sync_stop_ends].
    - Where the code does not do what it means to: [auth_bypass],
      [control_lane_never_repairs], [sent_frame_misread], [batch_overtakes_put],
      [patch_loses_to_older_mutation], [write_error_stalls], [handshake_can_be_split],
      [tombstone_requested_again], [compression_separates_equal_replicas],
      [failed_write_hides_later_records], [long_keys_share_meta],
      [tlc_update_not_causal], [hlc_update_overflow_regresses],
      [config_error_keeps_prefix], [shutdown_can_drop_task], [quote_breaks_json],
      [exit_reads_freed_listener], [equal_values_hide_newer_timestamps],
      [rejected_counts_as_repaired].

    ** Conventions

    A computation is an option where it can wait for the operating system or the clock
    ([None]: it is still waiting when the inputs run out) and a [result] where it can
    throw.  Memory the source reads after it has died or beyond its end is a parameter of
    the model ([stale], [beyond], [wild], [no_frame]); theorems either hold for every value
    or name the value they assume ([id] for [stale]: the views still read their strings).
    Locks make the locked regions atomic.

    The memory of the queue is sequentially consistent: fences and memory orders are not
    represented.  An allocation is one step.  The sub-queues use the free list as the set that
    [CqFreeList] shows it to be, an oracle choosing the block ([answers]), and have one enqueuing
    thread each, which [CqTable] shows the table to ensure.  Indices wrap at
    64 bits and start anywhere ([start], a multiple of the block size); theorems bound the
    number of steps by 2^60, far below the 2^63 operations after which a stalled dequeue could
    take an index for another.

    Fuel: [recover_loop] and [decode_entries] run with the length of what they read plus
    one, every iteration consuming at least one byte; [rep_bucket_loop] with the length of
    the message plus one, ten bytes an iteration; [read_loop] of [Mesh] with two reads per
    byte plus two, which [read_loop_settled] shows to be enough; [digits_acc] with
    the 20 digits of a 64-bit integer; [grow_capacity] with 64 doublings of a 64-bit
    capacity, of which [grow_capacity_spec] shows that fewer are needed; [destroy_elements]
    with the number of elements left; the decimal exponent of a double is found in at most 350
    rounds, more than the range of a double needs; [bulk_loop] with one round per started block;
    the JSON reader has the length of its
    text, every call consuming a byte.  All other recursion is structural.

    ** Not modelled

    The Windows branches; wal_storage.hpp (unused adapters); trace output on the
    standard streams; explicit producers, tokens, the bulk enqueue and moving of the vendored queue,
    which the engine does not use; weak memory; the consistent-hash ring that main.cpp fills
    and does not use.  Reads of shard maps without their lock ([get_bucket_keys]) are modelled
    as if atomic. *)
From Stdlib Require Export ZArith Lia.
From Stdlib Require Import String.
From coqutil Require Export Byte Word.LittleEndianList.
From stdpp Require Export base list gmap sorting.
From stdpp Require Import strings.
#[global] Open Scope Z_scope.
#[global] Set Default Goal Selector "!".

Declare Scope l3kv_scope.
Delimit Scope l3kv_scope with l3.

(** ** Bytes

    [std::string], [std::string_view], [std::vector<uint8_t>] and the contents of
    files are all lists of bytes. *)

Abbreviation bytes := (list Byte.byte).

#[export] Instance byte_eq_dec : EqDecision Byte.byte := Byte.byte_eq_dec.

#[export] Program Instance byte_countable : Countable Byte.byte :=
  inj_countable Byte.to_N Byte.of_N _.
Next Obligation. apply Byte.of_to_N. Qed.

(** A C++ string literal. *)
Definition str (s : string) : bytes := String.list_byte_of_string s.
Arguments str s%_string_scope.
Export String.StringSyntax.

(** [size()] as the unsigned integer the source computes with. *)
Definition zlen {A} (l : list A) : Z := Z.of_nat (length l).

(** ** Machine integers *)

Definition u8 (z : Z) : Z := z mod 2 ^ 8.
Definition u16 (z : Z) : Z := z mod 2 ^ 16.
Definition u32 (z : Z) : Z := z mod 2 ^ 32.
Definition u64 (z : Z) : Z := z mod 2 ^ 64.
Definition i32 (z : Z) : Z := (z + 2 ^ 31) mod 2 ^ 32 - 2 ^ 31.
Definition i64 (z : Z) : Z := (z + 2 ^ 63) mod 2 ^ 64 - 2 ^ 63.

Definition UINT32_MAX : Z := 2 ^ 32 - 1.

(** ** Little-endian integers in memory (the x86-64 layout [memcpy] exposes) *)

Definition le16 (z : Z) : bytes := le_split 2 z.
Definition le32 (z : Z) : bytes := le_split 4 z.
Definition le64 (z : Z) : bytes := le_split 8 z.

(** ** Exceptions *)

(** What a [throw] carries, as far as the handlers of the source distinguish it. *)
Inductive exn :=
| runtime_error (what : bytes)
| invalid_argument
| out_of_range
| library_exn.

Inductive result (A : Type) :=
| Ok (a : A)
| Throw (e : exn).
Arguments Ok {A} _.
Arguments Throw {A} _.

Definition result_bind {A B} (r : result A) (f : A -> result B) : result B :=
  match r with Ok a => f a | Throw e => Throw e end.

Notation "'let?' x ':=' c1 'in' c2" := (result_bind c1 (fun x => c2))
  (at level 10, x pattern, c1 at level 100, c2 at level 200)
  : l3kv_scope.

(** ** Automation *)

Create HintDb l3kv.

(** Case analysis on the innermost scrutinee of the goal or a hypothesis. *)
Ltac split_match :=
  match goal with
  | |- context [match ?x with _ => _ end] =>
      lazymatch x with context [match _ with _ => _ end] => fail | _ => destruct x eqn:? end
  | H : context [match ?x with _ => _ end] |- _ =>
      lazymatch x with context [match _ with _ => _ end] => fail | _ => destruct x eqn:? end
  end.

(** Turn the boolean tests of the source into arithmetic facts. *)
Ltac bool_prop :=
  repeat match goal with
  | H : (_ && _)%bool = true |- _ => apply andb_true_iff in H; destruct H
  | H : (_ || _)%bool = false |- _ => apply orb_false_iff in H; destruct H
  | H : negb _ = true |- _ => apply negb_true_iff in H
  | H : negb _ = false |- _ => apply negb_false_iff in H
  | H : bool_decide _ = true |- _ => apply bool_decide_eq_true in H
  | H : bool_decide _ = false |- _ => apply bool_decide_eq_false in H
  | H : (_ =? _)%Z = true |- _ => apply Z.eqb_eq in H
  | H : (_ =? _)%Z = false |- _ => apply Z.eqb_neq in H
  | H : (_ <? _)%Z = true |- _ => apply Z.ltb_lt in H
  | H : (_ <? _)%Z = false |- _ => apply Z.ltb_ge in H
  | H : (_ <=? _)%Z = true |- _ => apply Z.leb_le in H
  | H : (_ <=? _)%Z = false |- _ => apply Z.leb_gt in H
  | H : (_ >? _)%Z = true |- _ => rewrite Z.gtb_ltb in H
  | H : (_ >? _)%Z = false |- _ => rewrite Z.gtb_ltb in H
  | H : (_ >=? _)%Z = true |- _ => rewrite Z.geb_leb in H
  | H : (_ >=? _)%Z = false |- _ => rewrite Z.geb_leb in H
  end.

(** Case analysis to the end with arithmetic in the leaves. *)
Ltac cases := repeat (split_match; simplify_eq/=); bool_prop.

(** ** Integers and little-endian bytes: shared lemmas *)

Lemma u16_small z : 0 <= z < 2 ^ 16 -> u16 z = z.
Proof. apply Z.mod_small. Qed.
Lemma u32_small z : 0 <= z < 2 ^ 32 -> u32 z = z.
Proof. apply Z.mod_small. Qed.
Lemma u64_add_l a b : u64 (u64 a + b) = u64 (a + b).
Proof. unfold u64. apply Zplus_mod_idemp_l. Qed.
Lemma u64_small z : 0 <= z < 2 ^ 64 -> u64 z = z.
Proof. apply Z.mod_small. Qed.
Lemma u32_range z : 0 <= u32 z < 2 ^ 32.
Proof. apply Z.mod_pos_bound. lia. Qed.
Lemma u64_range z : 0 <= u64 z < 2 ^ 64.
Proof. apply Z.mod_pos_bound. lia. Qed.

Lemma length_le16 z : length (le16 z) = 2%nat.
Proof. apply length_le_split. Qed.
Lemma length_le32 z : length (le32 z) = 4%nat.
Proof. apply length_le_split. Qed.
Lemma length_le64 z : length (le64 z) = 8%nat.
Proof. apply length_le_split. Qed.

Lemma le_combine_le16 z : le_combine (le16 z) = u16 z.
Proof. apply (le_combine_split 2). Qed.
Lemma le_combine_le32 z : le_combine (le32 z) = u32 z.
Proof. apply (le_combine_split 4). Qed.
Lemma le_combine_le64 z : le_combine (le64 z) = u64 z.
Proof. apply (le_combine_split 8). Qed.

Lemma zlen_nonneg {A} (l : list A) : 0 <= zlen l.
Proof. unfold zlen. lia. Qed.
Lemma zlen_app {A} (l k : list A) : zlen (l ++ k) = zlen l + zlen k.
Proof. unfold zlen. rewrite length_app. lia. Qed.
Lemma zlen_cons {A} (x : A) l : zlen (x :: l) = 1 + zlen l.
Proof. unfold zlen. simpl. lia. Qed.
Lemma zlen_nil {A} : zlen (@nil A) = 0.
Proof. reflexivity. Qed.

Create Rewrite HintDb l3len.
Create Rewrite HintDb l3le.
#[export] Hint Rewrite length_le16 length_le32 length_le64 @length_app : l3len.
#[export] Hint Rewrite le_combine_le16 le_combine_le32 le_combine_le64 : l3le.
#[export] Hint Resolve zlen_nonneg u32_range u64_range : l3kv.

(** ** Bitwise exclusive or on 64-bit words *)

Lemma lxor_range n a b :
  0 <= n -> 0 <= a < 2 ^ n -> 0 <= b < 2 ^ n -> 0 <= Z.lxor a b < 2 ^ n.
Proof.
  intros Hn Ha Hb.
  assert (0 <= Z.lxor a b) as Hpos by (apply Z.lxor_nonneg; lia).
  split; [done|].
  destruct (Z.eq_dec (Z.lxor a b) 0) as [->|Hne]; [apply Z.pow_pos_nonneg; lia|].
  apply Z.log2_lt_pow2; [lia|].
  destruct (Z.eq_dec n 0) as [->|Hn0].
  { assert (a = 0) as -> by lia. assert (b = 0) as -> by lia. done. }
  assert (forall c, 0 <= c < 2 ^ n -> Z.log2 c < n) as Hlog.
  { intros c Hc. destruct (Z.eq_dec c 0) as [->|]; [simpl; lia|].
    apply Z.log2_lt_pow2; lia. }
  pose proof (Z.log2_lxor a b ltac:(lia) ltac:(lia)).
  pose proof (Hlog a Ha). pose proof (Hlog b Hb). lia.
Qed.

Lemma lxor_cancel a b : Z.lxor a (Z.lxor a b) = b.
Proof. rewrite <- Z.lxor_assoc, Z.lxor_nilpotent. apply Z.lxor_0_l. Qed.

Lemma lxor_shuffle a b c d :
  Z.lxor (Z.lxor a b) (Z.lxor c d) = Z.lxor (Z.lxor a c) (Z.lxor b d).
Proof.
  rewrite !Z.lxor_assoc. f_equal. rewrite <- !Z.lxor_assoc. f_equal. apply Z.lxor_comm.
Qed.
