(* ===== verification/Clock.v ===== *)
(** * Hybrid logical clocks (src/engine/clock.hpp, src/engine/clock.cpp)

    [Timestamp] with its comparison operators, [HybridLogicalClock] ([now],
    [update], [reserve_logical]) and [ThreadLocalClock] ([now]).

    The physical clock is an input: every call of [get_physical_time] consumes the
    next element of a list of readings, and a loop that is still waiting when the
    readings run out answers [None].  The mutex makes each [HybridLogicalClock]
    operation atomic, so several threads are the interleavings of [sys_step]. The
    warnings written to [std::cerr] are not modelled. *)
From S2P Require Import Prelude.

Record Timestamp := mkTimestamp {
  wall_time : Z;
  logical : Z;
  node_id : Z
}.

#[export] Instance Timestamp_eq_dec : EqDecision Timestamp.
Proof. solve_decision. Defined.

(** ** Comparison operators *)

Definition ts_eqb (a o : Timestamp) : bool :=
  (wall_time a =? wall_time o) && (logical a =? logical o) && (node_id a =? node_id o).

Definition ts_ltb (a o : Timestamp) : bool :=
  if negb (wall_time a =? wall_time o) then wall_time a <? wall_time o
  else if negb (logical a =? logical o) then logical a <? logical o
  else node_id a <? node_id o.

Definition ts_gtb (a o : Timestamp) : bool := ts_ltb o a.
Definition ts_leb (a o : Timestamp) : bool := negb (ts_gtb a o).
Definition ts_geb (a o : Timestamp) : bool := negb (ts_ltb a o).
Definition ts_neb (a o : Timestamp) : bool := negb (ts_eqb a o).

(** ** HybridLogicalClock *)

Record HybridLogicalClock := mkHLC {
  max_wall_time_ : Z;
  max_logical_ : Z;
  node_id_ : Z
}.

(** The constructor. *)
Definition hlc_new (node : Z) : HybridLogicalClock := mkHLC 0 0 node.

Definition hlc_timestamp (c : HybridLogicalClock) : Timestamp :=
  mkTimestamp (max_wall_time_ c) (max_logical_ c) (node_id_ c).

(** [while (get_physical_time() <= max_wall_time_) yield();]: the readings left
    after the first one beyond [w]. *)
Fixpoint wait_past (w : Z) (rs : list Z) : option (list Z) :=
  match rs with
  | [] => None
  | p :: rs' => if p <=? w then wait_past w rs' else Some rs'
  end.

Definition hlc_now (rs : list Z) (c : HybridLogicalClock)
  : option (Timestamp * HybridLogicalClock * list Z) :=
  match rs with
  | [] => None
  | phys_now :: rs1 =>
      if phys_now >? max_wall_time_ c then
        let c' := mkHLC phys_now 0 (node_id_ c) in
        Some (hlc_timestamp c', c', rs1)
      else if max_logical_ c =? UINT32_MAX then
        match wait_past (max_wall_time_ c) rs1 with
        | Some (new_phys :: rs2) =>
            let c' := mkHLC new_phys 0 (node_id_ c) in
            Some (hlc_timestamp c', c', rs2)
        | _ => None
        end
      else
        let c' := mkHLC (max_wall_time_ c) (u32 (max_logical_ c + 1)) (node_id_ c) in
        Some (hlc_timestamp c', c', rs1)
  end.

Definition hlc_update (phys_now : Z) (incoming : Timestamp) (c : HybridLogicalClock)
  : HybridLogicalClock :=
  let l_old := max_wall_time_ c in
  let c_old := max_logical_ c in
  let l_msg := wall_time incoming in
  let c_msg := logical incoming in
  let w := Z.max (Z.max l_old l_msg) phys_now in
  let l :=
    if (w =? l_old) && (w =? l_msg) then u32 (Z.max c_old c_msg + 1)
    else if w =? l_old then u32 (c_old + 1)
    else if w =? l_msg then u32 (c_msg + 1)
    else 0 in
  mkHLC w l (node_id_ c).

(** [reserve_logical], with [reading] what its call of [get_physical_time] returns. *)
Definition reserve_logical (reading : Z) (c : HybridLogicalClock)
    (for_phys_time count : Z) : Z * HybridLogicalClock :=
  let phys_now := Z.max reading (max_wall_time_ c) in
  if for_phys_time <? phys_now then (-1, c)
  else
    let c1 := if for_phys_time >? max_wall_time_ c
              then mkHLC for_phys_time 0 (node_id_ c) else c in
    if UINT32_MAX - max_logical_ c1 <? u32 count then (-1, c1)
    else
      (u32 (max_logical_ c1 + 1),
       mkHLC (max_wall_time_ c1) (u32 (max_logical_ c1 + count)) (node_id_ c1)).

(** ** ThreadLocalClock *)

Record ThreadLocalClock := mkTLC {
  cached_phys_time_ : Z;
  cached_logical_next_ : Z;
  cached_logical_end_ : Z
}.

Definition tlc_new : ThreadLocalClock := mkTLC 0 0 0.

Definition BATCH_SIZE : Z := 50.

(** Step 1 of [now]: the timestamp and cache when the batch serves the call, or
    the cache with which the refill starts. *)
Definition tlc_try_batch (phys_now node : Z) (t : ThreadLocalClock)
  : Timestamp * ThreadLocalClock + ThreadLocalClock :=
  if phys_now =? cached_phys_time_ t then
    if cached_logical_next_ t <? cached_logical_end_ t then
      inl (mkTimestamp (cached_phys_time_ t) (cached_logical_next_ t) node,
           mkTLC (cached_phys_time_ t) (u32 (cached_logical_next_ t + 1))
                 (cached_logical_end_ t))
    else inr t
  else if phys_now >? cached_phys_time_ t then inr (mkTLC phys_now 0 0)
  else inr t.

(** The timestamp and cache after a reservation that started at [start_logical]. *)
Definition tlc_fill (phys_now start_logical node : Z) : Timestamp * ThreadLocalClock :=
  let next := u32 start_logical in
  (mkTimestamp phys_now next node,
   mkTLC phys_now (u32 (next + 1)) (u32 (next + BATCH_SIZE))).

(** Step 2 of [now]: the refill loop. *)
Fixpoint tlc_refill (rs : list Z) (phys_now : Z) (g : HybridLogicalClock)
    (t : ThreadLocalClock)
  : option (Timestamp * HybridLogicalClock * ThreadLocalClock * list Z) :=
  match rs with
  | [] => None
  | r :: rs1 =>
      let '(start_logical, g1) := reserve_logical r g phys_now BATCH_SIZE in
      if start_logical >=? 0 then
        let '(ts, t') := tlc_fill phys_now start_logical (node_id_ g1) in
        Some (ts, g1, t', rs1)
      else
        match rs1 with
        | [] => None
        | next_phys :: rs2 =>
            if next_phys =? phys_now then
              match hlc_now rs2 g1 with
              | Some (ts, g2, rs3) => Some (ts, g2, t, rs3)
              | None => None
              end
            else tlc_refill rs2 next_phys g1 t
        end
  end.

Definition tlc_now (rs : list Z) (g : HybridLogicalClock) (t : ThreadLocalClock)
  : option (Timestamp * HybridLogicalClock * ThreadLocalClock * list Z) :=
  match rs with
  | [] => None
  | phys_now :: rs1 =>
      match tlc_try_batch phys_now (node_id_ g) t with
      | inl (ts, t') => Some (ts, g, t', rs1)
      | inr t' => tlc_refill rs1 phys_now g t'
      end
  end.

(** ** Threads sharing one global clock

    One step is one critical section of the global clock, or one use of a thread's
    own batch.  [issued] lists every timestamp handed out so far. *)

Record clocks := mkClocks {
  global : HybridLogicalClock;
  threads : list ThreadLocalClock;
  issued : list Timestamp
}.

Definition clocks_init (node : Z) (n : nat) : clocks :=
  mkClocks (hlc_new node) (replicate n tlc_new) [].

Inductive sys_step : clocks -> clocks -> Prop :=
| step_now g ths iss rs ts g' rs' :
    Sorted Z.le rs -> hlc_now rs g = Some (ts, g', rs') ->
    sys_step (mkClocks g ths iss) (mkClocks g' ths (ts :: iss))
| step_update g ths iss phys incoming :
    max_logical_ g < UINT32_MAX -> 0 <= logical incoming < UINT32_MAX ->
    sys_step (mkClocks g ths iss) (mkClocks (hlc_update phys incoming g) ths iss)
| step_batch g ths iss i t phys ts t' :
    ths !! i = Some t -> tlc_try_batch phys (node_id_ g) t = inl (ts, t') ->
    sys_step (mkClocks g ths iss) (mkClocks g (<[i := t']> ths) (ts :: iss))
| step_expire g ths iss i t phys t' :
    ths !! i = Some t -> tlc_try_batch phys (node_id_ g) t = inr t' ->
    sys_step (mkClocks g ths iss) (mkClocks g (<[i := t']> ths) iss)
| step_reserve g ths iss i t r phys start g' ts t' :
    ths !! i = Some t -> reserve_logical r g phys BATCH_SIZE = (start, g') ->
    0 <= start -> tlc_fill phys start (node_id_ g') = (ts, t') ->
    sys_step (mkClocks g ths iss) (mkClocks g' (<[i := t']> ths) (ts :: iss))
| step_reserve_fail g ths iss r phys start g' :
    reserve_logical r g phys BATCH_SIZE = (start, g') -> start < 0 ->
    sys_step (mkClocks g ths iss) (mkClocks g' ths iss).

(** ** The comparison operators are a strict total order *)

Lemma ts_ltb_spec a b :
  ts_ltb a b = true <->
  wall_time a < wall_time b \/
  wall_time a = wall_time b /\
    (logical a < logical b \/ logical a = logical b /\ node_id a < node_id b).
Proof. unfold ts_ltb. split; intros; cases; lia. Qed.

Lemma ts_eqb_spec a b : ts_eqb a b = true <-> a = b.
Proof.
  unfold ts_eqb. rewrite !andb_true_iff, !Z.eqb_eq. destruct a, b; simpl. split.
  - intros [[-> ->] ->]. done.
  - by intros [= -> -> ->].
Qed.

Definition ts_lt (a b : Timestamp) : Prop := ts_ltb a b = true.

#[export] Instance ts_lt_strict : StrictOrder ts_lt.
Proof.
  split.
  - intros a H. apply ts_ltb_spec in H. lia.
  - intros a b c H1 H2. apply ts_ltb_spec in H1, H2. apply ts_ltb_spec. lia.
Qed.

#[export] Instance ts_lt_trichotomy : Trichotomy ts_lt.
Proof.
  intros a b. unfold ts_lt. rewrite !ts_ltb_spec.
  destruct (decide (a = b)) as [->|Hne]; [auto|].
  assert (ts_eqb a b <> true) as Hn by (by rewrite ts_eqb_spec).
  unfold ts_eqb in Hn. rewrite !andb_true_iff, !Z.eqb_eq in Hn. lia.
Qed.

Lemma ts_leb_spec a b : ts_leb a b = true <-> ts_lt a b \/ a = b.
Proof.
  unfold ts_leb, ts_gtb. rewrite negb_true_iff. split.
  - intros H. destruct (trichotomy ts_lt a b) as [?|[?|Hgt]]; auto. unfold ts_lt in *. congruence.
  - intros [H| ->]; apply not_true_is_false; intros H'.
    + by apply (irreflexivity ts_lt a), (transitivity H H').
    + by apply (irreflexivity ts_lt b).
Qed.

(** ** Positions: the pair a clock advances lexicographically *)

Definition position : Type := Z * Z.
Definition plt (a b : position) : Prop := a.1 < b.1 \/ a.1 = b.1 /\ a.2 < b.2.
Definition ple (a b : position) : Prop := a.1 < b.1 \/ a.1 = b.1 /\ a.2 <= b.2.
Definition hlc_pos (c : HybridLogicalClock) : position := (max_wall_time_ c, max_logical_ c).
Definition ts_pos (t : Timestamp) : position := (wall_time t, logical t).
Definition hlc_wf (c : HybridLogicalClock) : Prop := 0 <= max_logical_ c <= UINT32_MAX.

Lemma plt_irrefl a b : plt a b -> ple b a -> False.
Proof. unfold plt, ple. lia. Qed.
Lemma ple_trans a b c : ple a b -> ple b c -> ple a c.
Proof. unfold ple. lia. Qed.
Lemma plt_le a b : plt a b -> ple a b.
Proof. unfold plt, ple. lia. Qed.

Lemma plt_ts_lt a b : plt (ts_pos a) (ts_pos b) -> ts_lt a b.
Proof. unfold plt, ts_lt. simpl. rewrite ts_ltb_spec. lia. Qed.

Lemma wait_past_suffix w rs rs' :
  Sorted Z.le rs -> wait_past w rs = Some rs' -> Forall (fun p => w < p) rs'.
Proof.
  intros Hs%Sorted_StronglySorted; [|intros x y z; lia].
  induction Hs as [|p rs Hs IH Hall]; simpl; [done|].
  destruct (Z.leb_spec p w); [apply IH|].
  intros [= <-]. eapply Forall_impl; [apply Hall|]. simpl. lia.
Qed.

Lemma hlc_now_spec rs c ts c' rs' :
  hlc_wf c -> Sorted Z.le rs -> hlc_now rs c = Some (ts, c', rs') ->
  plt (hlc_pos c) (hlc_pos c') /\ hlc_wf c' /\ ts = hlc_timestamp c' /\ node_id_ c' = node_id_ c.
Proof.
  unfold hlc_now, hlc_wf, plt, hlc_pos, UINT32_MAX. intros Hwf Hs H.
  destruct rs as [|p rs1]; [done|]. apply Sorted_inv in Hs as [Hs _].
  cases; simpl; rewrite ?u32_small by lia; try (repeat split; lia).
  pose proof (wait_past_suffix _ _ _ Hs Heqo) as Hf. inversion Hf; subst.
  repeat split; lia.
Qed.

Lemma hlc_update_spec phys inc c :
  hlc_wf c -> max_logical_ c < UINT32_MAX -> 0 <= logical inc < UINT32_MAX ->
  let c' := hlc_update phys inc c in
  plt (hlc_pos c) (hlc_pos c') /\ plt (ts_pos inc) (hlc_pos c') /\ hlc_wf c' /\
  node_id_ c' = node_id_ c.
Proof.
  unfold hlc_update, hlc_wf, plt, hlc_pos, ts_pos, UINT32_MAX. simpl. intros.
  repeat case_match; simpl; bool_prop; rewrite ?u32_small by lia; try lia;
    repeat match goal with H : (_ && _)%bool = false |- _ => apply andb_false_iff in H end;
    rewrite ?Z.eqb_neq in *; repeat split; lia.
Qed.

Lemma reserve_logical_spec r c phys count start c' :
  hlc_wf c -> 0 < count <= UINT32_MAX -> reserve_logical r c phys count = (start, c') ->
  ple (hlc_pos c) (hlc_pos c') /\ hlc_wf c' /\ node_id_ c' = node_id_ c /\
  (start = -1 \/
   max_wall_time_ c' = phys /\ 0 < start /\ start + count = max_logical_ c' + 1 /\
   plt (hlc_pos c) (phys, start)).
Proof.
  unfold reserve_logical, hlc_wf, ple, plt, hlc_pos, UINT32_MAX. intros Hwf Hc H.
  destruct (Z.ltb_spec phys (Z.max r (max_wall_time_ c))).
  { simplify_eq. repeat split; lia. }
  cases; simpl in *; rewrite ?u32_small in * by lia; repeat split; lia.
Qed.

(** ** Uniqueness of timestamps across interleavings *)

(** The positions a thread may still hand out from its batch. *)
Definition owns (t : ThreadLocalClock) (p : position) : Prop :=
  p.1 = cached_phys_time_ t /\ cached_logical_next_ t <= p.2 < cached_logical_end_ t.

Definition tlc_wf (t : ThreadLocalClock) : Prop :=
  0 <= cached_logical_next_ t /\ cached_logical_end_ t < 2 ^ 32.

Record clocks_inv (s : clocks) : Prop := {
  inv_wf : hlc_wf (global s);
  inv_threads : Forall tlc_wf (threads s);
  inv_issued_le : forall ts, ts ∈ issued s -> ple (ts_pos ts) (hlc_pos (global s));
  inv_owned_le : forall i t p, threads s !! i = Some t -> owns t p -> ple p (hlc_pos (global s));
  inv_disjoint : forall i j t t' p,
    threads s !! i = Some t -> threads s !! j = Some t' -> owns t p -> owns t' p -> i = j;
  inv_fresh : forall i t ts,
    threads s !! i = Some t -> ts ∈ issued s -> owns t (ts_pos ts) -> False;
  inv_nodup : NoDup (ts_pos <$> issued s)
}.

(** Between [g] and [g'] the global clock passed over [p]. *)
Definition passed (g g' : HybridLogicalClock) (p : position) : Prop :=
  plt (hlc_pos g) p /\ ple p (hlc_pos g').

Lemma inv_silent s i g' ths' :
  clocks_inv s -> ple (hlc_pos (global s)) (hlc_pos g') -> hlc_wf g' -> Forall tlc_wf ths' ->
  (forall j t' p, ths' !! j = Some t' -> owns t' p ->
     (exists t, threads s !! j = Some t /\ owns t p) \/ (j = i /\ passed (global s) g' p)) ->
  clocks_inv (mkClocks g' ths' (issued s)).
Proof.
  intros Hs Hle Hwf Hths Hown. split; simpl; [done|done|..].
  - eauto using ple_trans, inv_issued_le.
  - intros j t p Hj Ho. destruct (Hown _ _ _ Hj Ho) as [(t0 & ? & ?)|[_ []]]; [|done].
    eauto using ple_trans, inv_owned_le.
  - intros j k t t' p Hj Hk Hp Hp'.
    destruct (Hown _ _ _ Hj Hp) as [(t0 & ? & ?)|[-> [Hf ?]]],
             (Hown _ _ _ Hk Hp') as [(t1 & ? & ?)|[-> [Hf' ?]]]; eauto using inv_disjoint.
    all: exfalso; eauto using plt_irrefl, inv_owned_le.
  - intros j t ts Hj Hin Ho. destruct (Hown _ _ _ Hj Ho) as [(t0 & ? & ?)|[_ [Hf _]]].
    + eauto using inv_fresh.
    + eauto using plt_irrefl, inv_issued_le.
  - by apply inv_nodup.
Qed.

Lemma inv_issue s i g' ths' ts :
  clocks_inv s -> ple (hlc_pos (global s)) (hlc_pos g') -> hlc_wf g' -> Forall tlc_wf ths' ->
  (forall j t' p, ths' !! j = Some t' -> owns t' p ->
     (exists t, threads s !! j = Some t /\ owns t p) \/ (j = i /\ passed (global s) g' p)) ->
  (passed (global s) g' (ts_pos ts) \/
   (exists t, threads s !! i = Some t /\ owns t (ts_pos ts))) ->
  (forall t', ths' !! i = Some t' -> owns t' (ts_pos ts) -> False) ->
  clocks_inv (mkClocks g' ths' (ts :: issued s)).
Proof.
  intros Hs Hle Hwf Hths Hown Hts Hgone.
  pose proof (inv_silent _ _ _ _ Hs Hle Hwf Hths Hown) as Hs'.
  assert (ts_pos ts ∉ ts_pos <$> issued s) as Hnew.
  { intros (ts0 & Heq & Hin)%list_elem_of_fmap.
    destruct Hts as [[Hf _]|(t & Ht & Ho)]; rewrite Heq in *.
    - eauto using plt_irrefl, inv_issued_le.
    - eauto using inv_fresh. }
  split; simpl; [done|done|..].
  - intros ts0 [->|Hin]%elem_of_cons; [|by eapply (inv_issued_le _ Hs')].
    destruct Hts as [[_ ?]|(t & ? & ?)]; [done|]. eauto using ple_trans, inv_owned_le.
  - apply (inv_owned_le _ Hs').
  - apply (inv_disjoint _ Hs').
  - intros j t ts0 Hj [->|Hin]%elem_of_cons Ho; [|by eapply (inv_fresh _ Hs')].
    destruct (decide (j = i)) as [->|Hne]; [eauto|].
    destruct (Hown _ _ _ Hj Ho) as [(t0 & ? & ?)|[-> _]]; [|done].
    destruct Hts as [[Hf _]|(t1 & ? & ?)].
    + eauto using plt_irrefl, inv_owned_le.
    + eauto using inv_disjoint.
  - apply NoDup_cons. split; [done|]. by apply inv_nodup.
Qed.

Lemma owns_insert (ths : list ThreadLocalClock) i t t' (Q : position -> Prop) :
  ths !! i = Some t -> (forall p, owns t' p -> owns t p \/ Q p) ->
  forall j t0 p, <[i := t']> ths !! j = Some t0 -> owns t0 p ->
    (exists t1, ths !! j = Some t1 /\ owns t1 p) \/ (j = i /\ Q p).
Proof.
  intros Hi Hq j t0 p. rewrite list_lookup_insert_Some.
  intros [(-> & -> & _)|[Hne Hj]] Ho; [|by eauto].
  destruct (Hq _ Ho) as [?|?]; eauto.
Qed.

Lemma tlc_try_batch_owns phys node t :
  tlc_wf t ->
  match tlc_try_batch phys node t with
  | inl (ts, t') => owns t (ts_pos ts) /\ ~ owns t' (ts_pos ts) /\ tlc_wf t' /\
                    forall p, owns t' p -> owns t p
  | inr t' => tlc_wf t' /\ forall p, owns t' p -> owns t p
  end.
Proof.
  unfold tlc_try_batch, owns, tlc_wf. intros Hwf. cases; simpl in *; try by auto.
  - rewrite u32_small by lia. repeat split; lia.
  - split; [lia|]. intros p. lia.
Qed.

Lemma tlc_fill_owns phys start node ts t' :
  0 < start -> start + BATCH_SIZE <= 2 ^ 32 -> tlc_fill phys start node = (ts, t') ->
  ts = mkTimestamp phys start node /\ tlc_wf t' /\
  forall p, owns t' p -> p.1 = phys /\ start < p.2 < start + BATCH_SIZE.
Proof.
  unfold tlc_fill, owns, tlc_wf, BATCH_SIZE. intros Hs Hm H.
  rewrite (u32_small start) in H by lia. simplify_eq. simpl.
  pose proof (u32_range (start + 50)). rewrite (u32_small (start + 1)) by lia.
  split; [done|]. split; [lia|]. intros p [-> Hp]. split; [done|].
  destruct (decide (start + 50 < 2 ^ 32)).
  - rewrite u32_small in Hp by lia. lia.
  - assert (start + 50 = 2 ^ 32) as E by lia. rewrite E in Hp.
    change (u32 (2 ^ 32)) with 0 in Hp. lia.
Qed.

Lemma clocks_step_inv s s' : clocks_inv s -> sys_step s s' -> clocks_inv s'.
Proof.
  intros Hs Hstep. pose proof (inv_wf _ Hs) as Hwf. pose proof (inv_threads _ Hs) as Hths.
  destruct Hstep; simpl in *.
  - destruct (hlc_now_spec _ _ _ _ _ Hwf H H0) as (Hlt & Hwf' & -> & _).
    apply (inv_issue (mkClocks g ths iss) (length ths)); simpl; eauto using plt_le.
    + left. split; [done|]. unfold ple. simpl. lia.
    + intros t' Ht'. apply lookup_lt_Some in Ht'. lia.
  - destruct (hlc_update_spec phys incoming _ Hwf H H0) as (Hlt & _ & Hwf' & _).
    apply (inv_silent (mkClocks g ths iss) 0%nat); simpl; eauto using plt_le.
  - pose proof (tlc_try_batch_owns phys (node_id_ g) t) as Hb. rewrite H0 in Hb.
    destruct Hb as (Ho & Hno & Hwf' & Hsub); [by eapply Forall_lookup_1|].
    apply (inv_issue (mkClocks g ths iss) i); simpl; eauto using Forall_insert.
    + unfold ple. lia.
    + eapply owns_insert; eauto.
    + intros t0. rewrite list_lookup_insert_eq by eauto using lookup_lt_Some. congruence.
  - pose proof (tlc_try_batch_owns phys (node_id_ g) t) as Hb. rewrite H0 in Hb.
    destruct Hb as (Hwf' & Hsub); [by eapply Forall_lookup_1|].
    apply (inv_silent (mkClocks g ths iss) i); simpl; eauto using Forall_insert.
    + unfold ple. lia.
    + eapply owns_insert; eauto.
  - destruct (reserve_logical_spec _ _ _ BATCH_SIZE _ _ Hwf ltac:(done) H0)
      as (Hle & Hwf' & _ & [->|(Hw & Hpos & Hend & Hlt)]); [done|].
    unfold hlc_wf, UINT32_MAX in Hwf'.
    destruct (tlc_fill_owns _ _ _ _ _ Hpos ltac:(lia) H2) as (-> & Ht' & Hsub).
    apply (inv_issue (mkClocks g ths iss) i); simpl; eauto using Forall_insert.
    + eapply owns_insert; [done|]. intros p Hp. right. destruct (Hsub p Hp).
      unfold passed, plt, ple, hlc_pos in *. simpl in *. unfold BATCH_SIZE in *. lia.
    + left. split; [done|]. unfold ple, ts_pos, hlc_pos, BATCH_SIZE in *. simpl. lia.
    + intros t0. rewrite list_lookup_insert_eq by eauto using lookup_lt_Some.
      intros [= <-] Ho%Hsub. simpl in Ho. lia.
  - destruct (reserve_logical_spec _ _ _ BATCH_SIZE _ _ Hwf ltac:(done) H) as (? & ? & _ & _).
    apply (inv_silent (mkClocks g ths iss) 0%nat); simpl; eauto.
Qed.

Lemma clocks_init_inv node n : clocks_inv (clocks_init node n).
Proof.
  assert (forall i t, replicate n tlc_new !! i = Some t -> forall p, ~ owns t p) as Hno.
  { intros i t [-> _]%lookup_replicate p [_ Hp]. simpl in Hp. lia. }
  split; simpl.
  - unfold hlc_wf, UINT32_MAX. simpl. lia.
  - apply Forall_replicate. split; simpl; lia.
  - by intros ts ?%elem_of_nil.
  - intros i t p Ht Ho. destruct (Hno _ _ Ht _ Ho).
  - intros i j t t' p Ht _ Ho. destruct (Hno _ _ Ht _ Ho).
  - intros i t ts _ Hin. by apply elem_of_nil in Hin.
  - constructor.
Qed.

Lemma clocks_reachable_inv node n s :
  rtc sys_step (clocks_init node n) s -> clocks_inv s.
Proof.
  assert (forall a b, rtc sys_step a b -> clocks_inv a -> clocks_inv b) as H.
  { induction 1; eauto using clocks_step_inv. }
  intros Hr. by eapply H, clocks_init_inv.
Qed.

Lemma tlc_refill_steps rs : forall phys g t ths iss i ts g' t' rs',
  ths !! i = Some t -> Sorted Z.le rs ->
  tlc_refill rs phys g t = Some (ts, g', t', rs') ->
  rtc sys_step (mkClocks g ths iss) (mkClocks g' (<[i := t']> ths) (ts :: iss)).
Proof.
  induction rs as [rs IH] using (induction_ltof1 _ (@length Z)). unfold ltof in IH.
  intros phys g t ths iss i ts g' t' rs' Hi Hs H.
  destruct rs as [|r rs1]; [done|]. cbn [tlc_refill] in H.
  apply Sorted_inv in Hs as [Hs _].
  destruct (reserve_logical r g phys BATCH_SIZE) as [start g1] eqn:Hr.
  destruct (start >=? 0) eqn:Hge; bool_prop.
  { destruct (tlc_fill phys start (node_id_ g1)) as [ts0 t0] eqn:Hf. simplify_eq.
    apply rtc_once. eapply step_reserve; eauto. }
  destruct rs1 as [|np rs2]; [done|]. apply Sorted_inv in Hs as [Hs _].
  eapply rtc_l; [by eapply step_reserve_fail|].
  destruct (np =? phys).
  - destruct (hlc_now rs2 g1) as [[[ts0 g2] rs3]|] eqn:Hn; simplify_eq.
    rewrite list_insert_id by done. apply rtc_once. by eapply step_now.
  - eapply (IH rs2); eauto. simpl. lia.
Qed.

(** ** Properties *)

(** C12: no timestamp is handed out twice.  Whatever the interleaving of [now] on the
    global clock, batched [now] calls of any number of thread-local clocks, [update]s
    from the network and failed reservations, all issued timestamps are distinct, provided the
    readings of the physical clock do not run backwards within one call of [now] (they may
    between calls) and updates happen while the logical counters of clock and message are below
    [UINT32_MAX] ([hlc_update_overflow_regresses] below shows what happens otherwise). *)
Theorem timestamps_unique node n s :
  rtc sys_step (clocks_init node n) s -> NoDup (issued s).
Proof.
  intros Hr. eapply (NoDup_fmap_1 ts_pos), inv_nodup, clocks_reachable_inv, Hr.
Qed.

Lemma timestamps_unique_witness :
  rtc sys_step (clocks_init 7 1)
    (mkClocks (mkHLC 10 50 7) [mkTLC 10 2 51] [mkTimestamp 10 1 7])
  /\ NoDup (issued (mkClocks (mkHLC 10 50 7) [mkTLC 10 2 51] [mkTimestamp 10 1 7])).
Proof.
  assert (rtc sys_step (clocks_init 7 1)
    (mkClocks (mkHLC 10 50 7) [mkTLC 10 2 51] [mkTimestamp 10 1 7])) as H.
  { apply rtc_once.
    apply (step_reserve (hlc_new 7) [tlc_new] [] 0 tlc_new 10 10 1); done. }
  split; [exact H|exact (timestamps_unique 7 1 _ H)].
Defined.

(** One call of [ThreadLocalClock::now] is a run of the interleaving semantics:
    a batch use, or failed reservations followed by a successful one or by the
    fallback to the global clock, ending in the state and timestamp the code computes. *)
Theorem tlc_now_refines rs g t ths iss i ts g' t' rs' :
  ths !! i = Some t -> Sorted Z.le rs -> tlc_now rs g t = Some (ts, g', t', rs') ->
  rtc sys_step (mkClocks g ths iss) (mkClocks g' (<[i := t']> ths) (ts :: iss)).
Proof.
  intros Hi Hs H. destruct rs as [|phys rs1]; [done|]. simpl in H.
  apply Sorted_inv in Hs as [Hs _].
  destruct (tlc_try_batch phys (node_id_ g) t) as [[ts0 t0]|t0] eqn:Hb.
  - simplify_eq. apply rtc_once. by eapply step_batch.
  - eapply rtc_l; [by eapply step_expire|].
    rewrite <- (list_insert_insert_eq ths i t' t0).
    eapply tlc_refill_steps; [|done|done].
    apply list_lookup_insert_eq. eauto using lookup_lt_Some.
Qed.

Lemma tlc_now_refines_witness :
  rtc sys_step (mkClocks (mkHLC 100 3 7) [tlc_new] [])
    (mkClocks (mkHLC 100 4 7) [mkTLC 40 0 0] [mkTimestamp 100 4 7]).
Proof.
  apply (tlc_now_refines [40; 40; 40; 41] (mkHLC 100 3 7) tlc_new [tlc_new] [] 0
           (mkTimestamp 100 4 7) (mkHLC 100 4 7) (mkTLC 40 0 0) []);
    [done| repeat constructor; lia |reflexivity].
Defined.

(** Any operation of the global clock, under the conditions above. *)
Inductive hlc_step : HybridLogicalClock -> HybridLogicalClock -> Prop :=
| hs_now rs c ts c' rs' :
    Sorted Z.le rs -> hlc_now rs c = Some (ts, c', rs') -> hlc_step c c'
| hs_update phys incoming c :
    max_logical_ c < UINT32_MAX -> 0 <= logical incoming < UINT32_MAX ->
    hlc_step c (hlc_update phys incoming c)
| hs_reserve reading phys count start c c' :
    0 < count <= UINT32_MAX -> reserve_logical reading c phys count = (start, c') -> hlc_step c c'.

Lemma hlc_step_advances c c' : hlc_wf c -> hlc_step c c' -> ple (hlc_pos c) (hlc_pos c') /\ hlc_wf c'.
Proof.
  intros Hwf Hstep. revert Hwf. destruct Hstep as [rs c ts c1 rs' Hs Hn|phys incoming c Hl Hi|reading phys count start c c1 Hc Hr];
    intros Hwf.
  - destruct (hlc_now_spec _ _ _ _ _ Hwf Hs Hn) as (H & H' & _). eauto using plt_le.
  - destruct (hlc_update_spec phys incoming _ Hwf Hl Hi) as (H & _ & H' & _). eauto using plt_le.
  - by destruct (reserve_logical_spec _ _ _ _ _ _ Hwf Hc Hr) as (H & H' & _).
Qed.

Lemma hlc_steps_advance c c' : rtc hlc_step c c' -> hlc_wf c -> ple (hlc_pos c) (hlc_pos c') /\ hlc_wf c'.
Proof.
  induction 1 as [c|c1 c2 c3 Hs _ IH]; intros Hwf; [split; [unfold ple; lia|done]|].
  destruct (hlc_step_advances _ _ Hwf Hs) as [H1 H2]. destruct (IH H2) as [H3 H4]. eauto using ple_trans.
Qed.

(** C28: the send and receive rules keep causality.  After [update(incoming)], and any number
    of further operations, every timestamp [now] returns is greater than [incoming] and than any
    timestamp the clock had reached before the update, in the order the store compares
    timestamps with; provided every update happens while the logical counters of clock and
    message are below [UINT32_MAX] and the readings of the physical clock do not run backwards
    within one call of [now]. *)
Theorem hlc_causality c phys incoming c1 rs ts c' rs' (prev : Timestamp) :
  hlc_wf c -> max_logical_ c < UINT32_MAX -> 0 <= logical incoming < UINT32_MAX ->
  rtc hlc_step (hlc_update phys incoming c) c1 ->
  Sorted Z.le rs -> hlc_now rs c1 = Some (ts, c', rs') ->
  ple (ts_pos prev) (hlc_pos c) ->
  ts_lt incoming ts /\ ts_lt prev ts.
Proof.
  intros Hwf Hl Hi Hsteps Hs Hn Hp.
  destruct (hlc_update_spec phys incoming c Hwf Hl Hi) as (H1 & H2 & Hwf' & _).
  destruct (hlc_steps_advance _ _ Hsteps Hwf') as [H4 Hwf1].
  destruct (hlc_now_spec _ _ _ _ _ Hwf1 Hs Hn) as (H3 & _ & -> & _).
  unfold plt, ple, hlc_pos in *. simpl in *.
  split; apply plt_ts_lt; unfold plt; simpl in *; lia.
Qed.

(** Between the update and the call of [now] a thread reserves a batch. *)
Lemma hlc_causality_witness :
  ts_lt (mkTimestamp 90 5 2) (mkTimestamp 90 57 1) /\
  ts_lt (mkTimestamp 50 9 1) (mkTimestamp 90 57 1).
Proof.
  apply (hlc_causality (mkHLC 50 9 1) 60 (mkTimestamp 90 5 2) (mkHLC 90 56 1) [61; 62]
           (mkTimestamp 90 57 1) (mkHLC 90 57 1) [62]); try (simpl; unfold UINT32_MAX; lia).
  - unfold hlc_wf, UINT32_MAX. simpl. lia.
  - apply rtc_once. by apply (hs_reserve 61 90 50 7).
  - repeat constructor; lia.
  - reflexivity.
  - unfold ple. simpl. lia.
Defined.

(** C29: [now] returns.  When the reading of the physical clock is past the clock's wall time,
    or the logical counter is not exhausted, it returns at once, with that one reading; in the
    remaining case it waits, through however many readings, until the physical clock reads past
    the wall time, and the reading after that ends the call and is the time of the timestamp. *)
Theorem hlc_now_terminates c p :
  (forall rest, max_wall_time_ c < p \/ max_logical_ c <> UINT32_MAX ->
     exists ts c', hlc_now (p :: rest) c = Some (ts, c', rest)) /\
  (forall waits q q' rest,
     p <= max_wall_time_ c -> max_logical_ c = UINT32_MAX ->
     Forall (fun r => r <= max_wall_time_ c) waits -> max_wall_time_ c < q ->
     hlc_now (p :: waits ++ q :: q' :: rest) c =
       Some (mkTimestamp q' 0 (node_id_ c), mkHLC q' 0 (node_id_ c), rest)).
Proof.
  unfold hlc_now. split.
  - intros rest H. destruct (p >? max_wall_time_ c) eqn:E; [eauto|]. bool_prop.
    destruct (Z.eqb_spec (max_logical_ c) UINT32_MAX); [lia|eauto].
  - intros waits q q' rest Hp Hl Hw Hq. rewrite Hl, Z.eqb_refl.
    destruct (p >? max_wall_time_ c) eqn:E; bool_prop; [lia|].
    assert (wait_past (max_wall_time_ c) (waits ++ q :: q' :: rest) = Some (q' :: rest)) as ->; [|done].
    induction Hw as [|r ws Hr Hws IH]; simpl.
    + destruct (Z.leb_spec q (max_wall_time_ c)); [lia|done].
    + destruct (Z.leb_spec r (max_wall_time_ c)); [done|lia].
Qed.

Lemma hlc_now_terminates_witness :
  hlc_now [9; 9; 10; 11; 12] (mkHLC 10 UINT32_MAX 1) = Some (mkTimestamp 12 0 1, mkHLC 12 0 1, []) /\
  exists ts c', hlc_now [9; 9] (mkHLC 10 5 1) = Some (ts, c', [9]).
Proof.
  split.
  - apply (proj2 (hlc_now_terminates (mkHLC 10 UINT32_MAX 1) 9) [9; 10] 11 12 []); try (simpl; lia).
    repeat constructor; simpl; lia.
  - apply (proj1 (hlc_now_terminates (mkHLC 10 5 1) 9) [9]). right. discriminate.
Defined.

(** A thread-local clock is not causal.  Its [update] reaches only the global clock,
    so a batch reserved before a message arrived still serves the next [now] with a
    timestamp below the message's. *)
Theorem tlc_update_not_causal :
  exists g t phys incoming ts t',
    tlc_now [100; 100] (hlc_new 1) tlc_new = Some (mkTimestamp 100 1 1, g, t, []) /\
    tlc_now [phys] (hlc_update phys incoming g) t =
      Some (ts, hlc_update phys incoming g, t', []) /\
    ts_lt ts incoming.
Proof.
  exists (mkHLC 100 50 1), (mkTLC 100 2 51), 100, (mkTimestamp 200 0 2),
    (mkTimestamp 100 2 1), (mkTLC 100 3 51).
  split; [reflexivity|]. split; reflexivity.
Qed.

(** [update] has no overflow protection.  A message whose logical counter is
    [UINT32_MAX] wraps the local counter to 0, and the next timestamp is below the
    message's (and below timestamps this node issued itself). *)
Theorem hlc_update_overflow_regresses :
  exists c ts c' rs',
    c = hlc_update 100 (mkTimestamp 200 UINT32_MAX 2) (mkHLC 200 7 1) /\
    hlc_now [100] c = Some (ts, c', rs') /\
    ts_lt ts (mkTimestamp 200 UINT32_MAX 2) /\ ts_lt ts (mkTimestamp 200 7 1).
Proof.
  exists (mkHLC 200 0 1), (mkTimestamp 200 1 1), (mkHLC 200 1 1), [].
  split; [reflexivity|]. split; [reflexivity|]. split; reflexivity.
Qed.
