(* ===== verification/Extern.v ===== *)
(** * The libraries the engine is written against

    Code outside the repository is a parameter: [XXH3_64bits] (xxHash), the
    [lite3cpp::Buffer] document type and its JSON reader, and the zstd dictionary
    compressor.  Each is a class of operations, with a second class of laws for the
    documented behaviour the theorems rely on. *)
From Stdlib Require SpecFloat.
From S2P Require Import Prelude.

(** ** xxHash *)

Class XXH3 := XXH3_64bits : bytes -> Z.

(** The result is an [XXH64_hash_t], a 64-bit unsigned integer. *)
Class XXH3Spec `{!XXH3} : Prop := XXH3_range d : 0 <= XXH3_64bits d < 2 ^ 64.

(** A concrete hash for evaluating the model. *)
Definition sample_hash (d : bytes) : Z :=
  foldl (fun h b => u64 (Z.lxor h (byte.unsigned b) * 1099511628211)) 14695981039346656037 d.

Lemma sample_hash_range d : 0 <= sample_hash d < 2 ^ 64.
Proof.
  unfold sample_hash. destruct d as [|b d] using rev_ind.
  - vm_compute. done.
  - rewrite foldl_app. simpl. apply u64_range.
Qed.

(** ** lite3-cpp

    A [lite3cpp::Buffer] is the bytes it holds ([data()], [size()]); constructing one
    from a byte range copies the range, and capacity is invisible.  [None] is a thrown
    exception.  Every call in the sources addresses the root object at offset 0. *)

Inductive lite3_type := TNull | TBool | TInt64 | TFloat64 | TBytes | TString | TOther.

#[export] Instance lite3_type_eq_dec : EqDecision lite3_type.
Proof. solve_decision. Defined.

Class Lite3 := {
  buffer_default : bytes;                                   (* Buffer() *)
  buffer_capacity : nat -> bytes;                           (* Buffer(cap) *)
  init_object : bytes -> bytes;
  set_i64 : bytes -> bytes -> Z -> option bytes;
  set_str : bytes -> bytes -> bytes -> option bytes;
  set_bytes : bytes -> bytes -> bytes -> option bytes;
  set_bool : bytes -> bytes -> bool -> option bytes;
  get_type : bytes -> bytes -> option lite3_type;
  get_i64 : bytes -> bytes -> option Z;
  get_f64 : bytes -> bytes -> option SpecFloat.spec_float;
  get_str : bytes -> bytes -> option bytes;
  get_bytes : bytes -> bytes -> option bytes;
  get_bool : bytes -> bytes -> option bool;
  object_keys : bytes -> option (list bytes);               (* begin(0) .. end(0) *)
  from_json_string : bytes -> option bytes
}.

(** Two buffers whose fields other than [k] read the same. *)
Definition same_fields `{!Lite3} (k b b' : bytes) : Prop :=
  forall k', k' <> k ->
    get_type b' k' = get_type b k' /\ get_i64 b' k' = get_i64 b k' /\
    get_bool b' k' = get_bool b k' /\ get_str b' k' = get_str b k' /\ get_bytes b' k' = get_bytes b k'.

(** Documented behaviour of object buffers: an object is a non-empty buffer whose first
    byte is the type tag the store tests for, a field that was set is read back with its
    type, setting one field leaves the others alone, and a missing field has type Null. *)
Class Lite3Spec `{!Lite3} := {
  lite3_object : bytes -> Prop;
  data_default : buffer_default = [];
  data_capacity_0 : buffer_capacity 0 = [];
  object_tag b : lite3_object b -> exists t, b = Byte.x06 :: t;
  init_object_ok b : lite3_object (init_object b);
  init_object_null b k : get_type (init_object b) k = Some TNull;
  set_i64_ok b k v : lite3_object b -> - 2 ^ 63 <= v < 2 ^ 63 ->
    exists b', set_i64 b k v = Some b' /\ lite3_object b' /\ same_fields k b b' /\
      get_type b' k = Some TInt64 /\ get_i64 b' k = Some v;
  set_bool_ok b k v : lite3_object b ->
    exists b', set_bool b k v = Some b' /\ lite3_object b' /\ same_fields k b b' /\
      get_type b' k = Some TBool /\ get_bool b' k = Some v;
  set_str_ok b k v : lite3_object b ->
    exists b', set_str b k v = Some b' /\ lite3_object b' /\ same_fields k b b' /\
      get_type b' k = Some TString /\ get_str b' k = Some v;
  set_bytes_ok b k v : lite3_object b ->
    exists b', set_bytes b k v = Some b' /\ lite3_object b' /\ same_fields k b b' /\
      get_type b' k = Some TBytes /\ get_bytes b' k = Some v
}.

(** ** zstd with dictionaries *)

Class Zstd := {
  CDict : Type;
  DDict : Type;
  train_from_samples : nat -> list bytes -> option bytes;   (* ZDICT_trainFromBuffer *)
  create_cdict : bytes -> option CDict;
  create_ddict : bytes -> option DDict;
  compress_using : CDict -> bytes -> option bytes;
  decompress_using : DDict -> bytes -> nat -> option bytes
}.

(** Decompressing into a buffer of the original size with the dictionary the data was
    compressed with gives the data back; a dictionary that can be loaded for compression
    can be loaded for decompression; a compressed frame has a header. *)
Class ZstdSpec `{!Zstd} : Prop := {
  ddict_exists d c : create_cdict d = Some c -> is_Some (create_ddict d);
  zstd_roundtrip d c dd x y :
    create_cdict d = Some c -> create_ddict d = Some dd ->
    compress_using c x = Some y -> decompress_using dd y (length x) = Some x;
  zstd_nonempty c x y : compress_using c x = Some y -> y <> []
}.
