(* ===== verification/Merkle.v ===== *)
(** * The lazily updated Merkle tree (src/engine/merkle.hpp)

    [apply_delta] touches one leaf and one dirty flag; [get_root_hash] rehashes the
    dirty branches.  The per-shard mutexes and [global_mx_] make the two operations
    atomic with respect to each other on the data they share, so they are functions
    on the tree.  Theorems: the lazy tree always answers what a full rehash of the
    leaves would answer. *)
From S2P Require Import Prelude Extern.

Definition L4_SIZE : nat := (256 * 256)%nat.
Definition L3_SIZE : nat := (256 * 16)%nat.
Definition SHARD_COUNT : nat := 256%nat.

Record MerkleTree := mkMerkle {
  leaves_ : list Z;
  l3_ : list Z;
  l3_dirty_ : list bool;
  l2_ : list Z;
  l2_dirty_ : list bool;
  l1_ : list Z;
  l1_dirty_ : list bool;
  l0_ : list Z;
  l0_dirty_ : list bool
}.

Section Merkle.
Context {xxh : XXH3}.

(** [fnv1a_64], which despite its name is XXH3. *)
Definition fnv1a_64 (data : bytes) : Z := XXH3_64bits data.

(** [fnv1a_64(p, 16 * sizeof(uint64_t))] on the memory of an array of words. *)
Definition hash_block (ws : list Z) : Z := fnv1a_64 (concat (le64 <$> ws)).

(** The 16 children of node [i] in the level below. *)
Definition block (child : list Z) (i : nat) : list Z := take 16 (drop (i * 16) child).

Definition merkle_new : MerkleTree :=
  let h_l3 := hash_block (replicate 16 0) in
  let h_l2 := hash_block (replicate 16 h_l3) in
  let h_l1 := hash_block (replicate 16 h_l2) in
  let h_l0 := hash_block (replicate 16 h_l1) in
  mkMerkle (replicate L4_SIZE 0)
    (replicate L3_SIZE h_l3) (replicate L3_SIZE false)
    (replicate 256 h_l2) (replicate 256 false)
    (replicate 16 h_l1) (replicate 16 false)
    (replicate 1 h_l0) (replicate 1 false).

(** [(k_hash >> 48) & 0xFFFF] *)
Definition bucket_of (key : bytes) : nat :=
  Z.to_nat (Z.land (Z.shiftr (fnv1a_64 key) 48) 0xFFFF).

Definition apply_delta (key : bytes) (hash_delta : Z) (t : MerkleTree) : MerkleTree :=
  let bucket_idx := bucket_of key in
  mkMerkle (alter (fun h : Z => Z.lxor h hash_delta) bucket_idx (leaves_ t))
    (l3_ t) (<[(bucket_idx / 16)%nat := true]> (l3_dirty_ t))
    (l2_ t) (l2_dirty_ t) (l1_ t) (l1_dirty_ t) (l0_ t) (l0_dirty_ t).

(** One iteration of the loops of [recompute_dirty]: node [i] of a level, with the
    level below in [child] and the dirty flags of the level above in [up]. *)
Definition refresh_node (child : list Z) (s : list Z * list bool * list bool) (i : nat)
  : list Z * list bool * list bool :=
  let '(vals, dirty, up) := s in
  if (dirty !!! i : bool) then
    (<[i := hash_block (block child i)]> vals, <[i := false]> dirty,
     <[(i / 16)%nat := true]> up)
  else s.

(** Phase 1 visits the level-3 nodes shard by shard. *)
Definition l3_order : list nat :=
  flat_map (fun s => map (fun i => s * 16 + i)%nat (seq 0 16)) (seq 0 SHARD_COUNT).

Definition recompute_dirty (t : MerkleTree) : MerkleTree :=
  let '(l3, d3, d2) :=
    foldl (refresh_node (leaves_ t)) (l3_ t, l3_dirty_ t, l2_dirty_ t) l3_order in
  let '(l2, d2', d1) := foldl (refresh_node l3) (l2_ t, d2, l1_dirty_ t) (seq 0 256) in
  let '(l1, d1', d0) := foldl (refresh_node l2) (l1_ t, d1, l0_dirty_ t) (seq 0 16) in
  let '(l0, d0') :=
    if (d0 !!! 0%nat : bool) then (<[0%nat := hash_block (block l1 0)]> (l0_ t), <[0%nat := false]> d0)
    else (l0_ t, d0) in
  mkMerkle (leaves_ t) l3 d3 l2 d2' l1 d1' l0 d0'.

Definition get_root_hash (t : MerkleTree) : Z * MerkleTree :=
  let t' := recompute_dirty t in (l0_ t' !!! 0%nat, t').

(** [None] is an out-of-range [operator[]], undefined in C++. *)
Definition get_node_hash (t : MerkleTree) (level : Z) (index : Z) : option Z :=
  let at_ (l : list Z) := if 0 <=? index then l !! Z.to_nat index else None in
  if level =? 0 then l0_ t !! 0%nat
  else if level =? 1 then at_ (l1_ t)
  else if level =? 2 then at_ (l2_ t)
  else if level =? 3 then at_ (l3_ t)
  else if level =? 4 then at_ (leaves_ t)
  else Some 0.

(** ** Specification: hashing every level from the leaves *)

Definition level_of (child : list Z) (n : nat) : list Z :=
  map (fun i => hash_block (block child i)) (seq 0 n).

Definition full_l3 (leaves : list Z) : list Z := level_of leaves L3_SIZE.
Definition full_l2 (leaves : list Z) : list Z := level_of (full_l3 leaves) 256.
Definition full_l1 (leaves : list Z) : list Z := level_of (full_l2 leaves) 16.
Definition full_root (leaves : list Z) : Z := hash_block (full_l1 leaves).

(** Levels 1 to 3 and the root may lag behind the leaves only below a dirty flag. *)
Record merkle_inv (t : MerkleTree) : Prop := {
  mi_leaves : length (leaves_ t) = L4_SIZE;
  mi_l3 : length (l3_ t) = L3_SIZE;
  mi_d3 : length (l3_dirty_ t) = L3_SIZE;
  mi_l3_ok : forall i, (i < L3_SIZE)%nat -> l3_dirty_ t !! i = Some false ->
     l3_ t !! i = Some (hash_block (block (leaves_ t) i));
  mi_l2 : l2_ t = level_of (l3_ t) 256;
  mi_d2 : l2_dirty_ t = replicate 256 false;
  mi_l1 : l1_ t = level_of (l2_ t) 16;
  mi_d1 : l1_dirty_ t = replicate 16 false;
  mi_l0 : l0_ t = [hash_block (l1_ t)];
  mi_d0 : l0_dirty_ t = [false]
}.

(** ** Lemmas *)

Lemma length_block child i : ((i + 1) * 16 <= length child)%nat -> length (block child i) = 16%nat.
Proof. intros. unfold block. rewrite length_take, length_drop. lia. Qed.

Lemma block_ext child child' i :
  (forall k, (i * 16 <= k < i * 16 + 16)%nat -> child !! k = child' !! k) ->
  block child i = block child' i.
Proof.
  intros H. unfold block. apply list_eq. intros k.
  destruct (decide (k < 16)%nat).
  - rewrite !lookup_take_lt, !lookup_drop by done. apply H. lia.
  - rewrite !lookup_take_ge by lia. done.
Qed.

Lemma block_all child : length child = 16%nat -> block child 0 = child.
Proof. intros. unfold block. rewrite drop_0. apply take_ge. lia. Qed.

Lemma length_level_of child n : length (level_of child n) = n.
Proof. unfold level_of. by rewrite length_map, length_seq. Qed.

Lemma lookup_level_of child n i :
  (i < n)%nat -> level_of child n !! i = Some (hash_block (block child i)).
Proof.
  intros Hi. unfold level_of. rewrite list_lookup_fmap, lookup_seq_lt by done. done.
Qed.

Lemma level_of_unique child n vals :
  length vals = n ->
  (forall i, (i < n)%nat -> vals !! i = Some (hash_block (block child i))) ->
  vals = level_of child n.
Proof.
  intros Hl H. apply list_eq. intros i. destruct (decide (i < n)%nat).
  - by rewrite H, lookup_level_of.
  - rewrite !lookup_ge_None_2; rewrite ?length_level_of; lia || done.
Qed.

Lemma replicate_unique {A} (l : list A) n x :
  length l = n -> (forall i, (i < n)%nat -> l !! i = Some x) -> l = replicate n x.
Proof.
  intros Hl H. symmetry. apply replicate_as_elem_of. split; [done|].
  intros y [i Hi]%list_elem_of_lookup. rewrite H in Hi; [congruence|].
  apply lookup_lt_Some in Hi. lia.
Qed.

(** One level of [recompute_dirty] brings every node up to date, clears its flags and
    flags the parent of each node that was dirty. *)
Lemma refresh_level child vals dirty up n m :
  length vals = n -> length dirty = n -> length up = m -> (n <= m * 16)%nat ->
  (forall i, (i < n)%nat -> dirty !! i = Some false ->
     vals !! i = Some (hash_block (block child i))) ->
  exists up',
    foldl (refresh_node child) (vals, dirty, up) (seq 0 n) =
      (level_of child n, replicate n false, up') /\
    length up' = m /\
    (forall j, up' !! j = Some false -> up !! j = Some false /\
       forall i, (i < n)%nat -> (i / 16 = j)%nat -> dirty !! i = Some false).
Proof.
  intros Hv Hd Hu Hnm Hok.
  assert (forall k, (k <= n)%nat -> exists vals' dirty' up',
    foldl (refresh_node child) (vals, dirty, up) (seq 0 k) = (vals', dirty', up') /\
    length vals' = n /\ length dirty' = n /\ length up' = m /\
    (forall i, (i < k)%nat -> vals' !! i = Some (hash_block (block child i)) /\
                               dirty' !! i = Some false) /\
    (forall i, (k <= i)%nat -> vals' !! i = vals !! i /\ dirty' !! i = dirty !! i) /\
    (forall j, up' !! j = Some false -> up !! j = Some false /\
       forall i, (i < k)%nat -> (i / 16 = j)%nat -> dirty !! i = Some false)) as Hk.
  { induction k as [|k IH]; intros Hk.
    { exists vals, dirty, up. split_and!; [done..|intros; lia|done|].
      intros j Hj. split; [done|]. intros; lia. }
    destruct IH as (v & d & u & Hf & Hlv & Hld & Hlu & Hdone & Hrest & Hup); [lia|].
    rewrite seq_S, foldl_snoc, Hf. cbn [refresh_node Nat.add].
    destruct (Hrest k) as [Evk Edk]; [lia|].
    destruct (lookup_lt_is_Some_2 dirty k) as [b Hb]; [lia|].
    rewrite (list_lookup_total_correct d k b) by congruence.
    destruct b.
    - eexists _, _, _. split; [done|]. rewrite !length_insert. split_and!; [done..| | |].
      + intros i Hi. destruct (decide (i = k)) as [->|Hne].
        * rewrite !list_lookup_insert_eq by lia. done.
        * rewrite !list_lookup_insert_ne by done. apply Hdone. lia.
      + intros i Hi. rewrite !list_lookup_insert_ne by lia. apply Hrest. lia.
      + intros j Hj. assert (j <> (k / 16)%nat) as Hne.
        { intros ->. rewrite list_lookup_insert_eq in Hj; [done|].
          rewrite Hlu. apply Nat.Div0.div_lt_upper_bound. lia. }
        rewrite list_lookup_insert_ne in Hj by done. destruct (Hup j Hj) as [? Hall].
        split; [done|]. intros i Hi Hij. apply Hall; [|done].
        destruct (decide (i = k)); [congruence|lia].
    - exists v, d, u. split_and!; [done..| | |].
      + intros i Hi. destruct (decide (i = k)) as [->|Hne]; [|apply Hdone; lia].
        rewrite Evk, Edk. split; [apply Hok; [lia|done]|done].
      + intros i Hi. apply Hrest. lia.
      + intros j Hj. destruct (Hup j Hj) as [? Hall]. split; [done|].
        intros i Hi Hij. destruct (decide (i = k)) as [->|]; [done|]. apply Hall; [lia|done]. }
  destruct (Hk n) as (v & d & u & Hf & Hlv & Hld & Hlu & Hdone & _ & Hup); [lia|].
  exists u. split; [|done]. rewrite Hf. do 2 f_equal.
  - apply level_of_unique; [done|]. intros. by apply Hdone.
  - apply replicate_unique; [done|]. intros. by apply Hdone.
Qed.

Lemma l3_order_seq : l3_order = seq 0 L3_SIZE.
Proof.
  unfold l3_order, L3_SIZE. change 256%nat with SHARD_COUNT. generalize SHARD_COUNT as n.
  induction n as [|n IH]; [done|].
  rewrite (seq_S n 0), flat_map_app, IH. cbn [flat_map]. rewrite app_nil_r.
  replace (S n * 16)%nat with (n * 16 + 16)%nat by lia. rewrite seq_app. f_equal.
  cbn [Nat.add]. apply list_eq. intros i. rewrite list_lookup_fmap.
  destruct (decide (i < 16)%nat).
  - rewrite !lookup_seq_lt by done. done.
  - rewrite !lookup_seq_ge by lia. done.
Qed.

Lemma div16 i j : (j * 16 <= i < j * 16 + 16)%nat -> (i / 16 = j)%nat.
Proof. intros. symmetry. apply (Nat.div_unique i 16 j (i - j * 16)); lia. Qed.

Lemma merkle_inv_new : merkle_inv merkle_new.
Proof.
  assert (forall n m x, (n * 16 <= m)%nat -> replicate n (hash_block (replicate 16 x)) =
            level_of (replicate m x) n) as Hlev.
  { intros n m x Hnm. apply level_of_unique; [apply length_replicate|].
    intros i Hi. rewrite lookup_replicate_2 by done. f_equal. f_equal.
    unfold block. rewrite drop_replicate, take_replicate. f_equal. lia. }
  split; cbn [merkle_new leaves_ l3_ l3_dirty_ l2_ l2_dirty_ l1_ l1_dirty_ l0_ l0_dirty_];
    rewrite ?length_replicate; [done..| |apply Hlev|done|apply Hlev|done|done|done].
  - intros i Hi _. rewrite lookup_replicate_2 by done. f_equal. f_equal. unfold block.
    rewrite drop_replicate, take_replicate. f_equal. unfold L4_SIZE, L3_SIZE in *. lia.
  - unfold L3_SIZE. lia.
  - lia.
Qed.

Lemma bucket_of_lt key : (bucket_of key < L4_SIZE)%nat.
Proof.
  unfold bucket_of, L4_SIZE. change 0xFFFF with (Z.ones 16).
  rewrite Z.land_ones by lia.
  pose proof (Z.mod_pos_bound (Z.shiftr (fnv1a_64 key) 48) (2 ^ 16) ltac:(lia)). lia.
Qed.

Lemma apply_delta_inv key delta t :
  merkle_inv t -> merkle_inv (apply_delta key delta t).
Proof.
  intros Ht. pose proof (bucket_of_lt key) as Hb.
  split; cbn [apply_delta leaves_ l3_ l3_dirty_ l2_ l2_dirty_ l1_ l1_dirty_ l0_ l0_dirty_];
    rewrite ?length_alter, ?length_insert; try by apply Ht.
  intros i Hi Hclean.
  assert ((bucket_of key / 16)%nat <> i) as Hne.
  { intros <-. rewrite list_lookup_insert_eq in Hclean; [done|]. by rewrite (mi_d3 _ Ht). }
  rewrite list_lookup_insert_ne in Hclean by done.
  rewrite (mi_l3_ok _ Ht) by done. f_equal. f_equal. apply block_ext.
  intros k Hk. rewrite list_lookup_alter_ne; [done|]. intros <-. apply Hne. by apply div16.
Qed.

(** [new] differs from [old] only below nodes flagged in [u]. *)
Definition agree (u : list bool) (old new : list Z) : Prop :=
  forall j, u !! j = Some false ->
  forall i, (j * 16 <= i < j * 16 + 16)%nat -> old !! i = new !! i.

(** A level that was in step with [old] and whose flags cover the changes to [new]. *)
Lemma refresh_level_agree old new u up n m :
  length u = n -> length up = m -> n = (m * 16)%nat -> agree u old new ->
  exists up',
    foldl (refresh_node new) (level_of old n, u, up) (seq 0 n) =
      (level_of new n, replicate n false, up') /\
    length up' = m /\ agree up' (level_of old n) (level_of new n).
Proof.
  intros Hu Hup Hn Ha.
  assert (forall i, (i < n)%nat -> u !! i = Some false ->
            level_of old n !! i = Some (hash_block (block new i))) as Hcur.
  { intros i Hi Hui. rewrite lookup_level_of by done. f_equal. f_equal.
    apply block_ext. by apply Ha. }
  destruct (refresh_level new (level_of old n) u up n m) as (up' & Hf & Hl & Hup');
    try done; [apply length_level_of|lia|].
  exists up'. split; [done|]. split; [done|].
  intros j Hj i Hi. destruct (Hup' j Hj) as [_ Hall].
  assert (i < n)%nat by (apply lookup_lt_Some in Hj; lia).
  rewrite Hcur, lookup_level_of; try done. by apply Hall, div16.
Qed.

Lemma recompute_dirty_spec t :
  merkle_inv t ->
  recompute_dirty t =
    mkMerkle (leaves_ t) (full_l3 (leaves_ t)) (replicate L3_SIZE false)
      (full_l2 (leaves_ t)) (replicate 256 false)
      (full_l1 (leaves_ t)) (replicate 16 false)
      [full_root (leaves_ t)] [false].
Proof.
  intros Ht. unfold recompute_dirty. rewrite l3_order_seq.
  destruct (refresh_level (leaves_ t) (l3_ t) (l3_dirty_ t) (l2_dirty_ t) L3_SIZE 256)
    as (u2 & -> & Hu2 & Hup2).
  { apply Ht. }
  { apply Ht. }
  { by rewrite (mi_d2 _ Ht). }
  { unfold L3_SIZE. lia. }
  { apply Ht. }
  fold (full_l3 (leaves_ t)).
  assert (agree u2 (l3_ t) (full_l3 (leaves_ t))) as Ha2.
  { intros j Hj i Hi. destruct (Hup2 j Hj) as [_ Hall].
    assert (i < L3_SIZE)%nat by (apply lookup_lt_Some in Hj; unfold L3_SIZE; lia).
    rewrite (mi_l3_ok _ Ht); [|done|by apply Hall, div16].
    unfold full_l3. by rewrite lookup_level_of. }
  rewrite (mi_l2 _ Ht), (mi_d1 _ Ht).
  destruct (refresh_level_agree _ _ u2 (replicate 16 false) 256 16 Hu2 eq_refl eq_refl Ha2)
    as (u1 & -> & Hu1 & Ha1).
  rewrite (mi_l1 _ Ht), (mi_d0 _ Ht), (mi_l2 _ Ht). fold (full_l2 (leaves_ t)) in Ha1 |- *.
  destruct (refresh_level_agree _ _ u1 [false] 16 1 Hu1 eq_refl eq_refl Ha1)
    as (u0 & -> & Hu0 & Ha0).
  fold (full_l1 (leaves_ t)) in Ha0 |- *.
  rewrite (mi_l0 _ Ht), (mi_l1 _ Ht), (mi_l2 _ Ht).
  destruct u0 as [|b0 [|]]; try done. destruct b0; simpl.
  - by rewrite block_all by apply length_level_of.
  - assert (level_of (level_of (l3_ t) 256) 16 = full_l1 (leaves_ t)) as ->; [|done].
    apply list_eq. intros i. destruct (decide (i < 16)%nat).
    + apply (Ha0 0%nat); [done|lia].
    + unfold full_l1. rewrite !lookup_ge_None_2; rewrite ?length_level_of; lia || done.
Qed.

Lemma recompute_dirty_inv t : merkle_inv t -> merkle_inv (recompute_dirty t).
Proof.
  intros Ht. rewrite recompute_dirty_spec by done.
  split; cbn [leaves_ l3_ l3_dirty_ l2_ l2_dirty_ l1_ l1_dirty_ l0_ l0_dirty_];
    [apply Ht|apply length_level_of|apply length_replicate| |done..].
  - intros i Hi _. unfold full_l3. by rewrite lookup_level_of.
Qed.

(** The tree after a sequence of updates. *)
Definition apply_deltas (ds : list (bytes * Z)) (t : MerkleTree) : MerkleTree :=
  foldl (fun t '(k, d) => apply_delta k d t) t ds.

Lemma apply_deltas_inv ds t : merkle_inv t -> merkle_inv (apply_deltas ds t).
Proof.
  revert t. induction ds as [|[k d] ds IH]; intros t Ht; [done|].
  apply IH, apply_delta_inv, Ht.
Qed.

(** ** Properties *)

(** The operations in sequence. *)
Inductive merkle_op := Delta (key : bytes) (hash_delta : Z) | Root.

Definition merkle_do (t : MerkleTree) (o : merkle_op) : MerkleTree :=
  match o with Delta key d => apply_delta key d t | Root => (get_root_hash t).2 end.

Definition run_merkle (os : list merkle_op) : MerkleTree := foldl merkle_do merkle_new os.

(** The reference: a leaf is the exclusive or of the updates of its bucket. *)
Definition leaf_after (os : list merkle_op) (i : nat) : Z :=
  foldl (fun h o => match o with
                    | Delta key d => if (bucket_of key =? i)%nat then Z.lxor h d else h
                    | Root => h
                    end) 0 os.

Definition leaves_after (os : list merkle_op) : list Z := map (leaf_after os) (seq 0 L4_SIZE).

Lemma root_inv t : merkle_inv t -> merkle_inv (get_root_hash t).2 /\ leaves_ (get_root_hash t).2 = leaves_ t.
Proof.
  intros Ht. unfold get_root_hash. cbn [snd]. split; [by apply recompute_dirty_inv|].
  by rewrite recompute_dirty_spec.
Qed.

Lemma run_merkle_inv os : merkle_inv (run_merkle os).
Proof.
  unfold run_merkle. induction os as [|o os IH] using rev_ind; [apply merkle_inv_new|]. rewrite foldl_snoc.
  destruct o; [by apply apply_delta_inv|by apply root_inv].
Qed.

Lemma run_merkle_leaves os : leaves_ (run_merkle os) = leaves_after os.
Proof.
  induction os as [|o os IH] using rev_ind.
  { apply list_eq. intros i. unfold leaves_after. destruct (decide (i < L4_SIZE)%nat) as [Hi|Hi].
    - rewrite list_lookup_fmap, lookup_seq_lt by done. by apply lookup_replicate_2.
    - rewrite !lookup_ge_None_2; [done|rewrite length_map, length_seq; lia|].
      change (leaves_ (run_merkle [])) with (replicate L4_SIZE 0). rewrite length_replicate. lia. }
  pose proof (run_merkle_inv os) as Hinv. unfold run_merkle in *. rewrite foldl_snoc. destruct o as [key d|].
  - cbn [merkle_do apply_delta leaves_]. rewrite IH. apply list_eq. intros i. unfold leaves_after.
    destruct (decide (i < L4_SIZE)%nat) as [Hi|Hi].
    + rewrite (list_lookup_fmap (leaf_after _)), lookup_seq_lt by done. cbn [fmap option_fmap option_map Nat.add].
      unfold leaf_after at 2. rewrite foldl_snoc. fold (leaf_after os i).
      destruct (Nat.eqb_spec (bucket_of key) i) as [->|Hne].
      * by rewrite list_lookup_alter_eq, list_lookup_fmap, lookup_seq_lt by done.
      * by rewrite list_lookup_alter_ne, list_lookup_fmap, lookup_seq_lt by done.
    + rewrite !lookup_ge_None_2; rewrite ?length_alter, ?length_map, ?length_seq; lia || done.
  - cbn [merkle_do]. rewrite (proj2 (root_inv _ Hinv)), IH. unfold leaves_after. apply map_ext. intros i.
    unfold leaf_after. by rewrite foldl_snoc.
Qed.

(** C13: lazy and eager hashing agree.  After any sequence of updates and root requests on a
    fresh tree, [get_root_hash] returns the root that hashing every level from the leaves up
    gives, for the leaves that are the exclusive or of the updates of their bucket; and it leaves
    the leaves and every inner level equal to that full rehash. *)
Theorem lazy_root_is_full_root os :
  let leaves := leaves_after os in
  let '(root, t) := get_root_hash (run_merkle os) in
  root = full_root leaves /\ leaves_ t = leaves /\
  l3_ t = full_l3 leaves /\ l2_ t = full_l2 leaves /\ l1_ t = full_l1 leaves /\ l0_ t = [full_root leaves].
Proof.
  cbv zeta. unfold get_root_hash. rewrite (recompute_dirty_spec _ (run_merkle_inv os)), run_merkle_leaves.
  by split_and!.
Qed.

End Merkle.
