(* ===== verification/Wal.v ===== *)
(** * The write-ahead log (src/engine/wal.hpp)

    The record format with its CRC-32, [append], [append_batch], [write_raw] over the
    [write] system call, and crash recovery.  The POSIX branch of the conditional
    compilation is modelled.  The file is a list of bytes with a position; [write] and
    [pread] are the system calls' results, supplied from outside.  [write_mutex_] makes
    [write_raw] atomic.  Progress messages on [stderr] are not modelled. *)
From S2P Require Import Prelude.

Inductive WalOp := PUT | PATCH_I64 | DELETE_ | BATCH | PATCH_STR.

#[export] Instance WalOp_eq_dec : EqDecision WalOp.
Proof. solve_decision. Defined.

(** [(uint8_t)op] *)
Definition walop_byte (o : WalOp) : Byte.byte :=
  match o with
  | PUT => Byte.x01
  | PATCH_I64 => Byte.x02
  | DELETE_ => Byte.x03
  | BATCH => Byte.x04
  | PATCH_STR => Byte.x05
  end.

Record BatchOp := mkBatchOp { bop : WalOp; bkey : bytes; bvalue : bytes }.

Record LogHeader := mkHeader {
  h_crc : Z;
  h_op : Byte.byte;
  h_key_len : Z;
  h_payload_len : Z
}.

(** [sizeof(LogHeader)], packed. *)
Definition HEADER_SIZE : nat := 11.

Definition header_bytes (h : LogHeader) : bytes :=
  le32 (h_crc h) ++ [h_op h] ++ le16 (h_key_len h) ++ le32 (h_payload_len h).

Definition header_read (b : bytes) : LogHeader :=
  mkHeader (le_combine (take 4 b)) (default Byte.x00 (b !! 4%nat))
    (le_combine (take 2 (drop 5 b))) (le_combine (take 4 (drop 7 b))).

(** ** CRC-32 *)

(** [crc = (crc >> 1) ^ (0xEDB88320 & (-(crc & 1)))] on [uint32_t]. *)
Definition crc_bit (crc : Z) : Z :=
  Z.lxor (Z.shiftr crc 1) (Z.land 0xEDB88320 (u32 (- Z.land crc 1))).

Definition crc_byte (crc : Z) (b : Byte.byte) : Z :=
  Nat.iter 8 crc_bit (Z.lxor crc (byte.unsigned b)).

Definition crc_process (crc : Z) (data : bytes) : Z := foldl crc_byte crc data.

Definition compute_crc (op : Byte.byte) (key payload : bytes) : Z :=
  let crc := 0xFFFFFFFF in
  let crc := crc_process crc [op] in
  let crc := crc_process crc key in
  let crc := crc_process crc payload in
  u32 (Z.lnot crc).

(** ** Record encoding *)

(** The buffer [append] hands to [write_raw]. *)
Definition append_buffer (op : WalOp) (key payload : bytes) : bytes :=
  let crc := compute_crc (walop_byte op) key payload in
  header_bytes (mkHeader crc (walop_byte op) (u16 (zlen key)) (u32 (zlen payload)))
  ++ key ++ payload.

Definition batch_entry (o : BatchOp) : bytes :=
  let klen := u16 (zlen (bkey o)) in
  let vlen := u32 (zlen (bvalue o)) in
  [walop_byte (bop o)] ++ le16 klen ++ take (Z.to_nat klen) (bkey o)
  ++ le32 vlen ++ take (Z.to_nat vlen) (bvalue o).

Definition batch_payload_size (ops : list BatchOp) : nat :=
  foldl (fun n o => n + (1 + 2 + length (bkey o) + 4 + length (bvalue o)))%nat 4%nat ops.

(** The payload is written from the front of a zero-filled buffer of
    [batch_payload_size] bytes. *)
Definition batch_payload (ops : list BatchOp) : bytes :=
  let body := le32 (u32 (zlen ops)) ++ concat (batch_entry <$> ops) in
  body ++ replicate (batch_payload_size ops - length body) Byte.x00.

Definition batch_buffer (ops : list BatchOp) : bytes :=
  let payload := batch_payload ops in
  let crc := compute_crc (walop_byte BATCH) [] payload in
  header_bytes (mkHeader crc (walop_byte BATCH) 0 (u32 (zlen payload))) ++ payload.

(** ** The open log *)

Record WriteAheadLog := mkWal {
  file : bytes;
  fpos : nat;
  bytes_written_ : Z;
  bytes_read_ : Z;
  last_error_code_ : Z
}.

(** Opening [O_RDWR | O_CREAT] and seeking to the end. *)
Definition wal_open (contents : bytes) : WriteAheadLog :=
  mkWal contents (length contents) 0 0 0.

(** What one [write] call answers: a byte count, or -1 with [errno]. *)
Inductive write_result := Wrote (n : nat) | WriteError (errno : Z).

Definition EINTR : Z := 4.

(** The effect of [write] on the file at its position. *)
Definition file_write (w : WriteAheadLog) (data : bytes) : WriteAheadLog :=
  mkWal (take (fpos w) (file w) ++ data ++ drop (fpos w + length data) (file w))
    (fpos w + length data) (bytes_written_ w) (bytes_read_ w) (last_error_code_ w).

(** The loop of [write_raw]; [None] when the system call has not answered yet. *)
Fixpoint write_loop (answers : list write_result) (data : bytes) (w : WriteAheadLog)
  : option (bool * WriteAheadLog * list write_result) :=
  match data with
  | [] => Some (true, w, answers)
  | _ :: _ =>
      match answers with
      | [] => None
      | WriteError e :: answers' =>
          if e =? EINTR then write_loop answers' data w
          else Some (false, mkWal (file w) (fpos w) (bytes_written_ w) (bytes_read_ w) e, answers')
      | Wrote n :: answers' =>
          let n := Nat.min n (length data) in
          write_loop answers' (drop n data) (file_write w (take n data))
      end
  end.

Definition write_raw (answers : list write_result) (data : bytes) (w : WriteAheadLog)
  : option (bool * WriteAheadLog * list write_result) :=
  match data with
  | [] => Some (true, w, answers)
  | _ :: _ =>
      match write_loop answers data w with
      | Some (true, w', rest) =>
          Some (true, mkWal (file w') (fpos w') (bytes_written_ w' + zlen data)
                        (bytes_read_ w') (last_error_code_ w'), rest)
      | r => r
      end
  end.

(** [append] and [append_batch] ignore what [write_raw] returns. *)
Definition append (answers : list write_result) (op : WalOp) (key payload : bytes)
    (w : WriteAheadLog) : option (WriteAheadLog * list write_result) :=
  match write_raw answers (append_buffer op key payload) w with
  | Some (_, w', rest) => Some (w', rest)
  | None => None
  end.

Definition append_batch (answers : list write_result) (ops : list BatchOp)
    (w : WriteAheadLog) : option (WriteAheadLog * list write_result) :=
  match ops with
  | [] => Some (w, answers)
  | _ :: _ =>
      match write_raw answers (batch_buffer ops) w with
      | Some (_, w', rest) => Some (w', rest)
      | None => None
      end
  end.

(** ** Recovery *)

(** One invocation of the recovery callback. *)
Record wal_event := mkEvent { ev_op : Byte.byte; ev_key : bytes; ev_val : bytes }.

(** The loop over the entries of a batch payload; [p] is what is left up to [end]. *)
Fixpoint decode_entries (fuel : nat) (count : Z) (p : bytes) : list wal_event :=
  match fuel with
  | O => []
  | S fuel' =>
      if count <=? 0 then []
      else if zlen p <? 7 then []
      else
        let b_op := default Byte.x00 (p !! 0%nat) in
        let b_klen := Z.to_nat (le_combine (take 2 (drop 1 p))) in
        let p := drop 3 p in
        if zlen p <? Z.of_nat b_klen + 4 then []
        else
          let b_key := take b_klen p in
          let p := drop b_klen p in
          let b_vlen := Z.to_nat (le_combine (take 4 p)) in
          let p := drop 4 p in
          if zlen p <? Z.of_nat b_vlen then []
          else mkEvent b_op b_key (take b_vlen p)
               :: decode_entries fuel' (count - 1) (drop b_vlen p)
  end.

(** The callbacks for one intact record. *)
Definition record_events (op : Byte.byte) (key payload : bytes) : list wal_event :=
  if bool_decide (op = walop_byte BATCH) then
    if 4 <=? zlen payload then
      decode_entries (S (length payload)) (le_combine (take 4 payload)) (drop 4 payload)
    else []
  else [mkEvent op key payload].

(** The scan: the callbacks in order and the final offset.  Every iteration that does
    not stop advances by at least the header, so [fileSize64 + 1] iterations are
    enough. *)
Fixpoint recover_loop (fuel : nat) (pread : nat -> nat -> bytes) (fileSize off : nat)
  : list wal_event * nat :=
  match fuel with
  | O => ([], off)
  | S fuel' =>
      if (off <? fileSize)%nat then
        if (fileSize <? off + HEADER_SIZE)%nat then ([], off)
        else
          let hb := pread off HEADER_SIZE in
          if negb (length hb =? HEADER_SIZE)%nat then ([], off)
          else
            let h := header_read hb in
            let klen := Z.to_nat (h_key_len h) in
            let plen := Z.to_nat (h_payload_len h) in
            if bool_decide (h_op h = Byte.x00) && (h_crc h =? 0) && (h_key_len h =? 0)
               && (h_payload_len h =? 0) then ([], off)
            else if (fileSize <? off + HEADER_SIZE + klen + plen)%nat then ([], off)
            else
              let key := pread (off + HEADER_SIZE)%nat klen in
              if negb (length key =? klen)%nat then ([], off)
              else
                let payload := pread (off + HEADER_SIZE + klen)%nat plen in
                if negb (length payload =? plen)%nat then ([], off)
                else if negb (compute_crc (h_op h) key payload =? h_crc h) then ([], off)
                else
                  let '(evs, off') :=
                    recover_loop fuel' pread fileSize (off + HEADER_SIZE + klen + plen) in
                  (record_events (h_op h) key payload ++ evs, off')
      else ([], off)
  end.

(** [pread] on a regular file without I/O errors. *)
Definition file_pread (contents : bytes) (off n : nat) : bytes := take n (drop off contents).

(** [recover]: the callbacks, and the log truncated to the last intact record. *)
Definition recover (w : WriteAheadLog) : list wal_event * WriteAheadLog :=
  let fileSize := length (file w) in
  if (0 <? fileSize)%nat then
    let '(evs, off) := recover_loop (S fileSize) (file_pread (file w)) fileSize 0 in
    (evs, mkWal (if (off <? fileSize)%nat then take off (file w) else file w) off
            (bytes_written_ w) (Z.of_nat off) (last_error_code_ w))
  else ([], w).

(** ** Intact records *)

(** A record as it lies in the file. *)
Record wal_record := mkRecord { r_op : Byte.byte; r_key : bytes; r_payload : bytes }.

Definition record_bytes (r : wal_record) : bytes :=
  header_bytes (mkHeader (compute_crc (r_op r) (r_key r) (r_payload r)) (r_op r)
                  (zlen (r_key r)) (zlen (r_payload r)))
  ++ r_key r ++ r_payload r.

Definition record_wf (r : wal_record) : Prop :=
  zlen (r_key r) < 2 ^ 16 /\ zlen (r_payload r) < 2 ^ 32.

Definition events_of (r : wal_record) : list wal_event :=
  record_events (r_op r) (r_key r) (r_payload r).

Definition log_bytes (rs : list wal_record) : bytes := concat (record_bytes <$> rs).

(** What a batch entry becomes after a round trip through its length fields. *)
Definition entry_event (o : BatchOp) : wal_event :=
  mkEvent (walop_byte (bop o))
    (take (Z.to_nat (u16 (zlen (bkey o)))) (bkey o))
    (take (Z.to_nat (u32 (zlen (bvalue o)))) (bvalue o)).

Definition batch_record (ops : list BatchOp) : wal_record :=
  mkRecord (walop_byte BATCH) [] (batch_payload ops).

(** ** Lemmas *)

Lemma compute_crc_range op key payload : 0 <= compute_crc op key payload < 2 ^ 32.
Proof. apply u32_range. Qed.

Lemma length_header_bytes h : length (header_bytes h) = HEADER_SIZE.
Proof. unfold header_bytes. by autorewrite with l3len. Qed.

Lemma header_read_bytes h :
  0 <= h_crc h < 2 ^ 32 -> 0 <= h_key_len h < 2 ^ 16 -> 0 <= h_payload_len h < 2 ^ 32 ->
  header_read (header_bytes h) = h.
Proof.
  intros Hc Hk Hp. unfold header_read, header_bytes.
  assert (forall n (a b : bytes), length a = n -> take n (a ++ b) = a) as Ht
    by (intros; by rewrite take_app_length').
  assert (forall n (a b : bytes), length a = n -> drop n (a ++ b) = b) as Hd
    by (intros; by rewrite drop_app_length').
  rewrite Ht by apply length_le32.
  rewrite lookup_app_r by (rewrite length_le32; lia). rewrite length_le32.
  replace (drop 5 (le32 (h_crc h) ++ [h_op h] ++ le16 (h_key_len h) ++ le32 (h_payload_len h)))
    with (le16 (h_key_len h) ++ le32 (h_payload_len h)) by done.
  replace (drop 7 (le32 (h_crc h) ++ [h_op h] ++ le16 (h_key_len h) ++ le32 (h_payload_len h)))
    with (le32 (h_payload_len h)) by done.
  rewrite Ht by apply length_le16. rewrite take_ge by (rewrite length_le32; lia).
  autorewrite with l3le. rewrite !u32_small, u16_small by done. by destruct h.
Qed.

Lemma length_record_bytes r :
  length (record_bytes r) = (HEADER_SIZE + length (r_key r) + length (r_payload r))%nat.
Proof. unfold record_bytes. rewrite !length_app, length_header_bytes. lia. Qed.

Lemma record_header_read r :
  record_wf r ->
  header_read (header_bytes (mkHeader (compute_crc (r_op r) (r_key r) (r_payload r)) (r_op r)
                  (zlen (r_key r)) (zlen (r_payload r)))) =
  mkHeader (compute_crc (r_op r) (r_key r) (r_payload r)) (r_op r)
                  (zlen (r_key r)) (zlen (r_payload r)).
Proof.
  intros (? & ?). pose proof (compute_crc_range (r_op r) (r_key r) (r_payload r)).
  pose proof (zlen_nonneg (r_key r)). pose proof (zlen_nonneg (r_payload r)).
  apply header_read_bytes; simpl; lia.
Qed.

(** *** Parsing one record, independently of its place in the file *)

Definition parse_record (t : bytes) : option wal_record :=
  if (length t <? HEADER_SIZE)%nat then None
  else
    let h := header_read (take HEADER_SIZE t) in
    let klen := Z.to_nat (h_key_len h) in
    let plen := Z.to_nat (h_payload_len h) in
    if bool_decide (h_op h = Byte.x00) && (h_crc h =? 0) && (h_key_len h =? 0)
       && (h_payload_len h =? 0) then None
    else if (length t <? HEADER_SIZE + klen + plen)%nat then None
    else
      let key := take klen (drop HEADER_SIZE t) in
      let payload := take plen (drop (HEADER_SIZE + klen) t) in
      if compute_crc (h_op h) key payload =? h_crc h then Some (mkRecord (h_op h) key payload)
      else None.

Lemma header_bytes_read b : length b = HEADER_SIZE -> header_bytes (header_read b) = b.
Proof.
  intros Hl. unfold header_bytes, header_read, le32, le16. cbn [h_crc h_op h_key_len h_payload_len].
  assert (length (take 4 b) = 4%nat) as H1 by (rewrite length_take, Hl; done).
  assert (length (take 2 (drop 5 b)) = 2%nat) as H2
    by (rewrite length_take, length_drop, Hl; done).
  assert (length (take 4 (drop 7 b)) = 4%nat) as H3
    by (rewrite length_take, length_drop, Hl; done).
  rewrite (split_le_combine' _ 4 H1), (split_le_combine' _ 2 H2), (split_le_combine' _ 4 H3).
  do 12 (destruct b as [|? b]; try done).
Qed.

Lemma header_read_range b :
  0 <= h_key_len (header_read b) < 2 ^ 16 /\ 0 <= h_payload_len (header_read b) < 2 ^ 32.
Proof.
  unfold header_read. cbn [h_key_len h_payload_len].
  pose proof (le_combine_bound (take 2 (drop 5 b))) as H1.
  pose proof (le_combine_bound (take 4 (drop 7 b))) as H2.
  assert (2 ^ (8 * Z.of_nat (length (take 2 (drop 5 b)))) <= 2 ^ 16)
    by (apply Z.pow_le_mono_r; [lia|]; rewrite length_take; lia).
  assert (2 ^ (8 * Z.of_nat (length (take 4 (drop 7 b)))) <= 2 ^ 32)
    by (apply Z.pow_le_mono_r; [lia|]; rewrite length_take; lia).
  lia.
Qed.

Lemma record_header_nonzero op key payload :
  bool_decide (op = Byte.x00) && (compute_crc op key payload =? 0)
  && (zlen key =? 0) && (zlen payload =? 0) = false.
Proof.
  destruct key; [|rewrite zlen_cons; pose proof (zlen_nonneg key);
    apply andb_false_iff; left; apply andb_false_iff; right; apply Z.eqb_neq; lia].
  destruct payload; [|rewrite (zlen_cons _ payload); pose proof (zlen_nonneg payload);
    apply andb_false_iff; right; apply Z.eqb_neq; lia].
  case_bool_decide as Ho; [subst|done]. vm_compute. done.
Qed.

Lemma parse_record_framed crc op (key payload rest : bytes) :
  0 <= crc < 2 ^ 32 -> zlen key < 2 ^ 16 -> zlen payload < 2 ^ 32 ->
  parse_record (header_bytes (mkHeader crc op (zlen key) (zlen payload)) ++ key ++ payload ++ rest)
  = if compute_crc op key payload =? crc then Some (mkRecord op key payload) else None.
Proof.
  intros Hc Hk Hp. unfold parse_record.
  pose proof (zlen_nonneg key). pose proof (zlen_nonneg payload).
  set (h := mkHeader crc op (zlen key) (zlen payload)).
  assert (length (header_bytes h ++ key ++ payload ++ rest) =
    (HEADER_SIZE + length key + length payload + length rest)%nat) as Hl
    by (rewrite !length_app, length_header_bytes; lia).
  rewrite Hl. destruct (Nat.ltb_spec (HEADER_SIZE + length key + length payload + length rest)
                          HEADER_SIZE); [lia|].
  assert (take HEADER_SIZE (header_bytes h ++ key ++ payload ++ rest) = header_bytes h) as ->
    by (apply take_app_length'; by rewrite length_header_bytes).
  rewrite header_read_bytes by (simpl; lia). cbn [h h_op h_crc h_key_len h_payload_len].
  assert (forall l : bytes, Z.to_nat (zlen l) = length l) as Hn by (intros; apply Nat2Z.id).
  rewrite !Hn.
  assert (forall n, drop (HEADER_SIZE + n) (header_bytes h ++ key ++ payload ++ rest) =
                    drop n (key ++ payload ++ rest)) as Hd
    by (intros n; rewrite <- drop_drop; f_equal).
  pose proof (Hd 0%nat) as Hd0. rewrite Nat.add_0_r, drop_0 in Hd0.
  rewrite Hd0, Hd, take_app_length, drop_app_length, take_app_length.
  destruct (Nat.ltb_spec (HEADER_SIZE + length key + length payload + length rest)
              (HEADER_SIZE + length key + length payload)); [lia|].
  destruct (Z.eqb_spec (compute_crc op key payload) crc) as [<-|Hne].
  - by rewrite record_header_nonzero.
  - by destruct (_ && _).
Qed.

Lemma parse_record_complete r rest :
  record_wf r -> parse_record (record_bytes r ++ rest) = Some r.
Proof.
  intros [Hk Hp]. unfold record_bytes. rewrite <- !app_assoc.
  rewrite parse_record_framed, Z.eqb_refl by (done || apply compute_crc_range).
  by destruct r.
Qed.

Lemma parse_record_sound t r :
  parse_record t = Some r -> record_wf r /\ exists rest, t = record_bytes r ++ rest.
Proof.
  unfold parse_record. intros H.
  destruct (Nat.ltb_spec (length t) HEADER_SIZE) as [|Hh]; [done|].
  assert (length (take HEADER_SIZE t) = HEADER_SIZE) as Ht by (rewrite length_take; lia).
  pose proof (header_bytes_read _ Ht) as Hb. pose proof (header_read_range (take HEADER_SIZE t)) as Hr.
  destruct (header_read (take HEADER_SIZE t)) as [crc op kl pl] eqn:Eh.
  cbn [h_op h_crc h_key_len h_payload_len] in *.
  destruct (bool_decide (op = Byte.x00) && (crc =? 0) && (kl =? 0) && (pl =? 0)); [done|].
  destruct (Nat.ltb_spec (length t) (HEADER_SIZE + Z.to_nat kl + Z.to_nat pl)) as [|Hlen]; [done|].
  destruct (Z.eqb_spec (compute_crc op (take (Z.to_nat kl) (drop HEADER_SIZE t))
     (take (Z.to_nat pl) (drop (HEADER_SIZE + Z.to_nat kl) t))) crc) as [Hcrc|]; [|done].
  apply (inj Some) in H. subst r.
  assert (zlen (take (Z.to_nat kl) (drop HEADER_SIZE t)) = kl) as Hk
    by (unfold zlen; rewrite length_take, length_drop; lia).
  assert (zlen (take (Z.to_nat pl) (drop (HEADER_SIZE + Z.to_nat kl) t)) = pl) as Hp
    by (unfold zlen; rewrite length_take, length_drop; lia).
  split; [unfold record_wf; cbn [r_key r_payload]; rewrite Hk, Hp; lia|].
  exists (drop (HEADER_SIZE + Z.to_nat kl + Z.to_nat pl) t).
  unfold record_bytes. cbn [r_op r_key r_payload]. rewrite Hk, Hp, Hcrc, Hb.
  rewrite <- !app_assoc, <- (drop_drop t (Z.to_nat pl) (HEADER_SIZE + Z.to_nat kl)).
  rewrite take_drop, <- drop_drop, take_drop, take_drop. done.
Qed.

Lemma file_pread_length c off n :
  (off + n <= length c)%nat -> length (file_pread c off n) = n.
Proof. intros. unfold file_pread. rewrite length_take, length_drop. lia. Qed.

Lemma recover_loop_unfold fuel c off :
  (off <= length c)%nat ->
  recover_loop (S fuel) (file_pread c) (length c) off =
  match parse_record (drop off c) with
  | None => ([], off)
  | Some r =>
      let '(evs, off') := recover_loop fuel (file_pread c) (length c)
                            (off + length (record_bytes r)) in
      (events_of r ++ evs, off')
  end.
Proof.
  intros Hoff. cbn [recover_loop]. unfold parse_record. rewrite length_drop.
  assert (HEADER_SIZE = 11%nat) as HH by done.
  destruct (Nat.ltb_spec off (length c)), (Nat.ltb_spec (length c) (off + HEADER_SIZE)),
    (Nat.ltb_spec (length c - off) HEADER_SIZE); try lia; try done.
  rewrite file_pread_length, Nat.eqb_refl by lia. unfold negb at 1.
  fold (file_pread c off HEADER_SIZE).
  pose proof (header_read_range (file_pread c off HEADER_SIZE)) as Hr.
  destruct (header_read (file_pread c off HEADER_SIZE)) as [crc op kl pl].
  cbn [h_op h_crc h_key_len h_payload_len] in *.
  destruct (bool_decide (op = Byte.x00) && (crc =? 0) && (kl =? 0) && (pl =? 0)); [done|].
  destruct (Nat.ltb_spec (length c) (off + HEADER_SIZE + Z.to_nat kl + Z.to_nat pl)),
    (Nat.ltb_spec (length c - off) (HEADER_SIZE + Z.to_nat kl + Z.to_nat pl)); try lia; [done|].
  rewrite !file_pread_length, !Nat.eqb_refl by lia. cbn [negb].
  unfold file_pread at 1 2. rewrite !drop_drop, !Nat.add_assoc.
  destruct (compute_crc op _ _ =? crc); cbn [negb]; [|done].
  unfold events_of. cbn [r_op r_key r_payload]. rewrite length_record_bytes.
  cbn [r_key r_payload]. rewrite !length_take, !length_drop.
  replace (off + (HEADER_SIZE + Z.to_nat kl `min` (length c - (off + HEADER_SIZE)) +
    Z.to_nat pl `min` (length c - (off + HEADER_SIZE + Z.to_nat kl))))%nat
    with (off + HEADER_SIZE + Z.to_nat kl + Z.to_nat pl)%nat by lia.
  done.
Qed.

(** Every file is a run of intact records and a tail that does not start with one. *)
Lemma log_decomposition c :
  exists rs tail, c = log_bytes rs ++ tail /\ Forall record_wf rs /\ parse_record tail = None.
Proof.
  induction c as [c IH] using (induction_ltof1 _ (@length Byte.byte)). unfold ltof in IH.
  destruct (parse_record c) as [r|] eqn:Hp.
  - destruct (parse_record_sound _ _ Hp) as (Hwf & rest & ->).
    destruct (IH rest) as (rs & tail & -> & ? & ?).
    { rewrite length_app, length_record_bytes. unfold HEADER_SIZE. lia. }
    exists (r :: rs), tail. split; [|by auto]. unfold log_bytes. simpl. by rewrite app_assoc.
  - exists [], c. done.
Qed.

Lemma recover_loop_log rs tail : forall pre fuel,
  Forall record_wf rs -> parse_record tail = None -> (length rs < fuel)%nat ->
  let contents := pre ++ log_bytes rs ++ tail in
  recover_loop fuel (file_pread contents) (length contents) (length pre) =
  (concat (events_of <$> rs), length (pre ++ log_bytes rs)).
Proof.
  induction rs as [|r rs IH]; intros pre fuel Hwf Hstop Hfuel contents;
    destruct fuel as [|fuel]; try (simpl in *; lia); unfold contents;
    rewrite recover_loop_unfold by (rewrite length_app; lia); rewrite drop_app_length.
  - unfold log_bytes. simpl. by rewrite Hstop, app_nil_r.
  - inversion Hwf; subst. unfold log_bytes. cbn [fmap list_fmap concat]. rewrite <- app_assoc.
    rewrite parse_record_complete by done. fold (log_bytes rs).
    specialize (IH (pre ++ record_bytes r) fuel). cbn zeta in IH.
    rewrite <- app_assoc, (length_app pre (record_bytes r)) in IH.
    rewrite IH by first [done | simpl in *; lia]. by rewrite !app_assoc.
Qed.

Lemma length_log_bytes rs : (length rs <= length (log_bytes rs))%nat.
Proof.
  induction rs as [|r rs IH]; [done|]. unfold log_bytes in *. cbn [fmap list_fmap concat length].
  rewrite length_app, length_record_bytes. unfold HEADER_SIZE. lia.
Qed.

(** Recovery of a log followed by bytes that do not start an intact record. *)
Lemma recover_log rs tail w :
  Forall record_wf rs -> parse_record tail = None -> file w = log_bytes rs ++ tail ->
  recover w =
    if decide (file w = []) then ([], w)
    else (concat (events_of <$> rs),
          mkWal (log_bytes rs) (length (log_bytes rs)) (bytes_written_ w)
            (zlen (log_bytes rs)) (last_error_code_ w)).
Proof.
  intros Hwf Hstop Hf. unfold recover.
  pose proof (length_log_bytes rs) as Hlen.
  assert (length (file w) = (length (log_bytes rs) + length tail)%nat) as Hl
    by (rewrite Hf, length_app; lia).
  pose proof (recover_loop_log rs tail [] (S (length (file w))) Hwf Hstop ltac:(lia)) as Hr.
  cbn [app length] in Hr. rewrite <- Hf in Hr.
  destruct (decide (file w = [])) as [->|Hne]; [done|].
  assert (0 < length (file w))%nat by (destruct (file w); [done|simpl; lia]).
  destruct (Nat.ltb_spec 0 (length (file w))); [|lia]. rewrite Hr.
  do 2 f_equal. destruct (Nat.ltb_spec (length (log_bytes rs)) (length (file w))).
  - by rewrite Hf, take_app_length.
  - rewrite Hf. destruct tail; [by rewrite app_nil_r|simpl in *; lia].
Qed.

(** A crash in the middle of a record leaves a strict prefix of it. *)
Lemma parse_record_torn r n :
  record_wf r -> (n < length (record_bytes r))%nat -> parse_record (take n (record_bytes r)) = None.
Proof.
  intros Hr Hn. unfold parse_record. rewrite length_take, Nat.min_l by lia.
  destruct (Nat.ltb_spec n HEADER_SIZE); [done|].
  assert (take HEADER_SIZE (take n (record_bytes r)) =
    header_bytes (mkHeader (compute_crc (r_op r) (r_key r) (r_payload r)) (r_op r)
                  (zlen (r_key r)) (zlen (r_payload r)))) as ->.
  { rewrite take_take, Nat.min_l by lia. unfold record_bytes. apply take_app_length'.
    by rewrite length_header_bytes. }
  rewrite record_header_read by done. cbn [h_op h_crc h_key_len h_payload_len].
  rewrite record_header_nonzero. unfold zlen. rewrite !Nat2Z.id.
  rewrite length_record_bytes in Hn.
  destruct (Nat.ltb_spec n (HEADER_SIZE + length (r_key r) + length (r_payload r))); [done|lia].
Qed.

(** *** CRC: bits, bytes and detection of a changed byte *)

Lemma crc_bit_range c : 0 <= c < 2 ^ 32 -> 0 <= crc_bit c < 2 ^ 32.
Proof.
  intros Hc. unfold crc_bit. apply lxor_range; [lia| |].
  - rewrite Z.shiftr_div_pow2 by lia. split; [apply Z.div_pos; lia|].
    apply Z.div_lt_upper_bound; lia.
  - pose proof (u32_range (- Z.land c 1)) as Hu. unfold u32 in *.
    change (2 ^ 32) with 4294967296 in *.
    assert (Z.land 0xEDB88320 ((- Z.land c 1) mod 4294967296) =
            Z.land (Z.land 0xEDB88320 ((- Z.land c 1) mod 4294967296)) (Z.ones 32)) as ->.
    { rewrite <- Z.land_assoc, (Z.land_comm _ (Z.ones 32)), Z.land_assoc. done. }
    rewrite Z.land_ones by lia. apply Z.mod_pos_bound. lia.
Qed.

(** The top bit of the step is the bit shifted out, so the step can be undone. *)
Lemma crc_bit_inj a b :
  0 <= a < 2 ^ 32 -> 0 <= b < 2 ^ 32 -> crc_bit a = crc_bit b -> a = b.
Proof.
  intros Ha Hb Heq.
  assert (forall c, 0 <= c < 2 ^ 32 -> Z.land c 1 = c mod 2) as Hl.
  { intros c _. change 1 with (Z.ones 1). by rewrite Z.land_ones. }
  assert (forall c, 0 <= c < 2 ^ 32 ->
    crc_bit c = Z.lxor (Z.shiftr c 1) (if c mod 2 =? 1 then 0xEDB88320 else 0)) as Hc.
  { intros c Hc. unfold crc_bit. rewrite Hl by done.
    pose proof (Z.mod_pos_bound c 2 ltac:(lia)).
    assert (c mod 2 = 0 \/ c mod 2 = 1) as [-> | ->] by lia; done. }
  assert (forall c, 0 <= c < 2 ^ 32 -> Z.testbit (crc_bit c) 31 = (c mod 2 =? 1)) as Ht.
  { intros c Hc'. rewrite Hc by done. rewrite Z.lxor_spec, Z.shiftr_spec by lia.
    replace (Z.testbit c (31 + 1)) with false.
    - destruct (c mod 2 =? 1); done.
    - symmetry. apply Z.testbit_false; [lia|]. rewrite Z.div_small; [done|]. simpl. lia. }
  pose proof (Ht a Ha) as H1. pose proof (Ht b Hb) as H2.
  rewrite Heq, H2 in H1. rewrite !Hc, H1 in Heq by done.
  assert (Z.shiftr a 1 = Z.shiftr b 1) as Hs.
  { apply (f_equal (fun x => Z.lxor x (if a mod 2 =? 1 then 0xEDB88320 else 0))) in Heq.
    by rewrite !Z.lxor_assoc, Z.lxor_nilpotent, !Z.lxor_0_r in Heq. }
  rewrite !Z.shiftr_div_pow2 in Hs by lia. change (2 ^ 1) with 2 in Hs.
  pose proof (Z.div_mod a 2 ltac:(lia)). pose proof (Z.div_mod b 2 ltac:(lia)).
  pose proof (Z.mod_pos_bound a 2 ltac:(lia)). pose proof (Z.mod_pos_bound b 2 ltac:(lia)).
  destruct (Z.eqb_spec (a mod 2) 1), (Z.eqb_spec (b mod 2) 1); try done; lia.
Qed.

Lemma iter_crc_bit_range n c : 0 <= c < 2 ^ 32 -> 0 <= Nat.iter n crc_bit c < 2 ^ 32.
Proof. induction n; simpl; auto using crc_bit_range. Qed.

Lemma iter_crc_bit_inj n a b :
  0 <= a < 2 ^ 32 -> 0 <= b < 2 ^ 32 -> Nat.iter n crc_bit a = Nat.iter n crc_bit b -> a = b.
Proof.
  intros Ha Hb. induction n as [|n IH]; simpl; [done|].
  intros H. apply IH. by apply crc_bit_inj; [apply iter_crc_bit_range..|].
Qed.

Lemma byte_range32 b : 0 <= byte.unsigned b < 2 ^ 32.
Proof. pose proof (byte.unsigned_range b). lia. Qed.

Lemma crc_byte_range c b : 0 <= c < 2 ^ 32 -> 0 <= crc_byte c b < 2 ^ 32.
Proof.
  intros. apply iter_crc_bit_range, lxor_range; [lia|done|apply byte_range32].
Qed.

Lemma crc_byte_inj c c' b b' :
  0 <= c < 2 ^ 32 -> 0 <= c' < 2 ^ 32 -> crc_byte c b = crc_byte c' b' ->
  Z.lxor c (byte.unsigned b) = Z.lxor c' (byte.unsigned b').
Proof.
  intros Hc Hc'. apply (iter_crc_bit_inj 8); (apply (lxor_range 32); [lia|done|apply byte_range32]).
Qed.

Lemma crc_byte_inj_state c c' b :
  0 <= c < 2 ^ 32 -> 0 <= c' < 2 ^ 32 -> crc_byte c b = crc_byte c' b -> c = c'.
Proof.
  intros Hc Hc' H. apply crc_byte_inj in H; [|done..].
  apply (f_equal (fun x => Z.lxor x (byte.unsigned b))) in H.
  by rewrite !Z.lxor_assoc, Z.lxor_nilpotent, !Z.lxor_0_r in H.
Qed.

Lemma crc_byte_inj_byte c b b' :
  0 <= c < 2 ^ 32 -> crc_byte c b = crc_byte c b' -> b = b'.
Proof.
  intros Hc H. apply crc_byte_inj in H; [|done..].
  apply (f_equal (Z.lxor c)) in H. rewrite !lxor_cancel in H. by apply byte.unsigned_inj.
Qed.

Lemma crc_process_range c d : 0 <= c < 2 ^ 32 -> 0 <= crc_process c d < 2 ^ 32.
Proof. revert c. induction d; intros c Hc; simpl; auto using crc_byte_range. Qed.

Lemma crc_process_inj c c' d :
  0 <= c < 2 ^ 32 -> 0 <= c' < 2 ^ 32 -> crc_process c d = crc_process c' d -> c = c'.
Proof.
  revert c c'. induction d as [|b d IH]; intros c c' Hc Hc' H; [done|].
  apply (crc_byte_inj_state c c' b Hc Hc').
  exact (IH _ _ (crc_byte_range c b Hc) (crc_byte_range c' b Hc') H).
Qed.

Lemma u32_lnot_inj a b : 0 <= a < 2 ^ 32 -> 0 <= b < 2 ^ 32 -> u32 (Z.lnot a) = u32 (Z.lnot b) -> a = b.
Proof.
  assert (forall c, 0 <= c < 2 ^ 32 -> u32 (Z.lnot c) = 2 ^ 32 - 1 - c) as E.
  { intros c Hc. unfold u32, Z.lnot. symmetry. apply Z.mod_unique with (-1); lia. }
  intros. rewrite !E in *; lia.
Qed.

Lemma compute_crc_stream op key payload :
  compute_crc op key payload = u32 (Z.lnot (crc_process 0xFFFFFFFF (op :: key ++ payload))).
Proof. unfold compute_crc, crc_process. simpl. by rewrite foldl_app. Qed.

(** The check value of two records that differ in exactly one byte of
    [op], [key], [payload] taken together differs. *)
Lemma crc_one_byte pre b b' post :
  b <> b' -> crc_process 0xFFFFFFFF (pre ++ b :: post) <> crc_process 0xFFFFFFFF (pre ++ b' :: post).
Proof.
  intros Hne H. apply Hne. unfold crc_process in H. rewrite !foldl_app in H.
  cbn [foldl] in H. fold (crc_process 0xFFFFFFFF pre) in H.
  assert (0 <= crc_process 0xFFFFFFFF pre < 2 ^ 32) as Hp by (apply crc_process_range; lia).
  revert H Hp. generalize (crc_process 0xFFFFFFFF pre) as c. intros c H Hp.
  apply (crc_byte_inj_byte c b b' Hp).
  exact (crc_process_inj _ _ post (crc_byte_range c b Hp) (crc_byte_range c b' Hp) H).
Qed.

(** *** Batches *)

Lemma decode_entries_step fuel count op (k v rest : bytes) :
  0 < count -> zlen k < 2 ^ 16 -> zlen v < 2 ^ 32 ->
  decode_entries (S fuel) count (op :: le16 (zlen k) ++ k ++ le32 (zlen v) ++ v ++ rest) =
  mkEvent op k v :: decode_entries fuel (count - 1) rest.
Proof.
  intros Hc Hk Hv. cbn [decode_entries].
  pose proof (zlen_nonneg k). pose proof (zlen_nonneg v). pose proof (zlen_nonneg rest).
  destruct (Z.leb_spec count 0); [lia|].
  rewrite zlen_cons, !zlen_app.
  assert (zlen (le16 (zlen k)) = 2 /\ zlen (le32 (zlen v)) = 4) as [-> ->] by done.
  destruct (Z.ltb_spec (1 + (2 + (zlen k + (4 + (zlen v + zlen rest))))) 7); [lia|].
  assert (forall b : bytes, take 2 (drop 1 (op :: le16 (zlen k) ++ b)) = le16 (zlen k)) as ->
    by done.
  assert (forall b : bytes, drop 3 (op :: le16 (zlen k) ++ b) = b) as -> by done.
  rewrite le_combine_le16, u16_small by lia.
  assert (forall l : bytes, Z.to_nat (zlen l) = length l) as Hn by (intros; apply Nat2Z.id).
  rewrite Hn, drop_app_length, take_app_length.
  assert (forall b : bytes, take 4 (le32 (zlen v) ++ b) = le32 (zlen v)) as -> by done.
  assert (forall b : bytes, drop 4 (le32 (zlen v) ++ b) = b) as -> by done.
  rewrite le_combine_le32, u32_small, Hn by lia.
  rewrite take_app_length, drop_app_length, !zlen_app. change (zlen (le32 (zlen v))) with 4.
  fold (zlen k) (zlen v).
  destruct (Z.ltb_spec (zlen k + (4 + (zlen v + zlen rest))) (zlen k + 4)); [lia|].
  destruct (Z.ltb_spec (zlen v + zlen rest) (zlen v)); [lia|].
  done.
Qed.

Lemma zlen_take_mod (l : bytes) n :
  0 < n -> 0 <= zlen l mod n < n /\ zlen (take (Z.to_nat (zlen l mod n)) l) = zlen l mod n.
Proof.
  intros Hn. pose proof (Z.mod_pos_bound (zlen l) n Hn).
  pose proof (Z.mod_le (zlen l) n (zlen_nonneg l) Hn).
  split; [done|]. unfold zlen in *. rewrite length_take. lia.
Qed.

Lemma decode_entries_batch ops : forall fuel rest,
  (length ops < fuel)%nat ->
  decode_entries fuel (zlen ops) (concat (batch_entry <$> ops) ++ rest) = entry_event <$> ops.
Proof.
  induction ops as [|o ops IH]; intros fuel rest Hf;
    (destruct fuel as [|fuel]; [simpl in Hf; lia|]); [done|].
  cbn [fmap list_fmap concat]. rewrite zlen_cons. pose proof (zlen_nonneg ops).
  destruct (zlen_take_mod (bkey o) (2 ^ 16) ltac:(lia)) as [Hk Ek].
  destruct (zlen_take_mod (bvalue o) (2 ^ 32) ltac:(lia)) as [Hv Ev].
  fold (u16 (zlen (bkey o))) in *. fold (u32 (zlen (bvalue o))) in *.
  unfold batch_entry at 1. rewrite <- Ek at 1. rewrite <- Ev at 1. rewrite <- !app_assoc.
  change ([walop_byte (bop o)] ++ ?x) with (walop_byte (bop o) :: x). cbn [app].
  rewrite decode_entries_step by lia.
  replace (1 + zlen ops - 1) with (zlen ops) by lia.
  rewrite IH by (simpl in Hf; lia). done.
Qed.

Lemma length_batch_entries ops : (length ops <= length (concat (batch_entry <$> ops)))%nat.
Proof.
  induction ops as [|o ops IH]; [done|]. cbn [fmap list_fmap concat length].
  assert (1 <= length (batch_entry o))%nat by (unfold batch_entry; simpl; lia).
  rewrite length_app. lia.
Qed.

Lemma batch_events ops :
  zlen ops < 2 ^ 32 -> events_of (batch_record ops) = entry_event <$> ops.
Proof.
  intros Hn. unfold events_of, record_events, batch_record. cbn [r_op r_key r_payload].
  rewrite bool_decide_eq_true_2 by done. unfold batch_payload.
  set (pad := replicate _ _). rewrite <- app_assoc.
  rewrite !zlen_app. change (zlen (le32 (u32 (zlen ops)))) with 4.
  destruct (Z.leb_spec 4 (4 + (zlen (concat (batch_entry <$> ops)) + zlen pad))).
  2:{ pose proof (zlen_nonneg (concat (batch_entry <$> ops))). pose proof (zlen_nonneg pad). lia. }
  rewrite take_app_length', drop_app_length' by done.
  rewrite le_combine_le32. pose proof (zlen_nonneg ops). rewrite !u32_small by lia.
  apply decode_entries_batch. rewrite !length_app. pose proof (length_batch_entries ops). lia.
Qed.

Lemma batch_buffer_record ops :
  zlen (batch_payload ops) < 2 ^ 32 -> batch_buffer ops = record_bytes (batch_record ops).
Proof.
  intros H. unfold batch_buffer, record_bytes, batch_record. cbn [r_op r_key r_payload].
  pose proof (zlen_nonneg (batch_payload ops)). by rewrite u32_small by lia.
Qed.

(** *** Calls of the log's interface *)

Inductive log_call := CallAppend (op : WalOp) (key payload : bytes) | CallBatch (ops : list BatchOp).

Definition call_bytes (c : log_call) : bytes :=
  match c with
  | CallAppend op key payload => append_buffer op key payload
  | CallBatch ops => batch_buffer ops
  end.

Definition call_wf (c : log_call) : Prop :=
  match c with
  | CallAppend op key payload => op <> BATCH /\ zlen key < 2 ^ 16 /\ zlen payload < 2 ^ 32
  | CallBatch ops => ops <> [] /\ zlen ops < 2 ^ 32 /\ zlen (batch_payload ops) < 2 ^ 32
  end.

Definition call_events (c : log_call) : list wal_event :=
  match c with
  | CallAppend op key payload => [mkEvent (walop_byte op) key payload]
  | CallBatch ops => entry_event <$> ops
  end.

Definition call_record (c : log_call) : wal_record :=
  match c with
  | CallAppend op key payload => mkRecord (walop_byte op) key payload
  | CallBatch ops => batch_record ops
  end.

Lemma call_record_ok c :
  call_wf c ->
  record_wf (call_record c) /\ record_bytes (call_record c) = call_bytes c /\
  events_of (call_record c) = call_events c.
Proof.
  destruct c as [op key payload|ops]; intros (H1 & H2 & H3).
  - split; [done|]. split.
    + unfold record_bytes, call_bytes, append_buffer. simpl.
      pose proof (zlen_nonneg key). pose proof (zlen_nonneg payload).
      by rewrite u16_small, u32_small by lia.
    + unfold events_of, record_events. simpl.
      rewrite bool_decide_eq_false_2; [done|]. by destruct op.
  - split; [split; [done|done]|]. split; [|by apply batch_events].
    simpl. by rewrite batch_buffer_record.
Qed.

Lemma calls_log_bytes cs :
  Forall call_wf cs ->
  Forall record_wf (call_record <$> cs) /\
  log_bytes (call_record <$> cs) = concat (call_bytes <$> cs) /\
  concat (events_of <$> (call_record <$> cs)) = concat (call_events <$> cs).
Proof.
  induction 1 as [|c cs Hc _ (IH1 & IH2 & IH3)]; [done|].
  destruct (call_record_ok c Hc) as (H1 & H2 & H3).
  unfold log_bytes in *. cbn [fmap list_fmap concat] in *. rewrite H2, H3, IH2, IH3. auto.
Qed.

(** *** Writing *)

Definition wal_wf (w : WriteAheadLog) : Prop := fpos w = length (file w).

Lemma file_write_end w d :
  wal_wf w -> file (file_write w d) = file w ++ d /\ wal_wf (file_write w d) /\
  bytes_written_ (file_write w d) = bytes_written_ w /\
  last_error_code_ (file_write w d) = last_error_code_ w.
Proof.
  unfold wal_wf, file_write. simpl. intros ->.
  rewrite take_ge, drop_ge, app_nil_r by lia. rewrite length_app. done.
Qed.

Lemma take_plus {A} (l : list A) n k : take (n + k) l = take n l ++ take k (drop n l).
Proof.
  revert l. induction n as [|n IH]; intros l; [done|].
  destruct l as [|x l]; simpl; [by rewrite take_nil|]. by rewrite IH.
Qed.

Lemma write_loop_spec answers : forall data w ok w' rest,
  wal_wf w -> write_loop answers data w = Some (ok, w', rest) ->
  wal_wf w' /\ bytes_written_ w' = bytes_written_ w /\
  (ok = true -> file w' = file w ++ data /\ last_error_code_ w' = last_error_code_ w) /\
  (ok = false -> exists n, (n < length data)%nat /\ file w' = file w ++ take n data).
Proof.
  induction answers as [|a answers IH]; intros data w ok w' rest Hw H;
    (destruct data as [|b data]; [simpl in H; simplify_eq; rewrite app_nil_r; done|]);
    [done|]. cbn [write_loop] in H.
  destruct a as [n|e].
  - set (m := Nat.min n (length (b :: data))) in *. set (d := b :: data) in *.
    destruct (file_write_end w (take m d) Hw) as (F1 & F2 & F3 & F4).
    destruct (IH _ _ _ _ _ F2 H) as (G1 & G2 & G3 & G4).
    split; [done|]. split; [congruence|]. split.
    + intros Hok. destruct (G3 Hok) as [G5 G6].
      rewrite G5, F1, <- app_assoc, take_drop. split; [done|congruence].
    + intros Hok. destruct (G4 Hok) as (k & Hk & Hf).
      rewrite length_drop in Hk. exists (m + k)%nat.
      split; [unfold m in *; lia|]. rewrite Hf, F1, <- app_assoc. f_equal.
      symmetry. apply take_plus.
  - destruct (e =? EINTR); [by eapply IH|]. simplify_eq.
    split; [done|]. split; [done|]. split; [done|]. intros _. exists 0%nat.
    rewrite take_0, app_nil_r. split; [simpl; lia|done].
Qed.

(** *** Changed bytes *)

(** Byte positions of a record that the check value covers, or that hold it: all but
    the two length fields of the header. *)
Definition protected_pos (i : nat) : Prop := (i < 5)%nat \/ (HEADER_SIZE <= i)%nat.

Lemma crc_stream_insert op key payload i b :
  (i < length (op :: key ++ payload))%nat -> (op :: key ++ payload) !! i <> Some b ->
  crc_process 0xFFFFFFFF (<[i := b]> (op :: key ++ payload)) <>
  crc_process 0xFFFFFFFF (op :: key ++ payload).
Proof.
  generalize (op :: key ++ payload) as l. intros l Hi Hb.
  destruct (lookup_lt_is_Some_2 l i Hi) as [b0 Hb0].
  assert (b <> b0) as Hne by congruence. apply (crc_one_byte (take i l) _ _ (drop (S i) l)) in Hne.
  rewrite insert_take_drop by done. by rewrite (take_drop_middle l i b0 Hb0) in Hne.
Qed.

Lemma compute_crc_changed op key payload op' key' payload' i b :
  op' :: key' ++ payload' = <[i := b]> (op :: key ++ payload) ->
  (i < length (op :: key ++ payload))%nat -> (op :: key ++ payload) !! i <> Some b ->
  compute_crc op' key' payload' <> compute_crc op key payload.
Proof.
  intros E Hi Hb H. rewrite !compute_crc_stream in H. rewrite E in H.
  apply u32_lnot_inj in H; [|apply crc_process_range; lia..].
  by eapply crc_stream_insert.
Qed.

Lemma parse_record_corrupt r i b rest :
  record_wf r -> (i < length (record_bytes r))%nat -> protected_pos i ->
  record_bytes r !! i <> Some b ->
  parse_record (<[i := b]> (record_bytes r) ++ rest) = None.
Proof.
  intros [Hk Hp] Hi Hpos Hb. destruct r as [op key payload]. simpl in Hk, Hp.
  rewrite length_record_bytes in Hi. unfold record_bytes in *. cbn [r_op r_key r_payload] in *.
  set (crc := compute_crc op key payload) in *.
  assert (0 <= crc < 2 ^ 32) as Hcrc by apply compute_crc_range.
  destruct Hpos as [Hlt|Hge].
  - destruct (decide (i = 4%nat)) as [->|Hne].
    + (* the operation byte *)
      assert (<[4%nat := b]> (header_bytes (mkHeader crc op (zlen key) (zlen payload)) ++ key ++ payload)
        = header_bytes (mkHeader crc b (zlen key) (zlen payload)) ++ key ++ payload) as -> by done.
      rewrite <- !app_assoc, parse_record_framed by done.
      destruct (Z.eqb_spec (compute_crc b key payload) crc) as [E|]; [|done].
      exfalso. revert E. apply (compute_crc_changed _ _ _ _ _ _ 0 b); [done|simpl; lia|done].
    + (* the stored check value *)
      assert (i < 4)%nat as Hi4 by lia.
      set (field := <[i := b]> (le32 crc)).
      assert (length field = 4%nat) as Hf by (unfold field; by rewrite length_insert, length_le32).
      assert (<[i := b]> (header_bytes (mkHeader crc op (zlen key) (zlen payload)) ++ key ++ payload)
        = header_bytes (mkHeader (le_combine field) op (zlen key) (zlen payload)) ++ key ++ payload)
        as ->.
      { unfold header_bytes. cbn [h_crc h_op h_key_len h_payload_len]. rewrite <- !app_assoc.
        rewrite insert_app_l by (rewrite length_le32; lia).
        unfold le32 at 3. by rewrite (split_le_combine' field 4). }
      rewrite <- !app_assoc, parse_record_framed;
        [|pose proof (le_combine_bound field) as H; rewrite Hf in H; exact H|done..].
      destruct (Z.eqb_spec (compute_crc op key payload) (le_combine field)) as [E|]; [|done].
      exfalso. fold crc in E. apply Hb. unfold header_bytes. rewrite <- !app_assoc.
      rewrite lookup_app_l by (rewrite length_le32; lia).
      cbn [h_crc]. rewrite E. unfold le32. rewrite (split_le_combine' field 4) by done.
      unfold field. apply list_lookup_insert_eq. by rewrite length_le32.
  - (* the key or the payload *)
    assert (exists j, i = (HEADER_SIZE + j)%nat) as [j ->] by (exists (i - HEADER_SIZE)%nat; lia).
    rewrite lookup_app_r in Hb by (rewrite length_header_bytes; lia).
    rewrite length_header_bytes in Hb. rewrite Nat.add_sub_swap, Nat.sub_diag in Hb by lia.
    cbn [Nat.add] in Hb.
    rewrite insert_app_r_alt by (rewrite length_header_bytes; lia).
    rewrite length_header_bytes, Nat.add_sub_swap, Nat.sub_diag by lia. cbn [Nat.add].
    set (body := <[j := b]> (key ++ payload)).
    assert (body = take (length key) body ++ drop (length key) body) as Hbody by (by rewrite take_drop).
    assert (length body = (length key + length payload)%nat) as Hlb
      by (unfold body; by rewrite length_insert, length_app).
    rewrite Hbody. set (key' := take _ body) in *. set (payload' := drop _ body) in *.
    assert (zlen key = zlen key') as Ek by (unfold zlen, key'; rewrite length_take; lia).
    assert (zlen payload = zlen payload') as Ep by (unfold zlen, payload'; rewrite length_drop; lia).
    rewrite Ek, Ep in *. rewrite <- !app_assoc, parse_record_framed by done.
    destruct (Z.eqb_spec (compute_crc op key' payload') crc) as [E|]; [|done].
    exfalso. revert E. apply (compute_crc_changed _ _ _ _ _ _ (S j) b).
    + by rewrite <- Hbody.
    + simpl. rewrite length_app. lia.
    + done.
Qed.

(** ** Properties *)

(** C11: crash recovery.  A log that holds any sequence of [append] and [append_batch]
    calls and was cut short anywhere inside the last record is replayed exactly: every
    operation of the complete records in order (keys cut to the 16-bit length field),
    nothing of the torn one, and the file is truncated to the end of the last complete
    record. *)
Theorem crash_recovery calls last n w :
  Forall call_wf calls -> call_wf last -> (n < length (call_bytes last))%nat ->
  file w = concat (call_bytes <$> calls) ++ take n (call_bytes last) ->
  (recover w).1 = concat (call_events <$> calls) /\
  file (recover w).2 = concat (call_bytes <$> calls).
Proof.
  intros Hc Hl Hn Hf.
  destruct (calls_log_bytes calls Hc) as (H1 & H2 & H3).
  destruct (call_record_ok last Hl) as (L1 & L2 & _). rewrite <- L2 in *.
  rewrite <- H2, <- H3 in *. rewrite (recover_log _ _ w H1 (parse_record_torn _ _ L1 Hn) Hf).
  destruct (decide (file w = [])) as [E|]; [|done].
  rewrite E in Hf. symmetry in Hf. apply app_eq_nil in Hf as [Hnil _].
  destruct calls as [|c calls]; [simpl; by rewrite E|].
  exfalso. unfold log_bytes in Hnil. cbn [fmap list_fmap concat] in Hnil.
  apply app_eq_nil in Hnil as [Hnil _]. apply (f_equal length) in Hnil.
  rewrite length_record_bytes in Hnil. done.
Qed.

Definition sample_calls : list log_call :=
  [CallBatch [mkBatchOp PUT (str "k") (str "v"); mkBatchOp PUT (str "k:meta") (str "t")];
   CallAppend DELETE_ (str "k") []].

Lemma crash_recovery_witness :
  let w := wal_open (concat (call_bytes <$> sample_calls)
                     ++ take 14 (call_bytes (CallAppend PUT (str "x") (str "long")))) in
  (recover w).1 = concat (call_events <$> sample_calls) /\
  file (recover w).2 = concat (call_bytes <$> sample_calls).
Proof.
  apply (crash_recovery sample_calls (CallAppend PUT (str "x") (str "long")) 14).
  - apply Forall_cons; split; [split; [done|vm_compute; split; reflexivity]|].
    apply Forall_cons; split; [split; [done|vm_compute; split; reflexivity]|].
    apply Forall_nil; exact I.
  - split; [done|vm_compute; split; reflexivity].
  - vm_compute. lia.
  - reflexivity.
Defined.

(** C27: corruption is detected.  Changing one byte of a record (its check value, its
    operation, its key or its payload; the length fields are not covered) makes recovery
    stop right before it: the records before it are replayed and everything from the
    damaged record on is cut off. *)
Theorem corrupt_byte_stops_recovery rs r i b rest w :
  Forall record_wf rs -> record_wf r -> (i < length (record_bytes r))%nat ->
  protected_pos i -> record_bytes r !! i <> Some b ->
  file w = log_bytes rs ++ <[i := b]> (record_bytes r) ++ rest ->
  (recover w).1 = concat (events_of <$> rs) /\ file (recover w).2 = log_bytes rs.
Proof.
  intros Hrs Hr Hi Hp Hb Hf.
  rewrite (recover_log rs _ w Hrs (parse_record_corrupt r i b rest Hr Hi Hp Hb) Hf).
  destruct (decide (file w = [])) as [E|]; [|done].
  exfalso. rewrite E in Hf. apply (f_equal length) in Hf.
  rewrite !length_app, length_insert in Hf. simpl in Hf. lia.
Qed.

Lemma corrupt_byte_stops_recovery_witness :
  let r := mkRecord Byte.x01 (str "k") (str "value") in
  let w := wal_open (record_bytes r ++ <[13%nat := Byte.x00]> (record_bytes r) ++ record_bytes r) in
  (recover w).1 = concat (events_of <$> [r]) /\ file (recover w).2 = log_bytes [r].
Proof.
  apply (corrupt_byte_stops_recovery [mkRecord Byte.x01 (str "k") (str "value")]
           (mkRecord Byte.x01 (str "k") (str "value")) 13 Byte.x00
           (record_bytes (mkRecord Byte.x01 (str "k") (str "value")))).
  - apply Forall_cons; split; [split; reflexivity|apply Forall_nil; exact I].
  - split; reflexivity.
  - vm_compute. lia.
  - right. unfold HEADER_SIZE. lia.
  - vm_compute. discriminate.
  - reflexivity.
Defined.

(** Short writes and interruptions are invisible.  When [write_raw] reports success
    the file is exactly the old contents followed by the data and the byte counter grew
    by its size; when it reports failure, only a strict prefix of the data is in the
    file and the counter is unchanged. *)
Theorem write_raw_spec answers data w ok w' rest :
  wal_wf w -> write_raw answers data w = Some (ok, w', rest) ->
  wal_wf w' /\
  (ok = true -> file w' = file w ++ data /\ bytes_written_ w' = bytes_written_ w + zlen data) /\
  (ok = false -> bytes_written_ w' = bytes_written_ w /\
     exists n, (n < length data)%nat /\ file w' = file w ++ take n data).
Proof.
  intros Hw H. unfold write_raw in H. destruct data as [|b data].
  { simplify_eq. rewrite app_nil_r, zlen_nil, Z.add_0_r. done. }
  destruct (write_loop answers (b :: data) w) as [[[ok0 w0] rest0]|] eqn:E; [|done].
  destruct (write_loop_spec _ _ _ _ _ _ Hw E) as (H1 & H2 & H3 & H4).
  destruct ok0; simplify_eq; simpl.
  - destruct (H3 eq_refl) as [? _]. split; [done|]. split; [|done]. intros _.
    split; [done|]. by rewrite H2.
  - split; [done|]. split; [done|]. auto.
Qed.

Lemma write_raw_spec_witness :
  exists n, (n < 3)%nat /\ str "oldab" = str "old" ++ take n (str "abc").
Proof.
  destruct (write_raw_spec [Wrote 1; WriteError 4; Wrote 1; WriteError 28] (str "abc")
    (wal_open (str "old")) false (mkWal (str "oldab") 5 0 0 28) [] eq_refl eq_refl)
    as (_ & _ & H).
  exact (proj2 (H eq_refl)).
Defined.

(** An answer of [write] that lets the loop go on. *)
Definition progress (a : write_result) : Prop :=
  match a with Wrote n => (0 < n)%nat | WriteError e => e = EINTR end.

Definition is_wrote (a : write_result) : bool := match a with Wrote _ => true | _ => false end.

(** [write_raw] terminates and succeeds when the system call only ever makes progress
    or is interrupted and answers at least once per byte. *)
Theorem write_raw_terminates answers data w :
  Forall progress answers -> (length data <= length (List.filter is_wrote answers))%nat ->
  exists w' rest, write_raw answers data w = Some (true, w', rest).
Proof.
  intros Ha Hn.
  assert (exists w' rest, write_loop answers data w = Some (true, w', rest)) as (w' & rest & E).
  { revert data w Hn. induction Ha as [|a answers Ha _ IH]; intros data w Hn;
      (destruct data as [|b data]; [simpl; eauto|]); [simpl in Hn; lia|].
    cbn [write_loop]. destruct a as [n|e]; simpl in Ha, Hn.
    - apply IH. rewrite length_drop. simpl. lia.
    - subst e. rewrite Z.eqb_refl. apply IH. simpl. lia. }
  unfold write_raw. destruct data; [eauto|]. rewrite E. eauto.
Qed.

Lemma write_raw_terminates_witness :
  exists w' rest, write_raw [WriteError 4; Wrote 7; Wrote 1] (str "ab") (wal_open []) =
    Some (true, w', rest).
Proof.
  apply (write_raw_terminates [WriteError 4; Wrote 7; Wrote 1] (str "ab") (wal_open [])).
  - repeat (apply Forall_cons; split; [vm_compute; lia || reflexivity|]). apply Forall_nil; exact I.
  - simpl. lia.
Defined.

(** A failed write is not cleaned up.  [append] drops the result of [write_raw], so
    after one record was cut short (here: the disk was full for a moment) the records
    appended later lie behind the fragment and recovery replays none of them. *)
Theorem failed_write_hides_later_records :
  exists w1 w2,
    append [Wrote 5; WriteError 28] PUT (str "a") (str "1") (wal_open []) = Some (w1, []) /\
    append [Wrote 13] PUT (str "b") (str "2") w1 = Some (w2, []) /\
    recover w2 = ([], mkWal [] 0 13 0 28).
Proof.
  eexists _, _. split; [vm_compute; reflexivity|]. split; [vm_compute; reflexivity|].
  vm_compute. reflexivity.
Qed.

(** ** Recovery, then more calls *)

(** The calls of the interface one after the other, on what the system calls answer. *)
Definition do_call (answers : list write_result) (c : log_call) (w : WriteAheadLog)
  : option (WriteAheadLog * list write_result) :=
  match c with
  | CallAppend op key payload => append answers op key payload w
  | CallBatch ops => append_batch answers ops w
  end.

Fixpoint do_calls (answers : list write_result) (cs : list log_call) (w : WriteAheadLog)
  : option (WriteAheadLog * list write_result) :=
  match cs with
  | [] => Some (w, answers)
  | c :: cs =>
      match do_call answers c w with
      | Some (w, answers) => do_calls answers cs w
      | None => None
      end
  end.

(** Answers that let [n] bytes be written. *)
Definition enough_answers (n : nat) (answers : list write_result) : Prop :=
  Forall progress answers /\ (n <= length (List.filter is_wrote answers))%nat.

Lemma write_loop_completes k answers : forall data w,
  wal_wf w -> enough_answers (length data + k) answers ->
  exists w' rest, write_loop answers data w = Some (true, w', rest) /\ enough_answers k rest /\
    wal_wf w' /\ file w' = file w ++ data.
Proof.
  induction answers as [|a answers IH]; intros data w Hw [Hp Hn]; cbn [List.filter length] in Hn.
  { destruct data; [|simpl in Hn; lia]. exists w, []. rewrite app_nil_r. simpl in Hn.
    split; [done|]. split; [split; [done|simpl; lia]|done]. }
  destruct data as [|b data].
  { exists w, (a :: answers). rewrite app_nil_r. split; [done|]. split; [by split|done]. }
  apply Forall_cons in Hp as [Ha Hp]. cbn [write_loop]. destruct a as [n|e]; cbn [progress is_wrote length] in Ha, Hn.
  - set (m := Nat.min n (length (b :: data))). set (d := b :: data) in *.
    assert (0 < m)%nat by (unfold m, d; simpl; lia).
    assert (length d = S (length data)) as Hd by done.
    destruct (file_write_end w (take m d) Hw) as (F1 & F2 & _ & _).
    destruct (IH (drop m d) _ F2) as (w' & rest & E & Hr & Hw' & Hf).
    { split; [done|]. rewrite length_drop, Hd. lia. }
    exists w', rest. split; [done|]. split; [done|]. split; [done|].
    by rewrite Hf, F1, <- app_assoc, take_drop.
  - subst e. change (EINTR =? EINTR) with true. cbn iota. apply IH; [done|]. by split.
Qed.

Lemma do_call_enough k answers c w :
  wal_wf w -> call_wf c -> enough_answers (length (call_bytes c) + k) answers ->
  exists w' rest, do_call answers c w = Some (w', rest) /\ enough_answers k rest /\
    wal_wf w' /\ file w' = file w ++ call_bytes c.
Proof.
  intros Hw Hc Hn. assert (exists w' rest, write_raw answers (call_bytes c) w = Some (true, w', rest) /\
    enough_answers k rest /\ wal_wf w' /\ file w' = file w ++ call_bytes c) as (w' & rest & E & H).
  { destruct (write_loop_completes k answers (call_bytes c) w Hw Hn) as (w' & rest & E & Hr & Hw' & Hf).
    unfold write_raw. destruct (call_bytes c) as [|b l].
    - exists w, answers. rewrite app_nil_r. by split.
    - rewrite E. by eexists _, rest. }
  exists w', rest. split; [|done]. destruct c as [op key payload|ops]; cbn [do_call call_bytes] in *.
  - unfold append. by rewrite E.
  - unfold append_batch. rewrite E. by destruct ops; [destruct (proj1 Hc)|].
Qed.

Lemma do_calls_enough cs : forall answers w,
  wal_wf w -> Forall call_wf cs -> enough_answers (length (concat (call_bytes <$> cs))) answers ->
  exists w' rest, do_calls answers cs w = Some (w', rest) /\
    wal_wf w' /\ file w' = file w ++ concat (call_bytes <$> cs).
Proof.
  induction cs as [|c cs IH]; intros answers w Hw Hc Hn; cbn [do_calls].
  { exists w, answers. by rewrite app_nil_r. }
  apply Forall_cons in Hc as [Hc Hcs]. cbn [fmap list_fmap concat] in *. rewrite length_app in Hn.
  destruct (do_call_enough _ _ c w Hw Hc Hn) as (w1 & rest1 & E1 & Hn1 & Hw1 & Hf1). rewrite E1.
  destruct (IH _ _ Hw1 Hcs Hn1) as (w2 & rest2 & E2 & Hw2 & Hf2).
  exists w2, rest2. split; [done|]. split; [done|]. by rewrite Hf2, Hf1, app_assoc.
Qed.

(** What recovery keeps is a sequence of whole records, with the file position behind it. *)
Lemma recover_kept contents :
  exists rs, Forall record_wf rs /\ file (recover (wal_open contents)).2 = log_bytes rs /\
    (recover (wal_open contents)).1 = concat (events_of <$> rs) /\ wal_wf (recover (wal_open contents)).2.
Proof.
  destruct (log_decomposition contents) as (rs & tail & Hf & Hwf & Htail). exists rs. split; [done|].
  rewrite (recover_log rs tail (wal_open contents) Hwf Htail Hf).
  destruct (decide (file (wal_open contents) = [])) as [E|]; [|done]. cbn [file wal_open] in E. simpl. rewrite E in Hf |- *.
  symmetry in Hf. apply app_eq_nil in Hf as [Hnil _]. rewrite Hnil.
  pose proof (length_log_bytes rs) as Hlen. rewrite Hnil in Hlen. by destruct rs; [|simpl in Hlen; lia].
Qed.

(** C26: recovery can be repeated and the log continued.  Whatever bytes a file holds, open and
    recover it and make calls of [append] and [append_batch] on the recovered log, with write
    calls that make progress or are interrupted: they come to an end, the file is what recovery
    kept followed by the records of the calls, and opening and recovering it again replays what
    the first recovery replayed and then the operations of the calls, and keeps the whole file. *)
Theorem recover_then_continue contents calls answers :
  Forall call_wf calls -> enough_answers (length (concat (call_bytes <$> calls))) answers ->
  exists w' rest,
    do_calls answers calls (recover (wal_open contents)).2 = Some (w', rest) /\
    file w' = file (recover (wal_open contents)).2 ++ concat (call_bytes <$> calls) /\
    (recover (wal_open (file w'))).1 =
      (recover (wal_open contents)).1 ++ concat (call_events <$> calls) /\
    file (recover (wal_open (file w'))).2 = file w'.
Proof.
  intros Hc Hn. destruct (recover_kept contents) as (rs & Hwf & E1 & E2 & Hpos).
  destruct (calls_log_bytes calls Hc) as (H1 & H2 & H3).
  destruct (do_calls_enough calls answers _ Hpos Hc Hn) as (w' & rest & E & _ & Hf).
  exists w', rest. split; [done|]. split; [done|].
  assert (file w' = log_bytes (rs ++ (call_record <$> calls)) ++ []) as Elog.
  { rewrite Hf, E1, <- H2, app_nil_r. unfold log_bytes. by rewrite fmap_app, concat_app. }
  rewrite (recover_log (rs ++ (call_record <$> calls)) [] (wal_open (file w'))); try done; [|by apply Forall_app].
  cbn [file wal_open]. rewrite E2, <- H3, <- concat_app, <- fmap_app. rewrite app_nil_r in Elog.
  destruct (decide (file w' = [])) as [En|]; [|by rewrite Elog]. simpl. split; [|done]. rewrite Elog in En.
  pose proof (length_log_bytes (rs ++ (call_record <$> calls))) as Hlen. rewrite En in Hlen.
  by destruct (rs ++ (call_record <$> calls)); [|simpl in Hlen; lia].
Qed.

(** Rubbish at the end of the file, interrupted and short writes. *)
Lemma recover_then_continue_witness :
  let contents := call_bytes (CallAppend PUT (str "x") (str "1")) ++ str "rubbish" in
  let answers := WriteError 4 :: replicate 100 (Wrote 3) in
  exists w' rest,
    do_calls answers sample_calls (recover (wal_open contents)).2 = Some (w', rest) /\
    (recover (wal_open (file w'))).1 = mkEvent (walop_byte PUT) (str "x") (str "1") :: concat (call_events <$> sample_calls).
Proof.
  destruct (recover_then_continue (call_bytes (CallAppend PUT (str "x") (str "1")) ++ str "rubbish")
    sample_calls (WriteError 4 :: replicate 100 (Wrote 3))) as (w' & rest & E & _ & Hr & _).
  - apply Forall_cons; split; [split; [done|vm_compute; split; reflexivity]|].
    apply Forall_cons; split; [split; [done|vm_compute; split; reflexivity]|].
    apply Forall_nil; exact I.
  - split; [|apply Nat.leb_le; vm_compute; reflexivity].
    apply Forall_cons; split; [reflexivity|]. apply Forall_replicate. simpl. lia.
  - exists w', rest. split; [exact E|]. rewrite Hr. vm_compute. reflexivity.
Defined.
