(* ===== verification/CxxString.v ===== *)
(** * The operations of [std::string] and [std::string_view] the sources use

    Searching, prefixes and suffixes, the byte order of [std::map] keys, and the
    decimal conversions [std::to_string], [std::stoll] and [std::stoul] (LP64:
    [unsigned long] has 64 bits). *)
From S2P Require Import Prelude.

(** ** Searching *)

(** [s.find(c)], with [None] for [npos]. *)
Fixpoint find_char (c : Byte.byte) (s : bytes) : option nat :=
  match s with
  | [] => None
  | x :: s' => if decide (x = c) then Some 0%nat else S <$> find_char c s'
  end.

(** [s.find(c, pos)] *)
Definition find_char_from (c : Byte.byte) (s : bytes) (pos : nat) : option nat :=
  Nat.add pos <$> find_char c (drop pos s).

(** [s.find_first_not_of(set)], answering the byte found. *)
Fixpoint first_not_of (set s : bytes) : option Byte.byte :=
  match s with
  | [] => None
  | x :: s' => if decide (x ∈ set) then first_not_of set s' else Some x
  end.

Fixpoint starts_with (s prefix : bytes) : bool :=
  match prefix, s with
  | [], _ => true
  | p :: ps, x :: xs => bool_decide (x = p) && starts_with xs ps
  | _ :: _, [] => false
  end.

Definition ends_with (s suffix : bytes) : bool :=
  (length suffix <=? length s)%nat
  && bool_decide (drop (length s - length suffix) s = suffix).

(** [s.find(sub) != npos] *)
Fixpoint contains (s sub : bytes) : bool :=
  starts_with s sub || match s with [] => false | _ :: s' => contains s' sub end.

(** ** Order: [char_traits<char>] compares bytes as unsigned characters *)

Fixpoint bytes_ltb (a b : bytes) : bool :=
  match a, b with
  | [], [] => false
  | [], _ :: _ => true
  | _ :: _, [] => false
  | x :: a', y :: b' =>
      if byte.unsigned x <? byte.unsigned y then true
      else if byte.unsigned y <? byte.unsigned x then false
      else bytes_ltb a' b'
  end.

(** ** Decimal conversions *)

Definition digit_byte (d : Z) : Byte.byte := byte.of_Z (48 + d).

Fixpoint digits_acc (fuel : nat) (n : Z) (acc : bytes) : bytes :=
  match fuel with
  | O => acc
  | S fuel' =>
      let acc' := digit_byte (n mod 10) :: acc in
      if n / 10 =? 0 then acc' else digits_acc fuel' (n / 10) acc'
  end.

(** [std::to_string] on 64-bit integers, which have at most 20 digits. *)
Definition to_string (z : Z) : bytes :=
  if z <? 0 then Byte.x2d :: digits_acc 20 (- z) [] else digits_acc 20 z [].

Definition is_space (b : Byte.byte) : bool :=
  let c := byte.unsigned b in (c =? 32) || ((9 <=? c) && (c <=? 13)).

Fixpoint skip_spaces (s : bytes) : bytes :=
  match s with [] => [] | b :: s' => if is_space b then skip_spaces s' else s end.

Definition digit_val (b : Byte.byte) : option Z :=
  let c := byte.unsigned b in if (48 <=? c) && (c <=? 57) then Some (c - 48) else None.

(** The value of the longest run of digits, [None] when there is none. *)
Fixpoint parse_digits (s : bytes) (acc : option Z) : option Z :=
  match s with
  | [] => acc
  | b :: s' =>
      match digit_val b with
      | Some d => parse_digits s' (Some (10 * default 0 acc + d))
      | None => acc
      end
  end.

(** Sign and magnitude as [strtoll] and [strtoul] read them. *)
Definition parse_signed (s : bytes) : option (bool * Z) :=
  let s := skip_spaces s in
  let '(neg, s) :=
    match s with
    | b :: s' => if decide (b = Byte.x2d) then (true, s')
                 else if decide (b = Byte.x2b) then (false, s') else (false, s)
    | [] => (false, s)
    end in
  (fun m => (neg, m)) <$> parse_digits s None.

Definition stoll (s : bytes) : result Z :=
  match parse_signed s with
  | None => Throw invalid_argument
  | Some (neg, m) =>
      let v := if neg : bool then - m else m in
      if (- 2 ^ 63 <=? v) && (v <? 2 ^ 63) then Ok v else Throw out_of_range
  end.

Definition stoul (s : bytes) : result Z :=
  match parse_signed s with
  | None => Throw invalid_argument
  | Some (neg, m) =>
      if m <? 2 ^ 64 then Ok (if neg : bool then u64 (- m) else m) else Throw out_of_range
  end.

(** ** Lemmas: searching *)

Lemma find_char_Some c s i :
  find_char c s = Some i -> s !! i = Some c /\ c ∉ take i s.
Proof.
  revert i. induction s as [|x s IH]; intros i H; [done|]. simpl in H.
  destruct (decide (x = c)) as [->|Hne].
  - simplify_eq. split; [done|]. apply not_elem_of_nil.
  - destruct (find_char c s) as [j|] eqn:E; [|done]. simplify_eq/=.
    destruct (IH j eq_refl). split; [done|]. apply not_elem_of_cons. done.
Qed.

Lemma find_char_app c s t : c ∉ s -> find_char c (s ++ c :: t) = Some (length s).
Proof.
  induction s as [|x s IH]; simpl; intros H.
  - by rewrite decide_True.
  - apply not_elem_of_cons in H as [Hne H]. rewrite decide_False by done. by rewrite IH.
Qed.

Lemma starts_with_spec s p : starts_with s p = true <-> p `prefix_of` s.
Proof.
  revert s. induction p as [|b p IH]; intros [|x s]; simpl.
  - split; [intros; apply prefix_nil|done].
  - split; [intros; apply prefix_nil|done].
  - split; [done|]. by intros ?%prefix_nil_not.
  - rewrite andb_true_iff, bool_decide_eq_true, IH. split.
    + intros [-> ?]. by apply prefix_cons.
    + intros H. split; [symmetry; by eapply prefix_cons_inv_1|by eapply prefix_cons_inv_2].
Qed.

(** ** Lemmas: the order *)

Lemma bytes_ltb_irrefl a : bytes_ltb a a = false.
Proof. induction a as [|x a IH]; simpl; [done|]. by rewrite Z.ltb_irrefl. Qed.

Lemma bytes_ltb_trans a b c :
  bytes_ltb a b = true -> bytes_ltb b c = true -> bytes_ltb a c = true.
Proof.
  revert b c. induction a as [|x a IH]; intros [|y b] [|z c]; simpl; try done.
  intros H1 H2. repeat case_match; bool_prop; try done; try lia.
  by eapply IH.
Qed.

Lemma bytes_ltb_total a b : bytes_ltb a b = false -> bytes_ltb b a = false -> a = b.
Proof.
  revert b. induction a as [|x a IH]; intros [|y b]; simpl; try done.
  intros H1 H2. repeat case_match; bool_prop; try done.
  f_equal; [apply byte.unsigned_inj; lia|by apply IH].
Qed.

Lemma bytes_ltb_asym a b : bytes_ltb a b = true -> bytes_ltb b a = false.
Proof.
  intros H. apply not_true_is_false. intros H'.
  pose proof (bytes_ltb_trans _ _ _ H H'). by rewrite bytes_ltb_irrefl in *.
Qed.

Lemma prefix_not_ltb p s : p `prefix_of` s -> bytes_ltb s p = false.
Proof.
  intros [k ->]. induction p as [|x p IH]; simpl; [by destruct k|]. by rewrite Z.ltb_irrefl.
Qed.

(** Keys with a common prefix form an interval of the order. *)
Lemma prefix_interval p a b c :
  p `prefix_of` a -> p `prefix_of` c -> bytes_ltb a b = true -> bytes_ltb b c = true ->
  p `prefix_of` b.
Proof.
  intros [k ->] [m ->] H1 H2. revert b H1 H2. induction p as [|x p IH]; intros b H1 H2.
  - apply prefix_nil.
  - destruct b as [|y b]; [done|]. simpl in H1, H2.
    assert (byte.unsigned x = byte.unsigned y) as E by (repeat case_match; bool_prop; lia || done).
    rewrite E, Z.ltb_irrefl in *. apply byte.unsigned_inj in E as ->.
    apply prefix_cons, IH; done.
Qed.

(** ** Lemmas: decimal round trip *)

Lemma digit_val_byte d : 0 <= d < 10 -> digit_val (digit_byte d) = Some d.
Proof.
  intros Hd. unfold digit_val, digit_byte. rewrite byte.unsigned_of_Z. unfold byte.wrap.
  rewrite Z.mod_small by lia.
  destruct (Z.leb_spec 48 (48 + d)), (Z.leb_spec (48 + d) 57); try lia. simpl. f_equal. lia.
Qed.

Lemma parse_digits_acc fuel : forall n rest a,
  0 <= n < 10 ^ Z.of_nat fuel -> (0 < fuel)%nat ->
  (forall v, parse_digits rest (Some v) = Some (a v)) ->
  forall acc0, exists k, 0 < k /\
  parse_digits (digits_acc fuel n rest) acc0 = Some (a (default 0 acc0 * k + n)).
Proof.
  induction fuel as [|fuel IH]; intros n rest a Hn Hf Ha acc0; [lia|].
  cbn [digits_acc]. pose proof (Z.mod_pos_bound n 10 ltac:(lia)).
  pose proof (Z.div_mod n 10 ltac:(lia)).
  destruct (Z.eqb_spec (n / 10) 0) as [E|E].
  - exists 10. split; [lia|]. simpl. rewrite digit_val_byte, Ha by lia. f_equal. f_equal. lia.
  - destruct (IH (n / 10) (digit_byte (n mod 10) :: rest) (fun v => a (10 * v + n mod 10))) with acc0
      as (k & Hk & ->).
    + rewrite Nat2Z.inj_succ, Z.pow_succ_r in Hn by lia.
      split; [apply Z.div_pos; lia|apply Z.div_lt_upper_bound; lia].
    + destruct fuel; [|lia]. simpl in Hn. rewrite Z.div_small in E; lia.
    + intros v. simpl. rewrite digit_val_byte, Ha by lia. done.
    + exists (10 * k). split; [lia|]. f_equal. f_equal. lia.
Qed.

Lemma digits_acc_head fuel : forall n rest,
  0 <= n -> (0 < fuel)%nat ->
  exists d t, 0 <= d < 10 /\ digits_acc fuel n rest = digit_byte d :: t.
Proof.
  induction fuel as [|fuel IH]; intros n rest Hn Hf; [lia|]. cbn [digits_acc].
  pose proof (Z.mod_pos_bound n 10 ltac:(lia)).
  destruct (n / 10 =? 0); [eauto|]. destruct fuel as [|fuel]; [simpl; eauto|].
  apply IH; [apply Z.div_pos; lia|lia].
Qed.

Lemma digit_byte_not_special d :
  0 <= d < 10 ->
  is_space (digit_byte d) = false /\ digit_byte d <> Byte.x2d /\ digit_byte d <> Byte.x2b.
Proof.
  intros Hd.
  assert (byte.unsigned (digit_byte d) = 48 + d) as E.
  { unfold digit_byte. rewrite byte.unsigned_of_Z. apply Z.mod_small. lia. }
  unfold is_space. rewrite E. split; [|split].
  - destruct (Z.eqb_spec (48 + d) 32), (Z.leb_spec (48 + d) 13); lia.
  - intros H. rewrite H in E. change (byte.unsigned Byte.x2d) with 45 in E. lia.
  - intros H. rewrite H in E. change (byte.unsigned Byte.x2b) with 43 in E. lia.
Qed.

Lemma parse_signed_to_string z :
  - 10 ^ 20 < z < 10 ^ 20 -> parse_signed (to_string z) = Some (z <? 0, Z.abs z).
Proof.
  intros Hz. unfold to_string, parse_signed.
  destruct (Z.ltb_spec z 0).
  - cbn [skip_spaces]. change (is_space Byte.x2d) with false. cbv iota.
    rewrite decide_True by done.
    destruct (parse_digits_acc 20 (- z) [] (fun v => v)) with (acc0 := @None Z) as (k & _ & ->);
      [lia|lia|done|]. simpl. do 2 f_equal. lia.
  - destruct (digits_acc_head 20 z [] ltac:(lia) ltac:(lia)) as (d & t & Hd & E).
    destruct (digit_byte_not_special d Hd) as (S1 & S2 & S3).
    rewrite E. cbn [skip_spaces]. rewrite S1, !decide_False by done. rewrite <- E.
    destruct (parse_digits_acc 20 z [] (fun v => v)) with (acc0 := @None Z) as (k & _ & ->);
      [lia|lia|done|]. simpl. do 2 f_equal. lia.
Qed.

Lemma stoll_to_string z : - 2 ^ 63 <= z < 2 ^ 63 -> stoll (to_string z) = Ok z.
Proof.
  intros Hz. unfold stoll. rewrite parse_signed_to_string by lia.
  assert ((if z <? 0 then - Z.abs z else Z.abs z) = z) as -> by (destruct (Z.ltb_spec z 0); lia).
  destruct (Z.leb_spec (- 2 ^ 63) z), (Z.ltb_spec z (2 ^ 63)); lia || done.
Qed.
