(* ===== verification/Credential.v ===== *)
(** * Users and access control (src/engine/credential_manager.hpp)

    [Permission], [UserIdentity] and [CredentialManager].  The shared mutex makes each
    method atomic.  [std::sort] leaves the order of equivalent elements open, so it is an
    interface ([StdSort]) with the standard's contract; the theorems hold for every
    implementation of it. *)
From S2P Require Import Prelude CxxString.

Definition INTERNAL_UID : Z := 0xFFFFFFFF.
Definition ADMIN_UID : Z := 0.

(** ** Permission: an 8-bit set *)

Definition NONE : Z := 0.
Definition READ : Z := 1.
Definition WRITE : Z := 2.
Definition ADMIN : Z := 4.

Definition perm_or (a b : Z) : Z := Z.lor a b.
Definition perm_and (a b : Z) : bool := negb (Z.land a b =? 0).

Record UserIdentity := mkUser { uid : Z; name : bytes; public_key : bytes }.

Record ACLRule := mkRule { prefix : bytes; perm : Z }.

#[export] Instance ACLRule_eq_dec : EqDecision ACLRule.
Proof. solve_decision. Defined.

Record CredentialManager := mkCred {
  key_to_uid_ : gmap bytes Z;
  users_ : gmap Z UserIdentity;
  user_acls_ : gmap Z (list ACLRule)
}.

Definition cred_new : CredentialManager := mkCred ∅ ∅ ∅.

(** ** [std::sort] by prefix length, longest first *)

Definition longer (a b : ACLRule) : Prop := (length (prefix b) <= length (prefix a))%nat.

Class StdSort := std_sort : list ACLRule -> list ACLRule.

Class StdSortSpec `{!StdSort} : Prop := {
  std_sort_perm l : Permutation l (std_sort l);
  std_sort_sorted l : StronglySorted longer (std_sort l)
}.

(** ** Methods *)

Definition register_user (u : Z) (nm pk : bytes) (m : CredentialManager)
  : bool * CredentialManager :=
  match users_ m !! u with
  | Some _ => (false, m)
  | None =>
      (true, mkCred (if decide (pk = []) then key_to_uid_ m else <[pk := u]> (key_to_uid_ m))
               (<[u := mkUser u nm pk]> (users_ m)) (user_acls_ m))
  end.

(** [users_.at] throws [std::out_of_range] on a missing id. *)
Definition get_user_by_key (pk : bytes) (m : CredentialManager) : result (option UserIdentity) :=
  if decide (pk = []) then Ok None
  else match key_to_uid_ m !! pk with
       | None => Ok None
       | Some u => match users_ m !! u with
                   | Some user => Ok (Some user)
                   | None => Throw out_of_range
                   end
       end.

Definition set_acl `{!StdSort} (u : Z) (pfx : bytes) (p : Z) (m : CredentialManager)
  : CredentialManager :=
  let acls := default [] (user_acls_ m !! u) in
  let acls := List.filter (fun r => negb (bool_decide (prefix r = pfx))) acls in
  let acls := std_sort (acls ++ [mkRule pfx p]) in
  mkCred (key_to_uid_ m) (users_ m) (<[u := acls]> (user_acls_ m)).

Definition rule_matches (key : bytes) (r : ACLRule) : bool :=
  bool_decide (prefix r = str "*") || starts_with key (prefix r).

Fixpoint first_match (key : bytes) (rs : list ACLRule) : Z :=
  match rs with
  | [] => NONE
  | r :: rs' => if rule_matches key r then perm r else first_match key rs'
  end.

Definition check_permission (u : Z) (key : bytes) (m : CredentialManager) : Z :=
  if (u =? INTERNAL_UID) || (u =? ADMIN_UID) then ADMIN
  else match user_acls_ m !! u with
       | None => NONE
       | Some rs => first_match key rs
       end.

(** The two guards of the engine's entry points. *)
Definition may_read (p : Z) : bool := perm_and p READ || perm_and p ADMIN.
Definition may_write (p : Z) : bool := perm_and p WRITE || perm_and p ADMIN.

(** ** Invariant *)

Record cred_inv (m : CredentialManager) : Prop := {
  ci_keys : forall pk u, key_to_uid_ m !! pk = Some u -> is_Some (users_ m !! u);
  ci_users : forall u user, users_ m !! u = Some user -> uid user = u;
  ci_sorted : forall u rs, user_acls_ m !! u = Some rs -> StronglySorted longer rs;
  ci_unique : forall u rs, user_acls_ m !! u = Some rs -> NoDup (prefix <$> rs)
}.

Lemma cred_new_inv : cred_inv cred_new.
Proof. split; intros; simplify_map_eq. Qed.

Lemma register_user_inv u nm pk m : cred_inv m -> cred_inv (register_user u nm pk m).2.
Proof.
  intros Hm. unfold register_user. destruct (users_ m !! u) eqn:Hu; [done|].
  split; simpl; try apply Hm.
  - intros pk' u' H. destruct (decide (u' = u)) as [->|]; [by rewrite lookup_insert_eq|].
    rewrite lookup_insert_ne by done. destruct (decide (pk = [])); [by eapply ci_keys|].
    apply lookup_insert_Some in H as [[_ ?]|[_ H]]; [congruence|by eapply ci_keys].
  - intros u' user [[-> <-]|[_ H]]%lookup_insert_Some; [done|by eapply ci_users].
Qed.

Section Sorting.
Context {srt : StdSort} {srt_ok : StdSortSpec}.

Lemma set_acl_inv u pfx p m : cred_inv m -> cred_inv (set_acl u pfx p m).
Proof.
  intros Hm. split; simpl; try apply Hm.
  - intros u' rs [[-> <-]|[_ H]]%lookup_insert_Some; [apply std_sort_sorted|by eapply ci_sorted].
  - intros u' rs [[-> <-]|[_ H]]%lookup_insert_Some; [|by eapply ci_unique].
    rewrite <- std_sort_perm, fmap_app. simpl.
    set (rs0 := default [] (user_acls_ m !! u')).
    assert (NoDup (prefix <$> rs0)) as Hnd.
    { unfold rs0. destruct (user_acls_ m !! u') eqn:E; [by eapply ci_unique|constructor]. }
    apply NoDup_app. split_and!.
    + clearbody rs0. induction rs0 as [|r rs0 IH]; [done|]. simpl in *.
      apply NoDup_cons in Hnd as [Hni Hnd]. case_bool_decide; simpl; [by apply IH|].
      apply NoDup_cons. split; [|by apply IH].
      intros (r' & E & Hin)%list_elem_of_fmap. apply Hni, list_elem_of_fmap.
      apply list_elem_of_In, filter_In in Hin as [Hin _]. exists r'. split; [done|by apply list_elem_of_In].
    + intros x (r' & Ex & Hin)%list_elem_of_fmap Hx%list_elem_of_singleton. subst x.
      apply list_elem_of_In, filter_In in Hin as [_ Hin].
      by rewrite bool_decide_eq_true_2 in Hin by done.
    + apply NoDup_singleton.
Qed.

(** The rule list of a user after [set_acl], as a set. *)
Lemma set_acl_rules u pfx p m r :
  r ∈ default [] (user_acls_ (set_acl u pfx p m) !! u) <->
  r = mkRule pfx p \/ (r ∈ default [] (user_acls_ m !! u) /\ prefix r <> pfx).
Proof.
  simpl. rewrite lookup_insert_eq. simpl. rewrite <- std_sort_perm.
  rewrite elem_of_app, list_elem_of_singleton, !list_elem_of_In, filter_In, negb_true_iff,
    bool_decide_eq_false. tauto.
Qed.

End Sorting.

(** The first rule of a list sorted by length that matches is a longest one. *)
Lemma first_match_longest key rs :
  StronglySorted longer rs ->
  (exists r, r ∈ rs /\ rule_matches key r = true /\ first_match key rs = perm r /\
     forall r', r' ∈ rs -> rule_matches key r' = true -> longer r r') \/
  (first_match key rs = NONE /\ forall r, r ∈ rs -> rule_matches key r = false).
Proof.
  induction 1 as [|r rs Hs IH Hall]; simpl.
  - right. split; [done|]. by intros r ?%elem_of_nil.
  - destruct (rule_matches key r) eqn:E.
    + left. exists r. split; [by left|]. do 2 (split; [done|]).
      intros r' [->|Hin]%elem_of_cons _; [unfold longer; lia|].
      rewrite Forall_forall in Hall. by apply Hall.
    + destruct IH as [(r0 & H1 & H2 & H3 & H4)|[H1 H2]].
      * left. exists r0. split; [by right|]. do 2 (split; [done|]).
        intros r' [->|Hin]%elem_of_cons Hm; [congruence|by apply H4].
      * right. split; [done|]. intros r' [->|Hin]%elem_of_cons; auto.
Qed.

(** A concrete sort: insertion sort, which keeps equivalent elements in order. *)
Fixpoint insert_rule (r : ACLRule) (l : list ACLRule) : list ACLRule :=
  match l with
  | [] => [r]
  | x :: l' => if (length (prefix r) <=? length (prefix x))%nat then x :: insert_rule r l'
               else r :: l
  end.

Definition insertion_sort (l : list ACLRule) : list ACLRule :=
  foldl (fun acc r => insert_rule r acc) [] l.

Lemma insert_rule_perm r l : Permutation (insert_rule r l) (r :: l).
Proof.
  induction l as [|x l IH]; simpl; [done|]. case_match; [|done].
  rewrite IH. apply Permutation_swap.
Qed.

Lemma insert_rule_sorted r l : StronglySorted longer l -> StronglySorted longer (insert_rule r l).
Proof.
  induction 1 as [|x l Hs IH Hall]; simpl.
  { constructor; [constructor|apply Forall_nil; exact I]. }
  destruct (Nat.leb_spec (length (prefix r)) (length (prefix x))).
  - constructor; [done|]. rewrite insert_rule_perm. by constructor.
  - constructor; [by constructor|]. constructor; [unfold longer; lia|].
    eapply Forall_impl; [exact Hall|]. unfold longer. simpl. lia.
Qed.

#[local] Instance insertion_sort_inst : StdSort := insertion_sort.

Lemma insertion_sort_spec : StdSortSpec.
Proof.
  assert (forall l acc, Permutation (acc ++ l) (foldl (fun acc r => insert_rule r acc) acc l)) as Hp.
  { induction l as [|r l IH]; intros acc; simpl; [by rewrite app_nil_r|].
    rewrite <- IH, insert_rule_perm. simpl. symmetry. apply Permutation_middle. }
  assert (forall l acc, StronglySorted longer acc ->
            StronglySorted longer (foldl (fun acc r => insert_rule r acc) acc l)) as Hs.
  { induction l as [|r l IH]; intros acc Ha; simpl; [done|]. by apply IH, insert_rule_sorted. }
  split; intros l; [apply (Hp l [])|apply Hs; constructor].
Qed.

(** ** Properties *)

(** In a state with sorted rules the first match is a longest one. *)
Lemma check_permission_first u key m :
  cred_inv m ->
  (u = INTERNAL_UID \/ u = ADMIN_UID -> check_permission u key m = ADMIN) /\
  (u <> INTERNAL_UID -> u <> ADMIN_UID ->
   let rs := default [] (user_acls_ m !! u) in
   (exists r, r ∈ rs /\ rule_matches key r = true /\ check_permission u key m = perm r /\
      forall r', r' ∈ rs -> rule_matches key r' = true ->
        (length (prefix r') <= length (prefix r))%nat) \/
   (check_permission u key m = NONE /\ forall r, r ∈ rs -> rule_matches key r = false)).
Proof.
  intros Hm. unfold check_permission. split.
  - intros [-> | ->]; done.
  - intros H1%Z.eqb_neq H2%Z.eqb_neq. rewrite H1, H2. simpl.
    destruct (user_acls_ m !! u) as [rs|] eqn:E; simpl.
    + apply first_match_longest. by eapply ci_sorted.
    + right. split; [done|]. by intros r ?%elem_of_nil.
Qed.

Definition sample_cred : CredentialManager :=
  set_acl 7 (str "doc:private:") NONE
    (set_acl 7 (str "doc:") WRITE (set_acl 7 (str "*") READ (register_user 7 (str "u") (str "k") cred_new).2)).

Lemma sample_cred_inv : cred_inv sample_cred.
Proof. repeat apply (set_acl_inv (srt_ok := insertion_sort_spec)). apply register_user_inv, cred_new_inv. Qed.

(** The operations in sequence. *)
Inductive cred_op := CRegister (u : Z) (nm pk : bytes) | CSetAcl (u : Z) (pfx : bytes) (p : Z).

Definition cred_do {srt : StdSort} (m : CredentialManager) (o : cred_op) : CredentialManager :=
  match o with
  | CRegister u nm pk => (register_user u nm pk m).2
  | CSetAcl u pfx p => set_acl u pfx p m
  end.

Definition run_creds {srt : StdSort} (os : list cred_op) : CredentialManager := foldl cred_do cred_new os.

(** The reference: what was last set for every prefix of a user. *)
Definition acl_after (u : Z) (os : list cred_op) : gmap bytes Z :=
  foldl (fun g o => match o with
                    | CSetAcl u' pfx p => if decide (u' = u) then <[pfx := p]> g else g
                    | CRegister _ _ _ => g
                    end) ∅ os.

Section Reachable.
Context {srt : StdSort} {srt_ok : StdSortSpec}.

Lemma run_creds_inv os : cred_inv (run_creds os).
Proof.
  unfold run_creds. induction os as [|o os IH] using rev_ind; [apply cred_new_inv|]. rewrite foldl_snoc.
  destruct o; [by apply register_user_inv|by apply set_acl_inv].
Qed.

Lemma run_creds_rules u os r :
  r ∈ default [] (user_acls_ (run_creds os) !! u) <-> acl_after u os !! prefix r = Some (perm r).
Proof.
  unfold run_creds, acl_after. induction os as [|o os IH] using rev_ind.
  { simpl. rewrite lookup_empty. simpl. split; [by intros ?%elem_of_nil|done]. }
  rewrite !foldl_snoc. destruct o as [u' nm pk|u' pfx p]; cbn [cred_do].
  { rewrite <- IH. unfold register_user. by destruct (users_ _ !! u'). }
  destruct (decide (u' = u)) as [->|Hne].
  - rewrite set_acl_rules, IH, lookup_insert_Some. split.
    + intros [->|[Hr Hn]]; [by left|right; by split].
    + intros [[Hp Hv]|[Hn Hr]]; [left; destruct r; by simplify_eq/=|right; by split].
  - rewrite <- IH. simpl. by rewrite lookup_insert_ne.
Qed.

(** C36: longest-prefix match.  After any sequence of [register_user] and [set_acl] calls on a
    new manager, and however [std::sort] orders ties, the permission of an ordinary user on a
    key is the one last set for a matching prefix of the user that is no shorter than any other
    matching one, or [NONE] when none matches; the two built-in users always get [ADMIN]. *)
Theorem check_permission_longest u key os :
  let m := run_creds os in
  let rules := acl_after u os in
  (u = INTERNAL_UID \/ u = ADMIN_UID -> check_permission u key m = ADMIN) /\
  (u <> INTERNAL_UID -> u <> ADMIN_UID ->
   (exists pfx p, rules !! pfx = Some p /\ rule_matches key (mkRule pfx p) = true /\
      check_permission u key m = p /\
      forall pfx' p', rules !! pfx' = Some p' -> rule_matches key (mkRule pfx' p') = true ->
        (length pfx' <= length pfx)%nat) \/
   (check_permission u key m = NONE /\
    forall pfx p, rules !! pfx = Some p -> rule_matches key (mkRule pfx p) = false)).
Proof.
  intros m rules. destruct (check_permission_first u key m (run_creds_inv os)) as [Hb Ho].
  split; [done|]. intros H1 H2. destruct (Ho H1 H2) as [([pfx p] & Hr & Hm & Hc & Hmax)|[Hc Hno]].
  - left. exists pfx, p. split; [by apply (run_creds_rules u os (mkRule pfx p))|]. do 2 (split; [done|]).
    intros pfx' p' Hr' Hm'. apply (Hmax (mkRule pfx' p')); [by apply run_creds_rules|done].
  - right. split; [done|]. intros pfx p Hr. apply Hno. by apply run_creds_rules.
Qed.

End Reachable.

Definition sample_creds : list cred_op :=
  [CRegister 7 (str "u") (str "k"); CSetAcl 7 (str "*") READ; CSetAcl 7 (str "doc:") WRITE;
   CSetAcl 7 (str "doc:private:") READ; CSetAcl 8 (str "doc:private:x") WRITE; CSetAcl 7 (str "doc:private:") NONE].

Lemma check_permission_longest_witness :
  exists pfx p, acl_after 7 sample_creds !! pfx = Some p /\
    rule_matches (str "doc:private:x") (mkRule pfx p) = true /\
    check_permission 7 (str "doc:private:x") (run_creds sample_creds) = p.
Proof.
  destruct (check_permission_longest (srt_ok := insertion_sort_spec) 7 (str "doc:private:x") sample_creds) as [_ H].
  destruct (H ltac:(done) ltac:(done)) as [(pfx & p & H1 & H2 & H3 & _)|[_ H4]].
  - exists pfx, p. auto.
  - exfalso. specialize (H4 (str "*") READ ltac:(by vm_compute)). vm_compute in H4. discriminate H4.
Defined.

(** A rule takes effect.  After [set_acl(u, pfx, p)] an ordinary user's permission on a
    key that [pfx] matches is [p], whatever was set before and however [std::sort] orders
    ties, unless a different rule at least as long matches the key too. *)
Theorem set_acl_effective {srt : StdSort} {srt_ok : StdSortSpec} u pfx p key m :
  cred_inv m -> u <> INTERNAL_UID -> u <> ADMIN_UID ->
  rule_matches key (mkRule pfx p) = true ->
  (forall r, r ∈ default [] (user_acls_ m !! u) -> prefix r <> pfx ->
     rule_matches key r = true -> (length (prefix r) < length pfx)%nat) ->
  check_permission u key (set_acl u pfx p m) = p.
Proof.
  intros Hm H1 H2 Hmatch Hlong.
  destruct (check_permission_first u key (set_acl u pfx p m) (set_acl_inv u pfx p m Hm)) as [_ H].
  destruct (H H1 H2) as [(r & Hr & Hrm & -> & Hmax)|[_ Hno]].
  - apply set_acl_rules in Hr as [->|[Hr Hne]]; [done|].
    specialize (Hmax (mkRule pfx p)). rewrite set_acl_rules in Hmax.
    specialize (Hmax (or_introl eq_refl) Hmatch). simpl in Hmax.
    specialize (Hlong r Hr Hne Hrm). lia.
  - specialize (Hno (mkRule pfx p)). rewrite set_acl_rules in Hno.
    rewrite Hno in Hmatch by auto. done.
Qed.

Lemma set_acl_effective_witness :
  check_permission 7 (str "doc:1") (set_acl 7 (str "doc:") (perm_or READ WRITE) sample_cred) = 3.
Proof.
  apply (@set_acl_effective insertion_sort insertion_sort_spec 7 (str "doc:") 3 (str "doc:1")
           sample_cred sample_cred_inv); [done..|].
  assert (default [] (user_acls_ sample_cred !! 7) =
    [mkRule (str "doc:private:") NONE; mkRule (str "doc:") WRITE; mkRule (str "*") READ]) as ->
    by reflexivity.
  intros r Hr Hne Hm.
  repeat (apply elem_of_cons in Hr as [->|Hr]; [first [done | simpl; lia]|]).
  by apply elem_of_nil in Hr.
Defined.

(** Looking up a user by key never throws: every registered public key names a
    registered user, in every state reachable by registrations and rule changes. *)
Theorem get_user_by_key_total pk m :
  cred_inv m -> exists o, get_user_by_key pk m = Ok o /\
    (forall user, o = Some user -> key_to_uid_ m !! pk = Some (uid user) /\
       users_ m !! uid user = Some user).
Proof.
  intros Hm. unfold get_user_by_key. destruct (decide (pk = [])); [by eexists|].
  destruct (key_to_uid_ m !! pk) as [u|] eqn:Ek; [|by eexists].
  destruct (ci_keys _ Hm _ _ Ek) as [user Hu]. rewrite Hu. eexists. split; [done|].
  intros ? [= <-]. by rewrite (ci_users _ Hm _ _ Hu).
Qed.

Lemma get_user_by_key_total_witness :
  exists o, get_user_by_key (str "k") sample_cred = Ok o /\
    (forall user, o = Some user -> key_to_uid_ sample_cred !! str "k" = Some (uid user) /\
       users_ sample_cred !! uid user = Some user).
Proof. apply (get_user_by_key_total (str "k") sample_cred), sample_cred_inv. Defined.
