(* ===== verification/KeyBuilder.v ===== *)
(** * Meta keys (src/engine/KeyBuilder.hpp)

    [meta_key] formats into one of two thread-local buffers and returns a view into it.
    The buffers are modelled as a store with views that alias it; [meta_key] below is
    the text a fresh view reads, which is what every caller copies at once.  Keys of
    2 GiB and more (a negative printf precision) are outside the model. *)
From S2P Require Import Prelude.

Definition MAX_KEY_SIZE : nat := 1024.

(** What [%.*s] prints: at most the given bytes, and none from a NUL on. *)
Fixpoint until_nul (s : bytes) : bytes :=
  match s with
  | [] => []
  | b :: s' => if decide (b = Byte.x00) then [] else b :: until_nul s'
  end.

Definition meta_text (key : bytes) : bytes := until_nul key ++ str ":meta".

Definition meta_key (key : bytes) : bytes :=
  if (MAX_KEY_SIZE <=? length (meta_text key))%nat then [] else meta_text key.

(** ** The recycled buffers *)

Record KeyBuffers := mkBuffers { buf0 : bytes; buf1 : bytes; index : bool }.

(** A [std::string_view] into one of the buffers. *)
Record view := mkView { v_buf : bool; v_len : nat }.

Definition buffer (bs : KeyBuffers) (i : bool) : bytes := if i then buf1 bs else buf0 bs.

Definition read_view (bs : KeyBuffers) (v : view) : bytes := take (v_len v) (buffer bs (v_buf v)).

(** [snprintf(buf, MAX_KEY_SIZE, ...)]: the text cut to fit, a NUL, and what was there. *)
Definition snprintf_into (old text : bytes) : bytes :=
  let out := take (MAX_KEY_SIZE - 1) text ++ [Byte.x00] in
  out ++ drop (length out) old.

Definition meta_key_view (key : bytes) (bs : KeyBuffers) : view * KeyBuffers :=
  let i := index bs in
  let text := meta_text key in
  let b := snprintf_into (buffer bs i) text in
  let bs' := if i then mkBuffers (buf0 bs) b (negb i) else mkBuffers b (buf1 bs) (negb i) in
  (mkView i (if (MAX_KEY_SIZE <=? length text)%nat then 0 else length text), bs').

Lemma snprintf_read old text :
  (length text < MAX_KEY_SIZE)%nat -> take (length text) (snprintf_into old text) = text.
Proof.
  intros H. unfold snprintf_into. rewrite (take_ge text) by (unfold MAX_KEY_SIZE in *; lia).
  rewrite <- app_assoc. apply take_app_length.
Qed.

Lemma read_view_fresh key bs :
  let '(v, bs') := meta_key_view key bs in read_view bs' v = meta_key key.
Proof.
  unfold meta_key_view, meta_key, read_view. cbn [v_len v_buf].
  destruct (Nat.leb_spec MAX_KEY_SIZE (length (meta_text key))); [apply take_0|].
  destruct (index bs); by apply snprintf_read.
Qed.

(** ** Properties *)

(** Two meta keys may be alive at once.  After building the meta key of [k1] and then
    of [k2], both views still read their own text: the second call writes the other
    buffer. *)
Theorem two_views_alive k1 k2 bs :
  let '(v1, bs1) := meta_key_view k1 bs in
  let '(v2, bs2) := meta_key_view k2 bs1 in
  read_view bs2 v1 = meta_key k1 /\ read_view bs2 v2 = meta_key k2.
Proof.
  pose proof (read_view_fresh k1 bs) as H1.
  destruct (meta_key_view k1 bs) as [v1 bs1] eqn:E1.
  pose proof (read_view_fresh k2 bs1) as H2.
  destruct (meta_key_view k2 bs1) as [v2 bs2] eqn:E2. split; [|done].
  rewrite <- H1. unfold meta_key_view in E1, E2.
  destruct (index bs); simplify_eq/=; done.
Qed.

Lemma until_nul_id key : Byte.x00 ∉ key -> until_nul key = key.
Proof.
  induction key as [|b key IH]; intros H; [done|]. apply not_elem_of_cons in H as [Hne H].
  simpl. rewrite decide_False by congruence. by rewrite IH.
Qed.

(** The meta key of a key shorter than 1019 bytes without NUL bytes is the key
    followed by [:meta], so different such keys have different meta keys. *)
Theorem meta_key_injective k1 k2 :
  Byte.x00 ∉ k1 -> Byte.x00 ∉ k2 -> (length k1 < 1019)%nat -> (length k2 < 1019)%nat ->
  meta_key k1 = k1 ++ str ":meta" /\ (meta_key k1 = meta_key k2 -> k1 = k2).
Proof.
  assert (forall k, Byte.x00 ∉ k -> (length k < 1019)%nat -> meta_key k = k ++ str ":meta") as H.
  { intros k Hk Hl. unfold meta_key, meta_text. rewrite until_nul_id by done.
    rewrite length_app. change (length (str ":meta")) with 5%nat. unfold MAX_KEY_SIZE.
    destruct (Nat.leb_spec 1024 (length k + 5)); [lia|done]. }
  intros. rewrite !H by done. split; [done|]. apply app_inv_tail.
Qed.

Lemma meta_key_injective_witness :
  meta_key (str "a") = str "a" ++ str ":meta" /\
  (meta_key (str "a") = meta_key (str "b") -> str "a" = str "b").
Proof.
  apply (meta_key_injective (str "a") (str "b")); try (simpl; lia).
  - intros [=]%list_elem_of_singleton.
  - intros [=]%list_elem_of_singleton.
Defined.

(** All longer keys share the empty meta key: their timestamps overwrite each other. *)
Theorem long_keys_share_meta k1 k2 :
  Byte.x00 ∉ k1 -> Byte.x00 ∉ k2 -> (1019 <= length k1)%nat -> (1019 <= length k2)%nat ->
  meta_key k1 = [] /\ meta_key k2 = [].
Proof.
  assert (forall k, Byte.x00 ∉ k -> (1019 <= length k)%nat -> meta_key k = []) as H; [|auto].
  intros k Hk Hl. unfold meta_key, meta_text. rewrite until_nul_id by done.
  rewrite length_app. change (length (str ":meta")) with 5%nat. unfold MAX_KEY_SIZE.
  destruct (Nat.leb_spec 1024 (length k + 5)); [done|lia].
Qed.

Lemma long_keys_share_meta_witness :
  meta_key (replicate 1019 Byte.x61) = [] /\ meta_key (replicate 1020 Byte.x62) = [].
Proof.
  apply (long_keys_share_meta (replicate 1019 Byte.x61) (replicate 1020 Byte.x62)).
  - by intros [? _]%elem_of_replicate.
  - by intros [? _]%elem_of_replicate.
  - rewrite length_replicate. lia.
  - rewrite length_replicate. lia.
Defined.
