(* ===== verification/ReplicationLog.v ===== *)
(** * The outgoing replication queue (src/engine/replication_log.hpp)

    [Mutation] and the bounded queue [ReplicationLog].  Its mutex makes each method
    atomic. *)
From S2P Require Import Prelude Clock.

Record Mutation := mkMutation {
  m_timestamp : Timestamp;
  m_key : bytes;
  m_value : bytes;
  m_is_delete : bool
}.

Record ReplicationLog := mkRepl { queue_ : list Mutation; max_size_ : nat }.

Definition repl_new (max_size : nat) : ReplicationLog := mkRepl [] max_size.

(** [append]; [None] is [pop_front] on an empty deque, which is undefined. *)
Definition repl_append (m : Mutation) (l : ReplicationLog) : option ReplicationLog :=
  if (max_size_ l <=? length (queue_ l))%nat then
    match queue_ l with
    | [] => None
    | _ :: q => Some (mkRepl (q ++ [m]) (max_size_ l))
    end
  else Some (mkRepl (queue_ l ++ [m]) (max_size_ l)).

(** The loop of [pop_batch]: while the queue is not empty and the batch is short. *)
Fixpoint pop_loop (queue batch : list Mutation) (limit : nat) : list Mutation * list Mutation :=
  match queue with
  | [] => (batch, [])
  | m :: queue' =>
      if (length batch <? limit)%nat then pop_loop queue' (batch ++ [m]) limit
      else (batch, queue)
  end.

Definition pop_batch (limit : nat) (l : ReplicationLog) : list Mutation * ReplicationLog :=
  let '(batch, rest) := pop_loop (queue_ l) [] limit in (batch, mkRepl rest (max_size_ l)).

Definition repl_size (l : ReplicationLog) : nat := length (queue_ l).
Definition repl_empty (l : ReplicationLog) : bool := bool_decide (queue_ l = []).

(** Appending a sequence. *)
Fixpoint repl_appends (ms : list Mutation) (l : ReplicationLog) : option ReplicationLog :=
  match ms with
  | [] => Some l
  | m :: ms' => repl_append m l ≫= repl_appends ms'
  end.

(** The last [n] elements. *)
Definition lastn {A} (n : nat) (l : list A) : list A := drop (length l - n) l.

Lemma pop_loop_spec q : forall batch limit,
  (length batch <= limit)%nat ->
  pop_loop q batch limit =
    (batch ++ take (limit - length batch) q, drop (limit - length batch) q).
Proof.
  induction q as [|m q IH]; intros batch limit H; simpl.
  - by rewrite take_nil, drop_nil, app_nil_r.
  - destruct (Nat.ltb_spec (length batch) limit).
    + rewrite IH by (rewrite length_app; simpl; lia). rewrite length_app. simpl.
      replace (limit - length batch)%nat with (S (limit - (length batch + 1))) by lia.
      simpl. by rewrite <- app_assoc.
    + replace (limit - length batch)%nat with 0%nat by lia. by rewrite app_nil_r.
Qed.

Lemma repl_append_window m l :
  (0 < max_size_ l)%nat -> (length (queue_ l) <= max_size_ l)%nat ->
  repl_append m l = Some (mkRepl (lastn (max_size_ l) (queue_ l ++ [m])) (max_size_ l)).
Proof.
  intros Hpos Hle. unfold repl_append, lastn. rewrite length_app. simpl.
  destruct (Nat.leb_spec (max_size_ l) (length (queue_ l))).
  - replace (length (queue_ l) + 1 - max_size_ l)%nat with 1%nat by lia.
    destruct (queue_ l); [simpl in *; lia|done].
  - by replace (length (queue_ l) + 1 - max_size_ l)%nat with 0%nat by lia.
Qed.

Lemma lastn_length {A} n (l : list A) : (length (lastn n l) <= n)%nat.
Proof. unfold lastn. rewrite length_drop. lia. Qed.

Lemma lastn_app {A} n (l k : list A) : lastn n (lastn n l ++ k) = lastn n (l ++ k).
Proof.
  unfold lastn. rewrite !length_app, length_drop.
  destruct (decide (length l <= n)%nat).
  { replace (length l - n)%nat with 0%nat by lia. by rewrite Nat.sub_0_r. }
  rewrite <- (drop_app_le l k) by lia. rewrite drop_drop. f_equal. lia.
Qed.

(** ** Properties *)

(** The queue is a bounded FIFO.  Appending any sequence to a log with a positive cap
    never fails and keeps exactly the newest [max_size] mutations in order; [pop_batch]
    then hands out the oldest of those, up to its limit, and leaves the rest. *)
Theorem replication_window ms n limit :
  (0 < n)%nat ->
  exists l, repl_appends ms (repl_new n) = Some l /\
    queue_ l = lastn n ms /\ (repl_size l <= n)%nat /\
    pop_batch limit l = (take limit (lastn n ms), mkRepl (drop limit (lastn n ms)) n).
Proof.
  intros Hn.
  assert (forall ms l, max_size_ l = n -> (length (queue_ l) <= n)%nat ->
    repl_appends ms l = Some (mkRepl (lastn n (queue_ l ++ ms)) n)) as H.
  { clear ms. induction ms as [|m ms IH]; intros l Hm Hl; simpl.
    - rewrite app_nil_r. unfold lastn. replace (length (queue_ l) - n)%nat with 0%nat by lia.
      destruct l; simpl in *; by subst.
    - rewrite repl_append_window by lia. simpl. rewrite Hm.
      rewrite IH by first [done | apply lastn_length]. simpl.
      by rewrite lastn_app, <- app_assoc. }
  exists (mkRepl (lastn n ms) n). split; [rewrite H by (simpl; lia || done); done|].
  split; [done|].
  split; [apply lastn_length|].
  unfold pop_batch. rewrite pop_loop_spec by (simpl; lia). simpl. by rewrite Nat.sub_0_r.
Qed.

Lemma replication_window_witness :
  let m k := mkMutation (mkTimestamp k 0 1) (str "k") [] true in
  exists l, repl_appends [m 1; m 2; m 3] (repl_new 2) = Some l /\
    queue_ l = lastn 2 [m 1; m 2; m 3] /\ (repl_size l <= 2)%nat /\
    pop_batch 1 l = (take 1 (lastn 2 [m 1; m 2; m 3]), mkRepl (drop 1 (lastn 2 [m 1; m 2; m 3])) 2).
Proof. apply replication_window. lia. Defined.
