(* ===== verification/OrdMap.v ===== *)
(** * [std::map<std::string, V>]

    The ordered map of the shards: the entries in key order.  [m_find], [m_assign]
    ([m[k] = v]) and [m_lower_bound] are the operations the store uses; iteration is
    the list itself. *)
From S2P Require Import Prelude CxxString.

Abbreviation omap V := (list (bytes * V)).

Section OrdMap.
Context {V : Type}.

Fixpoint m_find (k : bytes) (m : omap V) : option V :=
  match m with
  | [] => None
  | (k', v) :: m' => if decide (k = k') then Some v else m_find k m'
  end.

Fixpoint m_assign (k : bytes) (v : V) (m : omap V) : omap V :=
  match m with
  | [] => [(k, v)]
  | (k', v') :: m' =>
      if bytes_ltb k k' then (k, v) :: m
      else if decide (k = k') then (k, v) :: m'
      else (k', v') :: m_assign k v m'
  end.

(** The entries from the first key not less than [k] on. *)
Fixpoint m_lower_bound (k : bytes) (m : omap V) : omap V :=
  match m with
  | [] => []
  | (k', v) :: m' => if bytes_ltb k' k then m_lower_bound k m' else m
  end.

Definition key_lt (a b : bytes * V) : Prop := bytes_ltb a.1 b.1 = true.

Definition m_sorted (m : omap V) : Prop := StronglySorted key_lt m.

(** ** Lemmas *)

Lemma m_find_elem k v m : m_find k m = Some v -> (k, v) ∈ m.
Proof.
  induction m as [|[k' v'] m IH]; simpl; [done|].
  destruct (decide (k = k')) as [->|]; [intros [= ->]; left|intros H; right; auto].
Qed.

Lemma m_find_None k m : m_find k m = None <-> k ∉ m.*1.
Proof.
  induction m as [|[k' v'] m IH]; simpl.
  - split; [intros _; apply not_elem_of_nil|done].
  - rewrite not_elem_of_cons, <- IH. destruct (decide (k = k')) as [->|Hne].
    + split; [done|]. by intros [? _].
    + split; [done|]. by intros [_ ?].
Qed.

Lemma m_sorted_cons_lt k v m k' v' :
  m_sorted ((k, v) :: m) -> (k', v') ∈ m -> bytes_ltb k k' = true.
Proof.
  intros [_ Hall]%StronglySorted_inv Hin. rewrite Forall_forall in Hall.
  by apply (Hall (k', v')).
Qed.

Lemma m_sorted_NoDup m : m_sorted m -> NoDup m.*1.
Proof.
  induction m as [|[k v] m IH]; intros Hs; simpl; [constructor|].
  apply NoDup_cons. split.
  - intros ([k' v'] & E & Hin)%list_elem_of_fmap. simpl in E. subst k'.
    pose proof (m_sorted_cons_lt _ _ _ _ _ Hs Hin) as H. by rewrite bytes_ltb_irrefl in H.
  - apply IH. by apply StronglySorted_inv in Hs as [? _].
Qed.

Lemma m_find_sorted k v m : m_sorted m -> (k, v) ∈ m -> m_find k m = Some v.
Proof.
  induction m as [|[k' v'] m IH]; intros Hs Hin; [by apply elem_of_nil in Hin|]. simpl.
  apply elem_of_cons in Hin as [[= -> ->]|Hin]; [by rewrite decide_True|].
  rewrite decide_False.
  - apply IH; [by apply StronglySorted_inv in Hs as [? _]|done].
  - intros ->. pose proof (m_sorted_cons_lt _ _ _ _ _ Hs Hin) as H.
    by rewrite bytes_ltb_irrefl in H.
Qed.

Lemma m_find_assign_eq k v m : m_find k (m_assign k v m) = Some v.
Proof.
  induction m as [|[k' v'] m IH]; simpl.
  - by rewrite decide_True.
  - destruct (bytes_ltb k k'); simpl; [by rewrite decide_True|].
    destruct (decide (k = k')) as [->|Hne]; simpl; [by rewrite decide_True|].
    by rewrite decide_False.
Qed.

Lemma m_find_assign_ne k k' v m : k <> k' -> m_find k' (m_assign k v m) = m_find k' m.
Proof.
  intros Hne. induction m as [|[k0 v0] m IH]; simpl.
  - by rewrite decide_False.
  - destruct (bytes_ltb k k0); simpl; [by rewrite decide_False|].
    destruct (decide (k = k0)) as [->|]; simpl; [by rewrite !decide_False|].
    by rewrite IH.
Qed.

Lemma m_assign_elem k v m k' v' :
  (k', v') ∈ m_assign k v m -> (k' = k /\ v' = v) \/ (k', v') ∈ m.
Proof.
  induction m as [|[k0 v0] m IH]; simpl.
  - intros ?%list_elem_of_singleton. simplify_eq. auto.
  - rewrite elem_of_cons.
    destruct (bytes_ltb k k0); [|destruct (decide (k = k0))]; rewrite ?elem_of_cons.
    + intros [[= -> ->]|[[= -> ->]|?]]; auto.
    + intros [[= -> ->]|?]; auto.
    + intros [[= -> ->]|[[-> ->]|?]%IH]; auto.
Qed.

Lemma m_assign_sorted k v m : m_sorted m -> m_sorted (m_assign k v m).
Proof.
  unfold m_sorted. induction 1 as [|[k0 v0] m Hs IH Hall]; simpl.
  { constructor; [constructor|apply Forall_nil; exact I]. }
  destruct (bytes_ltb k k0) eqn:E.
  - constructor; [by constructor|]. constructor; [done|].
    eapply Forall_impl; [exact Hall|]. intros [k' v'] H. by eapply bytes_ltb_trans.
  - destruct (decide (k = k0)) as [->|Hne]; [by constructor|].
    constructor; [done|]. apply Forall_forall. intros [k' v'] [[-> ->]|Hin]%m_assign_elem.
    + unfold key_lt. simpl. apply not_false_is_true. intros H. by apply Hne, bytes_ltb_total.
    + rewrite Forall_forall in Hall. by apply Hall.
Qed.

(** Assigning to a fresh or an existing key, as a change of the entry list. *)
Lemma m_assign_split k v m :
  exists m1 m2, m_assign k v m = m1 ++ (k, v) :: m2 /\
    ((m = m1 ++ m2) \/ exists v0, m = m1 ++ (k, v0) :: m2).
Proof.
  induction m as [|[k0 v0] m IH]; simpl; [exists [], []; auto|].
  destruct (bytes_ltb k k0); [exists [], ((k0, v0) :: m); auto|].
  destruct (decide (k = k0)) as [->|Hne]; [exists [], m; eauto|].
  destruct IH as (m1 & m2 & -> & [-> | (v1 & ->)]).
  - exists ((k0, v0) :: m1), m2. auto.
  - exists ((k0, v0) :: m1), m2. split; [done|]. right. eauto.
Qed.

Lemma m_lower_bound_filter k m :
  m_sorted m -> m_lower_bound k m = List.filter (fun e => negb (bytes_ltb e.1 k)) m.
Proof.
  induction 1 as [|[k0 v0] m Hs IH Hall]; simpl; [done|].
  destruct (bytes_ltb k0 k) eqn:E; simpl; [done|]. f_equal. symmetry.
  rewrite Forall_forall in Hall. clear -Hall E.
  induction m as [|[k1 v1] m IH]; simpl; [done|].
  assert (bytes_ltb k0 k1 = true) as H1 by (apply (Hall (k1, v1)); left).
  destruct (bytes_ltb k1 k) eqn:E1; simpl.
  - by rewrite (bytes_ltb_trans _ _ _ H1 E1) in E.
  - f_equal. apply IH. intros x Hx. apply Hall. by right.
Qed.

(** Two maps with the same lookups are the same list of entries. *)
Lemma m_ext m1 : forall m2,
  m_sorted m1 -> m_sorted m2 -> (forall k, m_find k m1 = m_find k m2) -> m1 = m2.
Proof.
  induction m1 as [|[k1 v1] m1 IH]; intros [|[k2 v2] m2] H1 H2 Hf; [done|..].
  - specialize (Hf k2). simpl in Hf. by rewrite decide_True in Hf.
  - specialize (Hf k1). simpl in Hf. by rewrite decide_True in Hf.
  - assert (k1 = k2) as <-.
    { apply bytes_ltb_total; apply not_true_is_false; intros Hlt.
      - pose proof (Hf k1) as Hk. simpl in Hk. rewrite decide_True in Hk by done.
        destruct (decide (k1 = k2)) as [->|]; [by rewrite bytes_ltb_irrefl in Hlt|].
        symmetry in Hk. apply m_find_elem in Hk. pose proof (m_sorted_cons_lt _ _ _ _ _ H2 Hk).
        by rewrite (bytes_ltb_asym k1 k2) in H.
      - pose proof (Hf k2) as Hk. simpl in Hk. rewrite (decide_True (P := k2 = k2)) in Hk by done.
        destruct (decide (k2 = k1)) as [->|]; [by rewrite bytes_ltb_irrefl in Hlt|].
        apply m_find_elem in Hk. pose proof (m_sorted_cons_lt _ _ _ _ _ H1 Hk).
        by rewrite (bytes_ltb_asym k2 k1) in H. }
    pose proof (Hf k1) as Hk. simpl in Hk. rewrite !decide_True in Hk by done. simplify_eq.
    f_equal. pose proof (m_sorted_NoDup _ H1) as N1. pose proof (m_sorted_NoDup _ H2) as N2.
    simpl in N1, N2. apply NoDup_cons in N1 as [N1 _]. apply NoDup_cons in N2 as [N2 _].
    apply StronglySorted_inv in H1 as [H1 _]. apply StronglySorted_inv in H2 as [H2 _].
    apply IH; [done..|]. intros k. specialize (Hf k). simpl in Hf.
    destruct (decide (k = k1)) as [->|]; [|done].
    by rewrite (proj2 (m_find_None _ _) N1), (proj2 (m_find_None _ _) N2).
Qed.

End OrdMap.

(** ** Restricting a map to some keys and applying a function to its values *)

Definition m_select {V W} (P : bytes -> bool) (f : V -> W) (m : omap V) : omap W :=
  map (fun e => (e.1, f e.2)) (List.filter (fun e => P e.1) m).

Lemma m_find_select {V W} P (f : V -> W) m k :
  m_find k (m_select P f m) = if P k then f <$> m_find k m else None.
Proof.
  unfold m_select. induction m as [|[k0 v0] m IH]; simpl; [by destruct (P k)|].
  destruct (P k0) eqn:E0; simpl.
  - destruct (decide (k = k0)) as [->|]; [by rewrite E0|done].
  - destruct (decide (k = k0)) as [->|]; [by rewrite IH, E0|done].
Qed.

Lemma m_sorted_select {V W} P (f : V -> W) m : m_sorted m -> m_sorted (m_select P f m).
Proof.
  unfold m_sorted, m_select. induction 1 as [|[k0 v0] m Hs IH Hall]; simpl; [constructor|].
  destruct (P k0); simpl; [|done]. constructor; [done|].
  rewrite Forall_forall in Hall. apply Forall_forall. intros [k w] Hin. apply list_elem_of_fmap in Hin as ([k' v'] & [= -> ->] & Hin).
  apply list_elem_of_In, filter_In in Hin as [Hin _]. apply list_elem_of_In in Hin.
  by apply (Hall (k', v')).
Qed.
