(* ===== verification/Blob.v ===== *)
(** * Stored values (src/engine/store.hpp, ZstdManager and Blob)

    [ZstdManager] collects samples until it trains one dictionary, then never changes
    again; a [Blob] is a buffer, possibly compressed with that dictionary.  The engine
    always passes a manager, so the pointer tests on it are true.  The messages written
    to [std::cerr] are not modelled. *)
From S2P Require Import Prelude CxxString Extern.

Section Blob.
Context {zs : Zstd} {l3 : Lite3}.

Record ZstdManager := mkZstd {
  samples_ : list bytes;
  samples_bytes_ : Z;
  cdict_ : option CDict;
  ddict_ : option DDict;
  active_ : bool
}.

Definition zstd_new : ZstdManager := mkZstd [] 0 None None false.

(** [std::min(100 * 1024, std::max(256, size / 10))] *)
Definition dict_capacity (size : Z) : Z := Z.min (100 * 1024) (Z.max 256 (size / 10)).

Definition train_dictionary (z : ZstdManager) : ZstdManager :=
  match samples_ z with
  | [] => z
  | _ :: _ =>
      let buffer := concat (samples_ z) in
      match train_from_samples (Z.to_nat (dict_capacity (zlen buffer))) (samples_ z) with
      | None => z
      | Some dict =>
          mkZstd (samples_ z) (samples_bytes_ z) (create_cdict dict) (create_ddict dict) (active_ z)
      end
  end.

Definition add_sample (data : bytes) (z : ZstdManager) : ZstdManager :=
  if active_ z then z
  else
    let z1 := mkZstd (samples_ z ++ [data]) (samples_bytes_ z + zlen data) (cdict_ z) (ddict_ z)
                (active_ z) in
    if (1000 <=? zlen (samples_ z1)) || (100 * 1024 <=? samples_bytes_ z1) then
      let z2 := train_dictionary z1 in
      mkZstd [] (samples_bytes_ z2) (cdict_ z2) (ddict_ z2) true
    else z1.

Definition is_active (z : ZstdManager) : bool := active_ z.

Definition zstd_compress (src : bytes) (z : ZstdManager) : bytes :=
  match is_active z, cdict_ z with
  | true, Some c => match compress_using c src with Some dst => dst | None => src end
  | _, _ => src
  end.

Definition zstd_decompress (src : bytes) (original_size : Z) (z : ZstdManager) : bytes :=
  match is_active z, ddict_ z with
  | true, Some d =>
      match decompress_using d src (Z.to_nat original_size) with Some dst => dst | None => src end
  | _, _ => src
  end.

Definition is_json_payload (data : bytes) : bool :=
  match first_not_of [Byte.x20; Byte.x09; Byte.x0d; Byte.x0a] data with
  | Some b => bool_decide (b = Byte.x7b) || bool_decide (b = Byte.x5b)
  | None => false
  end.

(** ** Blob *)

Record Blob := mkBlob { buf_ : bytes; compressed_ : bool; original_size_ : Z }.

(** [Blob()] *)
Definition blob_default : Blob := mkBlob buffer_default false 0.

(** [Blob(mr, cap)] *)
Definition blob_capacity (cap : nat) : Blob :=
  mkBlob (if (0 <? cap)%nat then init_object (buffer_capacity cap) else buffer_capacity cap) false 0.

Definition blob_compress (b : Blob) (z : ZstdManager) : Blob :=
  if compressed_ b || negb (is_active z) then b
  else
    let dst := zstd_compress (buf_ b) z in
    if zlen dst <? zlen (buf_ b) then mkBlob dst true (u32 (zlen (buf_ b))) else b.

Definition blob_decompress (b : Blob) (z : ZstdManager) : Blob :=
  if negb (compressed_ b) then b
  else mkBlob (zstd_decompress (buf_ b) (original_size_ b) z) false (original_size_ b).

(** [overwrite]; a JSON text that does not parse is stored as it is. *)
Definition blob_overwrite (data : bytes) (b : Blob) (z : ZstdManager) : Blob * ZstdManager :=
  let z := if is_active z then z else add_sample data z in
  match data with
  | [] => (mkBlob buffer_default false 0, z)
  | _ :: _ =>
      match (if is_json_payload data then from_json_string data else None) with
      | Some new_buf => (blob_compress (mkBlob new_buf false (original_size_ b)) z, z)
      | None => (blob_compress (mkBlob data false (original_size_ b)) z, z)
      end
  end.

(** [Blob(data, zstd, mr)] *)
Definition blob_of (data : bytes) (z : ZstdManager) : Blob * ZstdManager :=
  blob_overwrite data blob_default z.

(** The object a field is set in: decompressed, and initialised when empty. *)
Definition blob_open (b : Blob) (z : ZstdManager) : Blob :=
  let b := if compressed_ b then blob_decompress b z else b in
  match buf_ b with
  | [] => mkBlob (init_object (buf_ b)) (compressed_ b) (original_size_ b)
  | _ :: _ => b
  end.

Definition blob_set_int (key : bytes) (val : Z) (b : Blob) (z : ZstdManager) : result Blob :=
  let b := blob_open b z in
  match set_i64 (buf_ b) key val with
  | None => Throw library_exn
  | Some buf => Ok (blob_compress (mkBlob buf (compressed_ b) (original_size_ b)) z)
  end.

Definition blob_set_str (key val : bytes) (b : Blob) (z : ZstdManager) : result Blob :=
  let b := blob_open b z in
  match set_str (buf_ b) key val with
  | None => Throw library_exn
  | Some buf => Ok (blob_compress (mkBlob buf (compressed_ b) (original_size_ b)) z)
  end.

Definition blob_view (b : Blob) : bytes := buf_ b.

(** What a reader gets: [Engine::get], [batch_get] and the scans decompress on the fly. *)
Definition blob_plain (b : Blob) (z : ZstdManager) : bytes :=
  if compressed_ b then zstd_decompress (buf_ b) (original_size_ b) z else buf_ b.

(** ** Invariants *)

(** Before training there is no dictionary; afterwards the two dictionaries are the same
    one. *)
Definition zstd_inv (z : ZstdManager) : Prop :=
  (active_ z = false -> cdict_ z = None) /\
  (forall c, cdict_ z = Some c -> exists d, create_cdict d = Some c /\ ddict_ z = create_ddict d).

(** A manager only ever gains a dictionary. *)
Definition zstd_le (z z' : ZstdManager) : Prop := active_ z = true -> z' = z.

(** A compressed blob can be read back with the current dictionary. *)
Definition blob_ok (b : Blob) (z : ZstdManager) : Prop :=
  compressed_ b = true ->
  active_ z = true /\ exists c x, cdict_ z = Some c /\ compress_using c x = Some (buf_ b) /\
    original_size_ b = zlen x /\ blob_plain b z = x.

Lemma zstd_new_inv : zstd_inv zstd_new.
Proof. split; done. Qed.

Lemma zstd_le_refl z : zstd_le z z.
Proof. done. Qed.
Lemma zstd_le_trans z1 z2 z3 : zstd_le z1 z2 -> zstd_le z2 z3 -> zstd_le z1 z3.
Proof. unfold zstd_le. intros H1 H2 Ha. rewrite H2, H1; auto. by rewrite H1. Qed.

Lemma add_sample_inv data z : zstd_inv z -> zstd_inv (add_sample data z).
Proof.
  intros [H1 H2]. unfold add_sample. destruct (active_ z) eqn:Ha; [split; [congruence|exact H2]|].
  destruct (_ || _); [|split; [intros _; by apply H1|exact H2]].
  unfold train_dictionary. cbn [samples_ samples_bytes_ cdict_ ddict_ active_].
  destruct (samples_ z ++ [data]) as [|s ss]; [split; [done|exact H2]|].
  destruct (train_from_samples _ _) as [d|]; [|split; [done|exact H2]].
  split; [done|]. cbn [cdict_ ddict_]. intros c Hc. eauto.
Qed.

Lemma add_sample_le data z : zstd_le z (add_sample data z).
Proof. unfold zstd_le, add_sample. by intros ->. Qed.

Lemma blob_ok_le b z z' : zstd_le z z' -> blob_ok b z -> blob_ok b z'.
Proof. intros Hle Hb Hc. destruct (Hb Hc) as [Ha H]. by rewrite (Hle Ha). Qed.

Lemma blob_plain_le b z z' : zstd_le z z' -> blob_ok b z -> blob_plain b z' = blob_plain b z.
Proof.
  intros Hle Hb. unfold blob_plain. destruct (compressed_ b) eqn:Hc; [|done].
  destruct (Hb Hc) as [Ha _]. by rewrite (Hle Ha).
Qed.

Context {zs_ok : ZstdSpec}.

Lemma blob_compress_ok b z :
  zstd_inv z -> compressed_ b = false -> zlen (buf_ b) < 2 ^ 32 ->
  blob_ok (blob_compress b z) z /\ blob_plain (blob_compress b z) z = buf_ b.
Proof.
  intros [_ Hz] Hb Hl. unfold blob_compress. rewrite Hb. simpl.
  assert (blob_ok b z /\ blob_plain b z = buf_ b) as Hid.
  { unfold blob_ok, blob_plain. rewrite Hb. done. }
  unfold zstd_compress. destruct (is_active z) eqn:Ha; simpl; [|done].
  destruct (cdict_ z) as [c|] eqn:Ec; [|by rewrite Z.ltb_irrefl].
  destruct (compress_using c (buf_ b)) as [y|] eqn:Ey; [|by rewrite Z.ltb_irrefl].
  destruct (zlen y <? zlen (buf_ b)); [|done].
  destruct (Hz c eq_refl) as (d & Hc & Hd). destruct (ddict_exists _ _ Hc) as [dd Hdd].
  assert (blob_plain (mkBlob y true (u32 (zlen (buf_ b)))) z = buf_ b) as Hp.
  { unfold blob_plain, zstd_decompress. simpl. rewrite Ha, Hd, Hdd.
    rewrite u32_small by (pose proof (zlen_nonneg (buf_ b)); lia).
    unfold zlen. rewrite Nat2Z.id. by rewrite (zstd_roundtrip d c dd (buf_ b) y). }
  split; [|done]. intros _. split; [done|]. exists c, (buf_ b). split; [done|]. split; [done|].
  split; [|done]. simpl. pose proof (zlen_nonneg (buf_ b)). apply u32_small. lia.
Qed.

(** The bytes a payload is stored as. *)
Definition stored_form (data : bytes) : bytes :=
  match data with
  | [] => buffer_default
  | _ :: _ => default data (if is_json_payload data then from_json_string data else None)
  end.

Lemma blob_of_ok data z :
  zstd_inv z -> zlen (stored_form data) < 2 ^ 32 ->
  let '(b, z') := blob_of data z in
  zstd_inv z' /\ zstd_le z z' /\ blob_ok b z' /\ blob_plain b z' = stored_form data.
Proof.
  intros Hz Hl. unfold blob_of, blob_overwrite.
  set (z' := if is_active z then z else add_sample data z).
  assert (zstd_inv z') as Hz' by (unfold z'; destruct (is_active z); auto using add_sample_inv).
  assert (zstd_le z z') as Hle
    by (unfold z'; destruct (is_active z); [apply zstd_le_refl|apply add_sample_le]).
  destruct data as [|x data]; [done|]. unfold stored_form in *.
  destruct (if is_json_payload (x :: data) then from_json_string (x :: data) else None) as [nb|];
    simpl in *; (split; [done|]; split; [done|]; by apply blob_compress_ok).
Qed.

End Blob.
