(* ===== verification/Samples.v ===== *)
(** * Concrete libraries

    Small implementations of the interfaces of Extern.v that satisfy their laws, so that
    theorems about the engine can be applied to concrete inputs.  They are not models of
    lite3-cpp or zstd. *)
From S2P Require Import Prelude Extern.

(** ** Objects: the type tag, then the bits of the encoded field list *)

Abbreviation field_val := ((Z + bool) + (bytes + bytes))%type.

Fixpoint pos_bits (p : positive) : bytes :=
  match p with
  | xH => []
  | xO p' => Byte.x00 :: pos_bits p'
  | xI p' => Byte.x01 :: pos_bits p'
  end.

Fixpoint bits_pos (s : bytes) : option positive :=
  match s with
  | [] => Some xH
  | b :: s' =>
      if decide (b = Byte.x00) then xO <$> bits_pos s'
      else if decide (b = Byte.x01) then xI <$> bits_pos s' else None
  end.

Definition render (l : list (bytes * field_val)) : bytes := Byte.x06 :: pos_bits (encode l).

Definition parse_object (b : bytes) : option (list (bytes * field_val)) :=
  match b with
  | t :: s => if decide (t = Byte.x06) then bits_pos s ≫= decode else None
  | [] => None
  end.

Fixpoint field (k : bytes) (l : list (bytes * field_val)) : option field_val :=
  match l with
  | [] => None
  | (k', v) :: l' => if decide (k = k') then Some v else field k l'
  end.

Definition set_field (b k : bytes) (v : field_val) : option bytes :=
  (fun l => render ((k, v) :: l)) <$> parse_object b.

Definition get_field (b k : bytes) : option (option field_val) := field k <$> parse_object b.

Definition type_of_field (v : option field_val) : lite3_type :=
  match v with
  | None => TNull
  | Some (inl (inl _)) => TInt64
  | Some (inl (inr _)) => TBool
  | Some (inr (inl _)) => TString
  | Some (inr (inr _)) => TBytes
  end.

#[export] Instance sample_lite3 : Lite3 := {|
  buffer_default := [];
  buffer_capacity _ := [];
  init_object _ := render [];
  set_i64 b k v := set_field b k (inl (inl v));
  set_str b k v := set_field b k (inr (inl v));
  set_bytes b k v := set_field b k (inr (inr v));
  set_bool b k v := set_field b k (inl (inr v));
  get_type b k := option_map type_of_field (get_field b k);
  get_i64 b k := get_field b k ≫= fun v => match v with Some (inl (inl z)) => Some z | _ => None end;
  get_f64 _ _ := None;
  get_str b k := get_field b k ≫= fun v => match v with Some (inr (inl s)) => Some s | _ => None end;
  get_bytes b k := get_field b k ≫= fun v => match v with Some (inr (inr s)) => Some s | _ => None end;
  get_bool b k := get_field b k ≫= fun v => match v with Some (inl (inr z)) => Some z | _ => None end;
  object_keys b := option_map (map fst) (parse_object b);
  from_json_string _ := None
|}.

Arguments render : simpl never.
Arguments get_field : simpl never.
Arguments set_field : simpl never.

Lemma bits_pos_bits p : bits_pos (pos_bits p) = Some p.
Proof. induction p; simpl; rewrite ?IHp; done. Qed.

Lemma parse_render l : parse_object (render l) = Some l.
Proof. unfold parse_object, render. rewrite decide_True, bits_pos_bits by done. apply decode_encode. Qed.

Lemma set_field_render l k v : set_field (render l) k v = Some (render ((k, v) :: l)).
Proof. unfold set_field. by rewrite parse_render. Qed.

Lemma get_field_render l k : get_field (render l) k = Some (field k l).
Proof. unfold get_field. by rewrite parse_render. Qed.

Lemma field_eq k v l : field k ((k, v) :: l) = Some v.
Proof. simpl. by rewrite decide_True. Qed.
Lemma field_ne k k' v l : k' <> k -> field k' ((k, v) :: l) = field k' l.
Proof. intros. simpl. by rewrite decide_False. Qed.

Lemma set_field_spec l k v :
  let b' := render ((k, v) :: l) in
  same_fields k (render l) b' /\ get_field b' k = Some (Some v).
Proof.
  split.
  - intros k' Hne. simpl. by rewrite !get_field_render, field_ne.
  - by rewrite get_field_render, field_eq.
Qed.

(** Setting a field of any kind, with what reads back as a postcondition. *)
Lemma sample_set l k v (Q : bytes -> Prop) :
  (forall b', get_field b' k = Some (Some v) -> Q b') ->
  exists b', set_field (render l) k v = Some b' /\ (exists l', b' = render l') /\
    same_fields k (render l) b' /\ Q b'.
Proof.
  intros HQ. exists (render ((k, v) :: l)). destruct (set_field_spec l k v) as [H1 H2].
  split; [apply set_field_render|]. split; [by eexists|]. split; [done|]. by apply HQ.
Qed.

#[export] Instance sample_lite3_spec : Lite3Spec.
Proof.
  refine {| lite3_object := fun b => exists l, b = render l |}; try done.
  - intros b [l ->]. by eexists.
  - intros b. by exists [].
  - intros b k v [l ->] _. apply (sample_set l k (inl (inl v)) (fun b' => get_type b' k = Some TInt64 /\ get_i64 b' k = Some v)).
    intros b' H. cbn [get_type get_i64 sample_lite3]. by rewrite H.
  - intros b k v [l ->]. apply (sample_set l k (inl (inr v)) (fun b' => get_type b' k = Some TBool /\ get_bool b' k = Some v)).
    intros b' H. cbn [get_type get_bool sample_lite3]. by rewrite H.
  - intros b k v [l ->]. apply (sample_set l k (inr (inl v)) (fun b' => get_type b' k = Some TString /\ get_str b' k = Some v)).
    intros b' H. cbn [get_type get_str sample_lite3]. by rewrite H.
  - intros b k v [l ->]. apply (sample_set l k (inr (inr v)) (fun b' => get_type b' k = Some TBytes /\ get_bytes b' k = Some v)).
    intros b' H. cbn [get_type get_bytes sample_lite3]. by rewrite H.
Defined.

(** ** A compressor for runs of one byte *)

Definition run_of (x : bytes) : option Byte.byte :=
  match x with
  | b :: _ => if decide (x = replicate (length x) b) then Some b else None
  | [] => None
  end.

#[export] Instance sample_zstd : Zstd := {|
  CDict := bytes;
  DDict := bytes;
  train_from_samples _ _ := Some [];
  create_cdict d := Some d;
  create_ddict d := Some d;
  compress_using _ x :=
    Some (match run_of x with Some b => [Byte.x01; b] | None => Byte.x00 :: x end);
  decompress_using _ y n :=
    match y with
    | [Byte.x01; b] => Some (replicate n b)
    | _ :: x => Some x
    | [] => None
    end
|}.

#[export] Instance sample_zstd_spec : ZstdSpec.
Proof.
  split; simpl.
  - by intros.
  - intros d c dd x y _ _ [= <-]. unfold run_of. destruct x as [|b x]; [done|].
    destruct (decide (b :: x = replicate (length (b :: x)) b)) as [E|]; [|done].
    by rewrite <- E.
  - intros c x y [= <-]. by destruct (run_of x).
Qed.

#[export] Instance sample_xxh3 : XXH3 := sample_hash.
#[export] Instance sample_xxh3_spec : XXH3Spec.
Proof. intros d. apply sample_hash_range. Qed.
