(* ===== verification/Store.v ===== *)
(** * The sharded store (src/engine/store.hpp, the data of class Engine)

    The shards' maps, the Merkle tree over them, the compressor and the credentials:
    what the recovery callback and the shard threads change through [apply_put],
    [apply_patch_int], [apply_patch_str] and [apply_del].  Each holds the shard's
    [read_mu] for its whole body, so each is one function on the store. *)
From S2P Require Import Prelude CxxString Extern Merkle OrdMap Blob Credential.

Definition SHARDS : nat := 8.

Section Store.
Context {xxh : XXH3} {l3 : Lite3} {zs : Zstd} {srt : StdSort}.

(** A shard: [std::map<std::string, std::shared_ptr<const Blob>>]; [None] is a null
    pointer. *)
Abbreviation shard := (omap (option Blob)).

Record Store := mkStore {
  shards_ : list shard;
  merkle_ : MerkleTree;
  zstd_manager_ : ZstdManager;
  credentials_ : CredentialManager
}.

(** ** Routing *)

(** The part of the key between the first opening brace and the next closing brace, or
    the whole key. *)
Definition routing_tag (key : bytes) : bytes :=
  match find_char Byte.x7b key with
  | Some start =>
      match find_char_from Byte.x7d key (start + 1) with
      | Some end_ => take (end_ - start - 1) (drop (start + 1) key)
      | None => key
      end
  | None => key
  end.

Definition get_routing_shard (key : bytes) : nat :=
  Z.to_nat (XXH3_64bits (routing_tag key) mod Z.of_nat SHARDS).

Definition get_shard (key : bytes) (s : Store) : shard :=
  default [] (shards_ s !! get_routing_shard key).

(** ** Blobs in the map *)

Definition get_empty_blob : option Blob := Some blob_default.

Definition hash_blob (blob : option Blob) : Z :=
  match blob with
  | None => 0
  | Some b => fnv1a_64 (blob_view b)
  end.

Definition hash_entry (o : option (option Blob)) : Z :=
  match o with Some blob => hash_blob blob | None => 0 end.

(** The common tail of the four operations: [s.map[key] = new_blob] and
    [merkle_.apply_delta(key, old_h ^ new_h)]. *)
Definition replace_blob (key : bytes) (new_blob : option Blob) (z : ZstdManager) (s : Store)
  : Store :=
  let old_h := hash_entry (m_find key (get_shard key s)) in
  let new_h := hash_blob new_blob in
  mkStore (<[get_routing_shard key := m_assign key new_blob (get_shard key s)]> (shards_ s))
    (apply_delta key (Z.lxor old_h new_h) (merkle_ s)) z (credentials_ s).

Definition set_credentials (s : Store) (c : CredentialManager) : Store :=
  mkStore (shards_ s) (merkle_ s) (zstd_manager_ s) c.

(** ** System keys *)

(** The [sys:u:<uid>] hook; the [try] blocks swallow every exception. *)
Definition hook_user (key json_body : bytes) (c : CredentialManager) : CredentialManager :=
  match stoul (drop 6 key) with
  | Throw _ => c
  | Ok v =>
      let buf :=
        if (4 <=? zlen json_body) &&
           (bool_decide (json_body !! 0%nat = Some Byte.x06)
            || bool_decide (json_body !! 0%nat = Some Byte.x07))
        then Some json_body
        else if is_json_payload json_body then from_json_string json_body
        else Some buffer_default in
      match buf with
      | None => c
      | Some buf =>
          let field k := match buf with [] => [] | _ => default [] (get_str buf k) end in
          let uname := field (str "name") in
          let pubkey := field (str "public_key") in
          if bool_decide (uname = []) || bool_decide (pubkey = []) then c
          else (register_user (u32 v) uname pubkey c).2
      end
  end.

(** The [sys:acl:<uid>:<prefix>] hook. *)
Definition hook_acl (key json_body : bytes) (c : CredentialManager) : CredentialManager :=
  let sub := drop 8 key in
  match find_char Byte.x3a sub with
  | None => c
  | Some colon =>
      match stoul (take colon sub) with
      | Throw _ => c
      | Ok v =>
          let p := NONE in
          let p := if contains json_body (str "READ") then perm_or p READ else p in
          let p := if contains json_body (str "WRITE") then perm_or p WRITE else p in
          let p := if contains json_body (str "ADMIN") then perm_or p ADMIN else p in
          set_acl (u32 v) (drop (colon + 1) sub) p c
      end
  end.

Definition system_hook (key json_body : bytes) (c : CredentialManager) : CredentialManager :=
  if starts_with key (str "sys:u:") then hook_user key json_body c
  else if starts_with key (str "sys:acl:") then hook_acl key json_body c
  else c.

(** ** The four operations *)

Definition apply_put (key json_body : bytes) (s : Store) : Store :=
  let '(new_blob, z) := blob_of json_body (zstd_manager_ s) in
  let s1 := replace_blob key (Some new_blob) z s in
  set_credentials s1 (system_hook key json_body (credentials_ s)).

(** The blob a patch starts from: a copy of a stored, non-empty one, or an empty one. *)
Definition patch_base (key : bytes) (s : Store) : Blob :=
  match m_find key (get_shard key s) with
  | Some (Some b) => match buf_ b with [] => blob_capacity 0 | _ :: _ => b end
  | _ => blob_capacity 0
  end.

Definition apply_patch_int (key field : bytes) (val : Z) (s : Store) : result Store :=
  match blob_set_int field val (patch_base key s) (zstd_manager_ s) with
  | Throw e => Throw e
  | Ok b => Ok (replace_blob key (Some b) (zstd_manager_ s) s)
  end.

Definition apply_patch_str (key field val : bytes) (s : Store) : result Store :=
  match blob_set_str field val (patch_base key s) (zstd_manager_ s) with
  | Throw e => Throw e
  | Ok b => Ok (replace_blob key (Some b) (zstd_manager_ s) s)
  end.

Definition apply_del (key : bytes) (s : Store) : bool * Store :=
  (true, replace_blob key get_empty_blob (zstd_manager_ s) s).

(** The store the [Engine] constructor sets up before it recovers the log. *)
Definition store_new : Store :=
  let c := cred_new in
  let c := (register_user ADMIN_UID (str "admin") (str "admin-key") c).2 in
  let c := set_acl ADMIN_UID (str "*") ADMIN c in
  let c := (register_user INTERNAL_UID (str "internal") (str "internal-key") c).2 in
  let c := set_acl INTERNAL_UID (str "*") ADMIN c in
  mkStore (replicate SHARDS []) merkle_new zstd_new c.

(** [get_view]: the blob stored under a key. *)
Definition get_view (key : bytes) (s : Store) : option Blob :=
  match m_find key (get_shard key s) with Some p => p | None => None end.

(** [Engine::get]; an unreadable or missing key gives an empty [Buffer]. *)
Definition get (key : bytes) (principal : Z) (s : Store) : bytes :=
  if negb (may_read (check_permission principal key (credentials_ s))) then buffer_default
  else match get_view key s with
       | None => buffer_default
       | Some view => blob_plain view (zstd_manager_ s)
       end.

(** ** Invariant *)

(** The exclusive or of the value hashes a shard contributes to a bucket. *)
Definition leaf_sum (b : nat) (m : shard) : Z :=
  foldr (fun e acc => if decide (bucket_of e.1 = b) then Z.lxor (hash_blob e.2) acc else acc) 0 m.

Definition store_leaf (b : nat) (s : Store) : Z :=
  foldr (fun m acc => Z.lxor (leaf_sum b m) acc) 0 (shards_ s).

Record store_inv (s : Store) : Prop := {
  si_len : length (shards_ s) = SHARDS;
  si_sorted : forall i m, shards_ s !! i = Some m -> m_sorted m;
  si_routed : forall i m k p, shards_ s !! i = Some m -> (k, p) ∈ m -> get_routing_shard k = i;
  si_blobs : forall i m k p, shards_ s !! i = Some m -> (k, p) ∈ m ->
    exists b, p = Some b /\ blob_ok b (zstd_manager_ s);
  si_zstd : zstd_inv (zstd_manager_ s);
  si_merkle : merkle_inv (merkle_ s);
  si_leaves : forall b, (b < L4_SIZE)%nat -> leaves_ (merkle_ s) !! b = Some (store_leaf b s);
  si_cred : cred_inv (credentials_ s)
}.

(** ** Lemmas: routing *)

Lemma routing_lt key : (get_routing_shard key < SHARDS)%nat.
Proof.
  unfold get_routing_shard, SHARDS.
  pose proof (Z.mod_pos_bound (XXH3_64bits (routing_tag key)) 8 ltac:(lia)). simpl. lia.
Qed.

Lemma get_shard_lookup key s :
  length (shards_ s) = SHARDS -> shards_ s !! get_routing_shard key = Some (get_shard key s).
Proof.
  intros Hl. destruct (lookup_lt_is_Some_2 (shards_ s) (get_routing_shard key)) as [m Hm].
  { rewrite Hl. apply routing_lt. }
  unfold get_shard. by rewrite Hm.
Qed.

(** ** Lemmas: leaf sums *)

#[local] Arguments bucket_of : simpl never.
#[local] Arguments hash_blob : simpl never.
#[local] Arguments Z.lxor : simpl never.
#[local] Arguments L4_SIZE : simpl never.

Lemma leaf_sum_cons b k p m :
  leaf_sum b ((k, p) :: m) =
  Z.lxor (if decide (bucket_of k = b) then hash_blob p else 0) (leaf_sum b m).
Proof.
  unfold leaf_sum. cbn [foldr fst snd]. by destruct (decide (bucket_of k = b)).
Qed.

Lemma leaf_sum_app b m1 m2 : leaf_sum b (m1 ++ m2) = Z.lxor (leaf_sum b m1) (leaf_sum b m2).
Proof.
  induction m1 as [|[k p] m1 IH]; [symmetry; apply Z.lxor_0_l|].
  rewrite <- app_comm_cons, !leaf_sum_cons, IH. by rewrite Z.lxor_assoc.
Qed.

Lemma leaf_sum_assign b k p m :
  m_sorted m ->
  leaf_sum b (m_assign k p m) =
  Z.lxor (leaf_sum b m)
    (if decide (bucket_of k = b) then Z.lxor (hash_entry (m_find k m)) (hash_blob p) else 0).
Proof.
  intros Hs. pose proof (m_assign_sorted k p m Hs) as Hs'.
  destruct (m_assign_split k p m) as (m1 & m2 & E & Hm).
  rewrite E in Hs'. pose proof (m_sorted_NoDup _ Hs') as Hnd. rewrite E, leaf_sum_app.
  rewrite fmap_app, NoDup_app in Hnd. simpl in Hnd. destruct Hnd as (_ & Hnot & Hnd).
  apply NoDup_cons in Hnd as [Hn2 _].
  assert (k ∉ m1.*1) as Hn1 by (intros Hin; apply (Hnot k Hin); left).
  destruct Hm as [-> | (p0 & ->)].
  - assert (m_find k (m1 ++ m2) = None) as ->.
    { apply m_find_None. rewrite fmap_app, elem_of_app. tauto. }
    rewrite leaf_sum_app, leaf_sum_cons. cbn [hash_entry].
    destruct (decide (bucket_of k = b)); [|by rewrite Z.lxor_0_l, Z.lxor_0_r].
    rewrite Z.lxor_0_l, Z.lxor_assoc. f_equal. apply Z.lxor_comm.
  - rewrite (m_find_sorted k p0 (m1 ++ (k, p0) :: m2) Hs)
      by (apply elem_of_app; right; left).
    rewrite leaf_sum_app, !leaf_sum_cons. cbn [hash_entry].
    destruct (decide (bucket_of k = b)); [|by rewrite Z.lxor_0_r].
    rewrite (Z.lxor_comm (hash_blob p0) (leaf_sum b m2)), !Z.lxor_assoc. f_equal.
    rewrite lxor_cancel. apply Z.lxor_comm.
Qed.

Definition sum_shards (b : nat) (ms : list shard) : Z :=
  foldr (fun m acc => Z.lxor (leaf_sum b m) acc) 0 ms.

Lemma sum_shards_app b ms1 ms2 :
  sum_shards b (ms1 ++ ms2) = Z.lxor (sum_shards b ms1) (sum_shards b ms2).
Proof.
  induction ms1 as [|m ms1 IH]; simpl; [by rewrite Z.lxor_0_l|]. by rewrite IH, Z.lxor_assoc.
Qed.

Lemma sum_shards_insert b ms i m m' d :
  ms !! i = Some m -> leaf_sum b m' = Z.lxor (leaf_sum b m) d ->
  sum_shards b (<[i := m']> ms) = Z.lxor (sum_shards b ms) d.
Proof.
  intros Hi Hd. rewrite insert_take_drop by eauto using lookup_lt_Some.
  rewrite <- (take_drop_middle ms i m Hi) at 3. rewrite !sum_shards_app. simpl.
  rewrite Hd, !Z.lxor_assoc. do 2 f_equal. apply Z.lxor_comm.
Qed.

Lemma leaves_apply_delta key d t b h :
  leaves_ t !! b = Some h ->
  leaves_ (apply_delta key d t) !! b =
  Some (Z.lxor h (if decide (bucket_of key = b) then d else 0)).
Proof.
  intros Hb. unfold apply_delta. cbn [leaves_].
  destruct (decide (bucket_of key = b)) as [->|Hne].
  - by rewrite list_lookup_alter_eq, Hb.
  - by rewrite list_lookup_alter_ne, Z.lxor_0_r by done.
Qed.

(** ** Lemmas: replacing a blob *)

Lemma replace_blob_inv key b z s :
  store_inv s -> zstd_inv z -> zstd_le (zstd_manager_ s) z -> blob_ok b z ->
  store_inv (replace_blob key (Some b) z s).
Proof.
  intros Hs Hz Hle Hb. pose proof (get_shard_lookup key s (si_len _ Hs)) as Hsh.
  assert (forall i m, shards_ (replace_blob key (Some b) z s) !! i = Some m ->
    (i = get_routing_shard key /\ m = m_assign key (Some b) (get_shard key s)) \/
    shards_ s !! i = Some m) as Hcase.
  { intros i m. cbn [replace_blob shards_]. rewrite list_lookup_insert_Some. naive_solver. }
  split; cbn [replace_blob merkle_ zstd_manager_ credentials_]; try done.
  - unfold replace_blob. cbn [shards_]. rewrite length_insert. apply Hs.
  - intros i m [[-> ->]|Hm]%Hcase; [|by eapply si_sorted].
    apply m_assign_sorted. by eapply si_sorted.
  - intros i m k p Hm Hin. destruct (Hcase i m Hm) as [[-> ->]|Hm']; [|by eapply si_routed].
    apply m_assign_elem in Hin as [[-> _]|Hin]; [done|by eapply si_routed].
  - intros i m k p Hm Hin. destruct (Hcase i m Hm) as [[-> ->]|Hm'].
    + apply m_assign_elem in Hin as [[_ ->]|Hin]; [by eauto|].
      destruct (si_blobs _ Hs _ _ _ _ Hsh Hin) as (b' & -> & ?). eauto using blob_ok_le.
    + destruct (si_blobs _ Hs _ _ _ _ Hm' Hin) as (b' & -> & ?). eauto using blob_ok_le.
  - apply apply_delta_inv, Hs.
  - intros b0 Hb0. rewrite (leaves_apply_delta _ _ _ _ (store_leaf b0 s)) by by apply (si_leaves _ Hs).
    f_equal. symmetry. apply (sum_shards_insert b0 _ _ _ _ _ Hsh), leaf_sum_assign.
    exact (si_sorted _ Hs _ _ Hsh).
  - apply Hs.
Qed.

Lemma replace_blob_lookup key k p z s :
  length (shards_ s) = SHARDS ->
  m_find k (get_shard k (replace_blob key p z s)) =
  if decide (key = k) then Some p else m_find k (get_shard k s).
Proof.
  intros Hl. unfold get_shard at 1. cbn [replace_blob shards_].
  destruct (decide (get_routing_shard key = get_routing_shard k)) as [E|Hne].
  - rewrite <- E, list_lookup_insert_eq by (rewrite Hl; apply routing_lt). simpl.
    destruct (decide (key = k)) as [->|Hk]; [apply m_find_assign_eq|].
    rewrite m_find_assign_ne by done. unfold get_shard. by rewrite E.
  - rewrite list_lookup_insert_ne by done. rewrite decide_False by congruence. done.
Qed.

Lemma replace_blob_view key k p z s :
  length (shards_ s) = SHARDS ->
  get_view k (replace_blob key p z s) = if decide (key = k) then p else get_view k s.
Proof.
  intros Hl. unfold get_view. rewrite replace_blob_lookup by done. by case_decide.
Qed.

Lemma get_view_ok key s b :
  store_inv s -> get_view key s = Some b -> blob_ok b (zstd_manager_ s).
Proof.
  intros Hs H. unfold get_view in H.
  destruct (m_find key (get_shard key s)) as [p|] eqn:E; [|done]. subst p.
  apply m_find_elem in E.
  destruct (si_blobs _ Hs _ _ _ _ (get_shard_lookup key s (si_len _ Hs)) E) as (b' & [= ->] & ?).
  done.
Qed.

Context {srt_ok : StdSortSpec}.

Lemma system_hook_inv key body c : cred_inv c -> cred_inv (system_hook key body c).
Proof.
  intros Hc. unfold system_hook, hook_user, hook_acl.
  repeat (case_match; try done); auto using set_acl_inv, register_user_inv.
Qed.

Lemma set_credentials_inv s c : store_inv s -> cred_inv c -> store_inv (set_credentials s c).
Proof. intros [] Hc. by split. Qed.

Lemma store_new_inv : store_inv store_new.
Proof.
  assert (forall i m, replicate SHARDS ([] : shard) !! i = Some m -> m = []) as H.
  { intros i m [-> _]%lookup_replicate. done. }
  split; cbn [store_new shards_ merkle_ zstd_manager_ credentials_].
  - done.
  - intros i m ->%H. constructor.
  - intros i m k p ->%H Hin. by apply elem_of_nil in Hin.
  - intros i m k p ->%H Hin. by apply elem_of_nil in Hin.
  - apply zstd_new_inv.
  - apply merkle_inv_new.
  - intros b Hb. cbn [merkle_new leaves_]. by rewrite lookup_replicate_2.
  - auto using set_acl_inv, register_user_inv, cred_new_inv.
Qed.

End Store.
