(* ===== verification/StoreSpec.v ===== *)
(** * What the store promises: a map from keys to documents

    The abstract state is a finite map from keys to the bytes a reader gets, with the
    credentials; sharding, sorted maps, shared blobs, compression and the Merkle tree are
    gone.  The theorems show that the four [apply_*] operations of Store.v implement the
    abstract ones and keep the store's invariant, that equal contents give equal Merkle
    roots, and how keys are routed. *)
From S2P Require Import Prelude CxxString Extern Merkle OrdMap Blob Credential Samples Store.

Section StoreSpec.
Context {xxh : XXH3} {l3 : Lite3} {zs : Zstd} {srt : StdSort}.

(** ** Operations as data *)

Inductive store_op :=
| SPut (key body : bytes)
| SPatchInt (key field : bytes) (val : Z)
| SPatchStr (key field val : bytes)
| SDel (key : bytes).

Definition run_op (o : store_op) (s : Store) : result Store :=
  match o with
  | SPut k b => Ok (apply_put k b s)
  | SPatchInt k f v => apply_patch_int k f v s
  | SPatchStr k f v => apply_patch_str k f v s
  | SDel k => Ok (apply_del k s).2
  end.

(** An exception in one operation does not stop the next one. *)
Definition run_op_skip (o : store_op) (s : Store) : Store :=
  match run_op o s with Ok s' => s' | Throw _ => s end.

Definition run_ops (os : list store_op) (s : Store) : Store := foldl (fun s o => run_op_skip o s) s os.

(** ** The abstract store *)

Record kv := mkKv { docs : gmap bytes bytes; creds : CredentialManager }.

Definition kv_new : kv := mkKv ∅ (credentials_ store_new).

(** The object a patch modifies: the document, or a fresh object. *)
Definition doc_object (k : bytes) (m : kv) : bytes :=
  match docs m !! k with Some (b :: d) => b :: d | _ => init_object [] end.

Definition kv_op (o : store_op) (m : kv) : option kv :=
  match o with
  | SPut k b => Some (mkKv (<[k := stored_form b]> (docs m)) (system_hook k b (creds m)))
  | SPatchInt k f v => (fun d => mkKv (<[k := d]> (docs m)) (creds m)) <$> set_i64 (doc_object k m) f v
  | SPatchStr k f v => (fun d => mkKv (<[k := d]> (docs m)) (creds m)) <$> set_str (doc_object k m) f v
  | SDel k => Some (mkKv (<[k := buffer_default]> (docs m)) (creds m))
  end.

Definition kv_op_skip (o : store_op) (m : kv) : kv := default m (kv_op o m).
Definition kv_ops (os : list store_op) (m : kv) : kv := foldl (fun m o => kv_op_skip o m) m os.

(** Every document fits the 32-bit size field of a blob. *)
Definition fits (m : kv) : Prop := map_Forall (fun _ d => zlen d < 2 ^ 32) (docs m).

Fixpoint ops_fit (os : list store_op) (m : kv) : Prop :=
  match os with
  | [] => True
  | o :: os' => fits (kv_op_skip o m) /\ ops_fit os' (kv_op_skip o m)
  end.

#[global] Instance fits_dec m : Decision (fits m).
Proof. unfold fits. apply _. Defined.

#[global] Instance ops_fit_dec os : forall m, Decision (ops_fit os m).
Proof. induction os as [|o os IH]; intros m; cbn; apply _. Defined.

(** ** The abstraction *)

Definition plain (k : bytes) (s : Store) : option bytes :=
  (fun b => blob_plain b (zstd_manager_ s)) <$> get_view k s.

Record implements (s : Store) (m : kv) : Prop := {
  im_inv : store_inv s;
  im_docs : forall k, plain k s = docs m !! k;
  im_creds : credentials_ s = creds m
}.

(** ** Lemmas *)

Lemma plain_replace key k b z s :
  store_inv s -> zstd_le (zstd_manager_ s) z ->
  plain k (replace_blob key (Some b) z s) =
  if decide (key = k) then Some (blob_plain b z) else plain k s.
Proof.
  intros Hs Hle. unfold plain. rewrite replace_blob_view by apply Hs. cbn [replace_blob zstd_manager_].
  destruct (decide (key = k)); [done|].
  destruct (get_view k s) as [b'|] eqn:E; [|done]. cbn. f_equal.
  apply blob_plain_le; [done|]. by eapply get_view_ok.
Qed.

Lemma replace_implements key b z s m d c :
  implements s m -> zstd_inv z -> zstd_le (zstd_manager_ s) z -> blob_ok b z ->
  blob_plain b z = d -> cred_inv c ->
  implements (set_credentials (replace_blob key (Some b) z s) c) (mkKv (<[key := d]> (docs m)) c).
Proof.
  intros [Hs Hd _] Hz Hle Hb Hp Hc. split; [|intros k|done].
  - apply set_credentials_inv; [|done]. by apply replace_blob_inv.
  - transitivity (plain k (replace_blob key (Some b) z s)); [done|].
    rewrite plain_replace by done. cbn [docs]. destruct (decide (key = k)) as [->|Hne].
    + by rewrite lookup_insert_eq, Hp.
    + by rewrite lookup_insert_ne.
Qed.

Lemma set_credentials_id s : set_credentials s (credentials_ s) = s.
Proof. by destruct s. Qed.

Lemma implements_new {srt_ok : StdSortSpec} : implements store_new kv_new.
Proof.
  split; [apply store_new_inv| |done]. intros k. cbn [docs kv_new]. rewrite lookup_empty.
  unfold plain, get_view, get_shard. cbn [store_new shards_].
  destruct (replicate SHARDS _ !! _) as [m|] eqn:E; [|done].
  apply lookup_replicate in E as [-> _]. done.
Qed.

Context {srt_ok : StdSortSpec} {l3_ok : Lite3Spec} {zs_ok : ZstdSpec}.

Lemma default_blob_ok z : blob_ok blob_default z.
Proof. done. Qed.

Lemma patch_base_open key s m :
  implements s m ->
  let b := blob_open (patch_base key s) (zstd_manager_ s) in
  compressed_ b = false /\ buf_ b = doc_object key m.
Proof.
  intros [Hs Hd _]. cbn zeta. unfold doc_object. rewrite <- Hd. unfold plain, patch_base, get_view.
  assert (forall o, compressed_ (blob_open (blob_capacity 0) o) = false /\
                    buf_ (blob_open (blob_capacity 0) o) = init_object []) as Hfresh.
  { intros o. unfold blob_open, blob_capacity. cbn. by rewrite data_capacity_0. }
  destruct (m_find key (get_shard key s)) as [[b|]|] eqn:E; [|exact (Hfresh (zstd_manager_ s)).. ].
  assert (blob_ok b (zstd_manager_ s)) as Hb by (eapply get_view_ok; [done|]; unfold get_view; by rewrite E).
  cbn [fmap option_fmap option_map]. unfold blob_open, blob_plain, blob_decompress.
  destruct (compressed_ b) eqn:Hc.
  - destruct (Hb Hc) as (_ & c & x & _ & Hx & _). apply zstd_nonempty in Hx.
    destruct (buf_ b) as [|x0 xs] eqn:Eb; [done|]. rewrite Hc. cbn. rewrite Eb.
    by destruct (zstd_decompress _ _ _).
  - destruct (buf_ b) as [|x0 xs] eqn:Eb; [exact (Hfresh (zstd_manager_ s))|]. rewrite Hc, Eb. done.
Qed.

Lemma patch_implements key s m (d : bytes) b :
  implements s m -> compressed_ b = false -> buf_ b = d -> zlen d < 2 ^ 32 ->
  implements (replace_blob key (Some (blob_compress b (zstd_manager_ s))) (zstd_manager_ s) s)
    (mkKv (<[key := d]> (docs m)) (creds m)).
Proof.
  intros Hm Hc Hb Hl. pose proof (im_inv _ _ Hm) as Hs.
  destruct (blob_compress_ok b (zstd_manager_ s)) as [Hok Hp]; [apply Hs|done|by rewrite Hb|].
  rewrite <- (set_credentials_id (replace_blob _ _ _ _)). cbn [replace_blob credentials_].
  rewrite (im_creds _ _ Hm). apply replace_implements; auto using zstd_le_refl.
  - apply Hs.
  - by rewrite Hp.
  - rewrite <- (im_creds _ _ Hm). apply Hs.
Qed.

Lemma fits_insert k d m c : fits (mkKv (<[k := d]> (docs m)) c) -> zlen d < 2 ^ 32.
Proof. intros H. apply (H k). apply lookup_insert_eq. Qed.

Lemma run_op_implements o s m :
  implements s m -> fits (kv_op_skip o m) ->
  match run_op o s, kv_op o m with
  | Ok s', Some m' => implements s' m'
  | Throw _, None => True
  | _, _ => False
  end.
Proof.
  intros Hm Hfit. pose proof (im_inv _ _ Hm) as Hs. unfold kv_op_skip in Hfit.
  destruct o as [k body|k f v|k f v|k]; cbn [run_op kv_op] in *.
  - apply fits_insert in Hfit. unfold apply_put.
    pose proof (blob_of_ok body (zstd_manager_ s) (si_zstd _ Hs) Hfit) as Hb.
    destruct (blob_of body (zstd_manager_ s)) as [b z]. destruct Hb as (? & ? & ? & ?).
    rewrite (im_creds _ _ Hm). apply replace_implements; auto.
    apply system_hook_inv. rewrite <- (im_creds _ _ Hm). apply Hs.
  - destruct (patch_base_open k s m Hm) as [Hc Hb]. unfold apply_patch_int, blob_set_int.
    rewrite Hb. destruct (set_i64 (doc_object k m) f v) as [d|]; cbn in *; [|done].
    apply fits_insert in Hfit. by apply patch_implements.
  - destruct (patch_base_open k s m Hm) as [Hc Hb]. unfold apply_patch_str, blob_set_str.
    rewrite Hb. destruct (set_str (doc_object k m) f v) as [d|]; cbn in *; [|done].
    apply fits_insert in Hfit. by apply patch_implements.
  - cbn. unfold get_empty_blob.
    replace (replace_blob k (Some blob_default) (zstd_manager_ s) s) with
      (set_credentials (replace_blob k (Some blob_default) (zstd_manager_ s) s) (creds m))
      by (rewrite <- (im_creds _ _ Hm); done).
    apply replace_implements; auto using zstd_le_refl, default_blob_ok; try apply Hs.
    rewrite <- (im_creds _ _ Hm). apply Hs.
Qed.

Lemma run_op_skip_implements o s m :
  implements s m -> fits (kv_op_skip o m) -> implements (run_op_skip o s) (kv_op_skip o m).
Proof.
  intros Hm Hf. pose proof (run_op_implements o s m Hm Hf) as H.
  unfold run_op_skip, kv_op_skip. destruct (run_op o s), (kv_op o m); done.
Qed.

Lemma run_ops_implements os : forall s m,
  implements s m -> ops_fit os m -> implements (run_ops os s) (kv_ops os m).
Proof.
  induction os as [|o os IH]; intros s m Hm Hf; [done|]. destruct Hf as [Hf Hfs]. cbn.
  apply IH; [|done]. by apply run_op_skip_implements.
Qed.

Lemma get_implements s m k principal :
  implements s m ->
  get k principal s =
    if may_read (check_permission principal k (creds m))
    then default buffer_default (docs m !! k) else buffer_default.
Proof.
  intros Him. unfold get. rewrite (im_creds _ _ Him), <- (im_docs _ _ Him). unfold plain.
  destruct (may_read _); [|done]. by destruct (get_view k _).
Qed.

(** ** Lemmas: the Merkle leaves as a function of the contents *)

Definition view_bytes (k : bytes) (s : Store) : option bytes := blob_view <$> get_view k s.

Lemma leaf_sum_select b m :
  leaf_sum b m =
  foldr (fun e acc => Z.lxor e.2 acc) 0
    (m_select (fun k => bool_decide (bucket_of k = b)) hash_blob m).
Proof.
  induction m as [|[k p] m IH]; [done|]. rewrite leaf_sum_cons, IH. unfold m_select. cbn [List.filter fst].
  destruct (decide (bucket_of k = b)) as [E|E].
  - by rewrite bool_decide_eq_true_2.
  - by rewrite bool_decide_eq_false_2, Z.lxor_0_l.
Qed.

Lemma shard_find s i m k :
  store_inv s -> shards_ s !! i = Some m ->
  m_find k m = if decide (get_routing_shard k = i) then Some <$> get_view k s else None.
Proof.
  intros Hs Hi. destruct (decide (get_routing_shard k = i)) as [<-|Hne].
  - rewrite (get_shard_lookup k s (si_len _ Hs)) in Hi. simplify_eq. unfold get_view.
    destruct (m_find k (get_shard k s)) as [p|] eqn:E; [|done].
    apply m_find_elem in E.
    destruct (si_blobs _ Hs _ _ _ _ (get_shard_lookup k s (si_len _ Hs)) E) as (? & -> & _). done.
  - apply m_find_None. intros ([k' p] & E & Hin)%list_elem_of_fmap. cbn in E. subst k'.
    by apply Hne, (si_routed _ Hs _ _ _ _ Hi Hin).
Qed.

Lemma hash_of_view s k :
  hash_blob <$> (Some <$> get_view k s) = fnv1a_64 <$> view_bytes k s.
Proof. unfold view_bytes. by destruct (get_view k s). Qed.

Lemma leaf_sum_agree b s1 s2 i m1 m2 :
  store_inv s1 -> store_inv s2 ->
  (forall k, bucket_of k = b -> view_bytes k s1 = view_bytes k s2) ->
  shards_ s1 !! i = Some m1 -> shards_ s2 !! i = Some m2 -> leaf_sum b m1 = leaf_sum b m2.
Proof.
  intros Hs1 Hs2 Hv Hi1 Hi2. rewrite !leaf_sum_select. f_equal. apply m_ext.
  - apply m_sorted_select. by eapply (si_sorted s1).
  - apply m_sorted_select. by eapply (si_sorted s2).
  - intros k. rewrite !m_find_select.
    rewrite (shard_find s1 i m1), (shard_find s2 i m2) by done.
    destruct (bool_decide (bucket_of k = b)) eqn:E; [|done]. apply bool_decide_eq_true in E.
    destruct (decide (get_routing_shard k = i)); [|done].
    by rewrite !hash_of_view, Hv.
Qed.

Lemma sum_shards_agree b ms1 : forall ms2,
  length ms1 = length ms2 ->
  (forall i m1 m2, ms1 !! i = Some m1 -> ms2 !! i = Some m2 -> leaf_sum b m1 = leaf_sum b m2) ->
  sum_shards b ms1 = sum_shards b ms2.
Proof.
  induction ms1 as [|m1 ms1 IH]; intros [|m2 ms2] Hl H; try done. cbn.
  f_equal; [by apply (H 0%nat)|]. apply IH; [by injection Hl|].
  intros i a1 a2 H1 H2. by apply (H (S i)).
Qed.

Lemma store_leaf_agree b s1 s2 :
  store_inv s1 -> store_inv s2 ->
  (forall k, bucket_of k = b -> view_bytes k s1 = view_bytes k s2) ->
  store_leaf b s1 = store_leaf b s2.
Proof.
  intros H1 H2 Hv. apply (sum_shards_agree b).
  - by rewrite (si_len _ H1), (si_len _ H2).
  - intros. by eapply (leaf_sum_agree b s1 s2).
Qed.

Lemma view_bytes_put k key body s :
  store_inv s ->
  view_bytes k (apply_put key body s) =
  if decide (key = k) then Some (blob_view (blob_of body (zstd_manager_ s)).1)
  else view_bytes k s.
Proof.
  intros Hs. unfold view_bytes, apply_put. destruct (blob_of body (zstd_manager_ s)) as [b z].
  transitivity (blob_view <$> get_view k (replace_blob key (Some b) z s)); [done|].
  rewrite replace_blob_view by apply Hs. by destruct (decide (key = k)).
Qed.

Lemma leaf_put key body s b h :
  store_inv s -> leaves_ (merkle_ s) !! b = Some h ->
  leaves_ (merkle_ (apply_put key body s)) !! b =
  Some (Z.lxor h (if decide (bucket_of key = b)
                  then Z.lxor (default 0 (fnv1a_64 <$> view_bytes key s))
                         (fnv1a_64 (blob_view (blob_of body (zstd_manager_ s)).1))
                  else 0)).
Proof.
  intros Hs Hb. unfold apply_put.
  destruct (blob_of body (zstd_manager_ s)) as [nb z]. cbn [set_credentials merkle_ replace_blob].
  rewrite (leaves_apply_delta _ _ _ _ h) by done. do 2 f_equal.
  destruct (decide (bucket_of key = b)); [|done]. cbn [hash_blob fst]. f_equal.
  rewrite <- hash_of_view.
  assert (m_find key (get_shard key s) = Some <$> get_view key s) as ->.
  { rewrite (shard_find s _ _ key Hs (get_shard_lookup key s (si_len _ Hs))).
    by rewrite decide_True. }
  by destruct (get_view key s).
Qed.

(** ** Lemmas: routing *)

Lemma routing_tag_braced p t rest :
  Byte.x7b ∉ p -> Byte.x7d ∉ t ->
  routing_tag (p ++ Byte.x7b :: t ++ Byte.x7d :: rest) = t.
Proof.
  intros Hp Ht. unfold routing_tag. rewrite find_char_app by done. unfold find_char_from.
  replace (drop (length p + 1) (p ++ Byte.x7b :: t ++ Byte.x7d :: rest))
    with (t ++ Byte.x7d :: rest).
  2:{ rewrite drop_app_ge by lia. by replace (length p + 1 - length p)%nat with 1%nat by lia. }
  rewrite find_char_app by done. cbn.
  replace (length p + 1 + length t - length p - 1)%nat with (length t) by lia.
  by rewrite take_app_length.
Qed.

(** ** Theorems *)

(** C1: after any sequence of [apply_put], [apply_patch_int], [apply_patch_str] and
    [apply_del] on a fresh store, the store implements the abstract map (its shards are
    sorted and routed, compressed blobs can be read back, each Merkle leaf is the
    exclusive or of the value hashes of its bucket), the next operation throws exactly
    when the abstract one fails, and [get] answers the document of the key to a principal
    with read permission and an empty buffer to any other. *)
Theorem store_refines_kv os o :
  ops_fit (os ++ [o]) kv_new ->
  let s := run_ops os store_new in
  let m := kv_ops os kv_new in
  implements s m /\
  match run_op o s, kv_op o m with
  | Ok s', Some m' => implements s' m'
  | Throw _, None => True
  | _, _ => False
  end /\
  forall k principal, get k principal s =
    if may_read (check_permission principal k (creds m))
    then default buffer_default (docs m !! k) else buffer_default.
Proof.
  intros Hf. cbn zeta.
  assert (forall os m, ops_fit (os ++ [o]) m -> ops_fit os m /\ fits (kv_op_skip o (kv_ops os m)))
    as Hsplit.
  { intros os'. induction os' as [|o' os' IH]; intros m; cbn; [tauto|]. intros [? ?%IH]. tauto. }
  destruct (Hsplit _ _ Hf) as [Hos Ho].
  pose proof (run_ops_implements os _ _ implements_new Hos) as Him.
  split; [done|]. split; [by apply run_op_implements|]. intros k principal.
  by apply get_implements.
Qed.

(** C30: the Merkle tree is a function of the stored bytes: a bucket whose keys hold the
    same bytes in two stores has the same leaf in both, and two stores that agree on every
    key report the same root hash, whatever sequences of [apply_put], [apply_patch_int],
    [apply_patch_str] and [apply_del] led to them from the fresh store. *)
Theorem merkle_reflects_contents os1 os2 :
  ops_fit os1 kv_new -> ops_fit os2 kv_new ->
  let s1 := run_ops os1 store_new in
  let s2 := run_ops os2 store_new in
  (forall b, (b < L4_SIZE)%nat ->
     (forall k, bucket_of k = b -> view_bytes k s1 = view_bytes k s2) ->
     leaves_ (merkle_ s1) !! b = leaves_ (merkle_ s2) !! b) /\
  ((forall k, view_bytes k s1 = view_bytes k s2) ->
     (get_root_hash (merkle_ s1)).1 = (get_root_hash (merkle_ s2)).1).
Proof.
  intros Hf1 Hf2 s1 s2.
  pose proof (im_inv _ _ (run_ops_implements os1 _ _ implements_new Hf1) : store_inv s1) as H1.
  pose proof (im_inv _ _ (run_ops_implements os2 _ _ implements_new Hf2) : store_inv s2) as H2.
  clearbody s1 s2.
  assert (forall b, (b < L4_SIZE)%nat ->
     (forall k, bucket_of k = b -> view_bytes k s1 = view_bytes k s2) ->
     leaves_ (merkle_ s1) !! b = leaves_ (merkle_ s2) !! b) as Hb.
  { intros b Hb Hv. rewrite (si_leaves _ H1), (si_leaves _ H2) by done.
    f_equal. by apply store_leaf_agree. }
  split; [done|]. intros Hv. unfold get_root_hash.
  rewrite !recompute_dirty_spec by (apply H1 || apply H2). cbn. f_equal.
  apply list_eq. intros b. destruct (decide (b < L4_SIZE)%nat) as [Hlt|Hge]; [by apply Hb|].
  rewrite !lookup_ge_None_2; [done|rewrite (mi_leaves _ (si_merkle _ H2)); lia|
    rewrite (mi_leaves _ (si_merkle _ H1)); lia].
Qed.

(** Keys with the same hash tag live in the same shard, whatever surrounds the tag;
    in particular a tagged key and its metadata key do. *)
Theorem hash_tag_colocates p1 p2 t r1 r2 :
  Byte.x7b ∉ p1 -> Byte.x7b ∉ p2 -> Byte.x7d ∉ t ->
  get_routing_shard (p1 ++ Byte.x7b :: t ++ Byte.x7d :: r1) =
  get_routing_shard (p2 ++ Byte.x7b :: t ++ Byte.x7d :: r2).
Proof.
  intros H1 H2 Ht. unfold get_routing_shard. by rewrite !routing_tag_braced.
Qed.

End StoreSpec.

#[export] Instance sample_sort : StdSort := insertion_sort.
#[export] Instance sample_sort_spec : StdSortSpec := insertion_sort_spec.

Definition sample_ops : list store_op :=
  [SPut (str "k") (str "aaaaaaaaaa"); SDel (str "k"); SPatchInt (str "k") (str "n") 7].

Lemma store_refines_kv_witness :
  ops_fit (sample_ops ++ [SPut (str "sys:acl:5:a") (str "READ")]) kv_new /\
  get (str "k") ADMIN_UID (run_ops sample_ops store_new) = render [(str "n", inl (inl 7))].
Proof.
  assert (ops_fit (sample_ops ++ [SPut (str "sys:acl:5:a") (str "READ")]) kv_new) as Hf.
  { apply (bool_decide_unpack _). by vm_compute. }
  split; [done|].
  destruct (store_refines_kv sample_ops _ Hf) as (_ & _ & Hget). rewrite Hget.
  by vm_compute.
Defined.

Definition ops_ab : list store_op := [SPut (str "a") (str "1"); SPut (str "b") (str "2")].
Definition ops_ba : list store_op := [SPut (str "b") (str "2"); SPut (str "a") (str "1")].

Lemma merkle_reflects_contents_witness :
  (get_root_hash (merkle_ (run_ops ops_ab store_new))).1 =
  (get_root_hash (merkle_ (run_ops ops_ba store_new))).1.
Proof.
  assert (forall os, ops_fit os kv_new -> store_inv (run_ops os store_new)) as Hinv.
  { intros os H. apply (im_inv _ _ (run_ops_implements os _ _ implements_new H)). }
  apply (merkle_reflects_contents ops_ab ops_ba).
  - apply (bool_decide_unpack _). by vm_compute.
  - apply (bool_decide_unpack _). by vm_compute.
  - intros k. change (run_ops ops_ab store_new) with
      (apply_put (str "b") (str "2") (run_ops [SPut (str "a") (str "1")] store_new)).
    change (run_ops ops_ba store_new) with
      (apply_put (str "a") (str "1") (run_ops [SPut (str "b") (str "2")] store_new)).
    rewrite !view_bytes_put; try (apply Hinv, (bool_decide_unpack _); by vm_compute).
    change (run_ops [SPut (str "a") (str "1")] store_new) with
      (apply_put (str "a") (str "1") store_new).
    change (run_ops [SPut (str "b") (str "2")] store_new) with
      (apply_put (str "b") (str "2") store_new).
    rewrite !view_bytes_put by apply store_new_inv.
    destruct (decide (str "b" = k)) as [<-|]; [by vm_compute|].
    destruct (decide (str "a" = k)) as [<-|]; [by vm_compute|reflexivity].
Defined.

Lemma hash_tag_colocates_witness :
  get_routing_shard (str "user:{42}:name") = get_routing_shard (str "{42}:meta").
Proof.
  apply (hash_tag_colocates (str "user:") [] (str "42") (str ":name") (str ":meta")).
  - apply (bool_decide_unpack _). by vm_compute.
  - apply (bool_decide_unpack _). by vm_compute.
  - apply (bool_decide_unpack _). by vm_compute.
Defined.

(** ** Compression and the Merkle tree *)

Definition big_doc : bytes := replicate (100 * 1024) Byte.x7a.
Definition small_doc : bytes := str "aaaaaaaaaa".

Lemma big_doc_trains :
  (blob_of big_doc zstd_new).2 = mkZstd [] (zlen big_doc) (Some []) (Some []) true.
Proof.
  assert (add_sample big_doc zstd_new = mkZstd [] (zlen big_doc) (Some []) (Some []) true) as H.
  { unfold add_sample. cbn [zstd_new active_ samples_ samples_bytes_ cdict_ ddict_ app].
    assert (100 * 1024 <=? 0 + zlen big_doc = true) as ->
      by (apply Z.leb_le; unfold zlen, big_doc; rewrite length_replicate; lia).
    by rewrite orb_true_r. }
  unfold blob_of, blob_overwrite, is_active. cbn [zstd_new active_]. fold zstd_new. rewrite H.
  destruct big_doc; [done|]. by destruct (if is_json_payload _ then _ else None).
Qed.

Lemma puts_fit k1 d1 k2 d2 :
  zlen (stored_form d1) < 2 ^ 32 -> zlen (stored_form d2) < 2 ^ 32 ->
  ops_fit [SPut k1 d1; SPut k2 d2] kv_new.
Proof.
  intros H1 H2. cbn [ops_fit kv_op_skip kv_op default]. unfold fits. cbn [docs kv_new].
  repeat split; repeat (apply map_Forall_insert_2; [done|]); apply map_Forall_empty.
Qed.

Lemma put_new_inv k d : zlen (stored_form d) < 2 ^ 32 -> store_inv (apply_put k d store_new).
Proof.
  intros Hd. refine (im_inv _ _ (run_op_skip_implements (SPut k d) _ kv_new implements_new _)).
  apply map_Forall_insert_2; [done|apply map_Forall_empty].
Qed.

(** The leaf of a key that was put before or after another one in another bucket. *)
Lemma leaf_two_puts k1 d1 k2 d2 :
  bucket_of k2 <> bucket_of k1 ->
  zlen (stored_form d1) < 2 ^ 32 -> zlen (stored_form d2) < 2 ^ 32 ->
  leaves_ (merkle_ (run_ops [SPut k1 d1; SPut k2 d2] store_new)) !! bucket_of k1 =
    Some (fnv1a_64 (blob_view (blob_of d1 zstd_new).1)) /\
  leaves_ (merkle_ (run_ops [SPut k2 d2; SPut k1 d1] store_new)) !! bucket_of k1 =
    Some (fnv1a_64 (blob_view (blob_of d1 (blob_of d2 zstd_new).2).1)).
Proof.
  intros Hb H1 H2. assert (k2 <> k1) as Hk by congruence.
  assert (leaves_ (merkle_ store_new) !! bucket_of k1 = Some 0) as H0
    by (apply lookup_replicate_2, bucket_of_lt).
  assert (view_bytes k1 store_new = None) as Hv.
  { unfold view_bytes. pose proof (im_docs _ _ implements_new k1) as E. unfold plain in E.
    by destruct (get_view k1 store_new). }
  unfold run_ops, run_op_skip, run_op. cbn [foldl].
  rewrite (leaf_put _ _ _ _ _ (put_new_inv k1 d1 H1) (leaf_put _ _ _ _ _ store_new_inv H0)).
  rewrite (leaf_put _ _ _ _ _ (put_new_inv k2 d2 H2) (leaf_put _ _ _ _ _ store_new_inv H0)).
  rewrite !(decide_False (P := bucket_of k2 = _)), !(decide_True (P := bucket_of k1 = _)) by done.
  rewrite view_bytes_put by apply store_new_inv.
  rewrite (decide_False (P := k2 = k1)), Hv by done. cbn [fmap option_fmap option_map default].
  rewrite !Z.lxor_0_l, !Z.lxor_0_r. split; [done|]. do 4 f_equal.
  unfold apply_put. by destruct (blob_of d2 _).
Qed.

Lemma stored_docs_fit :
  zlen (stored_form small_doc) < 2 ^ 32 /\ zlen (stored_form big_doc) < 2 ^ 32.
Proof.
  split; [by vm_compute|].
  assert (stored_form big_doc = big_doc) as ->.
  { unfold stored_form. destruct big_doc; [done|]. by destruct (is_json_payload _). }
  unfold zlen, big_doc. rewrite length_replicate. lia.
Qed.

(** The Merkle tree hashes stored bytes, and whether a document is compressed depends
    on what the node stored before it: two nodes that receive the same two documents in
    different orders answer every read alike, but their leaves differ, so anti-entropy
    keeps reporting a difference between equal replicas. *)
Theorem compression_separates_equal_replicas :
  let s1 := run_ops [SPut (str "k") small_doc; SPut (str "big") big_doc] store_new in
  let s2 := run_ops [SPut (str "big") big_doc; SPut (str "k") small_doc] store_new in
  (forall key, plain key s1 = plain key s2) /\
  leaves_ (merkle_ s1) !! bucket_of (str "k") <> leaves_ (merkle_ s2) !! bucket_of (str "k").
Proof.
  destruct stored_docs_fit as [Hs Hb].
  pose proof (run_ops_implements _ _ _ implements_new (puts_fit (str "k") _ (str "big") _ Hs Hb)) as I1.
  pose proof (run_ops_implements _ _ _ implements_new (puts_fit (str "big") _ (str "k") _ Hb Hs)) as I2.
  cbn zeta. split.
  - intros key. rewrite (im_docs _ _ I1), (im_docs _ _ I2). cbn [kv_ops foldl kv_op_skip kv_op default docs].
    apply (f_equal (lookup key)), insert_insert_ne. by vm_compute.
  - assert (bucket_of (str "big") <> bucket_of (str "k")) as Hne
      by (intros E%(f_equal Z.of_nat); by vm_compute in E).
    destruct (leaf_two_puts (str "k") small_doc (str "big") big_doc Hne Hs Hb) as [-> ->].
    rewrite big_doc_trains. by vm_compute.
Qed.
