(* ===== verification/Engine.v ===== *)
(** * The engine (src/engine/store.hpp, class Engine)

    The write path: permission check, timestamp, write-ahead log, then a task on the queue
    of the key's shard, which the shard's thread runs.  An [Engine] holds the store, the
    log, the clock and the queues, and the answers the operating system will give: the
    readings of the physical clock and the results of [write].

    An operation is a function of type [M A]: it returns a value or throws, with the new
    engine; [None] means that it still waits for the operating system.  A task is the list
    of the store operations its closure performs, in order. *)
From S2P Require Import Prelude CxxString Clock Extern Merkle Wal OrdMap Blob Credential.
From S2P Require Import KeyBuilder ReplicationLog Samples Store StoreSpec.

Section Engine.
Context {xxh : XXH3} {l3 : Lite3} {zs : Zstd} {srt : StdSort}.

Abbreviation task := (list store_op).

Record Engine := mkEngine {
  store : Store;
  wal_ : WriteAheadLog;
  clock_ : HybridLogicalClock;
  messages : list (list task);       (* one FIFO queue per shard *)
  clock_readings : list Z;
  write_answers : list write_result
}.

Definition M (A : Type) : Type := Engine -> option (result A * Engine).

Definition ret {A} (a : A) : M A := fun e => Some (Ok a, e).
Definition throw {A} (x : exn) : M A := fun e => Some (Throw x, e).
Definition bind {A B} (m : M A) (f : A -> M B) : M B := fun e =>
  match m e with
  | Some (Ok a, e') => f a e'
  | Some (Throw x, e') => Some (Throw x, e')
  | None => None
  end.
Definition lift {A} (o : option A) : M A :=
  match o with Some a => ret a | None => throw library_exn end.
Definition gets {A} (f : Engine -> A) : M A := fun e => Some (Ok (f e), e).
Definition modify (f : Engine -> Engine) : M unit := fun e => Some (Ok tt, f e).

Notation "'let!' x ':=' c1 'in' c2" := (bind c1 (fun x => c2))
  (at level 10, x pattern, c1 at level 100, c2 at level 200) : l3kv_scope.
Local Open Scope l3kv_scope.

Definition set_store (s : Store) (e : Engine) : Engine :=
  mkEngine s (wal_ e) (clock_ e) (messages e) (clock_readings e) (write_answers e).
Definition set_messages (q : list (list task)) (e : Engine) : Engine :=
  mkEngine (store e) (wal_ e) (clock_ e) q (clock_readings e) (write_answers e).

(** ** The clock and the log *)

Definition clock_now : M Timestamp := fun e =>
  match hlc_now (clock_readings e) (clock_ e) with
  | Some (ts, c, rs) =>
      Some (Ok ts, mkEngine (store e) (wal_ e) c (messages e) rs (write_answers e))
  | None => None
  end.

Definition wal_append_batch (ops : list BatchOp) : M unit := fun e =>
  match append_batch (write_answers e) ops (wal_ e) with
  | Some (w, ans) =>
      Some (Ok tt, mkEngine (store e) w (clock_ e) (messages e) (clock_readings e) ans)
  | None => None
  end.

(** ** Shard queues *)

(** A task runs until one of its operations throws. *)
Fixpoint run_task (t : task) (s : Store) : option exn * Store :=
  match t with
  | [] => (None, s)
  | o :: t' => match run_op o s with
               | Ok s' => run_task t' s'
               | Throw x => (Some x, s)
               end
  end.

(** One iteration of the loop of [core_thread i]; the exception of a task ends in its
    promise or is swallowed. *)
Definition core_step (i : nat) (e : Engine) : Engine :=
  match messages e !! i with
  | Some (t :: q) => set_store (run_task t (store e)).2 (set_messages (<[i := q]> (messages e)) e)
  | _ => e
  end.

Definition enqueue (h : nat) (t : task) : M unit :=
  modify (fun e => set_messages (alter (fun q => q ++ [t]) h (messages e)) e).

(** The shard's thread works off its queue; the outcome of the last task. *)
Fixpoint run_tasks (ts : list task) (s : Store) : option exn * Store :=
  match ts with
  | [] => (None, s)
  | [t] => run_task t s
  | t :: ts' => run_tasks ts' (run_task t s).2
  end.

Definition drain (h : nat) (e : Engine) : option exn * Engine :=
  match messages e !! h with
  | Some q =>
      let '(x, s) := run_tasks q (store e) in
      (x, set_store s (set_messages (<[h := []]> (messages e)) e))
  | None => (None, e)
  end.

(** [fut.get()] on the future of the last task of shard [h]: the caller waits until the
    shard's thread has run everything queued up to it; an exception is rethrown. *)
Definition wait_shard (h : nat) : M unit := fun e =>
  let '(x, e') := drain h e in
  Some (match x with None => Ok tt | Some x => Throw x end, e').

(** [submit_to_shard_idx(h, t).get()] *)
Definition submit_wait (h : nat) (t : task) : M unit :=
  let! _ := enqueue h t in wait_shard h.

Definition submit_to_shard (key : bytes) (t : task) : M unit :=
  submit_wait (get_routing_shard key) t.

(** A [std::string] that has been moved from, which the library leaves empty.  [put] and
    the patches pass [key] to [submit_to_shard] by reference next to a lambda that captures
    it by move, so the reference is read after the move: their tasks run on the thread of
    the empty key's shard, whichever shard the key belongs to. *)
Definition moved_from (s : bytes) : bytes := [].

(** ** Metadata documents *)

Definition meta_doc (ts : Timestamp) (tombstone : bool) : option bytes :=
  let mbuf := init_object buffer_default in
  mbuf ← set_i64 mbuf (str "ts") (wall_time ts);
  mbuf ← set_i64 mbuf (str "l") (logical ts);
  mbuf ← set_i64 mbuf (str "n") (node_id ts);
  if tombstone then set_bool mbuf (str "tombstone") true else Some mbuf.

(** [std::to_string(wall) + ":" + std::to_string(logical) + ":" + std::to_string(node)] *)
Definition ts_text (ts : Timestamp) : bytes :=
  to_string (wall_time ts) ++ str ":" ++ to_string (logical ts) ++ str ":" ++ to_string (node_id ts).

Definition unauthorized (key : bytes) : exn :=
  runtime_error (str "Unauthorized: Access Denied for key " ++ key).

Definition can_write (principal : Z) (key : bytes) (e : Engine) : bool :=
  may_write (check_permission principal key (credentials_ (store e))).
Definition can_read (principal : Z) (key : bytes) (e : Engine) : bool :=
  may_read (check_permission principal key (credentials_ (store e))).

(** ** Writes *)

Definition put (key json_body : bytes) (principal_id : Z) : M unit :=
  let! ok := gets (can_write principal_id key) in
  if negb ok then throw (unauthorized key)
  else
    let! now := clock_now in
    let mkey_s := meta_key key in
    let! meta_val := lift (meta_doc now false) in
    let! _ := wal_append_batch [mkBatchOp PUT key json_body; mkBatchOp PUT mkey_s meta_val] in
    submit_to_shard (moved_from key) [SPut key json_body; SPut mkey_s meta_val].

Definition patch_int (key field : bytes) (val : Z) : M unit :=
  let! now := clock_now in
  let mkey_s := meta_key key in
  let ts_str := ts_text now in
  let log_payload_int := field ++ str ":" ++ to_string val in
  let log_payload_str := field ++ str ":" ++ ts_str in
  let! _ := wal_append_batch [mkBatchOp PATCH_I64 key log_payload_int;
                              mkBatchOp PATCH_STR mkey_s log_payload_str] in
  submit_to_shard (moved_from key) [SPatchInt key field val; SPatchStr mkey_s field ts_str].

Definition patch_str (key field val : bytes) : M unit :=
  let! now := clock_now in
  let mkey_s := meta_key key in
  let ts_str := ts_text now in
  let log_payload_str := field ++ str ":" ++ val in
  let log_payload_meta := field ++ str ":" ++ ts_str in
  let! _ := wal_append_batch [mkBatchOp PATCH_STR key log_payload_str;
                              mkBatchOp PATCH_STR mkey_s log_payload_meta] in
  submit_to_shard (moved_from key) [SPatchStr key field val; SPatchStr mkey_s field ts_str].

(** [apply_del] always answers true, and so does the task. *)
Definition del (key : bytes) (principal_id : Z) : M bool :=
  let! ok := gets (can_write principal_id key) in
  if negb ok then ret false
  else
    let! now := clock_now in
    let mkey_s := meta_key key in
    let! meta_val := lift (meta_doc now true) in
    let! _ := wal_append_batch [mkBatchOp DELETE_ key []; mkBatchOp PUT mkey_s meta_val] in
    let! existed := gets (fun e => (apply_del key (store e)).1) in
    let! _ := submit_to_shard key [SDel key; SPut mkey_s meta_val] in
    ret existed.

(** [batch_put] collects its updates per shard in a [std::map<size_t, ShardWork>]: here an
    association list with the shards in increasing order. *)
Fixpoint add_work {W} (zero : W) (h : nat) (f : W -> W) (ws : list (nat * W)) : list (nat * W) :=
  match ws with
  | [] => [(h, f zero)]
  | (h', w) :: ws' =>
      if (h <? h')%nat then (h, f zero) :: ws
      else if (h =? h')%nat then (h, f w) :: ws'
      else (h', w) :: add_work zero h f ws'
  end.

(** The strings the entries of [wal_batch] view are locals of the loop body, dead when
    [append_batch] reads them: [stale] gives what is then found in the place of a string. *)
Section BatchPut.
Context (stale : bytes -> bytes).

Record batch_acc := mkAcc { wal_batch : list BatchOp; shard_works : list (nat * task) }.

Definition batch_value (batch key : bytes) : option (option bytes) :=
  type ← get_type batch key;
  if decide (type = TString) then Some <$> get_str batch key
  else if decide (type = TBytes) then Some <$> get_bytes batch key
  else Some None.

Fixpoint batch_loop (keys : list bytes) (batch : bytes) (principal_id : Z) (acc : batch_acc)
  : M batch_acc :=
  match keys with
  | [] => ret acc
  | key :: keys' =>
      let! ok := gets (can_write principal_id key) in
      if negb ok then throw (unauthorized key)
      else
        let! v := lift (batch_value batch key) in
        match v with
        | None => batch_loop keys' batch principal_id acc
        | Some val =>
            let! now := clock_now in
            let mkey_s := meta_key key in
            let! meta_val := lift (meta_doc now false) in
            let wb := wal_batch acc ++ [mkBatchOp PUT (stale key) (stale val);
                                        mkBatchOp PUT (stale mkey_s) (stale meta_val)] in
            let sw := add_work [] (get_routing_shard key) (fun u => u ++ [SPut key val])
                        (shard_works acc) in
            let sw := add_work [] (get_routing_shard mkey_s) (fun u => u ++ [SPut mkey_s meta_val])
                        sw in
            batch_loop keys' batch principal_id (mkAcc wb sw)
        end
  end.

Fixpoint enqueue_all (ws : list (nat * task)) : M unit :=
  match ws with
  | [] => ret tt
  | (h, t) :: ws' => let! _ := enqueue h t in enqueue_all ws'
  end.

Definition batch_put (batch : bytes) (principal_id : Z) : M unit :=
  let! keys := lift (object_keys batch) in
  let! acc := batch_loop keys batch principal_id (mkAcc [] []) in
  match wal_batch acc with
  | [] => ret tt
  | wb => let! _ := wal_append_batch wb in enqueue_all (shard_works acc)
  end.

(** ** Replicated writes *)

(** The timestamp in a metadata document, zero when there is none; a missing field makes
    [get_i64] throw. *)
Definition local_timestamp (buf : bytes) : option Timestamp :=
  match buf with
  | [] => Some (mkTimestamp 0 0 0)
  | _ :: _ =>
      type ← get_type buf (str "ts");
      if bool_decide (type = TInt64) || bool_decide (type = TFloat64) then
        w ← get_i64 buf (str "ts");
        l ← get_i64 buf (str "l");
        n ← get_i64 buf (str "n");
        Some (mkTimestamp w (u32 l) (u32 n))
      else Some (mkTimestamp 0 0 0)
  end.

(** [apply_mutation] runs on the caller's thread. *)
Definition apply_mutation (m : Mutation) : M unit :=
  let meta_key_lookup := meta_key (m_key m) in
  let! buf := gets (fun e => get meta_key_lookup ADMIN_UID (store e)) in
  let! local_ts := lift (local_timestamp buf) in
  if ts_leb (m_timestamp m) local_ts then ret tt
  else
    let! meta_val := lift (meta_doc (m_timestamp m) (m_is_delete m)) in
    let first := if m_is_delete m then mkBatchOp DELETE_ (m_key m) []
                 else mkBatchOp PUT (m_key m) (stale (m_value m)) in
    let! _ := wal_append_batch [first; mkBatchOp PUT meta_key_lookup meta_val] in
    let! _ := modify (fun e => set_store
      (if m_is_delete m then (apply_del (m_key m) (store e)).2
       else apply_put (m_key m) (m_value m) (store e)) e) in
    modify (fun e => set_store (apply_put meta_key_lookup meta_val (store e)) e).
End BatchPut.

Record ShardMutation := mkShardMutation { puts : list (bytes * bytes); dels : list bytes }.

Definition mutation_task (mut : ShardMutation) : task :=
  (SDel <$> dels mut) ++ ((fun p => SPut p.1 p.2) <$> puts mut).

(** The first loop submits the tasks, the second waits for each. *)
Fixpoint wait_each (hs : list nat) : M unit :=
  match hs with
  | [] => ret tt
  | h :: hs' => let! _ := wait_shard h in wait_each hs'
  end.

Definition submit_all (ws : list (nat * task)) : M unit :=
  let! _ := enqueue_all ws in wait_each ws.*1.

Definition apply_batch_mutations (wal_ops : list BatchOp)
    (shard_mutations : list (nat * ShardMutation)) : M unit :=
  match wal_ops, shard_mutations with
  | [], [] => ret tt
  | _, _ =>
      let! _ := match wal_ops with [] => ret tt | _ => wal_append_batch wal_ops end in
      submit_all (prod_map id mutation_task <$> shard_mutations)
  end.

Definition wait_all_shards : M unit := submit_all ((fun i => (i, [])) <$> seq 0 SHARDS).

(** ** Reads *)

Fixpoint batch_get_loop (keys : list bytes) (principal_id : Z) (res : bytes) : M bytes :=
  match keys with
  | [] => ret res
  | k :: keys' =>
      let! ok := gets (can_read principal_id k) in
      if negb ok then batch_get_loop keys' principal_id res
      else
        let! view := gets (fun e => get_view k (store e)) in
        match view with
        | None => batch_get_loop keys' principal_id res
        | Some view =>
            let! z := gets (fun e => zstd_manager_ (store e)) in
            let! res := lift (if compressed_ view
                              then set_str res k (zstd_decompress (buf_ view) (original_size_ view) z)
                              else set_bytes res k (blob_view view)) in
            batch_get_loop keys' principal_id res
        end
  end.

Definition batch_get (keys : list bytes) (principal_id : Z) : M bytes :=
  batch_get_loop keys principal_id (init_object buffer_default).

(** ** Construction: recovery from the log *)

(** The callback's [op] comparisons; a [WalOp] no branch names does nothing. *)
Definition replay_event (ev : wal_event) (s : Store) : result Store :=
  let key := ev_key ev in
  let p := ev_val ev in
  if bool_decide (ev_op ev = walop_byte PUT) then Ok (apply_put key p s)
  else if bool_decide (ev_op ev = walop_byte PATCH_I64) then
    match find_char Byte.x3a p with
    | None => Ok s
    | Some colon => let? val := stoll (drop (colon + 1) p) in apply_patch_int key (take colon p) val s
    end
  else if bool_decide (ev_op ev = walop_byte PATCH_STR) then
    match find_char Byte.x3a p with
    | None => Ok s
    | Some colon => apply_patch_str key (take colon p) (drop (colon + 1) p) s
    end
  else if bool_decide (ev_op ev = walop_byte DELETE_) then Ok (apply_del key s).2
  else Ok s.

(** The [try] around the callback's body. *)
Definition replay_skip (ev : wal_event) (s : Store) : Store :=
  match replay_event ev s with Ok s' => s' | Throw _ => s end.

Definition replay (evs : list wal_event) (s : Store) : Store :=
  foldl (fun s ev => replay_skip ev s) s evs.

(** The constructor, on a log file with the given contents. *)
Definition engine_open (contents : bytes) (node : Z) (readings : list Z)
    (answers : list write_result) : Engine :=
  let '(evs, w) := recover (wal_open contents) in
  mkEngine (replay evs store_new) w (hlc_new node) (replicate SHARDS []) readings answers.

End Engine.

Notation "'let!' x ':=' c1 'in' c2" := (bind c1 (fun x => c2))
  (at level 10, x pattern, c1 at level 100, c2 at level 200) : l3kv_scope.
