(* ===== verification/Recovery.v ===== *)
(** * Recovery of the engine from its log

    A history of synchronous calls of the engine, a crash at any byte of the last record
    written, and the constructor on what the file then holds: the store is what it was
    after the last completely logged call.  The write path logs every operation before it
    applies it, and the recovery callback of the constructor undoes the encoding. *)
From S2P Require Import Prelude CxxString Clock Extern Merkle Wal OrdMap Blob Credential.
From S2P Require Import KeyBuilder ReplicationLog Samples Store StoreSpec Engine.

Section Recovery.
Context {xxh : XXH3} {l3 : Lite3} {zs : Zstd} {srt : StdSort}.

(** ** Histories *)

Inductive api_call :=
| CPut (key body : bytes) (principal : Z)
| CPatchInt (key field : bytes) (val : Z)
| CPatchStr (key field val : bytes)
| CDel (key : bytes) (principal : Z)
| CMutation (m : Mutation).

Local Open Scope l3kv_scope.

(** The value a replicated mutation logs is read through a view of a dead string; here it
    still holds the value. *)
Definition run_call (c : api_call) : M unit :=
  match c with
  | CPut k b p => put k b p
  | CPatchInt k f v => patch_int k f v
  | CPatchStr k f v => patch_str k f v
  | CDel k p => let! _ := del k p in ret tt
  | CMutation m => apply_mutation id m
  end.

Fixpoint run_calls (cs : list api_call) : M unit :=
  match cs with
  | [] => ret tt
  | c :: cs' => let! _ := run_call c in run_calls cs'
  end.

Definition call_key (c : api_call) : bytes :=
  match c with
  | CPut k _ _ | CPatchInt k _ _ | CPatchStr k _ _ | CDel k _ => k
  | CMutation m => m_key m
  end.

(** The key fits the log's length field, a patched field contains no colon and an integer
    is an [int64_t]. *)
Definition loggable (c : api_call) : Prop :=
  zlen (call_key c) < 2 ^ 16 /\
  match c with
  | CPatchInt _ f v => Byte.x3a ∉ f /\ - 2 ^ 63 <= v < 2 ^ 63
  | CPatchStr _ f _ => Byte.x3a ∉ f
  | _ => True
  end.

(** ** What the log says about the store *)

(** A log entry that encodes a store operation. *)
Inductive logs : BatchOp -> store_op -> Prop :=
| logs_put k v : logs (mkBatchOp PUT k v) (SPut k v)
| logs_del k : logs (mkBatchOp DELETE_ k []) (SDel k)
| logs_patch_int k f v : Byte.x3a ∉ f -> - 2 ^ 63 <= v < 2 ^ 63 ->
    logs (mkBatchOp PATCH_I64 k (f ++ str ":" ++ to_string v)) (SPatchInt k f v)
| logs_patch_str k f v : Byte.x3a ∉ f ->
    logs (mkBatchOp PATCH_STR k (f ++ str ":" ++ v)) (SPatchStr k f v).

Record log_inv (e : Engine) : Prop := {
  li_idle : messages e = replicate SHARDS [];
  li_wal : wal_wf (wal_ e);
  li_answers : Forall progress (write_answers e);
  li_log : exists rs, file (wal_ e) = log_bytes rs /\ Forall record_wf rs /\
    store e = replay (concat (events_of <$> rs)) store_new
}.

(** ** Lemmas: appending *)

Lemma write_loop_progress answers : forall data w ok w' rest,
  Forall progress answers -> write_loop answers data w = Some (ok, w', rest) ->
  ok = true /\ Forall progress rest.
Proof.
  induction answers as [|a answers IH]; intros data w ok w' rest Ha H;
    destruct data as [|b data]; cbn [write_loop] in H; simplify_eq; try done.
  inversion Ha as [|? ? Hp Ha']; subst. destruct a as [n|x]; [by eapply IH|].
  simpl in Hp. subst x. rewrite Z.eqb_refl in H. by eapply IH.
Qed.

Lemma append_batch_file answers o ops w w' rest :
  wal_wf w -> Forall progress answers -> append_batch answers (o :: ops) w = Some (w', rest) ->
  wal_wf w' /\ Forall progress rest /\ file w' = file w ++ batch_buffer (o :: ops).
Proof.
  intros Hw Ha H. unfold append_batch, write_raw in H.
  destruct (batch_buffer (o :: ops)) as [|b d] eqn:E.
  { by simplify_eq. }
  destruct (write_loop answers (b :: d) w) as [[[ok w1] r1]|] eqn:Ew; [|done].
  destruct (write_loop_progress _ _ _ _ _ _ Ha Ew) as [-> Hr].
  destruct (write_loop_spec _ _ _ _ _ _ Hw Ew) as (H1 & _ & H2 & _).
  destruct (H2 eq_refl) as [H3 _]. simplify_eq. done.
Qed.

(** ** Lemmas: replaying what was logged *)

Lemma take_zlen (l : bytes) z : zlen l = z -> take (Z.to_nat z) l = l.
Proof. intros <-. unfold zlen. rewrite Nat2Z.id. by apply take_ge. Qed.

Lemma colon_split f t :
  Byte.x3a ∉ f -> find_char Byte.x3a (f ++ str ":" ++ t) = Some (length f) /\
  take (length f) (f ++ str ":" ++ t) = f /\ drop (length f + 1) (f ++ str ":" ++ t) = t.
Proof.
  intros Hf. change (str ":" ++ t) with (Byte.x3a :: t). split; [by apply find_char_app|].
  split; [by rewrite take_app_length|]. rewrite <- drop_drop, drop_app_length. done.
Qed.

Lemma replay_logged b o s :
  logs b o -> zlen (bkey b) < 2 ^ 16 -> zlen (bvalue b) < 2 ^ 32 ->
  replay_skip (entry_event b) s = run_op_skip o s.
Proof.
  intros Hl Hk Hv. unfold replay_skip, entry_event.
  rewrite (take_zlen (bkey b)), (take_zlen (bvalue b)).
  2:{ symmetry. apply u32_small. split; [apply zlen_nonneg|done]. }
  2:{ symmetry. apply u16_small. split; [apply zlen_nonneg|done]. }
  inversion Hl as [k v|k|k f v Hf Hr|k f v Hf]; subst; unfold replay_event, run_op_skip;
    cbn [bop bkey bvalue ev_op ev_key ev_val].
  - by rewrite bool_decide_eq_true_2.
  - do 3 (rewrite bool_decide_eq_false_2 by done). by rewrite bool_decide_eq_true_2.
  - rewrite bool_decide_eq_false_2, bool_decide_eq_true_2 by done.
    destruct (colon_split f (to_string v) Hf) as (-> & -> & ->).
    by rewrite stoll_to_string.
  - rewrite bool_decide_eq_false_2 by done. rewrite bool_decide_eq_false_2 by done.
    rewrite bool_decide_eq_true_2 by done.
    by destruct (colon_split f v Hf) as (-> & -> & ->).
Qed.

Lemma replay_app l1 l2 s : replay (l1 ++ l2) s = replay l2 (replay l1 s).
Proof. apply foldl_app. Qed.

Definition small_entry (b : BatchOp) : Prop := zlen (bkey b) < 2 ^ 16 /\ zlen (bvalue b) < 2 ^ 32.

Lemma replay_batch bs t : forall s,
  Forall2 logs bs t -> Forall small_entry bs -> replay (entry_event <$> bs) s = run_ops t s.
Proof.
  intros s Hl. revert s. induction Hl as [|b o bs t Hbo _ IH]; intros s Hs; [done|].
  inversion Hs as [|? ? [Hk Hv] Hs']; subst. cbn [fmap list_fmap replay run_ops foldl].
  rewrite (replay_logged b o) by done. by apply IH.
Qed.

(** The values of a batch are part of its payload. *)
Definition entry_size (o : BatchOp) : nat := (1 + 2 + length (bkey o) + 4 + length (bvalue o))%nat.
Definition entries_size (ops : list BatchOp) : nat := foldr (fun o n => entry_size o + n)%nat 0%nat ops.

Lemma entries_size_payload ops : (entries_size ops <= length (batch_payload ops))%nat.
Proof.
  assert (forall n, foldl (fun n o => n + entry_size o)%nat n ops = (n + entries_size ops)%nat) as Hsum.
  { induction ops as [|o ops IH]; intros n; cbn [foldl entries_size foldr]; [lia|].
    rewrite IH. unfold entries_size. lia. }
  unfold batch_payload. rewrite length_app, length_replicate.
  change (batch_payload_size ops) with (foldl (fun n o => n + entry_size o)%nat 4%nat ops).
  rewrite Hsum. lia.
Qed.

Lemma entries_size_elem b ops : b ∈ ops -> (length ops <= entries_size ops /\
  length (bvalue b) <= entries_size ops)%nat.
Proof.
  assert (length ops <= entries_size ops)%nat as Hlen.
  { induction ops as [|o ops IH]; cbn [length entries_size foldr]; [lia|].
    fold (entries_size ops). unfold entry_size. lia. }
  intros Hb. split; [done|]. clear Hlen.
  induction Hb as [|? o ops' _ IH]; cbn [entries_size foldr]; unfold entries_size, entry_size in *; lia.
Qed.

Lemma batch_payload_bounds ops :
  zlen (batch_payload ops) < 2 ^ 32 -> Forall (fun b => zlen (bkey b) < 2 ^ 16) ops ->
  zlen ops < 2 ^ 32 /\ Forall small_entry ops.
Proof.
  intros Hp Hk. pose proof (entries_size_payload ops) as Hle. unfold zlen in Hp. split.
  - destruct ops as [|o ops]; [done|].
    destruct (entries_size_elem o (o :: ops)) as [? _]; [left|]. unfold zlen. lia.
  - rewrite Forall_forall in *. intros b Hb. split; [by apply Hk|].
    destruct (entries_size_elem b ops Hb) as [_ ?]. unfold zlen. lia.
Qed.

Lemma batch_buffer_payload ops : zlen (batch_payload ops) <= zlen (batch_buffer ops).
Proof.
  unfold batch_buffer. rewrite zlen_app.
  match goal with |- _ <= zlen ?h + _ => pose proof (zlen_nonneg h) end. lia.
Qed.

(** The engine after logging [bs] and performing [t]. *)
Lemma log_extend e e' b bs t w ans :
  log_inv e -> append_batch (write_answers e) (b :: bs) (wal_ e) = Some (w, ans) ->
  Forall2 logs (b :: bs) t -> Forall (fun b => zlen (bkey b) < 2 ^ 16) (b :: bs) ->
  wal_ e' = w -> write_answers e' = ans -> messages e' = messages e ->
  store e' = run_ops t (store e) -> zlen (file (wal_ e')) < 2 ^ 32 ->
  log_inv e' /\ call_wf (CallBatch (b :: bs)) /\
  file (wal_ e') = file (wal_ e) ++ batch_buffer (b :: bs).
Proof.
  intros [Hq Hw Ha (rs & Hf & Hrs & Hst)] Happ Hl Hk <- <- Hm Hs' Hsz.
  destruct (append_batch_file _ _ _ _ _ _ Hw Ha Happ) as (Hw' & Ha' & Hf').
  assert (zlen (batch_payload (b :: bs)) < 2 ^ 32) as Hp.
  { rewrite Hf', zlen_app in Hsz. pose proof (zlen_nonneg (file (wal_ e))).
    pose proof (batch_buffer_payload (b :: bs)). lia. }
  destruct (batch_payload_bounds _ Hp Hk) as [Hn Hsmall].
  assert (call_wf (CallBatch (b :: bs))) as Hwf by done.
  destruct (call_record_ok _ Hwf) as (Hr1 & Hr2 & Hr3). cbn [call_record call_bytes call_events] in *.
  split; [|done]. split; [congruence|done|done|].
  exists (rs ++ [batch_record (b :: bs)]). unfold log_bytes. rewrite !fmap_app, !concat_app.
  cbn [fmap list_fmap concat]. rewrite !app_nil_r, Hr2, Hr3. fold (log_bytes rs).
  split; [by rewrite Hf', Hf|]. split; [apply Forall_app; split; [done|]; by apply Forall_singleton|].
  rewrite replay_app, <- Hst. by rewrite (replay_batch _ _ _ Hl Hsmall).
Qed.

(** ** Lemmas: the calls *)

Lemma bind_Ok {A B} (m : M A) (f : A -> M B) e b e' :
  bind m f e = Some (Ok b, e') -> exists a e1, m e = Some (Ok a, e1) /\ f a e1 = Some (Ok b, e').
Proof. unfold bind. intros H. destruct (m e) as [[[a|x] e1]|]; [eauto|done..]. Qed.

Lemma run_task_ok t : forall s s', run_task t s = (None, s') -> s' = run_ops t s.
Proof.
  induction t as [|o t IH]; intros s s' H; cbn in *; [by simplify_eq|]. unfold run_op_skip.
  destruct (run_op o s); [by apply IH|done].
Qed.

Lemma submit_wait_idle h t e e' :
  messages e = replicate SHARDS [] -> (h < SHARDS)%nat -> submit_wait h t e = Some (Ok tt, e') ->
  store e' = run_ops t (store e) /\ messages e' = messages e /\ wal_ e' = wal_ e /\
  write_answers e' = write_answers e.
Proof.
  intros Hm Hh H. unfold submit_wait, enqueue, wait_shard, drain, bind, modify in H.
  cbn [set_messages messages store] in H.
  rewrite list_lookup_alter_eq, Hm, lookup_replicate_2 in H by done. cbn [fmap option_fmap option_map app run_tasks] in H.
  destruct (run_task t (store e)) as [[x|] s] eqn:E; [done|].
  injection H as <-. cbn [set_store set_messages store messages wal_ write_answers].
  apply run_task_ok in E. split; [done|]. split; [|done].
  apply list_eq. intros i. destruct (decide (i = h)) as [->|Hne].
  - rewrite list_lookup_insert_eq, Hm, lookup_replicate_2; [done|done|].
    by rewrite length_alter.
  - by rewrite list_lookup_insert_ne, list_lookup_alter_ne, Hm by done.
Qed.

Lemma clock_now_frame e ts e' :
  clock_now e = Some (Ok ts, e') ->
  store e' = store e /\ messages e' = messages e /\ wal_ e' = wal_ e /\
  write_answers e' = write_answers e.
Proof. unfold clock_now. intros H. destruct (hlc_now _ _) as [[[]]|]; by simplify_eq/=. Qed.

Lemma log_inv_frame e e' :
  log_inv e -> store e' = store e -> messages e' = messages e -> wal_ e' = wal_ e ->
  write_answers e' = write_answers e -> log_inv e'.
Proof. intros [H1 H2 H3 H4] E1 E2 E3 E4. split; [congruence..|]. by rewrite E3, E1. Qed.

Lemma lift_Ok {A} (o : option A) e a e' : lift o e = Some (Ok a, e') -> o = Some a /\ e' = e.
Proof. unfold lift, ret, throw. intros H. by destruct o; simplify_eq. Qed.

Lemma meta_key_short key : zlen (meta_key key) < 2 ^ 16.
Proof.
  unfold meta_key, zlen. destruct (Nat.leb_spec MAX_KEY_SIZE (length (meta_text key))) as [|H]; [done|].
  unfold MAX_KEY_SIZE in H. lia.
Qed.

(** What one call adds to the log. *)
Definition logged_one (e e' : Engine) : Prop :=
  log_inv e' /\
  ((file (wal_ e') = file (wal_ e) /\ store e' = store e) \/
   exists ops, call_wf (CallBatch ops) /\ file (wal_ e') = file (wal_ e) ++ batch_buffer ops).

(** Logging two entries and running their task on a shard's thread. *)
Lemma commit_logged key b1 b2 o1 o2 e e' :
  log_inv e ->
  bind (wal_append_batch [b1; b2]) (fun _ => submit_to_shard key [o1; o2]) e = Some (Ok tt, e') ->
  logs b1 o1 -> logs b2 o2 -> zlen (bkey b1) < 2 ^ 16 -> zlen (bkey b2) < 2 ^ 16 ->
  zlen (file (wal_ e')) < 2 ^ 32 -> logged_one e e'.
Proof.
  intros Hi H L1 L2 K1 K2 Hsz. apply bind_Ok in H as (u & e1 & Happ & Hsub).
  unfold wal_append_batch in Happ.
  destruct (append_batch _ _ _) as [[w ans]|] eqn:E; [|done].
  assert (messages e1 = messages e /\ store e1 = store e /\ wal_ e1 = w /\ write_answers e1 = ans)
    as (A1 & A2 & A3 & A4) by (injection Happ as <- <-; done).
  assert (messages e1 = replicate SHARDS []) as Hm by (rewrite A1; apply Hi).
  destruct (submit_wait_idle _ _ _ _ Hm (routing_lt key) Hsub) as (F1 & F2 & F3 & F4).
  destruct (log_extend e e' b1 [b2] [o1; o2] w ans) as (G1 & G2 & G3); try congruence;
    [by repeat constructor|..].
  { repeat (apply Forall_cons; split; [done|]). by apply Forall_nil. }
  split; [done|]. right. eauto.
Qed.

Lemma logged_one_frame e e1 e' :
  store e1 = store e -> wal_ e1 = wal_ e -> logged_one e1 e' -> logged_one e e'.
Proof. intros E1 E2 [Hi H]. split; [done|]. by rewrite <- E2, <- E1. Qed.

(** The calls that take a timestamp, log two entries and run them. *)
Lemma stamped_logged {A} (f : A -> M unit) (m : M A) key e e' (b1 b2 : A -> BatchOp) (o1 o2 : A -> store_op) :
  log_inv e ->
  (forall a e1, m e = Some (Ok a, e1) -> store e1 = store e /\ messages e1 = messages e /\
     wal_ e1 = wal_ e /\ write_answers e1 = write_answers e) ->
  (forall a, f a = bind (wal_append_batch [b1 a; b2 a]) (fun _ => submit_to_shard key [o1 a; o2 a])) ->
  (forall a, logs (b1 a) (o1 a) /\ logs (b2 a) (o2 a) /\ zlen (bkey (b1 a)) < 2 ^ 16 /\
     zlen (bkey (b2 a)) < 2 ^ 16) ->
  bind m f e = Some (Ok tt, e') -> zlen (file (wal_ e')) < 2 ^ 32 -> logged_one e e'.
Proof.
  intros Hi Hm Hf Hl H Hsz. apply bind_Ok in H as (a & e1 & H1 & H2).
  destruct (Hm a e1 H1) as (F1 & F2 & F3 & F4). rewrite Hf in H2.
  destruct (Hl a) as (L1 & L2 & K1 & K2). apply (logged_one_frame e e1 e' F1 F3).
  by apply (commit_logged key (b1 a) (b2 a) (o1 a) (o2 a)); [apply (log_inv_frame e)|..].
Qed.

Lemma stamp_meta_frame tomb e p e' :
  bind clock_now (fun now => lift (meta_doc now tomb)) e = Some (Ok p, e') ->
  store e' = store e /\ messages e' = messages e /\ wal_ e' = wal_ e /\
  write_answers e' = write_answers e.
Proof. intros (ts & e1 & H1%clock_now_frame & [_ ->]%lift_Ok)%bind_Ok. done. Qed.

Lemma bind_assoc {A B C} (m : M A) (f : A -> M B) (g : B -> M C) e :
  bind m (fun a => bind (f a) g) e = bind (bind m f) g e.
Proof. unfold bind. by destruct (m e) as [[[a|x] e1]|]. Qed.

Lemma put_logged k b p e e' :
  log_inv e -> zlen k < 2 ^ 16 -> put k b p e = Some (Ok tt, e') ->
  zlen (file (wal_ e')) < 2 ^ 32 -> logged_one e e'.
Proof.
  intros Hi Hk H Hsz. unfold put in H. apply bind_Ok in H as (ok & e0 & [= <- <-] & H).
  destruct (negb _); [done|]. rewrite bind_assoc in H.
  eapply (stamped_logged _ _ (moved_from k) _ _ (fun _ => mkBatchOp PUT k b) (fun mv => mkBatchOp PUT (meta_key k) mv)
    (fun _ => SPut k b) (fun mv => SPut (meta_key k) mv)); [done| |done| |exact H|done].
  - intros a e1 H1. by apply stamp_meta_frame in H1.
  - intros mv. split; [constructor|]. split; [constructor|]. split; [done|]. apply meta_key_short.
Qed.

Lemma del_logged k p e r e' :
  log_inv e -> zlen k < 2 ^ 16 -> del k p e = Some (Ok r, e') ->
  zlen (file (wal_ e')) < 2 ^ 32 -> logged_one e e'.
Proof.
  intros Hi Hk H Hsz. unfold del in H. apply bind_Ok in H as (ok & e0 & [= <- <-] & H).
  destruct (negb _); [injection H as <- <-; split; auto|].
  apply bind_Ok in H as (now & e1 & H1 & H). apply bind_Ok in H as (mv & e2 & H2 & H).
  apply bind_Ok in H as (u & e3 & H3 & H). apply bind_Ok in H as (ex & e4 & [= <- <-] & H).
  apply bind_Ok in H as ([] & e5 & H4 & [= <- <-]).
  apply clock_now_frame in H1 as (F1 & F2 & F3 & F4). apply lift_Ok in H2 as [_ ->].
  apply (logged_one_frame e e1); [done..|].
  apply (commit_logged k (mkBatchOp DELETE_ k []) (mkBatchOp PUT (meta_key k) mv) (SDel k)
    (SPut (meta_key k) mv)); [by apply (log_inv_frame e)| |constructor|constructor|done| |done].
  - unfold bind. by rewrite H3.
  - apply meta_key_short.
Qed.

Lemma mutation_logged m e e' :
  log_inv e -> zlen (m_key m) < 2 ^ 16 -> apply_mutation id m e = Some (Ok tt, e') ->
  zlen (file (wal_ e')) < 2 ^ 32 -> logged_one e e'.
Proof.
  intros Hi Hk H Hsz. unfold apply_mutation in H. apply bind_Ok in H as (buf & e0 & [= _ <-] & H).
  apply bind_Ok in H as (lts & e1 & [_ ->]%lift_Ok & H).
  destruct (ts_leb _ _); [injection H as <-; split; auto|].
  apply bind_Ok in H as (mv & e2 & [_ ->]%lift_Ok & H).
  apply bind_Ok in H as (u & e3 & H3 & H). apply bind_Ok in H as (u' & e4 & [= _ <-] & [= <-]).
  unfold wal_append_batch in H3. destruct (append_batch _ _ _) as [[w ans]|] eqn:E; [|done].
  injection H3 as _ <-.
  destruct (log_extend e (set_store (apply_put (meta_key (m_key m)) mv
      (if m_is_delete m then (apply_del (m_key m) (store e)).2
       else apply_put (m_key m) (m_value m) (store e)))
      (mkEngine (store e) w (clock_ e) (messages e) (clock_readings e) ans))
    _ _ [if m_is_delete m then SDel (m_key m) else SPut (m_key m) (m_value m);
         SPut (meta_key (m_key m)) mv] w ans Hi E) as (G1 & G2 & G3); try done.
  - destruct (m_is_delete m); repeat constructor.
  - apply Forall_cons; split; [by destruct (m_is_delete m)|].
    apply Forall_cons; split; [apply meta_key_short|]. by apply Forall_nil.
  - by destruct (m_is_delete m).
  - split; [done|]. right. eauto.
Qed.

Lemma run_call_logged c e e' :
  log_inv e -> loggable c -> run_call c e = Some (Ok tt, e') -> zlen (file (wal_ e')) < 2 ^ 32 ->
  logged_one e e'.
Proof.
  intros Hi [Hk Hc] H Hsz. destruct c as [k b p|k f v|k f v|k p|m]; cbn [run_call call_key] in *.
  - by eapply put_logged.
  - destruct Hc as [Hf Hv].
    eapply (stamped_logged _ _ (moved_from k) _ _ _ _ (fun _ => SPatchInt k f v)
      (fun now => SPatchStr (meta_key k) f (ts_text now))); [done| |done| |exact H|done].
    + intros a e1 H1. by apply clock_now_frame in H1.
    + intros now. split; [by constructor|]. split; [by constructor|]. split; [done|]. apply meta_key_short.
  - eapply (stamped_logged _ _ (moved_from k) _ _ _ _ (fun _ => SPatchStr k f v)
      (fun now => SPatchStr (meta_key k) f (ts_text now))); [done| |done| |exact H|done].
    + intros a e1 H1. by apply clock_now_frame in H1.
    + intros now. split; [by constructor|]. split; [by constructor|]. split; [done|]. apply meta_key_short.
  - apply bind_Ok in H as (r & e1 & H1 & [= <-]). by eapply del_logged.
  - by apply (mutation_logged m).
Qed.

(** ** Lemmas: the log only grows *)

Definition healthy (e : Engine) : Prop := wal_wf (wal_ e) /\ Forall progress (write_answers e).

Definition grows {A} (m : M A) : Prop := forall e r e',
  healthy e -> m e = Some (r, e') -> healthy e' /\ file (wal_ e) `prefix_of` file (wal_ e').

Lemma grows_frame {A} (m : M A) :
  (forall e r e', m e = Some (r, e') -> wal_ e' = wal_ e /\ write_answers e' = write_answers e) ->
  grows m.
Proof. intros Hm e r e' He [E1 E2]%Hm. unfold healthy. by rewrite E1, E2. Qed.

Lemma grows_bind {A B} (m : M A) (f : A -> M B) :
  grows m -> (forall a, grows (f a)) -> grows (bind m f).
Proof.
  intros Hm Hf e r e' He H. unfold bind in H.
  destruct (m e) as [[[a|x] e1]|] eqn:E; [|simplify_eq; by eapply Hm|done].
  destruct (Hm _ _ _ He E) as [H1 H2]. destruct (Hf a _ _ _ H1 H) as [H3 H4].
  split; [done|]. by etrans.
Qed.

Lemma grows_ret {A} (a : A) : grows (ret a).
Proof. apply grows_frame. by intros e r e' [= <- <-]. Qed.
Lemma grows_throw {A} x : grows (A := A) (throw x).
Proof. apply grows_frame. by intros e r e' [= <- <-]. Qed.
Lemma grows_gets {A} (f : Engine -> A) : grows (gets f).
Proof. apply grows_frame. by intros e r e' [= <- <-]. Qed.
Lemma grows_lift {A} (o : option A) : grows (lift o).
Proof. destruct o; [apply grows_ret|apply grows_throw]. Qed.
Lemma grows_set_store (f : Engine -> Store) : grows (modify (fun e => set_store (f e) e)).
Proof. apply grows_frame. by intros e r e' [= <- <-]. Qed.
Lemma grows_clock : grows clock_now.
Proof.
  apply grows_frame. intros e r e' H. unfold clock_now in H.
  destruct (hlc_now _ _) as [[[]]|]; by simplify_eq/=.
Qed.
Lemma grows_submit h t : grows (submit_wait h t).
Proof.
  apply grows_bind.
  - apply grows_frame. by intros e r e' [= <- <-].
  - intros _. apply grows_frame. intros e r e' H. unfold wait_shard, drain in H.
    destruct (messages e !! h); [destruct (run_tasks _ _)|]; by simplify_eq/=.
Qed.
Lemma grows_append ops : grows (wal_append_batch ops).
Proof.
  intros e r e' [Hw Ha] H. unfold wal_append_batch in H.
  destruct (append_batch _ _ _) as [[w ans]|] eqn:E; [|done]. injection H as <- <-.
  destruct ops as [|o ops]; [injection E as <- <-; done|].
  destruct (append_batch_file _ _ _ _ _ _ Hw Ha E) as (H1 & H2 & H3).
  split; [done|]. cbn. rewrite H3. by eexists.
Qed.

Hint Resolve grows_ret grows_throw grows_gets grows_lift grows_set_store grows_clock
  grows_submit grows_append : l3kv.

Lemma run_call_grows c : grows (run_call c).
Proof.
  destruct c; cbn [run_call]; unfold put, patch_int, patch_str, del, apply_mutation, submit_to_shard;
    repeat (first [ solve [auto with l3kv]
                  | match goal with |- grows (if ?b then _ else _) => destruct b end
                  | apply grows_bind; intros]).
Qed.

Lemma run_calls_grows cs : grows (run_calls cs).
Proof. induction cs as [|c cs IH]; cbn; auto using grows_ret, grows_bind, run_call_grows. Qed.

Lemma log_inv_healthy e : log_inv e -> healthy e.
Proof. by intros []. Qed.

Lemma prefix_zlen (a b : bytes) : a `prefix_of` b -> zlen a <= zlen b.
Proof. intros [k ->]. rewrite zlen_app. pose proof (zlen_nonneg k). lia. Qed.

Lemma run_calls_logged cs : forall e e',
  log_inv e -> Forall loggable cs -> run_calls cs e = Some (Ok tt, e') ->
  zlen (file (wal_ e')) < 2 ^ 32 -> log_inv e'.
Proof.
  induction cs as [|c cs IH]; intros e e' Hi Hl H Hsz; cbn [run_calls] in H; [by injection H as <-|].
  apply Forall_cons in Hl as [Hc Hl]. apply bind_Ok in H as ([] & e1 & H1 & H2).
  destruct (run_call_grows c _ _ _ (log_inv_healthy _ Hi) H1) as [Hh _].
  destruct (run_calls_grows cs _ _ _ Hh H2) as [_ Hp%prefix_zlen].
  eapply IH; [|done..]. by apply (run_call_logged c e e1); [..|lia].
Qed.

(** ** Lemmas: opening a log *)

Lemma log_bytes_nil rs : log_bytes rs = [] -> rs = [].
Proof.
  intros H. pose proof (length_log_bytes rs) as Hl. rewrite H in Hl.
  by destruct rs; [|simpl in Hl; lia].
Qed.

Lemma engine_open_log rs tail node rd ans :
  Forall record_wf rs -> parse_record tail = None ->
  let e := engine_open (log_bytes rs ++ tail) node rd ans in
  store e = replay (concat (events_of <$> rs)) store_new /\ file (wal_ e) = log_bytes rs /\
  wal_wf (wal_ e) /\ messages e = replicate SHARDS [] /\ write_answers e = ans.
Proof.
  intros Hrs Ht. unfold engine_open.
  rewrite (recover_log rs tail (wal_open (log_bytes rs ++ tail)) Hrs Ht eq_refl).
  cbn [wal_open file]. destruct (decide (log_bytes rs ++ tail = [])) as [E|]; [|done].
  cbn. rewrite E. apply app_eq_nil in E as [E _]. rewrite E.
  by rewrite (log_bytes_nil rs E).
Qed.

Lemma engine_open_inv contents node rd ans :
  Forall progress ans -> log_inv (engine_open contents node rd ans).
Proof.
  intros Ha. destruct (log_decomposition contents) as (rs & tail & -> & Hrs & Ht).
  destruct (engine_open_log rs tail node rd ans Hrs Ht) as (H1 & H2 & H3 & H4 & H5).
  split; [done|done|by rewrite H5|]. exists rs. done.
Qed.

(** The engine that opens the log of [e] after a crash has the store of [e]. *)
Lemma log_inv_reopen e node rd ans :
  log_inv e -> store (engine_open (file (wal_ e)) node rd ans) = store e.
Proof.
  intros [_ _ _ (rs & Hf & Hrs & Hs)].
  pose proof (engine_open_log rs [] node rd ans Hrs eq_refl) as H. cbn zeta in H.
  rewrite app_nil_r, <- Hf in H. destruct H as [H _]. by rewrite H.
Qed.

Lemma log_inv_torn e ops n node rd ans :
  log_inv e -> call_wf (CallBatch ops) -> (n < length (batch_buffer ops))%nat ->
  store (engine_open (file (wal_ e) ++ take n (batch_buffer ops)) node rd ans) = store e.
Proof.
  intros [_ _ _ (rs & Hf & Hrs & Hs)] Hwf Hn.
  destruct (call_record_ok _ Hwf) as (R1 & R2 & _). cbn [call_record call_bytes] in *.
  rewrite <- R2 in *. rewrite Hf.
  destruct (engine_open_log rs _ node rd ans Hrs (parse_record_torn _ _ R1 Hn)) as [H _].
  by rewrite H.
Qed.

(** ** Theorem *)

(** A crash during one call. *)
Lemma crash_one_call c e e' n node rd ans :
  log_inv e -> loggable c -> run_call c e = Some (Ok tt, e') -> zlen (file (wal_ e')) < 2 ^ 32 ->
  (length (file (wal_ e)) <= n <= length (file (wal_ e')))%nat ->
  store (engine_open (take n (file (wal_ e'))) node rd ans) =
  if decide (n = length (file (wal_ e'))) then store e' else store e.
Proof.
  intros Hi Hc Hcall Hsz Hn. destruct (run_call_logged c e e' Hi Hc Hcall Hsz) as [Hi' Hcase].
  destruct (decide (n = length (file (wal_ e')))) as [->|Hne].
  { rewrite take_ge by lia. by apply log_inv_reopen. }
  destruct Hcase as [[Hf _]|(ops & Hwf & Hf)]; [rewrite Hf in *; lia|].
  rewrite Hf in *. rewrite length_app in *.
  replace n with (length (file (wal_ e)) + (n - length (file (wal_ e))))%nat by lia.
  rewrite take_app_add. by apply log_inv_torn; [..|lia].
Qed.

(** The first [n] bytes of the log end inside the record of the first call of [lost]. *)
Definition torn_at (n : nat) (lost : list api_call) (e : Engine) : Prop :=
  (length (file (wal_ e)) <= n)%nat /\
  match lost with
  | [] => True
  | c :: _ => exists e', run_call c e = Some (Ok tt, e') /\ (n < length (file (wal_ e')))%nat
  end.

Lemma cut_calls cs node rd ans : forall e e' n,
  log_inv e -> Forall loggable cs -> run_calls cs e = Some (Ok tt, e') -> zlen (file (wal_ e')) < 2 ^ 32 ->
  (length (file (wal_ e)) <= n <= length (file (wal_ e')))%nat ->
  exists kept lost ek, cs = kept ++ lost /\ run_calls kept e = Some (Ok tt, ek) /\ torn_at n lost ek /\
    store (engine_open (take n (file (wal_ e'))) node rd ans) = store ek.
Proof.
  induction cs as [|c cs IH]; intros e e' n Hi Hcs Hrun Hsz Hn; cbn [run_calls] in Hrun.
  { injection Hrun as <-. exists [], [], e. split; [done|]. split; [done|]. split; [by split; [lia|]|].
    rewrite take_ge by lia. by apply log_inv_reopen. }
  apply Forall_cons in Hcs as [Hc Hcs]. apply bind_Ok in Hrun as ([] & e1 & H1 & H2).
  destruct (run_call_grows c _ _ _ (log_inv_healthy _ Hi) H1) as [Hh [l1 Hf1]].
  destruct (run_calls_grows cs _ _ _ Hh H2) as [_ Hp]. pose proof (prefix_zlen _ _ Hp) as Hlen. destruct Hp as [l Hf].
  destruct (decide (n < length (file (wal_ e1)))%nat) as [Hlt|Hge].
  - exists [], (c :: cs), e. split; [done|]. split; [done|]. split; [split; [lia|by exists e1]|].
    rewrite Hf, take_app_le by lia. rewrite (crash_one_call c e e1 n) by (done || lia). by rewrite decide_False by lia.
  - destruct (run_call_logged c e e1 Hi Hc H1 ltac:(lia)) as [Hi1 _].
    destruct (IH e1 e' n Hi1 Hcs H2 Hsz ltac:(lia)) as (kept & lost & ek & -> & Hk & Ht & Hs).
    exists (c :: kept), lost, ek. split; [done|]. split; [|done]. cbn [run_calls]. unfold bind. by rewrite H1.
Qed.

(** C4: calls are atomic and durable across a crash.  Start from any log file and run any
    sequence of [put], [patch_int], [patch_str], [del] and [apply_mutation] calls that
    succeed, whose keys are shorter than 2^16 bytes, whose patched integers have 64 bits and
    whose patched fields have no colon in their names ([loggable]), with write calls that make
    progress, a log below 4 GB, and the string a replicated value's log entry views still intact
    when it is written ([run_call]; with a colon or a dead string something else is logged); say
    that [Engine::flush] was called after the calls [synced].  Let the crash cut
    the log at any byte that had not been flushed.  The engine that recovers from it has exactly
    the store after some of the calls, all of [synced] and as many of the others as have their
    records complete: no later call survives without an earlier one, and a value and its
    metadata are never separated. *)
Theorem crash_atomicity synced cs es e contents node rd ans n node' rd' ans' :
  Forall progress ans -> Forall loggable (synced ++ cs) ->
  run_calls synced (engine_open contents node rd ans) = Some (Ok tt, es) ->
  run_calls cs es = Some (Ok tt, e) -> zlen (file (wal_ e)) < 2 ^ 32 ->
  (length (file (wal_ es)) <= n <= length (file (wal_ e)))%nat ->
  exists kept lost ek, cs = kept ++ lost /\ run_calls kept es = Some (Ok tt, ek) /\ torn_at n lost ek /\
    store (engine_open (take n (file (wal_ e))) node' rd' ans') = store ek.
Proof.
  intros Ha [Hs Hcs]%Forall_app Hrun Hcalls Hsz Hn.
  pose proof (engine_open_inv contents node rd ans Ha) as Hi0.
  destruct (run_calls_grows synced _ _ _ (log_inv_healthy _ Hi0) Hrun) as [Hh _].
  destruct (run_calls_grows cs _ _ _ Hh Hcalls) as [_ Hp%prefix_zlen].
  apply (cut_calls cs node' rd' ans'); [|done..].
  apply (run_calls_logged synced (engine_open contents node rd ans)); [exact Hi0|exact Hs|exact Hrun|lia].
Qed.

End Recovery.

(** ** A concrete history *)

Definition history : list api_call :=
  [CPut (str "k") (str "v1") ADMIN_UID; CPatchInt (str "obj") (str "n") 7].
Definition last_call : api_call :=
  CMutation (mkMutation (mkTimestamp 90 0 2) (str "k") (str "v2") false).
Definition sample_answers : list write_result := [Wrote 1; WriteError 4; Wrote 10000; Wrote 10000; Wrote 10000].

Definition start : Engine := engine_open (str "junk") 1 [10; 20] sample_answers.

Definition run_ok {A} (o : option (result A * Engine)) : option Engine :=
  match o with Some (Ok _, e) => Some e | _ => None end.

Lemma run_ok_Some {A} (o : option (result A * Engine)) e :
  run_ok o = Some e -> exists a, o = Some (Ok a, e).
Proof. destruct o as [[[a|x] e']|]; intros H; simplify_eq/=; eauto. Qed.

(** The size of the log before and after one more call. *)
Definition log_sizes (r : option (result unit * Engine)) (c : api_call) : option (Z * Z) :=
  e ← run_ok r;
  e' ← run_ok (run_call c e);
  Some (zlen (file (wal_ e)), zlen (file (wal_ e'))).

Lemma log_sizes_Some r c a b :
  log_sizes r c = Some (a, b) ->
  exists e e', r = Some (Ok tt, e) /\ run_call c e = Some (Ok tt, e') /\
    zlen (file (wal_ e)) = a /\ zlen (file (wal_ e')) = b.
Proof.
  intros (e & [[] E1]%run_ok_Some & Hs)%bind_Some.
  apply bind_Some in Hs as (e' & [[] E2]%run_ok_Some & Hs). injection Hs as Ha Hb. by exists e, e'.
Qed.

Lemma log_sizes_value : log_sizes (run_calls history start) last_call = Some (320, 589).
Proof. vm_compute. reflexivity. Qed.

Lemma history_loggable : Forall loggable (history ++ [last_call]).
Proof.
  cbn [history last_call app]. apply Forall_cons. split; [split; [reflexivity|exact I]|].
  apply Forall_cons. split.
  { split; [reflexivity|]. split; [|lia]. intros Hin. by apply list_elem_of_singleton in Hin. }
  apply Forall_cons. split; [split; [reflexivity|exact I]|]. apply Forall_nil; exact I.
Qed.

(** The second call is flushed, the record of the third one is torn. *)
Lemma crash_atomicity_witness :
  exists es e ek kept lost, run_calls history start = Some (Ok tt, es) /\ run_calls [last_call] es = Some (Ok tt, e) /\
    [last_call] = kept ++ lost /\ run_calls kept es = Some (Ok tt, ek) /\
    torn_at (length (file (wal_ es)) + 30) lost ek /\
    store (engine_open (take (length (file (wal_ es)) + 30) (file (wal_ e))) 1 [] []) = store ek.
Proof.
  destruct (log_sizes_Some _ _ _ _ log_sizes_value) as (es & e & E1 & E2 & Ha & Hb).
  assert (run_calls [last_call] es = Some (Ok tt, e)) as E3 by (cbn [run_calls]; unfold bind; rewrite E2; reflexivity).
  unfold zlen in Ha, Hb.
  destruct (crash_atomicity history [last_call] es e (str "junk") 1 [10; 20] sample_answers
    (length (file (wal_ es)) + 30) 1 [] []) as (kept & lost & ek & Hk);
    [|apply history_loggable|exact E1|exact E3|unfold zlen; lia|lia|exists es, e, ek, kept, lost; exact (conj E1 (conj E3 Hk))].
  repeat (apply Forall_cons; split; [vm_compute; lia || reflexivity|]). apply Forall_nil; exact I.
Defined.
