(* ===== verification/Lww.v ===== *)
(** * Last-writer-wins replication (src/engine/store.hpp, Engine::apply_mutation)

    Replicas that apply the same set of mutations, in any order and with any repetitions,
    end with the same documents: for each key that of the mutation with the greatest
    timestamp.  The specification is a function from the mutations applied so far to the
    contents of the store. *)
From S2P Require Import Prelude CxxString Clock Extern Merkle Wal OrdMap Blob Credential.
From S2P Require Import KeyBuilder ReplicationLog Samples Store StoreSpec Engine.

(** ** Specification *)

Definition zero_ts : Timestamp := mkTimestamp 0 0 0.

Definition acc_ts (acc : option Mutation) : Timestamp :=
  match acc with Some mu => m_timestamp mu | None => zero_ts end.

(** The mutation of key [k] that wins in a sequence. *)
Definition beat (k : bytes) (acc : option Mutation) (mu : Mutation) : option Mutation :=
  if decide (m_key mu = k) then
    if ts_leb (m_timestamp mu) (acc_ts acc) then acc else Some mu
  else acc.

Definition winner (k : bytes) (ms : list Mutation) : option Mutation := foldl (beat k) None ms.

(** What "winning" means, independently of the order. *)
Record newest (k : bytes) (ms : list Mutation) (mu : Mutation) : Prop := {
  nw_in : mu ∈ ms;
  nw_key : m_key mu = k;
  nw_pos : ts_lt zero_ts (m_timestamp mu);
  nw_max : forall mu', mu' ∈ ms -> m_key mu' = k ->
    ts_leb (m_timestamp mu') (m_timestamp mu) = true
}.

(** Keys with a metadata key of their own that are not metadata keys themselves. *)
Definition data_key (k : bytes) : bool :=
  negb (bool_decide (Byte.x00 ∈ k)) && (length k <? 1019)%nat && negb (ends_with k (str ":meta")).

(** The key a metadata key belongs to. *)
Definition strip_meta (x : bytes) : option bytes :=
  if ends_with x (str ":meta") then Some (take (length x - 5) x) else None.

Section Lww.
Context {xxh : XXH3} {l3 : Lite3} {zs : Zstd} {srt : StdSort}.

Definition mut_doc (mu : Mutation) : bytes :=
  if m_is_delete mu then buffer_default else stored_form (m_value mu).

Definition mut_meta (mu : Mutation) : option bytes := meta_doc (m_timestamp mu) (m_is_delete mu).

(** The contents after a sequence of mutations. *)
Definition lww_lookup (ms : list Mutation) (x : bytes) : option bytes :=
  if data_key x then mut_doc <$> winner x ms
  else match strip_meta x with
       | Some k => if data_key k then winner k ms ≫= mut_meta else None
       | None => None
       end.

Record mut_ok (mu : Mutation) : Prop := {
  mo_key : data_key (m_key mu) = true;
  mo_wall : - 2 ^ 63 <= wall_time (m_timestamp mu) < 2 ^ 63;
  mo_logical : 0 <= logical (m_timestamp mu) < 2 ^ 32;
  mo_node : 0 <= node_id (m_timestamp mu) < 2 ^ 32;
  mo_doc : zlen (mut_doc mu) < 2 ^ 32;
  mo_meta : forall d, mut_meta mu = Some d -> zlen d < 2 ^ 32
}.

Fixpoint apply_mutations (stale : bytes -> bytes) (ms : list Mutation) : M unit :=
  match ms with
  | [] => ret tt
  | mu :: ms' => bind (apply_mutation stale mu) (fun _ => apply_mutations stale ms')
  end.

(** ** Lemmas: winners *)

Lemma ts_leb_trans a b c : ts_leb a b = true -> ts_leb b c = true -> ts_leb a c = true.
Proof.
  rewrite !ts_leb_spec. intros [H1| ->] [H2| ->]; auto. left. by transitivity b.
Qed.

Lemma ts_leb_gt a b : ts_leb a b = false -> ts_lt b a.
Proof. unfold ts_leb, ts_gtb, ts_lt. by intros H%negb_false_iff. Qed.

Lemma winner_snoc k ms mu : winner k (ms ++ [mu]) = beat k (winner k ms) mu.
Proof. unfold winner. by rewrite foldl_app. Qed.

Lemma winner_bound k ms mu :
  mu ∈ ms -> m_key mu = k -> ts_leb (m_timestamp mu) (acc_ts (winner k ms)) = true.
Proof.
  induction ms as [|mu' ms IH] using rev_ind; [by intros ?%elem_of_nil|].
  intros Hin Hk. rewrite winner_snoc. unfold beat.
  assert (ts_leb (acc_ts (winner k ms)) (acc_ts (beat k (winner k ms) mu')) = true) as Hmono.
  { unfold beat. destruct (decide _); [|apply ts_leb_spec; by right].
    destruct (ts_leb (m_timestamp mu') (acc_ts (winner k ms))) eqn:E; [apply ts_leb_spec; by right|].
    apply ts_leb_gt in E. apply ts_leb_spec. by left. }
  apply elem_of_app in Hin as [Hin| ->%list_elem_of_singleton].
  - eapply ts_leb_trans; [by apply IH|exact Hmono].
  - rewrite decide_True by done.
    destruct (ts_leb (m_timestamp mu') (acc_ts (winner k ms))) eqn:E; [done|].
    apply ts_leb_spec. by right.
Qed.

Lemma zero_le_acc k ms : ts_leb zero_ts (acc_ts (winner k ms)) = true.
Proof.
  induction ms as [|mu ms IH] using rev_ind; [done|]. rewrite winner_snoc. unfold beat.
  destruct (decide _); [|done].
  destruct (ts_leb (m_timestamp mu) (acc_ts (winner k ms))) eqn:E; [done|]. eapply ts_leb_trans; [done|]. apply ts_leb_gt in E. apply ts_leb_spec. by left.
Qed.

Lemma winner_Some k ms mu : winner k ms = Some mu -> newest k ms mu.
Proof.
  intros H.
  assert (mu ∈ ms /\ m_key mu = k /\ ts_lt zero_ts (m_timestamp mu)) as (H1 & H2 & H3).
  { induction ms as [|mu' ms IH] using rev_ind; [done|]. rewrite winner_snoc in H. unfold beat in H.
    destruct (decide (m_key mu' = k)) as [Hk|].
    - destruct (ts_leb _ _) eqn:E.
      + destruct (IH H) as (? & ? & ?). split; [|done]. apply elem_of_app. by left.
      + simplify_eq. split; [apply elem_of_app; right; left|]. split; [done|].
        pose proof (zero_le_acc (m_key mu) ms) as Hz. apply ts_leb_gt in E.
        apply ts_leb_spec in Hz as [Hz| ->]; [by etrans|done].
    - destruct (IH H) as (? & ? & ?). split; [|done]. apply elem_of_app. by left. }
  split; try done. intros mu' Hin Hk. pose proof (winner_bound k ms mu' Hin Hk) as Hb.
  by rewrite H in Hb.
Qed.

(** Mutations of one key have different timestamps. *)
Definition distinct (ms : list Mutation) : Prop := forall a b,
  a ∈ ms -> b ∈ ms -> m_key a = m_key b -> m_timestamp a = m_timestamp b -> a = b.

Lemma ts_le_antisym a b : ts_leb a b = true -> ts_leb b a = true -> a = b.
Proof.
  rewrite !ts_leb_spec. intros [H1|?] [H2|?]; try done.
  by destruct (irreflexivity ts_lt a); transitivity b.
Qed.

Lemma newest_winner k ms mu : distinct ms -> newest k ms mu -> winner k ms = Some mu.
Proof.
  intros Hd [Hin Hk Hpos Hmax]. pose proof (winner_bound k ms mu Hin Hk) as Hb.
  destruct (winner k ms) as [mu'|] eqn:E.
  - destruct (winner_Some _ _ _ E) as [Hin' Hk' _ Hmax']. f_equal. apply Hd; try done; [congruence|].
    apply ts_le_antisym; [by apply Hmax|done].
  - simpl in Hb. apply ts_leb_spec in Hb as [Hb|Hb].
    + by destruct (irreflexivity ts_lt zero_ts); transitivity (m_timestamp mu).
    + rewrite Hb in Hpos. by destruct (irreflexivity ts_lt zero_ts).
Qed.

Lemma winner_same_set k ms1 ms2 :
  distinct ms1 -> (forall mu, mu ∈ ms1 <-> mu ∈ ms2) -> winner k ms1 = winner k ms2.
Proof.
  intros Hd Hset.
  assert (distinct ms2) as Hd2 by (intros a b Ha Hb; apply Hd; by apply Hset).
  assert (forall l l' mu, (forall mu, mu ∈ l <-> mu ∈ l') -> newest k l mu -> newest k l' mu) as Htr.
  { intros l l' mu Hs [H1 H2 H3 H4]. split; [by apply Hs|done|done|].
    intros mu' Hin. apply H4. by apply Hs. }
  destruct (winner k ms1) as [mu|] eqn:E1.
  - symmetry. apply newest_winner; [done|]. by apply (Htr ms1), winner_Some.
  - destruct (winner k ms2) as [mu|] eqn:E2; [|done].
    rewrite <- E1. apply newest_winner; [done|]. by apply (Htr ms2); [|apply winner_Some].
Qed.

(** The winner of two sequences is the winner of their winners. *)
Lemma winner_app k l1 l2 :
  winner k (l1 ++ l2) = match winner k l2 with Some w => beat k (winner k l1) w | None => winner k l1 end.
Proof.
  induction l2 as [|mu l2 IH] using rev_ind; [by rewrite app_nil_r|].
  rewrite app_assoc, !winner_snoc, IH. clear IH. unfold beat at 1 3. destruct (decide (m_key mu = k)) as [Hk|]; [|done].
  pose proof (zero_le_acc k l1) as Hz. set (acc := winner k l1) in *.
  destruct (winner k l2) as [w|] eqn:Hw; cbn [acc_ts].
  - pose proof (nw_key _ _ _ (winner_Some _ _ _ Hw)) as Hkw. unfold beat. rewrite !decide_True by done.
    destruct (ts_leb (m_timestamp w) (acc_ts acc)) eqn:E1, (ts_leb (m_timestamp mu) (m_timestamp w)) eqn:E2;
      cbn [acc_ts]; rewrite ?E1, ?E2, ?decide_True by done; try done.
    + by rewrite (ts_leb_trans _ _ _ E2 E1).
    + destruct (ts_leb (m_timestamp mu) (acc_ts acc)) eqn:E3; [|done].
      apply ts_leb_gt in E1, E2. apply ts_leb_spec in E3 as [E3|E3].
      * destruct (irreflexivity ts_lt (m_timestamp w)). etrans; [exact E2|]. by etrans.
      * rewrite <- E3 in E1. destruct (irreflexivity ts_lt (m_timestamp w)). by etrans.
  - destruct (ts_leb (m_timestamp mu) zero_ts) eqn:E; [by rewrite (ts_leb_trans _ _ _ E Hz)|].
    unfold beat. by rewrite decide_True.
Qed.

(** ** Lemmas: keys *)

Lemma ends_with_meta k : ends_with (k ++ str ":meta") (str ":meta") = true.
Proof.
  unfold ends_with. rewrite length_app. change (length (str ":meta")) with 5%nat.
  destruct (Nat.leb_spec 5 (length k + 5)); [|lia].
  replace (length k + 5 - 5)%nat with (length k) by lia. rewrite drop_app_length.
  by apply bool_decide_eq_true_2.
Qed.

Lemma strip_meta_app k : strip_meta (k ++ str ":meta") = Some k.
Proof.
  unfold strip_meta. rewrite ends_with_meta, length_app. change (length (str ":meta")) with 5%nat.
  replace (length k + 5 - 5)%nat with (length k) by lia. by rewrite take_app_length.
Qed.

Lemma strip_meta_Some x k : strip_meta x = Some k -> x = k ++ str ":meta".
Proof.
  unfold strip_meta, ends_with. change (length (str ":meta")) with 5%nat. intros H.
  destruct (_ && _) eqn:E; [|done]. bool_prop. injection H as <-.
  match goal with H : drop _ _ = _ |- _ => rewrite <- H end. by rewrite take_drop.
Qed.

Lemma data_key_meta k : data_key k = true -> meta_key k = k ++ str ":meta".
Proof.
  unfold data_key. intros H. bool_prop.
  match goal with H : (_ <? _)%nat = true |- _ => apply Nat.ltb_lt in H as Hlen end.
  unfold meta_key, meta_text. rewrite until_nul_id by done.
  rewrite length_app. change (length (str ":meta")) with 5%nat. unfold MAX_KEY_SIZE.
  destruct (Nat.leb_spec 1024 (length k + 5)); [lia|done].
Qed.

Lemma meta_not_data k : data_key (k ++ str ":meta") = false.
Proof. unfold data_key. rewrite ends_with_meta. by rewrite andb_false_r. Qed.

(** ** Lemmas: metadata documents *)

Context {l3_ok : Lite3Spec} {zs_ok : ZstdSpec} {srt_ok : StdSortSpec}.

Lemma object_stored d : lite3_object d -> stored_form d = d.
Proof. intros (t & ->)%object_tag. done. Qed.

Definition ts_fits (ts : Timestamp) : Prop :=
  - 2 ^ 63 <= wall_time ts < 2 ^ 63 /\ 0 <= logical ts < 2 ^ 32 /\ 0 <= node_id ts < 2 ^ 32.

Definition int_field (d k : bytes) (v : Z) : Prop :=
  get_type d k = Some TInt64 /\ get_i64 d k = Some v.

Lemma int_field_kept k d d' k' v :
  same_fields k d d' -> k' <> k -> int_field d k' v -> int_field d' k' v.
Proof. intros Hs Hne [H1 H2]. destruct (Hs k' Hne) as (E1 & E2 & _). split; congruence. Qed.

(** The fields of a metadata document. *)
Record meta_fields (d : bytes) (ts : Timestamp) (tomb : bool) : Prop := {
  mf_object : lite3_object d;
  mf_ts : int_field d (str "ts") (wall_time ts);
  mf_l : int_field d (str "l") (logical ts);
  mf_n : int_field d (str "n") (node_id ts);
  mf_tomb : if tomb then get_type d (str "tombstone") = Some TBool /\ get_bool d (str "tombstone") = Some true
            else get_type d (str "tombstone") = Some TNull
}.

Lemma meta_doc_fields ts tomb :
  ts_fits ts -> exists d, meta_doc ts tomb = Some d /\ meta_fields d ts tomb.
Proof.
  intros (Hw & Hl & Hn). unfold meta_doc.
  set (d0 := init_object buffer_default).
  destruct (set_i64_ok d0 (str "ts") (wall_time ts) (init_object_ok _) Hw)
    as (d1 & -> & O1 & S1 & T1 & V1). cbn [mbind option_bind].
  destruct (set_i64_ok d1 (str "l") (logical ts) O1 ltac:(lia)) as (d2 & -> & O2 & S2 & T2 & V2).
  cbn [mbind option_bind].
  destruct (set_i64_ok d2 (str "n") (node_id ts) O2 ltac:(lia)) as (d3 & -> & O3 & S3 & T3 & V3).
  cbn [mbind option_bind].
  assert (meta_fields d3 ts false) as [_ Fts Fl Fn Ft].
  { split; [done| | |done|].
    - by apply (int_field_kept _ _ _ _ _ S3), (int_field_kept _ _ _ _ _ S2).
    - by apply (int_field_kept _ _ _ _ _ S3).
    - rewrite (proj1 (S3 (str "tombstone") ltac:(done))), (proj1 (S2 (str "tombstone") ltac:(done))),
        (proj1 (S1 (str "tombstone") ltac:(done))). apply init_object_null. }
  destruct tomb; [|exists d3; split; [done|]; by split].
  destruct (set_bool_ok d3 (str "tombstone") true O3) as (d4 & -> & O4 & S4 & T4 & V4).
  exists d4. split; [done|]. split; [done| | | |done]; by apply (int_field_kept _ _ _ _ _ S4).
Qed.

Lemma fields_timestamp d ts tomb :
  meta_fields d ts tomb -> ts_fits ts -> local_timestamp d = Some ts.
Proof.
  intros [Ho [E1 E2] [_ E3] [_ E4] _] (Hw & Hl & Hn). unfold local_timestamp.
  destruct (object_tag d Ho) as (t & ->). rewrite E1. cbn [mbind option_bind].
  rewrite bool_decide_eq_true_2 by done. cbn [orb].
  rewrite E2, E3, E4. cbn [mbind option_bind]. rewrite !u32_small by done. by destruct ts.
Qed.

Lemma meta_doc_ok ts tomb :
  ts_fits ts -> exists d, meta_doc ts tomb = Some d /\ lite3_object d /\ local_timestamp d = Some ts.
Proof.
  intros Hts. destruct (meta_doc_fields ts tomb Hts) as (d & Hd & Hf).
  exists d. split; [done|]. split; [apply Hf|]. by eapply fields_timestamp.
Qed.

Lemma mut_ok_ts mu : mut_ok mu -> ts_fits (m_timestamp mu).
Proof. intros []. by split; [|split]. Qed.

(** ** Lemmas: the log does not block *)

Definition wrote_count (ans : list write_result) : nat := length (List.filter is_wrote ans).

Definition enough (n : nat) (ans : list write_result) : Prop :=
  Forall progress ans /\ (n <= wrote_count ans)%nat.

Lemma write_loop_enough ans : forall data w n,
  enough (length data + n) ans ->
  exists w' rest, write_loop ans data w = Some (true, w', rest) /\ enough n rest.
Proof.
  induction ans as [|a ans IH]; intros data w n [Hp Hn];
    (destruct data as [|b data]; [eexists _, _; split; [done|]; split; [done|exact Hn]|]);
    unfold wrote_count in Hn; cbn [write_loop]; [simpl in Hn; lia|].
  apply Forall_cons in Hp as [Ha Hp]. destruct a as [k|x]; simpl in Ha, Hn.
  - apply IH. split; [done|]. unfold wrote_count. rewrite length_drop. cbn [length]. lia.
  - subst x. rewrite Z.eqb_refl. apply IH. done.
Qed.

Lemma append_enough ops e n :
  enough (length (batch_buffer ops) + n) (write_answers e) ->
  exists e', wal_append_batch ops e = Some (Ok tt, e') /\ store e' = store e /\
    enough n (write_answers e').
Proof.
  intros Hn. unfold wal_append_batch, append_batch. destruct ops as [|o ops].
  { eexists. split; [done|]. split; [done|]. destruct Hn as [? Hn]. split; [done|].
    cbn [write_answers]. lia. }
  unfold write_raw. destruct (batch_buffer (o :: ops)) as [|b d] eqn:E.
  { eexists. split; [done|]. split; [done|]. done. }
  rewrite <- E in *. destruct (write_loop_enough _ _ (wal_ e) n Hn) as (w & rest & Hw & Hr).
  destruct (batch_buffer (o :: ops)); [done|]. rewrite Hw. eauto.
Qed.

(** ** Lemmas: one mutation *)

Definition kv_inv (ms : list Mutation) (m : kv) : Prop :=
  fits m /\ forall x, docs m !! x = lww_lookup ms x.

Lemma fits_put m k d c : fits m -> zlen d < 2 ^ 32 -> fits (mkKv (<[k := d]> (docs m)) c).
Proof. intros Hm Hd. by apply map_Forall_insert_2. Qed.

Lemma lww_local_ts ms m mu :
  Forall mut_ok ms -> kv_inv ms m -> mut_ok mu ->
  local_timestamp (default buffer_default (docs m !! meta_key (m_key mu))) =
  Some (acc_ts (winner (m_key mu) ms)).
Proof.
  intros Hms [_ Hm] [Hk _ _ _ _ _]. rewrite Hm, data_key_meta by done. unfold lww_lookup.
  rewrite meta_not_data, strip_meta_app, Hk.
  destruct (winner (m_key mu) ms) as [mu'|] eqn:E; cbn [mbind option_bind acc_ts].
  - destruct (winner_Some _ _ _ E) as [Hin _ _ _]. rewrite Forall_forall in Hms.
    destruct (meta_doc_ok (m_timestamp mu') (m_is_delete mu')) as (d & Hd & _ & Ht);
      [by apply mut_ok_ts, Hms|].
    unfold mut_meta. by rewrite Hd.
  - cbn [default]. by rewrite data_default.
Qed.

Lemma lww_reject ms mu x :
  ts_leb (m_timestamp mu) (acc_ts (winner (m_key mu) ms)) = true ->
  lww_lookup (ms ++ [mu]) x = lww_lookup ms x.
Proof.
  intros H. assert (forall k, winner k (ms ++ [mu]) = winner k ms) as Hw.
  { intros k. rewrite winner_snoc. unfold beat. destruct (decide (m_key mu = k)) as [<-|]; [|done].
    by rewrite H. }
  unfold lww_lookup. destruct (data_key x); [by rewrite Hw|].
  destruct (strip_meta x); [|done]. by rewrite Hw.
Qed.

Lemma lww_accept ms m mu mv x :
  ts_leb (m_timestamp mu) (acc_ts (winner (m_key mu) ms)) = false -> mut_ok mu ->
  kv_inv ms m -> mut_meta mu = Some mv ->
  <[meta_key (m_key mu) := mv]> (<[m_key mu := mut_doc mu]> (docs m)) !! x = lww_lookup (ms ++ [mu]) x.
Proof.
  intros Hts [Hk _ _ _ _ _] [_ Hm] Hmv. rewrite (data_key_meta _ Hk).
  assert (winner (m_key mu) (ms ++ [mu]) = Some mu) as Hw.
  { rewrite winner_snoc. unfold beat. by rewrite decide_True, Hts. }
  assert (forall k, k <> m_key mu -> winner k (ms ++ [mu]) = winner k ms) as Hother.
  { intros k Hne. rewrite winner_snoc. unfold beat. by rewrite decide_False. }
  unfold lww_lookup. destruct (decide (x = m_key mu ++ str ":meta")) as [->|Hx].
  { rewrite lookup_insert_eq, meta_not_data, strip_meta_app, Hk, Hw. done. }
  rewrite lookup_insert_ne by done. destruct (decide (x = m_key mu)) as [->|Hx'].
  { by rewrite lookup_insert_eq, Hk, Hw. }
  rewrite lookup_insert_ne, Hm by done. unfold lww_lookup.
  destruct (data_key x); [by rewrite Hother|].
  destruct (strip_meta x) as [k|] eqn:E; [|done].
  rewrite Hother; [done|]. intros ->. by apply Hx, strip_meta_Some.
Qed.

(** The two store operations of an accepted mutation. *)
Definition mut_ops (mu : Mutation) (mv : bytes) : list store_op :=
  [if m_is_delete mu then SDel (m_key mu) else SPut (m_key mu) (m_value mu);
   SPut (meta_key (m_key mu)) mv].

Lemma accept_implements s ms m mu mv :
  implements s m -> kv_inv ms m -> mut_ok mu -> mut_meta mu = Some mv -> lite3_object mv ->
  ts_leb (m_timestamp mu) (acc_ts (winner (m_key mu) ms)) = false ->
  exists m', implements (run_ops (mut_ops mu mv) s) m' /\ kv_inv (ms ++ [mu]) m'.
Proof.
  intros Him Hinv Hmu Hmv Ho Hts. pose proof Hinv as [Hfit _].
  set (m1 := kv_op_skip (if m_is_delete mu then SDel (m_key mu) else SPut (m_key mu) (m_value mu)) m).
  assert (docs m1 = <[m_key mu := mut_doc mu]> (docs m)) as Hd1
    by (unfold m1, mut_doc; by destruct (m_is_delete mu)).
  assert (fits m1) as Hf1.
  { unfold fits. rewrite Hd1. apply map_Forall_insert_2; [apply (mo_doc _ Hmu)|done]. }
  set (m2 := kv_op_skip (SPut (meta_key (m_key mu)) mv) m1).
  assert (docs m2 = <[meta_key (m_key mu) := mv]> (docs m1)) as Hd2.
  { unfold m2. cbn. by rewrite object_stored. }
  assert (fits m2) as Hf2.
  { unfold fits. rewrite Hd2. apply map_Forall_insert_2; [by apply (mo_meta _ Hmu)|done]. }
  exists m2. split.
  - cbn [mut_ops run_ops foldl]. by do 2 (apply run_op_skip_implements; [|done]).
  - split; [done|]. intros x. rewrite Hd2, Hd1. by apply lww_accept.
Qed.

Definition log_cost (mu : Mutation) (stale : bytes -> bytes) : nat :=
  match mut_meta mu with
  | Some mv =>
      length (batch_buffer [if m_is_delete mu then mkBatchOp DELETE_ (m_key mu) []
                            else mkBatchOp PUT (m_key mu) (stale (m_value mu));
                            mkBatchOp PUT (meta_key (m_key mu)) mv])
  | None => 0
  end.

(** A mutation is rejected and changes nothing, or it is logged and the store has its outcome. *)
Lemma apply_mutation_cases stale ms mu e m :
  implements (store e) m -> kv_inv ms m -> Forall mut_ok ms -> mut_ok mu ->
  apply_mutation stale mu e = Some (Ok tt, e) /\ kv_inv (ms ++ [mu]) m \/
  exists ops s' m', (length (batch_buffer ops) = log_cost mu stale)%nat /\ implements s' m' /\
    kv_inv (ms ++ [mu]) m' /\
    apply_mutation stale mu e =
      match wal_append_batch ops e with Some (_, e1) => Some (Ok tt, set_store s' e1) | None => None end.
Proof.
  intros Him Hinv Hms Hmu.
  destruct (meta_doc_ok (m_timestamp mu) (m_is_delete mu) (mut_ok_ts _ Hmu)) as (mv & Hmv & Ho & _).
  unfold apply_mutation. unfold bind at 1 6. cbn [gets].
  rewrite (get_implements _ _ _ _ Him). change (may_read (check_permission ADMIN_UID _ _)) with true.
  unfold bind at 1 5. rewrite (lww_local_ts ms m mu) by done. cbn [lift ret].
  destruct (ts_leb _ _) eqn:Hts.
  { left. split; [done|]. destruct Hinv as [Hf Hm]. split; [done|]. intros x. by rewrite lww_reject. }
  right. unfold log_cost, mut_meta. rewrite Hmv.
  destruct (accept_implements (store e) ms m mu mv) as (m' & Him' & Hinv'); try done.
  eexists _, _, m'. split; [reflexivity|]. split; [exact Him'|]. split; [exact Hinv'|].
  unfold bind. cbn [lift ret]. unfold wal_append_batch. destruct (append_batch _ _ _) as [[w ans]|]; [|done].
  unfold modify, run_ops, mut_ops, run_op_skip. cbn. by destruct (m_is_delete mu).
Qed.

Lemma apply_mutation_lww stale ms mu e m n :
  implements (store e) m -> kv_inv ms m -> Forall mut_ok ms -> mut_ok mu ->
  enough (log_cost mu stale + n) (write_answers e) ->
  exists e' m', apply_mutation stale mu e = Some (Ok tt, e') /\ implements (store e') m' /\
    kv_inv (ms ++ [mu]) m' /\ enough n (write_answers e').
Proof.
  intros Him Hinv Hms Hmu Hen.
  destruct (apply_mutation_cases stale ms mu e m Him Hinv Hms Hmu) as [[E Hkv]|(ops & s' & m' & Hl & Him' & Hkv & ->)].
  - exists e, m. split; [done|]. split; [done|]. split; [done|]. destruct Hen as [? Hn]. split; [done|]. lia.
  - rewrite <- Hl in Hen. destruct (append_enough _ e n Hen) as (e1 & -> & _ & Hn1). by eexists _, m'.
Qed.

(** Whatever the operating system answers: if the call returns, the mutation is in. *)
Lemma apply_mutation_any stale ms mu e m r e' :
  implements (store e) m -> kv_inv ms m -> Forall mut_ok ms -> mut_ok mu ->
  apply_mutation stale mu e = Some (r, e') ->
  messages e' = messages e /\ exists m', implements (store e') m' /\ kv_inv (ms ++ [mu]) m'.
Proof.
  intros Him Hinv Hms Hmu.
  destruct (apply_mutation_cases stale ms mu e m Him Hinv Hms Hmu) as [[E Hkv]|(ops & s' & m' & _ & Him' & Hkv & E)];
    rewrite E; [intros [= _ <-]; split; [done|]; by exists m|].
  unfold wal_append_batch. destruct (append_batch _ _ _) as [[w ans]|]; [|done]. intros [= _ <-].
  split; [done|]. by exists m'.
Qed.

Definition logs_cost (stale : bytes -> bytes) (ms : list Mutation) : nat :=
  foldr (fun mu n => log_cost mu stale + n)%nat 0%nat ms.

Lemma apply_mutations_lww stale ms' : forall ms e m,
  implements (store e) m -> kv_inv ms m -> Forall mut_ok (ms ++ ms') ->
  enough (logs_cost stale ms') (write_answers e) ->
  exists e' m', apply_mutations stale ms' e = Some (Ok tt, e') /\ implements (store e') m' /\
    kv_inv (ms ++ ms') m'.
Proof.
  induction ms' as [|mu ms' IH]; intros ms e m Him Hinv Hok Hen.
  { exists e, m. by rewrite app_nil_r. }
  pose proof Hok as [Hms Hrest]%Forall_app. apply Forall_cons in Hrest as [Hmu _].
  destruct (apply_mutation_lww stale ms mu e m _ Him Hinv Hms Hmu Hen) as (e1 & m1 & E1 & Him1 & Hinv1 & Hen1).
  replace (ms ++ mu :: ms') with ((ms ++ [mu]) ++ ms') in * by (by rewrite <- app_assoc).
  destruct (IH (ms ++ [mu]) e1 m1) as (e2 & m2 & E2 & H2); [done..|].
  exists e2, m2. split; [|done]. cbn [apply_mutations]. unfold bind. by rewrite E1.
Qed.

Lemma kv_inv_new : kv_inv [] kv_new.
Proof.
  split; [apply map_Forall_empty|]. intros x. unfold lww_lookup, winner. cbn. rewrite lookup_empty.
  destruct (data_key x); [done|]. destruct (strip_meta x); [|done]. by destruct (data_key _).
Qed.

(** ** Theorem *)

(** C5: strong eventual consistency.  Take a set of mutations of data keys shorter than 1019
    bytes (longer ones share a metadata key: [long_keys_share_meta]), with timestamps of their
    C++ types and documents below 4 GB ([mut_ok]), where different mutations of
    a key have different timestamps ([distinct]).  Two fresh nodes that apply them in different
    orders and with different repetitions both accept or reject
    every one without an exception (given enough answers of the operating system for
    their logs), then hold the same document under every key, and the document of a key is
    that of the mutation with the greatest timestamp. *)
Theorem lww_convergence ms1 ms2 node1 node2 rd1 rd2 stale1 stale2 :
  Forall mut_ok ms1 -> distinct ms1 -> (forall mu, mu ∈ ms1 <-> mu ∈ ms2) ->
  exists n, forall ans1 ans2, enough n ans1 -> enough n ans2 ->
  exists e1 e2,
    apply_mutations stale1 ms1 (engine_open [] node1 rd1 ans1) = Some (Ok tt, e1) /\
    apply_mutations stale2 ms2 (engine_open [] node2 rd2 ans2) = Some (Ok tt, e2) /\
    (forall k, plain k (store e1) = plain k (store e2)) /\
    (forall k mu, newest k ms1 mu -> plain k (store e1) = Some (mut_doc mu)).
Proof.
  intros Hok Hd Hset. exists (logs_cost stale1 ms1 + logs_cost stale2 ms2)%nat.
  intros ans1 ans2 [Hp1 Hn1] [Hp2 Hn2].
  assert (enough (logs_cost stale1 ms1) ans1) as Q1 by (split; [done|lia]).
  assert (enough (logs_cost stale2 ms2) ans2) as Q2 by (split; [done|lia]).
  assert (Forall mut_ok ms2) as Hok2.
  { rewrite Forall_forall in *. intros mu Hin. by apply Hok, Hset. }
  destruct (apply_mutations_lww stale1 ms1 [] (engine_open [] node1 rd1 ans1) kv_new)
    as (e1 & m1 & E1 & I1 & [_ L1]); [apply implements_new|apply kv_inv_new|done|exact Q1|].
  destruct (apply_mutations_lww stale2 ms2 [] (engine_open [] node2 rd2 ans2) kv_new)
    as (e2 & m2 & E2 & I2 & [_ L2]); [apply implements_new|apply kv_inv_new|done|exact Q2|].
  exists e1, e2. split; [done|]. split; [done|]. split.
  - intros k. rewrite (im_docs _ _ I1), (im_docs _ _ I2), L1, L2. cbn [app]. unfold lww_lookup.
    destruct (data_key k); [by rewrite (winner_same_set k ms1 ms2)|].
    destruct (strip_meta k) as [k'|]; [|done]. by rewrite (winner_same_set k' ms1 ms2).
  - intros k mu Hnew. rewrite (im_docs _ _ I1), L1. cbn [app]. unfold lww_lookup.
    pose proof (nw_key _ _ _ Hnew) as Hk. pose proof (nw_in _ _ _ Hnew) as Hin.
    rewrite Forall_forall in Hok. rewrite <- Hk at 1. rewrite (mo_key _ (Hok mu Hin)).
    by rewrite (newest_winner k ms1 mu).
Qed.

End Lww.

Definition mut_a : Mutation := mkMutation (mkTimestamp 10 0 1) (str "k") (str "old") false.
Definition mut_b : Mutation := mkMutation (mkTimestamp 10 0 2) (str "k") (str "new") false.
Definition mut_c : Mutation := mkMutation (mkTimestamp 5 3 1) (str "k") [] true.

Lemma samples_mut_ok : Forall mut_ok [mut_a; mut_b; mut_c].
Proof.
  repeat (apply Forall_cons; split; [split; [reflexivity|cbn; lia..|reflexivity|]|]).
  4: { by apply Forall_nil. }
  all: intros d Hd; vm_compute in Hd; injection Hd as <-; by vm_compute.
Qed.

Lemma lww_convergence_witness :
  exists n, forall ans1 ans2, enough n ans1 -> enough n ans2 ->
  exists e1 e2,
    apply_mutations id [mut_a; mut_b; mut_c] (engine_open [] 1 [] ans1) = Some (Ok tt, e1) /\
    apply_mutations id [mut_b; mut_c; mut_a; mut_b] (engine_open [] 2 [] ans2) = Some (Ok tt, e2) /\
    (forall k, plain k (store e1) = plain k (store e2)) /\
    plain (str "k") (store e1) = Some (str "new").
Proof.
  destruct (lww_convergence [mut_a; mut_b; mut_c] [mut_b; mut_c; mut_a; mut_b] 1 2 [] [] id id)
    as [n Hn].
  - apply samples_mut_ok.
  - intros a b Ha Hb _. repeat (apply elem_of_cons in Ha as [->|Ha]); try (by apply elem_of_nil in Ha);
      repeat (apply elem_of_cons in Hb as [->|Hb]); try (by apply elem_of_nil in Hb); by intros [=].
  - intros mu. rewrite !elem_of_cons. tauto.
  - exists n. intros ans1 ans2 H1 H2. destruct (Hn ans1 ans2 H1 H2) as (e1 & e2 & E1 & E2 & Hall & Hnew).
    exists e1, e2. split; [exact E1|]. split; [exact E2|]. split; [exact Hall|].
    apply (Hnew (str "k") mut_b). split; [right; left|reflexivity|reflexivity|].
    intros mu' Hin _. repeat (apply elem_of_cons in Hin as [->|Hin]); try reflexivity.
    apply elem_of_nil in Hin. destruct Hin.
Defined.
