(* ===== verification/EngineProps.v ===== *)
(** * Permissions, batches and queues of the engine (src/engine/store.hpp)

    Denied writes leave no trace; the per-shard tasks of [batch_put] give the same documents
    in whatever order the shard threads get to run; and two ways in which the metadata of a
    key falls behind its document. *)
From S2P Require Import Prelude CxxString Clock Extern Merkle Wal OrdMap Blob Credential.
From S2P Require Import KeyBuilder ReplicationLog Samples Store StoreSpec Engine.

Section EngineProps.
Context {xxh : XXH3} {l3 : Lite3} {zs : Zstd} {srt : StdSort}.

(** ** Lemmas: batches *)

(** What a step of [batch_put] before the log may change. *)
Definition same_but_clock (e e' : Engine) : Prop :=
  store e' = store e /\ wal_ e' = wal_ e /\ messages e' = messages e /\
  write_answers e' = write_answers e.

Lemma same_but_clock_trans e1 e2 e3 :
  same_but_clock e1 e2 -> same_but_clock e2 e3 -> same_but_clock e1 e3.
Proof. unfold same_but_clock. intuition congruence. Qed.

Lemma clock_now_same e r e' : clock_now e = Some (r, e') -> same_but_clock e e'.
Proof.
  unfold clock_now. intros H. destruct (hlc_now _ _) as [[[]]|]; [|done]. by simplify_eq/=.
Qed.

Lemma lift_same {A} (o : option A) e r e' : lift o e = Some (r, e') -> e' = e.
Proof. by destruct o; intros [= <- <-]. Qed.

Lemma lift_ok {A} (o : option A) a e e' : lift o e = Some (Ok a, e') -> o = Some a /\ e' = e.
Proof. by destruct o; intros [= <- <-]. Qed.

Lemma bind_inv {A B} (m : M A) (f : A -> M B) e r e' :
  bind m f e = Some (r, e') ->
  (exists a e1, m e = Some (Ok a, e1) /\ f a e1 = Some (r, e')) \/
  (exists x, m e = Some (Throw x, e') /\ r = Throw x).
Proof. unfold bind. intros H. destruct (m e) as [[[a|x] e1]|]; simplify_eq; eauto. Qed.

Lemma batch_loop_same stale keys : forall batch p acc e r e',
  batch_loop stale keys batch p acc e = Some (r, e') -> same_but_clock e e'.
Proof.
  induction keys as [|key keys IH]; intros batch p acc e r e' H; cbn [batch_loop] in H.
  { by injection H as <- <-. }
  apply bind_inv in H as [(ok & e0 & [= <- <-] & H)|(x & [=] & _)].
  destruct (negb _); [by injection H as <- <-|].
  apply bind_inv in H as [(v & e1 & ->%lift_same & H)|(x & ->%lift_same & _)]; [|done].
  destruct v as [val|]; [|by eapply IH].
  apply bind_inv in H as [(now & e1 & H1 & H)|(x & H1 & _)]; apply clock_now_same in H1; [|done].
  apply bind_inv in H as [(mv & e2 & ->%lift_same & H)|(x & ->%lift_same & _)]; [|done].
  eapply same_but_clock_trans; [done|]. by eapply IH.
Qed.

Lemma same_can_write p k e e' : same_but_clock e e' -> can_write p k e' = can_write p k e.
Proof. intros (E & _). unfold can_write. by rewrite E. Qed.

Lemma batch_loop_denied stale keys : forall batch p acc e r e' k,
  batch_loop stale keys batch p acc e = Some (r, e') -> k ∈ keys -> can_write p k e = false ->
  exists x, r = Throw x.
Proof.
  induction keys as [|key keys IH]; intros batch p acc e r e' k H Hin Hk; [by apply elem_of_nil in Hin|].
  cbn [batch_loop] in H. apply bind_inv in H as [(ok & e0 & [= <- <-] & H)|(x & [=] & _)].
  destruct (can_write p key e) eqn:Hkey; cbn [negb] in H; [|injection H as <- <-; eauto].
  apply elem_of_cons in Hin as [->|Hin]; [congruence|].
  apply bind_inv in H as [(v & e1 & ->%lift_same & H)|(x & _ & ->)]; [|eauto].
  destruct v as [val|]; [|by eapply IH].
  apply bind_inv in H as [(now & e1 & H1 & H)|(x & _ & ->)]; [|eauto].
  apply bind_inv in H as [(mv & e2 & ->%lift_same & H)|(x & _ & ->)]; [|eauto].
  eapply IH; [done|done|]. by rewrite (same_can_write p k e) by by eapply clock_now_same.
Qed.

(** ** Theorem: permissions *)

(** C15: a principal without permission changes nothing and learns nothing.  [put] throws,
    [del] answers false and [get] answers an empty buffer, all with the engine unchanged;
    a [batch_put] with one forbidden key among any others throws, and nothing of the batch
    is logged, queued or applied. *)
Theorem denied_leaves_no_trace (k body batch : bytes) p keys stale e :
  can_write p k e = false ->
  put k body p e = Some (Throw (unauthorized k), e) /\
  del k p e = Some (Ok false, e) /\
  (can_read p k e = false -> get k p (store e) = buffer_default) /\
  (object_keys batch = Some keys -> k ∈ keys -> forall r e',
     batch_put stale batch p e = Some (r, e') ->
     (exists x, r = Throw x) /\ store e' = store e /\ wal_ e' = wal_ e /\ messages e' = messages e).
Proof.
  intros Hk. split; [unfold put, bind, gets; by rewrite Hk|].
  split; [unfold del, bind, gets; by rewrite Hk|].
  split; [unfold get, can_read; by intros ->|].
  intros Hkeys Hin r e' H. unfold batch_put in H. rewrite Hkeys in H.
  apply bind_inv in H as [(ks & e0 & [= <- <-] & H)|(x & [=] & _)].
  apply bind_inv in H as [(acc & e1 & H1 & _)|(x & H1 & ->)].
  - by destruct (batch_loop_denied _ _ _ _ _ _ _ _ _ H1 Hin Hk) as [x [=]].
  - apply batch_loop_same in H1 as (? & ? & ? & _). eauto.
Qed.

(** ** Queues of routed puts *)

(** The last value put under [x]. *)
Definition last_put (x : bytes) (os : list store_op) : option bytes :=
  foldl (fun acc o => match o with
                      | SPut k v => if decide (k = x) then Some v else acc
                      | _ => acc
                      end) None os.

Definition queued (h : nat) (e : Engine) : list store_op := concat (default [] (messages e !! h)).

(** The document [x] will have once the queues are empty. *)
Definition final_doc (x : bytes) (e : Engine) : option bytes :=
  match last_put x (queued (get_routing_shard x) e) with
  | Some v => Some (stored_form v)
  | None => plain x (store e)
  end.

(** Every queued operation puts a document that fits, on the shard of its key. *)
Definition routed_op (h : nat) (o : store_op) : Prop :=
  exists k v, o = SPut k v /\ get_routing_shard k = h /\ zlen (stored_form v) < 2 ^ 32.

Definition routed (e : Engine) : Prop :=
  forall h q, messages e !! h = Some q -> Forall (routed_op h) (concat q).

Lemma last_put_app x os1 os2 :
  last_put x (os1 ++ os2) =
  match last_put x os2 with Some v => Some v | None => last_put x os1 end.
Proof.
  induction os2 as [|o os2 IH] using rev_ind; [by rewrite app_nil_r|].
  rewrite app_assoc. unfold last_put in *. rewrite !foldl_snoc, IH.
  destruct o as [k v| | |]; try done. by destruct (decide (k = x)).
Qed.

Lemma last_put_None x h os :
  Forall (routed_op h) os -> get_routing_shard x <> h -> last_put x os = None.
Proof.
  intros Hr Hx. induction os as [|o os IH] using rev_ind; [done|].
  apply Forall_app in Hr as [Hr Ho]. apply Forall_cons in Ho as [(k & v & -> & Hk & _) _].
  rewrite last_put_app, IH by done. cbn. by rewrite decide_False by congruence.
Qed.

Context {l3_ok : Lite3Spec} {zs_ok : ZstdSpec} {srt_ok : StdSortSpec}.

Lemma run_puts h t : forall s m,
  Forall (routed_op h) t -> implements s m -> fits m ->
  exists s' m', run_task t s = (None, s') /\ implements s' m' /\ fits m' /\
    forall x, docs m' !! x = match last_put x t with Some v => Some (stored_form v) | None => docs m !! x end.
Proof.
  induction t as [|o t IH]; intros s m Hr Him Hf.
  { exists s, m. by split; [|split; [|split]]. }
  apply Forall_cons in Hr as [(k & v & -> & _ & Hv) Hr].
  assert (fits (kv_op_skip (SPut k v) m)) as Hf1 by by apply map_Forall_insert_2.
  pose proof (run_op_implements (SPut k v) s m Him Hf1) as Him1. cbn [run_op kv_op] in Him1.
  destruct (IH _ _ Hr Him1 Hf1) as (s' & m' & E & I' & F' & D').
  exists s', m'. split; [done|]. split; [done|]. split; [done|]. intros x.
  rewrite D'. change (SPut k v :: t) with ([SPut k v] ++ t). rewrite last_put_app. cbn.
  destruct (last_put x t); [done|]. destruct (decide (k = x)) as [->|Hne].
  - by rewrite lookup_insert_eq.
  - by rewrite lookup_insert_ne.
Qed.

(** A step of any shard's thread changes no final document. *)
Lemma core_step_final i e m :
  routed e -> implements (store e) m -> fits m ->
  exists m', routed (core_step i e) /\ implements (store (core_step i e)) m' /\ fits m' /\
    forall x, final_doc x (core_step i e) = final_doc x e.
Proof.
  intros Hr Him Hf. unfold core_step.
  destruct (messages e !! i) as [[|t q]|] eqn:Hq; [eauto| |eauto].
  pose proof (Hr i _ Hq) as Hrt. cbn [concat] in Hrt. apply Forall_app in Hrt as [Ht Hqr].
  destruct (run_puts i t (store e) m Ht Him Hf) as (s' & m' & E & Him' & Hf' & Hd).
  rewrite E. cbn [snd]. exists m'. split; [|split; [done|split; [done|]]].
  - intros h q' Hh. cbn [set_store set_messages messages] in Hh.
    apply list_lookup_insert_Some in Hh as [(<- & <- & _)|[_ Hh]]; [done|by apply Hr].
  - intros x. unfold final_doc, queued, set_store, set_messages. cbn [store messages].
    destruct (decide (get_routing_shard x = i)) as [<-|Hx].
    + rewrite list_lookup_insert_eq by by eapply lookup_lt_Some. rewrite Hq. cbn [from_option id concat].
      rewrite last_put_app. destruct (last_put x (concat q)); [done|].
      rewrite (im_docs _ _ Him'), Hd, (im_docs _ _ Him). by destruct (last_put x t).
    + rewrite list_lookup_insert_ne by done. destruct (last_put x _); [done|].
      rewrite (im_docs _ _ Him'), Hd, (im_docs _ _ Him). by rewrite (last_put_None x i).
Qed.

Definition run_schedule (sched : list nat) (e : Engine) : Engine := foldl (fun e i => core_step i e) e sched.

Lemma run_schedule_final sched : forall e m,
  routed e -> implements (store e) m -> fits m ->
  forall x, final_doc x (run_schedule sched e) = final_doc x e.
Proof.
  induction sched as [|i sched IH]; intros e m Hr Him Hf x; [done|]. cbn.
  destruct (core_step_final i e m Hr Him Hf) as (m' & Hr' & Him' & Hf' & Hfin).
  etrans; [by eapply IH|]. apply Hfin.
Qed.

(** ** What [batch_put] queues *)

Fixpoint work_of {W} (h : nat) (ws : list (nat * W)) : option W :=
  match ws with
  | [] => None
  | (h', w) :: ws' => if (h =? h')%nat then Some w else work_of h ws'
  end.

Definition works_sorted {W} (ws : list (nat * W)) : Prop :=
  StronglySorted (fun a b => (a.1 < b.1)%nat) ws.

Lemma work_of_lt {W} h (ws : list (nat * W)) :
  Forall (fun b => (h < b.1)%nat) ws -> work_of h ws = None.
Proof.
  induction 1 as [|[h' w] ws Hh _ IH]; [done|]. cbn in *. by destruct (Nat.eqb_spec h h'); [lia|].
Qed.

Lemma work_of_add {W} (zero : W) h0 f h (ws : list (nat * W)) :
  works_sorted ws ->
  work_of h (add_work zero h0 f ws) =
  if decide (h = h0) then Some (f (default zero (work_of h ws))) else work_of h ws.
Proof.
  induction 1 as [|[h' w] ws Hs IH Hall]; cbn [add_work work_of].
  - destruct (Nat.eqb_spec h h0); destruct (decide (h = h0)); try lia; done.
  - cbn [fst] in Hall. destruct (Nat.ltb_spec h0 h') as [Hlt|Hge]; [|destruct (Nat.eqb_spec h0 h') as [->|Hne]];
      cbn [work_of].
    + destruct (Nat.eqb_spec h h0) as [->|Hne]; [|by rewrite decide_False].
      rewrite decide_True by done. destruct (Nat.eqb_spec h0 h'); [lia|].
      rewrite work_of_lt; [done|]. eapply Forall_impl; [exact Hall|]. simpl. lia.
    + destruct (Nat.eqb_spec h h') as [->|]; [by rewrite decide_True|by rewrite decide_False].
    + destruct (Nat.eqb_spec h h') as [->|]; [by rewrite decide_False|done].
Qed.

Lemma add_work_sorted {W} (zero : W) h0 f (ws : list (nat * W)) :
  works_sorted ws -> works_sorted (add_work zero h0 f ws).
Proof.
  assert (forall h (l : list (nat * W)), (h < h0)%nat -> Forall (fun b => (h < b.1)%nat) l ->
    Forall (fun b => (h < b.1)%nat) (add_work zero h0 f l)) as Hadd.
  { intros h l Hlt Hl. induction Hl as [|[h' w] l Hh Hl IH]; cbn [add_work]; [by repeat constructor|].
    destruct (h0 <? h')%nat; [constructor; [done|by constructor]|].
    destruct (h0 =? h')%nat; by constructor. }
  unfold works_sorted. induction 1 as [|[h' w] ws Hs IH Hall]; cbn [add_work]; [by repeat constructor|].
  destruct (Nat.ltb_spec h0 h').
  { constructor; [by constructor|]. constructor; [done|]. eapply Forall_impl; [exact Hall|]. simpl. lia. }
  destruct (Nat.eqb_spec h0 h') as [->|Hne]; [by constructor|].
  constructor; [done|]. apply Hadd; [simpl; lia|done].
Qed.

Definition logged_puts (wb : list BatchOp) : list store_op := (fun b => SPut (bkey b) (bvalue b)) <$> wb.

Definition on_shard (h : nat) (o : store_op) : bool :=
  match o with SPut k _ => (get_routing_shard k =? h)%nat | _ => false end.

(** The work of a shard is the part of the logged batch with keys of that shard. *)
Record acc_inv (acc : batch_acc) : Prop := {
  ai_sorted : works_sorted (shard_works acc);
  ai_work : forall h, default [] (work_of h (shard_works acc)) =
    List.filter (on_shard h) (logged_puts (wal_batch acc))
}.

Lemma acc_inv_add acc k v :
  works_sorted (shard_works acc) ->
  forall os, (forall h, default [] (work_of h (shard_works acc)) = List.filter (on_shard h) os) ->
  let sw := add_work [] (get_routing_shard k) (fun u => u ++ [SPut k v]) (shard_works acc) in
  works_sorted sw /\ forall h, default [] (work_of h sw) = List.filter (on_shard h) (os ++ [SPut k v]).
Proof.
  intros Hs os Hw. cbn zeta. split; [by apply add_work_sorted|]. intros h.
  rewrite work_of_add, List.filter_app by done. cbn [List.filter on_shard].
  destruct (decide (h = get_routing_shard k)) as [->|Hne].
  - by rewrite Nat.eqb_refl, <- Hw.
  - destruct (Nat.eqb_spec (get_routing_shard k) h); [congruence|]. by rewrite app_nil_r, Hw.
Qed.

Lemma batch_loop_acc keys : forall batch p acc e acc' e',
  acc_inv acc -> batch_loop id keys batch p acc e = Some (Ok acc', e') -> acc_inv acc'.
Proof.
  induction keys as [|key keys IH]; intros batch p acc e acc' e' Ha H; cbn [batch_loop] in H.
  { by injection H as <- <-. }
  apply bind_inv in H as [(ok & e0 & [= <- <-] & H)|(x & [=] & _)]. destruct (negb _); [done|].
  apply bind_inv in H as [(v & e1 & ->%lift_same & H)|(x & _ & [=])].
  destruct v as [val|]; [|by eapply IH].
  apply bind_inv in H as [(now & e1 & _ & H)|(x & _ & [=])].
  apply bind_inv in H as [(mv & e2 & _ & H)|(x & _ & [=])]. eapply IH; [|done].
  destruct Ha as [Hs Hw].
  destruct (acc_inv_add acc key val Hs _ Hw) as [Hs1 Hw1].
  destruct (acc_inv_add (mkAcc [] (add_work [] (get_routing_shard key) (fun u => u ++ [SPut key val])
    (shard_works acc))) (meta_key key) mv Hs1 _ Hw1) as [Hs2 Hw2].
  split; [done|]. intros h. cbn [shard_works wal_batch] in *. rewrite Hw2.
  unfold logged_puts. rewrite fmap_app. by rewrite <- app_assoc.
Qed.

Lemma enqueue_all_spec ws : forall e,
  works_sorted ws ->
  exists e', enqueue_all ws e = Some (Ok tt, e') /\ store e' = store e /\
    length (messages e') = length (messages e) /\
    forall h, messages e' !! h = (fun q => q ++ option_list (work_of h ws)) <$> messages e !! h.
Proof.
  induction ws as [|[h0 t] ws IH]; intros e Hs.
  { exists e. split; [done|]. split; [done|]. split; [done|]. intros h. cbn.
    destruct (messages e !! h); cbn; [by rewrite app_nil_r|done]. }
  apply StronglySorted_inv in Hs as [Hs Hall].
  destruct (IH (set_messages (alter (fun q => q ++ [t]) h0 (messages e)) e) Hs) as (e' & E & E1 & E2 & Hm).
  exists e'. split; [done|]. split; [done|]. split; [rewrite E2; apply length_alter|].
  intros h. rewrite Hm. cbn.
  destruct (Nat.eqb_spec h h0) as [->|Hne].
  - rewrite list_lookup_alter_eq. rewrite work_of_lt by done. destruct (messages e !! h0); cbn; [|done].
    by rewrite app_nil_r.
  - by rewrite list_lookup_alter_ne by done.
Qed.

Lemma last_put_on_shard x wb :
  last_put x (List.filter (on_shard (get_routing_shard x)) (logged_puts wb)) =
  last_put x (logged_puts wb).
Proof.
  induction wb as [|b wb IH] using rev_ind; [done|]. unfold logged_puts in *.
  rewrite fmap_app, List.filter_app, !last_put_app, IH. cbn.
  destruct (Nat.eqb_spec (get_routing_shard (bkey b)) (get_routing_shard x)) as [|Hne]; [done|]. cbn.
  destruct (decide (bkey b = x)) as [E|]; [by rewrite E in Hne|done].
Qed.

Definition idle (e : Engine) : Prop := messages e = replicate SHARDS [].

(** [batch_put] on an idle engine: the log grows once, and each shard has its part. *)
Lemma batch_put_queues batch p e acc e0 keys e1 :
  idle e -> object_keys batch = Some keys ->
  batch_loop id keys batch p (mkAcc [] []) e = Some (Ok acc, e0) ->
  batch_put id batch p e = Some (Ok tt, e1) ->
  store e1 = store e /\ length (messages e1) = SHARDS /\
  forall h, (h < SHARDS)%nat ->
    exists q, messages e1 !! h = Some q /\
      concat q = List.filter (on_shard h) (logged_puts (wal_batch acc)).
Proof.
  intros Hi Hk Hl H. unfold batch_put in H. rewrite Hk in H.
  apply bind_inv in H as [(ks & e' & [= <- <-] & H)|(x & [=] & _)].
  apply bind_inv in H as [(acc' & e' & Hl' & H)|(x & Hl' & [=])].
  rewrite Hl in Hl'. injection Hl' as <- <-.
  destruct (batch_loop_same _ _ _ _ _ _ _ _ Hl) as (S1 & S2 & S3 & S4).
  destruct (batch_loop_acc keys batch p (mkAcc [] []) e acc e0) as [Hs Hw]; [by split; [constructor|]|done|].
  assert (forall h, (h < SHARDS)%nat -> messages e0 !! h = Some []) as Hidle.
  { intros h Hh. rewrite S3, Hi. by apply lookup_replicate_2. }
  destruct (wal_batch acc) as [|b wb] eqn:Ewb.
  - injection H as <-. split; [done|]. split; [by rewrite S3, Hi|]. intros h Hh. exists []. split; [by apply Hidle|done].
  - apply bind_inv in H as [(u & e2 & Happ & H)|(x & _ & [=])].
    assert (store e2 = store e0 /\ messages e2 = messages e0) as [T1 T2].
    { unfold wal_append_batch in Happ. destruct (append_batch _ _ _) as [[]|]; [|done].
      by injection Happ as <- <-. }
    destruct (enqueue_all_spec (shard_works acc) e2 Hs) as (e3 & E3 & U1 & U2 & U3).
    rewrite E3 in H. injection H as <-. split; [congruence|].
    split; [by rewrite U2, T2, S3, Hi|]. intros h Hh.
    rewrite U3, T2, Hidle, <- Hw by done. eexists. split; [reflexivity|].
    destruct (work_of h (shard_works acc)); cbn; [by rewrite app_nil_r|done].
Qed.

(** Every operation puts a document that fits. *)
Definition small_put (o : store_op) : Prop :=
  match o with SPut _ v => zlen (stored_form v) < 2 ^ 32 | _ => True end.

#[global] Instance small_put_dec o : Decision (small_put o).
Proof. destruct o; apply _. Defined.

Lemma batch_put_documents batch p e m keys acc e0 e1 sched x :
  idle e -> implements (store e) m -> fits m -> object_keys batch = Some keys ->
  batch_loop id keys batch p (mkAcc [] []) e = Some (Ok acc, e0) ->
  batch_put id batch p e = Some (Ok tt, e1) ->
  Forall small_put (logged_puts (wal_batch acc)) ->
  idle (run_schedule sched e1) ->
  plain x (store (run_schedule sched e1)) =
    match last_put x (logged_puts (wal_batch acc)) with
    | Some v => Some (stored_form v)
    | None => docs m !! x
    end.
Proof.
  intros Hi Him Hf Hk Hl Hb Hsmall Hidle.
  destruct (batch_put_queues _ _ _ _ _ _ _ Hi Hk Hl Hb) as (Hst & Hlen & Hq).
  assert (routed e1) as Hr.
  { intros h q Hh. destruct (Hq h) as (q' & Hq' & Hc).
    { rewrite <- Hlen. by eapply lookup_lt_Some. }
    simplify_eq. rewrite Hc. apply Forall_forall. intros o Ho%list_elem_of_In%filter_In. destruct Ho as [Ho Hs].
    rewrite Forall_forall in Hsmall. apply list_elem_of_In in Ho. specialize (Hsmall o Ho).
    apply list_elem_of_fmap in Ho as (b & -> & Hb'). cbn in Hs. apply Nat.eqb_eq in Hs.
    exists (bkey b), (bvalue b). auto. }
  assert (implements (store e1) m) as Him1 by by rewrite Hst.
  pose proof (run_schedule_final sched e1 m Hr Him1 Hf x) as Hfin.
  assert (forall h, concat (default [] (messages (run_schedule sched e1) !! h)) = []) as Hempty.
  { intros h. rewrite Hidle. destruct (replicate SHARDS [] !! h) eqn:E; [|done].
    apply lookup_replicate in E as [-> _]. done. }
  unfold final_doc at 1, queued in Hfin. rewrite Hempty in Hfin. cbn in Hfin. rewrite Hfin.
  unfold final_doc, queued. destruct (Hq (get_routing_shard x) (routing_lt x)) as (q & Eq & Hcat).
  rewrite Eq. cbn [from_option id]. rewrite Hcat, last_put_on_shard. by rewrite (im_docs _ _ Him1).
Qed.

(** ** Theorem: batches *)

(** What the batch document asks for: every key with a string or bytes value gets that value
    and a metadata document with the next of the timestamps [times]. *)
Definition valued (batch : bytes) (key : bytes) : bool :=
  match batch_value batch key with Some (Some _) => true | _ => false end.

Fixpoint batch_writes (batch : bytes) (keys : list bytes) (times : list Timestamp) : list store_op :=
  match keys with
  | [] => []
  | key :: keys =>
      match batch_value batch key, times with
      | Some (Some v), t :: times =>
          SPut key v :: SPut (meta_key key) (default [] (meta_doc t false)) :: batch_writes batch keys times
      | Some (Some _), [] => []
      | _, _ => batch_writes batch keys times
      end
  end.

(** The timestamps the clock gives out next. *)
Fixpoint clock_times (n : nat) (e : Engine) : option (list Timestamp) :=
  match n with
  | O => Some []
  | S n =>
      match clock_now e with
      | Some (Ok t, e) => cons t <$> clock_times n e
      | _ => None
      end
  end.

Lemma batch_loop_writes keys : forall batch p acc e acc' e',
  batch_loop id keys batch p acc e = Some (Ok acc', e') ->
  Forall (fun k => can_write p k e = true) keys /\
  exists times, clock_times (length (List.filter (valued batch) keys)) e = Some times /\
    logged_puts (wal_batch acc') = logged_puts (wal_batch acc) ++ batch_writes batch keys times.
Proof.
  induction keys as [|key keys IH]; intros batch p acc e acc' e' H; cbn [batch_loop] in H.
  { injection H as <- <-. split; [constructor|]. exists []. by rewrite app_nil_r. }
  apply bind_inv in H as [(ok & e0 & [= <- <-] & H)|(x & [=] & _)].
  destruct (can_write p key e) eqn:Hkey; cbn [negb] in H; [|done].
  apply bind_inv in H as [(v & e1 & Hv & H)|(x & _ & [=])].
  apply lift_ok in Hv as [Hval ->].
  cbn [List.filter batch_writes]. unfold valued at 1. rewrite Hval. destruct v as [val|].
  2:{ destruct (IH _ _ _ _ _ _ H) as (Hc & times & Ht & Hw). split; [by constructor|]. by exists times. }
  apply bind_inv in H as [(now & e1 & Hnow & H)|(x & _ & [=])].
  apply bind_inv in H as [(mv & e2 & Hmv & H)|(x & _ & [=])].
  apply lift_ok in Hmv as [Hmeta ->].
  destruct (IH _ _ _ _ _ _ H) as (Hc & times & Ht & Hw). split.
  - constructor; [done|]. eapply Forall_impl; [exact Hc|]. intros k. simpl.
    by rewrite (same_can_write p k e e1) by by eapply clock_now_same.
  - exists (now :: times). cbn [length clock_times]. rewrite Hnow, Ht. split; [done|].
    rewrite Hw, Hmeta. unfold logged_puts. cbn [wal_batch]. rewrite fmap_app, <- app_assoc. done.
Qed.

(** The writes of a batch under one key. *)
Lemma batch_writes_other batch x keys : forall times,
  x ∉ keys -> (forall k, k ∈ keys -> meta_key k <> x) -> last_put x (batch_writes batch keys times) = None.
Proof.
  induction keys as [|k keys IH]; intros times Hx Hm; [done|]. cbn [batch_writes].
  apply not_elem_of_cons in Hx as [Hxk Hx].
  assert (forall ts, last_put x (batch_writes batch keys ts) = None) as IH'
    by (intros ts; apply IH; [done|]; intros k' Hk'; apply Hm; by right).
  destruct (batch_value batch k) as [[v|]|], times as [|t times]; try done.
  set (d := default [] (meta_doc t false)).
  change (SPut k v :: SPut (meta_key k) d :: batch_writes batch keys times)
    with ([SPut k v; SPut (meta_key k) d] ++ batch_writes batch keys times).
  rewrite last_put_app, IH'. cbn. rewrite !decide_False; [done|congruence|apply Hm; by left].
Qed.

Lemma batch_writes_data batch x v keys : forall times,
  length times = length (List.filter (valued batch) keys) ->
  x ∈ keys -> batch_value batch x = Some (Some v) -> (forall k, k ∈ keys -> meta_key k <> x) ->
  last_put x (batch_writes batch keys times) = Some v.
Proof.
  induction keys as [|k keys IH]; intros times Hlen Hx Hv Hm; [by apply elem_of_nil in Hx|].
  cbn [batch_writes List.filter] in *. unfold valued in Hlen at 1.
  assert (forall k', k' ∈ keys -> meta_key k' <> x) as Hm' by (intros k' Hk'; apply Hm; by right).
  destruct (batch_value batch k) as [[w|]|] eqn:Hk.
  2,3: apply elem_of_cons in Hx as [->|Hx]; [congruence|by apply IH].
  destruct times as [|t times]; [done|]. cbn [length] in Hlen.
  set (d := default [] (meta_doc t false)).
  change (SPut k w :: SPut (meta_key k) d :: batch_writes batch keys times)
    with ([SPut k w; SPut (meta_key k) d] ++ batch_writes batch keys times).
  rewrite last_put_app. destruct (decide (x ∈ keys)) as [Hin|Hin]; [rewrite IH; [done|lia|done..]|].
  rewrite batch_writes_other by done. cbn. apply elem_of_cons in Hx as [<-|Hx]; [|done].
  rewrite decide_False by (apply Hm; by left). rewrite decide_True by done. congruence.
Qed.

Lemma clock_times_length n : forall e times, clock_times n e = Some times -> length times = n.
Proof.
  induction n as [|n IH]; intros e times H; cbn [clock_times] in H; [by injection H as <-|].
  destruct (clock_now e) as [[[t|x] e1]|]; try done. apply fmap_Some in H as (ts & Hts & ->).
  cbn. by rewrite (IH _ _ Hts).
Qed.

(** C14: an asynchronous [batch_put] has one outcome.  When it returns, the caller may write
    every key of the batch document; and in whatever order the shard threads run, once all
    queues are empty the documents are those before the batch updated by its writes, the
    documents not depending on the schedule: a key of the batch has its value in the batch, its
    metadata key the timestamp the clock gave out for it (a later write of the same name winning
    over an earlier one), and every other key is unchanged. *)
Theorem batch_put_any_schedule batch p e m keys e1 :
  idle e -> implements (store e) m -> fits m -> object_keys batch = Some keys ->
  batch_put id batch p e = Some (Ok tt, e1) ->
  Forall (fun k => can_write p k e = true) keys /\
  exists times, clock_times (length (List.filter (valued batch) keys)) e = Some times /\
    (Forall small_put (batch_writes batch keys times) ->
     forall sched, idle (run_schedule sched e1) ->
     (forall x, plain x (store (run_schedule sched e1)) =
        match last_put x (batch_writes batch keys times) with
        | Some v => Some (stored_form v)
        | None => docs m !! x
        end) /\
     (forall x v, x ∈ keys -> batch_value batch x = Some (Some v) ->
        (forall k, k ∈ keys -> meta_key k <> x) ->
        plain x (store (run_schedule sched e1)) = Some (stored_form v)) /\
     (forall x, x ∉ keys -> (forall k, k ∈ keys -> meta_key k <> x) ->
        plain x (store (run_schedule sched e1)) = docs m !! x)).
Proof.
  intros Hi Him Hf Hk Hb. pose proof Hb as Hb'. unfold batch_put in Hb'. rewrite Hk in Hb'.
  apply bind_inv in Hb' as [(ks & e' & [= <- <-] & Hb')|(x & [=] & _)].
  apply bind_inv in Hb' as [(acc & e0 & Hl & _)|(x & _ & [=])].
  destruct (batch_loop_writes _ _ _ _ _ _ _ Hl) as (Hcan & times & Hti & Hw). split; [done|].
  exists times. split; [done|]. intros Hsmall sched Hidle. cbn in Hw. rewrite <- Hw in *.
  assert (forall x, plain x (store (run_schedule sched e1)) =
    match last_put x (logged_puts (wal_batch acc)) with
    | Some v => Some (stored_form v)
    | None => docs m !! x
    end) as Hx 
    by (intros x; exact (batch_put_documents _ _ _ _ _ _ _ _ _ x Hi Him Hf Hk Hl Hb Hsmall Hidle)).
  split; [done|]. rewrite Hw in Hx. apply clock_times_length in Hti. split.
  - intros x v Hin Hv Hm. by rewrite Hx, (batch_writes_data _ _ v) by done.
  - intros x Hin Hm. by rewrite Hx, batch_writes_other by done.
Qed.

End EngineProps.

Definition guest : Z := 7.
Definition sample_engine : Engine := engine_open [] 1 [10; 20; 30; 40] [].
Definition sample_batch : bytes :=
  render [(str "a", inr (inl (str "1"))); (str "b", inr (inl (str "2")))].

Lemma denied_leaves_no_trace_witness :
  put (str "b") (str "x") guest sample_engine = Some (Throw (unauthorized (str "b")), sample_engine) /\
  (forall r e', batch_put id sample_batch guest sample_engine = Some (r, e') -> exists x, r = Throw x).
Proof.
  destruct (denied_leaves_no_trace (str "b") (str "x") sample_batch guest [str "a"; str "b"] id sample_engine)
    as (H1 & _ & _ & H4); [vm_compute; reflexivity|].
  split; [exact H1|]. intros r e' H.
  destruct (H4 ltac:(vm_compute; reflexivity) ltac:(right; left) r e' H) as [Hx _]. exact Hx.
Defined.

(** ** A concrete batch *)

Definition ready_engine : Engine := engine_open [] 1 [10; 20; 30; 40] [Wrote 100000; Wrote 100000; Wrote 100000].

Definition value_of {A} (o : option (result A * Engine)) : option (A * Engine) :=
  match o with Some (Ok a, e) => Some (a, e) | _ => None end.

Lemma value_of_Some {A B} (f : A * Engine -> B) (o : option (result A * Engine)) b :
  f <$> value_of o = Some b -> exists a e, o = Some (Ok a, e) /\ f (a, e) = b.
Proof. destruct o as [[[a|x] e]|]; intros H; simplify_eq/=; eauto. Qed.

Lemma sample_batch_put :
  (fun r => messages (run_schedule (rev (seq 0 SHARDS)) r.2)) <$>
    value_of (batch_put id sample_batch ADMIN_UID ready_engine) = Some (replicate SHARDS []).
Proof. vm_compute. reflexivity. Qed.

Definition sample_times : list Timestamp := [mkTimestamp 10 0 1; mkTimestamp 20 0 1].

Lemma batch_put_any_schedule_witness :
  exists e1, batch_put id sample_batch ADMIN_UID ready_engine = Some (Ok tt, e1) /\
  plain (str "a") (store (run_schedule (rev (seq 0 SHARDS)) e1)) = Some (str "1").
Proof.
  destruct (value_of_Some _ _ _ sample_batch_put) as ([] & e1 & E1 & Hidle).
  exists e1. split; [exact E1|].
  destruct (batch_put_any_schedule sample_batch ADMIN_UID ready_engine kv_new [str "a"; str "b"] e1)
    as (_ & times & Ht & Hall); [reflexivity|apply implements_new|apply map_Forall_empty|vm_compute; reflexivity|exact E1|].
  assert (times = sample_times) as -> by (vm_compute in Ht; by injection Ht).
  destruct (Hall ltac:(apply (bool_decide_unpack _); by vm_compute) _ Hidle) as (Hx & _ & _).
  rewrite Hx. vm_compute. reflexivity.
Defined.

(** ** Writes that fall behind *)

Local Open Scope l3kv_scope.

Definition meta_time (k : bytes) (s : Store) : option Timestamp :=
  local_timestamp (default [] (plain (meta_key k) s)).

Definition batch_then_put : M unit :=
  let! _ := batch_put id (render [(str "a", inr (inl (str "1")))]) ADMIN_UID in
  put (str "a") (str "2") ADMIN_UID.

(** [put] runs its task on the thread of the moved-from key's shard, [batch_put] queues
    the same key's update for the key's own shard.  After a batch at time 10 and a later
    [put] of the same key at time 20 has returned, the document is the one that was put;
    once the queues have drained it is the older one again, with the older timestamp. *)
Theorem batch_overtakes_put :
  (fun r => let s := store (run_schedule (seq 0 SHARDS) r.2) in
     ((plain (str "a") (store r.2), meta_time (str "a") (store r.2)),
      (plain (str "a") s, meta_time (str "a") s)))
    <$> value_of (batch_then_put ready_engine)
  = Some ((Some (str "2"), Some (mkTimestamp 20 0 1)), (Some (str "1"), Some (mkTimestamp 10 0 1))).
Proof. vm_compute. reflexivity. Qed.

Definition patch_then_mutation : M unit :=
  let! _ := patch_str (str "k") (str "color") (str "red") in
  apply_mutation id (mkMutation (mkTimestamp 5 0 2) (str "k") (str "older") false).

(** A patch stores its timestamp under the name of the patched field, not under [ts],
    so last-writer-wins does not see it: a replicated mutation from time 5 replaces a
    document patched at time 10. *)
Theorem patch_loses_to_older_mutation :
  (fun r => (plain (str "k") (store r.2), meta_time (str "k") (store r.2)))
    <$> value_of (patch_then_mutation ready_engine)
  = Some (Some (str "older"), Some (mkTimestamp 5 0 2)) /\
  (fun r => (get_str (default [] (plain (str "k") (store r.2))) (str "color"),
             meta_time (str "k") (store r.2)))
    <$> value_of (patch_str (str "k") (str "color") (str "red") ready_engine)
  = Some (Some (str "red"), Some (mkTimestamp 0 0 0)).
Proof. split; vm_compute; reflexivity. Qed.
