(* ===== verification/Scan.v ===== *)
(** * Scans (src/engine/store.hpp)

    [get_bucket_keys], [get_prefix_chunk], [get_prefix_keys] and their variants over all
    shards.  Each runs as a task on the shard it reads, so it sees what was queued there
    before it.  The theorems give the exact result of a scan: which keys, in which order,
    up to which limit. *)
From S2P Require Import Prelude CxxString Clock Extern Merkle Wal OrdMap Blob Credential.
From S2P Require Import KeyBuilder ReplicationLog Samples Store StoreSpec Engine EngineProps.

Section Scan.
Context {xxh : XXH3} {l3 : Lite3} {zs : Zstd} {srt : StdSort}.

Local Open Scope l3kv_scope.

Abbreviation shard := (omap (option Blob)).

Definition shard_at (i : nat) (s : Store) : shard := default [] (shards_ s !! i).

(** Running a read-only task on shard [i] and waiting for its value. *)
Definition read_shard {A} (i : nat) (f : Store -> A) : M A :=
  let! _ := submit_wait i [] in gets (fun e => f (store e)).

(** The values of one task per shard, concatenated in shard order. *)
Fixpoint read_shards {A} (idxs : list nat) (f : nat -> Store -> list A) : M (list A) :=
  match idxs with
  | [] => ret []
  | i :: idxs' =>
      let! part := read_shard i (f i) in
      let! rest := read_shards idxs' f in
      ret (part ++ rest)
  end.

(** ** Buckets *)

(** [(kh >> 48) & 0xFFFF] compared with [(uint32_t)bucket_idx]. *)
Definition in_bucket (bucket_idx : Z) (k : bytes) : bool :=
  let kh := fnv1a_64 k in
  let b := u32 (Z.land (Z.shiftr kh 48) 0xFFFF) in
  b =? u32 bucket_idx.

Fixpoint bucket_entries (bucket_idx : Z) (m : shard) : list (bytes * Z) :=
  match m with
  | [] => []
  | (k, v) :: m' =>
      if in_bucket bucket_idx k then (k, hash_blob v) :: bucket_entries bucket_idx m'
      else bucket_entries bucket_idx m'
  end.

Definition get_bucket_keys (bucket_idx : Z) : M (list (bytes * Z)) :=
  read_shards (seq 0 SHARDS) (fun i s => bucket_entries bucket_idx (shard_at i s)).

(** ** Prefixes *)

Definition effective_start (prefix start_key : bytes) : bytes :=
  if bytes_ltb start_key prefix then prefix else start_key.

(** A null or empty blob: a deleted key. *)
Definition dead (p : option Blob) : bool :=
  match p with Some b => match buf_ b with [] => true | _ => false end | None => true end.

(** The loop of [get_prefix_chunk] from iterator [es]. *)
Fixpoint chunk_loop (prefix start_key : bytes) (limit : nat) (z : ZstdManager)
    (es : shard) (chunk : list (bytes * bytes)) : list (bytes * bytes) :=
  match es with
  | [] => chunk
  | (k, p) :: es' =>
      if negb (starts_with k prefix) then chunk
      else if ends_with k (str ":meta") then chunk_loop prefix start_key limit z es' chunk
      else if bytes_ltb start_key k
              || (bool_decide (chunk = []) && negb (bytes_ltb k start_key)) then
        if dead p then chunk_loop prefix start_key limit z es' chunk
        else
          let vstr := match p with Some b => blob_plain b z | None => [] end in
          let chunk := chunk ++ [(k, vstr)] in
          if (limit <=? length chunk)%nat then chunk
          else chunk_loop prefix start_key limit z es' chunk
      else chunk_loop prefix start_key limit z es' chunk
  end.

Definition chunk_scan (prefix : bytes) (shard_idx : nat) (start_key : bytes) (limit : nat)
    (s : Store) : list (bytes * bytes) :=
  chunk_loop prefix start_key limit (zstd_manager_ s)
    (m_lower_bound (effective_start prefix start_key) (shard_at shard_idx s)) [].

(** Called from a shard's own thread the scan runs at once, otherwise as a task. *)
Definition get_prefix_chunk (prefix : bytes) (shard_idx : nat) (start_key : bytes) (limit : nat)
  : M (list (bytes * bytes)) :=
  if (SHARDS <=? shard_idx)%nat then ret []
  else read_shard shard_idx (chunk_scan prefix shard_idx start_key limit).

Definition get_prefix_entries_all_shards (prefix start_key : bytes) (limit_per_shard : nat)
  : M (list (bytes * bytes)) :=
  read_shards (seq 0 SHARDS) (fun i => chunk_scan prefix i start_key limit_per_shard).

Fixpoint keys_loop (prefix start_key : bytes) (limit : nat) (es : shard) (chunk : list bytes)
  : list bytes :=
  match es with
  | [] => chunk
  | (k, p) :: es' =>
      if negb (starts_with k prefix) then chunk
      else if dead p || ends_with k (str ":meta") then keys_loop prefix start_key limit es' chunk
      else if bytes_ltb start_key k
              || (bool_decide (chunk = []) && negb (bytes_ltb k start_key)) then
        let chunk := chunk ++ [k] in
        if (limit <=? length chunk)%nat then chunk else keys_loop prefix start_key limit es' chunk
      else keys_loop prefix start_key limit es' chunk
  end.

Definition get_prefix_keys (prefix : bytes) (shard_idx : nat) (start_key : bytes) (limit : nat)
  : M (list bytes) :=
  if (SHARDS <=? shard_idx)%nat then ret []
  else read_shard shard_idx (fun s =>
         keys_loop prefix start_key limit
           (m_lower_bound (effective_start prefix start_key) (shard_at shard_idx s)) []).

Fixpoint all_keys_loop (prefix : bytes) (limit : nat) (es : shard) (chunk : list bytes) : list bytes :=
  match es with
  | [] => chunk
  | (k, p) :: es' =>
      if negb (starts_with k prefix) then chunk
      else if dead p || ends_with k (str ":meta") then all_keys_loop prefix limit es' chunk
      else
        let chunk := chunk ++ [k] in
        if (limit <=? length chunk)%nat then chunk else all_keys_loop prefix limit es' chunk
  end.

(** The loops after an empty result only feed disabled trace output. *)
Definition get_prefix_keys_all_shards (prefix start_key : bytes) (limit_per_shard : nat)
  : M (list bytes) :=
  read_shards (seq 0 SHARDS) (fun i s =>
    all_keys_loop prefix limit_per_shard
      (m_lower_bound (effective_start prefix start_key) (shard_at i s)) []).

(** ** Specification *)

(** The live data keys of a shard with the prefix, from [start_key] on. *)
Definition visible (prefix start_key : bytes) (e : bytes * option Blob) : bool :=
  starts_with e.1 prefix && negb (bytes_ltb e.1 start_key)
  && negb (ends_with e.1 (str ":meta")) && negb (dead e.2).

Definition visible_entries (prefix start_key : bytes) (m : shard) : shard :=
  List.filter (visible prefix start_key) m.

Definition entry_text (z : ZstdManager) (e : bytes * option Blob) : bytes * bytes :=
  (e.1, match e.2 with Some b => blob_plain b z | None => [] end).

(** ** Lemmas *)

(** Entries from the effective start on, in key order. *)
Definition scan_range (prefix start_key : bytes) (es : shard) : Prop :=
  m_sorted es /\ forall k p, (k, p) ∈ es ->
    bytes_ltb k start_key = false /\ bytes_ltb k prefix = false.

Lemma bytes_ge_trans a b c : bytes_ltb b a = false -> bytes_ltb c b = false -> bytes_ltb c a = false.
Proof.
  intros H1 H2. apply not_true_is_false. intros H3.
  destruct (bytes_ltb a b) eqn:E.
  - by rewrite (bytes_ltb_trans c a b H3 E) in H2.
  - by rewrite (bytes_ltb_total a b E H1) in H3; rewrite H3 in H2.
Qed.

Lemma lower_bound_range prefix start_key m :
  m_sorted m -> scan_range prefix start_key (m_lower_bound (effective_start prefix start_key) m).
Proof.
  intros Hs. rewrite m_lower_bound_filter by done. split.
  - pose proof (m_sorted_select (fun k => negb (bytes_ltb k (effective_start prefix start_key))) id m Hs) as H.
    unfold m_select in H. rewrite <- (map_id (List.filter _ m)).
    erewrite map_ext; [exact H|]. by intros [].
  - intros k p Hin%list_elem_of_In%filter_In. destruct Hin as [_ Hk]. cbn in Hk. bool_prop.
    unfold effective_start in Hk. destruct (bytes_ltb start_key prefix) eqn:E; [|].
    + split; [|done]. eapply bytes_ge_trans; [|exact Hk]. by apply bytes_ltb_asym.
    + split; [done|]. by eapply bytes_ge_trans.
Qed.

Lemma range_cons prefix start_key k p es :
  scan_range prefix start_key ((k, p) :: es) ->
  scan_range prefix start_key es /\ bytes_ltb k start_key = false /\ bytes_ltb k prefix = false /\
  forall k' p', (k', p') ∈ es -> bytes_ltb k k' = true.
Proof.
  intros [Hs Hr]. destruct (Hr k p) as [H1 H2]; [left|]. split; [|split; [done|split; [done|]]].
  - split; [by apply StronglySorted_inv in Hs as [? _]|]. intros k' p' Hin. apply (Hr k' p'). by right.
  - intros k' p' Hin. by eapply m_sorted_cons_lt.
Qed.

(** After the first key without the prefix no key has it. *)
Lemma visible_past_prefix prefix start_key k p es :
  scan_range prefix start_key ((k, p) :: es) -> starts_with k prefix = false ->
  visible_entries prefix start_key ((k, p) :: es) = [].
Proof.
  intros Hr Hk. destruct (range_cons _ _ _ _ _ Hr) as (_ & _ & Hkp & Hlt).
  unfold visible_entries. cbn [List.filter]. unfold visible at 1. cbn [fst]. rewrite Hk. cbn [andb].
  assert (forall e, e ∈ es -> visible prefix start_key e = false) as Hall.
  { intros [k' p'] Hin. unfold visible. cbn [fst]. destruct (starts_with k' prefix) eqn:E; [|done].
    exfalso. apply starts_with_spec in E. pose proof (Hlt k' p' Hin) as Hkk.
    assert (prefix `prefix_of` k) as Hp.
    { destruct (bytes_ltb prefix k) eqn:Epk; [by apply (prefix_interval prefix prefix k k')|].
      by rewrite (bytes_ltb_total prefix k Epk Hkp). }
    apply starts_with_spec in Hp. congruence. }
  clear -Hall. induction es as [|e es IH]; [done|]. cbn. rewrite Hall by left. apply IH.
  intros e' He'. apply Hall. by right.
Qed.

(** A page under construction: what is collected, then visible entries up to the limit.
    The limit is tested after an entry was added, so a page has room for at least one. *)
Definition page_size (limit : nat) : nat := Nat.max 1 limit.

Definition page {A} (f : bytes * option Blob -> A) (prefix start_key : bytes) (limit : nat)
    (es : shard) (chunk : list A) : list A :=
  chunk ++ take (page_size limit - length chunk) (f <$> visible_entries prefix start_key es).

Lemma page_done {A} (f : _ -> A) prefix start_key limit es chunk :
  visible_entries prefix start_key es = [] -> page f prefix start_key limit es chunk = chunk.
Proof. intros E. unfold page. rewrite E. cbn. by rewrite take_nil, app_nil_r. Qed.

Lemma page_skip {A} (f : _ -> A) prefix start_key limit e es chunk :
  visible prefix start_key e = false ->
  page f prefix start_key limit (e :: es) chunk = page f prefix start_key limit es chunk.
Proof. intros E. unfold page, visible_entries. cbn [List.filter]. by rewrite E. Qed.

Lemma page_full {A} (f : _ -> A) prefix start_key limit e es chunk :
  visible prefix start_key e = true -> (length chunk < page_size limit)%nat ->
  (limit <=? length (chunk ++ [f e]))%nat = true ->
  page f prefix start_key limit (e :: es) chunk = chunk ++ [f e].
Proof.
  intros E Hl Hfull. apply Nat.leb_le in Hfull. rewrite length_app in Hfull. cbn in Hfull.
  unfold page, visible_entries. cbn [List.filter]. rewrite E.
  replace (page_size limit - length chunk)%nat with 1%nat by (unfold page_size in *; lia). done.
Qed.

Lemma page_push {A} (f : _ -> A) prefix start_key limit e es chunk :
  visible prefix start_key e = true -> (length chunk < page_size limit)%nat ->
  page f prefix start_key limit (e :: es) chunk = page f prefix start_key limit es (chunk ++ [f e]).
Proof.
  intros E Hl. unfold page, visible_entries. cbn [List.filter]. rewrite E, length_app. cbn.
  destruct (page_size limit - length chunk)%nat as [|n] eqn:En; [lia|].
  replace (page_size limit - (length chunk + 1))%nat with n by lia. cbn. by rewrite <- app_assoc.
Qed.

(** The condition on [start_key] in the loops always holds in the range they scan. *)
Definition started {A} (start_key : bytes) (chunk : list A) (es : shard) : Prop :=
  chunk <> [] -> forall k p, (k, p) ∈ es -> bytes_ltb start_key k = true.

Lemma started_test {A} prefix start_key (chunk : list A) `{!EqDecision A} k p es :
  scan_range prefix start_key ((k, p) :: es) -> started start_key chunk ((k, p) :: es) ->
  bytes_ltb start_key k || (bool_decide (chunk = []) && negb (bytes_ltb k start_key)) = true.
Proof.
  intros Hr Hst. destruct (range_cons _ _ _ _ _ Hr) as (_ & Hk & _). rewrite Hk.
  destruct chunk as [|c chunk]; [by rewrite bool_decide_eq_true_2, orb_true_r|].
  rewrite (Hst ltac:(done) k p); [done|left].
Qed.

Lemma started_tail {A} start_key (chunk : list A) e es :
  started start_key chunk (e :: es) -> started start_key chunk es.
Proof. intros Hst Hne k p Hin. apply (Hst Hne k p). by right. Qed.

Lemma started_push {A} prefix start_key (chunk : list A) c k p es :
  scan_range prefix start_key ((k, p) :: es) -> started start_key (chunk ++ [c]) es.
Proof.
  intros Hr _ k' p' Hin. destruct (range_cons _ _ _ _ _ Hr) as (_ & Hk & _ & Hlt).
  pose proof (Hlt k' p' Hin) as Hkk. destruct (bytes_ltb start_key k) eqn:E.
  - by eapply bytes_ltb_trans.
  - by rewrite (bytes_ltb_total start_key k E Hk).
Qed.

Lemma visible_test prefix start_key k p es :
  scan_range prefix start_key ((k, p) :: es) -> starts_with k prefix = true ->
  visible prefix start_key (k, p) = negb (ends_with k (str ":meta")) && negb (dead p).
Proof.
  intros Hr Hp. destruct (range_cons _ _ _ _ _ Hr) as (_ & Hk & _).
  unfold visible. cbn [fst snd]. by rewrite Hp, Hk.
Qed.

Lemma length_push {A} limit (chunk : list A) c :
  (limit <=? length (chunk ++ [c]))%nat = false -> (length (chunk ++ [c]) < page_size limit)%nat.
Proof. intros H%Nat.leb_gt. unfold page_size. lia. Qed.

Lemma chunk_loop_page prefix start_key limit z es : forall chunk,
  scan_range prefix start_key es -> started start_key chunk es ->
  (length chunk < page_size limit)%nat ->
  chunk_loop prefix start_key limit z es chunk = page (entry_text z) prefix start_key limit es chunk.
Proof.
  induction es as [|[k p] es IH]; intros chunk Hr Hst Hl; cbn [chunk_loop]; [by rewrite page_done|].
  pose proof (range_cons _ _ _ _ _ Hr) as (Hr' & _).
  destruct (starts_with k prefix) eqn:Hp; cbn [negb].
  2:{ by rewrite page_done by (by apply visible_past_prefix). }
  pose proof (visible_test _ _ _ _ _ Hr Hp) as Hv.
  destruct (ends_with k (str ":meta")); cbn [negb andb] in Hv.
  { rewrite page_skip by done. apply IH; [done|by eapply started_tail|done]. }
  rewrite (started_test prefix start_key chunk k p es Hr Hst).
  destruct (dead p); cbn [negb] in Hv.
  { rewrite page_skip by done. apply IH; [done|by eapply started_tail|done]. }
  change (k, match p with Some b => blob_plain b z | None => [] end) with (entry_text z (k, p)).
  destruct (limit <=? _)%nat eqn:Hfull; [by rewrite page_full|]. rewrite page_push by done.
  apply IH; [done|by eapply started_push|by apply length_push].
Qed.

Lemma keys_loop_page prefix start_key limit es : forall chunk,
  scan_range prefix start_key es -> started start_key chunk es ->
  (length chunk < page_size limit)%nat ->
  keys_loop prefix start_key limit es chunk = page fst prefix start_key limit es chunk /\
  all_keys_loop prefix limit es chunk = page fst prefix start_key limit es chunk.
Proof.
  induction es as [|[k p] es IH]; intros chunk Hr Hst Hl; cbn [keys_loop all_keys_loop];
    [by rewrite page_done|].
  pose proof (range_cons _ _ _ _ _ Hr) as (Hr' & _).
  destruct (starts_with k prefix) eqn:Hp; cbn [negb].
  2:{ by rewrite page_done by (by apply visible_past_prefix). }
  pose proof (visible_test _ _ _ _ _ Hr Hp) as Hv.
  rewrite (started_test prefix start_key chunk k p es Hr Hst).
  destruct (dead p || ends_with k (str ":meta")) eqn:Hskip.
  { rewrite page_skip; [apply IH; [done|by eapply started_tail|done]|]. rewrite Hv.
    by destruct (dead p), (ends_with k (str ":meta")). }
  assert (visible prefix start_key (k, p) = true) as Hv'.
  { rewrite Hv. by destruct (dead p), (ends_with k (str ":meta")). }
  change k with ((k, p).1) at 1 2 3 5 6 7.
  destruct (limit <=? _)%nat eqn:Hfull; [by rewrite page_full|]. rewrite page_push by done.
  apply IH; [done|by eapply started_push|by apply length_push].
Qed.

Lemma visible_lower_bound prefix start_key m :
  m_sorted m ->
  visible_entries prefix start_key (m_lower_bound (effective_start prefix start_key) m) =
  visible_entries prefix start_key m.
Proof.
  intros Hs. rewrite m_lower_bound_filter by done. unfold visible_entries. clear Hs.
  induction m as [|[k p] m IH]; [done|]. cbn [List.filter fst].
  destruct (bytes_ltb k (effective_start prefix start_key)) eqn:E; cbn [negb List.filter]; rewrite IH; [|done].
  enough (visible prefix start_key (k, p) = false) as -> by done.
  unfold visible, effective_start in *. cbn [fst].
  destruct (bytes_ltb start_key prefix) eqn:Esp; [|rewrite E; cbn; by rewrite andb_false_r].
  destruct (starts_with k prefix) eqn:Ep; [|done]. apply starts_with_spec, prefix_not_ltb in Ep. congruence.
Qed.

Lemma shard_at_sorted i s : store_inv s -> m_sorted (shard_at i s).
Proof.
  intros Hs. unfold shard_at. destruct (shards_ s !! i) eqn:E; [by eapply si_sorted|constructor].
Qed.

Lemma scan_started {A} start_key es : started start_key (@nil A) es.
Proof. intros Hne. by destruct Hne. Qed.

Lemma chunk_scan_spec prefix i start_key limit s :
  store_inv s ->
  chunk_scan prefix i start_key limit s =
  take (page_size limit)
    (entry_text (zstd_manager_ s) <$> visible_entries prefix start_key (shard_at i s)).
Proof.
  intros Hs. unfold chunk_scan. rewrite chunk_loop_page; [|by apply lower_bound_range, shard_at_sorted|
    apply scan_started|unfold page_size; cbn; lia].
  unfold page. rewrite visible_lower_bound by by apply shard_at_sorted. cbn. by rewrite Nat.sub_0_r.
Qed.

Lemma keys_scan_spec prefix i start_key limit s :
  store_inv s ->
  let es := m_lower_bound (effective_start prefix start_key) (shard_at i s) in
  let expected := take (page_size limit) (fst <$> visible_entries prefix start_key (shard_at i s)) in
  keys_loop prefix start_key limit es [] = expected /\ all_keys_loop prefix limit es [] = expected.
Proof.
  intros Hs. cbn zeta.
  destruct (keys_loop_page prefix start_key limit (m_lower_bound (effective_start prefix start_key)
    (shard_at i s)) []) as [-> ->];
    [by apply lower_bound_range, shard_at_sorted|apply scan_started|unfold page_size; cbn; lia|].
  unfold page. rewrite visible_lower_bound by by apply shard_at_sorted. cbn. by rewrite Nat.sub_0_r.
Qed.

(** ** Lemmas: tasks that read *)

Lemma submit_empty_idle i e :
  idle e -> (i < SHARDS)%nat -> submit_wait i [] e = Some (Ok tt, e).
Proof.
  intros Hm Hi. unfold submit_wait, enqueue, wait_shard, drain, bind, modify.
  cbn [set_messages messages store].
  rewrite list_lookup_alter_eq, Hm, lookup_replicate_2 by done. cbn [fmap option_fmap option_map app run_tasks run_task].
  unfold set_store, set_messages. cbn [store wal_ clock_ messages clock_readings write_answers].
  do 2 f_equal. destruct e as [st w c ms rd an]. unfold idle in Hm. cbn [messages] in *. subst ms.
  f_equal. apply list_eq. intros j. destruct (decide (i = j)) as [<-|Hne].
  - rewrite list_lookup_insert_eq by by rewrite length_alter, length_replicate.
    by rewrite lookup_replicate_2.
  - by rewrite list_lookup_insert_ne, list_lookup_alter_ne.
Qed.

Lemma read_shard_idle {A} i (f : Store -> A) e :
  idle e -> (i < SHARDS)%nat -> read_shard i f e = Some (Ok (f (store e)), e).
Proof. intros Hm Hi. unfold read_shard, bind. by rewrite submit_empty_idle. Qed.

Lemma read_shards_idle {A} idxs (f : nat -> Store -> list A) e :
  idle e -> Forall (fun i => (i < SHARDS)%nat) idxs ->
  read_shards idxs f e = Some (Ok (concat ((fun i => f i (store e)) <$> idxs)), e).
Proof.
  intros Hm. induction 1 as [|i idxs Hi _ IH]; [done|]. cbn [read_shards]. unfold bind.
  rewrite read_shard_idle, IH by done. done.
Qed.

Lemma all_shards : Forall (fun i => (i < SHARDS)%nat) (seq 0 SHARDS).
Proof. by repeat constructor. Qed.

(** ** Lemmas: shards and keys *)

Lemma shard_at_find s j k :
  store_inv s -> (j < SHARDS)%nat ->
  m_find k (shard_at j s) = if decide (get_routing_shard k = j) then Some <$> get_view k s else None.
Proof.
  intros Hs Hj. destruct (lookup_lt_is_Some_2 (shards_ s) j) as [m Hm]; [by rewrite (si_len _ Hs)|].
  unfold shard_at. rewrite Hm. cbn [from_option id]. by apply shard_find.
Qed.

Lemma shard_at_elem s j k p :
  store_inv s -> (j < SHARDS)%nat ->
  (k, p) ∈ shard_at j s <-> get_routing_shard k = j /\ exists b, p = Some b /\ get_view k s = Some b.
Proof.
  intros Hs Hj. pose proof (shard_at_find s j k Hs Hj) as Hf. split.
  - intros Hin. rewrite (m_find_sorted k p) in Hf by (done || by apply shard_at_sorted).
    destruct (decide (get_routing_shard k = j)); [|done]. split; [done|].
    destruct (get_view k s) as [b|]; [|done]. injection Hf as ->. eauto.
  - intros (<- & b & -> & Hv). rewrite decide_True, Hv in Hf by done. by apply m_find_elem in Hf.
Qed.

Lemma concat_elem {A B} (f : B -> list A) l x : x ∈ concat (f <$> l) <-> exists j, j ∈ l /\ x ∈ f j.
Proof.
  rewrite list_elem_of_In, in_concat. split.
  - intros (l' & Hl' & Hx). apply list_elem_of_In, list_elem_of_fmap in Hl' as (j & -> & Hj).
    exists j. split; [done|]. by apply list_elem_of_In.
  - intros (j & Hj & Hx). exists (f j). split; [|by apply list_elem_of_In].
    apply list_elem_of_In, list_elem_of_fmap. eauto.
Qed.

Lemma in_bucket_of b k : (b < L4_SIZE)%nat -> in_bucket (Z.of_nat b) k = bool_decide (bucket_of k = b).
Proof.
  intros Hb. pose proof (bucket_of_lt k) as Hk. unfold bucket_of, L4_SIZE, in_bucket in *.
  set (x := Z.land (Z.shiftr (fnv1a_64 k) 48) 0xFFFF) in *.
  assert (0 <= x) as Hx by (apply Z.land_nonneg; right; lia).
  rewrite !u32_small by lia. apply eq_true_iff_eq. rewrite Z.eqb_eq, bool_decide_eq_true. lia.
Qed.

Lemma bucket_entries_select b m :
  (b < L4_SIZE)%nat ->
  bucket_entries (Z.of_nat b) m = m_select (fun k => bool_decide (bucket_of k = b)) hash_blob m.
Proof.
  intros Hb. induction m as [|[k p] m IH]; [done|]. unfold m_select. cbn [bucket_entries List.filter fst].
  rewrite in_bucket_of, IH by done. by destruct (bool_decide _).
Qed.

Lemma m_select_elem {V W} P (f : V -> W) m k w :
  (k, w) ∈ m_select P f m <-> P k = true /\ exists v, (k, v) ∈ m /\ w = f v.
Proof.
  unfold m_select. rewrite list_elem_of_In, in_map_iff. split.
  - intros ([k' v] & [= <- <-] & [Hin Hp]%filter_In). split; [done|]. exists v.
    split; [by apply list_elem_of_In|done].
  - intros (Hp & v & Hin & ->). exists (k, v). split; [done|]. apply filter_In.
    split; [by apply list_elem_of_In|done].
Qed.

Lemma xor_app (l1 l2 : list (bytes * Z)) :
  foldr (fun e acc => Z.lxor e.2 acc) 0 (l1 ++ l2) =
  Z.lxor (foldr (fun e acc => Z.lxor e.2 acc) 0 l1) (foldr (fun e acc => Z.lxor e.2 acc) 0 l2).
Proof.
  induction l1 as [|e l1 IH]; [by rewrite Z.lxor_0_l|]. cbn [app foldr]. by rewrite IH, Z.lxor_assoc.
Qed.

Lemma shards_seq s : store_inv s -> shards_ s = (fun j => shard_at j s) <$> seq 0 SHARDS.
Proof.
  intros Hs. apply list_eq. intros j. rewrite list_lookup_fmap.
  destruct (decide (j < SHARDS)%nat) as [Hj|Hj].
  - rewrite lookup_seq_lt by done. cbn [fmap option_fmap option_map Nat.add].
    destruct (lookup_lt_is_Some_2 (shards_ s) j) as [m Hm]; [by rewrite (si_len _ Hs)|].
    unfold shard_at. by rewrite Hm.
  - rewrite lookup_ge_None_2 by (rewrite (si_len _ Hs); lia). by rewrite lookup_seq_ge by lia.
Qed.

(** ** Theorems *)

(** C31: on an engine without queued tasks every scan of a prefix finds, in each shard, exactly
    the live data keys (not deleted, not metadata) with the prefix, from [start_key] on, in key
    order, cut to the limit (but never to less than one).  The routines for one shard return
    that, or nothing for an index out of range; those for all shards return the lists of the
    shards one after the other, so that order and limit hold shard by shard only.  The engine is
    unchanged. *)
Theorem prefix_scan_exact prefix start_key limit i e :
  idle e -> store_inv (store e) ->
  let found j := visible_entries prefix start_key (shard_at j (store e)) in
  let texts := entry_text (zstd_manager_ (store e)) in
  get_prefix_chunk prefix i start_key limit e =
    Some (Ok (if (SHARDS <=? i)%nat then [] else take (page_size limit) (texts <$> found i)), e) /\
  get_prefix_keys prefix i start_key limit e =
    Some (Ok (if (SHARDS <=? i)%nat then [] else take (page_size limit) (found i).*1), e) /\
  get_prefix_entries_all_shards prefix start_key limit e =
    Some (Ok (concat ((fun j => take (page_size limit) (texts <$> found j)) <$> seq 0 SHARDS)), e) /\
  get_prefix_keys_all_shards prefix start_key limit e =
    Some (Ok (concat ((fun j => take (page_size limit) (found j).*1) <$> seq 0 SHARDS)), e).
Proof.
  intros Hi Hs. cbn zeta. unfold get_prefix_chunk, get_prefix_keys, get_prefix_entries_all_shards,
    get_prefix_keys_all_shards.
  rewrite !read_shards_idle by (done || apply all_shards).
  split; [|split; [|split]].
  - destruct (Nat.leb_spec SHARDS i); [done|]. by rewrite read_shard_idle, chunk_scan_spec.
  - destruct (Nat.leb_spec SHARDS i); [done|]. rewrite read_shard_idle by done.
    by destruct (keys_scan_spec prefix i start_key limit (store e) Hs) as [-> _].
  - do 4 f_equal. apply list_fmap_ext. intros _ j _. by rewrite chunk_scan_spec.
  - do 4 f_equal. apply list_fmap_ext. intros _ j _.
    by destruct (keys_scan_spec prefix j start_key limit (store e) Hs) as [_ ->].
Qed.

(** With a limit no shard exceeds, [get_prefix_entries_all_shards] is complete and
    sound: it returns a key exactly when the key has the prefix, is not below [start_key],
    is not a metadata key and holds a non-empty document, and with the text [get] answers. *)
Theorem prefix_scan_complete prefix start_key limit e :
  idle e -> store_inv (store e) ->
  (forall j, (length (shard_at j (store e)) <= limit)%nat) ->
  exists res, get_prefix_entries_all_shards prefix start_key limit e = Some (Ok res, e) /\
  forall k v, (k, v) ∈ res <->
    starts_with k prefix = true /\ bytes_ltb k start_key = false /\ ends_with k (str ":meta") = false /\
    (exists b, get_view k (store e) = Some b /\ buf_ b <> []) /\ get k ADMIN_UID (store e) = v.
Proof.
  intros Hi Hs Hlim. eexists. split.
  { unfold get_prefix_entries_all_shards. rewrite read_shards_idle by (done || apply all_shards). done. }
  intros k v. rewrite concat_elem. setoid_rewrite chunk_scan_spec; [|done].
  assert (forall j, (length (entry_text (zstd_manager_ (store e)) <$>
    visible_entries prefix start_key (shard_at j (store e))) <= page_size limit)%nat) as Hlen.
  { intros j. rewrite length_fmap. etrans; [apply filter_length_le|]. etrans; [apply Hlim|].
    unfold page_size. lia. }
  unfold get. change (negb (may_read (check_permission ADMIN_UID k _))) with false.
  split.
  - intros (j & Hj & Hin). rewrite take_ge in Hin by apply Hlen.
    apply list_elem_of_fmap in Hin as ([k' p] & [= -> ->] & Hin).
    apply list_elem_of_In, filter_In in Hin as [Hin Hv]. apply list_elem_of_In in Hin.
    apply elem_of_seq in Hj. apply shard_at_elem in Hin as (_ & b & -> & Hb); [|done|lia].
    unfold visible in Hv. cbn [fst snd dead] in Hv. bool_prop. rewrite Hb.
    repeat split; try done. exists b. split; [done|]. by destruct (buf_ b).
  - intros (Hp & Hst & Hm & (b & Hb & Hne) & Hg). rewrite Hb in Hg. subst v.
    exists (get_routing_shard k). pose proof (routing_lt k) as Hj.
    split; [apply elem_of_seq; lia|]. rewrite take_ge by apply Hlen.
    apply list_elem_of_fmap. exists (k, Some b). split; [done|].
    apply list_elem_of_In, filter_In. split.
    + apply list_elem_of_In, shard_at_elem; eauto.
    + unfold visible. cbn [fst snd dead]. rewrite Hp, Hst, Hm. by destruct (buf_ b).
Qed.

(** The listing of a bucket. *)
Definition listing (b : nat) (s : Store) : list (bytes * Z) :=
  concat ((fun i => bucket_entries (Z.of_nat b) (shard_at i s)) <$> seq 0 SHARDS).

Lemma get_bucket_keys_idle b e :
  idle e -> get_bucket_keys (Z.of_nat b) e = Some (Ok (listing b (store e)), e).
Proof. intros Hi. unfold get_bucket_keys. rewrite read_shards_idle by (done || apply all_shards). done. Qed.

(** Exactly the keys of the bucket, with the hashes of their stored bytes. *)
Lemma listing_elem b s k h :
  store_inv s -> (b < L4_SIZE)%nat ->
  (k, h) ∈ listing b s <-> bucket_of k = b /\ fnv1a_64 <$> view_bytes k s = Some h.
Proof.
  intros Hs Hb. unfold listing. rewrite concat_elem. setoid_rewrite bucket_entries_select; [|done].
  setoid_rewrite (m_select_elem _ _ _ k h). split.
  - intros (j & Hj & Hk & p & Hin & ->). apply bool_decide_eq_true in Hk. apply elem_of_seq in Hj.
    apply shard_at_elem in Hin as (_ & nb & -> & Hv); [|done|lia].
    unfold view_bytes. by rewrite Hv.
  - intros (Hk & Hh). unfold view_bytes in Hh. destruct (get_view k s) as [nb|] eqn:Hv; [|done].
    exists (get_routing_shard k). pose proof (routing_lt k). split; [apply elem_of_seq; lia|].
    split; [by apply bool_decide_eq_true_2|]. exists (Some nb).
    split; [apply shard_at_elem; eauto|]. by injection Hh as <-.
Qed.

(** The key listing of a bucket explains its Merkle leaf: [get_bucket_keys] returns
    exactly the keys of the bucket with the hashes of their stored bytes, and their
    exclusive or is the leaf of the tree, so two nodes whose leaves differ have different
    listings. *)
Theorem bucket_listing_explains_leaf b e :
  idle e -> store_inv (store e) -> (b < L4_SIZE)%nat ->
  exists ks, get_bucket_keys (Z.of_nat b) e = Some (Ok ks, e) /\
    (forall k h, (k, h) ∈ ks <-> bucket_of k = b /\ fnv1a_64 <$> view_bytes k (store e) = Some h) /\
    leaves_ (merkle_ (store e)) !! b = Some (foldr (fun e acc => Z.lxor e.2 acc) 0 ks).
Proof.
  intros Hi Hs Hb. exists (listing b (store e)). split; [by apply get_bucket_keys_idle|]. split.
  - intros k h. by apply listing_elem.
  - rewrite (si_leaves _ Hs) by done. f_equal. unfold store_leaf, listing. rewrite (shards_seq _ Hs) at 1.
    generalize (seq 0 SHARDS) as l. induction l as [|j l IH]; [done|]. cbn [fmap list_fmap concat foldr].
    rewrite xor_app, <- IH, bucket_entries_select by done. by rewrite leaf_sum_select.
Qed.

End Scan.

(** ** A concrete store *)

Definition scan_engine : Engine :=
  mkEngine (run_ops ops_ab store_new) (wal_open []) (hlc_new 1) (replicate SHARDS []) [] [].

Lemma scan_engine_inv : store_inv (store scan_engine).
Proof.
  refine (im_inv _ _ (run_ops_implements ops_ab store_new kv_new implements_new _)).
  apply (bool_decide_unpack _). by vm_compute.
Qed.

Lemma prefix_scan_exact_witness :
  get_prefix_keys_all_shards [] [] 0 scan_engine = Some (Ok [str "a"; str "b"], scan_engine).
Proof.
  destruct (prefix_scan_exact [] [] 0 0 scan_engine eq_refl scan_engine_inv) as (_ & _ & _ & H).
  rewrite H.
  match goal with |- context [Ok ?x] => assert (x = [str "a"; str "b"]) as ->; [|reflexivity] end.
  vm_compute. reflexivity.
Defined.

Lemma prefix_scan_complete_witness :
  exists res, get_prefix_entries_all_shards (str "a") [] 10 scan_engine = Some (Ok res, scan_engine) /\
    (str "a", str "1") ∈ res /\ (str "b", str "2") ∉ res.
Proof.
  destruct (prefix_scan_complete (str "a") [] 10 scan_engine eq_refl scan_engine_inv) as (res & E & H).
  - intros j. unfold shard_at. destruct (shards_ (store scan_engine) !! j) as [m|] eqn:Ej; [|cbn; lia].
    assert (Forall (fun m => (length m <= 10)%nat) (shards_ (store scan_engine))) as Hall
      by (apply (bool_decide_unpack _); vm_compute; exact I).
    rewrite Forall_lookup in Hall. exact (Hall j m Ej).
  - exists res. split; [exact E|]. split.
    + apply H. split; [reflexivity|]. split; [reflexivity|]. split; [reflexivity|]. split.
      * eexists. split; [vm_compute; reflexivity|done].
      * vm_compute. reflexivity.
    + intros Hin. apply H in Hin as [Hp _]. discriminate Hp.
Defined.

Lemma bucket_listing_explains_leaf_witness :
  exists ks, get_bucket_keys (Z.of_nat (bucket_of (str "a"))) scan_engine = Some (Ok ks, scan_engine) /\
    (str "a", fnv1a_64 (str "1")) ∈ ks.
Proof.
  destruct (bucket_listing_explains_leaf (bucket_of (str "a")) scan_engine eq_refl scan_engine_inv
    (bucket_of_lt _)) as (ks & E & H & _).
  exists ks. split; [exact E|]. apply H. split; [reflexivity|]. vm_compute. reflexivity.
Defined.
