(* ===== verification/Sync.v ===== *)
(** * Anti-entropy (src/engine/sync_manager.hpp)

    The wire format and the handlers of [SyncManager]: comparing Merkle roots, descending to
    the divergent buckets, exchanging bucket listings, and transferring values as mutations.
    A handler is an engine operation that answers the messages it hands to
    [mesh_.send], in order.  The metrics calls are in [SyncMetrics]; trace
    output is not modelled. *)
From Stdlib Require Import SpecFloat.
From S2P Require Import Prelude CxxString Clock Extern Merkle Wal OrdMap Blob Credential.
From S2P Require Import KeyBuilder ReplicationLog Samples Store StoreSpec Engine EngineProps.
From S2P Require Import Scan.

Inductive Lane := Control | Express | Standard | Heavy.

Record Msg := mkMsg { msg_to : Z; msg_lane : Lane; msg_body : bytes }.

Inductive MsgType :=
| SYNC_INIT | SYNC_REQ_NODE | SYNC_REP_NODE | SYNC_REQ_BUCKET | SYNC_REP_BUCKET
| SYNC_GET_VAL | SYNC_PUT_VAL.

Definition msgtype_byte (t : MsgType) : Byte.byte :=
  match t with
  | SYNC_INIT => Byte.x01
  | SYNC_REQ_NODE => Byte.x02
  | SYNC_REP_NODE => Byte.x03
  | SYNC_REQ_BUCKET => Byte.x04
  | SYNC_REP_BUCKET => Byte.x05
  | SYNC_GET_VAL => Byte.x06
  | SYNC_PUT_VAL => Byte.x07
  end.

Definition read16 (buf : bytes) (off : nat) : Z := le_combine (take 2 (drop off buf)).
Definition read32 (buf : bytes) (off : nat) : Z := le_combine (take 4 (drop off buf)).
Definition read64 (buf : bytes) (off : nat) : Z := le_combine (take 8 (drop off buf)).
Definition byte_at (buf : bytes) (off : nat) : Byte.byte := default Byte.x00 (buf !! off).

(** ** Conversions through [double] in [parse_meta] *)

(** [(double)i] for an [int64_t], rounding to nearest. *)
Definition double_of_int64 (i : Z) : spec_float := binary_normalize 53 1024 i 0 false.

(** [(int64_t)w]: truncation; [overflow] is what the conversion of a value out of range or
    of a NaN gives, which C++ leaves undefined. *)
Definition int64_of_double (overflow : Z) (w : spec_float) : Z :=
  match w with
  | S754_zero _ => 0
  | S754_finite s m e =>
      let a := if 0 <=? e then Z.pos m * 2 ^ e else Z.pos m / 2 ^ (- e) in
      let v := if s then - a else a in
      if (- 2 ^ 63 <=? v) && (v <? 2 ^ 63) then v else overflow
  | _ => overflow
  end.

Section Sync.
Context {xxh : XXH3} {l3 : Lite3} {zs : Zstd} {srt : StdSort}.

(** What the program reads where it reads out of bounds: the memory behind a message, and
    a tree node that does not exist; what an undefined conversion gives; what a view of a
    dead string reads. *)
Context (beyond : bytes) (wild : Z -> Z -> Z) (overflow : Z) (stale : bytes -> bytes).

(** The node's identity. *)
Context (node_id_ : Z).

Local Open Scope l3kv_scope.

(** ** Tree access *)

Definition set_merkle (t : MerkleTree) (e : Engine) : Engine :=
  let s := store e in
  set_store (mkStore (shards_ s) t (zstd_manager_ s) (credentials_ s)) e.

Definition get_merkle_root_hash : M Z := fun e =>
  let '(h, t) := get_root_hash (merkle_ (store e)) in Some (Ok h, set_merkle t e).

(** The index is passed as an [int] and read as a [size_t]. *)
Definition get_merkle_node (level child_idx : Z) (e : Engine) : Z :=
  default (wild level child_idx) (get_node_hash (merkle_ (store e)) level (i32 child_idx)).

(** [parent_idx * 16 + i] in [uint32_t]. *)
Definition child_index (parent_idx : Z) (i : nat) : Z := u32 (parent_idx * 16 + Z.of_nat i).

(** ** Messages *)

Definition header (t : MsgType) : bytes := msgtype_byte t :: le32 node_id_.

Definition sync_init_msg (root : Z) : bytes := header SYNC_INIT ++ le64 root.

Definition send_sync_init (target : Z) : M (list Msg) :=
  let! root := get_merkle_root_hash in
  ret [mkMsg target Control (sync_init_msg root)].

Definition send_req_node (to level idx_base : Z) : Msg :=
  mkMsg to Control (header SYNC_REQ_NODE ++ [byte.of_Z level] ++ le32 idx_base).

Definition send_req_bucket (to bucket_idx : Z) : Msg :=
  mkMsg to Control (header SYNC_REQ_BUCKET ++ le32 bucket_idx).

Definition send_get_val (to : Z) (key : bytes) : Msg :=
  mkMsg to Heavy (header SYNC_GET_VAL ++ key).

(** ** Handlers *)

Definition on_sync_init (from : Z) (buf : bytes) : M (list Msg) :=
  if (length buf <? 13)%nat then ret []
  else
    let their_root := read64 buf 5 in
    let! my_root := get_merkle_root_hash in
    if my_root =? their_root then ret [] else ret [send_req_node from 1 0].

Definition on_req_node (from : Z) (buf : bytes) : M (list Msg) :=
  if (length buf <? 10)%nat then ret []
  else
    let level := byte_at buf 5 in
    let parent_idx := read32 buf 6 in
    let! hashes := gets (fun e =>
      (fun i => get_merkle_node (byte.unsigned level) (child_index parent_idx i) e) <$> seq 0 16) in
    ret [mkMsg from Control
           (header SYNC_REP_NODE ++ [level] ++ [Byte.x00; Byte.x00; Byte.x00] ++ le32 parent_idx
            ++ concat (le64 <$> hashes))].

(** The 16 hashes are read whatever the length of the message. *)
Definition on_rep_node (from : Z) (buf : bytes) : M (list Msg) :=
  if (length buf <? 13)%nat then ret []
  else
    let level := byte.unsigned (byte_at buf 5) in
    let parent_idx := read32 buf 9 in
    let memory := buf ++ beyond in
    gets (fun e => concat ((fun i : nat =>
      let their_h := read64 memory (13 + i * 8) in
      let child_idx := child_index parent_idx i in
      let my_h := get_merkle_node level child_idx e in
      if my_h =? their_h then []
      else if level =? 4 then [send_req_bucket from child_idx]
      else [send_req_node from (u8 (level + 1)) child_idx]) <$> seq 0 16)).

Definition is_meta (key : bytes) : bool := ends_with key (str ":meta").

Definition listing_entry (pair : bytes * Z) : bytes :=
  if is_meta pair.1 then []
  else
    let klen := u16 (zlen pair.1) in
    le16 klen ++ take (Z.to_nat klen) pair.1 ++ le64 pair.2.

Definition on_req_bucket (from : Z) (buf : bytes) : M (list Msg) :=
  if (length buf <? 9)%nat then ret []
  else
    let bucket_idx := read32 buf 5 in
    let! keys := get_bucket_keys bucket_idx in
    let count := u32 (zlen keys) in
    ret [mkMsg from Heavy
           (header SYNC_REP_BUCKET ++ le32 bucket_idx ++ le32 count
            ++ concat (listing_entry <$> keys))].

(** The loop over the listed keys; [rest] is the message from [pos] on. *)
Fixpoint rep_bucket_loop (fuel : nat) (count : Z) (rest : bytes) (from : Z) (e : Engine) : list Msg :=
  match fuel with
  | O => []
  | S fuel' =>
      if count <=? 0 then []
      else if (length rest <? 10)%nat then []
      else
        let klen := Z.to_nat (read16 rest 0) in
        if (length rest <? 2 + klen + 8)%nat then []
        else
          let key := take klen (drop 2 rest) in
          let their_h := read64 rest (2 + klen) in
          let local_buf := get key ADMIN_UID (store e) in
          let my_h := match local_buf with [] => 0 | _ :: _ => fnv1a_64 local_buf end in
          (if my_h =? their_h then [] else [send_get_val from key])
          ++ rep_bucket_loop fuel' (count - 1) (drop (2 + klen + 8) rest) from e
  end.

(** Every listed key takes at least ten bytes of the message. *)
Definition on_rep_bucket (from : Z) (buf : bytes) : M (list Msg) :=
  if (length buf <? 13)%nat then ret []
  else gets (rep_bucket_loop (S (length buf)) (read32 buf 9) (drop 13 buf) from).

Definition on_get_val (from : Z) (buf : bytes) : M (list Msg) :=
  if (length buf <? 5)%nat then ret []
  else
    let key := drop 5 buf in
    let! meta := gets (fun e => get (key ++ str ":meta") ADMIN_UID (store e)) in
    match meta with
    | [] => ret []
    | _ :: _ =>
        let! val := gets (fun e => get key ADMIN_UID (store e)) in
        ret [mkMsg from Heavy
               (header SYNC_PUT_VAL ++ le16 (u16 (zlen key)) ++ key
                ++ le16 (u16 (zlen meta)) ++ meta ++ val)]
    end.

Record ParsedMeta := mkParsed { ts : Timestamp; is_tombstone : bool }.

Definition no_meta : ParsedMeta := mkParsed (mkTimestamp 0 0 0) false.

(** A field read when it has type [Int64] or [Float64], otherwise zero. *)
Definition read_u32_field (buf k : bytes) : option Z :=
  t ← get_type buf k;
  if bool_decide (t = TInt64) || bool_decide (t = TFloat64) then u32 <$> get_i64 buf k else Some 0.

Definition parse_meta_try (buf : bytes) : option ParsedMeta :=
  t ← get_type buf (str "ts");
  w ← (if decide (t = TFloat64) then get_f64 buf (str "ts")
       else if decide (t = TInt64) then double_of_int64 <$> get_i64 buf (str "ts")
       else Some (S754_zero false));
  l ← read_u32_field buf (str "l");
  n ← read_u32_field buf (str "n");
  tt ← get_type buf (str "tombstone");
  tombstone ← (if decide (tt = TBool) then get_bool buf (str "tombstone") else Some false);
  Some (mkParsed (mkTimestamp (int64_of_double overflow w) l n) tombstone).

Definition parse_meta (meta_bytes : bytes) : ParsedMeta :=
  match meta_bytes with
  | [] => no_meta
  | _ :: _ => default no_meta (parse_meta_try meta_bytes)
  end.

(** The message's key, metadata and value, when it is long enough. *)
Definition put_val_fields (buf : bytes) : option (bytes * bytes * bytes) :=
  let pos := 5%nat in
  if (length buf <? pos + 2)%nat then None
  else
    let klen := Z.to_nat (read16 buf pos) in
    let pos := (pos + 2)%nat in
    if (length buf <? pos + klen)%nat then None
    else
      let key := take klen (drop pos buf) in
      let pos := (pos + klen)%nat in
      if (length buf <? pos + 2)%nat then None
      else
        let mlen := Z.to_nat (read16 buf pos) in
        let pos := (pos + 2)%nat in
        if (length buf <? pos + mlen)%nat then None
        else
          let meta := take mlen (drop pos buf) in
          let pos := (pos + mlen)%nat in
          Some (key, meta, drop pos buf).

Definition on_put_val (from : Z) (buf : bytes) : M (list Msg) :=
  match put_val_fields buf with
  | None => ret []
  | Some (key, meta, val) =>
      let parsed := parse_meta meta in
      let m := mkMutation (ts parsed) key val (is_tombstone parsed) in
      let! _ := apply_mutation stale m in ret []
  end.

(** [handle_message]: an exception ends the handler and is reported; the handlers that can
    throw have sent nothing by then. *)
Definition handle_message (payload : bytes) : M (list Msg) := fun e =>
  if (length payload <? 5)%nat then Some (Ok [], e)
  else
    let type := byte_at payload 0 in
    let sender_id := read32 payload 1 in
    let handler :=
      if decide (type = msgtype_byte SYNC_INIT) then on_sync_init sender_id payload
      else if decide (type = msgtype_byte SYNC_REQ_NODE) then on_req_node sender_id payload
      else if decide (type = msgtype_byte SYNC_REP_NODE) then on_rep_node sender_id payload
      else if decide (type = msgtype_byte SYNC_REQ_BUCKET) then on_req_bucket sender_id payload
      else if decide (type = msgtype_byte SYNC_REP_BUCKET) then on_rep_bucket sender_id payload
      else if decide (type = msgtype_byte SYNC_GET_VAL) then on_get_val sender_id payload
      else if decide (type = msgtype_byte SYNC_PUT_VAL) then on_put_val sender_id payload
      else ret [] in
    match handler e with
    | Some (Throw _, e') => Some (Ok [], e')
    | r => r
    end.

(** [trigger_gossip]: [pick] is the random index among the active peers. *)
Definition trigger_gossip (peers : list Z) (pick : nat) : M (list Msg) :=
  match peers with
  | [] => ret []
  | _ :: _ => match peers !! pick with
              | Some target => send_sync_init target
              | None => ret []
              end
  end.

End Sync.
