(* ===== verification/SyncProps.v ===== *)
(** * What anti-entropy achieves (src/engine/sync_manager.hpp)

    Two nodes run the handlers of Sync.v against each other: a round of gossip asks for
    exactly the buckets whose leaves differ, a listing asks for exactly the keys whose
    hashes differ, and a transferred value arrives as the mutation it was stored with. *)
From Stdlib Require Import SpecFloat.
From S2P Require Import Prelude CxxString Clock Extern Merkle Wal OrdMap Blob Credential.
From S2P Require Import KeyBuilder ReplicationLog Samples Store StoreSpec Engine EngineProps.
From S2P Require Import Lww Scan Sync.

(** ** Reading what was written *)

Lemma read32_app a z rest : 0 <= z < 2 ^ 32 -> read32 (a ++ le32 z ++ rest) (length a) = z.
Proof.
  intros Hz. unfold read32. rewrite drop_app_length, take_app_length' by done.
  rewrite le_combine_le32. by apply u32_small.
Qed.

Lemma read64_app a z rest : 0 <= z < 2 ^ 64 -> read64 (a ++ le64 z ++ rest) (length a) = z.
Proof.
  intros Hz. unfold read64. rewrite drop_app_length, take_app_length' by done.
  rewrite le_combine_le64. by apply u64_small.
Qed.

Lemma read16_app a z rest : 0 <= z < 2 ^ 16 -> read16 (a ++ le16 z ++ rest) (length a) = z.
Proof.
  intros Hz. unfold read16. rewrite drop_app_length, take_app_length' by done.
  rewrite le_combine_le16. by apply u16_small.
Qed.

Lemma length_concat_le64 (hs : list Z) : length (concat (le64 <$> hs)) = (length hs * 8)%nat.
Proof. induction hs as [|h hs IH]; [done|]. cbn [fmap list_fmap concat]. rewrite length_app, length_le64, IH. cbn. lia. Qed.

(** The [i]-th of a sequence of 64-bit words. *)
Lemma read64_array a (hs : list Z) i h rest :
  hs !! i = Some h -> 0 <= h < 2 ^ 64 ->
  read64 (a ++ concat (le64 <$> hs) ++ rest) (length a + i * 8) = h.
Proof.
  intros Hi Hh. rewrite <- (take_drop_middle hs i h Hi).
  rewrite fmap_app, concat_app. cbn [fmap list_fmap concat].
  assert (length (a ++ concat (le64 <$> take i hs)) = (length a + i * 8)%nat) as <-.
  { rewrite length_app, length_concat_le64, length_take. apply lookup_lt_Some in Hi. lia. }
  rewrite <- !app_assoc, (app_assoc a). by apply read64_app.
Qed.

(** ** Integers in [double] *)

Lemma iter_xO m q : Z.pos (Pos.iter xO m q) = Z.pos m * 2 ^ Z.pos q.
Proof.
  revert q. induction q as [|q IH] using Pos.peano_ind; [cbn; lia|].
  rewrite Pos.iter_succ, Pos2Z.inj_succ, Z.pow_succ_r by lia.
  change (Z.pos (xO (Pos.iter xO m q))) with (2 * Z.pos (Pos.iter xO m q)). rewrite IH. lia.
Qed.

Lemma digits_log2 m : Z.pos (digits2_pos m) = Z.log2 (Z.pos m) + 1.
Proof.
  induction m as [m IH|m IH|]; cbn [digits2_pos]; rewrite ?Pos2Z.inj_succ, ?IH; [| |done].
  - change (Z.pos m~1) with (2 * Z.pos m + 1). rewrite Z.log2_succ_double by lia. lia.
  - change (Z.pos m~0) with (2 * Z.pos m). rewrite Z.log2_double by lia. lia.
Qed.

Lemma digits_iter m q : Z.pos (digits2_pos (Pos.iter xO m q)) = Z.pos (digits2_pos m) + Z.pos q.
Proof.
  rewrite !digits_log2, iter_xO. rewrite Z.log2_mul_pow2 by lia. lia.
Qed.

Lemma round_aux_exact sx m e :
  Z.pos (digits2_pos m) = 53 -> - 1074 <= e <= 0 ->
  binary_round_aux 53 1024 sx (Z.pos m) e loc_Exact = S754_finite sx m e.
Proof.
  intros Hd He. unfold binary_round_aux, shr_fexp, fexp. cbn [Zdigits2]. rewrite Hd.
  change (emin 53 1024) with (-1074).
  replace (Z.max (53 + e - 53) (-1074) - e) with 0 by lia. cbn [shr shr_record_of_loc shr_m loc_of_shr_record round_nearest_even Zdigits2].
  rewrite Hd. replace (Z.max (53 + e - 53) (-1074) - e) with 0 by lia. cbn [shr shr_record_of_loc shr_m].
  destruct (Z.leb_spec e (1024 - 53)); [done|lia].
Qed.

Lemma round_small sx m :
  Z.pos m < 2 ^ 53 ->
  exists mz ez, binary_round 53 1024 sx m 0 = S754_finite sx mz ez /\ ez <= 0 /\
    Z.pos mz = Z.pos m * 2 ^ (- ez).
Proof.
  intros Hm. pose proof (digits_log2 m) as Hd.
  assert (Z.log2 (Z.pos m) < 53) as Hlt by (apply Z.log2_lt_pow2; lia).
  unfold binary_round. rewrite Z.add_0_r. unfold fexp. change (emin 53 1024) with (-1074).
  replace (Z.max (Z.pos (digits2_pos m) - 53) (-1074)) with (Z.pos (digits2_pos m) - 53) by lia.
  unfold shl_align. rewrite Z.sub_0_r.
  destruct (Z.pos (digits2_pos m) - 53) as [|q|q] eqn:Eq; [|lia|].
  - exists m, 0. rewrite round_aux_exact by lia. split; [done|]. split; [lia|]. rewrite Z.mul_1_r. done.
  - exists (Pos.iter xO m q), (Z.neg q).
    rewrite round_aux_exact; [|rewrite digits_iter; lia|lia].
    split; [done|]. split; [lia|]. apply iter_xO.
Qed.

(** Integers below 2^53 in absolute value pass through [double] unchanged. *)
Lemma double_roundtrip overflow i :
  - 2 ^ 53 < i < 2 ^ 53 -> int64_of_double overflow (double_of_int64 i) = i.
Proof.
  intros Hi. unfold double_of_int64, binary_normalize.
  assert (forall s m, Z.pos m < 2 ^ 53 ->
    int64_of_double overflow (binary_round 53 1024 s m 0) = if s then Z.neg m else Z.pos m) as H.
  { intros s m Hm. destruct (round_small s m Hm) as (mz & ez & -> & Hez & Hmz).
    cbn [int64_of_double].
    assert ((if 0 <=? ez then Z.pos mz * 2 ^ ez else Z.pos mz / 2 ^ (- ez)) = Z.pos m) as ->.
    { destruct (Z.leb_spec 0 ez); [replace ez with 0 in * by lia; rewrite Hmz; cbn; lia|].
      rewrite Hmz. apply Z.div_mul. apply Z.pow_nonzero; lia. }
    destruct s.
    - destruct (Z.leb_spec (- 2 ^ 63) (- Z.pos m)); [|lia].
      destruct (Z.ltb_spec (- Z.pos m) (2 ^ 63)); [done|lia].
    - destruct (Z.leb_spec (- 2 ^ 63) (Z.pos m)); [|lia].
      destruct (Z.ltb_spec (Z.pos m) (2 ^ 63)); [done|lia]. }
  destruct i as [|m|m]; [done|by rewrite H by lia|]. rewrite H by lia. done.
Qed.

Section SyncProps.
Context {xxh : XXH3} {l3 : Lite3} {zs : Zstd} {srt : StdSort}.
Context (beyond : bytes) (wild : Z -> Z -> Z) (overflow : Z) (stale : bytes -> bytes).

Abbreviation handle := (handle_message beyond wild overflow stale).

Definition sent (r : option (result (list Msg) * Engine)) : list Msg :=
  match r with Some (Ok ms, _) => ms | _ => [] end.

(** ** A round of gossip *)

(** Node [b] asked node [a] for tree nodes; the exchange goes on until only requests for
    buckets are left.  Each round trip goes down one level, so four are enough. *)
Fixpoint drill (fuel : nat) (a b : Z) (ea eb : Engine) (m : Msg) : list Msg :=
  match fuel with
  | O => [m]
  | S fuel' =>
      if decide (byte_at (msg_body m) 0 = msgtype_byte SYNC_REQ_NODE) then
        flat_map (fun reply =>
          flat_map (drill fuel' a b ea eb) (sent (handle b (msg_body reply) eb)))
          (sent (handle a (msg_body m) ea))
      else [m]
  end.

Definition after_root (e : Engine) : Engine :=
  match get_merkle_root_hash e with Some (_, e') => e' | None => e end.

(** Node [a] gossips its root to node [b], and [b] follows up. *)
Definition gossip_round (a b : Z) (ea eb : Engine) : list Msg :=
  flat_map (fun m0 =>
    flat_map (drill 4 a b (after_root ea) (after_root eb)) (sent (handle b (msg_body m0) eb)))
    (sent (send_sync_init a b ea)).

(** ** The levels of a tree *)

Definition level (l : nat) (leaves : list Z) : list Z :=
  match l with
  | 0%nat => [full_root leaves]
  | 1%nat => full_l1 leaves
  | 2%nat => full_l2 leaves
  | 3%nat => full_l3 leaves
  | _ => leaves
  end.

Definition leaves_of (e : Engine) : list Z := leaves_ (merkle_ (store e)).

(** Different blocks of the two trees have different hashes. *)
Definition no_collision (la lb : list Z) : Prop := forall l c,
  (l < 4)%nat ->
  hash_block (block (level (S l) la) c) = hash_block (block (level (S l) lb) c) ->
  block (level (S l) la) c = block (level (S l) lb) c.

Definition words (ws : list Z) : Prop := Forall (fun w => 0 <= w < 2 ^ 64) ws.

(** A tree whose levels are up to date. *)
Definition fresh (e : Engine) : Prop :=
  let t := merkle_ (store e) in
  length (leaves_ t) = L4_SIZE /\ l3_ t = full_l3 (leaves_ t) /\ l2_ t = full_l2 (leaves_ t) /\
  l1_ t = full_l1 (leaves_ t).

Lemma after_root_fresh e :
  merkle_inv (merkle_ (store e)) -> fresh (after_root e) /\ leaves_of (after_root e) = leaves_of e.
Proof.
  intros Hm. unfold after_root, get_merkle_root_hash, get_root_hash, fresh, leaves_of.
  cbn [set_merkle set_store store merkle_]. rewrite (recompute_dirty_spec _ Hm).
  cbn [set_merkle set_store store merkle_ leaves_ l3_ l2_ l1_].
  split; [|reflexivity]. split; [apply (mi_leaves _ Hm)|]. split; [reflexivity|]. split; reflexivity.
Qed.

Lemma level_size l leaves :
  length leaves = L4_SIZE -> (l <= 4)%nat -> length (level l leaves) = (16 ^ l)%nat.
Proof.
  intros Hl Hle. destruct l as [|[|[|[|[|l]]]]]; [..|lia]; cbn [level Nat.pow];
    unfold full_l1, full_l2, full_l3; rewrite ?length_level_of, ?Hl.
  all: unfold L4_SIZE, L3_SIZE; cbn [length]; lia.
Qed.

Lemma level_lookup l leaves c :
  (1 <= l <= 3)%nat -> (c < 16 ^ l)%nat ->
  level l leaves !! c = Some (hash_block (block (level (S l) leaves) c)).
Proof.
  intros Hl Hc. destruct l as [|[|[|[|l]]]]; try lia; cbn [level];
    unfold full_l1, full_l2, full_l3; by apply lookup_level_of.
Qed.

Lemma node_lookup e l c :
  fresh e -> (1 <= l <= 4)%nat -> (c < 16 ^ l)%nat ->
  Some (get_merkle_node wild (Z.of_nat l) (Z.of_nat c) e) = level l (leaves_of e) !! c.
Proof.
  intros (Hlen & H3 & H2 & H1) Hl Hc.
  assert (Z.of_nat c < 2 ^ 31) as Hc31.
  { assert (16 ^ l <= 16 ^ 4)%nat by (apply Nat.pow_le_mono_r; lia).
    cbn [Nat.pow] in *. lia. }
  assert (i32 (Z.of_nat c) = Z.of_nat c) as Hi by (unfold i32; rewrite Z.mod_small; lia).
  destruct (lookup_lt_is_Some_2 (level l (leaves_of e)) c) as [h Hh].
  { rewrite level_size; [done| |lia]. apply Hlen. }
  rewrite Hh. f_equal. unfold get_merkle_node, get_node_hash. rewrite Hi, Nat2Z.id.
  destruct (Z.leb_spec 0 (Z.of_nat c)); [|lia].
  destruct l as [|[|[|[|[|l]]]]]; try lia; cbn [level] in Hh; unfold leaves_of in Hh.
  all: cbn [Z.of_nat Pos.of_succ_nat Pos.succ Z.eqb Pos.eqb];
    rewrite ?H1, ?H2, ?H3, Hh; reflexivity.
Qed.

(** ** One round trip *)

Context {xxh_ok : XXH3Spec}.

Definition node_id_ok (a : Z) : Prop := 0 <= a < 2 ^ 32.

Lemma child_index_small l p i :
  (1 <= l <= 4)%nat -> (p < 16 ^ (l - 1))%nat -> (i < 16)%nat ->
  child_index (Z.of_nat p) i = Z.of_nat (p * 16 + i) /\ (p * 16 + i < 16 ^ l)%nat.
Proof.
  intros Hl Hp Hi. assert (p * 16 + i < 16 ^ l)%nat as Hlt.
  { replace l with (S (l - 1)) by lia. cbn [Nat.pow]. lia. }
  split; [|done]. assert (16 ^ l <= 16 ^ 4)%nat by (apply Nat.pow_le_mono_r; lia).
  unfold child_index. rewrite u32_small; [lia|]. cbn [Nat.pow] in *. lia.
Qed.

Definition rep_node_body (a : Z) (l : nat) (p : nat) (hashes : list Z) : bytes :=
  header a SYNC_REP_NODE ++ [byte.of_Z (Z.of_nat l)] ++ [Byte.x00; Byte.x00; Byte.x00]
  ++ le32 (Z.of_nat p) ++ concat (le64 <$> hashes).

Lemma small_index p l : (1 <= l <= 4)%nat -> (p < 16 ^ (l - 1))%nat -> 0 <= Z.of_nat p < 2 ^ 32.
Proof.
  intros Hl Hp. assert (16 ^ (l - 1) <= 16 ^ 3)%nat by (apply Nat.pow_le_mono_r; lia).
  cbn [Nat.pow] in *. lia.
Qed.

Lemma level_byte l : (l <= 4)%nat -> byte.unsigned (byte.of_Z (Z.of_nat l)) = Z.of_nat l.
Proof. intros Hl. rewrite byte.unsigned_of_Z. apply Z.mod_small. lia. Qed.

Lemma fmap_seq_children (a b : Z) ea l p :
  (1 <= l <= 4)%nat -> (p < 16 ^ (l - 1))%nat ->
  ((fun i => get_merkle_node wild (Z.of_nat l) (child_index (Z.of_nat p) i) ea) <$> seq 0 16) =
  ((fun i => get_merkle_node wild (Z.of_nat l) (Z.of_nat (p * 16 + i)) ea) <$> seq 0 16).
Proof.
  intros Hl Hp. apply list_fmap_ext. intros k i Hi. apply lookup_seq in Hi as [-> Hi]. cbn [Nat.add].
  by destruct (child_index_small l p k Hl Hp Hi) as [-> _].
Qed.

Lemma req_node_reply a b ea l p :
  node_id_ok b -> (1 <= l <= 4)%nat -> (p < 16 ^ (l - 1))%nat ->
  sent (handle a (msg_body (send_req_node b a (Z.of_nat l) (Z.of_nat p))) ea) =
  [mkMsg b Control (rep_node_body a l p
     ((fun i => get_merkle_node wild (Z.of_nat l) (Z.of_nat (p * 16 + i)) ea) <$> seq 0 16))].
Proof.
  intros Hb Hl Hp. pose proof (small_index p l Hl Hp) as Hp32.
  set (buf := msg_body (send_req_node b a (Z.of_nat l) (Z.of_nat p))).
  assert (length buf = 10%nat) as Hlen by done.
  assert (read32 buf 1 = b) as Hfrom by (apply (read32_app [_]); done).
  assert (read32 buf 6 = Z.of_nat p) as Hidx.
  { replace buf with ((msgtype_byte SYNC_REQ_NODE :: le32 b ++ [byte.of_Z (Z.of_nat l)])
      ++ le32 (Z.of_nat p) ++ []) by (unfold buf; cbn; by rewrite app_nil_r).
    by apply read32_app. }
  assert (byte_at buf 5 = byte.of_Z (Z.of_nat l)) as Hlvl by done.
  unfold handle_message. rewrite Hlen, Hfrom.
  change (byte_at buf 0) with (msgtype_byte SYNC_REQ_NODE).
  cbn [Nat.ltb Nat.leb]. rewrite decide_False, decide_True by done.
  unfold on_req_node. rewrite Hlen, Hidx, Hlvl, level_byte by lia.
  cbn [Nat.ltb Nat.leb]. unfold bind, gets, ret, sent. cbn [msg_to].
  rewrite (fmap_seq_children a b ea l p Hl Hp). done.
Qed.

(** What the requester does with child [i] of a reply. *)
Definition compare_child (a b : Z) (l c : nat) (ea eb : Engine) : list Msg :=
  if get_merkle_node wild (Z.of_nat l) (Z.of_nat c) eb =? get_merkle_node wild (Z.of_nat l) (Z.of_nat c) ea
  then []
  else if Z.of_nat l =? 4 then [send_req_bucket b a (Z.of_nat c)]
  else [send_req_node b a (u8 (Z.of_nat l + 1)) (Z.of_nat c)].

Lemma rep_node_compare a b ea eb l p :
  node_id_ok a -> (1 <= l <= 4)%nat -> (p < 16 ^ (l - 1))%nat ->
  (forall c, (c < 16 ^ l)%nat -> 0 <= get_merkle_node wild (Z.of_nat l) (Z.of_nat c) ea < 2 ^ 64) ->
  sent (handle b (rep_node_body a l p
     ((fun i => get_merkle_node wild (Z.of_nat l) (Z.of_nat (p * 16 + i)) ea) <$> seq 0 16)) eb) =
  concat ((fun i => compare_child a b l (p * 16 + i) ea eb) <$> seq 0 16).
Proof.
  intros Ha Hl Hp Hw. pose proof (small_index p l Hl Hp) as Hp32.
  set (hs := (fun i => get_merkle_node wild (Z.of_nat l) (Z.of_nat (p * 16 + i)) ea) <$> seq 0 16).
  set (pre := header a SYNC_REP_NODE ++ [byte.of_Z (Z.of_nat l)] ++ [Byte.x00; Byte.x00; Byte.x00]).
  assert (rep_node_body a l p hs = pre ++ le32 (Z.of_nat p) ++ concat (le64 <$> hs)) as E
    by (unfold rep_node_body, pre; by rewrite <- !app_assoc).
  set (buf := rep_node_body a l p hs) in *.
  assert (length buf = 141%nat) as Hlen.
  { rewrite E, !length_app, length_concat_le64. unfold hs. by rewrite length_fmap, length_seq. }
  assert (read32 buf 1 = a) as Hfrom by (apply (read32_app [_]); done).
  assert (read32 buf 9 = Z.of_nat p) as Hidx by (rewrite E; by apply (read32_app pre)).
  assert (byte_at buf 5 = byte.of_Z (Z.of_nat l)) as Hlvl by done.
  assert (forall i, (i < 16)%nat -> read64 (buf ++ beyond) (13 + i * 8) =
    get_merkle_node wild (Z.of_nat l) (Z.of_nat (p * 16 + i)) ea) as Hread.
  { intros i Hi. destruct (child_index_small l p i Hl Hp Hi) as [_ Hc].
    replace (buf ++ beyond) with ((pre ++ le32 (Z.of_nat p)) ++ concat (le64 <$> hs) ++ beyond)
      by (rewrite E; by rewrite <- !app_assoc).
    change (13 + i * 8)%nat with (length (pre ++ le32 (Z.of_nat p)) + i * 8)%nat.
    apply read64_array; [|by apply Hw]. unfold hs. by rewrite list_lookup_fmap, lookup_seq_lt. }
  unfold handle_message. rewrite Hlen, Hfrom. change (byte_at buf 0) with (msgtype_byte SYNC_REP_NODE).
  cbn [Nat.ltb Nat.leb]. rewrite decide_False, decide_False, decide_True by done.
  unfold on_rep_node. rewrite Hlen, Hidx, Hlvl, level_byte by lia.
  cbn [Nat.ltb Nat.leb]. unfold gets, sent. f_equal. apply list_fmap_ext. intros k i Hi.
  apply lookup_seq in Hi as [-> Hi]. change (0 + k)%nat with k.
  destruct (child_index_small l p k Hl Hp Hi) as [-> _]. by rewrite Hread.
Qed.

(** ** The descent *)

Definition differs (l c : nat) (la lb : list Z) : Prop := level l la !! c <> level l lb !! c.

Lemma node_words e l c :
  fresh e -> words (leaves_of e) -> (1 <= l <= 4)%nat -> (c < 16 ^ l)%nat ->
  0 <= get_merkle_node wild (Z.of_nat l) (Z.of_nat c) e < 2 ^ 64.
Proof.
  intros Hf Hw Hl Hc. pose proof (node_lookup e l c Hf Hl Hc) as Hn.
  destruct (decide (l = 4)%nat) as [->|Hne].
  - unfold words in Hw. rewrite Forall_lookup in Hw. by eapply Hw.
  - rewrite level_lookup in Hn by (lia || done). injection Hn as ->. apply XXH3_range.
Qed.

Lemma differs_parent l c la lb :
  no_collision la lb -> (1 <= l <= 3)%nat -> (c < 16 ^ S l)%nat ->
  differs (S l) c la lb -> differs l (c / 16) la lb.
Proof.
  intros Hnc Hl Hc Hd Heq. apply Hd.
  assert (c / 16 < 16 ^ l)%nat as Hp by (apply Nat.Div0.div_lt_upper_bound; cbn [Nat.pow] in Hc; lia).
  rewrite !level_lookup in Heq by (lia || done). apply (inj Some) in Heq.
  apply Hnc in Heq; [|lia]. unfold block in Heq.
  apply (f_equal (lookup (c mod 16)%nat)) in Heq.
  pose proof (Nat.mod_upper_bound c 16 ltac:(lia)). pose proof (Nat.div_mod_eq c 16).
  rewrite !lookup_take_lt, !lookup_drop in Heq by lia.
  by replace (c / 16 * 16 + c mod 16)%nat with c in Heq by lia.
Qed.

Lemma differs_ancestor n l c la lb :
  no_collision la lb -> (1 <= l)%nat -> (l + n <= 4)%nat -> (c < 16 ^ (l + n))%nat ->
  differs (l + n) c la lb -> differs l (c / 16 ^ n) la lb.
Proof.
  intros Hnc. revert l c. induction n as [|n IH]; intros l c Hl Hle Hc Hd.
  { rewrite Nat.add_0_r in Hd. cbn [Nat.pow]. by rewrite Nat.div_1_r. }
  replace (l + S n)%nat with (S l + n)%nat in * by lia.
  apply IH in Hd; [|lia..|done]. apply differs_parent in Hd; [|done|lia|].
  - rewrite Nat.Div0.div_div in Hd. cbn [Nat.pow]. by rewrite Nat.mul_comm.
  - apply Nat.Div0.div_lt_upper_bound. rewrite <- Nat.pow_add_r. by replace (n + S l)%nat with (S l + n)%nat by lia.
Qed.

Lemma drill_step fuel a b ea eb l p :
  node_id_ok a -> node_id_ok b -> fresh ea -> words (leaves_of ea) ->
  (1 <= l <= 4)%nat -> (p < 16 ^ (l - 1))%nat ->
  drill (S fuel) a b ea eb (send_req_node b a (Z.of_nat l) (Z.of_nat p)) =
  flat_map (drill fuel a b ea eb) (concat ((fun i => compare_child a b l (p * 16 + i) ea eb) <$> seq 0 16)).
Proof.
  intros Ha Hb Hf Hw Hl Hp. cbn [drill].
  change (byte_at (msg_body (send_req_node b a (Z.of_nat l) (Z.of_nat p))) 0)
    with (msgtype_byte SYNC_REQ_NODE).
  rewrite decide_True, req_node_reply by done. cbn [flat_map msg_body].
  rewrite rep_node_compare, app_nil_r by (done || by intros; apply node_words). done.
Qed.

Lemma compare_child_spec a b l c ea eb m :
  fresh ea -> fresh eb -> (1 <= l <= 4)%nat -> (c < 16 ^ l)%nat ->
  m ∈ compare_child a b l c ea eb <->
  differs l c (leaves_of eb) (leaves_of ea) /\
  m = if decide (l = 4)%nat then send_req_bucket b a (Z.of_nat c)
      else send_req_node b a (Z.of_nat (S l)) (Z.of_nat c).
Proof.
  intros Hfa Hfb Hl Hc. unfold compare_child, differs.
  rewrite <- (node_lookup ea l c Hfa Hl Hc), <- (node_lookup eb l c Hfb Hl Hc).
  destruct (Z.eqb_spec (get_merkle_node wild (Z.of_nat l) (Z.of_nat c) eb)
    (get_merkle_node wild (Z.of_nat l) (Z.of_nat c) ea)) as [->|Hne].
  - split; [by intros ?%elem_of_nil|]. intros [Hd _]. by destruct Hd.
  - replace (u8 (Z.of_nat l + 1)) with (Z.of_nat (S l)) by (unfold u8; rewrite Z.mod_small; lia).
    destruct (decide (l = 4)%nat) as [->|Hn4].
    + change (Z.of_nat 4 =? 4) with true. cbn iota. rewrite list_elem_of_singleton.
      split; [intros ->; split; [congruence|done]|by intros [_ ->]].
    + destruct (Z.eqb_spec (Z.of_nat l) 4); [lia|]. rewrite list_elem_of_singleton.
      split; [intros ->; split; [congruence|done]|by intros [_ ->]].
Qed.

Lemma flat_map_elem {A B} (f : A -> list B) l x : x ∈ flat_map f l <-> exists y, y ∈ l /\ x ∈ f y.
Proof.
  rewrite list_elem_of_In, in_flat_map. by setoid_rewrite list_elem_of_In.
Qed.

Lemma drill_bucket fuel a b ea eb c :
  drill fuel a b ea eb (send_req_bucket b a c) = [send_req_bucket b a c].
Proof. by destruct fuel. Qed.

(** From a tree node down: exactly the divergent buckets below it. *)
Lemma drill_spec a b ea eb :
  node_id_ok a -> node_id_ok b -> fresh ea -> fresh eb -> words (leaves_of ea) ->
  no_collision (leaves_of eb) (leaves_of ea) ->
  forall n l p m, (l + n = 4)%nat -> (1 <= l)%nat -> (p < 16 ^ (l - 1))%nat ->
  m ∈ drill (S n) a b ea eb (send_req_node b a (Z.of_nat l) (Z.of_nat p)) <->
  exists c, (c < 16 ^ 4)%nat /\ (c / 16 ^ S n)%nat = p /\
    differs 4 c (leaves_of eb) (leaves_of ea) /\ m = send_req_bucket b a (Z.of_nat c).
Proof.
  intros Ha Hb Hfa Hfb Hw Hnc. induction n as [|n IH]; intros l p m Hln Hl Hp.
  - assert (l = 4)%nat as -> by lia. rewrite drill_step, flat_map_elem by (done || lia).
    setoid_rewrite concat_elem. split.
    + intros (m' & (i & Hi & Hm') & Hm). apply elem_of_seq in Hi.
      destruct (child_index_small 4 p i ltac:(lia) Hp ltac:(lia)) as [_ Hc].
      apply compare_child_spec in Hm' as [Hd ->]; [|done|done|lia|done].
      rewrite decide_True, drill_bucket in Hm by done. apply list_elem_of_singleton in Hm as ->.
      exists (p * 16 + i)%nat. split; [done|]. split; [|done].
      rewrite Nat.pow_1_r. symmetry. apply (Nat.div_unique _ _ _ i); lia.
    + intros (c & Hc & Hcp & Hd & ->). rewrite Nat.pow_1_r in Hcp.
      pose proof (Nat.mod_upper_bound c 16 ltac:(lia)). pose proof (Nat.div_mod_eq c 16).
      exists (send_req_bucket b a (Z.of_nat c)). split.
      * exists (c mod 16)%nat. split; [apply elem_of_seq; lia|].
        replace (p * 16 + c mod 16)%nat with c by lia. apply compare_child_spec; [done|done|lia|done|].
        split; [done|]. by rewrite decide_True.
      * rewrite drill_bucket. by apply list_elem_of_singleton.
  - rewrite drill_step, flat_map_elem by (done || lia). setoid_rewrite concat_elem. split.
    + intros (m' & (i & Hi & Hm') & Hm). apply elem_of_seq in Hi.
      destruct (child_index_small l p i ltac:(lia) Hp ltac:(lia)) as [_ Hc].
      apply compare_child_spec in Hm' as [Hd ->]; [|done|done|lia|done].
      rewrite decide_False in Hm by lia.
      apply IH in Hm as (c & Hc4 & Hcp & Hdc & ->); [|lia|lia|by replace (S l - 1)%nat with l by lia].
      exists c. split; [done|]. split; [|done].
      replace (16 ^ S (S n))%nat with (16 ^ S n * 16)%nat by (cbn [Nat.pow]; lia).
      rewrite <- Nat.Div0.div_div, Hcp. symmetry. apply (Nat.div_unique _ _ _ i); lia.
    + intros (c & Hc4 & Hcp & Hdc & ->). set (c' := (c / 16 ^ S n)%nat).
      assert (c' / 16 = p)%nat as Hc'.
      { unfold c'. rewrite Nat.Div0.div_div, <- Hcp. f_equal. cbn [Nat.pow]. lia. }
      assert (c' < 16 ^ l)%nat as Hlt.
      { apply Nat.Div0.div_lt_upper_bound. rewrite <- Nat.pow_add_r. by replace (S n + l)%nat with 4%nat by lia. }
      pose proof (Nat.mod_upper_bound c' 16 ltac:(lia)). pose proof (Nat.div_mod_eq c' 16).
      exists (send_req_node b a (Z.of_nat (S l)) (Z.of_nat c')). split.
      * exists (c' mod 16)%nat. split; [apply elem_of_seq; lia|].
        replace (p * 16 + c' mod 16)%nat with c' by lia.
        apply compare_child_spec; [done|done|lia|done|]. rewrite decide_False by lia. split; [|done].
        apply (differs_ancestor (S n)); [done|lia|lia|by rewrite Hln|by rewrite Hln].
      * apply IH; [lia|lia|by replace (S l - 1)%nat with l by lia|]. exists c. done.
Qed.

(** ** Leaves are 64-bit words *)

Lemma hash_blob_word p : 0 <= hash_blob p < 2 ^ 64.
Proof. destruct p; [apply XXH3_range|done]. Qed.

Lemma leaf_sum_word b m : 0 <= leaf_sum b m < 2 ^ 64.
Proof.
  induction m as [|[k p] m IH]; [done|]. rewrite leaf_sum_cons. apply lxor_range; [done| |done].
  destruct (decide (bucket_of k = b)); [apply hash_blob_word|done].
Qed.

Lemma store_leaf_word b s : 0 <= store_leaf b s < 2 ^ 64.
Proof.
  unfold store_leaf. induction (shards_ s) as [|m ms IH]; [done|]. cbn [foldr].
  apply lxor_range; [done|apply leaf_sum_word|done].
Qed.

Lemma leaves_words e : store_inv (store e) -> words (leaves_of e).
Proof.
  intros Hs. unfold words, leaves_of. rewrite Forall_lookup. intros i h Hi.
  assert (i < L4_SIZE)%nat as Hlt.
  { rewrite <- (mi_leaves _ (si_merkle _ Hs)). by eapply lookup_lt_Some. }
  rewrite (si_leaves _ Hs i Hlt) in Hi. injection Hi as <-. apply store_leaf_word.
Qed.

(** ** The first exchange *)

Lemma send_sync_init_sent a b e :
  merkle_inv (merkle_ (store e)) ->
  sent (send_sync_init a b e) = [mkMsg b Control (sync_init_msg a (full_root (leaves_of e)))].
Proof.
  intros Hm. unfold send_sync_init, bind, get_merkle_root_hash, get_root_hash.
  rewrite (recompute_dirty_spec _ Hm). reflexivity.
Qed.

Lemma sync_init_reply a b root e :
  node_id_ok a -> 0 <= root < 2 ^ 64 -> merkle_inv (merkle_ (store e)) ->
  sent (handle b (sync_init_msg a root) e) =
  if full_root (leaves_of e) =? root then [] else [send_req_node b a (Z.of_nat 1) (Z.of_nat 0)].
Proof.
  intros Ha Hr Hm. set (buf := sync_init_msg a root).
  assert (length buf = 13%nat) as Hlen by done.
  assert (read32 buf 1 = a) as Hfrom by (apply (read32_app [_]); done).
  assert (read64 buf 5 = root) as Hroot.
  { unfold buf, sync_init_msg. rewrite <- (app_nil_r (le64 root)).
    by apply (read64_app (header a SYNC_INIT)). }
  unfold handle_message. rewrite Hlen, Hfrom. change (byte_at buf 0) with (msgtype_byte SYNC_INIT).
  cbn [Nat.ltb Nat.leb]. rewrite decide_True by done. unfold on_sync_init. rewrite Hlen, Hroot.
  cbn [Nat.ltb Nat.leb]. unfold bind, get_merkle_root_hash, get_root_hash.
  rewrite (recompute_dirty_spec _ Hm). cbn [l0_].
  change ([full_root (leaves_ (merkle_ (store e)))] !!! 0%nat) with (full_root (leaves_of e)).
  by destruct (full_root (leaves_of e) =? root).
Qed.

Lemma L4_pow : L4_SIZE = (16 ^ 4)%nat.
Proof. unfold L4_SIZE. cbn [Nat.pow]. lia. Qed.

Lemma equal_roots la lb c :
  length la = L4_SIZE -> length lb = L4_SIZE -> no_collision la lb -> (c < 16 ^ 4)%nat ->
  full_root la = full_root lb -> ~ differs 4 c la lb.
Proof.
  intros Hla Hlb Hnc Hc Hr Hd.
  assert (level 1 la = level 1 lb) as Heq.
  { pose proof (level_size 1 la Hla ltac:(lia)) as L1. pose proof (level_size 1 lb Hlb ltac:(lia)) as L2.
    rewrite <- (block_all (level 1 la)), <- (block_all (level 1 lb)) by done.
    apply (Hnc 0%nat 0%nat); [lia|]. by rewrite !block_all. }
  apply (differs_ancestor 3 1) in Hd; [|done|lia|lia|done]. unfold differs in Hd. rewrite Heq in Hd. apply Hd. reflexivity.
Qed.

(** ** Theorem: gossip *)

(** From the comparison of the roots down: exactly the divergent buckets. *)
Lemma descent_spec a b ea eb m :
  node_id_ok a -> node_id_ok b -> fresh ea -> fresh eb -> words (leaves_of ea) ->
  no_collision (leaves_of eb) (leaves_of ea) ->
  m ∈ flat_map (drill 4 a b ea eb)
        (if full_root (leaves_of eb) =? full_root (leaves_of ea) then []
         else [send_req_node b a (Z.of_nat 1) (Z.of_nat 0)]) <->
  exists c, (c < L4_SIZE)%nat /\ leaves_of eb !! c <> leaves_of ea !! c /\
    m = send_req_bucket b a (Z.of_nat c).
Proof.
  intros Ha Hb Hfa Hfb Hw Hnc. rewrite L4_pow.
  destruct (Z.eqb_spec (full_root (leaves_of eb)) (full_root (leaves_of ea))) as [Heq|Hne]; cbn [flat_map].
  - split; [intros Hm; apply elem_of_nil in Hm; destruct Hm|]. intros (c & Hc & Hd & _).
    destruct (equal_roots (leaves_of eb) (leaves_of ea) c (proj1 Hfb) (proj1 Hfa) Hnc Hc Heq Hd).
  - rewrite app_nil_r. rewrite (drill_spec a b ea eb Ha Hb Hfa Hfb) with (n := 3%nat); [|done|done|done|lia|cbn; lia].
    split.
    + intros (c & Hc & _ & Hd & ->). exists c. exact (conj Hc (conj Hd eq_refl)).
    + intros (c & Hc & Hd & ->). exists c. exact (conj Hc (conj (Nat.div_small _ _ Hc) (conj Hd eq_refl))).
Qed.

(** C10: a round of gossip finds exactly the divergence.  When node [a] gossips its root to
    node [b] and the two trees have no hash collision between their blocks, [b] ends up
    requesting the listing of exactly the buckets whose leaves differ, after at most four
    round trips; in particular nothing when the trees agree. *)
Theorem gossip_finds_divergence a b ea eb m :
  node_id_ok a -> node_id_ok b -> store_inv (store ea) -> store_inv (store eb) ->
  no_collision (leaves_of eb) (leaves_of ea) ->
  m ∈ gossip_round a b ea eb <->
  exists c, (c < L4_SIZE)%nat /\ leaves_of eb !! c <> leaves_of ea !! c /\
    m = send_req_bucket b a (Z.of_nat c).
Proof.
  intros Ha Hb Hsa Hsb Hnc. unfold gossip_round.
  rewrite send_sync_init_sent by apply Hsa. cbn [flat_map msg_body]. rewrite app_nil_r.
  rewrite sync_init_reply by (done || apply XXH3_range || apply Hsb).
  destruct (after_root_fresh ea (si_merkle _ Hsa)) as [Hfa Ela].
  destruct (after_root_fresh eb (si_merkle _ Hsb)) as [Hfb Elb].
  pose proof (descent_spec a b (after_root ea) (after_root eb) m Ha Hb Hfa Hfb) as Hd.
  rewrite Ela, Elb in Hd. apply Hd; [by apply leaves_words|done].
Qed.

(** ** Listings *)

(** The hash a node compares a listed key with. *)
Definition compared_hash (k : bytes) (e : Engine) : Z :=
  match get k ADMIN_UID (store e) with [] => 0 | d => fnv1a_64 d end.

Definition wanted (a b : Z) (e : Engine) (entry : bytes * Z) : list Msg :=
  if is_meta entry.1 || (compared_hash entry.1 e =? entry.2) then []
  else [send_get_val b a entry.1].

Definition listable (entry : bytes * Z) : Prop := zlen entry.1 < 2 ^ 16 /\ 0 <= entry.2 < 2 ^ 64.

Lemma rep_bucket_loop_listing a b e keys : forall fuel count,
  Forall listable keys -> (length (concat (listing_entry <$> keys)) < fuel)%nat -> zlen keys <= count ->
  rep_bucket_loop b fuel count (concat (listing_entry <$> keys)) a e = flat_map (wanted a b e) keys.
Proof.
  induction keys as [|[k h] keys IH]; intros fuel count Hok Hfuel Hcount;
    (destruct fuel as [|fuel]; [lia|]).
  { cbn. by destruct (count <=? 0). }
  apply Forall_cons in Hok as [[Hk Hh] Hok]. rewrite zlen_cons in Hcount.
  cbn [fmap list_fmap concat flat_map] in *. unfold listing_entry at 1 in Hfuel.
  unfold listing_entry at 1, wanted at 1. cbn [fst snd] in *.
  destruct (is_meta k); cbn [orb]; [apply (IH (S fuel) count); [done|done|lia]|].
  pose proof (zlen_nonneg k) as Hk0. pose proof (zlen_nonneg keys) as Hn0.
  rewrite !length_app, length_le16, length_le64 in Hfuel.
  rewrite u16_small by lia. replace (Z.to_nat (zlen k)) with (length k) by (unfold zlen; lia).
  rewrite take_ge by lia. set (rest := concat (listing_entry <$> keys)). rewrite <- !app_assoc.
  set (buf := le16 (zlen k) ++ k ++ le64 h ++ rest).
  assert (length buf = 2 + length k + 8 + length rest)%nat as Hlen
    by (unfold buf; rewrite !length_app, length_le16, length_le64; lia).
  assert (read16 buf 0 = zlen k) as H16 by (apply (read16_app []); lia).
  assert (read64 buf (2 + length k) = h) as H64.
  { unfold buf. rewrite app_assoc.
    replace (2 + length k)%nat with (length (le16 (zlen k) ++ k)) by (rewrite length_app, length_le16; lia).
    by apply read64_app. }
  cbn [rep_bucket_loop]. destruct (Z.leb_spec count 0); [lia|].
  rewrite Hlen, H16. replace (Z.to_nat (zlen k)) with (length k) by (unfold zlen; lia).
  destruct (Nat.ltb_spec (2 + length k + 8 + length rest) 10); [lia|].
  destruct (Nat.ltb_spec (2 + length k + 8 + length rest) (2 + length k + 8)); [lia|].
  rewrite H64. replace (take (length k) (drop 2 buf)) with k.
  2:{ unfold buf. rewrite drop_app_length' by by rewrite length_le16. by rewrite take_app_length. }
  replace (drop (2 + length k + 8) buf) with rest.
  2:{ unfold buf. rewrite !app_assoc. rewrite drop_app_length'; [done|].
      rewrite !length_app, length_le16, length_le64. lia. }
  f_equal; [|apply IH; [done|lia|lia]]. unfold compared_hash.
  by destruct (get k ADMIN_UID (store e)).
Qed.

Definition rep_bucket_body (a : Z) (bucket : nat) (ks : list (bytes * Z)) : bytes :=
  header a SYNC_REP_BUCKET ++ le32 (Z.of_nat bucket) ++ le32 (u32 (zlen ks)) ++ concat (listing_entry <$> ks).

Lemma req_bucket_reply a b bucket ea ks :
  node_id_ok b -> (bucket < L4_SIZE)%nat -> get_bucket_keys (Z.of_nat bucket) ea = Some (Ok ks, ea) ->
  handle a (msg_body (send_req_bucket b a (Z.of_nat bucket))) ea =
    Some (Ok [mkMsg b Heavy (rep_bucket_body a bucket ks)], ea).
Proof.
  intros Hb Hbk Hks.
  assert (0 <= Z.of_nat bucket < 2 ^ 32) as Hbk32 by (rewrite L4_pow in Hbk; cbn [Nat.pow] in Hbk; lia).
  set (req := msg_body (send_req_bucket b a (Z.of_nat bucket))).
  assert (length req = 9%nat) as Hlen by done.
  assert (read32 req 1 = b) as Hfrom by (apply (read32_app [_]); done).
  assert (read32 req 5 = Z.of_nat bucket) as Hidx.
  { unfold req. cbn [send_req_bucket msg_body]. rewrite <- (app_nil_r (le32 (Z.of_nat bucket))).
    by apply (read32_app (header b SYNC_REQ_BUCKET)). }
  unfold handle_message. rewrite Hlen, Hfrom. change (byte_at req 0) with (msgtype_byte SYNC_REQ_BUCKET).
  cbn [Nat.ltb Nat.leb]. rewrite !decide_False, decide_True by done.
  unfold on_req_bucket. rewrite Hlen, Hidx. cbn [Nat.ltb Nat.leb]. unfold bind. by rewrite Hks.
Qed.

Lemma rep_bucket_requests a b bucket eb ks :
  node_id_ok a -> Forall listable ks -> zlen ks < 2 ^ 32 ->
  handle b (rep_bucket_body a bucket ks) eb = Some (Ok (flat_map (wanted a b eb) ks), eb).
Proof.
  intros Ha Hok Hn. set (body := rep_bucket_body a bucket ks). pose proof (zlen_nonneg ks) as Hks0.
  assert (length body = 13 + length (concat (listing_entry <$> ks)))%nat as Hbl by done.
  assert (read32 body 1 = a) as Hfa by (apply (read32_app [_]); done).
  assert (read32 body 9 = zlen ks) as Hcnt.
  { unfold body, rep_bucket_body. rewrite app_assoc, u32_small by lia.
    apply (read32_app (header a SYNC_REP_BUCKET ++ le32 (Z.of_nat bucket))). lia. }
  unfold handle_message. rewrite Hbl, Hfa. change (byte_at body 0) with (msgtype_byte SYNC_REP_BUCKET).
  destruct (Nat.ltb_spec (13 + length (concat (listing_entry <$> ks))) 5); [lia|].
  rewrite !decide_False, decide_True by done. unfold on_rep_bucket. rewrite Hbl, Hcnt.
  destruct (Nat.ltb_spec (13 + length (concat (listing_entry <$> ks))) 13); [lia|].
  unfold gets. change (drop 13 body) with (concat (listing_entry <$> ks)).
  rewrite rep_bucket_loop_listing; [done|done|lia|lia].
Qed.

(** A listing asks for exactly what differs.  The answer of node [a] to a bucket request
    makes node [b] request, in order, exactly the listed data keys whose stored hash at [a]
    differs from the hash [b] computes of its own document (zero for none). *)
Theorem listing_requests_differences a b bucket ea eb ks :
  node_id_ok a -> node_id_ok b -> (bucket < L4_SIZE)%nat ->
  get_bucket_keys (Z.of_nat bucket) ea = Some (Ok ks, ea) -> Forall listable ks -> zlen ks < 2 ^ 32 ->
  exists reply, sent (handle a (msg_body (send_req_bucket b a (Z.of_nat bucket))) ea) = [reply] /\
    msg_to reply = b /\ sent (handle b (msg_body reply) eb) = flat_map (wanted a b eb) ks.
Proof.
  intros Ha Hb Hbk Hks Hok Hn. exists (mkMsg b Heavy (rep_bucket_body a bucket ks)).
  rewrite (req_bucket_reply a b bucket ea ks Hb Hbk Hks). split; [done|]. split; [done|].
  cbn [msg_body]. by rewrite rep_bucket_requests.
Qed.

(** ** Metadata on the wire *)

Context {l3_ok : Lite3Spec} {zs_ok : ZstdSpec} {srt_ok : StdSortSpec}.

Lemma read_u32_int d k v : int_field d k v -> 0 <= v < 2 ^ 32 -> read_u32_field d k = Some v.
Proof.
  intros [E1 E2] Hv. unfold read_u32_field. rewrite E1. cbn [mbind option_bind].
  rewrite bool_decide_eq_true_2 by done. cbn [orb]. rewrite E2. cbn. by rewrite u32_small.
Qed.

Lemma parse_meta_fields d t tomb :
  meta_fields d t tomb -> ts_fits t -> - 2 ^ 53 < wall_time t < 2 ^ 53 ->
  parse_meta overflow d = mkParsed t tomb.
Proof.
  intros [Ho [E1 E2] Hl Hn Htomb] (_ & Hl32 & Hn32) Hw.
  destruct (object_tag d Ho) as (x & Ed). unfold parse_meta. rewrite Ed, <- Ed.
  unfold parse_meta_try. rewrite E1. cbn [mbind option_bind].
  rewrite decide_False, decide_True, E2 by done. cbn [fmap option_fmap option_map mbind option_bind].
  rewrite (read_u32_int _ _ _ Hl Hl32). cbn [mbind option_bind].
  rewrite (read_u32_int _ _ _ Hn Hn32). cbn [mbind option_bind].
  rewrite double_roundtrip by done. destruct tomb.
  - destruct Htomb as [-> ->]. cbn. by destruct t.
  - rewrite Htomb. cbn. by destruct t.
Qed.

(** Metadata survives the wire: parsing the document that [put], [del] and
    [apply_mutation] store gives back the timestamp and the tombstone flag, as long as the
    wall time has at most 53 bits (in microseconds: until the year 2255). *)
Theorem parse_meta_roundtrip t tomb :
  ts_fits t -> - 2 ^ 53 < wall_time t < 2 ^ 53 ->
  exists d, meta_doc t tomb = Some d /\ parse_meta overflow d = mkParsed t tomb.
Proof.
  intros Ht Hw. destruct (meta_doc_fields t tomb Ht) as (d & Hd & Hf).
  exists d. split; [done|]. by apply parse_meta_fields.
Qed.

(** ** Transferring a value *)

Lemma read_field (a : bytes) (n : nat) (f rest : bytes) :
  zlen f < 2 ^ 16 -> length a = n ->
  let buf := a ++ le16 (u16 (zlen f)) ++ f ++ rest in
  Z.to_nat (read16 buf n) = length f /\ take (length f) (drop (n + 2) buf) = f /\
  drop (n + 2 + length f) buf = rest /\ (n + 2 + length f <= length buf)%nat.
Proof.
  intros Hf <-. cbn zeta. pose proof (zlen_nonneg f). rewrite u16_small by lia.
  assert (forall k, drop (length a + 2 + k) (a ++ le16 (zlen f) ++ f ++ rest) = drop k (f ++ rest)) as Hdrop.
  { intros k. rewrite <- drop_drop. rewrite app_assoc, drop_app_length'; [done|].
    rewrite length_app, length_le16. lia. }
  split; [rewrite read16_app by lia; unfold zlen; lia|]. split.
  - rewrite <- (Nat.add_0_r (length a + 2)), Hdrop, drop_0. apply take_app_length.
  - split; [rewrite Hdrop; apply drop_app_length|]. rewrite !length_app, length_le16. lia.
Qed.

Definition put_val_body (a : Z) (key meta val : bytes) : bytes :=
  header a SYNC_PUT_VAL ++ le16 (u16 (zlen key)) ++ key ++ le16 (u16 (zlen meta)) ++ meta ++ val.

Lemma put_val_fields_body a key meta val :
  zlen key < 2 ^ 16 -> zlen meta < 2 ^ 16 ->
  put_val_fields (put_val_body a key meta val) = Some (key, meta, val).
Proof.
  intros Hk Hm. unfold put_val_body, put_val_fields.
  set (tail := le16 (u16 (zlen meta)) ++ meta ++ val).
  destruct (read_field (header a SYNC_PUT_VAL) 5 key tail Hk eq_refl) as (K1 & K2 & K3 & K4).
  set (buf := header a SYNC_PUT_VAL ++ le16 (u16 (zlen key)) ++ key ++ tail) in *.
  destruct (read_field (header a SYNC_PUT_VAL ++ le16 (u16 (zlen key)) ++ key)
    (5 + 2 + length key) meta val Hm) as (M1 & M2 & M3 & M4).
  { rewrite !length_app, length_le16. change (length (header a SYNC_PUT_VAL)) with 5%nat. lia. }
  replace ((header a SYNC_PUT_VAL ++ le16 (u16 (zlen key)) ++ key) ++ le16 (u16 (zlen meta)) ++ meta ++ val)
    with buf in * by (unfold buf, tail; by rewrite <- !app_assoc).
  rewrite K1. destruct (Nat.ltb_spec (length buf) (5 + 2)); [lia|].
  destruct (Nat.ltb_spec (length buf) (5 + 2 + length key)); [lia|].
  destruct (Nat.ltb_spec (length buf) (5 + 2 + length key + 2)); [lia|].
  rewrite M1. destruct (Nat.ltb_spec (length buf) (5 + 2 + length key + 2 + length meta)); [lia|].
  by rewrite K2, M2, M3.
Qed.

Lemma get_admin e m k : implements (store e) m -> get k ADMIN_UID (store e) = default buffer_default (docs m !! k).
Proof. intros Him. by rewrite (get_implements _ _ _ _ Him). Qed.

Lemma get_val_reply a b ea ma k meta val :
  node_id_ok b -> implements (store ea) ma ->
  docs ma !! (k ++ str ":meta") = Some meta -> meta <> [] -> docs ma !! k = Some val ->
  sent (handle a (msg_body (send_get_val b a k)) ea) = [mkMsg b Heavy (put_val_body a k meta val)].
Proof.
  intros Hb Him Hmeta Hne Hval. set (req := msg_body (send_get_val b a k)).
  assert (read32 req 1 = b) as Hfrom by (apply (read32_app [_]); done).
  assert (length req = 5 + length k)%nat as Hlen by done.
  unfold handle_message. rewrite Hlen, Hfrom. change (byte_at req 0) with (msgtype_byte SYNC_GET_VAL).
  destruct (Nat.ltb_spec (5 + length k) 5); [lia|]. rewrite !decide_False, decide_True by done.
  unfold on_get_val. rewrite Hlen. destruct (Nat.ltb_spec (5 + length k) 5); [lia|].
  change (drop 5 req) with k. unfold bind, gets. rewrite (get_admin _ _ (k ++ str ":meta") Him), Hmeta.
  cbn [from_option id]. destruct meta; [done|]. by rewrite (get_admin _ _ k Him), Hval.
Qed.

(** A value message applies the mutation it carries. *)
Lemma put_val_applies a b k meta val t tomb e :
  zlen k < 2 ^ 16 -> zlen meta < 2 ^ 16 -> parse_meta overflow meta = mkParsed t tomb ->
  handle b (put_val_body a k meta val) e =
    match apply_mutation stale (mkMutation t k val tomb) e with
    | Some (_, e') => Some (Ok [], e')
    | None => None
    end.
Proof.
  intros Hk Hm Hp. unfold handle_message.
  assert (length (put_val_body a k meta val) = 5 + length (le16 (u16 (zlen k)) ++ k ++
    le16 (u16 (zlen meta)) ++ meta ++ val))%nat as Hlen by done.
  rewrite Hlen. destruct (Nat.ltb_spec (5 + length (le16 (u16 (zlen k)) ++ k ++
    le16 (u16 (zlen meta)) ++ meta ++ val)) 5); [lia|].
  change (byte_at (put_val_body a k meta val) 0) with (msgtype_byte SYNC_PUT_VAL).
  rewrite !decide_False, decide_True by done. unfold on_put_val.
  rewrite put_val_fields_body, Hp by done. cbn [ts is_tombstone]. unfold bind.
  by destruct (apply_mutation stale (mkMutation t k val tomb) e) as [[[[]|] e']|].
Qed.

(** A mutation newer than the local timestamp is applied. *)
Lemma apply_newer mu e m d lts n :
  implements (store e) m -> fits m -> mut_meta mu = Some d -> lite3_object d -> zlen d < 2 ^ 32 ->
  zlen (mut_doc mu) < 2 ^ 32 ->
  local_timestamp (default buffer_default (docs m !! meta_key (m_key mu))) = Some lts ->
  ts_leb (m_timestamp mu) lts = false -> enough (log_cost mu stale + n) (write_answers e) ->
  exists e' m', apply_mutation stale mu e = Some (Ok tt, e') /\ implements (store e') m' /\
    docs m' = <[meta_key (m_key mu) := d]> (<[m_key mu := mut_doc mu]> (docs m)).
Proof.
  intros Him Hfit Hd Ho Hdl Hml Hlts Hts Hen.
  unfold apply_mutation. unfold bind at 1. cbn [gets]. rewrite (get_admin _ _ _ Him).
  unfold bind at 1. rewrite Hlts. cbn [lift ret]. rewrite Hts. unfold bind at 1.
  unfold mut_meta in Hd. rewrite Hd. cbn [lift ret]. unfold bind at 1.
  unfold log_cost, mut_meta in Hen. rewrite Hd in Hen.
  destruct (append_enough _ e n Hen) as (e1 & -> & Hs1 & _).
  set (o1 := if m_is_delete mu then SDel (m_key mu) else SPut (m_key mu) (m_value mu)).
  assert (docs (kv_op_skip o1 m) = <[m_key mu := mut_doc mu]> (docs m)) as Hd1
    by (unfold o1, mut_doc; by destruct (m_is_delete mu)).
  assert (fits (kv_op_skip o1 m)) as Hf1 by (unfold fits; rewrite Hd1; by apply map_Forall_insert_2).
  assert (docs (kv_op_skip (SPut (meta_key (m_key mu)) d) (kv_op_skip o1 m)) =
    <[meta_key (m_key mu) := d]> (docs (kv_op_skip o1 m))) as Hd2 by (cbn; by rewrite object_stored).
  assert (fits (kv_op_skip (SPut (meta_key (m_key mu)) d) (kv_op_skip o1 m))) as Hf2
    by (unfold fits; rewrite Hd2; by apply map_Forall_insert_2).
  pose proof (run_op_skip_implements _ _ _ (run_op_skip_implements o1 _ _ Him Hf1) Hf2) as Him2.
  unfold bind, modify. eexists _, _. split; [done|]. split; [|by rewrite Hd2, Hd1].
  cbn [store set_store]. rewrite Hs1. unfold run_op_skip, o1 in Him2. cbn in Him2 |- *.
  by destruct (m_is_delete mu).
Qed.

(** The same engine when the operating system will give other answers. *)
Definition with_answers (ans : list write_result) (e : Engine) : Engine :=
  mkEngine (store e) (wal_ e) (clock_ e) (messages e) (clock_readings e) ans.

(** Repair.  Node [b] asks node [a] for a key that [a] stores with the metadata of
    timestamp [t] (a tombstone carries an empty document), and [b]'s own timestamp for the
    key is older.  Then [a] answers one message and, given enough answers of the operating
    system for its log, [b] handles it without an exception and afterwards holds exactly
    [a]'s document and metadata under the key, and everything else as before. *)
Theorem transfer_repairs_key a b ea eb ma mb k t tomb meta val lts :
  node_id_ok a -> node_id_ok b -> implements (store ea) ma -> implements (store eb) mb -> fits mb ->
  data_key k = true -> ts_fits t -> - 2 ^ 53 < wall_time t < 2 ^ 53 ->
  meta_doc t tomb = Some meta -> zlen meta < 2 ^ 16 ->
  docs ma !! meta_key k = Some meta -> docs ma !! k = Some val ->
  (if tomb then val = buffer_default else stored_form val = val) -> zlen val < 2 ^ 32 ->
  local_timestamp (default buffer_default (docs mb !! meta_key k)) = Some lts -> ts_leb t lts = false ->
  exists reply, sent (handle a (msg_body (send_get_val b a k)) ea) = [reply] /\
  exists n, forall ans, enough n ans ->
  exists eb' mb', handle b (msg_body reply) (with_answers ans eb) = Some (Ok [], eb') /\
    implements (store eb') mb' /\
    docs mb' = <[meta_key k := meta]> (<[k := val]> (docs mb)).
Proof.
  intros Ha Hb Ima Imb Hfit Hk Ht Hw Hmeta Hml Hdm Hdv Hval Hvl Hlts Hts.
  destruct (meta_doc_fields t tomb Ht) as (d' & Hd' & Hfields). rewrite Hmeta in Hd'. injection Hd' as <-.
  pose proof (mf_object _ _ _ Hfields) as Ho.
  assert (meta <> []) as Hne by (destruct (object_tag meta Ho) as (x & ->); done).
  assert (zlen k < 2 ^ 16) as Hkl.
  { unfold data_key in Hk. bool_prop.
    match goal with H : (_ <? _)%nat = true |- _ => apply Nat.ltb_lt in H end. unfold zlen. lia. }
  exists (mkMsg b Heavy (put_val_body a k meta val)). split.
  { apply (get_val_reply a b ea ma k meta val); try done. by rewrite <- data_key_meta. }
  set (mu := mkMutation t k val tomb).
  exists (log_cost mu stale + 0)%nat. intros ans Hen.
  assert (mut_doc mu = val) as Hdoc by (unfold mut_doc, mu; cbn; by destruct tomb).
  destruct (apply_newer mu (with_answers ans eb) mb meta lts 0) as (eb' & mb' & E & Him' & Hdocs); try done;
    [lia|by rewrite Hdoc|].
  exists eb', mb'. split; [|split; [done|by rewrite Hdocs, Hdoc]].
  cbn [msg_body]. rewrite (put_val_applies a b k meta val t tomb); [by fold mu; rewrite E|lia|lia|by apply parse_meta_fields].
Qed.

(** Deleted keys are requested forever.  A deleted key is stored as an empty document,
    which the listing hashes like any other, but the receiver compares with zero when its
    own document is empty; unless the empty string happens to hash to zero, a node that
    has the same tombstone still requests the key in every round. *)
Theorem tombstone_requested_again a b eb mb k :
  implements (store eb) mb -> docs mb !! k = Some [] -> is_meta k = false -> fnv1a_64 [] <> 0 ->
  wanted a b eb (k, hash_blob get_empty_blob) = [send_get_val b a k].
Proof.
  intros Him Hk Hm Hz. unfold wanted, compared_hash. cbn [fst snd].
  rewrite (get_admin _ _ _ Him), Hk, Hm. cbn [from_option id orb].
  assert (hash_blob get_empty_blob = fnv1a_64 []) as -> by (cbn; unfold blob_view; cbn; by rewrite data_default).
  destruct (Z.eqb_spec 0 (fnv1a_64 [])); [congruence|done].
Qed.

End SyncProps.

(** ** Trees with one leaf set *)

Section OneLeaf.
Context {xxh : XXH3}.

(** [n] entries [h] with [v] at index [j]. *)
Definition spike (n j : nat) (h v : Z) : list Z := <[j := v]> (replicate n h).

Lemma spike_lookup n j h v i :
  spike n j h v !! i = if decide (i < n)%nat then Some (if decide (i = j) then v else h) else None.
Proof.
  unfold spike. destruct (decide (i < n)%nat) as [Hi|].
  - destruct (decide (i = j)) as [->|Hne].
    + by rewrite list_lookup_insert_eq by by rewrite length_replicate.
    + rewrite list_lookup_insert_ne by done. by apply lookup_replicate_2.
  - apply lookup_ge_None_2. rewrite length_insert, length_replicate. lia.
Qed.

Lemma spike_block n j h v c :
  (c < n)%nat -> block (spike (n * 16) j h v) c = spike 16 (if decide (c = j / 16)%nat then (j mod 16)%nat else 16%nat) h v.
Proof.
  intros Hc. pose proof (Nat.div_mod_eq j 16). pose proof (Nat.mod_upper_bound j 16 ltac:(lia)).
  apply list_eq. intros k. unfold block.
  rewrite spike_lookup. destruct (decide (k < 16)%nat).
  - rewrite lookup_take_lt, lookup_drop, spike_lookup by done. rewrite decide_True by lia. f_equal.
    destruct (decide (c = j / 16)%nat); repeat case_decide; try done; nia.
  - apply lookup_ge_None_2. rewrite length_take. lia.
Qed.

Lemma level_of_spike n j h v :
  (j < n * 16)%nat ->
  level_of (spike (n * 16) j h v) n =
  spike n (j / 16) (hash_block (replicate 16 h)) (hash_block (spike 16 (j mod 16) h v)).
Proof.
  intros Hj. apply list_eq. intros i. rewrite spike_lookup. destruct (decide (i < n)%nat).
  - rewrite lookup_level_of, spike_block by done. do 2 f_equal. by destruct (decide (i = j / 16)%nat).
  - apply lookup_ge_None_2. rewrite length_level_of. lia.
Qed.

Lemma spike_collision n j h v v' c :
  hash_block (spike 16 (j mod 16) h v) <> hash_block (spike 16 (j mod 16) h v') ->
  hash_block (block (spike (n * 16) j h v) c) = hash_block (block (spike (n * 16) j h v') c) ->
  block (spike (n * 16) j h v) c = block (spike (n * 16) j h v') c.
Proof.
  intros Hne. destruct (decide (c < n)%nat) as [Hc|].
  - rewrite !spike_block by done. destruct (decide (c = j / 16)%nat); [done|]. intros _. reflexivity.
  - intros _. unfold block. rewrite !drop_ge; [done|..]; unfold spike; rewrite length_insert, length_replicate; lia.
Qed.

(** The hash on the path from leaf [j] to the root, and beside it, at [k] levels above the
    leaves. *)
Fixpoint beside (k : nat) : Z :=
  match k with O => 0 | S k' => hash_block (replicate 16 (beside k')) end.
Fixpoint path (k : nat) (j : nat) (v : Z) : Z :=
  match k with
  | O => v
  | S k' => hash_block (spike 16 ((j / 16 ^ k') mod 16) (beside k') (path k' j v))
  end.

Lemma spike_levels j v :
  (j < L4_SIZE)%nat ->
  level 4 (spike L4_SIZE j 0 v) = spike (L3_SIZE * 16) j 0 v /\
  level 3 (spike L4_SIZE j 0 v) = spike (256 * 16) (j / 16) (beside 1) (path 1 j v) /\
  level 2 (spike L4_SIZE j 0 v) = spike (16 * 16) (j / 16 ^ 2) (beside 2) (path 2 j v) /\
  level 1 (spike L4_SIZE j 0 v) = spike (1 * 16) (j / 16 ^ 3) (beside 3) (path 3 j v).
Proof.
  intros Hj. assert (L4_SIZE = L3_SIZE * 16)%nat as HL by (unfold L4_SIZE, L3_SIZE; lia). rewrite HL in *.
  assert (full_l3 (spike (L3_SIZE * 16) j 0 v) = spike (256 * 16) (j / 16) (beside 1) (path 1 j v)) as H3.
  { unfold full_l3. rewrite level_of_spike by done. change L3_SIZE with (256 * 16)%nat at 1. cbn [beside path]. by rewrite Nat.pow_0_r, Nat.div_1_r. }
  assert (full_l2 (spike (L3_SIZE * 16) j 0 v) = spike (16 * 16) (j / 16 ^ 2) (beside 2) (path 2 j v)) as H2.
  { unfold full_l2. rewrite H3, (level_of_spike 256) by (apply Nat.Div0.div_lt_upper_bound; unfold L3_SIZE in Hj; lia).
    cbn [beside path]. by rewrite Nat.pow_1_r, Nat.Div0.div_div. }
  split; [done|]. split; [done|]. split; [done|].
  change (level 1 (spike (L3_SIZE * 16) j 0 v)) with (full_l1 (spike (L3_SIZE * 16) j 0 v)).
  unfold full_l1. rewrite H2, (level_of_spike 16) by (apply Nat.Div0.div_lt_upper_bound; change (16 ^ 2)%nat with 256%nat; unfold L3_SIZE in Hj; lia).
  cbn [beside path]. by rewrite Nat.Div0.div_div.
Qed.

(** Two trees with different values in one leaf have no collision when the hashes on the
    path differ at every level. *)
Lemma spike_no_collision j v v' :
  (j < L4_SIZE)%nat -> (forall k, (1 <= k <= 4)%nat -> path k j v <> path k j v') ->
  no_collision (spike L4_SIZE j 0 v) (spike L4_SIZE j 0 v').
Proof.
  intros Hj Hp l c Hl.
  destruct (spike_levels j v Hj) as (E4 & E3 & E2 & E1).
  destruct (spike_levels j v' Hj) as (F4 & F3 & F2 & F1).
  destruct l as [|[|[|[|l]]]]; [| | | |lia].
  - rewrite E1, F1. apply spike_collision. apply (Hp 4%nat). lia.
  - rewrite E2, F2. apply spike_collision. apply (Hp 3%nat). lia.
  - rewrite E3, F3. apply spike_collision. specialize (Hp 2%nat ltac:(lia)). by rewrite <- (Nat.pow_1_r 16) at 1 3.
  - rewrite E4, F4. apply spike_collision. specialize (Hp 1%nat ltac:(lia)).
    cbn [path beside] in Hp. by rewrite Nat.pow_0_r, Nat.div_1_r in Hp.
Qed.
End OneLeaf.

(** ** Concrete nodes *)

Definition newer_ts : Timestamp := mkTimestamp 20 1 1.
Definition newer_meta : bytes := default [] (meta_doc newer_ts false).
Definition node_a_ops : list store_op :=
  [SPut (str "k") (str "new"); SPut (str "k:meta") newer_meta; SDel (str "gone")].

Definition node_of (os : list store_op) : Engine :=
  mkEngine (run_ops os store_new) (wal_open []) (hlc_new 1) (replicate SHARDS []) [] [].

Lemma node_a_implements : implements (store (node_of node_a_ops)) (kv_ops node_a_ops kv_new).
Proof.
  apply run_ops_implements; [apply implements_new|]. apply (bool_decide_unpack _). by vm_compute.
Qed.

Lemma node_b_implements : implements (store (node_of [])) kv_new.
Proof. apply implements_new. Qed.

Lemma newer_ts_fits : ts_fits newer_ts.
Proof. split; [|split]; cbn; lia. Qed.

Lemma parse_meta_roundtrip_witness :
  exists d, meta_doc newer_ts true = Some d /\ parse_meta 0 d = mkParsed newer_ts true.
Proof.
  apply (parse_meta_roundtrip 0 newer_ts true newer_ts_fits). cbn. lia.
Defined.

Lemma transfer_repairs_key_witness :
  exists reply,
    sent (handle_message [] (fun _ _ => 0) 0 id 1 (msg_body (send_get_val 2 1 (str "k")))
            (node_of node_a_ops)) = [reply] /\
  exists n, forall ans, enough n ans ->
  exists eb' mb',
    handle_message [] (fun _ _ => 0) 0 id 2 (msg_body reply) (with_answers ans (node_of [])) = Some (Ok [], eb') /\
    implements (store eb') mb' /\ docs mb' = <[str "k:meta" := newer_meta]> (<[str "k" := str "new"]> ∅).
Proof.
  apply (transfer_repairs_key [] (fun _ _ => 0) 0 id 1 2 (node_of node_a_ops) (node_of [])
    (kv_ops node_a_ops kv_new) kv_new (str "k") newer_ts false newer_meta (str "new") (mkTimestamp 0 0 0)).
  - split; [discriminate|reflexivity].
  - split; [discriminate|reflexivity].
  - apply node_a_implements.
  - apply node_b_implements.
  - apply map_Forall_empty.
  - vm_compute. reflexivity.
  - apply newer_ts_fits.
  - cbn. lia.
  - vm_compute. reflexivity.
  - vm_compute. reflexivity.
  - vm_compute. reflexivity.
  - vm_compute. reflexivity.
  - vm_compute. reflexivity.
  - vm_compute. reflexivity.
  - vm_compute. reflexivity.
  - vm_compute. reflexivity.
Defined.

Lemma tombstone_requested_again_witness :
  wanted 1 2 (node_of node_a_ops) (str "gone", hash_blob get_empty_blob) =
  [send_get_val 2 1 (str "gone")].
Proof.
  apply (tombstone_requested_again 1 2 (node_of node_a_ops) (kv_ops node_a_ops kv_new) (str "gone")
    node_a_implements).
  - vm_compute. reflexivity.
  - vm_compute. reflexivity.
  - vm_compute. discriminate.
Defined.

Definition listed : list (bytes * Z) :=
  [(str "a", sample_hash (str "1")); (str "b", sample_hash (str "2"))].

Lemma scan_engine_listing :
  concat ((fun i => bucket_entries (Z.of_nat (bucket_of (str "a"))) (shard_at i (store scan_engine)))
    <$> seq 0 SHARDS) = listed.
Proof. vm_compute. reflexivity. Qed.

Lemma listed_wanted :
  flat_map (wanted 1 2 (node_of [])) listed = [send_get_val 2 1 (str "a"); send_get_val 2 1 (str "b")].
Proof. vm_compute. reflexivity. Qed.

Lemma listing_requests_differences_witness :
  exists reply,
    sent (handle_message [] (fun _ _ => 0) 0 id 1
      (msg_body (send_req_bucket 2 1 (Z.of_nat (bucket_of (str "a"))))) scan_engine) = [reply] /\
    msg_to reply = 2 /\
    sent (handle_message [] (fun _ _ => 0) 0 id 2 (msg_body reply) (node_of [])) =
      [send_get_val 2 1 (str "a"); send_get_val 2 1 (str "b")].
Proof.
  rewrite <- listed_wanted.
  apply (listing_requests_differences [] (fun _ _ => 0) 0 id 1 2 (bucket_of (str "a")) scan_engine
    (node_of []) listed).
  - split; [discriminate|reflexivity].
  - split; [discriminate|reflexivity].
  - apply bucket_of_lt.
  - unfold get_bucket_keys. rewrite read_shards_idle; [|reflexivity|apply all_shards].
    rewrite scan_engine_listing. reflexivity.
  - repeat (apply Forall_cons; split;
      [split; [reflexivity|split; [vm_compute; discriminate|vm_compute; reflexivity]]|]).
    apply Forall_nil; exact I.
  - reflexivity.
Defined.

(** A node that holds one small document. *)
Definition one_key : Engine := node_of [SPut (str "a") (str "1")].
Definition one_leaf : Z := Z.lxor 0 (Z.lxor 0 (fnv1a_64 (str "1"))).

Lemma alter_replicate n j (f : Z -> Z) h : alter f j (replicate n h) = spike n j h (f h).
Proof.
  apply list_eq. intros i. rewrite spike_lookup. destruct (decide (i < n)%nat).
  - destruct (decide (i = j)) as [->|].
    + by rewrite list_lookup_alter_eq, lookup_replicate_2.
    + by rewrite list_lookup_alter_ne, lookup_replicate_2.
  - apply lookup_ge_None_2. rewrite length_alter, length_replicate. lia.
Qed.

Lemma one_key_leaves : leaves_of one_key = spike L4_SIZE (bucket_of (str "a")) 0 one_leaf.
Proof.
  exact (alter_replicate L4_SIZE (bucket_of (str "a"))
    (fun h => Z.lxor h (Z.lxor 0 (fnv1a_64 (str "1")))) 0).
Qed.

Lemma no_key_leaves : leaves_of (node_of []) = spike L4_SIZE (bucket_of (str "a")) 0 0.
Proof.
  change (leaves_of (node_of [])) with (replicate L4_SIZE 0). apply list_eq. intros i.
  rewrite spike_lookup. destruct (decide (i < L4_SIZE)%nat).
  - rewrite lookup_replicate_2 by done. by case_decide.
  - apply lookup_ge_None_2. rewrite length_replicate. lia.
Qed.

Lemma one_key_inv : store_inv (store one_key).
Proof. apply put_new_inv. vm_compute. reflexivity. Qed.

Lemma node_ids_ok : node_id_ok 1 /\ node_id_ok 2.
Proof. unfold node_id_ok. lia. Qed.

Lemma one_key_paths k :
  (1 <= k <= 4)%nat -> path k (bucket_of (str "a")) 0 <> path k (bucket_of (str "a")) one_leaf.
Proof.
  intros Hk. assert (k = 1 \/ k = 2 \/ k = 3 \/ k = 4)%nat as [-> | [-> | [-> | -> ]]] by lia;
    apply Z.eqb_neq; vm_compute; reflexivity.
Qed.

(** A node with one document gossips to an empty one, which requests exactly the bucket of
    the document. *)
Lemma gossip_finds_divergence_witness :
  gossip_round [] (fun _ _ => 0) 0 id 1 2 one_key (node_of []) <> [] /\
  forall m, m ∈ gossip_round [] (fun _ _ => 0) 0 id 1 2 one_key (node_of []) <->
    exists c, (c < L4_SIZE)%nat /\ leaves_of (node_of []) !! c <> leaves_of one_key !! c /\
      m = send_req_bucket 2 1 (Z.of_nat c).
Proof.
  assert (forall m, m ∈ gossip_round [] (fun _ _ => 0) 0 id 1 2 one_key (node_of []) <->
    exists c, (c < L4_SIZE)%nat /\ leaves_of (node_of []) !! c <> leaves_of one_key !! c /\
      m = send_req_bucket 2 1 (Z.of_nat c)) as Hall.
  { intros m. apply (gossip_finds_divergence [] (fun _ _ => 0) 0 id 1 2 one_key (node_of []) m);
      [apply node_ids_ok|apply node_ids_ok|apply one_key_inv|apply store_new_inv|].
    rewrite one_key_leaves, no_key_leaves.
    apply spike_no_collision; [apply bucket_of_lt|exact one_key_paths]. }
  split; [|exact Hall]. intros Hnil.
  assert (send_req_bucket 2 1 (Z.of_nat (bucket_of (str "a"))) ∈
    gossip_round [] (fun _ _ => 0) 0 id 1 2 one_key (node_of [])) as Hin.
  { apply Hall. exists (bucket_of (str "a")). split; [apply bucket_of_lt|]. split; [|reflexivity].
    rewrite one_key_leaves, no_key_leaves, !spike_lookup.
    rewrite !(decide_True (P := (bucket_of (str "a") < L4_SIZE)%nat)) by apply bucket_of_lt.
    rewrite !(decide_True (P := bucket_of (str "a") = bucket_of (str "a"))) by reflexivity. intros Heq.
    apply (f_equal (default 0)) in Heq. revert Heq. apply Z.eqb_neq. vm_compute. reflexivity. }
  rewrite Hnil in Hin. by apply elem_of_nil in Hin.
Defined.
