(* ===== verification/Repair.v ===== *)
(** * A whole round of anti-entropy (src/engine/sync_manager.hpp)

    Node [a] gossips its root to node [b], and the two exchange messages until none is left:
    roots, tree nodes, bucket listings, value requests and values.  Each generation of
    messages is handled before the next one; every lane is delivered.  Afterwards [b] answers
    every read as if it had received all mutations of [a] itself. *)
From S2P Require Import Prelude CxxString Clock Extern Merkle Wal OrdMap Blob Credential.
From S2P Require Import KeyBuilder ReplicationLog Samples Store StoreSpec Engine EngineProps.
From S2P Require Import Lww Scan Sync SyncProps.

#[export] Instance Mutation_eq_dec : EqDecision Mutation.
Proof. solve_decision. Defined.

Lemma flat_map_assoc {A B C} (f : A -> list B) (g : B -> list C) l :
  flat_map g (flat_map f l) = flat_map (fun x => flat_map g (f x)) l.
Proof. induction l as [|x l IH]; [done|]. cbn [flat_map]. by rewrite flat_map_app, IH. Qed.

Lemma flat_map_one {A B} (f : A -> B) (l : list A) : flat_map (fun x => [f x]) l = f <$> l.
Proof. induction l as [|x l IH]; [done|]. cbn [flat_map]. by rewrite IH. Qed.

Lemma flat_map_same {A B} (f g : A -> list B) l : (forall x, x ∈ l -> f x = g x) -> flat_map f l = flat_map g l.
Proof.
  induction l as [|x l IH]; intros Hl; [done|]. cbn [flat_map]. rewrite (Hl x) by left.
  by rewrite IH by (intros y Hy; apply Hl; by right).
Qed.

Lemma list_image {A B} (f : A -> B) (P : A -> Prop) (l : list B) :
  (forall y, y ∈ l -> exists x, P x /\ y = f x) -> exists xs, l = f <$> xs /\ Forall P xs.
Proof.
  induction l as [|y l IH]; intros Hl; [by exists []|].
  destruct (Hl y) as (x & Hx & ->); [left|]. destruct IH as (xs & -> & Hxs); [intros z Hz; apply Hl; by right|].
  exists (x :: xs). split; [done|]. by constructor.
Qed.

Lemma elem_of_unless {A} (t : bool) (x y : A) : y ∈ (if t then [] else [x]) -> y = x.
Proof. destruct t; [by intros ?%elem_of_nil|by intros ->%list_elem_of_singleton]. Qed.

Section Repair.
Context {xxh : XXH3} {l3 : Lite3} {zs : Zstd} {srt : StdSort}.
Context (beyond : bytes) (wild : Z -> Z -> Z) (overflow : Z) (stale : bytes -> bytes).

Abbreviation handle := (handle_message beyond wild overflow stale).
Abbreviation drill := (drill beyond wild overflow stale).

(** Node [x] handles the messages in order; [None]: its log blocks. *)
Fixpoint deliver (x : Z) (ms : list Msg) (e : Engine) : option (list Msg * Engine) :=
  match ms with
  | [] => Some ([], e)
  | m :: ms =>
      match handle x (msg_body m) e with
      | Some (Ok rs, e) => '(rs', e) ← deliver x ms e; Some (rs ++ rs', e)
      | _ => None
      end
  end.

(** [n] generations of messages between two nodes, the first for node [y]; the result holds
    the messages left and the engines of [x] and [y]. *)
Fixpoint exchange (n : nat) (x y : Z) (ex ey : Engine) (ms : list Msg) : option (list Msg * Engine * Engine) :=
  match n with
  | O => Some (ms, ex, ey)
  | S n =>
      '(rs, ey) ← deliver y ms ey;
      '(ms, ey, ex) ← exchange n y x ey ex rs;
      Some (ms, ex, ey)
  end.

(** The root, four round trips through the tree, the listings, and the values. *)
Definition anti_entropy (a b : Z) (ea eb : Engine) : option (list Msg * Engine * Engine) :=
  match send_sync_init a b ea with
  | Some (Ok ms, ea) => exchange 13 a b ea eb ms
  | _ => None
  end.

(** ** Handlers that only read *)

Lemma deliver_map {A} x (g : A -> Msg) (f : A -> list Msg) l e :
  (forall c, c ∈ l -> handle x (msg_body (g c)) e = Some (Ok (f c), e)) ->
  deliver x (g <$> l) e = Some (flat_map f l, e).
Proof.
  induction l as [|c l IH]; intros Hf; cbn [fmap list_fmap deliver flat_map]; [done|].
  rewrite (Hf c) by left. rewrite IH by (intros c' Hc'; apply Hf; by right). done.
Qed.

Lemma deliver_each {A} x (g f : A -> Msg) l e :
  (forall c, c ∈ l -> handle x (msg_body (g c)) e = Some (Ok [f c], e)) ->
  deliver x (g <$> l) e = Some (f <$> l, e).
Proof. intros Hf. rewrite <- (flat_map_one f). by apply deliver_map. Qed.

Lemma deliver_reads x ms e (f : Msg -> list Msg) :
  (forall m, m ∈ ms -> handle x (msg_body m) e = Some (Ok (f m), e)) ->
  deliver x ms e = Some (flat_map f ms, e).
Proof. intros Hf. rewrite <- (list_fmap_id ms) at 1. by apply deliver_map. Qed.

Lemma handle_reads x body e :
  byte_at body 0 = msgtype_byte SYNC_REQ_NODE \/ byte_at body 0 = msgtype_byte SYNC_REP_NODE \/
  byte_at body 0 = msgtype_byte SYNC_GET_VAL ->
  handle x body e = Some (Ok (sent (handle x body e)), e).
Proof.
  intros Ht. unfold handle_message. destruct (length body <? 5)%nat eqn:Hl; [done|].
  destruct Ht as [-> |[-> | ->]].
  - rewrite decide_False, decide_True by done. unfold on_req_node. by destruct (length body <? 10)%nat.
  - rewrite !decide_False, decide_True by done. unfold on_rep_node. by destruct (length body <? 13)%nat.
  - rewrite !decide_False, decide_True by done. unfold on_get_val. rewrite Hl. unfold bind, gets.
    by destruct (get (drop 5 body ++ str ":meta") ADMIN_UID (store e)).
Qed.

(** They depend on the stores only. *)
Lemma handle_same x body e e' :
  byte_at body 0 = msgtype_byte SYNC_REQ_NODE \/ byte_at body 0 = msgtype_byte SYNC_REP_NODE ->
  store e = store e' -> sent (handle x body e) = sent (handle x body e').
Proof.
  intros Ht Hs. unfold handle_message. destruct (length body <? 5)%nat; [done|]. destruct Ht as [-> | ->].
  - rewrite !decide_False, !decide_True by done. unfold on_req_node, get_merkle_node, bind, gets.
    destruct (length body <? 10)%nat; [done|]. by rewrite Hs.
  - rewrite !decide_False, !decide_True by done. unfold on_rep_node, get_merkle_node, gets.
    destruct (length body <? 13)%nat; [done|]. by rewrite Hs.
Qed.

Lemma req_node_answer x body e r :
  byte_at body 0 = msgtype_byte SYNC_REQ_NODE -> r ∈ sent (handle x body e) ->
  byte_at (msg_body r) 0 = msgtype_byte SYNC_REP_NODE.
Proof.
  intros Ht. unfold handle_message. destruct (length body <? 5)%nat; [by intros ?%elem_of_nil|]. rewrite Ht.
  rewrite decide_False, decide_True by done. unfold on_req_node, bind, gets.
  destruct (length body <? 10)%nat; [by intros ?%elem_of_nil|]. by intros ->%list_elem_of_singleton.
Qed.

Lemma drill_same n a b ea ea' eb eb' m :
  store ea = store ea' -> store eb = store eb' -> drill n a b ea eb m = drill n a b ea' eb' m.
Proof.
  intros Ha Hb. revert m. induction n as [|n IH]; intros m; cbn [SyncProps.drill]; [done|].
  destruct (decide _) as [Ht|]; [|done]. rewrite (handle_same a (msg_body m) ea ea') by auto.
  apply flat_map_same. intros r Hr. apply req_node_answer in Hr; [|done].
  rewrite (handle_same b (msg_body r) eb eb') by auto. apply flat_map_same. intros m' _. apply IH.
Qed.

(** ** The descent *)

Context {xxh_ok : XXH3Spec}.

Lemma exchange_S n x y ex ey ms :
  exchange (S n) x y ex ey ms =
  '(rs, ey) ← deliver y ms ey; '(ms, ey, ex) ← exchange n y x ey ex rs; Some (ms, ex, ey).
Proof. done. Qed.

(** A generation handled by [y] and the next one by [x]. *)
Lemma exchange_trip x y ex ey ex' ey' ms rs ms' j :
  deliver y ms ey = Some (rs, ey') -> deliver x rs ex = Some (ms', ex') ->
  exchange (S (S j)) x y ex ey ms = exchange j x y ex' ey' ms'.
Proof.
  intros Hy Hx. cbn [exchange]. rewrite Hy. cbn [mbind option_bind]. rewrite Hx. cbn [mbind option_bind].
  by destruct (exchange j x y ex' ey' ms') as [[[? ?] ?]|].
Qed.

(** The requests of one round trip. *)
Definition trip (a b : Z) (ea eb : Engine) (m : Msg) : list Msg :=
  flat_map (fun reply => sent (handle b (msg_body reply) eb)) (sent (handle a (msg_body m) ea)).

Lemma trip_requests a b ea eb l p m :
  node_id_ok a -> node_id_ok b -> fresh ea -> words (leaves_of ea) -> (1 <= l <= 4)%nat -> (p < 16 ^ (l - 1))%nat ->
  m ∈ trip a b ea eb (send_req_node b a (Z.of_nat l) (Z.of_nat p)) <->
  exists i, (i < 16)%nat /\ m ∈ compare_child wild a b l (p * 16 + i) ea eb.
Proof.
  intros Ha Hb Hf Hw Hl Hp. unfold trip. rewrite req_node_reply by done. cbn [flat_map msg_body].
  rewrite rep_node_compare, app_nil_r by (done || by intros; apply node_words). rewrite concat_elem.
  split; intros (i & Hi & Hm); exists i; [apply elem_of_seq in Hi; by split; [lia|]|split; [apply elem_of_seq; lia|done]].
Qed.

Lemma req_node_trip a b ea eb l p :
  node_id_ok b -> (1 <= l <= 4)%nat -> (p < 16 ^ (l - 1))%nat ->
  let m := send_req_node b a (Z.of_nat l) (Z.of_nat p) in
  handle a (msg_body m) ea = Some (Ok (sent (handle a (msg_body m) ea)), ea) /\
  forall r, r ∈ sent (handle a (msg_body m) ea) ->
    handle b (msg_body r) eb = Some (Ok (sent (handle b (msg_body r) eb)), eb).
Proof.
  intros Hb Hl Hp m. split; [apply handle_reads; by left|]. intros r. unfold m. rewrite req_node_reply by done.
  intros ->%list_elem_of_singleton. apply handle_reads. right. by left.
Qed.

Lemma exchange_requests a b ea eb l ms j :
  node_id_ok b -> (1 <= l <= 4)%nat ->
  (forall m, m ∈ ms -> exists p, (p < 16 ^ (l - 1))%nat /\ m = send_req_node b a (Z.of_nat l) (Z.of_nat p)) ->
  exchange (S (S j)) b a eb ea ms = exchange j b a eb ea (flat_map (trip a b ea eb) ms).
Proof.
  intros Hb Hl Hms. eapply exchange_trip.
  - apply (deliver_reads a ms ea (fun m => sent (handle a (msg_body m) ea))). intros m (p & Hp & ->)%Hms.
    by apply (req_node_trip a b ea eb l p).
  - unfold trip. rewrite <- flat_map_assoc. apply deliver_reads. intros r (m & (p & Hp & ->)%Hms & Hr)%flat_map_elem.
    by apply (req_node_trip a b ea eb l p).
Qed.

Lemma exchange_drill a b ea eb k :
  node_id_ok a -> node_id_ok b -> fresh ea -> fresh eb -> words (leaves_of ea) ->
  forall n l ms, (l + n = 4)%nat -> (1 <= l)%nat ->
  (forall m, m ∈ ms -> exists p, (p < 16 ^ (l - 1))%nat /\ m = send_req_node b a (Z.of_nat l) (Z.of_nat p)) ->
  exchange (S n * 2 + k) b a eb ea ms = exchange k b a eb ea (flat_map (drill (S n) a b ea eb) ms).
Proof.
  intros Ha Hb Hfa Hfb Hw. induction n as [|n IH]; intros l ms Hln Hl Hms.
  - cbn [Nat.mul Nat.add]. rewrite (exchange_requests a b ea eb l ms k Hb ltac:(lia) Hms). f_equal.
    apply flat_map_same. intros m (p & Hp & ->)%Hms. cbn [SyncProps.drill].
    rewrite decide_True by done. apply flat_map_ext. intros r. by rewrite (flat_map_one id), list_fmap_id.
  - change (S (S n) * 2 + k)%nat with (S (S (S n * 2 + k))).
    rewrite (exchange_requests a b ea eb l ms _ Hb ltac:(lia) Hms), (IH (S l)), flat_map_assoc; [|lia|lia|].
    + f_equal. apply flat_map_same. intros m (p & Hp & ->)%Hms. unfold trip.
      cbn [SyncProps.drill]. rewrite decide_True, flat_map_assoc by done. done.
    + intros m (m0 & (p & Hp & ->)%Hms & Hm)%flat_map_elem.
      apply trip_requests in Hm as (i & Hi & Hm); [|done|done|done|done|lia|done].
      destruct (child_index_small l p i ltac:(lia) Hp Hi) as [_ Hc].
      apply compare_child_spec in Hm as [_ ->]; [|done|done|lia|done]. rewrite decide_False by lia.
      exists (p * 16 + i)%nat. replace (S l - 1)%nat with l by lia. done.
Qed.

(** ** The first generation *)

Lemma after_root_store e m :
  implements (store e) m -> implements (store (after_root e)) m /\ shards_ (store (after_root e)) = shards_ (store e) /\
    messages (after_root e) = messages e /\ write_answers (after_root e) = write_answers e.
Proof.
  intros [Hi Hd Hc]. destruct Hi as [H1 H2 H3 H4 H5 H6 H7 H8].
  assert (after_root e = set_merkle (recompute_dirty (merkle_ (store e))) e) as -> by reflexivity.
  split; [|split; [reflexivity|split; reflexivity]].
  split; [|exact Hd|exact Hc]. split; [exact H1|exact H2|exact H3|exact H4|exact H5|by apply recompute_dirty_inv| |exact H8].
  cbn [set_merkle set_store store merkle_]. rewrite (recompute_dirty_spec _ H6). exact H7.
Qed.

Lemma after_root_answers ans e : store (after_root (with_answers ans e)) = store (after_root e).
Proof. unfold after_root, get_merkle_root_hash. cbn [store with_answers]. by destruct (get_root_hash _). Qed.

Lemma send_sync_init_spec a b e :
  merkle_inv (merkle_ (store e)) ->
  send_sync_init a b e = Some (Ok [mkMsg b Control (sync_init_msg a (full_root (leaves_of e)))], after_root e).
Proof.
  intros Hm. pose proof (send_sync_init_sent a b e Hm) as Hs.
  unfold send_sync_init, after_root, bind, get_merkle_root_hash in *. destruct (get_root_hash _) as [h t].
  cbn [ret sent] in *. by rewrite Hs.
Qed.

Lemma sync_init_reads b body e :
  byte_at body 0 = msgtype_byte SYNC_INIT -> length body = 13%nat ->
  handle b body e = Some (Ok (sent (handle b body e)), after_root e).
Proof.
  intros Ht Hl. unfold handle_message. rewrite Hl, Ht. cbn [Nat.ltb Nat.leb]. rewrite !decide_True by done.
  unfold on_sync_init. rewrite Hl. cbn [Nat.ltb Nat.leb]. unfold bind, after_root, get_merkle_root_hash.
  generalize (get_root_hash (merkle_ (store e))). intros [h t]. by destruct (h =? _).
Qed.

Lemma req_bucket_inj a b c c' :
  (c < 16 ^ 4)%nat -> (c' < 16 ^ 4)%nat ->
  send_req_bucket b a (Z.of_nat c) = send_req_bucket b a (Z.of_nat c') -> c = c'.
Proof.
  cbn [Nat.pow]. intros Hc Hc' Heq. apply (f_equal (fun m => drop 5 (msg_body m))) in Heq.
  change (le32 (Z.of_nat c) = le32 (Z.of_nat c')) in Heq. apply (f_equal le_combine) in Heq. rewrite !le_combine_le32, !u32_small in Heq by lia. lia.
Qed.

(** Up to the requests for buckets. *)
Lemma exchange_tree a b ea eb ma mb :
  node_id_ok a -> node_id_ok b -> implements (store ea) ma -> implements (store eb) mb ->
  no_collision (leaves_of eb) (leaves_of ea) ->
  exists cs, (forall c, c ∈ cs <-> (c < L4_SIZE)%nat /\ leaves_of eb !! c <> leaves_of ea !! c) /\
    forall ans, anti_entropy a b ea (with_answers ans eb) =
      '(ms, eb', ea') ← exchange 4 b a (after_root (with_answers ans eb)) (after_root ea)
                          ((fun c => send_req_bucket b a (Z.of_nat c)) <$> cs);
      Some (ms, ea', eb').
Proof.
  intros Ha Hb Hia Hib Hnc.
  destruct (after_root_fresh ea (si_merkle _ (im_inv _ _ Hia))) as [Hfa Ela].
  destruct (after_root_fresh eb (si_merkle _ (im_inv _ _ Hib))) as [Hfb Elb].
  set (reqs := if full_root (leaves_of eb) =? full_root (leaves_of ea) then []
               else [send_req_node b a (Z.of_nat 1) (Z.of_nat 0)]).
  assert (words (leaves_of (after_root ea))) as Hw by (rewrite Ela; by apply leaves_words, (im_inv _ _ Hia)).
  assert (forall m, m ∈ flat_map (drill 4 a b (after_root ea) (after_root eb)) reqs <->
    exists c, (c < L4_SIZE)%nat /\ leaves_of eb !! c <> leaves_of ea !! c /\ m = send_req_bucket b a (Z.of_nat c)) as Hspec.
  { intros m. pose proof (descent_spec beyond wild overflow stale a b (after_root ea) (after_root eb) m Ha Hb Hfa Hfb Hw) as Hd.
    rewrite Ela, Elb in Hd. exact (Hd Hnc). }
  destruct (list_image (fun c => send_req_bucket b a (Z.of_nat c))
    (fun c => (c < L4_SIZE)%nat /\ leaves_of eb !! c <> leaves_of ea !! c)
    (flat_map (drill 4 a b (after_root ea) (after_root eb)) reqs)) as (cs & Hcs & Hall).
  { intros m (c & Hc & Hd & ->)%Hspec. exists c. exact (conj (conj Hc Hd) eq_refl). }
  exists cs. split.
  - intros c. split; [by intros Hc; rewrite Forall_forall in Hall; apply Hall|]. intros [Hc Hd].
    assert (send_req_bucket b a (Z.of_nat c) ∈ flat_map (drill 4 a b (after_root ea) (after_root eb)) reqs) as Hin
      by (apply Hspec; exists c; exact (conj Hc (conj Hd eq_refl))).
    rewrite Hcs in Hin. apply list_elem_of_fmap in Hin as (c' & Heq & Hin). rewrite Forall_forall in Hall.
    assert (c = c') as ->; [|done]. apply Hall in Hin as [Hc' _]. rewrite L4_pow in Hc, Hc'. by eapply req_bucket_inj.
  - intros ans. unfold anti_entropy. rewrite send_sync_init_spec by apply (si_merkle _ (im_inv _ _ Hia)).
    change 13%nat with (S (S 3 * 2 + 4)). rewrite exchange_S. cbn [deliver msg_body].
    rewrite sync_init_reads by done.
    rewrite sync_init_reply; [|exact Ha|apply XXH3_range|exact (si_merkle _ (im_inv _ _ Hib))].
    change (leaves_of (with_answers ans eb)) with (leaves_of eb). fold reqs. cbn [mbind option_bind]. rewrite app_nil_r.
    destruct (after_root_fresh (with_answers ans eb) (si_merkle _ (im_inv _ _ Hib))) as [Hfb' _].
    rewrite (exchange_drill a b (after_root ea) (after_root (with_answers ans eb)) 4) with (l := 1%nat); [|exact Ha|exact Hb|exact Hfa|exact Hfb'|exact Hw|lia|lia|].
    + rewrite <- Hcs. rewrite (flat_map_same (drill 4 a b (after_root ea) (after_root (with_answers ans eb)))
        (drill 4 a b (after_root ea) (after_root eb)) reqs); [reflexivity|].
      intros m _. apply drill_same; [reflexivity|apply after_root_answers].
    + intros m Hm. exists 0%nat. split; [cbn; lia|]. exact (elem_of_unless _ _ _ Hm).
Qed.

(** ** Listings and values *)

Context {l3_ok : Lite3Spec} {zs_ok : ZstdSpec} {srt_ok : StdSortSpec}.

(** A mutation that travels unchanged. *)
Record transferable (mu : Mutation) : Prop := {
  tr_ok : mut_ok mu;
  tr_wall : - 2 ^ 53 < wall_time (m_timestamp mu) < 2 ^ 53;
  tr_meta : forall d, mut_meta mu = Some d -> zlen d < 2 ^ 16;
  tr_stored : m_is_delete mu = false -> stored_form (mut_doc mu) = mut_doc mu }.

(** The mutation a value message carries. *)
Definition moved (mu : Mutation) : Mutation :=
  mkMutation (m_timestamp mu) (m_key mu) (mut_doc mu) (m_is_delete mu).

Definition value_msg (a b : Z) (mu : Mutation) : Msg :=
  mkMsg b Heavy (put_val_body a (m_key mu) (default [] (mut_meta mu)) (mut_doc mu)).

Lemma moved_doc mu : transferable mu -> mut_doc (moved mu) = mut_doc mu.
Proof.
  intros Ht. unfold mut_doc at 1, moved. cbn [m_is_delete m_value]. destruct (m_is_delete mu) eqn:E.
  - unfold mut_doc. by rewrite E.
  - by apply (tr_stored _ Ht).
Qed.

Lemma moved_ok mu : transferable mu -> mut_ok (moved mu).
Proof.
  intros Ht. destruct (tr_ok _ Ht) as [H1 H2 H3 H4 H5 H6]. split; try done. by rewrite moved_doc.
Qed.

Lemma data_key_short k : data_key k = true -> zlen k < 2 ^ 16.
Proof.
  intros Hk. unfold data_key in Hk. bool_prop.
  match goal with H : (_ <? _)%nat = true |- _ => apply Nat.ltb_lt in H end. unfold zlen. lia.
Qed.

Lemma moved_transferable mu : transferable mu -> transferable (moved mu).
Proof.
  intros Ht. pose proof (moved_doc mu Ht) as Hd.
  split; [by apply moved_ok|apply Ht|apply Ht|]. intros Hdel. rewrite Hd. by apply Ht.
Qed.

(** A value that arrives is applied as a mutation. *)
Lemma handle_value a b w e :
  transferable w ->
  handle b (msg_body (value_msg a b w)) e =
    match apply_mutation stale (moved w) e with
    | Some (_, e') => Some (Ok [], e')
    | None => None
    end.
Proof.
  intros Hw. pose proof (tr_ok _ Hw) as Hwo.
  destruct (meta_doc_fields (m_timestamp w) (m_is_delete w) (mut_ok_ts _ Hwo)) as (d & Hd & Hf).
  unfold value_msg. cbn [msg_body]. unfold mut_meta. rewrite Hd. cbn [from_option id].
  apply (put_val_applies beyond wild overflow stale a b (m_key w) d (mut_doc w) (m_timestamp w) (m_is_delete w));
    [by apply data_key_short, (mo_key _ Hwo)|by apply (tr_meta _ Hw)|
     exact (parse_meta_fields overflow d _ _ Hf (mut_ok_ts _ Hwo) (tr_wall _ Hw))].
Qed.

(** The receiver of the values applies them one after the other. *)
Lemma deliver_values a b ws : forall msb e m,
  implements (store e) m -> kv_inv msb m -> Forall mut_ok msb -> Forall transferable ws ->
  enough (logs_cost stale (moved <$> ws)) (write_answers e) ->
  exists e', deliver b (value_msg a b <$> ws) e = Some ([], e').
Proof.
  induction ws as [|w ws IH]; intros msb e m Him Hinv Hok Hws Hen; cbn [fmap list_fmap deliver]; [by exists e|].
  apply Forall_cons in Hws as [Hw Hws]. rewrite handle_value by done.
  destruct (apply_mutation_lww stale msb (moved w) e m (logs_cost stale (list_fmap _ _ moved ws)) Him Hinv Hok (moved_ok _ Hw) Hen)
    as (e1 & m1 & -> & Him1 & Hinv1 & Hen1).
  destruct (IH (msb ++ [moved w]) e1 m1 Him1 Hinv1) as (e2 & ->); [|done|done|by exists e2].
  apply Forall_app. split; [done|]. constructor; [by apply moved_ok|done].
Qed.

(** Whatever the operating system answers: once all are handled, they are in. *)
Lemma deliver_values_any a b ws : forall msb e m ms e',
  implements (store e) m -> kv_inv msb m -> Forall mut_ok msb -> Forall transferable ws ->
  deliver b (value_msg a b <$> ws) e = Some (ms, e') ->
  ms = [] /\ messages e' = messages e /\
  exists m', implements (store e') m' /\ kv_inv (msb ++ (moved <$> ws)) m'.
Proof.
  induction ws as [|w ws IH]; intros msb e m ms e' Him Hinv Hok Hws; cbn [fmap list_fmap deliver].
  { intros [= <- <-]. split; [done|]. split; [done|]. exists m. by rewrite app_nil_r. }
  apply Forall_cons in Hws as [Hw Hws]. rewrite handle_value by done.
  destruct (apply_mutation stale (moved w) e) as [[r e1]|] eqn:E1; [|done].
  destruct (apply_mutation_any stale msb (moved w) e m r e1 Him Hinv Hok (moved_ok _ Hw) E1) as (Hm1 & m1 & Him1 & Hinv1).
  destruct (deliver b (value_msg a b <$> ws) e1) as [[ms2 e2]|] eqn:E2; [|done]. cbn [mbind option_bind app].
  intros [= <- <-]. destruct (IH (msb ++ [moved w]) e1 m1 ms2 e2) as (-> & Hm2 & m2 & Him2 & Hinv2); try done.
  { apply Forall_app. split; [done|]. constructor; [by apply moved_ok|done]. }
  split; [done|]. split; [congruence|]. exists m2. by rewrite <- app_assoc in Hinv2.
Qed.

(** The sender answers with the mutation that won. *)
Lemma get_val_handled a b ea ma msa w :
  node_id_ok b -> implements (store ea) ma -> kv_inv msa ma -> mut_ok w -> winner (m_key w) msa = Some w ->
  handle a (msg_body (send_get_val b a (m_key w))) ea = Some (Ok [value_msg a b w], ea).
Proof.
  intros Hb Him [_ Hdocs] Hw Hwin. pose proof (mo_key _ Hw) as Hk.
  rewrite handle_reads by (right; by right).
  destruct (meta_doc_fields (m_timestamp w) (m_is_delete w) (mut_ok_ts _ Hw)) as (d & Hd & Hf).
  rewrite (get_val_reply beyond wild overflow stale a b ea ma (m_key w) d (mut_doc w)); try done.
  - unfold value_msg, mut_meta. by rewrite Hd.
  - rewrite Hdocs. unfold lww_lookup. rewrite meta_not_data, strip_meta_app, Hk, Hwin. done.
  - destruct (object_tag d (mf_object _ _ _ Hf)) as (x & ->). done.
  - rewrite Hdocs. unfold lww_lookup. by rewrite Hk, Hwin.
Qed.

(** What the values add to the mutations of the receiver. *)
Lemma moved_winner k msa ws :
  Forall (fun w => winner (m_key w) msa = Some w) ws ->
  winner k (moved <$> ws) = match winner k msa with
                            | Some w => if decide (w ∈ ws) then Some (moved w) else None
                            | None => None
                            end.
Proof.
  rewrite Forall_forall. intros Hws.
  assert (forall mu, mu ∈ moved <$> ws -> exists w, w ∈ ws /\ mu = moved w /\ winner (m_key mu) msa = Some w) as Hin.
  { intros mu (w & -> & Hw)%list_elem_of_fmap. exists w. split; [done|]. split; [done|]. exact (Hws w Hw). }
  destruct (winner k (moved <$> ws)) as [mu|] eqn:E.
  - destruct (winner_Some _ _ _ E) as [H1 H2 _ _]. destruct (Hin mu H1) as (w & Hw & -> & Hwin).
    rewrite H2 in Hwin. by rewrite Hwin, decide_True.
  - destruct (winner k msa) as [w|] eqn:Ew; [|done]. destruct (decide (w ∈ ws)) as [Hw|]; [exfalso|done].
    pose proof (winner_Some _ _ _ Ew) as [_ Hk Hpos _].
    pose proof (winner_bound k (moved <$> ws) (moved w)) as Hb. rewrite E in Hb. cbn [acc_ts moved m_timestamp m_key] in Hb.
    specialize (Hb (list_elem_of_fmap_2 _ _ _ Hw) Hk). apply ts_leb_spec in Hb as [Hb|Hb].
    + destruct (irreflexivity ts_lt zero_ts). by etrans.
    + rewrite Hb in Hpos. by destruct (irreflexivity ts_lt zero_ts).
Qed.

Lemma merged_lookup k msa msb ws d :
  data_key k = true -> Forall transferable msa -> Forall (fun w => winner (m_key w) msa = Some w) ws ->
  (forall w, winner k msa = Some w -> w ∈ ws \/ default d (mut_doc <$> winner k msb) = mut_doc w) ->
  default d (lww_lookup (msb ++ (moved <$> ws)) k) = default d (lww_lookup (msb ++ msa) k).
Proof.
  intros Hk Hok Hws Hall. unfold lww_lookup. rewrite Hk, !winner_app, (moved_winner k msa ws) by done.
  destruct (winner k msa) as [w|] eqn:Ew; [|done]. destruct (winner_Some _ _ _ Ew) as [Hin Hkw _ _].
  rewrite Forall_forall in Hok. destruct (decide (w ∈ ws)) as [Hw|Hnw].
  - unfold beat. cbn [moved m_key m_timestamp]. rewrite !decide_True by done.
    destruct (ts_leb _ _); [done|]. cbn [fmap option_fmap option_map]. by rewrite moved_doc by (by apply Hok).
  - destruct (Hall w eq_refl) as [?|Heq]; [done|]. unfold beat. rewrite decide_True by done.
    by destruct (ts_leb _ _).
Qed.

(** ** Theorem *)

(** No two things that the nodes compare differ behind equal hashes: blocks of the trees, the
    documents of a bucket, and the document of a listed key. *)
Record comparable (ea eb : Engine) : Prop := {
  cm_tree : no_collision (leaves_of eb) (leaves_of ea);
  cm_leaf k :
    data_key k = true -> leaves_of eb !! bucket_of k = leaves_of ea !! bucket_of k ->
    get k ADMIN_UID (store eb) = get k ADMIN_UID (store ea);
  cm_hash k :
    data_key k = true -> fnv1a_64 <$> view_bytes k (store ea) = Some (compared_hash k eb) ->
    get k ADMIN_UID (store eb) = get k ADMIN_UID (store ea) }.

Lemma lww_key msa k d : lww_lookup msa k = Some d -> zlen k < 2 ^ 16 /\ (is_meta k = false -> data_key k = true).
Proof.
  unfold lww_lookup. destruct (data_key k) eqn:Hk; [intros _; split; [by apply data_key_short|done]|].
  destruct (strip_meta k) as [k'|] eqn:Hs; [|done]. destruct (data_key k') eqn:Hk'; [|done]. intros _.
  apply strip_meta_Some in Hs as ->. split; [|unfold is_meta; by rewrite ends_with_meta].
  unfold data_key in Hk'. bool_prop. match goal with H : (_ <? _)%nat = true |- _ => apply Nat.ltb_lt in H end.
  unfold zlen. rewrite length_app. change (length (str ":meta")) with 5%nat. lia.
Qed.

Lemma view_docs s m k h : implements s m -> fnv1a_64 <$> view_bytes k s = Some h -> is_Some (docs m !! k).
Proof.
  intros Him Hv. rewrite <- (im_docs _ _ Him). unfold plain, view_bytes in *. by destruct (get_view k s).
Qed.

Lemma docs_view s m k d : implements s m -> docs m !! k = Some d -> is_Some (fnv1a_64 <$> view_bytes k s).
Proof.
  intros Him Hd. rewrite <- (im_docs _ _ Him) in Hd. unfold plain, view_bytes in *. destruct (get_view k s); [|done]. by eexists.
Qed.

(** The keys the receiver asks for are those of mutations that won at the sender. *)
Lemma requests_win a b ea eb ma msa cs :
  implements (store ea) ma -> kv_inv msa ma -> (forall c, c ∈ cs -> (c < L4_SIZE)%nat) ->
  exists ws, flat_map (fun c => flat_map (wanted a b eb) (listing c (store ea))) cs =
               (fun w => send_get_val b a (m_key w)) <$> ws /\
    Forall (fun w => winner (m_key w) msa = Some w) ws.
Proof.
  intros Him [_ Hdocs] Hcs. apply list_image.
  intros m (c & Hc & ([k h] & Hkh & Hm)%flat_map_elem)%flat_map_elem.
  apply listing_elem in Hkh as [_ Hv]; [|apply (im_inv _ _ Him)|by apply Hcs].
  destruct (view_docs _ _ _ _ Him Hv) as [d Hd]. rewrite Hdocs in Hd.
  unfold wanted in Hm. cbn [fst snd] in Hm. destruct (is_meta k) eqn:Hmeta; [by apply elem_of_nil in Hm|]. cbn [orb] in Hm.
  destruct (compared_hash k eb =? h); [by apply elem_of_nil in Hm|]. apply list_elem_of_singleton in Hm as ->.
  pose proof (proj2 (lww_key _ _ _ Hd) Hmeta) as Hk. unfold lww_lookup in Hd. rewrite Hk in Hd.
  destruct (winner k msa) as [w|] eqn:Hw; [|done]. exists w. pose proof (nw_key _ _ _ (winner_Some _ _ _ Hw)) as Hkw.
  by rewrite Hkw.
Qed.

Lemma listing_ok c s m msa :
  implements s m -> kv_inv msa m -> (c < L4_SIZE)%nat -> Forall listable (listing c s).
Proof.
  intros Him [_ Hdocs] Hc. apply Forall_forall. intros [k h] Hkh.
  apply listing_elem in Hkh as [_ Hv]; [|apply (im_inv _ _ Him)|done].
  destruct (view_docs _ _ _ _ Him Hv) as [d Hd]. rewrite Hdocs in Hd. split; [by eapply lww_key|].
  cbn [snd]. destruct (view_bytes k s); [|done]. injection Hv as <-. apply XXH3_range.
Qed.

(** A key is asked for, or the two nodes read the same under it. *)
Lemma asked_or_same a b ea eb ma mb msa cs ws k w :
  implements (store ea) ma -> implements (store eb) mb -> kv_inv msa ma -> comparable ea eb ->
  (forall c, c ∈ cs <-> (c < L4_SIZE)%nat /\ leaves_of eb !! c <> leaves_of ea !! c) ->
  flat_map (fun c => flat_map (wanted a b eb) (listing c (store ea))) cs = (fun w => send_get_val b a (m_key w)) <$> ws ->
  Forall (fun w => winner (m_key w) msa = Some w) ws -> data_key k = true -> winner k msa = Some w ->
  w ∈ ws \/ default buffer_default (docs mb !! k) = mut_doc w.
Proof.
  intros Hia Hib [_ Hdocs] Hcmp Hcs Hreq Hws Hk Hw.
  assert (docs ma !! k = Some (mut_doc w)) as Hd by (rewrite Hdocs; unfold lww_lookup; by rewrite Hk, Hw).
  assert (get k ADMIN_UID (store eb) = get k ADMIN_UID (store ea) ->
    default buffer_default (docs mb !! k) = mut_doc w) as Hsame.
  { rewrite (get_admin _ _ _ Hia), (get_admin _ _ _ Hib), Hd. done. }
  destruct (decide (leaves_of eb !! bucket_of k = leaves_of ea !! bucket_of k)) as [Hleaf|Hleaf].
  { right. by apply Hsame, (cm_leaf _ _ Hcmp). }
  destruct (docs_view _ _ _ _ Hia Hd) as [h Hh].
  destruct (decide (compared_hash k eb = h)) as [<-|Hne].
  { right. by apply Hsame, (cm_hash _ _ Hcmp). }
  left. assert (send_get_val b a k ∈ (fun w => send_get_val b a (m_key w)) <$> ws) as Hin.
  { rewrite <- Hreq. apply flat_map_elem. exists (bucket_of k). pose proof (bucket_of_lt k) as Hlt.
    split; [by apply Hcs|]. apply flat_map_elem. exists (k, h).
    split; [by apply listing_elem; [apply (im_inv _ _ Hia)|..]|]. unfold wanted. cbn [fst snd].
    assert (is_meta k = false) as -> by (unfold data_key in Hk; unfold is_meta; by bool_prop).
    cbn [orb]. rewrite (proj2 (Z.eqb_neq _ _) Hne). by left. }
  apply list_elem_of_fmap in Hin as (w' & Heq & Hin). rewrite Forall_forall in Hws. pose proof (Hws w' Hin) as Hw'.
  apply (f_equal (fun m => drop 5 (msg_body m))) in Heq. change (k = m_key w') in Heq. congruence.
Qed.

Lemma after_root_cache e : exists t, after_root e = set_merkle t e.
Proof. exists (recompute_dirty (merkle_ (store e))). reflexivity. Qed.

Lemma listing_cached c e : listing c (store (after_root e)) = listing c (store e).
Proof. by destruct (after_root_cache e) as [t ->]. Qed.

(** From the requests for buckets on. *)
Lemma exchange_values a b ea eb ma msa cs ws :
  node_id_ok a -> node_id_ok b -> idle ea -> implements (store ea) ma -> kv_inv msa ma -> Forall transferable msa ->
  (forall c, c ∈ cs -> (c < L4_SIZE)%nat /\ zlen (listing c (store ea)) < 2 ^ 32) ->
  flat_map (fun c => flat_map (wanted a b eb) (listing c (store ea))) cs = (fun w => send_get_val b a (m_key w)) <$> ws ->
  Forall (fun w => winner (m_key w) msa = Some w) ws ->
  exchange 4 b a (after_root eb) (after_root ea) ((fun c => send_req_bucket b a (Z.of_nat c)) <$> cs) =
    '(ms, eb') ← deliver b (value_msg a b <$> ws) (after_root eb); Some (ms, eb', after_root ea).
Proof.
  intros Ha Hb Hidle Hia Hka Hta Hcs Hreq Hws.
  destruct (after_root_store ea ma Hia) as (Hia1 & _ & Hm1 & _).
  rewrite Forall_forall in Hws, Hta.
  rewrite (exchange_trip b a (after_root eb) (after_root ea) (after_root eb) (after_root ea)
    _ ((fun c => mkMsg b Heavy (rep_bucket_body a c (listing c (store ea)))) <$> cs)
    ((fun w => send_get_val b a (m_key w)) <$> ws)).
  - cbn [exchange]. rewrite (deliver_each a _ (value_msg a b)).
    2: { intros w Hw. apply (get_val_handled a b (after_root ea) ma msa); try done; [|by apply Hws].
         apply (tr_ok _ (Hta w (nw_in _ _ _ (winner_Some _ _ _ (Hws w Hw))))). }
    cbn [mbind option_bind]. by destruct (deliver b _ _) as [[ms eb']|].
  - apply deliver_each. intros c Hc. rewrite <- (listing_cached c ea).
    apply req_bucket_reply; [done|by apply Hcs|]. apply get_bucket_keys_idle. unfold idle. by rewrite Hm1.
  - rewrite <- Hreq. apply deliver_map. intros c Hc. cbn [msg_body]. destruct (Hcs c Hc) as [Hlt Hlen].
    rewrite rep_bucket_requests; [|done|by eapply listing_ok|done]. by destruct (after_root_cache eb) as [t ->].
Qed.

(** A whole round: the receiver [b] is sent the values [ws] that won at [a]. *)
Lemma round_values a b ea eb ma mb msa :
  node_id_ok a -> node_id_ok b -> idle ea -> implements (store ea) ma -> implements (store eb) mb ->
  kv_inv msa ma -> Forall transferable msa -> comparable ea eb ->
  (forall c, (c < L4_SIZE)%nat -> zlen (listing c (store ea)) < 2 ^ 32) ->
  exists ws, Forall (fun w => winner (m_key w) msa = Some w) ws /\ Forall transferable ws /\
    (forall k w, data_key k = true -> winner k msa = Some w -> w ∈ ws \/ default buffer_default (docs mb !! k) = mut_doc w) /\
    forall ans, anti_entropy a b ea (with_answers ans eb) =
      '(ms, eb') ← deliver b (value_msg a b <$> ws) (after_root (with_answers ans eb)); Some (ms, after_root ea, eb').
Proof.
  intros Ha Hb Hidle Hia Hib Hka Hta Hcmp Hsize.
  destruct (exchange_tree a b ea eb ma mb Ha Hb Hia Hib (cm_tree _ _ Hcmp)) as (cs & Hcs & Hrun).
  destruct (requests_win a b ea eb ma msa cs Hia Hka) as (ws & Hreq & Hws); [by intros c Hc; apply Hcs|].
  exists ws. split; [done|]. split; [|split].
  - rewrite Forall_forall in *. intros w Hw. apply Hta. by apply (nw_in _ _ _ (winner_Some _ _ _ (Hws w Hw))).
  - intros k w Hk Hw. by eapply (asked_or_same a b ea eb ma mb msa cs ws k w).
  - intros ans. rewrite Hrun, (exchange_values a b ea (with_answers ans eb) ma msa cs ws); try done.
    + by destruct (deliver b _ _) as [[ms eb']|].
    + intros c [Hc _]%Hcs. split; [done|by apply Hsize].
Qed.

(** What a node reads once the values have arrived. *)
Lemma merged_reads msa msb ws mb e m' k :
  Forall transferable msa -> Forall (fun w => winner (m_key w) msa = Some w) ws -> kv_inv msb mb ->
  (forall k w, data_key k = true -> winner k msa = Some w -> w ∈ ws \/ default buffer_default (docs mb !! k) = mut_doc w) ->
  implements (store e) m' -> kv_inv (msb ++ (moved <$> ws)) m' -> data_key k = true ->
  get k ADMIN_UID (store e) = default buffer_default (lww_lookup (msb ++ msa) k).
Proof.
  intros Hta Hws Hkb Hall Him Hkv Hk. rewrite (get_admin _ _ _ Him), (proj2 Hkv k). apply merged_lookup; [done|done|done|].
  intros w Hw. pose proof (Hall k w Hk Hw) as Hor. rewrite (proj2 Hkb k) in Hor. unfold lww_lookup in Hor. by rewrite Hk in Hor.
Qed.

(** C6: Anti-entropy merges.  Node [a], which holds the outcome of the mutations [msa], gossips
    to node [b], which holds that of [msb]; all messages are delivered, and no two things that
    the nodes compare differ behind equal hashes.  Then the exchange ends after 13 generations
    of messages, [a] keeps its contents, and [b] answers every read of a data key as a node
    that has received all of [msb] and [msa]: under each key the document with the greatest
    timestamp of both. *)
Theorem anti_entropy_merges a b ea eb ma mb msa msb :
  node_id_ok a -> node_id_ok b -> idle ea -> implements (store ea) ma -> implements (store eb) mb ->
  kv_inv msa ma -> kv_inv msb mb -> Forall transferable msa -> Forall mut_ok msb -> comparable ea eb ->
  (forall c, (c < L4_SIZE)%nat -> zlen (listing c (store ea)) < 2 ^ 32) ->
  exists n, forall ans, enough n ans ->
  exists ea' eb', anti_entropy a b ea (with_answers ans eb) = Some ([], ea', eb') /\
    (forall k, plain k (store ea') = plain k (store ea)) /\
    forall k, data_key k = true ->
      get k ADMIN_UID (store eb') = default buffer_default (lww_lookup (msb ++ msa) k).
Proof.
  intros Ha Hb Hidle Hia Hib Hka Hkb Hta Hob Hcmp Hsize.
  destruct (round_values a b ea eb ma mb msa Ha Hb Hidle Hia Hib Hka Hta Hcmp Hsize) as (ws & Hws & Htw & Hall & Hrun).
  exists (logs_cost stale (moved <$> ws)). intros ans Hen.
  destruct (after_root_store (with_answers ans eb) mb Hib) as (Hib1 & _ & _ & Hans).
  destruct (deliver_values a b ws msb (after_root (with_answers ans eb)) mb Hib1 Hkb Hob Htw) as (eb' & Hdel);
    [rewrite Hans; exact Hen|].
  destruct (deliver_values_any a b ws msb _ mb _ _ Hib1 Hkb Hob Htw Hdel) as (_ & _ & m' & Him' & Hkv').
  exists (after_root ea), eb'. rewrite Hrun, Hdel. split; [done|]. split.
  - intros k. by destruct (after_root_cache ea) as [t ->].
  - intros k Hk. by apply (merged_reads msa msb ws mb _ m').
Qed.

End Repair.

(** ** A node with one key and an empty one

    The key and its metadata key are in one bucket of the sample hash. *)

Definition sample_key : bytes := str "fngt".
Definition sample_mut : Mutation := mkMutation newer_ts sample_key (str "new") false.
Definition sender : Engine := node_of (mut_ops sample_mut newer_meta).
Definition sender_leaf : Z := default 0 (leaves_of sender !! bucket_of sample_key).

Lemma sample_bucket : bucket_of (meta_key sample_key) = bucket_of sample_key.
Proof. unfold bucket_of. by f_equal. Qed.

Lemma sample_transferable : transferable sample_mut.
Proof.
  split; [split; [reflexivity|cbn; lia..|reflexivity|]|cbn; lia| |reflexivity];
    intros d Hd; vm_compute in Hd; injection Hd as <-; by vm_compute.
Qed.

Lemma sender_implements : exists m, implements (store sender) m /\ kv_inv [sample_mut] m.
Proof.
  apply (accept_implements store_new [] kv_new sample_mut newer_meta);
    [apply implements_new|apply kv_inv_new|apply sample_transferable|vm_compute; reflexivity| |reflexivity].
  destruct (meta_doc_ok newer_ts false newer_ts_fits) as (d & Hd & Ho & _).
  unfold newer_meta. by rewrite Hd.
Qed.

Lemma sender_store :
  store sender = apply_put (meta_key sample_key) newer_meta (apply_put sample_key (str "new") store_new).
Proof. reflexivity. Qed.

Lemma sender_leaves : leaves_of sender = spike L4_SIZE (bucket_of sample_key) 0 sender_leaf.
Proof.
  destruct sender_implements as (m & Him & _). pose proof (mi_leaves _ (si_merkle _ (im_inv _ _ Him))) as Hlen.
  apply list_eq. intros i. rewrite spike_lookup. destruct (decide (i < L4_SIZE)%nat) as [Hi|Hi].
  - destruct (decide (i = bucket_of sample_key)) as [->|Hne].
    + unfold sender_leaf. destruct (lookup_lt_is_Some_2 (leaves_of sender) (bucket_of sample_key)) as [v ->]; [|done].
      unfold leaves_of. by rewrite Hlen.
    + unfold leaves_of. rewrite sender_store.
      assert (store_inv (apply_put sample_key (str "new") store_new)) as Hs by (apply put_new_inv; vm_compute; reflexivity).
      pose proof (leaf_put sample_key (str "new") store_new i 0 store_new_inv (lookup_replicate_2 _ _ _ Hi)) as H1.
      rewrite decide_False in H1 by congruence.
      rewrite (leaf_put (meta_key sample_key) newer_meta _ i _ Hs H1), decide_False; [done|]. rewrite sample_bucket. congruence.
  - apply lookup_ge_None_2. unfold leaves_of. rewrite Hlen. lia.
Qed.

Lemma receiver_leaves : leaves_of (node_of []) = spike L4_SIZE (bucket_of sample_key) 0 0.
Proof.
  change (leaves_of (node_of [])) with (replicate L4_SIZE 0). apply list_eq. intros i.
  rewrite spike_lookup. destruct (decide (i < L4_SIZE)%nat).
  - rewrite lookup_replicate_2 by done. by case_decide.
  - apply lookup_ge_None_2. rewrite length_replicate. lia.
Qed.

Lemma sample_paths k :
  (1 <= k <= 4)%nat -> path k (bucket_of sample_key) 0 <> path k (bucket_of sample_key) sender_leaf.
Proof.
  intros Hk. assert (k = 1 \/ k = 2 \/ k = 3 \/ k = 4)%nat as [-> | [-> | [-> | -> ]]] by lia;
    apply Z.eqb_neq; vm_compute; reflexivity.
Qed.

Lemma receiver_reads k : get k ADMIN_UID (store (node_of [])) = buffer_default.
Proof. rewrite (get_admin _ _ _ node_b_implements). unfold kv_new. cbn [docs]. by rewrite lookup_empty. Qed.

(** The only data key of the sender. *)
Lemma sender_keys k m : kv_inv [sample_mut] m -> data_key k = true -> k <> sample_key -> docs m !! k = None.
Proof.
  intros [_ Hd] Hk Hne. rewrite Hd. unfold lww_lookup. rewrite Hk. cbn [winner foldl]. unfold beat.
  by rewrite decide_False by (intros <-; by apply Hne).
Qed.

Lemma sample_comparable : comparable sender (node_of []).
Proof.
  destruct sender_implements as (m & Him & Hkv). split.
  - rewrite sender_leaves, receiver_leaves. apply spike_no_collision; [apply bucket_of_lt|exact sample_paths].
  - intros k Hk. destruct (decide (k = sample_key)) as [->|Hne].
    + rewrite sender_leaves, receiver_leaves, !spike_lookup.
      rewrite !(decide_True (P := (bucket_of sample_key < L4_SIZE)%nat)) by apply bucket_of_lt.
      rewrite !(decide_True (P := bucket_of sample_key = bucket_of sample_key)) by reflexivity. intros Heq. exfalso.
      apply (f_equal (default 0)) in Heq. revert Heq. apply Z.eqb_neq. vm_compute. reflexivity.
    + intros _. by rewrite receiver_reads, (get_admin _ _ _ Him), (sender_keys k m).
  - intros k Hk Hh. destruct (decide (k = sample_key)) as [->|Hne].
    + exfalso. apply (f_equal (default 0)) in Hh. revert Hh. apply Z.eqb_neq. vm_compute. reflexivity.
    + by rewrite receiver_reads, (get_admin _ _ _ Him), (sender_keys k m).
Qed.

Lemma bucket_entries_short b m : (length (bucket_entries b m) <= length m)%nat.
Proof. induction m as [|[k p] m IH]; cbn [bucket_entries]; [done|]. destruct (in_bucket b k); simpl; lia. Qed.

Lemma listing_short c s : (length (listing c s) <= length (concat ((fun i => shard_at i s) <$> seq 0 SHARDS)))%nat.
Proof.
  unfold listing. generalize (seq 0 SHARDS) as l. induction l as [|i l IH]; cbn [fmap list_fmap concat]; [done|].
  rewrite !length_app. pose proof (bucket_entries_short (Z.of_nat c) (shard_at i s)). lia.
Qed.

Lemma anti_entropy_merges_witness :
  exists n, forall ans, enough n ans ->
  exists ea' eb', anti_entropy [] (fun _ _ => 0) 0 id 1 2 sender (with_answers ans (node_of [])) = Some ([], ea', eb') /\
    get sample_key ADMIN_UID (store eb') = str "new".
Proof.
  destruct sender_implements as (m & Him & Hkv).
  destruct (anti_entropy_merges [] (fun _ _ => 0) 0 id 1 2 sender (node_of []) m kv_new [sample_mut] []) as [n Hn].
  - apply node_ids_ok.
  - apply node_ids_ok.
  - reflexivity.
  - exact Him.
  - exact node_b_implements.
  - exact Hkv.
  - exact kv_inv_new.
  - constructor; [apply sample_transferable|constructor].
  - constructor.
  - exact sample_comparable.
  - intros c Hc. pose proof (listing_short c (store sender)) as Hs. unfold zlen.
    assert (length (concat ((fun i => shard_at i (store sender)) <$> seq 0 SHARDS)) = 2%nat) as E by (vm_compute; reflexivity).
    lia.
  - exists n. intros ans Hans. destruct (Hn ans Hans) as (ea' & eb' & Hrun & _ & Hget). exists ea', eb'.
    split; [exact Hrun|]. rewrite Hget by reflexivity. vm_compute. reflexivity.
Defined.
