(* ===== verification/Converge.v ===== *)
(** * Two rounds of anti-entropy make two nodes equal (src/engine/sync_manager.hpp)

    Node [a] gossips to node [b], and once that exchange has ended node [b] gossips to node
    [a].  Then every read of a data key gives the same answer at both, that of a node which has
    received all mutations of both. *)
From S2P Require Import Prelude CxxString Clock Extern Merkle Wal OrdMap Blob Credential.
From S2P Require Import KeyBuilder ReplicationLog Samples Store StoreSpec Engine EngineProps.
From S2P Require Import Lww Scan Sync SyncProps Repair.

Section Converge.
Context {xxh : XXH3} {l3 : Lite3} {zs : Zstd} {srt : StdSort}.
Context (beyond : bytes) (wild : Z -> Z -> Z) (overflow : Z) (stale : bytes -> bytes).
Context {xxh_ok : XXH3Spec} {l3_ok : Lite3Spec} {zs_ok : ZstdSpec} {srt_ok : StdSortSpec}.

Abbreviation anti_entropy := (anti_entropy beyond wild overflow stale).

(** One timestamp, one document: two mutations of a key with the same timestamp are the same
    write. *)
Definition agree (msa msb : list Mutation) : Prop := forall x y,
  x ∈ msa -> y ∈ msb -> m_key x = m_key y -> m_timestamp x = m_timestamp y -> mut_doc x = mut_doc y.

Definition listings_fit (e : Engine) : Prop := forall c, (c < L4_SIZE)%nat -> zlen (listing c (store e)) < 2 ^ 32.

(** A sequence with a mutation of the key has a winner, at least as new. *)
Lemma winner_exists k ms mu :
  mu ∈ ms -> m_key mu = k -> ts_lt zero_ts (m_timestamp mu) ->
  exists w, winner k ms = Some w /\ ts_leb (m_timestamp mu) (m_timestamp w) = true.
Proof.
  intros Hin Hk Hpos. pose proof (winner_bound k ms mu Hin Hk) as Hb.
  destruct (winner k ms) as [w|]; cbn [acc_ts] in Hb; [by exists w|].
  apply ts_leb_spec in Hb as [Hb|Hb]; destruct (irreflexivity ts_lt zero_ts); [by etrans|by rewrite <- Hb at 2].
Qed.

Lemma winner_beats_nothing k ms w : winner k ms = Some w -> beat k None w = Some w.
Proof.
  intros Hw. destruct (winner_Some _ _ _ Hw) as [_ Hk Hpos _]. unfold beat. rewrite decide_True by done. cbn [acc_ts].
  destruct (ts_leb _ _) eqn:E; [|done]. destruct (irreflexivity ts_lt zero_ts).
  apply ts_leb_spec in E as [E|E]; [by etrans|by rewrite <- E at 2].
Qed.

(** After the first round, the second brings [a] what [b] reads. *)
Lemma merged_back msa msb ws d k :
  data_key k = true -> Forall transferable msa -> agree msa msb ->
  Forall (fun w => winner (m_key w) msa = Some w) ws ->
  (forall w, winner k msa = Some w -> w ∈ ws \/ default d (mut_doc <$> winner k msb) = mut_doc w) ->
  default d (lww_lookup (msa ++ (msb ++ (moved <$> ws))) k) = default d (lww_lookup (msb ++ (moved <$> ws)) k).
Proof.
  intros Hk Hta Hag Hws Hall. unfold lww_lookup. rewrite Hk, (winner_app k msa).
  destruct (winner k msa) as [w|] eqn:Ew.
  2: { destruct (winner k (msb ++ (moved <$> ws))) as [w'|] eqn:E; [|done]. by rewrite (winner_beats_nothing _ _ _ E). }
  destruct (winner_Some _ _ _ Ew) as [Hin Hkw Hpos _]. rewrite Forall_forall in Hta, Hws.
  destruct (decide (w ∈ ws)) as [Hw|Hw].
  - destruct (winner_exists k (msb ++ (moved <$> ws)) (moved w)) as (w' & E & Hle); [|done|done|].
    { apply elem_of_app. right. by apply list_elem_of_fmap_2. }
    rewrite E. unfold beat. destruct (winner_Some _ _ _ E) as [Hin' Hk' _ _]. rewrite decide_True by done. cbn [acc_ts].
    destruct (ts_leb (m_timestamp w') (m_timestamp w)) eqn:E2; [|done]. pose proof (ts_le_antisym _ _ E2 Hle) as Hts. cbn [fmap option_fmap option_map default].
    apply elem_of_app in Hin' as [Hin'|(w2 & -> & Hin2)%list_elem_of_fmap]; [apply Hag; [done..|congruence|by symmetry]|].
    cbn [moved m_key] in Hk'. pose proof (Hws w2 Hin2) as Hw2. rewrite Hk', Ew in Hw2. injection Hw2 as <-.
    cbn [from_option]. symmetry. by apply moved_doc, Hta.
  - destruct (Hall w eq_refl) as [?|Hdoc]; [done|]. rewrite (winner_app k msb), (moved_winner k msa ws) by (by apply Forall_forall).
    rewrite Ew, decide_False by done. destruct (winner k msb) as [w'|]; [|exact (eq_sym Hdoc)].
    unfold beat. destruct (decide _); [|exact (eq_sym Hdoc)]. destruct (ts_leb _ _); [exact (eq_sym Hdoc)|done].
Qed.

Lemma with_own_answers e : with_answers (write_answers e) e = e.
Proof. destruct e. reflexivity. Qed.

(** What the first round leaves. *)
Lemma round_ends a b ea eb ma mb msa msb ms ea1 eb1 :
  node_id_ok a -> node_id_ok b -> idle ea -> implements (store ea) ma -> implements (store eb) mb ->
  kv_inv msa ma -> kv_inv msb mb -> Forall transferable msa -> Forall mut_ok msb -> comparable ea eb ->
  listings_fit ea -> anti_entropy a b ea eb = Some (ms, ea1, eb1) ->
  ms = [] /\ ea1 = after_root ea /\ messages eb1 = messages eb /\
  exists ws mb1, Forall (fun w => winner (m_key w) msa = Some w) ws /\ Forall transferable ws /\
    (forall k w, data_key k = true -> winner k msa = Some w -> w ∈ ws \/ default buffer_default (docs mb !! k) = mut_doc w) /\
    implements (store eb1) mb1 /\ kv_inv (msb ++ (moved <$> ws)) mb1.
Proof.
  intros Ha Hb Hidle Hia Hib Hka Hkb Hta Hob Hcmp Hsize Hrun.
  destruct (round_values beyond wild overflow stale a b ea eb ma mb msa Ha Hb Hidle Hia Hib Hka Hta Hcmp Hsize) as (ws & Hws & Htw & Hall & Heq).
  specialize (Heq (write_answers eb)). rewrite with_own_answers in Heq.
  rewrite Heq in Hrun. destruct (deliver _ _ _ _ b _ _) as [[ms' eb']|] eqn:Hdel; [|discriminate Hrun]. injection Hrun as <- <- <-.
  destruct (after_root_store eb mb Hib) as (Hib1 & _ & Hm1 & _).
  destruct (deliver_values_any _ _ _ _ a b ws msb (after_root eb) mb _ _ Hib1 Hkb Hob Htw Hdel) as (-> & Hm2 & m' & Him' & Hkv').
  split; [done|]. split; [done|]. split; [congruence|].
  exists ws, m'. split_and!; assumption.
Qed.

(** C7: Two rounds of anti-entropy make two nodes equal.  Nodes [a] and [b] hold the outcomes
    of the mutations [msa] and [msb].  When [a] has gossiped to [b], that exchange has ended
    whatever the operating system answered, and then [b] gossips to [a], the second exchange
    ends too, and every read of a data key gives the same bytes at both nodes: the document
    with the greatest timestamp of [msa] and [msb] together.  The nodes are assumed to compare
    no two different things with equal hashes, and mutations of one key with the same timestamp
    to have the same document. *)
Theorem nodes_converge a b ea eb ma mb msa msb ms ea1 eb1 :
  node_id_ok a -> node_id_ok b -> idle ea -> idle eb -> implements (store ea) ma -> implements (store eb) mb ->
  kv_inv msa ma -> kv_inv msb mb -> Forall transferable msa -> Forall transferable msb -> agree msa msb ->
  comparable ea eb -> listings_fit ea -> anti_entropy a b ea eb = Some (ms, ea1, eb1) ->
  comparable eb1 ea1 -> listings_fit eb1 ->
  ms = [] /\ exists n, forall ans, enough n ans ->
  exists ea2 eb2, anti_entropy b a eb1 (with_answers ans ea1) = Some ([], eb2, ea2) /\
    forall k, data_key k = true ->
      get k ADMIN_UID (store ea2) = get k ADMIN_UID (store eb2) /\
      get k ADMIN_UID (store eb2) = default buffer_default (lww_lookup (msb ++ msa) k).
Proof.
  intros Ha Hb Hida Hidb Hia Hib Hka Hkb Hta Htb Hag Hcmp Hsize Hrun Hcmp1 Hsize1.
  assert (forall l, Forall transferable l -> Forall mut_ok l) as Hok by (intros l Hl; eapply Forall_impl; [exact Hl|]; intros mu; apply tr_ok).
  destruct (round_ends a b ea eb ma mb msa msb ms ea1 eb1) as (-> & -> & Hm1 & ws & mb1 & Hws & Htw & Hall & Hib1 & Hkb1);
    [auto..|]. split; [reflexivity|].
  destruct (after_root_store ea ma Hia) as (Hia1 & _).
  assert (Forall transferable (msb ++ (moved <$> ws))) as Htb1.
  { apply Forall_app. split; [done|]. apply Forall_fmap. eapply Forall_impl; [exact Htw|]. intros w. apply moved_transferable. }
  destruct (round_values beyond wild overflow stale b a eb1 (after_root ea) mb1 ma (msb ++ (moved <$> ws)))
    as (ws2 & Hws2 & Htw2 & Hall2 & Heq2); try assumption; [unfold idle in *; congruence|].
  exists (logs_cost stale (moved <$> ws2)). intros ans Hen.
  destruct (after_root_store (with_answers ans (after_root ea)) ma Hia1) as (Hia2 & _ & _ & Hans).
  destruct (deliver_values beyond wild overflow stale b a ws2 msa (after_root (with_answers ans (after_root ea))) ma Hia2 Hka
    (Hok _ Hta) Htw2) as (ea2 & Hdel); [rewrite Hans; exact Hen|].
  destruct (deliver_values_any _ _ _ _ b a ws2 msa _ ma _ _ Hia2 Hka (Hok _ Hta) Htw2 Hdel) as (_ & _ & m2 & Him2 & Hkv2).
  exists ea2, (after_root eb1). rewrite Heq2, Hdel. split; [reflexivity|]. intros k Hk.
  assert (get k ADMIN_UID (store (after_root eb1)) = default buffer_default (lww_lookup (msb ++ (moved <$> ws)) k)) as Hgb.
  { destruct (after_root_store eb1 mb1 Hib1) as (Hi & _). by rewrite (get_admin _ _ _ Hi), (proj2 Hkb1 k). }
  split.
  - rewrite Hgb, (merged_reads (msb ++ (moved <$> ws)) msa ws2 ma ea2 m2 k) by assumption.
    apply merged_back; try assumption. intros w Hw. pose proof (Hall k w Hk Hw) as Hor. rewrite (proj2 Hkb k) in Hor.
    unfold lww_lookup in Hor. by rewrite Hk in Hor.
  - destruct (after_root_cache eb1) as [t ->]. by apply (merged_reads msa msb ws mb eb1 mb1 k).
Qed.

End Converge.

(** ** A node with one key and an empty one

    The answers of the operating system are three writes that succeed. *)

Abbreviation first_round :=
  (Repair.anti_entropy [] (fun _ _ => 0) 0 id 1 2 sender (with_answers (replicate 8 (Wrote 100)) (node_of []))).
Definition round_of (r : option (list Msg * Engine * Engine)) : list Msg * Engine * Engine :=
  default ([], sender, sender) r.
Definition sender1 : Engine := (round_of first_round).1.2.
Definition receiver1 : Engine := (round_of first_round).2.

Lemma round_ended r :
  match r with Some ([], _, _) => true | _ => false end = true -> r = Some ([], (round_of r).1.2, (round_of r).2).
Proof. destruct r as [[[[|m ms] ea] eb]|]; intros H; [reflexivity|discriminate H..]. Qed.

Lemma first_round_ends : first_round = Some ([], sender1, receiver1).
Proof. apply round_ended. vm_compute. reflexivity. Qed.

Lemma same_leaves_after : leaves_of receiver1 = leaves_of sender1.
Proof. apply (bool_decide_eq_true_1 (leaves_of receiver1 = leaves_of sender1)). vm_compute. reflexivity. Qed.

Lemma sender_listings_fit e :
  length (concat ((fun i => shard_at i (store e)) <$> seq 0 SHARDS)) = 2%nat -> listings_fit e.
Proof. intros E c Hc. pose proof (listing_short c (store e)) as Hs. unfold zlen. lia. Qed.

Lemma comparable_answers ea eb ans : comparable ea eb -> comparable ea (with_answers ans eb).
Proof. intros [H1 H2 H3]. split; [exact H1|exact H2|exact H3]. Qed.

Lemma sample_muts_transferable : Forall transferable [sample_mut].
Proof. constructor; [apply sample_transferable|constructor]. Qed.

Lemma reads_after k :
  data_key k = true -> get k ADMIN_UID (store receiver1) = get k ADMIN_UID (store sender1).
Proof.
  intros Hk. destruct sender_implements as (m & Him & Hkv).
  destruct (round_ends [] (fun _ _ => 0) 0 id 1 2 sender (with_answers (replicate 8 (Wrote 100)) (node_of [])) m kv_new
    [sample_mut] [] [] sender1 receiver1) as (_ & E & _ & ws & mb1 & Hws & Htw & Hall & Hib & Hkb).
  - apply node_ids_ok.
  - apply node_ids_ok.
  - reflexivity.
  - exact Him.
  - exact node_b_implements.
  - exact Hkv.
  - exact kv_inv_new.
  - exact sample_muts_transferable.
  - constructor.
  - exact (comparable_answers _ _ _ sample_comparable).
  - apply sender_listings_fit. vm_compute. reflexivity.
  - exact first_round_ends.
  - rewrite (merged_reads [sample_mut] [] ws kv_new receiver1 mb1 k sample_muts_transferable Hws kv_inv_new Hall Hib Hkb Hk).
    rewrite E. destruct (after_root_store sender m Him) as (Him1 & _).
    rewrite (get_admin _ _ _ Him1), (proj2 Hkv k). reflexivity.
Qed.

Lemma comparable_after : comparable receiver1 sender1.
Proof.
  split.
  - rewrite same_leaves_after. intros l c _ _. reflexivity.
  - intros k Hk _. symmetry. by apply reads_after.
  - intros k Hk _. symmetry. by apply reads_after.
Qed.

Lemma nodes_converge_witness :
  exists n, forall ans, enough n ans ->
  exists ea2 eb2, Repair.anti_entropy [] (fun _ _ => 0) 0 id 2 1 receiver1 (with_answers ans sender1) = Some ([], eb2, ea2) /\
    get sample_key ADMIN_UID (store ea2) = str "new" /\ get sample_key ADMIN_UID (store eb2) = str "new".
Proof.
  destruct sender_implements as (m & Him & Hkv).
  destruct (nodes_converge [] (fun _ _ => 0) 0 id 1 2 sender (with_answers (replicate 8 (Wrote 100)) (node_of [])) m kv_new
    [sample_mut] [] [] sender1 receiver1) as [_ [n Hn]].
  - apply node_ids_ok.
  - apply node_ids_ok.
  - reflexivity.
  - reflexivity.
  - exact Him.
  - exact node_b_implements.
  - exact Hkv.
  - exact kv_inv_new.
  - exact sample_muts_transferable.
  - constructor.
  - intros x y _ Hy. by apply elem_of_nil in Hy.
  - exact (comparable_answers _ _ _ sample_comparable).
  - apply sender_listings_fit. vm_compute. reflexivity.
  - exact first_round_ends.
  - exact comparable_after.
  - apply sender_listings_fit. vm_compute. reflexivity.
  - exists n. intros ans Hans. destruct (Hn ans Hans) as (ea2 & eb2 & Hrun & Hget). exists ea2, eb2.
    destruct (Hget sample_key eq_refl) as [E1 E2]. split; [exact Hrun|].
    rewrite E1, E2. split; vm_compute; reflexivity.
Defined.

(** ** Values compared without their timestamps

    Nodes 1 and 2 hold the same value of a key, node 1 with the newer timestamp; node 3 holds
    another value, written in between.  A round from node 1 to node 2 transfers nothing, and a
    round from node 3 then replaces the value of node 2, although it is older than what node 1
    has. *)

Definition write_at (w : Z) (v : bytes) : Mutation := mkMutation (mkTimestamp w 0 1) sample_key v false.
Definition holding (mu : Mutation) : Engine := node_of (mut_ops mu (default [] (mut_meta mu))).

Abbreviation round x y ex ey := (Repair.anti_entropy [] (fun _ _ => 0) 0 id x y ex ey).

Definition node2 : Engine := with_answers (replicate 8 (Wrote 100)) (holding (write_at 5 (str "v"))).

Theorem equal_values_hide_newer_timestamps :
  exists e1 e2 e3 e2',
    round 1 2 (holding (write_at 20 (str "v"))) node2 = Some ([], e1, e2) /\
    round 3 2 (holding (write_at 10 (str "u"))) e2 = Some ([], e3, e2') /\
    get sample_key ADMIN_UID (store e2') = str "u" /\
    lww_lookup [write_at 5 (str "v"); write_at 20 (str "v"); write_at 10 (str "u")] sample_key = Some (str "v").
Proof.
  pose (r1 := round 1 2 (holding (write_at 20 (str "v"))) node2).
  pose (r2 := round 3 2 (holding (write_at 10 (str "u"))) (round_of r1).2).
  exists (round_of r1).1.2, (round_of r1).2, (round_of r2).1.2, (round_of r2).2.
  split; [apply round_ended; vm_compute; reflexivity|]. split; [apply round_ended; vm_compute; reflexivity|].
  split; vm_compute; reflexivity.
Qed.
