(* ===== verification/Zmq.v ===== *)
(** * The ZeroMQ front end (src/zmq/zmq_server.cpp)

    The handling of one multipart message by [ZmqServer::run]: authentication, the session
    table, principal propagation and the five operations.  Sockets are a parameter: a
    message is the list of its frames, and an answer the list of the frames sent. *)
From S2P Require Import Prelude CxxString Clock Extern Merkle Wal OrdMap Blob Credential.
From S2P Require Import KeyBuilder ReplicationLog Samples Store StoreSpec Engine.

Section Zmq.
Context {xxh : XXH3} {l3 : Lite3} {zs : Zstd} {srt : StdSort}.

(** The frame found behind the last one of a message, read by an [A] message of five
    frames; what a view of a dead string reads in [batch_put]. *)
Context (no_frame : bytes) (stale : bytes -> bytes).

Record ZmqServer := mkZmq { server_secret_ : bytes; session_identities_ : gmap bytes Z }.

Definition frame (msgs : list bytes) (i : nat) : bytes := default [] (msgs !! i).

(** [session_identities_[identity]]: a missing entry is created with 0. *)
Definition session_uid (identity : bytes) (s : ZmqServer) : Z * ZmqServer :=
  match session_identities_ s !! identity with
  | Some u => (u, s)
  | None => (0, mkZmq (server_secret_ s) (<[identity := 0]> (session_identities_ s)))
  end.

Definition set_session (identity : bytes) (u : Z) (s : ZmqServer) : ZmqServer :=
  mkZmq (server_secret_ s) (<[identity := u]> (session_identities_ s)).

(** The answers, the server and the engine after a message; [None] while the engine waits
    for the operating system. *)
Abbreviation outcome := (option (list (list bytes) * ZmqServer * Engine)).

Definition reply (identity text : bytes) : list bytes := [identity; []; text].

(** What an exception that reaches the outer handler leaves: no answer. *)
Definition answer {A} (identity : bytes) (s : ZmqServer) (r : option (result A * Engine))
    (ok : A -> bytes) : outcome :=
  match r with
  | Some (Ok a, e) => Some ([reply identity (ok a)], s, e)
  | Some (Throw _, e) => Some ([], s, e)
  | None => None
  end.

(** The same with an inner handler. *)
Definition answer_or_forbidden (identity : bytes) (s : ZmqServer) (r : option (result unit * Engine))
  : outcome :=
  match r with
  | Some (Ok _, e) => Some ([reply identity (str "OK")], s, e)
  | Some (Throw _, e) => Some ([reply identity (str "ERR_FORBIDDEN")], s, e)
  | None => None
  end.

Definition is_auth (msgs : list bytes) : bool :=
  ((3 <=? length msgs)%nat && bool_decide (frame msgs 2 = str "A"))
  || ((4 <=? length msgs)%nat && bool_decide (frame msgs 3 = str "A")).

(** [AUTH]; [std::stoul] may throw. *)
Definition serve_auth (identity : bytes) (msgs : list bytes) (s : ZmqServer) (e : Engine) : outcome :=
  match stoul (frame msgs 4) with
  | Throw _ => Some ([], s, e)
  | Ok v =>
      let auth_uid := u32 v in
      let secret := default no_frame (msgs !! 5%nat) in
      if bool_decide (server_secret_ s = []) || bool_decide (secret = server_secret_ s)
      then Some ([reply identity (str "OK")], set_session identity auth_uid s, e)
      else Some ([reply identity (str "ERR_AUTH")], s, e)
  end.

Definition serve_operation (opcode : Byte.byte) (identity : bytes) (msgs : list bytes)
    (current_uid : Z) (s : ZmqServer) (e : Engine) : outcome :=
  let n := length msgs in
  if bool_decide (opcode = Byte.x47) && (5 <=? n)%nat then                    (* 'G' *)
    Some ([reply identity (get (frame msgs 4) current_uid (store e))], s, e)
  else if bool_decide (opcode = Byte.x50) && (6 <=? n)%nat then               (* 'P' *)
    answer_or_forbidden identity s (put (frame msgs 4) (frame msgs 5) current_uid e)
  else if bool_decide (opcode = Byte.x44) && (5 <=? n)%nat then               (* 'D' *)
    answer identity s (del (frame msgs 4) current_uid e)
      (fun ok : bool => if ok then str "OK" else str "ERR_FORBIDDEN")
  else if bool_decide (opcode = Byte.x4d) && (5 <=? n)%nat then               (* 'M' *)
    answer identity s (batch_get (drop 4 msgs) current_uid e) (fun b => b)
  else if bool_decide (opcode = Byte.x42) && (5 <=? n)%nat then               (* 'B' *)
    answer_or_forbidden identity s (batch_put stale (frame msgs 4) current_uid e)
  else Some ([], s, e).

(** From the frame count check after authentication on. *)
Definition serve_session (identity : bytes) (msgs : list bytes) (s : ZmqServer) (e : Engine) : outcome :=
  if (length msgs <? 4)%nat then Some ([], s, e)
  else
    let effective_uid := if (length (frame msgs 2) =? 4)%nat then le_combine (frame msgs 2) else 0 in
    match frame msgs 3 with
    | [] => Some ([], s, e)
    | opcode :: _ =>
        if bool_decide (opcode = Byte.x41) && (5 <=? length msgs)%nat         (* 'A' *)
        then serve_auth identity msgs s e
        else
          let '(session, s) := session_uid identity s in
          let current_uid :=
            if (session =? ADMIN_UID) || (session =? INTERNAL_UID) then effective_uid else session in
          serve_operation opcode identity msgs current_uid s e
    end.

(** One iteration of the loop of [run], on the message it received. *)
Definition serve (msgs : list bytes) (s : ZmqServer) (e : Engine) : outcome :=
  if (length msgs <? 3)%nat then Some ([], s, e)
  else
    let identity := frame msgs 0 in
    match session_identities_ s !! identity with
    | Some _ => serve_session identity msgs s e
    | None =>
        if is_auth msgs then serve_session identity msgs s e
        else if negb (bool_decide (server_secret_ s = [])) then
          (* message_t("ERR_UNAUTH", 8) *)
          Some ([reply identity (take 8 (str "ERR_UNAUTH"))], s, e)
        else serve_session identity msgs (set_session identity 0 s) e
    end.

(** ** Theorems *)

(** With a secret configured, a message from an identity without a session that is not
    an authentication attempt reaches neither the engine nor the session table; its sender
    gets an error. *)
Theorem unauthenticated_rejected msgs s e :
  (3 <= length msgs)%nat -> session_identities_ s !! frame msgs 0 = None ->
  server_secret_ s <> [] -> is_auth msgs = false ->
  serve msgs s e = Some ([reply (frame msgs 0) (str "ERR_UNAU")], s, e).
Proof.
  intros Hn Hs Hsec Ha. unfold serve. destruct (Nat.ltb_spec (length msgs) 3); [lia|].
  rewrite Hs, Ha. by rewrite bool_decide_eq_false_2.
Qed.

(** An authentication request establishes a session exactly when it presents the
    configured secret, and the session gets the requested principal; the engine is not
    touched. *)
Theorem auth_checks_secret identity uid_text v secret s e :
  server_secret_ s <> [] -> stoul uid_text = Ok v ->
  serve [identity; []; []; str "A"; uid_text; secret] s e =
  if decide (secret = server_secret_ s)
  then Some ([reply identity (str "OK")], set_session identity (u32 v) s, e)
  else Some ([reply identity (str "ERR_AUTH")], s, e).
Proof.
  intros Hsec Hv. unfold serve. cbn [length Nat.ltb Nat.leb].
  change (is_auth _) with true.
  assert (serve_session identity [identity; []; []; str "A"; uid_text; secret] s e =
    serve_auth identity [identity; []; []; str "A"; uid_text; secret] s e) as E by done.
  change (frame [identity; []; []; str "A"; uid_text; secret] 0) with identity.
  assert (serve_auth identity [identity; []; []; str "A"; uid_text; secret] s e =
    if decide (secret = server_secret_ s)
    then Some ([reply identity (str "OK")], set_session identity (u32 v) s, e)
    else Some ([reply identity (str "ERR_AUTH")], s, e)) as Ea.
  { unfold serve_auth. change (frame [identity; []; []; str "A"; uid_text; secret] 4) with uid_text.
    rewrite Hv. cbn [lookup list_lookup from_option id].
    rewrite bool_decide_eq_false_2 by done. cbn [orb].
    destruct (decide (secret = server_secret_ s)) as [->|]; [by rewrite bool_decide_eq_true_2|].
    by rewrite bool_decide_eq_false_2. }
  destruct (session_identities_ s !! identity); by rewrite E, Ea.
Qed.

(** C39: a session is confined to its principal.  For a session of an ordinary user, what an
    operation does and answers does not depend on the principal the message claims to act
    for. *)
Theorem session_confined identity u delim uid1 uid2 op rest s e :
  session_identities_ s !! identity = Some u -> u <> ADMIN_UID -> u <> INTERNAL_UID ->
  serve (identity :: delim :: uid1 :: op :: rest) s e =
  serve (identity :: delim :: uid2 :: op :: rest) s e.
Proof.
  intros Hs Ha Hi. unfold serve. cbn [length Nat.ltb Nat.leb].
  change (frame (identity :: delim :: uid1 :: op :: rest) 0) with identity.
  change (frame (identity :: delim :: uid2 :: op :: rest) 0) with identity. rewrite Hs.
  unfold serve_session. cbn [length Nat.ltb Nat.leb].
  change (frame (identity :: delim :: uid1 :: op :: rest) 3) with op.
  change (frame (identity :: delim :: uid2 :: op :: rest) 3) with op.
  destruct op as [|opcode op]; [done|]. destruct (_ && _); [done|].
  unfold session_uid. rewrite Hs.
  destruct (Z.eqb_spec u ADMIN_UID); [done|]. destruct (Z.eqb_spec u INTERNAL_UID); [done|]. done.
Qed.

(** C40: the authentication check can be bypassed.  An unknown identity that puts the letter
    A where the effective principal belongs, and any opcode in its place, is taken for an
    authentication attempt and let through; its session is then created with principal 0,
    the administrator.  A [P] message of this shape writes any key without the secret. *)
Theorem auth_bypass identity key val s e :
  session_identities_ s !! identity = None ->
  serve [identity; []; str "A"; str "P"; key; val] s e =
  answer_or_forbidden identity (set_session identity ADMIN_UID s) (put key val ADMIN_UID e).
Proof.
  intros Hs. unfold serve. cbn [length Nat.ltb Nat.leb].
  change (frame [identity; []; str "A"; str "P"; key; val] 0) with identity. rewrite Hs.
  change (is_auth _) with true. unfold serve_session, session_uid. cbn -[put]. rewrite Hs. done.
Qed.

End Zmq.

Definition sample_server : ZmqServer := mkZmq (str "s3cret") (<[str "alice" := 7]> ∅).
Definition sample_db : Engine := engine_open [] 1 [10] [Wrote 100000].

Lemma unauthenticated_rejected_witness :
  serve [] id [str "mallory"; []; le32 0; str "G"; str "k"] sample_server sample_db =
  Some ([reply (str "mallory") (str "ERR_UNAU")], sample_server, sample_db).
Proof.
  apply (unauthenticated_rejected [] id [str "mallory"; []; le32 0; str "G"; str "k"] sample_server sample_db).
  - cbn. lia.
  - vm_compute. reflexivity.
  - discriminate.
  - vm_compute. reflexivity.
Defined.

Lemma auth_checks_secret_witness :
  serve [] id [str "bob"; []; []; str "A"; str "9"; str "guess"] sample_server sample_db =
  Some ([reply (str "bob") (str "ERR_AUTH")], sample_server, sample_db).
Proof.
  rewrite (auth_checks_secret [] id (str "bob") (str "9") 9 (str "guess") sample_server sample_db).
  - reflexivity.
  - discriminate.
  - vm_compute. reflexivity.
Defined.

Lemma session_confined_witness :
  serve [] id (str "alice" :: [] :: le32 7 :: str "D" :: [str "k"]) sample_server sample_db =
  serve [] id (str "alice" :: [] :: le32 0 :: str "D" :: [str "k"]) sample_server sample_db.
Proof.
  apply (session_confined [] id (str "alice") 7 [] (le32 7) (le32 0) (str "D") [str "k"]).
  - vm_compute. reflexivity.
  - discriminate.
  - discriminate.
Defined.

Lemma auth_bypass_witness :
  serve [] id [str "mallory"; []; str "A"; str "P"; str "sys:acl:7:"; str "ADMIN"] sample_server sample_db =
  answer_or_forbidden (str "mallory") (set_session (str "mallory") ADMIN_UID sample_server)
    (put (str "sys:acl:7:") (str "ADMIN") ADMIN_UID sample_db).
Proof.
  apply (auth_bypass [] id (str "mallory") (str "sys:acl:7:") (str "ADMIN") sample_server sample_db).
  vm_compute. reflexivity.
Defined.
