(* ===== verification/Frontend.v ===== *)
(** * The service its clients see

    The front end, the engine, the clock, the log, the shards and the credentials together: what
    [ZmqServer::run] answers to a sequence of well-formed requests is what a map from keys to
    documents answers, guarded by the sessions and the access rules.  Sharding, queues,
    compression, the log and the Merkle tree do not show.  Well formed is a message whose
    principal is four bytes ([Zmq.auth_bypass] shows what another one can do); batches are in
    [EngineProps]. *)
From S2P Require Import Prelude CxxString Clock Extern Merkle Wal OrdMap Blob Credential.
From S2P Require Import KeyBuilder ReplicationLog Samples Store StoreSpec Engine Recovery Lww SyncProps Zmq.

Section Frontend.
Context {xxh : XXH3} {l3 : Lite3} {zs : Zstd} {srt : StdSort}.
Context (no_frame : bytes) (stale : bytes -> bytes).

(** The loop of [run] on the messages it receives, with everything it sends. *)
Fixpoint serve_all (msgs : list (list bytes)) (s : ZmqServer) (e : Engine) :
    option (list (list bytes) * ZmqServer * Engine) :=
  match msgs with
  | [] => Some ([], s, e)
  | msg :: msgs =>
      '(rs, s, e) ← serve no_frame stale msg s e;
      '(rs', s, e) ← serve_all msgs s e;
      Some (rs ++ rs', s, e)
  end.

(** ** Requests *)

Inductive request :=
| Authenticate (uid secret : bytes)
| Get (key : bytes)
| Mget (keys : list bytes)
| Put (key val : bytes)
| Del (key : bytes).

Definition opcode_frames (r : request) : list bytes :=
  match r with
  | Authenticate uid secret => [str "A"; uid; secret]
  | Get key => [str "G"; key]
  | Mget keys => str "M" :: keys
  | Put key val => [str "P"; key; val]
  | Del key => [str "D"; key]
  end.

(** The message of a client [identity] that claims to act for [principal]. *)
Definition message (q : bytes * Z * request) : list bytes :=
  let '(identity, principal, r) := q in identity :: [] :: le32 principal :: opcode_frames r.

(** ** The abstract service *)

Record service := mkService {
  secret : bytes;
  sessions : gmap bytes Z;
  contents : kv;
  clock : HybridLogicalClock;
  readings : list Z }.

Definition open_session (identity : bytes) (u : Z) (w : service) : service :=
  mkService (secret w) (<[identity := u]> (sessions w)) (contents w) (clock w) (readings w).

(** Whom a request acts for: an ordinary session for its own user, a trusted one for whom it
    says.  Without a secret anybody is trusted; with one, an identity without a session acts
    for nobody. *)
Definition acting (identity : bytes) (principal : Z) (w : service) : option (Z * service) :=
  match sessions w !! identity with
  | Some u => Some (if (u =? ADMIN_UID) || (u =? INTERNAL_UID) then u32 principal else u, w)
  | None => if decide (secret w = []) then Some (u32 principal, open_session identity ADMIN_UID w) else None
  end.

(** A write: the operation on the document and the metadata under the next timestamp. *)
Definition write_ops (first : store_op) (key : bytes) (tomb : bool) (w : service) :
    option (list store_op * HybridLogicalClock * list Z) :=
  '(ts, c, rs) ← hlc_now (readings w) (clock w);
  meta ← meta_doc ts tomb;
  Some ([first; SPut (meta_key key) meta], c, rs).

Definition commit (first : store_op) (key : bytes) (tomb : bool) (w : service) : option service :=
  '(ops, c, rs) ← write_ops first key tomb w;
  Some (mkService (secret w) (sessions w) (kv_ops ops (contents w)) c rs).

Definition readable (p : Z) (key : bytes) (w : service) : bool := may_read (check_permission p key (creds (contents w))).
Definition writable (p : Z) (key : bytes) (w : service) : bool := may_write (check_permission p key (creds (contents w))).

(** An answer is a text, or an object with a field for each document that was asked for. *)
Inductive answer := Text (identity text : bytes) | Object (identity : bytes) (fields : gmap bytes bytes).

(** The documents under [keys] that [p] may read. *)
Definition visible (p : Z) (keys : list bytes) (w : service) (fields : gmap bytes bytes) : gmap bytes bytes :=
  foldl (fun fs k => match docs (contents w) !! k with
                     | Some d => if readable p k w then <[k := d]> fs else fs
                     | None => fs
                     end) fields keys.

(** The answers and the next state; [None] while the clock waits for the time to pass.  A
    request for no keys is not answered. *)
Definition operate (identity : bytes) (p : Z) (r : request) (w : service) : option (list answer * service) :=
  match r with
  | Authenticate _ _ => None
  | Get key => Some ([Text identity (if readable p key w then default [] (docs (contents w) !! key) else [])], w)
  | Mget [] => Some ([], w)
  | Mget keys => Some ([Object identity (visible p keys w ∅)], w)
  | Put key val =>
      if writable p key w then (fun w => ([Text identity (str "OK")], w)) <$> commit (SPut key val) key false w
      else Some ([Text identity (str "ERR_FORBIDDEN")], w)
  | Del key =>
      if writable p key w then (fun w => ([Text identity (str "OK")], w)) <$> commit (SDel key) key true w
      else Some ([Text identity (str "ERR_FORBIDDEN")], w)
  end.

Definition authenticate (identity uid presented : bytes) (w : service) : list answer * service :=
  match stoul uid with
  | Throw _ => ([], w)
  | Ok v => if decide (secret w = [] \/ presented = secret w)
            then ([Text identity (str "OK")], open_session identity (u32 v) w)
            else ([Text identity (str "ERR_AUTH")], w)
  end.

Definition request_step (q : bytes * Z * request) (w : service) : option (list answer * service) :=
  let '(identity, principal, r) := q in
  match r with
  | Authenticate uid presented => Some (authenticate identity uid presented w)
  | _ =>
      match acting identity principal w with
      | None => Some ([Text identity (str "ERR_UNAU")], w)
      | Some (p, w) => operate identity p r w
      end
  end.

Fixpoint requests_run (qs : list (bytes * Z * request)) (w : service) : option (list answer * service) :=
  match qs with
  | [] => Some ([], w)
  | q :: qs => '(rs, w) ← request_step q w; '(rs', w) ← requests_run qs w; Some (rs ++ rs', w)
  end.

(** The documents a request stores fit the 32-bit size field of a blob. *)
Definition write_fits (first : store_op) (key : bytes) (tomb : bool) (w : service) : Prop :=
  match write_ops first key tomb w with Some (ops, _, _) => ops_fit ops (contents w) | None => True end.

Definition request_fits (q : bytes * Z * request) (w : service) : Prop :=
  match q.2 with
  | Put key val => write_fits (SPut key val) key false w
  | Del key => write_fits (SDel key) key true w
  | _ => True
  end.

Fixpoint requests_fit (qs : list (bytes * Z * request)) (w : service) : Prop :=
  match qs with
  | [] => True
  | q :: qs => request_fits q w /\ match request_step q w with Some (_, w') => requests_fit qs w' | None => True end
  end.

#[global] Instance write_fits_dec first key tomb w : Decision (write_fits first key tomb w).
Proof. unfold write_fits. destruct (write_ops first key tomb w) as [[[]]|]; apply _. Defined.

#[global] Instance request_fits_dec q w : Decision (request_fits q w).
Proof. unfold request_fits. destruct q.2; apply _. Defined.

#[global] Instance requests_fit_dec qs : forall w, Decision (requests_fit qs w).
Proof. induction qs as [|q qs IH]; intros w; cbn; [|destruct (request_step q w) as [[]|]]; apply _. Defined.

(** ** The abstraction *)

(** A document in an answer is a string or a byte field: a string where the stored document is
    compressed. *)
Definition field_doc (res key : bytes) : option bytes :=
  type ← get_type res key;
  if decide (type = TString) then get_str res key
  else if decide (type = TBytes) then get_bytes res key else None.

Definition sent (a : answer) (frames : list bytes) : Prop :=
  match a with
  | Text identity text => frames = reply identity text
  | Object identity fields => exists res, frames = reply identity res /\ forall k, field_doc res k = fields !! k
  end.

Record represents (s : ZmqServer) (e : Engine) (w : service) : Prop := {
  rp_secret : server_secret_ s = secret w;
  rp_sessions : session_identities_ s = sessions w;
  rp_store : implements (store e) (contents w);
  rp_clock : clock_ e = clock w;
  rp_readings : clock_readings e = readings w;
  rp_idle : messages e = replicate SHARDS [] }.

(** What the clock shows are 64-bit times, its counter and its node have 32 bits. *)
Record clock_fits (w : service) : Prop := {
  cf_wall : - 2 ^ 63 <= max_wall_time_ (clock w) < 2 ^ 63;
  cf_logical : 0 <= max_logical_ (clock w) < 2 ^ 32;
  cf_node : 0 <= node_id_ (clock w) < 2 ^ 32;
  cf_readings : Forall (fun t => - 2 ^ 63 <= t < 2 ^ 63) (readings w) }.

Context {l3_ok : Lite3Spec} {zs_ok : ZstdSpec} {srt_ok : StdSortSpec}.

(** ** Lemmas: the clock *)

Lemma wait_past_fits t rs rs' :
  Forall (fun t => - 2 ^ 63 <= t < 2 ^ 63) rs -> wait_past t rs = Some rs' -> Forall (fun t => - 2 ^ 63 <= t < 2 ^ 63) rs'.
Proof.
  induction 1 as [|r rs Hr Hrs IH]; cbn; [done|]. destruct (r <=? t); [done|]. by intros [= <-].
Qed.

Lemma hlc_now_fits w ts c rs :
  clock_fits w -> hlc_now (readings w) (clock w) = Some (ts, c, rs) ->
  ts_fits ts /\ forall m, clock_fits (mkService (secret w) (sessions w) m c rs).
Proof.
  intros [Hw Hl Hn Hr] H. unfold hlc_now in H. destruct (readings w) as [|t rs0]; [done|].
  apply Forall_cons in Hr as [Ht Hr]. destruct (t >? max_wall_time_ (clock w)).
  { injection H as <- <- <-. split; [by split; cbn|]. intros m. by split; cbn. }
  destruct (max_logical_ (clock w) =? UINT32_MAX) eqn:Hmax.
  - destruct (wait_past _ rs0) as [[|t1 rs1]|] eqn:Hp; try done. injection H as <- <- <-.
    pose proof (wait_past_fits _ _ _ Hr Hp) as [Ht1 Hr1]%Forall_cons. split; [by split; cbn|]. intros m. by split; cbn.
  - injection H as <- <- <-. apply Z.eqb_neq in Hmax. unfold UINT32_MAX in Hmax.
    pose proof (u32_range (max_logical_ (clock w) + 1)). split; [by split; cbn|]. intros m. by split; cbn.
Qed.

(** ** Lemmas: a write *)

Definition never_throws (o : store_op) : Prop := match o with SPut _ _ | SDel _ => True | _ => False end.

Lemma run_task_total t : Forall never_throws t -> forall s, run_task t s = (None, run_ops t s).
Proof.
  induction 1 as [|o t Ho _ IH]; intros s; [done|]. cbn. unfold run_op_skip. by destruct o; cbn; rewrite ?IH.
Qed.

Lemma submit_wait_total h t e :
  messages e = replicate SHARDS [] -> (h < SHARDS)%nat -> Forall never_throws t ->
  submit_wait h t e = Some (Ok tt, set_store (run_ops t (store e)) e).
Proof.
  intros Hm Hh Ht. unfold submit_wait, enqueue, wait_shard, drain, bind, modify. cbn [set_messages messages store].
  rewrite list_lookup_alter_eq, Hm, lookup_replicate_2 by done. cbn [fmap option_fmap option_map app run_tasks].
  rewrite run_task_total by done. do 2 f_equal. unfold set_store, set_messages. cbn. f_equal.
  apply list_eq. intros i. destruct (decide (i = h)) as [->|Hne].
  - rewrite list_lookup_insert_eq, Hm, lookup_replicate_2; [done|done|]. by rewrite length_alter.
  - by rewrite list_lookup_insert_ne, list_lookup_alter_ne, Hm by done.
Qed.

Lemma bind_clock {B} (f : Timestamp -> M B) e :
  bind clock_now f e =
  match hlc_now (clock_readings e) (clock_ e) with
  | Some (ts, c, rs) => f ts (mkEngine (store e) (wal_ e) c (messages e) rs (write_answers e))
  | None => None
  end.
Proof. unfold bind, clock_now. by destruct (hlc_now _ _) as [[[]]|]. Qed.

Lemma bind_return {A B} (m : M A) (f : A -> M B) e a e' : m e = Some (Ok a, e') -> bind m f e = f a e'.
Proof. unfold bind. by intros ->. Qed.

(** How much a write adds to the log; [b1] is its first entry. *)
Definition log_length (b1 : BatchOp) (first : store_op) (key : bytes) (tomb : bool) (w : service) : nat :=
  match write_ops first key tomb w with
  | Some ([_; SPut mk mv], _, _) => length (batch_buffer [b1; mkBatchOp PUT mk mv])
  | _ => 0
  end.

Abbreviation write_call b1 first key tomb h :=
  (bind clock_now (fun now => bind (lift (meta_doc now tomb)) (fun mv =>
     bind (wal_append_batch [b1; mkBatchOp PUT (meta_key key) mv]) (fun _ =>
       submit_wait h [first; SPut (meta_key key) mv])))).

(** The write path of the engine commits the abstract write. *)
Lemma write_commits b1 first key tomb h s e w n :
  never_throws first -> (h < SHARDS)%nat -> represents s e w -> clock_fits w ->
  write_fits first key tomb w -> enough (log_length b1 first key tomb w + n) (write_answers e) ->
  match commit first key tomb w with
  | Some w' => exists e', write_call b1 first key tomb h e = Some (Ok tt, e') /\
      represents s e' w' /\ clock_fits w' /\ enough n (write_answers e')
  | None => write_call b1 first key tomb h e = None
  end.
Proof.
  intros Hf Hh [H1 H2 H3 H4 H5 H6] Hc. unfold log_length, commit, write_fits, write_ops. rewrite bind_clock, H4, H5.
  destruct (hlc_now (readings w) (clock w)) as [[[ts c] rs]|] eqn:Hnow; [|done].
  destruct (hlc_now_fits _ _ _ _ Hc Hnow) as [Hts Hc'].
  destruct (meta_doc_ok ts tomb Hts) as (mv & Hmv & _). cbn [mbind option_bind].
  rewrite Hmv. cbn [mbind option_bind]. intros Hfit Hen.
  set (e1 := mkEngine _ _ _ _ _ _). rewrite (bind_return _ _ e1 mv e1) by done.
  destruct (append_enough [b1; mkBatchOp PUT (meta_key key) mv] e1 n) as (e2 & He2 & _ & Hen2); [exact Hen|].
  rewrite (bind_return _ _ _ _ _ He2). unfold wal_append_batch in He2.
  destruct (append_batch _ _ _) as [[log ans]|]; [|done]. injection He2 as <-.
  rewrite submit_wait_total; [|exact H6|done|by repeat constructor]. eexists. split; [done|].
  split; [|split; [apply Hc'|exact Hen2]].
  split; try done. refine (run_ops_implements _ (store e) (contents w) H3 _). exact Hfit.
Qed.

Lemma represents_open identity u s e w :
  represents s e w -> represents (set_session identity u s) e (open_session identity u w).
Proof. intros [H1 H2 H3 H4 H5 H6]. split; cbn; try done. by rewrite H2. Qed.

Lemma put_call key val p e :
  put key val p e =
  if can_write p key e
  then write_call (mkBatchOp PUT key val) (SPut key val) key false (get_routing_shard (moved_from key)) e
  else Some (Throw (unauthorized key), e).
Proof. unfold put. rewrite (bind_return _ _ e (can_write p key e) e) by done. by destruct (can_write p key e). Qed.

Lemma del_call key p e :
  del key p e =
  if can_write p key e then
    match write_call (mkBatchOp DELETE_ key []) (SDel key) key true (get_routing_shard key) e with
    | Some (Ok _, e') => Some (Ok true, e')
    | Some (Throw x, e') => Some (Throw x, e')
    | None => None
    end
  else Some (Ok false, e).
Proof.
  unfold del. unfold bind at 1. cbn [gets]. destruct (can_write p key e); [|done]. cbn [negb].
  rewrite !bind_clock. destruct (hlc_now _ _) as [[[ts c] rs]|]; [|done]. unfold bind, gets, submit_to_shard.
  destruct (lift (meta_doc ts true) _) as [[[mv|x] e1]|]; [|done..].
  destruct (wal_append_batch _ e1) as [[[[]|x] e2]|]; [|done..].
  by destruct (submit_wait _ _ e2) as [[[[]|x] e3]|].
Qed.

Lemma enough_le c n ans : enough (c + n) ans -> enough n ans.
Proof. intros [H1 H2]. split; [done|]. lia. Qed.

(** ** Reading several documents *)

Lemma field_doc_set (res res' k d : bytes) (fs : gmap bytes bytes) :
  same_fields k res res' -> field_doc res' k = Some d -> (forall x, field_doc res x = fs !! x) ->
  forall x, field_doc res' x = <[k := d]> fs !! x.
Proof.
  intros Hs Hd Hr x. destruct (decide (x = k)) as [->|Hne]; [by rewrite lookup_insert_eq|].
  rewrite lookup_insert_ne, <- Hr by done. destruct (Hs x Hne) as (E1 & _ & _ & E2 & E3).
  unfold field_doc. by rewrite E1, E2, E3.
Qed.

Lemma batch_get_visible p e w : implements (store e) (contents w) -> forall keys res fs,
  lite3_object res -> (forall k, field_doc res k = fs !! k) ->
  exists res', batch_get_loop keys p res e = Some (Ok res', e) /\ forall k, field_doc res' k = visible p keys w fs !! k.
Proof.
  intros Him. induction keys as [|k keys IH]; intros res fs Ho Hr; [by exists res|]. cbn [batch_get_loop].
  rewrite (bind_return _ _ e (can_read p k e) e) by done. unfold can_read. rewrite (im_creds _ _ Him).
  change (visible p (k :: keys) w fs) with (visible p keys w
    (match docs (contents w) !! k with Some d => if readable p k w then <[k := d]> fs else fs | None => fs end)).
  fold (readable p k w). rewrite <- (im_docs _ _ Him k). unfold plain.
  destruct (readable p k w); cbn [negb]; [|destruct (get_view k (store e)); by apply IH].
  rewrite (bind_return _ _ e (get_view k (store e)) e) by done.
  destruct (get_view k (store e)) as [view|]; [|by apply IH]. cbn [fmap option_fmap option_map]. unfold blob_plain.
  rewrite (bind_return _ _ e (zstd_manager_ (store e)) e) by done.
  destruct (compressed_ view).
  - destruct (set_str_ok res k (zstd_decompress (buf_ view) (original_size_ view) (zstd_manager_ (store e))) Ho)
      as (res' & Hset & Ho' & Hs & Ht & Hv). rewrite Hset, (bind_return _ _ e res' e) by done. apply IH; [done|].
    apply (field_doc_set res); [done| |done]. unfold field_doc. rewrite Ht. exact Hv.
  - destruct (set_bytes_ok res k (blob_view view) Ho) as (res' & Hset & Ho' & Hs & Ht & Hv).
    rewrite Hset, (bind_return _ _ e res' e) by done. apply IH; [done|].
    apply (field_doc_set res); [done| |done]. unfold field_doc. rewrite Ht. exact Hv.
Qed.

Lemma batch_get_fields p e w keys :
  implements (store e) (contents w) ->
  exists res, batch_get keys p e = Some (Ok res, e) /\ forall k, field_doc res k = visible p keys w ∅ !! k.
Proof.
  intros Him. apply batch_get_visible; [done|apply init_object_ok|]. intros k. unfold field_doc.
  by rewrite init_object_null, lookup_empty.
Qed.

(** The key of a write fits the length field of the log. *)
Definition short_key (r : request) : Prop :=
  match r with Put key _ | Del key => zlen key < 2 ^ 16 | _ => True end.

(** A request leaves the engine alone or is one call of it. *)
Definition one_call (r : request) (e e' : Engine) : Prop :=
  e' = e \/ exists c, (short_key r -> loggable c) /\ run_call c e = Some (Ok tt, e').

Lemma untouched r s e w n :
  represents s e w -> clock_fits w -> enough n (write_answers e) ->
  represents s e w /\ clock_fits w /\ enough n (write_answers e) /\ one_call r e e.
Proof. intros H1 H2 H3. split; [done|]. split; [done|]. split; [done|by left]. Qed.

Lemma sent_text identity text : Forall2 sent [Text identity text] [reply identity text].
Proof. by constructor. Qed.

(** ** One request *)

(** How much the log of a request may take. *)
Definition request_cost (q : bytes * Z * request) (w : service) : nat :=
  match q.2 with
  | Put key val => log_length (mkBatchOp PUT key val) (SPut key val) key false w
  | Del key => log_length (mkBatchOp DELETE_ key []) (SDel key) key true w
  | _ => 0
  end.

(** The bytes a sequence of requests adds to the log. *)
Fixpoint requests_cost (qs : list (bytes * Z * request)) (w : service) : nat :=
  match qs with
  | [] => 0
  | q :: qs => request_cost q w + match request_step q w with Some (_, w') => requests_cost qs w' | None => 0 end
  end.

Lemma operation_served identity p r s e w n :
  represents s e w -> clock_fits w -> request_fits (identity, p, r) w -> enough (request_cost (identity, p, r) w + n) (write_answers e) ->
  forall o rest, opcode_frames r = [o] :: rest -> o <> Byte.x41 -> forall f0 f1 f2,
  match operate identity p r w with
  | Some (rs, w') => exists frames e', serve_operation stale o identity (f0 :: f1 :: f2 :: opcode_frames r) p s e =
      Some (frames, s, e') /\ Forall2 sent rs frames /\ represents s e' w' /\ clock_fits w' /\
      enough n (write_answers e') /\ one_call r e e'
  | None => serve_operation stale o identity (f0 :: f1 :: f2 :: opcode_frames r) p s e = None
  end.
Proof.
  intros Hr Hc Hfit Hen o rest Ho Hne f0 f1 f2. pose proof (rp_store _ _ _ Hr) as Him.
  destruct r as [uid sec|key|keys|key val|key]; cbn [opcode_frames] in Ho; injection Ho as <- <-; [done|..]; cbn [operate];
    try (unfold writable; rewrite <- (im_creds _ _ Him); fold (can_write p key e)).
  - eexists _, e. split; [reflexivity|]. split; [|by apply untouched]. constructor; [|done]. cbn. rewrite (get_implements _ _ _ _ Him).
    unfold readable. by rewrite data_default.
  - destruct keys as [|key keys]; [exists [], e; split; [done|]; split; [done|by apply untouched]|]. unfold serve_operation.
    cbn [opcode_frames app length Nat.leb andb drop]. rewrite !bool_decide_eq_false_2, bool_decide_eq_true_2 by done.
    destruct (batch_get_fields p e w (key :: keys) Him) as (res & Hres & Hf). cbn [andb]. rewrite Hres.
    eexists _, e. split; [reflexivity|]. split; [|by apply untouched]. constructor; [|done]. by exists res.
  - unfold serve_operation. cbn -[put]. rewrite put_call.
    destruct (can_write p key e) eqn:Hcan; [|apply enough_le in Hen; eexists _, e; split; [reflexivity|]; split; [apply sent_text|by apply untouched]].
    pose proof (write_commits (mkBatchOp PUT key val) (SPut key val) key false (get_routing_shard (moved_from key)) s e w n
      I (routing_lt _) Hr Hc Hfit Hen) as Hw.
    destruct (commit _ _ _ w) as [w'|]; cbn [fmap option_fmap option_map]; [|by rewrite Hw].
    destruct Hw as (e' & Hw & H1 & H2 & H3). rewrite Hw. eexists _, e'. split; [reflexivity|]. split; [apply sent_text|].
    split; [exact H1|]. split; [exact H2|]. split; [exact H3|]. right. exists (CPut key val p).
    split; [by intros Hk|]. cbn [run_call]. by rewrite put_call, Hcan.
  - unfold serve_operation. cbn -[del]. rewrite del_call.
    destruct (can_write p key e) eqn:Hcan; [|apply enough_le in Hen; eexists _, e; split; [reflexivity|]; split; [apply sent_text|by apply untouched]].
    pose proof (write_commits (mkBatchOp DELETE_ key []) (SDel key) key true (get_routing_shard key) s e w n
      I (routing_lt _) Hr Hc Hfit Hen) as Hw.
    destruct (commit _ _ _ w) as [w'|]; cbn [fmap option_fmap option_map]; [|by rewrite Hw].
    destruct Hw as (e' & Hw & H1 & H2 & H3). rewrite Hw. eexists _, e'. split; [reflexivity|]. split; [apply sent_text|].
    split; [exact H1|]. split; [exact H2|]. split; [exact H3|]. right. exists (CDel key p).
    split; [by intros Hk|]. cbn [run_call]. unfold bind. by rewrite del_call, Hcan, Hw.
Qed.

(** ** One message *)

Definition effective (u principal : Z) : Z := if (u =? ADMIN_UID) || (u =? INTERNAL_UID) then u32 principal else u.

Lemma serve_known identity principal r o rest s e u :
  opcode_frames r = [o] :: rest -> o <> Byte.x41 -> session_identities_ s !! identity = Some u ->
  serve_session no_frame stale identity (message (identity, principal, r)) s e =
  serve_operation stale o identity (message (identity, principal, r)) (effective u principal) s e.
Proof.
  intros Ho Hne Hs. unfold message. rewrite Ho. unfold serve_session. cbn [length Nat.ltb Nat.leb].
  change (frame (identity :: [] :: le32 principal :: [o] :: rest) 3) with [o].
  change (frame (identity :: [] :: le32 principal :: [o] :: rest) 2) with (le32 principal).
  cbv iota beta. rewrite bool_decide_eq_false_2 by done. cbn [andb]. unfold session_uid. rewrite Hs.
  change (length (le32 principal) =? 4)%nat with true. rewrite le_combine_le32. done.
Qed.

Lemma serve_authenticate identity principal uid presented s e w :
  represents s e w ->
  exists frames s', serve_session no_frame stale identity (message (identity, principal, Authenticate uid presented)) s e =
    Some (frames, s', e) /\ Forall2 sent (authenticate identity uid presented w).1 frames /\
    represents s' e (authenticate identity uid presented w).2.
Proof.
  intros Hr. unfold serve_session, message, authenticate, serve_auth. cbn [length Nat.ltb Nat.leb opcode_frames].
  change (frame (identity :: [] :: le32 principal :: [str "A"; uid; presented]) 3) with (str "A").
  change (frame (identity :: [] :: le32 principal :: [str "A"; uid; presented]) 4) with uid.
  change (str "A") with [Byte.x41]. cbv iota beta. rewrite bool_decide_eq_true_2 by done.
  destruct (stoul uid) as [v|x]; [|by exists [], s]. cbn [lookup list_lookup default from_option id]. rewrite (rp_secret _ _ _ Hr).
  repeat (case_bool_decide || case_decide); cbn [orb]; try naive_solver; eexists _, _; (split; [reflexivity|]; split; [apply sent_text|]);
    [by apply represents_open..|done].
Qed.

Lemma not_auth identity principal r o rest :
  opcode_frames r = [o] :: rest -> o <> Byte.x41 -> is_auth (message (identity, principal, r)) = false.
Proof.
  intros Ho Hne. unfold is_auth, message. rewrite Ho.
  change (frame (identity :: [] :: le32 principal :: [o] :: rest) 2) with (le32 principal).
  change (frame (identity :: [] :: le32 principal :: [o] :: rest) 3) with [o].
  rewrite !bool_decide_eq_false_2; [by rewrite !andb_false_r|by intros [= ?]|by intros [=]].
Qed.

(** A message with an operation goes to the engine on behalf of whom the session acts for. *)
Lemma serve_acting identity principal r o rest s e w :
  represents s e w -> opcode_frames r = [o] :: rest -> o <> Byte.x41 ->
  match acting identity principal w with
  | Some (p, w') => exists s', represents s' e w' /\
      serve no_frame stale (message (identity, principal, r)) s e =
      serve_operation stale o identity (message (identity, principal, r)) p s' e
  | None => serve no_frame stale (message (identity, principal, r)) s e = Some ([reply identity (str "ERR_UNAU")], s, e)
  end.
Proof.
  intros Hr Ho Hne. unfold acting.
  assert (serve no_frame stale (message (identity, principal, r)) s e =
    match session_identities_ s !! identity with
    | Some _ => serve_session no_frame stale identity (message (identity, principal, r)) s e
    | None => if decide (server_secret_ s = [])
              then serve_session no_frame stale identity (message (identity, principal, r)) (set_session identity 0 s) e
              else Some ([reply identity (str "ERR_UNAU")], s, e)
    end) as ->.
  { unfold serve. rewrite (not_auth identity principal r o rest Ho Hne).
    change (frame (message (identity, principal, r)) 0) with identity. cbn [message length Nat.ltb Nat.leb].
    destruct (session_identities_ s !! identity); [done|]. by case_bool_decide; case_decide. }
  rewrite <- (rp_sessions _ _ _ Hr), <- (rp_secret _ _ _ Hr). destruct (session_identities_ s !! identity) as [u|] eqn:Hs.
  - exists s. split; [done|]. by rewrite (serve_known identity principal r o rest s e u Ho Hne Hs).
  - case_decide; [|done]. exists (set_session identity ADMIN_UID s). split; [by apply represents_open|].
    rewrite (serve_known identity principal r o rest _ e 0 Ho Hne); [done|]. cbn. apply lookup_insert_eq.
Qed.

(** Opening a session changes nothing an operation depends on. *)
Lemma acting_same identity principal w p w' r :
  acting identity principal w = Some (p, w') -> clock_fits w -> request_fits (identity, principal, r) w ->
  clock_fits w' /\ request_fits (identity, p, r) w' /\ request_cost (identity, p, r) w' = request_cost (identity, principal, r) w.
Proof.
  unfold acting. destruct (sessions w !! identity); [by intros [= _ <-]|]. case_decide; [|done].
  intros [= _ <-] [H1 H2 H3 H4] Hf. split; [by split|]. by split.
Qed.

Lemma acting_served identity principal r o rest s e w n :
  opcode_frames r = [o] :: rest -> o <> Byte.x41 ->
  represents s e w -> clock_fits w -> request_fits (identity, principal, r) w ->
  enough (request_cost (identity, principal, r) w + n) (write_answers e) ->
  match request_step (identity, principal, r) w with
  | Some (rs, w') => exists frames s' e', serve no_frame stale (message (identity, principal, r)) s e = Some (frames, s', e') /\
      Forall2 sent rs frames /\ represents s' e' w' /\ clock_fits w' /\ enough n (write_answers e') /\ one_call r e e'
  | None => serve no_frame stale (message (identity, principal, r)) s e = None
  end.
Proof.
  intros Ho Hne Hr Hc Hfit Hen. pose proof (serve_acting identity principal r o rest s e w Hr Ho Hne) as Hs.
  assert (request_step (identity, principal, r) w =
    match acting identity principal w with
    | None => Some ([Text identity (str "ERR_UNAU")], w)
    | Some (p, w) => operate identity p r w
    end) as -> by (by destruct r; [injection Ho as <- |..]).
  destruct (acting identity principal w) as [[p w1]|] eqn:Ha.
  - destruct Hs as (s1 & Hr1 & ->). destruct (acting_same _ _ _ _ _ r Ha Hc Hfit) as (Hc1 & Hfit1 & Hcost). rewrite <- Hcost in Hen.
    pose proof (operation_served identity p r s1 e w1 n Hr1 Hc1 Hfit1 Hen o rest Ho Hne identity [] (le32 principal)) as Hop.
    destruct (operate identity p r w1) as [[rs w2]|]; [|exact Hop].
    destruct Hop as (frames & e' & Hop & H). by exists frames, s1, e'.
  - eexists _, s, e. apply enough_le in Hen. rewrite Hs. split; [reflexivity|]. split; [apply sent_text|by apply untouched].
Qed.

Lemma request_served q s e w n :
  represents s e w -> clock_fits w -> request_fits q w -> enough (request_cost q w + n) (write_answers e) ->
  match request_step q w with
  | Some (rs, w') => exists frames s' e', serve no_frame stale (message q) s e = Some (frames, s', e') /\
      Forall2 sent rs frames /\ represents s' e' w' /\ clock_fits w' /\ enough n (write_answers e') /\ one_call q.2 e e'
  | None => serve no_frame stale (message q) s e = None
  end.
Proof.
  destruct q as [[identity principal] [uid presented|key|keys|key val|key]]; intros Hr Hc Hfit Hen;
    [|by eapply acting_served..].
  destruct (serve_authenticate identity principal uid presented s e w Hr) as (frames & s' & Hs & Hsent & Hr').
  assert (serve no_frame stale (message (identity, principal, Authenticate uid presented)) s e =
    serve_session no_frame stale identity (message (identity, principal, Authenticate uid presented)) s e) as E.
  { unfold serve. change (frame (message _) 0) with identity. cbn [message opcode_frames length Nat.ltb Nat.leb].
    destruct (session_identities_ s !! identity); [done|].
    assert (is_auth (identity :: [] :: le32 principal :: [str "A"; uid; presented]) = true) as -> by (by apply orb_true_r). done. }
  cbn [request_step]. destruct (authenticate identity uid presented w) as [rs w'] eqn:Ew. cbn [fst snd] in *.
  exists frames, s', e. rewrite E, Hs. split; [done|]. split; [done|]. split; [done|]. split; [|split; [done|by left]].
  unfold authenticate in Ew. destruct Hc as [H1 H2 H3 H4]. destruct (stoul uid); [case_decide|]; injection Ew as _ <-; by split.
Qed.

(** ** Sequences of requests *)

Lemma requests_served qs : forall w s e,
  represents s e w -> clock_fits w -> requests_fit qs w -> enough (requests_cost qs w) (write_answers e) ->
  match requests_run qs w with
  | Some (rs, w') => exists frames s' e', serve_all (message <$> qs) s e = Some (frames, s', e') /\
      Forall2 sent rs frames /\ represents s' e' w'
  | None => serve_all (message <$> qs) s e = None
  end.
Proof.
  induction qs as [|q qs IH]; intros w s e.
  { intros Hr _ _ _. by exists [], s, e. }
  cbn [requests_run fmap list_fmap serve_all requests_fit requests_cost].
  destruct (request_step q w) as [[rs w1]|] eqn:Hq; intros Hr Hc [Hf Hfs] Hen.
  - pose proof (request_served q s e w _ Hr Hc Hf Hen) as Hs. rewrite Hq in Hs.
    destruct Hs as (fs1 & s1 & e1 & -> & Hf1 & Hr1 & Hc1 & Hen1 & _). cbn [mbind option_bind].
    pose proof (IH w1 s1 e1 Hr1 Hc1 Hfs Hen1) as Hn.
    destruct (requests_run qs w1) as [[rs' w2]|]; cbn [mbind option_bind]; [|by rewrite Hn].
    destruct Hn as (fs2 & s2 & e2 & -> & Hf2 & Hr2). exists (fs1 ++ fs2), s2, e2. split; [done|]. split; [by apply Forall2_app|done].
  - pose proof (request_served q s e w 0 Hr Hc Hf Hen) as Hs. rewrite Hq in Hs. by rewrite Hs.
Qed.

(** ** Crashes *)

(** The service after a restart: the sessions are gone and the clock starts anew. *)
Definition restarted (w : service) (node : Z) (rd : list Z) : service :=
  mkService (secret w) ∅ (contents w) (hlc_new node) rd.

Lemma reopened s e w contents node rd ans :
  represents s e w -> store (engine_open contents node rd ans) = store e ->
  represents (mkZmq (secret w) ∅) (engine_open contents node rd ans) (restarted w node rd).
Proof.
  intros Hr Hs. split; [done|done| |..].
  - rewrite Hs. apply (rp_store _ _ _ Hr).
  - unfold engine_open. by destruct (recover _).
  - unfold engine_open. by destruct (recover _).
  - unfold engine_open. by destruct (recover _).
Qed.

Lemma one_call_grows r e e1 : healthy e -> one_call r e e1 -> healthy e1 /\ file (wal_ e) `prefix_of` file (wal_ e1).
Proof. intros Hh [-> | (c & _ & Hc)]; [done|]. by apply (run_call_grows c _ _ _ Hh Hc). Qed.

Lemma one_call_logged r e e1 :
  log_inv e -> short_key r -> one_call r e e1 -> zlen (file (wal_ e1)) < 2 ^ 32 -> log_inv e1.
Proof. intros Hi Hk [-> | (c & Hl & Hc)] Hsz; [done|]. by apply (run_call_logged c e e1 Hi (Hl Hk) Hc Hsz). Qed.

Lemma one_call_cut r e e1 n node rd ans :
  log_inv e -> short_key r -> one_call r e e1 -> zlen (file (wal_ e1)) < 2 ^ 32 ->
  (length (file (wal_ e)) <= n < length (file (wal_ e1)))%nat ->
  store (engine_open (take n (file (wal_ e1))) node rd ans) = store e.
Proof.
  intros Hi Hk [-> | (c & Hl & Hc)] Hsz Hn; [lia|].
  rewrite (crash_one_call c e e1 n node rd ans Hi (Hl Hk) Hc Hsz) by lia. by rewrite decide_False by lia.
Qed.

(** The first [n] bytes of the log hold all of it and end inside the record of the first of
    the requests [lost]. *)
Definition incomplete (n : nat) (lost : list (bytes * Z * request)) (s : ZmqServer) (e : Engine) : Prop :=
  (length (file (wal_ e)) <= n)%nat /\
  match lost with
  | [] => True
  | q :: _ => exists frames s1 e1, serve no_frame stale (message q) s e = Some (frames, s1, e1) /\
                (n < length (file (wal_ e1)))%nat
  end.

(** What a node finds that starts on the first [n] bytes of the log [f] of a server that served
    [qs]. *)
Definition survives (qs : list (bytes * Z * request)) (w : service) (s : ZmqServer) (e : Engine) (f : bytes) (n : nat) : Prop :=
  forall node rd ans, exists kept lost rs wk frames sk ek, qs = kept ++ lost /\
    requests_run kept w = Some (rs, wk) /\ serve_all (message <$> kept) s e = Some (frames, sk, ek) /\
    incomplete n lost sk ek /\
    represents (mkZmq (secret wk) ∅) (engine_open (take n f) node rd ans) (restarted wk node rd).

Lemma survives_none qs w s e e' q frames s1 e1 n :
  log_inv e -> represents s e w -> short_key q.2 -> one_call q.2 e e1 -> zlen (file (wal_ e1)) < 2 ^ 32 ->
  serve no_frame stale (message q) s e = Some (frames, s1, e1) -> file (wal_ e1) `prefix_of` file (wal_ e') ->
  (length (file (wal_ e)) <= n < length (file (wal_ e1)))%nat ->
  survives (q :: qs) w s e (file (wal_ e')) n.
Proof.
  intros Hi Hr Hk Ho Hsz Hs [l Hp] Hn node rd ans. exists [], (q :: qs), [], w, [], s, e.
  split; [done|]. split; [done|]. split; [done|]. split; [split; [lia|exists frames, s1, e1; split; [done|lia]]|].
  apply (reopened s e w); [done|]. rewrite Hp, take_app_le by lia. by apply (one_call_cut q.2 e e1 n).
Qed.

Lemma survives_cons qs w s e f q rs w1 frames s1 e1 n :
  request_step q w = Some (rs, w1) -> serve no_frame stale (message q) s e = Some (frames, s1, e1) ->
  survives qs w1 s1 e1 f n -> survives (q :: qs) w s e f n.
Proof.
  intros Hq Hs Hsv node rd ans.
  destruct (Hsv node rd ans) as (kept & lost & rs' & wk & fs' & sk & ek & -> & Hrun & Hserve & Hinc & Hrep).
  exists (q :: kept), lost, (rs ++ rs'), wk, (frames ++ fs'), sk, ek. split; [done|].
  cbn [requests_run fmap list_fmap serve_all]. rewrite Hq, Hs. cbn [mbind option_bind].
  split; [by rewrite Hrun|]. split; [|done]. change (list_fmap _ _ message kept) with (message <$> kept). by rewrite Hserve.
Qed.

Lemma requests_survive qs : forall w s e frames s' e',
  represents s e w -> clock_fits w -> requests_fit qs w -> Forall (fun q => short_key q.2) qs ->
  enough (requests_cost qs w) (write_answers e) -> serve_all (message <$> qs) s e = Some (frames, s', e') ->
  (healthy e -> file (wal_ e) `prefix_of` file (wal_ e')) /\
  (log_inv e -> zlen (file (wal_ e')) < 2 ^ 32 ->
   forall n, (length (file (wal_ e)) <= n <= length (file (wal_ e')))%nat -> survives qs w s e (file (wal_ e')) n).
Proof.
  induction qs as [|q qs IH]; intros w s e frames s' e'.
  { intros Hr _ _ _ _ [= _ <- <-]. split; [done|]. intros Hi _ n Hn node rd ans.
    exists [], [], [], w, [], s, e. split; [done|]. split; [done|]. split; [done|]. split; [split; [lia|done]|].
    apply (reopened s e w); [done|]. rewrite take_ge by lia. by apply log_inv_reopen. }
  cbn [requests_fit requests_cost]. destruct (request_step q w) as [[rs w1]|] eqn:Hq;
    intros Hr Hcl [Hf Hfs] [Hk Hks]%Forall_cons Hen Hrun.
  - pose proof (request_served q s e w _ Hr Hcl Hf Hen) as Hs. rewrite Hq in Hs.
    destruct Hs as (fs1 & s1 & e1 & Hs1 & _ & Hr1 & Hcl1 & Hen1 & Hone).
    cbn [fmap list_fmap serve_all] in Hrun. rewrite Hs1 in Hrun. cbn [mbind option_bind] in Hrun.
    change (list_fmap _ _ message qs) with (message <$> qs) in Hrun.
    destruct (serve_all (message <$> qs) s1 e1) as [[[fs2 s2] e2]|] eqn:Hrest; [|done].
    cbn [mbind option_bind] in Hrun. injection Hrun as <- <- <-.
    destruct (IH w1 s1 e1 fs2 s2 e2 Hr1 Hcl1 Hfs Hks Hen1 Hrest) as [Hgrow Hsv]. split.
    + intros Hh. destruct (one_call_grows _ _ _ Hh Hone) as [Hh1 Hp]. etrans; [exact Hp|]. by apply Hgrow.
    + intros Hi Hsz n Hn. destruct (one_call_grows _ _ _ (log_inv_healthy _ Hi) Hone) as [Hh1 _].
      pose proof (Hgrow Hh1) as Hp. pose proof (prefix_zlen _ _ Hp) as Hlen.
      destruct (decide (n < length (file (wal_ e1)))%nat) as [Hlt|Hge].
      * by apply (survives_none qs w s e e2 q fs1 s1 e1 n); [..|lia| | |lia].
      * apply (survives_cons qs w s e _ q rs w1 fs1 s1 e1 n Hq Hs1). apply Hsv; [|done|lia].
        by apply (one_call_logged q.2 e e1); [..|lia].
  - pose proof (request_served q s e w 0 Hr Hcl Hf Hen) as Hs. rewrite Hq in Hs.
    cbn [fmap list_fmap serve_all] in Hrun. by rewrite Hs in Hrun.
Qed.

(** C2: The service its clients see is a map from keys to documents behind sessions and access
    rules.  To a sequence of well-formed requests (authentication, reads of one or several
    documents, writes and deletions, from any clients, on behalf of anybody) the server sends
    exactly the answers of the abstract
    service, in which a write replaces a document and its metadata under the next timestamp of
    the clock, and ends in a state that represents the abstract one; it waits only if the clock
    does, given enough answers of the operating system for its log.  No request throws. *)
Theorem service_refines_kv qs w :
  requests_fit qs w -> clock_fits w ->
  forall s e, represents s e w -> enough (requests_cost qs w) (write_answers e) ->
  match requests_run qs w with
  | Some (rs, w') => exists frames s' e', serve_all (message <$> qs) s e = Some (frames, s', e') /\
      Forall2 sent rs frames /\ represents s' e' w'
  | None => serve_all (message <$> qs) s e = None
  end.
Proof. intros Hf Hc s e Hr He. by apply requests_served. Qed.

(** C3: Answered requests survive a crash.  Let a server serve a sequence of requests, crash, and
    lose the end of its log at any byte that was written meanwhile.  A node that starts on what
    is left represents the abstract service after a prefix of the requests: those whose records
    are complete.  No request survives without the earlier ones, and none survives in part. *)
Theorem service_survives_crash qs w :
  requests_fit qs w -> clock_fits w -> Forall (fun q => short_key q.2) qs ->
  forall s e frames s' e', represents s e w -> log_inv e -> enough (requests_cost qs w) (write_answers e) ->
  serve_all (message <$> qs) s e = Some (frames, s', e') -> zlen (file (wal_ e')) < 2 ^ 32 ->
  forall n, (length (file (wal_ e)) <= n <= length (file (wal_ e')))%nat -> survives qs w s e (file (wal_ e')) n.
Proof.
  intros Hf Hc Hk s e frames s' e' Hr Hi Hen Hrun Hsz. by apply (requests_survive qs w s e frames s' e').
Qed.

(** A node that starts on an empty log. *)
Definition service_new (sec : bytes) (node : Z) (rs : list Z) : service := mkService sec ∅ kv_new (hlc_new node) rs.

Lemma represents_new sec node rs ans :
  represents (mkZmq sec ∅) (engine_open [] node rs ans) (service_new sec node rs).
Proof. split; try done. apply implements_new. Qed.

End Frontend.

(** The administrator gives user 7 access to his documents; he writes one and reads it back,
    deletes it, and reads nothing; a stranger is turned away, and so is user 7 elsewhere. *)
Definition clients : list (bytes * Z * request) :=
  [(str "root", 0, Authenticate (str "0") (str "s3cret"));
   (str "alice", 0, Authenticate (str "7") (str "s3cret"));
   (str "mallory", 0, Get (str "alice/a"));
   (str "alice", 0, Put (str "alice/a") (str "hello"));
   (str "root", 0, Put (str "sys:acl:7:alice/") (str "READ WRITE"));
   (str "alice", 0, Put (str "alice/a") (str "hello"));
   (str "alice", 0, Get (str "alice/a"));
   (str "alice", 0, Put (str "bob/a") (str "hello"));
   (str "alice", 0, Mget [str "alice/a"; str "sys:acl:7:alice/"; str "alice/b"]);
   (str "alice", 0, Del (str "alice/a"));
   (str "root", 7, Get (str "alice/a"))].

Definition client_answers : list answer :=
  [Text (str "root") (str "OK"); Text (str "alice") (str "OK"); Text (str "mallory") (str "ERR_UNAU");
   Text (str "alice") (str "ERR_FORBIDDEN"); Text (str "root") (str "OK"); Text (str "alice") (str "OK");
   Text (str "alice") (str "hello"); Text (str "alice") (str "ERR_FORBIDDEN");
   Object (str "alice") {[str "alice/a" := str "hello"]}; Text (str "alice") (str "OK"); Text (str "root") []].

Definition client_service : service := service_new (str "s3cret") 1 [10; 20; 30; 40].
Definition client_server : ZmqServer := mkZmq (str "s3cret") ∅.
Definition client_node : Engine := engine_open [] 1 [10; 20; 30; 40] (replicate 2000 (Wrote 7)).

Lemma clients_ready :
  requests_fit clients client_service /\ clock_fits client_service /\ represents client_server client_node client_service /\
  log_inv client_node /\ enough (requests_cost clients client_service) (write_answers client_node).
Proof.
  split; [apply (bool_decide_unpack (requests_fit clients client_service)); vm_compute; reflexivity|].
  split; [split; [cbn; lia..|]; repeat constructor; lia|]. split; [apply represents_new|].
  assert (Forall progress (replicate 2000 (Wrote 7))) as Hp by (apply Forall_replicate; cbn; lia).
  split; [apply engine_open_inv, Hp|]. split; [exact Hp|]. apply Nat.leb_le. vm_compute. reflexivity.
Qed.

Lemma service_refines_kv_witness : exists frames s e,
  serve_all [] id (message <$> clients) client_server client_node = Some (frames, s, e) /\ Forall2 sent client_answers frames.
Proof.
  destruct clients_ready as (Hf & Hc & Hr & _ & Hen).
  pose proof (service_refines_kv [] id clients client_service Hf Hc client_server client_node Hr Hen) as H.
  assert (fst <$> requests_run clients client_service = Some client_answers) as E by (vm_compute; reflexivity).
  destruct (requests_run clients client_service) as [[rs w']|]; [|discriminate E]. injection E as ->.
  destruct H as (frames & s & e & Hs & Hsent & _). exists frames, s, e. split; [exact Hs|exact Hsent].
Defined.

(** The log of the served requests, and what is left of it when its last record is torn. *)
Definition client_log : bytes :=
  match serve_all [] id (message <$> clients) client_server client_node with Some (_, _, e) => file (wal_ e) | None => [] end.

Lemma service_survives_crash_witness :
  (1000 < length client_log)%nat /\ survives [] id clients client_service client_server client_node client_log 1000.
Proof.
  destruct clients_ready as (Hf & Hc & Hr & Hi & Hen).
  assert (1000 < length client_log)%nat as Hlen by (apply Nat.ltb_lt; vm_compute; reflexivity).
  assert (zlen client_log <? 2 ^ 32 = true) as Hsz by (vm_compute; reflexivity).
  assert (Forall (fun q : bytes * Z * request => short_key q.2) clients) as Hk by (repeat constructor).
  split; [exact Hlen|]. unfold client_log in *.
  destruct (serve_all [] id (message <$> clients) client_server client_node) as [[[frames s] e]|] eqn:E; [|cbn in Hlen; lia].
  apply (service_survives_crash [] id clients client_service Hf Hc Hk client_server client_node frames s e Hr Hi Hen E).
  - apply Z.ltb_lt. exact Hsz.
  - split; [cbn; lia|]. lia.
Defined.
