(* ===== verification/Metrics.v ===== *)
(** * Service metrics (src/observability/simple_metrics.hpp, simple_metrics.cpp)

    [SimpleMetrics]: named operation counters with latency statistics, traffic counters by
    mesh lane, error classes and gauges.  Every update is atomic or made under the lock, so
    a run is a sequence of updates.  The counters wrap at their width; latencies are IEEE
    doubles.  [MetricsText] has the text renderings. *)
From Stdlib Require Import SpecFloat.
From S2P Require Import Prelude.

Record OpStats := mkOpStats {
  op_count : Z;                    (* uint64_t *)
  total_latency : spec_float;      (* double *)
  max_latency : spec_float
}.

Record LaneStats := mkLaneStats { lane_sent : Z; lane_recv : Z }.

Record SimpleMetrics := mkMetrics {
  operation_stats_ : gmap bytes OpStats;
  buffer_usage_ : Z;
  buffer_capacity_ : Z;
  node_splits_ : Z;
  hash_collisions_ : Z;
  bytes_received_ : Z;
  bytes_sent_ : Z;
  active_connections_ : Z;         (* int64_t *)
  errors_4xx_ : Z;
  errors_5xx_ : Z;
  sync_stats_ : gmap bytes Z;
  keys_repaired_ : Z;
  lane_stats_ : gmap bytes LaneStats;
  thread_count_ : Z
}.

Definition op_stats_new : OpStats := mkOpStats 0 (S754_zero false) (S754_zero false).
Definition lane_stats_new : LaneStats := mkLaneStats 0 0.

Definition metrics_new : SimpleMetrics := mkMetrics ∅ 0 0 0 0 0 0 0 0 0 ∅ 0 ∅ 0.

(** [map[key]], which creates a missing entry, as the entry's value. *)
Definition at_key {V} (zero : V) (key : bytes) (m : gmap bytes V) : V := default zero (m !! key).

Definition set_operation_stats (f : gmap bytes OpStats -> gmap bytes OpStats) (m : SimpleMetrics) :
    SimpleMetrics :=
  mkMetrics (f (operation_stats_ m)) (buffer_usage_ m) (buffer_capacity_ m) (node_splits_ m)
    (hash_collisions_ m) (bytes_received_ m) (bytes_sent_ m) (active_connections_ m)
    (errors_4xx_ m) (errors_5xx_ m) (sync_stats_ m) (keys_repaired_ m) (lane_stats_ m)
    (thread_count_ m).

(** The accumulation loops retry until their exchange succeeds; under the lock no other
    writer interferes, so each performs its update once. *)
Definition latency_added (seconds : spec_float) (s : OpStats) : OpStats :=
  mkOpStats (u64 (op_count s + 1)) (SFadd 53 1024 (total_latency s) seconds)
    (if SFltb (max_latency s) seconds then seconds else max_latency s).

Definition record_latency (operation : bytes) (seconds : spec_float) : SimpleMetrics -> SimpleMetrics :=
  set_operation_stats (fun st =>
    <[operation := latency_added seconds (at_key op_stats_new operation st)]> st).

Definition count_added (s : OpStats) : OpStats :=
  mkOpStats (u64 (op_count s + 1)) (total_latency s) (max_latency s).

Definition increment_operation_count (operation status : bytes) : SimpleMetrics -> SimpleMetrics :=
  let key := operation ++ str "_" ++ status in
  set_operation_stats (fun st => <[key := count_added (at_key op_stats_new key st)]> st).

(** The gauges and plain counters, one field each. *)
Inductive scalar :=
| buffer_usage | buffer_capacity | node_splits | hash_collisions | bytes_received | bytes_sent
| active_connections | errors_4xx | errors_5xx | keys_repaired | thread_count.

#[export] Instance scalar_eq_dec : EqDecision scalar.
Proof. solve_decision. Defined.

Definition read_scalar (f : scalar) (m : SimpleMetrics) : Z :=
  match f with
  | buffer_usage => buffer_usage_ m
  | buffer_capacity => buffer_capacity_ m
  | node_splits => node_splits_ m
  | hash_collisions => hash_collisions_ m
  | bytes_received => bytes_received_ m
  | bytes_sent => bytes_sent_ m
  | active_connections => active_connections_ m
  | errors_4xx => errors_4xx_ m
  | errors_5xx => errors_5xx_ m
  | keys_repaired => keys_repaired_ m
  | thread_count => thread_count_ m
  end.

Definition store_scalar (f : scalar) (v : Z) (m : SimpleMetrics) : SimpleMetrics :=
  let pick g old := if decide (f = g) then v else old in
  mkMetrics (operation_stats_ m) (pick buffer_usage (buffer_usage_ m))
    (pick buffer_capacity (buffer_capacity_ m)) (pick node_splits (node_splits_ m))
    (pick hash_collisions (hash_collisions_ m)) (pick bytes_received (bytes_received_ m))
    (pick bytes_sent (bytes_sent_ m)) (pick active_connections (active_connections_ m))
    (pick errors_4xx (errors_4xx_ m)) (pick errors_5xx (errors_5xx_ m)) (sync_stats_ m)
    (pick keys_repaired (keys_repaired_ m)) (lane_stats_ m) (pick thread_count (thread_count_ m)).

(** [fetch_add] on an unsigned 64-bit atomic. *)
Definition fetch_add (f : scalar) (n : Z) (m : SimpleMetrics) : SimpleMetrics :=
  store_scalar f (u64 (read_scalar f m + n)) m.

(** [fetch_add] and [fetch_sub] on an [int64_t] atomic. *)
Definition fetch_add_signed (f : scalar) (n : Z) (m : SimpleMetrics) : SimpleMetrics :=
  store_scalar f (i64 (read_scalar f m + n)) m.

Definition set_buffer_usage (used_bytes : Z) := store_scalar buffer_usage used_bytes.
Definition set_buffer_capacity (capacity_bytes : Z) := store_scalar buffer_capacity capacity_bytes.
Definition increment_node_splits := fetch_add node_splits 1.
Definition increment_hash_collisions := fetch_add hash_collisions 1.
Definition set_thread_count (count : Z) := store_scalar thread_count count.
Definition record_bytes_received (n : Z) := fetch_add bytes_received n.
Definition record_bytes_sent (n : Z) := fetch_add bytes_sent n.
Definition increment_active_connections := fetch_add_signed active_connections 1.
Definition decrement_active_connections := fetch_add_signed active_connections (-1).

Definition record_error (status_code : Z) (m : SimpleMetrics) : SimpleMetrics :=
  if 500 <=? status_code then fetch_add errors_5xx 1 m
  else if 400 <=? status_code then fetch_add errors_4xx 1 m
  else m.

Definition increment_sync_ops (type : bytes) (m : SimpleMetrics) : SimpleMetrics :=
  mkMetrics (operation_stats_ m) (buffer_usage_ m) (buffer_capacity_ m) (node_splits_ m)
    (hash_collisions_ m) (bytes_received_ m) (bytes_sent_ m) (active_connections_ m)
    (errors_4xx_ m) (errors_5xx_ m)
    (<[type := u64 (at_key 0 type (sync_stats_ m) + 1)]> (sync_stats_ m))
    (keys_repaired_ m) (lane_stats_ m) (thread_count_ m).

Definition increment_keys_repaired := fetch_add keys_repaired 1.

Definition increment_mesh_bytes (lane : bytes) (n : Z) (is_send : bool) (m : SimpleMetrics) :
    SimpleMetrics :=
  let s := at_key lane_stats_new lane (lane_stats_ m) in
  let s' := if is_send then mkLaneStats (u64 (lane_sent s + n)) (lane_recv s)
            else mkLaneStats (lane_sent s) (u64 (lane_recv s + n)) in
  mkMetrics (operation_stats_ m) (buffer_usage_ m) (buffer_capacity_ m) (node_splits_ m)
    (hash_collisions_ m) (bytes_received_ m) (bytes_sent_ m) (active_connections_ m)
    (errors_4xx_ m) (errors_5xx_ m) (sync_stats_ m) (keys_repaired_ m)
    (<[lane := s']> (lane_stats_ m)) (thread_count_ m).

(** The [int64_t] counter returned as an [int]. *)
Definition get_active_connections (m : SimpleMetrics) : Z := i32 (active_connections_ m).

(** ** Sequences of updates *)

Inductive metric_event :=
| MLatency (operation : bytes) (seconds : spec_float)
| MOperation (operation status : bytes)
| MError (status_code : Z)
| MReceived (n : Z)
| MSent (n : Z)
| MConnect
| MDisconnect
| MSync (type : bytes)
| MRepaired
| MMesh (lane : bytes) (n : Z) (is_send : bool)
| MSplit
| MCollision
| MBufferUsage (n : Z)
| MBufferCapacity (n : Z)
| MThreads (n : Z).

Definition record (ev : metric_event) : SimpleMetrics -> SimpleMetrics :=
  match ev with
  | MLatency o s => record_latency o s
  | MOperation o st => increment_operation_count o st
  | MError c => record_error c
  | MReceived n => record_bytes_received n
  | MSent n => record_bytes_sent n
  | MConnect => increment_active_connections
  | MDisconnect => decrement_active_connections
  | MSync t => increment_sync_ops t
  | MRepaired => increment_keys_repaired
  | MMesh l n s => increment_mesh_bytes l n s
  | MSplit => increment_node_splits
  | MCollision => increment_hash_collisions
  | MBufferUsage n => set_buffer_usage n
  | MBufferCapacity n => set_buffer_capacity n
  | MThreads n => set_thread_count n
  end.

Definition record_all (evs : list metric_event) (m : SimpleMetrics) : SimpleMetrics :=
  foldl (fun m ev => record ev m) m evs.

(** What an event adds to each counter. *)
Definition adds_op (key : bytes) (ev : metric_event) : Z :=
  match ev with
  | MLatency o _ => if decide (o = key) then 1 else 0
  | MOperation o st => if decide (o ++ str "_" ++ st = key) then 1 else 0
  | _ => 0
  end.

Definition adds_scalar (f : scalar) (ev : metric_event) : Z :=
  match f, ev with
  | errors_5xx, MError c => if 500 <=? c then 1 else 0
  | errors_4xx, MError c => if (400 <=? c) && (c <? 500) then 1 else 0
  | bytes_received, MReceived n => n
  | bytes_sent, MSent n => n
  | active_connections, MConnect => 1
  | active_connections, MDisconnect => -1
  | keys_repaired, MRepaired => 1
  | node_splits, MSplit => 1
  | hash_collisions, MCollision => 1
  | _, _ => 0
  end.

Definition adds_sync (key : bytes) (ev : metric_event) : Z :=
  match ev with MSync t => if decide (t = key) then 1 else 0 | _ => 0 end.

Definition adds_lane (key : bytes) (is_send : bool) (ev : metric_event) : Z :=
  match ev with
  | MMesh l n s => if decide (l = key) then (if eqb s is_send then n else 0) else 0
  | _ => 0
  end.

Definition total {A} (f : A -> Z) (l : list A) : Z := foldr (fun a n => f a + n) 0 l.

(** A counter of the unsigned kind, that is neither a gauge nor signed. *)
Definition unsigned_counter (f : scalar) : bool :=
  match f with
  | node_splits | hash_collisions | bytes_received | bytes_sent | errors_4xx | errors_5xx
  | keys_repaired => true
  | _ => false
  end.

(** ** Counters over a run *)

Lemma i64_add_l a b : i64 (i64 a + b) = i64 (a + b).
Proof.
  unfold i64. f_equal.
  replace ((a + 2 ^ 63) mod 2 ^ 64 - 2 ^ 63 + b + 2 ^ 63) with ((a + 2 ^ 63) mod 2 ^ 64 + b) by lia.
  rewrite Zplus_mod_idemp_l. f_equal. lia.
Qed.

(** A counter that every event advances by its share, wrapping with [w], holds the wrapped
    total at the end of a run. *)
Lemma fold_counter (w : Z -> Z) (g : SimpleMetrics -> Z) (adds : metric_event -> Z) evs m :
  (forall a b, w (w a + b) = w (a + b)) ->
  (forall ev m, w (g m) = g m -> g (record ev m) = w (g m + adds ev)) ->
  w (g m) = g m ->
  g (record_all evs m) = w (g m + total adds evs).
Proof.
  intros Hw Hstep. revert m. induction evs as [|ev evs IH]; intros m Hm; simpl.
  - by rewrite Z.add_0_r.
  - assert (w (g (record ev m)) = g (record ev m)) as Hm'.
    { rewrite (Hstep ev m Hm). pose proof (Hw (g m + adds ev) 0) as H0.
      by rewrite !Z.add_0_r in H0. }
    rewrite (IH _ Hm'), (Hstep ev m Hm), Hw. f_equal. lia.
Qed.

Lemma read_store_scalar f g v m :
  read_scalar f (store_scalar g v m) = if decide (g = f) then v else read_scalar f m.
Proof. by destruct f, g. Qed.

Lemma op_count_step key ev m :
  let g m := op_count (at_key op_stats_new key (operation_stats_ m)) in
  u64 (g m) = g m -> g (record ev m) = u64 (g m + adds_op key ev).
Proof.
  intros g Hm. unfold g in *.
  destruct ev; simpl; rewrite ?Z.add_0_r, ?Hm; try done.
  - unfold at_key. destruct (decide (operation = key)) as [->|Hne].
    + by rewrite lookup_insert_eq.
    + by rewrite lookup_insert_ne, Z.add_0_r.
  - unfold at_key. destruct (decide (_ = key)) as [->|Hne].
    + by rewrite lookup_insert_eq.
    + by rewrite lookup_insert_ne, Z.add_0_r.
  - unfold record_error. by repeat case_match.
Qed.

Lemma sync_step key ev m :
  let g m := at_key 0 key (sync_stats_ m) in
  u64 (g m) = g m -> g (record ev m) = u64 (g m + adds_sync key ev).
Proof.
  intros g Hm. unfold g in *.
  destruct ev; simpl; rewrite ?Z.add_0_r, ?Hm; try done.
  - unfold record_error. by repeat case_match.
  - unfold at_key. destruct (decide (type = key)) as [->|Hne].
    + by rewrite lookup_insert_eq.
    + by rewrite lookup_insert_ne, Z.add_0_r.
Qed.

Lemma lane_step key (is_send : bool) ev m :
  let g m := let s := at_key lane_stats_new key (lane_stats_ m) in
             if is_send then lane_sent s else lane_recv s in
  u64 (g m) = g m -> g (record ev m) = u64 (g m + adds_lane key is_send ev).
Proof.
  intros g Hm. unfold g in *.
  destruct ev; simpl; rewrite ?Z.add_0_r, ?Hm; try done.
  - unfold record_error. by repeat case_match.
  - unfold at_key. destruct (decide (lane = key)) as [->|Hne].
    + rewrite lookup_insert_eq. destruct is_send0, is_send; simpl in *; by rewrite ?Z.add_0_r, ?Hm.
    + by rewrite lookup_insert_ne, Z.add_0_r.
Qed.

Lemma scalar_step f ev m :
  unsigned_counter f = true ->
  u64 (read_scalar f m) = read_scalar f m ->
  read_scalar f (record ev m) = u64 (read_scalar f m + adds_scalar f ev).
Proof.
  intros Hf Hm. destruct ev; simpl; unfold record_error; 
    destruct f; try discriminate Hf; simpl in *; rewrite ?Z.add_0_r, ?Hm; try done;
    destruct (500 <=? status_code) eqn:H5; simpl; rewrite ?Z.add_0_r; try done;
    destruct (400 <=? status_code) eqn:H4; simpl; rewrite ?Z.add_0_r; try done;
    bool_prop; by (rewrite (proj2 (Z.ltb_lt _ _)) by lia) || (rewrite (proj2 (Z.ltb_ge _ _)) by lia; rewrite ?Z.add_0_r).
Qed.

Lemma connections_step ev m :
  i64 (active_connections_ m) = active_connections_ m ->
  active_connections_ (record ev m) = i64 (active_connections_ m + adds_scalar active_connections ev).
Proof.
  intros Hm. destruct ev; simpl; rewrite ?Z.add_0_r, ?Hm; try done.
  unfold record_error. by repeat case_match.
Qed.

(** The value an event sets a gauge to. *)
Definition sets_gauge (f : scalar) (ev : metric_event) : option Z :=
  match f, ev with
  | buffer_usage, MBufferUsage n | buffer_capacity, MBufferCapacity n | thread_count, MThreads n => Some n
  | _, _ => None
  end.

Definition gauge (f : scalar) : bool :=
  match f with buffer_usage | buffer_capacity | thread_count => true | _ => false end.

Definition last_set (f : scalar) (evs : list metric_event) : Z :=
  foldl (fun v ev => default v (sets_gauge f ev)) 0 evs.

Lemma gauge_last f evs : gauge f = true -> read_scalar f (record_all evs metrics_new) = last_set f evs.
Proof.
  intros Hf. unfold record_all, last_set. induction evs as [|ev evs IH] using rev_ind; [by destruct f|].
  rewrite !foldl_snoc, <- IH. destruct ev; try (by destruct f).
  cbn [record]. unfold record_error. destruct (500 <=? _); [by destruct f|]. destruct (400 <=? _); by destruct f.
Qed.

(** C38: over any run of updates from a fresh [SimpleMetrics], every counter holds the sum of
    what its events added, wrapped at its width: operation counts (latency samples and
    status counts of the same name together), error classes split at 400 and 500, byte and
    connection counts, sync operations by type and mesh bytes by lane and direction; and every
    gauge holds the value last set. *)
Theorem metrics_count_events evs :
  let m := record_all evs metrics_new in
  (forall key, op_count (at_key op_stats_new key (operation_stats_ m)) = u64 (total (adds_op key) evs)) /\
  (forall f, unsigned_counter f = true -> read_scalar f m = u64 (total (adds_scalar f) evs)) /\
  (forall f, gauge f = true -> read_scalar f m = last_set f evs) /\
  active_connections_ m = i64 (total (adds_scalar active_connections) evs) /\
  (forall key, at_key 0 key (sync_stats_ m) = u64 (total (adds_sync key) evs)) /\
  (forall key, lane_sent (at_key lane_stats_new key (lane_stats_ m)) = u64 (total (adds_lane key true) evs) /\
               lane_recv (at_key lane_stats_new key (lane_stats_ m)) = u64 (total (adds_lane key false) evs)).
Proof.
  intros m. unfold m. repeat split.
  - intros key. rewrite (fold_counter u64 _ (adds_op key) evs metrics_new u64_add_l (op_count_step key)); done.
  - intros f Hf.
    rewrite (fold_counter u64 (read_scalar f) (adds_scalar f) evs metrics_new u64_add_l); [by destruct f| |by destruct f].
    intros ev m'. by apply scalar_step.
  - intros f Hf. by apply gauge_last.
  - rewrite (fold_counter i64 _ _ evs metrics_new i64_add_l connections_step); done.
  - intros key. rewrite (fold_counter u64 _ (adds_sync key) evs metrics_new u64_add_l (sync_step key)); done.
  - pose proof (fold_counter u64 _ _ evs metrics_new u64_add_l (lane_step key true)) as H. by apply H.
  - pose proof (fold_counter u64 _ _ evs metrics_new u64_add_l (lane_step key false)) as H. by apply H.
Qed.

Lemma metrics_count_events_witness :
  let m := record_all [MError 404; MConnect; MError 503; MThreads 4; MError 499; MThreads 8] metrics_new in
  read_scalar errors_4xx m = 2 /\ read_scalar errors_5xx m = 1 /\ read_scalar thread_count m = 8.
Proof.
  destruct (metrics_count_events [MError 404; MConnect; MError 503; MThreads 4; MError 499; MThreads 8])
    as (_ & Hc & Hg & _).
  split; [exact (Hc errors_4xx eq_refl)|]. split; [exact (Hc errors_5xx eq_refl)|exact (Hg thread_count eq_refl)].
Defined.

(** ** Latencies *)

(** The order of doubles other than NaN, as a lexicographic one. *)
Definition sf_rank (x : spec_float) : Z * Z * Z :=
  match x with
  | S754_zero _ | S754_nan => (0, 0, 0)
  | S754_infinity s => (if s then -2 else 2, 0, 0)
  | S754_finite s m e => if s then (-1, - e, - Z.pos m) else (1, e, Z.pos m)
  end.

Definition rank_lt (a b : Z * Z * Z) : Prop :=
  a.1.1 < b.1.1 \/ a.1.1 = b.1.1 /\ (a.1.2 < b.1.2 \/ a.1.2 = b.1.2 /\ a.2 < b.2).

Lemma SFltb_rank a b :
  a <> S754_nan -> b <> S754_nan -> SFltb a b = true <-> rank_lt (sf_rank a) (sf_rank b).
Proof.
  intros Ha Hb. unfold SFltb, rank_lt.
  destruct a as [sa|sa| |sa ma ea], b as [sb|sb| |sb mb eb]; try done;
    try destruct sa; try destruct sb; simpl; try (split; [done|lia]); try (split; [lia|done]);
    change (Pos.compare_cont Eq ma mb) with (ma ?= mb)%positive.
  all: destruct (Z.compare_spec ea eb) as [->| |]; try (split; intros; first [done|lia]).
  all: destruct (Pos.compare_spec ma mb) as [->| |]; split; intros; first [done|lia].
Qed.

Lemma SFltb_trans a b c :
  a <> S754_nan -> b <> S754_nan -> c <> S754_nan ->
  SFltb a b = true -> SFltb b c = true -> SFltb a c = true.
Proof. intros Ha Hb Hc. rewrite !SFltb_rank by done. unfold rank_lt. lia. Qed.

(** The latency samples of one operation in a run. *)
Definition samples_of (operation : bytes) (evs : list metric_event) : list spec_float :=
  omap (fun ev => match ev with
                  | MLatency o s => if decide (o = operation) then Some s else None
                  | _ => None
                  end) evs.

Definition max_of (operation : bytes) (m : SimpleMetrics) : spec_float :=
  max_latency (at_key op_stats_new operation (operation_stats_ m)).

Lemma max_of_step operation ev m :
  max_of operation (record ev m) =
    match samples_of operation [ev] with
    | s :: _ => if SFltb (max_of operation m) s then s else max_of operation m
    | [] => max_of operation m
    end.
Proof.
  unfold max_of, samples_of. destruct ev; simpl; try done.
  - unfold at_key. destruct (decide (operation0 = operation)) as [->|]; simpl.
    + by rewrite lookup_insert_eq.
    + by rewrite lookup_insert_ne.
  - unfold at_key. destruct (decide (operation0 ++ str "_" ++ status = operation)) as [<-|Hne]; simpl in *.
    + by rewrite lookup_insert_eq.
    + by rewrite lookup_insert_ne.
  - unfold record_error. by repeat case_match.
Qed.

Lemma samples_of_snoc operation evs ev :
  samples_of operation (evs ++ [ev]) = samples_of operation evs ++ samples_of operation [ev].
Proof. unfold samples_of. apply omap_app. Qed.

Lemma max_latency_run operation evs :
  Forall (fun s => s <> S754_nan) (samples_of operation evs) ->
  let mx := max_of operation (record_all evs metrics_new) in
  mx ∈ S754_zero false :: samples_of operation evs /\ mx <> S754_nan /\
  Forall (fun s => SFltb mx s = false) (samples_of operation evs).
Proof.
  induction evs as [|ev evs IH] using rev_ind; intros Hnan; cbv zeta.
  { simpl. split_and!; [constructor|done|constructor]. }
  rewrite samples_of_snoc in Hnan |- *. apply Forall_app in Hnan as [Hnan Hev].
  destruct (IH Hnan) as (Hin & Hm & Hmax).
  unfold record_all. rewrite foldl_app. cbn [foldl]. fold (record_all evs metrics_new).
  rewrite max_of_step.
  destruct (samples_of operation [ev]) as [|s l] eqn:Hs; [by rewrite !app_nil_r|].
  assert (l = []) as ->.
  { unfold samples_of in Hs. destruct ev; simpl in Hs; try discriminate. case_decide; congruence. }
  apply Forall_cons in Hev as [Hsn _].
  set (mx := max_of operation (record_all evs metrics_new)) in *.
  assert (SFltb s s = false) as Hirr.
  { destruct (SFltb s s) eqn:He; [|done]. rewrite SFltb_rank in He by done. unfold rank_lt in He. lia. }
  destruct (SFltb mx s) eqn:Hlt; split_and!; try done.
  - set_solver.
  - apply Forall_app. split; [|by repeat constructor].
    eapply Forall_impl; [apply Forall_and; split; [apply Hmax|apply Hnan]|].
    intros r [Hr Hrn]. destruct (SFltb s r) eqn:Hsr; [|done].
    by rewrite (SFltb_trans mx s r) in Hr.
  - set_solver.
  - apply Forall_app. split; [done|by repeat constructor].
Qed.

(** The maximum latency reported for an operation is one of its recorded samples (or
    the initial zero) and no recorded sample exceeds it, provided no sample is a NaN. *)
Theorem max_latency_is_maximum operation evs :
  Forall (fun s => s <> S754_nan) (samples_of operation evs) ->
  let mx := max_of operation (record_all evs metrics_new) in
  mx ∈ S754_zero false :: samples_of operation evs /\
  Forall (fun s => SFltb mx s = false) (samples_of operation evs).
Proof.
  intros Hnan. cbv zeta. by destruct (max_latency_run operation evs Hnan) as (? & _ & ?).
Qed.

(** A run with two latencies of one operation, 0.5 and 0.25 seconds. *)
Definition sample_run : list metric_event :=
  [MLatency (str "put") (S754_finite false 1 (-1)); MError 404;
   MLatency (str "put") (S754_finite false 1 (-2)); MMesh (str "heavy") 100 true].

Lemma max_latency_is_maximum_witness :
  Forall (fun s => s <> S754_nan) (samples_of (str "put") sample_run) /\
  max_of (str "put") (record_all sample_run metrics_new) = S754_finite false 1 (-1) /\
  Forall (fun s => SFltb (max_of (str "put") (record_all sample_run metrics_new)) s = false)
    (samples_of (str "put") sample_run).
Proof.
  assert (Forall (fun s => s <> S754_nan) (samples_of (str "put") sample_run)) as H.
  { repeat constructor; discriminate. }
  split; [done|]. split; [vm_compute; reflexivity|].
  exact (proj2 (max_latency_is_maximum (str "put") sample_run H)).
Defined.
