(* ===== verification/SyncMetrics.v ===== *)
(** * The metrics of anti-entropy (src/engine/sync_manager.hpp)

    What the handlers of [SyncManager] report to the metrics object [g_metrics] points to: the
    exchanges a node starts, the divergent buckets it finds and the keys it counts as repaired.
    The events are recorded in the order of the calls; without a metrics object nothing is. *)
From S2P Require Import Prelude CxxString Clock Extern Merkle Wal OrdMap Blob Credential.
From S2P Require Import KeyBuilder ReplicationLog Samples Store StoreSpec Engine EngineProps.
From S2P Require Import Lww Scan Sync SyncProps Repair Metrics.

Section SyncMetrics.
Context {xxh : XXH3} {l3 : Lite3} {zs : Zstd} {srt : StdSort}.
Context (beyond : bytes) (wild : Z -> Z -> Z) (overflow : Z) (stale : bytes -> bytes).
Context (node_id_ : Z).

Definition DIVERGENT_BUCKET : bytes := str "divergent_bucket".

(** ** Events of the handlers *)

Definition sync_init_events : list metric_event := [MSync (str "sync_init")].

Definition rep_node_events (buf : bytes) (e : Engine) : list metric_event :=
  if (length buf <? 13)%nat then []
  else
    let level := byte.unsigned (byte_at buf 5) in
    let parent_idx := read32 buf 9 in
    let memory := buf ++ beyond in
    concat ((fun i : nat =>
      let their_h := read64 memory (13 + i * 8) in
      let my_h := get_merkle_node wild level (child_index parent_idx i) e in
      if my_h =? their_h then []
      else if level =? 4 then [MSync DIVERGENT_BUCKET]
      else []) <$> seq 0 16).

(** An exception of [apply_mutation] skips the report. *)
Definition put_val_events (buf : bytes) (e : Engine) : list metric_event :=
  match put_val_fields buf with
  | None => []
  | Some (key, meta, val) =>
      let parsed := parse_meta overflow meta in
      match apply_mutation stale (mkMutation (ts parsed) key val (is_tombstone parsed)) e with
      | Some (Ok _, _) => [MRepaired]
      | _ => []
      end
  end.

Definition handler_events (payload : bytes) (e : Engine) : list metric_event :=
  if (length payload <? 5)%nat then []
  else
    let type := byte_at payload 0 in
    if decide (type = msgtype_byte SYNC_REP_NODE) then rep_node_events payload e
    else if decide (type = msgtype_byte SYNC_PUT_VAL) then put_val_events payload e
    else [].

(** [handle_message] with the object behind [g_metrics]. *)
Definition handle_reporting (payload : bytes) (g_metrics : option SimpleMetrics) (e : Engine) :
    option (result (list Msg) * Engine) * option SimpleMetrics :=
  (handle_message beyond wild overflow stale node_id_ payload e, record_all (handler_events payload e) <$> g_metrics).

(** ** What the counters mean *)

Definition asks_bucket (m : Msg) : bool := bool_decide (byte_at (msg_body m) 0 = msgtype_byte SYNC_REQ_BUCKET).

Definition requests (ms : list Msg) : Z := zlen (List.filter asks_bucket ms).

Lemma requests_app l1 l2 : requests (l1 ++ l2) = requests l1 + requests l2.
Proof. unfold requests, zlen. rewrite List.filter_app, length_app. lia. Qed.

Lemma total_app {B} (f : B -> Z) l1 l2 : total f (l1 ++ l2) = total f l1 + total f l2.
Proof. unfold total. induction l1 as [|x l1 IH]; cbn [foldr app]; [lia|]. rewrite IH. lia. Qed.

Lemma requests_total {B} (f : B -> list Msg) (g : B -> list metric_event) l :
  (forall x, requests (f x) = total (adds_sync DIVERGENT_BUCKET) (g x)) ->
  requests (concat (f <$> l)) = total (adds_sync DIVERGENT_BUCKET) (concat (g <$> l)).
Proof.
  intros Hf. induction l as [|x l IH]; [done|]. cbn [fmap list_fmap concat]. by rewrite requests_app, total_app, Hf, IH.
Qed.

Lemma rep_bucket_no_requests fuel from e : forall count rest, requests (rep_bucket_loop node_id_ fuel count rest from e) = 0.
Proof.
  induction fuel as [|fuel IH]; intros count rest; cbn [rep_bucket_loop]; [done|].
  destruct (count <=? 0); [done|]. destruct (length rest <? 10)%nat; [done|].
  destruct (length rest <? _)%nat; [done|]. rewrite requests_app, IH. by destruct (_ =? _).
Qed.

Lemma divergent_events payload e ms e' :
  handle_message beyond wild overflow stale node_id_ payload e = Some (Ok ms, e') ->
  total (adds_sync DIVERGENT_BUCKET) (handler_events payload e) = requests ms.
Proof.
  unfold handle_message, handler_events. destruct (length payload <? 5)%nat; [by intros [= <- _]|].
  destruct (decide (byte_at payload 0 = msgtype_byte SYNC_REP_NODE)) as [Ht|Hn3].
  { rewrite Ht, !decide_False by done. unfold on_rep_node, rep_node_events, gets.
    destruct (length payload <? 13)%nat; [by intros [= <- _]|].
    set (replies := concat _). intros [= <- _]. symmetry. apply requests_total.
    intros i. destruct (_ =? read64 _ _); [done|]. by destruct (_ =? 4). }
  destruct (decide (byte_at payload 0 = msgtype_byte SYNC_PUT_VAL)) as [Ht|Hn7].
  { rewrite Ht, !decide_False by done. unfold on_put_val, put_val_events, bind.
    destruct (put_val_fields payload) as [[[key meta] val]|]; [|by intros [= <- _]].
    destruct (apply_mutation _ _ _) as [[[[]|x] e1]|]; [by intros [= <- _]..|done]. }
  unfold on_sync_init, on_req_node, on_req_bucket, on_rep_bucket, on_get_val, bind, gets, ret.
  repeat case_decide.
  - destruct (length payload <? 13)%nat; [by intros [= <- _]|]. unfold get_merkle_root_hash.
    destruct (get_root_hash _) as [h t]. destruct (h =? _); by intros [= <- _].
  - destruct (length payload <? 10)%nat; by intros [= <- _].
  - destruct (length payload <? 9)%nat; [by intros [= <- _]|].
    destruct (get_bucket_keys _ _) as [[[l|x] e1]|]; [by intros [= <- _]..|done].
  - destruct (length payload <? 13)%nat; [by intros [= <- _]|].
    set (replies := rep_bucket_loop _ _ _ _ _ _). intros [= <- _]. symmetry. apply rep_bucket_no_requests.
  - destruct (length payload <? 5)%nat; [by intros [= <- _]|]. destruct (get _ _ _); by intros [= <- _].
  - by intros [= <- _].
Qed.

(** The counter [divergent_bucket] counts the buckets that are asked for. *)
Theorem divergent_buckets_are_requested payload e ms e' g g' :
  u64 (at_key 0 DIVERGENT_BUCKET (sync_stats_ g)) = at_key 0 DIVERGENT_BUCKET (sync_stats_ g) ->
  handle_reporting payload (Some g) e = (Some (Ok ms, e'), Some g') ->
  at_key 0 DIVERGENT_BUCKET (sync_stats_ g') = u64 (at_key 0 DIVERGENT_BUCKET (sync_stats_ g) + requests ms).
Proof.
  intros Hg. unfold handle_reporting. cbn [fmap option_fmap option_map]. intros [= Hh <-].
  rewrite <- (divergent_events payload e ms e' Hh).
  apply (fold_counter u64 (fun m => at_key 0 DIVERGENT_BUCKET (sync_stats_ m))); [apply u64_add_l| |done].
  intros ev m. apply sync_step.
Qed.

(** A key is counted as repaired when its value arrives, also when the mutation is rejected. *)
Context {xxh_ok : XXH3Spec} {l3_ok : Lite3Spec} {zs_ok : ZstdSpec} {srt_ok : StdSortSpec}.

Theorem rejected_counts_as_repaired b w e m ms :
  implements (store e) m -> kv_inv ms m -> Forall mut_ok ms -> transferable w ->
  ts_leb (m_timestamp w) (acc_ts (winner (m_key w) ms)) = true ->
  handle_message beyond wild overflow stale node_id_ (msg_body (value_msg b node_id_ w)) e = Some (Ok [], e) /\
  handler_events (msg_body (value_msg b node_id_ w)) e = [MRepaired].
Proof.
  intros Him Hkv Hms Hw Hts. pose proof (moved_ok w Hw) as Hmo.
  assert (apply_mutation stale (moved w) e = Some (Ok tt, e)) as E.
  { unfold apply_mutation, bind, gets. rewrite (get_implements _ _ _ _ Him).
    change (may_read (check_permission ADMIN_UID _ _)) with true. cbn [moved m_key]. rewrite (lww_local_ts ms m (moved w)) by done.
    cbn [lift ret moved m_timestamp m_key]. by rewrite Hts. }
  split; [by rewrite handle_value, E|]. pose proof (tr_ok _ Hw) as Hwo.
  destruct (meta_doc_fields (m_timestamp w) (m_is_delete w) (mut_ok_ts _ Hwo)) as (d & Hd & Hf).
  unfold handler_events, value_msg. cbn [msg_body]. unfold mut_meta. rewrite Hd. cbn [from_option id].
  destruct (_ <? 5)%nat eqn:Hl; [exfalso; by cbn in Hl|].
  change (byte_at (put_val_body b (m_key w) d (mut_doc w)) 0) with (msgtype_byte SYNC_PUT_VAL).
  rewrite decide_False, decide_True by done. unfold put_val_events.
  rewrite put_val_fields_body by (by apply data_key_short, (mo_key _ Hwo) || by apply (tr_meta _ Hw)).
  rewrite (parse_meta_fields overflow d _ _ Hf (mut_ok_ts _ Hwo) (tr_wall _ Hw)). cbn [ts is_tombstone].
  change (mkMutation (m_timestamp w) (m_key w) (mut_doc w) (m_is_delete w)) with (moved w). by rewrite E.
Qed.

End SyncMetrics.
