(* ===== verification/CxxStream.v ===== *)
(** * Formatted output of std::ostream

    What the renderings of the metrics use of iostreams: integers, fields padded on the right
    ([std::left], [std::setw]), and doubles in the fixed ([std::fixed], six decimals) and in
    the default format (six significant digits).  Doubles are exact binary fractions and are
    rounded to the nearest decimal, ties to even, as the C library does. *)
From Stdlib Require Import SpecFloat.
From S2P Require Import Prelude CxxString.

(** A C++ string literal, with a backquote for a double quote and a tilde for a newline. *)
Definition lit (s : String.string) : bytes :=
  map (fun b => if decide (b = Byte.x60) then Byte.x22 else if decide (b = Byte.x7e) then Byte.x0a else b) (str s).
Arguments lit s%_string_scope.

Definition setw_left (width : nat) (s : bytes) : bytes := s ++ replicate (width - length s) Byte.x20.

(** The decimal digits of a number of any size. *)
Definition digits (n : Z) : bytes := digits_acc (S (Z.to_nat (Z.log2 n))) n [].

(** The last [k] decimal digits, with leading zeros. *)
Fixpoint decimals (k : nat) (n : Z) (acc : bytes) : bytes :=
  match k with O => acc | S k => decimals k (n / 10) (digit_byte (n mod 10) :: acc) end.

(** [num / den] rounded to the nearest integer, ties to even. *)
Definition round_div (num den : Z) : Z :=
  let q := num / den in
  let r := num mod den in
  if 2 * r <? den then q else if den <? 2 * r then q + 1 else if Z.even q then q else q + 1.

(** The positive double [m * 2 ^ e] as a fraction. *)
Definition sf_num (m : positive) (e : Z) : Z := Z.pos m * 2 ^ Z.max e 0.
Definition sf_den (e : Z) : Z := 2 ^ Z.max (- e) 0.

Definition is_finite (x : spec_float) : bool :=
  match x with S754_zero _ | S754_finite _ _ _ => true | _ => false end.

Definition sign_text (neg : bool) : bytes := if neg then str "-" else [].

Section Doubles.
(** The text of a NaN depends on its sign bit, which [spec_float] does not keep. *)
Context (nan_text : bytes).

(** [std::fixed << std::setprecision(6)]. *)
Definition fixed_text (x : spec_float) : bytes :=
  match x with
  | S754_zero s => sign_text s ++ str "0.000000"
  | S754_infinity s => sign_text s ++ str "inf"
  | S754_nan => nan_text
  | S754_finite s m e =>
      let n := round_div (sf_num m e * 10 ^ 6) (sf_den e) in
      sign_text s ++ digits (n / 10 ^ 6) ++ str "." ++ decimals 6 n []
  end.

(** The decimal exponent of [num / den]: divide by ten while it is ten or more, multiply by ten
    while it is less than one.  Doubles need at most 324 rounds. *)
Fixpoint exponent_down (fuel : nat) (x num den : Z) : Z :=
  match fuel with
  | O => x
  | S fuel => if num <? 10 * den then x else exponent_down fuel (x + 1) num (10 * den)
  end.

Fixpoint exponent_up (fuel : nat) (x num den : Z) : Z :=
  match fuel with
  | O => x
  | S fuel => if den <=? num then x else exponent_up fuel (x - 1) (10 * num) den
  end.

Definition decimal_exponent (num den : Z) : Z :=
  if den <=? num then exponent_down 350 0 num den else exponent_up 350 0 num den.

(** Six significant digits [d] and an exponent [x]: the value is [d * 10 ^ (x - 5)]. *)
Definition six_digits (num den : Z) : Z * Z :=
  let x := decimal_exponent num den in
  let d := if x <=? 5 then round_div (num * 10 ^ (5 - x)) den else round_div num (den * 10 ^ (x - 5)) in
  if d =? 10 ^ 6 then (10 ^ 5, x + 1) else (d, x).

(** The decimals after the point without trailing zeros, and no point without decimals. *)
Fixpoint strip_zeros (ds : bytes) : bytes :=
  match ds with
  | [] => []
  | b :: ds => match strip_zeros ds with [] => if decide (b = Byte.x30) then [] else [b] | r => b :: r end
  end.

Definition fraction_text (ds : bytes) : bytes :=
  match strip_zeros ds with [] => [] | r => str "." ++ r end.

Definition exponent_text (x : Z) : bytes :=
  str "e" ++ (if x <? 0 then str "-" else str "+") ++ (if Z.abs x <? 10 then str "0" else []) ++ digits (Z.abs x).

(** The default format. *)
Definition general_text (x : spec_float) : bytes :=
  match x with
  | S754_zero s => sign_text s ++ str "0"
  | S754_infinity s => sign_text s ++ str "inf"
  | S754_nan => nan_text
  | S754_finite s m e =>
      let '(d, x) := six_digits (sf_num m e) (sf_den e) in
      sign_text s ++
      if (-4 <=? x) && (x <? 6) then
        digits (d / 10 ^ (5 - x)) ++ fraction_text (decimals (Z.to_nat (5 - x)) d [])
      else digits (d / 10 ^ 5) ++ fraction_text (decimals 5 d []) ++ exponent_text x
  end.

End Doubles.

(** Some doubles: 0.1, 0.00001, 123456789, 0.9999999, 100000, 1e300. *)
Example general_text_examples :
  map (general_text []) [S754_finite false 7205759403792794 (-56); S754_finite false 5902958103587057 (-69);
    S754_finite false 123456789 0; S754_finite false 9007198354021067 (-53); S754_finite false 100000 0;
    S754_finite false 6724873095247260 944] =
  [str "0.1"; str "1e-05"; str "1.23457e+08"; str "1"; str "100000"; str "1e+300"].
Proof. vm_compute. reflexivity. Qed.

Example fixed_text_examples :
  map (fixed_text []) [S754_finite false 7205759403792794 (-56); S754_finite true 5902958103587057 (-69);
    S754_finite false 123456789 0; S754_finite false 1 (-7)] =
  [str "0.100000"; str "-0.000010"; str "123456789.000000"; str "0.007812"].
Proof. vm_compute. reflexivity. Qed.
