(* ===== verification/Json.v ===== *)
(** * A reader for JSON objects of numbers

    A reference for what [SimpleMetrics::get_json] prints: the grammar of RFC 8259 for objects
    and numbers, with strings that have no escapes.  Numbers are kept as their text. *)
From Stdlib Require Import SpecFloat.
From S2P Require Import Prelude CxxString CxxStream.

Inductive json := JNum (text : bytes) | JObj (members : list (bytes * json)).

Definition json_ws (b : Byte.byte) : bool :=
  bool_decide (b = Byte.x20) || bool_decide (b = Byte.x09) || bool_decide (b = Byte.x0a) || bool_decide (b = Byte.x0d).

Fixpoint skip_ws (s : bytes) : bytes :=
  match s with b :: s' => if json_ws b then skip_ws s' else s | [] => [] end.

(** The characters of a string, after the opening quote. *)
Definition plain_byte (b : Byte.byte) : bool :=
  (32 <=? byte.unsigned b) && negb (bool_decide (b = Byte.x22)) && negb (bool_decide (b = Byte.x5c)).

Fixpoint read_string (s : bytes) : option (bytes * bytes) :=
  match s with
  | [] => None
  | b :: s =>
      if decide (b = Byte.x22) then Some ([], s)
      else if plain_byte b then '(r, s) ← read_string s; Some (b :: r, s) else None
  end.

Definition is_digit (b : Byte.byte) : bool := (48 <=? byte.unsigned b) && (byte.unsigned b <=? 57).

Fixpoint span_digits (s : bytes) : bytes * bytes :=
  match s with
  | b :: s' => if is_digit b then let '(d, r) := span_digits s' in (b :: d, r) else ([], s)
  | [] => ([], [])
  end.

Definition read_sign (s : bytes) : bytes * bytes :=
  match s with b :: s' => if decide (b = Byte.x2d) then ([b], s') else ([], s) | [] => ([], []) end.

(** No leading zeros. *)
Definition read_int (s : bytes) : option (bytes * bytes) :=
  match span_digits s with
  | ([], _) => None
  | ([b], r) => Some ([b], r)
  | (b :: d, r) => if decide (b = Byte.x30) then None else Some (b :: d, r)
  end.

Definition read_frac (s : bytes) : option (bytes * bytes) :=
  match s with
  | b :: s' =>
      if decide (b = Byte.x2e)
      then match span_digits s' with ([], _) => None | (d, r) => Some (b :: d, r) end
      else Some ([], s)
  | [] => Some ([], [])
  end.

Definition exponent_mark (b : Byte.byte) : bool := bool_decide (b = Byte.x65) || bool_decide (b = Byte.x45).
Definition exponent_sign (s : bytes) : bytes * bytes :=
  match s with
  | b :: s' => if decide (b = Byte.x2d \/ b = Byte.x2b) then ([b], s') else ([], s)
  | [] => ([], [])
  end.

Definition read_exp (s : bytes) : option (bytes * bytes) :=
  match s with
  | b :: s' =>
      if exponent_mark b
      then let '(sg, s') := exponent_sign s' in
           match span_digits s' with ([], _) => None | (d, r) => Some (b :: sg ++ d, r) end
      else Some ([], s)
  | [] => Some ([], [])
  end.

Definition read_number (s : bytes) : option (bytes * bytes) :=
  let '(sg, s) := read_sign s in
  '(i, s) ← read_int s;
  '(f, s) ← read_frac s;
  '(e, s) ← read_exp s;
  Some (sg ++ i ++ f ++ e, s).

(** The given character after white space. *)
Definition expect (c : Byte.byte) (s : bytes) : option bytes :=
  match skip_ws s with b :: s' => if decide (b = c) then Some s' else None | [] => None end.

#[global] Arguments expect : simpl never.

Fixpoint read_value (fuel : nat) (s : bytes) : option (json * bytes) :=
  match fuel with
  | O => None
  | S fuel =>
      match expect Byte.x7b s with
      | Some s =>
          match expect Byte.x7d s with
          | Some s => Some (JObj [], s)
          | None => '(l, s) ← read_members fuel s; Some (JObj l, s)
          end
      | None => '(t, s) ← read_number (skip_ws s); Some (JNum t, s)
      end
  end
with read_members (fuel : nat) (s : bytes) : option (list (bytes * json) * bytes) :=
  match fuel with
  | O => None
  | S fuel =>
      s ← expect Byte.x22 s;
      '(k, s) ← read_string s;
      s ← expect Byte.x3a s;
      '(v, s) ← read_value fuel s;
      match expect Byte.x2c s with
      | Some s => '(l, s) ← read_members fuel s; Some ((k, v) :: l, s)
      | None => s ← expect Byte.x7d s; Some ([(k, v)], s)
      end
  end.

(** A whole text. *)
Definition parse_json (s : bytes) : option json :=
  match read_value (length s) s with
  | Some (v, r) => match skip_ws r with [] => Some v | _ => None end
  | None => None
  end.

Example parse_json_example :
  parse_json (lit "{ `a`: 1, `b`: {}, `c`: { `d`: -0.5e+07 }~}") =
    Some (JObj [(str "a", JNum (str "1")); (str "b", JObj []); (str "c", JObj [(str "d", JNum (str "-0.5e+07"))])]) /\
  parse_json (lit "{ `a`: 01 }") = None /\ parse_json (lit "{ `a`: inf }") = None /\ parse_json (lit "{ `a`: 1, }") = None.
Proof. vm_compute. done. Qed.

(** ** White space and punctuation *)

Definition blank (w : bytes) : Prop := forallb json_ws w = true.

Lemma skip_blank w s : blank w -> skip_ws (w ++ s) = skip_ws s.
Proof. induction w as [|b w IH]; simpl; [done|]. intros [Hb Hw]%andb_prop. by rewrite Hb, IH. Qed.

Lemma expect_blank c w s : blank w -> expect c (w ++ s) = expect c s.
Proof. intros Hw. unfold expect. by rewrite skip_blank. Qed.

Lemma expect_here c s : json_ws c = false -> expect c (c :: s) = Some s.
Proof. intros Hc. unfold expect. simpl. rewrite Hc. by rewrite decide_True. Qed.

Lemma expect_other c b s : json_ws b = false -> b <> c -> expect c (b :: s) = None.
Proof. intros Hb Hne. unfold expect. simpl. rewrite Hb. by rewrite decide_False. Qed.

Lemma read_string_plain k s : forallb plain_byte k = true -> read_string (k ++ Byte.x22 :: s) = Some (k, s).
Proof.
  induction k as [|b k IH]; simpl; [done|]. intros [Hb Hk]%andb_prop. rewrite decide_False.
  - by rewrite Hb, IH.
  - intros ->. done.
Qed.

(** ** Numbers *)

(** What follows a number does not continue it. *)
Definition ends (rest : bytes) : Prop :=
  match rest with
  | [] => True
  | b :: _ => is_digit b = false /\ b <> Byte.x2e /\ exponent_mark b = false
  end.

Definition all_digits (d : bytes) : Prop := forallb is_digit d = true.
Definition no_digit (rest : bytes) : Prop := match rest with [] => True | b :: _ => is_digit b = false end.

Lemma ends_no_digit rest : ends rest -> no_digit rest.
Proof. destruct rest; simpl; tauto. Qed.

Lemma span_digits_app d rest : all_digits d -> no_digit rest -> span_digits (d ++ rest) = (d, rest).
Proof.
  unfold all_digits. induction d as [|b d IH]; simpl.
  - intros _ Hr. destruct rest as [|b rest]; [done|]. simpl in *. by rewrite Hr.
  - intros [Hb Hd]%andb_prop Hr. by rewrite Hb, IH.
Qed.

(** The parts of a number. *)
Definition int_token (i : bytes) : Prop :=
  all_digits i /\ match i with [] => False | [_] => True | b :: _ => b <> Byte.x30 end.
Definition frac_token (f : bytes) : Prop :=
  match f with [] => True | b :: d => b = Byte.x2e /\ d <> [] /\ all_digits d end.
Definition exp_token (e : bytes) : Prop :=
  match e with [] => True | b :: t => exponent_mark b = true /\ exists sg d, t = sg :: d /\
    (sg = Byte.x2d \/ sg = Byte.x2b) /\ d <> [] /\ all_digits d end.

Lemma read_int_token i rest : int_token i -> no_digit rest -> read_int (i ++ rest) = Some (i, rest).
Proof.
  intros [Hd Hi] Hr. unfold read_int. rewrite span_digits_app by done.
  destruct i as [|b [|b' i]]; [done|done|]. by rewrite decide_False.
Qed.

Lemma read_frac_token f rest :
  frac_token f -> no_digit rest -> (f = [] -> match rest with b :: _ => b <> Byte.x2e | [] => True end) ->
  read_frac (f ++ rest) = Some (f, rest).
Proof.
  intros Hf Hr Hn. destruct f as [|b d]; simpl.
  - destruct rest as [|b rest]; [done|]. simpl. rewrite decide_False; [done|]. by apply Hn.
  - destruct Hf as (-> & Hne & Hd). rewrite decide_True by done. rewrite span_digits_app by done. by destruct d.
Qed.

Lemma read_exp_token e rest : exp_token e -> ends rest -> read_exp (e ++ rest) = Some (e, rest).
Proof.
  intros He Hr. destruct e as [|b t]; simpl.
  - destruct rest as [|b rest]; [done|]. simpl. destruct Hr as (_ & _ & Hr). by rewrite Hr.
  - destruct He as (Hb & sg & d & -> & Hsg & Hne & Hd). rewrite Hb. simpl. rewrite decide_True by done.
    rewrite span_digits_app by (done || by apply ends_no_digit). by destruct d.
Qed.

Definition number_token (t : bytes) : Prop :=
  exists sg i f e, t = sg ++ i ++ f ++ e /\ (sg = [] \/ sg = [Byte.x2d]) /\ int_token i /\ frac_token f /\ exp_token e.

Lemma read_number_token t rest : number_token t -> ends rest -> read_number (t ++ rest) = Some (t, rest).
Proof.
  intros (sg & i & f & e & -> & Hsg & Hi & Hf & He) Hr.
  assert (no_digit (e ++ rest) /\ match e ++ rest with b :: _ => b <> Byte.x2e | [] => True end) as [Hn1 Hn2].
  { destruct e as [|b t]; simpl; [destruct rest; [done|]; simpl in *; tauto|].
    destruct He as [Hb _]. unfold exponent_mark in Hb. destruct b; try discriminate Hb; split; done. }
  assert (no_digit (f ++ e ++ rest)) as Hn0.
  { destruct f as [|b d]; [done|]. destruct Hf as (-> & _). done. }
  assert (read_sign (sg ++ i ++ f ++ e ++ rest) = (sg, i ++ f ++ e ++ rest)) as Hs.
  { destruct Hsg as [-> | ->]; simpl; [|done]. destruct Hi as [Hd Hi]. destruct i as [|b i]; [done|]. simpl.
    rewrite decide_False; [done|]. intros ->. simpl in Hd. done. }
  unfold read_number. rewrite <- !app_assoc. rewrite Hs. simpl. rewrite read_int_token by done. simpl.
  rewrite read_frac_token by done. simpl. rewrite read_exp_token by done. done.
Qed.

Lemma number_token_head t : number_token t -> exists b t', t = b :: t' /\ json_ws b = false /\ b <> Byte.x7b.
Proof.
  intros (sg & i & f & e & -> & [-> | ->] & [Hd Hi] & _); [|by exists Byte.x2d, (i ++ f ++ e)].
  destruct i as [|b i]; [done|]. exists b, (i ++ f ++ e). split; [done|]. simpl in Hd. apply andb_prop in Hd as [Hb _].
  destruct b; try discriminate Hb; done.
Qed.

(** ** Texts that are read as a value *)

Definition reads (v : json) (t : bytes) : Prop :=
  forall fuel rest, (length t <= fuel)%nat -> ends rest -> read_value fuel (t ++ rest) = Some (v, rest).

Definition reads_members (l : list (bytes * json)) (t : bytes) : Prop :=
  forall fuel rest, (length t <= fuel)%nat ->
    expect Byte.x7d (t ++ rest) = None /\ read_members fuel (t ++ rest) = Some (l, rest).

Lemma read_value_blank fuel w s : blank w -> read_value fuel (w ++ s) = read_value fuel s.
Proof. intros Hw. destruct fuel; [done|]. simpl. by rewrite expect_blank, skip_blank. Qed.

Lemma reads_blank w v t : blank w -> reads v t -> reads v (w ++ t).
Proof.
  intros Hw Ht fuel rest Hl Hr. rewrite <- app_assoc, read_value_blank by done. apply Ht; [|done].
  rewrite length_app in Hl. lia.
Qed.

Lemma reads_number t : number_token t -> reads (JNum t) t.
Proof.
  intros Ht fuel rest Hl Hr. destruct (number_token_head t Ht) as (b & t' & E & Hb & Hne).
  destruct fuel as [|fuel]; [rewrite E in Hl; simpl in Hl; lia|]. simpl.
  assert (expect Byte.x7b (t ++ rest) = None) as -> by (rewrite E; by apply expect_other).
  assert (skip_ws (t ++ rest) = t ++ rest) as -> by (rewrite E; simpl; by rewrite Hb).
  by rewrite read_number_token.
Qed.

Lemma reads_empty w : blank w -> reads (JObj []) (Byte.x7b :: w ++ [Byte.x7d]).
Proof.
  intros Hw fuel rest Hl _. destruct fuel as [|fuel]; [simpl in Hl; lia|]. simpl. rewrite ?expect_here by done.
  rewrite <- app_assoc, expect_blank by done. by rewrite ?expect_here.
Qed.

Lemma reads_object l t : reads_members l t -> reads (JObj l) (Byte.x7b :: t).
Proof.
  intros Ht fuel rest Hl _. destruct fuel as [|fuel]; [simpl in Hl; lia|]. simpl. rewrite ?expect_here by done.
  destruct (Ht fuel rest) as [-> ->]; [simpl in Hl; lia|]. done.
Qed.

(** One member: white space, a quoted name, a colon, a value and white space. *)
Definition member_text (w k t w' : bytes) : bytes := w ++ Byte.x22 :: k ++ Byte.x22 :: Byte.x3a :: t ++ w'.

Lemma read_member fuel w k v t w' b rest :
  blank w -> forallb plain_byte k = true -> reads v t -> blank w' -> b = Byte.x2c \/ b = Byte.x7d ->
  (length t <= fuel)%nat ->
  expect Byte.x7d (member_text w k t w' ++ b :: rest) = None /\
  read_members (S fuel) (member_text w k t w' ++ b :: rest) =
    if decide (b = Byte.x2c) then '(l, s) ← read_members fuel rest; Some ((k, v) :: l, s) else Some ([(k, v)], rest).
Proof.
  intros Hw Hk Ht Hw' Hb Hl. unfold member_text. rewrite <- app_assoc, <- app_comm_cons, <- app_assoc. simpl.
  rewrite !expect_blank by done. split; [by apply expect_other|].
  rewrite ?expect_here by done. simpl. rewrite read_string_plain by done. simpl. rewrite ?expect_here by done. simpl.
  rewrite <- app_assoc, Ht; [|done|].
  2: { destruct w' as [|c w'']; simpl; [by destruct Hb as [-> | ->]|]. simpl in Hw'. apply andb_prop in Hw' as [Hc _].
    destruct c; try discriminate Hc; done. }
  simpl. rewrite !expect_blank by done. destruct Hb as [-> | ->].
  - rewrite ?expect_here by done. done.
  - rewrite ?expect_other by done. rewrite ?expect_here by done. done.
Qed.

Lemma member_length w k t w' : (length t < length (member_text w k t w'))%nat.
Proof. unfold member_text. rewrite length_app. simpl. rewrite length_app. simpl. rewrite length_app. lia. Qed.

Lemma reads_last w k v t w' :
  blank w -> forallb plain_byte k = true -> reads v t -> blank w' ->
  reads_members [(k, v)] (member_text w k t w' ++ [Byte.x7d]).
Proof.
  intros Hw Hk Ht Hw' fuel rest Hl. pose proof (member_length w k t w'). rewrite length_app in Hl. simpl in Hl.
  destruct fuel as [|fuel]; [lia|]. rewrite <- app_assoc. simpl app.
  apply (read_member fuel w k v t w' Byte.x7d rest); auto. lia.
Qed.

Lemma reads_more w k v t w' l t' :
  blank w -> forallb plain_byte k = true -> reads v t -> blank w' -> reads_members l t' ->
  reads_members ((k, v) :: l) (member_text w k t w' ++ Byte.x2c :: t').
Proof.
  intros Hw Hk Ht Hw' Hm fuel rest Hl. pose proof (member_length w k t w'). rewrite length_app in Hl. simpl in Hl.
  destruct fuel as [|fuel]; [lia|]. rewrite <- app_assoc, <- app_comm_cons.
  destruct (read_member fuel w k v t w' Byte.x2c (t' ++ rest)) as [H1 H2]; auto; [lia|]. split; [done|]. rewrite H2. simpl.
  destruct (Hm fuel rest) as [_ ->]; [lia|done].
Qed.

Lemma parse_reads v t : reads v t -> parse_json t = Some v.
Proof.
  intros Ht. unfold parse_json. rewrite <- (app_nil_r t) at 2. by rewrite Ht.
Qed.

Create HintDb json.
#[export] Hint Resolve reads_blank reads_number reads_empty reads_object reads_last reads_more : json.

(** ** What streams print *)

Lemma is_digit_byte d : 0 <= d < 10 -> is_digit (digit_byte d) = true.
Proof.
  intros Hd. unfold is_digit, digit_byte. rewrite byte.unsigned_of_Z. unfold byte.wrap. rewrite Z.mod_small by lia.
  destruct (Z.leb_spec 48 (48 + d)), (Z.leb_spec (48 + d) 57); done || lia.
Qed.

Lemma all_digits_app a b : all_digits a -> all_digits b -> all_digits (a ++ b).
Proof. unfold all_digits. rewrite forallb_app. intros -> ->. done. Qed.

Lemma digits_acc_all fuel n acc : 0 <= n -> all_digits acc -> all_digits (digits_acc fuel n acc).
Proof.
  revert n acc. induction fuel as [|fuel IH]; intros n acc Hn Ha; [done|]. cbn [digits_acc].
  assert (all_digits (digit_byte (n mod 10) :: acc)) as H.
  { unfold all_digits. simpl. rewrite is_digit_byte; [done|]. apply Z.mod_pos_bound. lia. }
  destruct (_ =? _); [done|]. apply IH; [apply Z.div_pos; lia|done].
Qed.

(** With enough fuel the first digit is not zero, except for zero itself. *)
Lemma digits_acc_int fuel n acc :
  0 <= n < 10 ^ Z.of_nat fuel -> (0 < fuel)%nat -> all_digits acc -> (n = 0 -> acc = []) ->
  int_token (digits_acc fuel n acc).
Proof.
  revert n acc. induction fuel as [|fuel IH]; intros n acc Hn Hf Ha H0; [lia|].
  split; [apply digits_acc_all; [lia|done]|]. cbn [digits_acc].
  pose proof (Z.mod_pos_bound n 10 ltac:(lia)). pose proof (Z.div_mod n 10 ltac:(lia)).
  assert (all_digits (digit_byte (n mod 10) :: acc)) as Hacc by (unfold all_digits; simpl; by rewrite is_digit_byte).
  destruct (Z.eqb_spec (n / 10) 0) as [E|E].
  - destruct acc as [|b acc]; [done|]. intros Hz. apply (f_equal byte.unsigned) in Hz.
    unfold digit_byte in Hz. rewrite byte.unsigned_of_Z in Hz. unfold byte.wrap in Hz. rewrite Z.mod_small in Hz by lia.
    change (byte.unsigned Byte.x30) with 48 in Hz. assert (n = 0) as Hn0 by lia. by specialize (H0 Hn0).
  - rewrite Nat2Z.inj_succ, Z.pow_succ_r in Hn by lia. apply IH; [|destruct fuel; [|lia]|done|done].
    + split; [apply Z.div_pos; lia|apply Z.div_lt_upper_bound; lia].
    + simpl in Hn. rewrite Z.div_small in E; lia.
Qed.

Lemma digits_int n : 0 <= n -> int_token (digits n).
Proof.
  intros Hn. unfold digits. apply digits_acc_int; [|lia|done|done]. split; [done|].
  destruct (Z.eq_dec n 0) as [->|]; [done|]. pose proof (Z.log2_spec n ltac:(lia)). pose proof (Z.log2_nonneg n).
  rewrite Nat2Z.inj_succ, Z2Nat.id by lia. assert (2 ^ Z.succ (Z.log2 n) <= 10 ^ Z.succ (Z.log2 n)) by (apply Z.pow_le_mono_l; lia).
  lia.
Qed.

Lemma decimals_all k n acc : all_digits acc -> all_digits (decimals k n acc).
Proof.
  revert n acc. induction k as [|k IH]; intros n acc Ha; [done|]. simpl. apply IH. unfold all_digits. simpl.
  rewrite is_digit_byte; [done|]. apply Z.mod_pos_bound. lia.
Qed.

Lemma strip_zeros_all ds : all_digits ds -> all_digits (strip_zeros ds).
Proof.
  unfold all_digits. induction ds as [|b ds IH]; simpl; [done|]. intros [Hb Hds]%andb_prop. specialize (IH Hds).
  destruct (strip_zeros ds) as [|c r]; [destruct (decide _); simpl; by rewrite ?Hb|]. simpl in *. by rewrite Hb.
Qed.

Lemma fraction_token ds : all_digits ds -> frac_token (fraction_text ds).
Proof.
  intros Hd%strip_zeros_all. unfold fraction_text. destruct (strip_zeros ds) as [|c r]; [done|]. simpl.
  split; [done|]. split; [done|exact Hd].
Qed.

Lemma exponent_token x : exp_token (exponent_text x).
Proof.
  unfold exponent_text. destruct (digits_int (Z.abs x) ltac:(lia)) as [Hd Hne].
  assert (forall sg, sg = Byte.x2d \/ sg = Byte.x2b -> exp_token (Byte.x65 :: sg :: (if Z.abs x <? 10 then str "0" else []) ++ digits (Z.abs x))) as H.
  { intros sg Hsg. split; [done|]. exists sg, ((if Z.abs x <? 10 then str "0" else []) ++ digits (Z.abs x)).
    split; [done|]. split; [done|]. split.
    - destruct (digits (Z.abs x)); [done|]. by destruct (_ <? _).
    - apply all_digits_app; [by destruct (_ <? _)|done]. }
  destruct (x <? 0); apply H; auto.
Qed.

Lemma sign_token s : sign_text s = [] \/ sign_text s = [Byte.x2d].
Proof. destruct s; auto. Qed.

Lemma to_string_token z : - 10 ^ 20 < z < 10 ^ 20 -> number_token (to_string z).
Proof.
  intros Hz. unfold to_string. destruct (Z.ltb_spec z 0).
  - exists [Byte.x2d], (digits_acc 20 (- z) []), [], []. rewrite !app_nil_r. split; [done|]. split; [by right|].
    split; [|done]. apply digits_acc_int; [lia|lia|done|done].
  - exists [], (digits_acc 20 z []), [], []. rewrite !app_nil_r. split; [done|]. split; [by left|].
    split; [|done]. apply digits_acc_int; [lia|lia|done|done].
Qed.

Lemma round_div_nonneg num den : 0 <= num -> 0 < den -> 0 <= round_div num den.
Proof.
  intros Hn Hd. unfold round_div. pose proof (Z.div_pos num den Hn Hd). repeat case_match; lia.
Qed.

Lemma six_digits_nonneg m e : 0 <= (six_digits (sf_num m e) (sf_den e)).1.
Proof.
  assert (0 <= sf_num m e) by (unfold sf_num; apply Z.mul_nonneg_nonneg; [lia|apply Z.pow_nonneg; lia]).
  assert (0 < sf_den e) by (unfold sf_den; apply Z.pow_pos_nonneg; lia).
  unfold six_digits. set (x := decimal_exponent _ _).
  assert (0 <= (if x <=? 5 then round_div (sf_num m e * 10 ^ (5 - x)) (sf_den e) else round_div (sf_num m e) (sf_den e * 10 ^ (x - 5)))) as Hd.
  { destruct (Z.leb_spec x 5); apply round_div_nonneg; try done.
    - apply Z.mul_nonneg_nonneg; [done|apply Z.pow_nonneg; lia].
    - apply Z.mul_pos_pos; [done|apply Z.pow_pos_nonneg; lia]. }
  destruct (_ =? 10 ^ 6); [simpl; lia|done].
Qed.

Lemma general_token nan_text x : is_finite x = true -> number_token (general_text nan_text x).
Proof.
  destruct x as [s|s| |s m e]; try done; intros _; cbn [general_text].
  - exists (sign_text s), (str "0"), [], []. rewrite app_nil_r. split; [done|]. split; [apply sign_token|]. done.
  - pose proof (six_digits_nonneg m e) as Hd. destruct (six_digits _ _) as [d x]. simpl in Hd.
    destruct ((-4 <=? x) && (x <? 6)) eqn:Hx; bool_prop.
    + eexists (sign_text s), _, _, []. rewrite app_nil_r. split; [done|]. split; [apply sign_token|].
      split; [apply digits_int, Z.div_pos; [done|apply Z.pow_pos_nonneg; lia]|]. split; [by apply fraction_token, decimals_all|done].
    + eexists (sign_text s), _, _, _. split; [done|]. split; [apply sign_token|].
      split; [apply digits_int, Z.div_pos; [done|lia]|]. split; [by apply fraction_token, decimals_all|apply exponent_token].
Qed.

(** ** Printed objects *)

(** Members printed as [w `k`: t], separated by commas, then [w'] and the closing brace. *)
Fixpoint body_text (w' : bytes) (l : list (bytes * bytes * bytes)) : bytes :=
  match l with
  | [] => []
  | [(w, k, t)] => member_text w k (Byte.x20 :: t) w' ++ [Byte.x7d]
  | (w, k, t) :: l => member_text w k (Byte.x20 :: t) [] ++ Byte.x2c :: body_text w' l
  end.

Definition object_text (w' : bytes) (l : list (bytes * bytes * bytes)) : bytes := Byte.x7b :: body_text w' l.

Definition prints (p : bytes * bytes * bytes) (e : bytes * json) : Prop :=
  blank p.1.1 /\ p.1.2 = e.1 /\ forallb plain_byte e.1 = true /\ reads e.2 p.2.

Lemma reads_body w' p l e l' :
  blank w' -> Forall2 prints (p :: l) (e :: l') -> reads_members (e :: l') (body_text w' (p :: l)).
Proof.
  intros Hw. revert p e l'. induction l as [|p' l IH]; intros [[w k] t] [k0 v] l' Hf;
    apply Forall2_cons in Hf as [(H1 & H2 & H3 & H4) Hf]; simpl in *; subst k0;
    pose proof (reads_blank [Byte.x20] v t eq_refl H4) as Ht.
  - apply Forall2_nil_inv_l in Hf as ->. by apply reads_last.
  - apply Forall2_cons_inv_l in Hf as (e' & l'' & He & Hf & ->). apply (reads_more w k v _ []); try done.
    apply IH. by constructor.
Qed.

Lemma reads_printed w' l l' : blank w' -> l <> [] -> Forall2 prints l l' -> reads (JObj l') (object_text w' l).
Proof.
  intros Hw Hne Hf. destruct l as [|p l]; [done|]. pose proof Hf as Hf'.
  apply Forall2_cons_inv_l in Hf' as (e & l'' & _ & _ & ->). by apply reads_object, reads_body.
Qed.

#[export] Hint Resolve reads_printed to_string_token general_token : json.
