(* ===== verification/MetricsText.v ===== *)
(** * The texts of the service metrics (src/observability/simple_metrics.cpp)

    [get_json] and the two renderings for people, [get_metrics_string] and [dump_metrics].
    Maps are visited in the order of their keys. *)
From Stdlib Require Import SpecFloat.
From S2P Require Import Prelude CxxString OrdMap CxxStream Json Metrics.

(** A [std::map] in the order of its keys. *)
Definition entries {V} (m : gmap bytes V) : omap V := foldr (fun e l => m_assign e.1 e.2 l) [] (map_to_list m).

(** [count > 0 ? total / count : 0.0]. *)
Definition average (st : OpStats) : spec_float :=
  if 0 <? op_count st then SFdiv 53 1024 (total_latency st) (binary_normalize 53 1024 (op_count st) 0 false)
  else S754_zero false.

(** The entries of a loop with a [first] flag, separated by commas. *)
Fixpoint separated {V} (render : bytes -> V -> bytes) (first : bool) (l : omap V) : bytes :=
  match l with
  | [] => []
  | (key, v) :: l => (if first then [] else lit ",~") ++ render key v ++ separated render false l
  end.

Section Render.
Context (nan_text : bytes).

Definition json_operation (key : bytes) (st : OpStats) : bytes :=
  lit "    `" ++ key ++ lit "`: {~" ++
  lit "      `count`: " ++ to_string (op_count st) ++ lit ",~" ++
  lit "      `avg_latency_s`: " ++ general_text nan_text (average st) ++ lit ",~" ++
  lit "      `max_latency_s`: " ++ general_text nan_text (max_latency st) ++ lit "~" ++
  lit "    }".

Definition json_sync (key : bytes) (count : Z) : bytes := lit "      `" ++ key ++ lit "`: " ++ to_string count.

Definition json_lane (key : bytes) (st : LaneStats) : bytes :=
  lit "      `" ++ key ++ lit "`: { `sent`: " ++ to_string (lane_sent st) ++ lit ", `recv`: " ++
  to_string (lane_recv st) ++ lit " }".

Definition get_json (m : SimpleMetrics) : bytes :=
  lit "{~" ++
  lit "  `system`: {~" ++
  lit "    `buffer_usage_bytes`: " ++ to_string (buffer_usage_ m) ++ lit ",~" ++
  lit "    `buffer_capacity_bytes`: " ++ to_string (buffer_capacity_ m) ++ lit ",~" ++
  lit "    `active_connections`: " ++ to_string (active_connections_ m) ++ lit ",~" ++
  lit "    `node_splits`: " ++ to_string (node_splits_ m) ++ lit ",~" ++
  lit "    `hash_collisions`: " ++ to_string (hash_collisions_ m) ++ lit ",~" ++
  lit "    `thread_count`: " ++ to_string (thread_count_ m) ++ lit "~" ++
  lit "  },~" ++
  lit "  `throughput`: {~" ++
  lit "    `bytes_received_total`: " ++ to_string (bytes_received_ m) ++ lit ",~" ++
  lit "    `bytes_sent_total`: " ++ to_string (bytes_sent_ m) ++ lit ",~" ++
  lit "    `http_errors_4xx`: " ++ to_string (errors_4xx_ m) ++ lit ",~" ++
  lit "    `http_errors_5xx`: " ++ to_string (errors_5xx_ m) ++ lit "~" ++
  lit "  },~" ++
  lit "  `operations`: {~" ++
  separated json_operation true (entries (operation_stats_ m)) ++
  lit "~  },~" ++
  lit "  `replication`: {~" ++
  lit "    `keys_repaired`: " ++ to_string (keys_repaired_ m) ++ lit ",~" ++
  lit "    `sync_ops`: {~" ++
  separated json_sync true (entries (sync_stats_ m)) ++
  lit "~    },~" ++
  lit "    `mesh_traffic`: {~" ++
  separated json_lane true (entries (lane_stats_ m)) ++
  lit "~    }~" ++
  lit "  }~" ++
  lit "}".

(** The renderings for people. *)
Definition operation_line (e : bytes * OpStats) : bytes :=
  lit "  " ++ setw_left 25 e.1 ++ lit " Count: " ++ setw_left 10 (to_string (op_count e.2)) ++
  lit " Avg Latency: " ++ fixed_text nan_text (average e.2) ++ lit "s" ++
  lit " Max Latency: " ++ fixed_text nan_text (max_latency e.2) ++ lit "s~".

Definition get_metrics_string (m : SimpleMetrics) : bytes :=
  lit "~=== Internal Service Metrics ===~" ++
  lit "Buffer Usage: " ++ to_string (buffer_usage_ m) ++ lit " / " ++ to_string (buffer_capacity_ m) ++ lit " bytes~" ++
  lit "Node Splits: " ++ to_string (node_splits_ m) ++ lit "~" ++
  lit "Hash Collisions: " ++ to_string (hash_collisions_ m) ++ lit "~" ++
  lit "Thread Count: " ++ to_string (thread_count_ m) ++ lit "~" ++
  lit "Operations:~" ++
  concat (map operation_line (entries (operation_stats_ m))) ++
  lit "================================~".

(** What [dump_metrics] writes to [std::cout]. *)
Definition dump_metrics (m : SimpleMetrics) : bytes :=
  lit "~=== Internal Service Metrics ===" ++ lit "~" ++
  lit "Buffer Usage: " ++ to_string (buffer_usage_ m) ++ lit " / " ++ to_string (buffer_capacity_ m) ++ lit " bytes" ++ lit "~" ++
  lit "Node Splits: " ++ to_string (node_splits_ m) ++ lit "~" ++
  lit "Hash Collisions: " ++ to_string (hash_collisions_ m) ++ lit "~" ++
  lit "Thread Count: " ++ to_string (thread_count_ m) ++ lit "~" ++
  lit "Operations:" ++ lit "~" ++
  concat (map operation_line (entries (operation_stats_ m))) ++
  lit "================================~" ++ lit "~".

(** ** What the JSON text means *)

Definition num (z : Z) : json := JNum (to_string z).

Definition operation_json (st : OpStats) : json :=
  JObj [(str "count", num (op_count st)); (str "avg_latency_s", JNum (general_text nan_text (average st)));
        (str "max_latency_s", JNum (general_text nan_text (max_latency st)))].

Definition lane_json (st : LaneStats) : json :=
  JObj [(str "sent", num (lane_sent st)); (str "recv", num (lane_recv st))].

Definition map_json {V} (f : V -> json) (m : gmap bytes V) : json := JObj (map (fun e => (e.1, f e.2)) (entries m)).

Definition metrics_json (m : SimpleMetrics) : json :=
  JObj [(str "system", JObj [
          (str "buffer_usage_bytes", num (buffer_usage_ m)); (str "buffer_capacity_bytes", num (buffer_capacity_ m));
          (str "active_connections", num (active_connections_ m)); (str "node_splits", num (node_splits_ m));
          (str "hash_collisions", num (hash_collisions_ m)); (str "thread_count", num (thread_count_ m))]);
        (str "throughput", JObj [
          (str "bytes_received_total", num (bytes_received_ m)); (str "bytes_sent_total", num (bytes_sent_ m));
          (str "http_errors_4xx", num (errors_4xx_ m)); (str "http_errors_5xx", num (errors_5xx_ m))]);
        (str "operations", map_json operation_json (operation_stats_ m));
        (str "replication", JObj [
          (str "keys_repaired", num (keys_repaired_ m)); (str "sync_ops", map_json num (sync_stats_ m));
          (str "mesh_traffic", map_json lane_json (lane_stats_ m))])].

End Render.

(** ** Visiting a map *)

Section Entries.
Context {V : Type}.

Lemma entries_sorted (m : gmap bytes V) : m_sorted (entries m).
Proof.
  unfold entries. induction (map_to_list m) as [|e l IH]; simpl; [constructor|]. by apply m_assign_sorted.
Qed.

Lemma entries_find (m : gmap bytes V) k : m_find k (entries m) = m !! k.
Proof.
  unfold entries. rewrite <- (list_to_map_to_list m) at 2. induction (map_to_list m) as [|[k' v] l IH]; simpl; [done|].
  destruct (decide (k' = k)) as [->|Hne]; [by rewrite m_find_assign_eq, lookup_insert_eq|].
  rewrite m_find_assign_ne, IH by done. by rewrite lookup_insert_ne.
Qed.

Lemma entries_elem (m : gmap bytes V) k v : (k, v) ∈ entries m -> m !! k = Some v.
Proof. intros Hin. rewrite <- entries_find. by apply m_find_sorted; [apply entries_sorted|]. Qed.

(** The loop over a map prints the members of an object. *)
Lemma reads_separated (render : bytes -> V -> bytes) (w w' : bytes) (t : V -> bytes) (f : V -> json) (l : omap V) :
  blank w -> blank w' ->
  (forall k v, render k v = member_text w k (Byte.x20 :: t v) []) ->
  (forall k v, (k, v) ∈ l -> forallb plain_byte k = true /\ reads (f v) (t v)) ->
  reads (JObj (map (fun e => (e.1, f e.2)) l)) (Byte.x7b :: Byte.x0a :: separated render true l ++ w' ++ [Byte.x7d]).
Proof.
  intros Hw Hw' Hr Hl. destruct l as [|[k v] l]; [by apply (reads_empty (Byte.x0a :: w'))|]. apply reads_object.
  assert (forall k v l, (forall k0 v0, (k0, v0) ∈ (k, v) :: l -> forallb plain_byte k0 = true /\ reads (f v0) (t v0)) ->
    reads_members (map (fun e => (e.1, f e.2)) ((k, v) :: l))
      (Byte.x0a :: separated render true ((k, v) :: l) ++ w' ++ [Byte.x7d])) as H; [|by apply H].
  clear -Hw Hw' Hr. intros k v l. revert k v. induction l as [|[k' v'] l IH]; intros k v Hl;
    destruct (Hl k v ltac:(left)) as [Hk Ht]; pose proof (reads_blank [Byte.x20] _ _ eq_refl Ht) as Ht'.
  - simpl. rewrite Hr, app_nil_r.
    pose proof (reads_last (Byte.x0a :: w) k (f v) (Byte.x20 :: t v) w' Hw Hk Ht' Hw') as H.
    unfold member_text in *. rewrite <- !app_assoc in *. simpl in *. rewrite <- !app_assoc in *. simpl in *.
    rewrite ?app_nil_r, <- ?app_assoc in *. exact H.
  - specialize (IH k' v'). cbn [map separated] in *.
    pose proof (reads_more (Byte.x0a :: w) k (f v) (Byte.x20 :: t v) [] _ _ Hw Hk Ht' eq_refl
      (IH ltac:(intros; apply Hl; by right))) as H.
    rewrite (Hr k v). simpl app in *. unfold member_text in *. rewrite <- ?app_assoc in *. simpl in *.
    rewrite <- ?app_assoc in *. simpl in *. rewrite ?app_nil_r, <- ?app_assoc in *. exact H.
Qed.

End Entries.

(** ** Counters stay within their types *)

Definition in_u64 (z : Z) : Prop := 0 <= z < 2 ^ 64.
Definition in_i64 (z : Z) : Prop := - 2 ^ 63 <= z < 2 ^ 63.
Definition in_i32 (z : Z) : Prop := - 2 ^ 31 <= z < 2 ^ 31.

Definition scalar_typed (f : scalar) (z : Z) : Prop :=
  match f with active_connections => in_i64 z | thread_count => in_i32 z | _ => in_u64 z end.

(** Every counter holds a value of its C++ type, and every key can be printed between quotes. *)
Record metrics_typed (plain : bytes -> Prop) (m : SimpleMetrics) : Prop := {
  ty_scalar f : scalar_typed f (read_scalar f m);
  ty_ops : map_Forall (fun k st => plain k /\ in_u64 (op_count st)) (operation_stats_ m);
  ty_sync : map_Forall (fun k n => plain k /\ in_u64 n) (sync_stats_ m);
  ty_lane : map_Forall (fun k st => plain k /\ in_u64 (lane_sent st) /\ in_u64 (lane_recv st)) (lane_stats_ m) }.

(** The arguments of the calls are values of their types. *)
Definition event_typed (plain : bytes -> Prop) (ev : metric_event) : Prop :=
  match ev with
  | MLatency o _ => plain o
  | MOperation o st => plain (o ++ str "_" ++ st)
  | MSync t => plain t
  | MMesh l _ _ => plain l
  | MBufferUsage n | MBufferCapacity n => in_u64 n
  | MThreads n => in_i32 n
  | _ => True
  end.

Lemma u64_in z : in_u64 (u64 z).
Proof. apply Z.mod_pos_bound. lia. Qed.

Lemma i64_in z : in_i64 (i64 z).
Proof. unfold in_i64, i64. pose proof (Z.mod_pos_bound (z + 2 ^ 63) (2 ^ 64)). lia. Qed.

#[local] Hint Resolve u64_in i64_in : l3kv.

Section Typed.
Context (plain : bytes -> Prop).

Lemma scalar_typed_store f g v m :
  (forall h, scalar_typed h (read_scalar h m)) -> scalar_typed g v -> scalar_typed f (read_scalar f (store_scalar g v m)).
Proof. intros Hm Hv. rewrite read_store_scalar. by destruct (decide (g = f)) as [->|]. Qed.

Lemma typed_store g v m : scalar_typed g v -> metrics_typed plain m -> metrics_typed plain (store_scalar g v m).
Proof. intros Hv [H1 H2 H3 H4]. split; [|done..]. intros f. by apply scalar_typed_store. Qed.

Lemma typed_count g n m :
  g <> active_connections -> g <> thread_count -> metrics_typed plain m -> metrics_typed plain (fetch_add g n m).
Proof. intros H1 H2. apply typed_store. destruct g; try done; simpl; auto with l3kv. Qed.

Lemma record_typed ev m : event_typed plain ev -> metrics_typed plain m -> metrics_typed plain (record ev m).
Proof.
  intros He Hm. pose proof Hm as [H1 H2 H3 H4].
  assert (forall key st, plain key -> in_u64 (op_count st) -> forall g, g (operation_stats_ m) = <[key := st]> (operation_stats_ m) ->
    metrics_typed plain (set_operation_stats g m)) as Hop.
  { intros key st Hk Hs g Hg. split; simpl; rewrite ?Hg; [by intros f; specialize (H1 f); destruct f| |done|done]. by apply map_Forall_insert_2. }
  destruct ev; simpl in *; try (by apply typed_count); try (by apply typed_store).
  - unfold record_latency. eapply Hop; [done| |done]. apply u64_in.
  - unfold increment_operation_count. eapply Hop; [done| |done]. apply u64_in.
  - unfold record_error. repeat case_match; by try apply typed_count.
  - by apply typed_store; [apply i64_in|].
  - by apply typed_store; [apply i64_in|].
  - split; simpl; [by intros f; specialize (H1 f); destruct f|done| |done]. apply map_Forall_insert_2; [|done]. split; [done|apply u64_in].
  - split; simpl; [by intros f; specialize (H1 f); destruct f|done|done|]. apply map_Forall_insert_2; [|done]. split; [done|].
    assert (in_u64 (lane_sent (at_key lane_stats_new lane (lane_stats_ m))) /\
            in_u64 (lane_recv (at_key lane_stats_new lane (lane_stats_ m)))) as [Hs Hr].
    { unfold at_key. destruct (lane_stats_ m !! lane) eqn:E; [by apply H4 in E as (_ & ? & ?)|done]. }
    destruct is_send; simpl; split; auto with l3kv.
Qed.

Lemma record_all_typed evs m :
  Forall (event_typed plain) evs -> metrics_typed plain m -> metrics_typed plain (record_all evs m).
Proof.
  revert m. induction evs as [|ev evs IH]; intros m Hf Hm; [done|]. apply Forall_cons in Hf as [He Hf].
  simpl. apply IH; [done|]. by apply record_typed.
Qed.

Lemma metrics_new_typed : metrics_typed plain metrics_new.
Proof. split; [by intros []|apply map_Forall_empty..]. Qed.

End Typed.

(** ** The JSON text is read back *)

Definition plain_name (k : bytes) : Prop := forallb plain_byte k = true.

Section Read.
Context (nan_text : bytes) (m : SimpleMetrics) (Hm : metrics_typed plain_name m).
Hypothesis Hfin : map_Forall (fun _ st => is_finite (average st) = true /\ is_finite (max_latency st) = true) (operation_stats_ m).

Lemma reads_u64 z : in_u64 z -> reads (num z) (to_string z).
Proof. unfold in_u64. intros Hz. apply reads_number, to_string_token. lia. Qed.

Lemma reads_scalar f : reads (num (read_scalar f m)) (to_string (read_scalar f m)).
Proof.
  pose proof (ty_scalar _ _ Hm f) as Hf. apply reads_number, to_string_token.
  destruct f; unfold scalar_typed, in_u64, in_i64, in_i32 in Hf; lia.
Qed.

(** The texts as printed objects. *)
Definition operation_text (st : OpStats) : bytes :=
  object_text (lit "~    ")
    [(lit "~      ", str "count", to_string (op_count st));
     (lit "~      ", str "avg_latency_s", general_text nan_text (average st));
     (lit "~      ", str "max_latency_s", general_text nan_text (max_latency st))].

Definition lane_text (st : LaneStats) : bytes :=
  object_text (lit " ") [(lit " ", str "sent", to_string (lane_sent st)); (lit " ", str "recv", to_string (lane_recv st))].

Definition system_text : bytes :=
  object_text (lit "~  ")
    [(lit "~    ", str "buffer_usage_bytes", to_string (buffer_usage_ m));
     (lit "~    ", str "buffer_capacity_bytes", to_string (buffer_capacity_ m));
     (lit "~    ", str "active_connections", to_string (active_connections_ m));
     (lit "~    ", str "node_splits", to_string (node_splits_ m));
     (lit "~    ", str "hash_collisions", to_string (hash_collisions_ m));
     (lit "~    ", str "thread_count", to_string (thread_count_ m))].

Definition throughput_text : bytes :=
  object_text (lit "~  ")
    [(lit "~    ", str "bytes_received_total", to_string (bytes_received_ m));
     (lit "~    ", str "bytes_sent_total", to_string (bytes_sent_ m));
     (lit "~    ", str "http_errors_4xx", to_string (errors_4xx_ m));
     (lit "~    ", str "http_errors_5xx", to_string (errors_5xx_ m))].

Definition loop_text {V} (render : bytes -> V -> bytes) (w' : bytes) (o : gmap bytes V) : bytes :=
  Byte.x7b :: Byte.x0a :: separated render true (entries o) ++ w' ++ [Byte.x7d].

Definition replication_text : bytes :=
  object_text (lit "~  ")
    [(lit "~    ", str "keys_repaired", to_string (keys_repaired_ m));
     (lit "~    ", str "sync_ops", loop_text json_sync (lit "~    ") (sync_stats_ m));
     (lit "~    ", str "mesh_traffic", loop_text json_lane (lit "~    ") (lane_stats_ m))].

Lemma get_json_structure :
  get_json nan_text m =
  object_text (lit "~")
    [(lit "~  ", str "system", system_text); (lit "~  ", str "throughput", throughput_text);
     (lit "~  ", str "operations", loop_text (json_operation nan_text) (lit "~  ") (operation_stats_ m));
     (lit "~  ", str "replication", replication_text)].
Proof.
  unfold get_json, object_text, body_text, replication_text, throughput_text, system_text, loop_text, object_text, body_text,
    member_text.
  repeat (simpl; rewrite <- ?app_assoc, ?app_nil_r). reflexivity.
Qed.

(** A printed object whose members are read one by one. *)
Ltac printed :=
  apply reads_printed; [done|done|];
  repeat (apply Forall2_cons; split; [split; [done|]; split; [done|]; split; [done|]|]); [..|by apply Forall2_nil].

Lemma reads_operations : reads (map_json (operation_json nan_text) (operation_stats_ m))
  (loop_text (json_operation nan_text) (lit "~  ") (operation_stats_ m)).
Proof.
  apply (reads_separated _ (lit "    ") _ operation_text); [done|done|..].
  - intros k v. unfold json_operation, operation_text, object_text, body_text, member_text.
    repeat (simpl; rewrite <- ?app_assoc, ?app_nil_r). reflexivity.
  - intros k v Hkv%entries_elem. destruct (ty_ops _ _ Hm _ _ Hkv) as [Hk Hc]. destruct (Hfin _ _ Hkv) as [Ha Hmx].
    split; [exact Hk|]. printed; [by apply reads_u64|by apply reads_number, general_token..].
Qed.

Lemma reads_sync : reads (map_json num (sync_stats_ m)) (loop_text json_sync (lit "~    ") (sync_stats_ m)).
Proof.
  apply (reads_separated _ (lit "      ") _ to_string); [done|done|..].
  - intros k v. unfold json_sync, member_text. repeat (simpl; rewrite <- ?app_assoc, ?app_nil_r). reflexivity.
  - intros k v Hkv%entries_elem. destruct (ty_sync _ _ Hm _ _ Hkv) as [Hk Hc]. split; [exact Hk|]. by apply reads_u64.
Qed.

Lemma reads_lanes : reads (map_json lane_json (lane_stats_ m)) (loop_text json_lane (lit "~    ") (lane_stats_ m)).
Proof.
  apply (reads_separated _ (lit "      ") _ lane_text); [done|done|..].
  - intros k v. unfold json_lane, lane_text, object_text, body_text, member_text.
    repeat (simpl; rewrite <- ?app_assoc, ?app_nil_r). reflexivity.
  - intros k v Hkv%entries_elem. destruct (ty_lane _ _ Hm _ _ Hkv) as (Hk & Hs & Hr). split; [exact Hk|].
    printed; by apply reads_u64.
Qed.

Lemma get_json_reads : reads (metrics_json nan_text m) (get_json nan_text m).
Proof.
  rewrite get_json_structure. printed.
  - printed; [apply (reads_scalar buffer_usage)|apply (reads_scalar buffer_capacity)|apply (reads_scalar active_connections)|
      apply (reads_scalar node_splits)|apply (reads_scalar hash_collisions)|apply (reads_scalar thread_count)].
  - printed; [apply (reads_scalar bytes_received)|apply (reads_scalar bytes_sent)|apply (reads_scalar errors_4xx)|
      apply (reads_scalar errors_5xx)].
  - apply reads_operations.
  - printed; [apply (reads_scalar keys_repaired)|apply reads_sync|apply reads_lanes].
Qed.

End Read.

(** ** Theorems *)

(** Whatever sequence of calls with arguments of their C++ types led there, every counter
    of the metrics holds a value of its C++ type. *)
Theorem metrics_fit_types evs :
  Forall (event_typed (fun _ => True)) evs -> metrics_typed (fun _ => True) (record_all evs metrics_new).
Proof. intros He. apply record_all_typed; [done|]. apply metrics_new_typed. Qed.

Lemma metrics_fit_types_witness :
  Forall (event_typed (fun _ => True)) (sample_run ++ [MThreads (-1); MDisconnect]) /\
  metrics_typed (fun _ => True) (record_all (sample_run ++ [MThreads (-1); MDisconnect]) metrics_new).
Proof.
  assert (Forall (event_typed (fun _ => True)) (sample_run ++ [MThreads (-1); MDisconnect])) as H.
  { repeat apply Forall_cons_2; try apply Forall_nil_2; simpl; unfold in_i32; lia || done. }
  split; [done|]. apply (metrics_fit_types _ H).
Defined.

(** C37: [get_json] prints JSON.  After any sequence of calls whose names have no quotes,
    backslashes or control characters, and with finite latencies, a JSON reader gets from the
    text exactly the sections, the entries of the maps in the order of their names, and the
    values of all counters. *)
Theorem get_json_parses nan_text evs :
  let m := record_all evs metrics_new in
  Forall (event_typed plain_name) evs ->
  map_Forall (fun _ st => is_finite (average st) = true /\ is_finite (max_latency st) = true) (operation_stats_ m) ->
  parse_json (get_json nan_text m) = Some (metrics_json nan_text m).
Proof.
  intros m He Hf. apply parse_reads, get_json_reads; [|done]. apply record_all_typed; [done|]. apply metrics_new_typed.
Qed.

Lemma get_json_parses_witness :
  Forall (event_typed plain_name) sample_run /\
  parse_json (get_json [] (record_all sample_run metrics_new)) = Some (metrics_json [] (record_all sample_run metrics_new)).
Proof.
  assert (Forall (event_typed plain_name) sample_run) as H.
  { repeat apply Forall_cons_2; try apply Forall_nil_2; vm_compute; done. }
  split; [done|]. apply (get_json_parses [] sample_run H).
  apply (bool_decide_unpack (map_Forall _ _)). vm_compute. exact I.
Defined.

(** A name with a quote makes the text something else than JSON. *)
Theorem quote_breaks_json :
  parse_json (get_json [] (record_all [MSync (lit "a`b")] metrics_new)) = None.
Proof. vm_compute. reflexivity. Qed.

(** The text printed on the console is the one returned as a string, and an empty line. *)
Theorem dump_is_metrics_string nan_text m :
  dump_metrics nan_text m = get_metrics_string nan_text m ++ lit "~".
Proof.
  unfold dump_metrics, get_metrics_string. repeat (simpl; rewrite <- ?app_assoc, ?app_nil_r). reflexivity.
Qed.
