(* ===== verification/Mesh.v ===== *)
(** * The mesh transport (src/engine/mesh.hpp, mesh.cpp)

    A connection has a write side, the outbox drained by [do_write], and a read side, the
    loop [do_read_header] / [do_read_body].  The operating system decides how many bytes a
    pending write transfers and how the incoming stream is cut, so both sides are driven by
    explicit events; handlers of one connection run on its strand, one at a time.
    [Mesh] adds the peer table, the simulated latency and the traffic metrics. *)
From S2P Require Import Prelude Extern Samples Metrics Sync.

(** The enumerators' values; a received lane is any 32-bit value cast to [Lane]. *)
Definition lane_code (l : Lane) : Z :=
  match l with Control => 0 | Express => 1 | Standard => 2 | Heavy => 3 end.

Definition lane_to_string (l : Z) : bytes :=
  if l =? lane_code Control then str "control"
  else if l =? lane_code Express then str "express"
  else if l =? lane_code Standard then str "standard"
  else if l =? lane_code Heavy then str "heavy"
  else str "unknown".

(** ** The write side of a connection *)

(** An [async_write] in progress, with the bytes it has left. *)
Inductive write_op := WriteId (rest : bytes) | WriteFrame (rest : bytes).

(** [wire] is what the socket has accepted so far. *)
Record Connection := mkConn {
  outbox_ : list bytes;
  pending : list write_op;
  wire : bytes
}.

Definition conn_new : Connection := mkConn [] [] [].

Definition do_send_id (my_id : Z) (c : Connection) : Connection :=
  mkConn (outbox_ c) (pending c ++ [WriteId (le32 my_id)]) (wire c).

(** [outbox_.front()]; the callers have checked that it exists. *)
Definition do_write (c : Connection) : Connection :=
  match outbox_ c with
  | front :: _ => mkConn (outbox_ c) (pending c ++ [WriteFrame front]) (wire c)
  | [] => c
  end.

Definition conn_send (payload : bytes) (c : Connection) : Connection :=
  let write_in_progress := negb (bool_decide (outbox_ c = [])) in
  let c' := mkConn (outbox_ c ++ [payload]) (pending c) (wire c) in
  if write_in_progress then c' else do_write c'.

(** The socket accepts the next [n] bytes of the [i]th pending write. *)
Definition transfer (i n : nat) (c : Connection) : option Connection :=
  match pending c !! i with
  | Some (WriteId rest) =>
      if (n <=? length rest)%nat
      then Some (mkConn (outbox_ c) (<[i := WriteId (drop n rest)]> (pending c)) (wire c ++ take n rest))
      else None
  | Some (WriteFrame rest) =>
      if (n <=? length rest)%nat
      then Some (mkConn (outbox_ c) (<[i := WriteFrame (drop n rest)]> (pending c)) (wire c ++ take n rest))
      else None
  | None => None
  end.

(** The handler of the [i]th write: on success the handshake's continues with reading and
    a frame's pops the outbox and writes the next one; on an error neither does anything. *)
Definition complete (i : nat) (failed : bool) (c : Connection) : option Connection :=
  match pending c !! i with
  | None => None
  | Some op =>
      let c' := mkConn (outbox_ c) (delete i (pending c)) (wire c) in
      if failed then Some c'
      else match op with
           | WriteId [] => Some c'
           | WriteFrame [] =>
               let c'' := mkConn (tail (outbox_ c')) (pending c') (wire c') in
               Some (if bool_decide (outbox_ c'' = []) then c'' else do_write c'')
           | _ => None
           end
  end.

Inductive conn_event :=
| EvSend (payload : bytes)
| EvTransfer (i n : nat)
| EvComplete (i : nat) (failed : bool).

Definition conn_step (ev : conn_event) (c : Connection) : option Connection :=
  match ev with
  | EvSend p => Some (conn_send p c)
  | EvTransfer i n => transfer i n c
  | EvComplete i f => complete i f c
  end.

Fixpoint conn_run (evs : list conn_event) (c : Connection) : option Connection :=
  match evs with
  | [] => Some c
  | ev :: evs' => c' ← conn_step ev c; conn_run evs' c'
  end.

(** The payloads handed to [send], in order. *)
Definition payloads (evs : list conn_event) : list bytes :=
  omap (fun ev => match ev with EvSend p => Some p | _ => None end) evs.

(** ** The read side of a connection *)

(** What the pending [async_read] waits for. *)
Inductive read_state := ReadId | ReadHeader | ReadBody (lane size : Z).

Record Reader := mkReader {
  r_state : read_state;
  r_buf : bytes;                          (* arrived and not consumed *)
  peer_id_ : Z;
  delivered : list (Z * Z * bytes)        (* calls of on_message_: peer, lane, body *)
}.

(** An accepted connection first reads the peer's id; a connecting one does not, and keeps
    the initial [peer_id_]. *)
Definition reader_inbound : Reader := mkReader ReadId [] 0 [].
Definition reader_outbound : Reader := mkReader ReadHeader [] 0 [].

(** The completion of the pending read, when its bytes have arrived. *)
Definition read_step (r : Reader) : option Reader :=
  match r_state r with
  | ReadId =>
      if (length (r_buf r) <? 4)%nat then None
      else Some (mkReader ReadHeader (drop 4 (r_buf r)) (read32 (r_buf r) 0) (delivered r))
  | ReadHeader =>
      if (length (r_buf r) <? 8)%nat then None
      else Some (mkReader (ReadBody (read32 (r_buf r) 0) (read32 (r_buf r) 4)) (drop 8 (r_buf r))
                          (peer_id_ r) (delivered r))
  | ReadBody lane size =>
      if zlen (r_buf r) <? size then None
      else Some (mkReader ReadHeader (drop (Z.to_nat size) (r_buf r)) (peer_id_ r)
                          (delivered r ++ [(peer_id_ r, lane, take (Z.to_nat size) (r_buf r))]))
  end.

Fixpoint read_loop (fuel : nat) (r : Reader) : Reader :=
  match fuel with
  | O => r
  | S fuel' => match read_step r with Some r' => read_loop fuel' r' | None => r end
  end.

(** Two reads are enough for every eight bytes. *)
Definition read_all (r : Reader) : Reader := read_loop (2 + 2 * length (r_buf r)) r.

(** A segment of the stream arrives. *)
Definition arrive (chunk : bytes) (r : Reader) : Reader :=
  read_all (mkReader (r_state r) (r_buf r ++ chunk) (peer_id_ r) (delivered r)).

(** ** The mesh *)

Section Mesh.
Context {l3 : Lite3}.

Record Peer := mkPeer { p_id : Z; p_host : bytes; p_port : Z; p_conn : nat }.

(** Connections are shared objects: a peer and a pending timer refer to one by its index.
    A connection lives as long as something refers to it and is never reused, so the list
    only grows. *)
Record Mesh := mkMesh {
  my_id_ : Z;
  peers_ : gmap Z Peer;
  conns : list Connection;
  latency_ms_ : Z;
  timers : list (nat * bytes);            (* sends delayed by the simulated latency *)
  mesh_metrics : SimpleMetrics
}.

Definition mesh_new (my_id : Z) (m : SimpleMetrics) : Mesh := mkMesh my_id ∅ [] 0 [] m.

Definition set_simulated_latency (ms : Z) (m : Mesh) : Mesh :=
  mkMesh (my_id_ m) (peers_ m) (conns m) ms (timers m) (mesh_metrics m).

Definition set_conns (cs : list Connection) (m : Mesh) : Mesh :=
  mkMesh (my_id_ m) (peers_ m) cs (latency_ms_ m) (timers m) (mesh_metrics m).

(** [reachable] is whether resolving and connecting succeed; they throw otherwise. *)
Definition mesh_connect (reachable : bool) (peer_id : Z) (host : bytes) (port : Z) (m : Mesh) :
    result unit * Mesh :=
  if reachable then
    let conn := length (conns m) in
    (Ok tt, mkMesh (my_id_ m) (<[peer_id := mkPeer peer_id host port conn]> (peers_ m))
              (conns m ++ [do_send_id (my_id_ m) conn_new]) (latency_ms_ m) (timers m)
              (mesh_metrics m))
  else (Throw library_exn, m).

(** The frame [Mesh::send] builds: an object with the header under "h" and the body under
    "b". *)
Definition mesh_frame (lane : Lane) (payload : bytes) : option bytes :=
  frame ← set_bytes (init_object buffer_default) (str "h")
            (le32 (lane_code lane) ++ le32 (u32 (zlen payload)));
  set_bytes frame (str "b") payload.

(** The framing that the comment in [send] announces and the read side expects. *)
Definition raw_frame (lane : Z) (body : bytes) : bytes := le32 lane ++ le32 (zlen body) ++ body.

Definition conn_at (i : nat) (f : Connection -> Connection) (m : Mesh) : Mesh :=
  set_conns (alter f i (conns m)) m.

Definition mesh_send (peer_id : Z) (lane : Lane) (payload : bytes) (m : Mesh) : result bool * Mesh :=
  match peers_ m !! peer_id with
  | None => (Ok false, m)
  | Some peer =>
      match mesh_frame lane payload with
      | None => (Throw library_exn, m)
      | Some frame =>
          let m' := if 0 <? latency_ms_ m
                    then mkMesh (my_id_ m) (peers_ m) (conns m) (latency_ms_ m)
                           (timers m ++ [(p_conn peer, frame)]) (mesh_metrics m)
                    else conn_at (p_conn peer) (conn_send frame) m in
          (Ok true, mkMesh (my_id_ m') (peers_ m') (conns m') (latency_ms_ m') (timers m')
                      (increment_mesh_bytes (lane_to_string (lane_code lane)) (zlen payload) true
                         (mesh_metrics m')))
      end
  end.

(** The [i]th delayed send expires. *)
Definition timer_fires (i : nat) (failed : bool) (m : Mesh) : option Mesh :=
  match timers m !! i with
  | None => None
  | Some (conn, frame) =>
      let m' := mkMesh (my_id_ m) (peers_ m) (conns m) (latency_ms_ m) (delete i (timers m))
                  (mesh_metrics m) in
      Some (if failed then m' else conn_at conn (conn_send frame) m')
  end.

(** The handler of an accepted connection drops the socket. *)
Definition on_accept (m : Mesh) : Mesh := m.

(** The keys of the [std::map], in order. *)
Definition get_active_peers (m : Mesh) : list Z := merge_sort Z.le (elements (dom (peers_ m))).

End Mesh.

(** ** First in, first out *)

(** The states of the write side after the handshake: [fin] frames are on the wire, and
    the first of the outbox is being written ([busy]) or its write has failed. *)
Inductive write_inv (base : bytes) (sent : list bytes) : Connection -> Prop :=
| wi_idle :
    write_inv base sent (mkConn [] [] (base ++ concat sent))
| wi_busy fin pre rest tl :
    sent = fin ++ (pre ++ rest) :: tl ->
    write_inv base sent (mkConn ((pre ++ rest) :: tl) [WriteFrame rest] (base ++ concat fin ++ pre))
| wi_failed fin pre rest tl :
    sent = fin ++ (pre ++ rest) :: tl ->
    write_inv base sent (mkConn ((pre ++ rest) :: tl) [] (base ++ concat fin ++ pre)).

Lemma write_inv_send base sent p c :
  write_inv base sent c -> write_inv base (sent ++ [p]) (conn_send p c).
Proof.
  destruct 1 as [|fin pre rest tl ->|fin pre rest tl ->]; unfold conn_send; simpl.
  - replace (base ++ concat sent) with (base ++ concat sent ++ []) by by rewrite app_nil_r.
    by apply (wi_busy _ _ sent [] p []).
  - apply (wi_busy _ _ fin pre rest (tl ++ [p])). by rewrite <- app_assoc.
  - apply (wi_failed _ _ fin pre rest (tl ++ [p])). by rewrite <- app_assoc.
Qed.

Lemma write_inv_transfer base sent i n c c' :
  write_inv base sent c -> transfer i n c = Some c' -> write_inv base sent c'.
Proof.
  destruct 1 as [|fin pre rest tl Hs|fin pre rest tl Hs]; destruct i as [|i];
    unfold transfer; simpl; try (intros; discriminate).
  destruct (n <=? length rest)%nat; [|done]. intros [= <-].
  replace (pre ++ rest) with ((pre ++ take n rest) ++ drop n rest) in *
    by by rewrite <- app_assoc, take_drop.
  replace ((base ++ concat fin ++ pre) ++ take n rest) with (base ++ concat fin ++ pre ++ take n rest)
    by by rewrite !app_assoc.
  by apply wi_busy.
Qed.

Lemma write_inv_complete base sent i failed c c' :
  write_inv base sent c -> complete i failed c = Some c' -> write_inv base sent c'.
Proof.
  destruct 1 as [|fin pre rest tl Hs|fin pre rest tl Hs]; destruct i as [|i];
    unfold complete; simpl; try (intros; discriminate).
  destruct failed; simpl.
  { intros [= <-]. by apply wi_failed. }
  destruct rest as [|b rest]; [|done]. rewrite app_nil_r in *. intros [= <-].
  destruct tl as [|p tl]; simpl.
  - replace (base ++ concat fin ++ pre) with (base ++ concat sent); [constructor|].
    rewrite Hs, concat_app. simpl. by rewrite app_nil_r.
  - replace (base ++ concat fin ++ pre) with (base ++ concat (fin ++ [pre]) ++ []).
    2: { rewrite concat_app. simpl. by rewrite !app_nil_r. }
    apply (wi_busy _ _ (fin ++ [pre]) [] p tl). by rewrite Hs, <- app_assoc.
Qed.

Lemma write_inv_run base evs c c' sent :
  write_inv base sent c -> conn_run evs c = Some c' -> write_inv base (sent ++ payloads evs) c'.
Proof.
  revert c sent. induction evs as [|ev evs IH]; intros c sent Hc; simpl.
  { intros [= <-]. by rewrite app_nil_r. }
  intros H. apply bind_Some in H as (c1 & Hstep & Hrun).
  destruct ev as [p|i n|i f]; simpl in Hstep.
  - injection Hstep as <-. specialize (IH _ _ (write_inv_send _ _ p _ Hc) Hrun).
    by rewrite <- app_assoc in IH.
  - by apply (IH c1); [eapply write_inv_transfer|].
  - by apply (IH c1); [eapply write_inv_complete|].
Qed.

Lemma write_inv_prefix base sent c :
  write_inv base sent c -> exists rest, base ++ concat sent = wire c ++ rest.
Proof.
  destruct 1 as [|fin pre rest tl ->|fin pre rest tl ->]; simpl.
  - exists []. by rewrite app_nil_r.
  - exists (rest ++ concat tl). rewrite concat_app. simpl. by rewrite <- !app_assoc.
  - exists (rest ++ concat tl). rewrite concat_app. simpl. by rewrite <- !app_assoc.
Qed.

(** Without a failed write the outbox can always be drained. *)
Lemma write_inv_drain base sent c :
  write_inv base sent c -> pending c <> [] \/ outbox_ c = [] ->
  exists evs c', payloads evs = [] /\ conn_run evs c = Some c' /\ outbox_ c' = [] /\
    wire c' = base ++ concat sent.
Proof.
  remember (length (outbox_ c)) as n eqn:Hn. revert c Hn.
  induction n as [n IH] using lt_wf_ind. intros c Hn Hc.
  destruct Hc as [|fin pre rest tl Hs|fin pre rest tl Hs]; simpl; intros Hidle.
  { by exists [], (mkConn [] [] (base ++ concat sent)). }
  2: { destruct Hidle; done. }
  pose (c := mkConn ((pre ++ rest) :: tl) [WriteFrame rest] (base ++ concat fin ++ pre)).
  assert (write_inv base sent c) as Hc by by apply wi_busy.
  assert (exists c1, conn_run [EvTransfer 0 (length rest); EvComplete 0 false] c = Some c1 /\
    outbox_ c1 = tl /\ (pending c1 <> [] \/ outbox_ c1 = [])) as (c1 & Hrun & Hout & Hp).
  { unfold c. simpl. unfold transfer. simpl. rewrite Nat.leb_refl, drop_all. simpl.
    unfold complete. simpl. destruct tl; simpl; eexists; split; try done; simpl; auto. }
  assert (write_inv base sent c1) as Hc1.
  { apply (write_inv_run _ [EvTransfer 0 (length rest); EvComplete 0 false] c c1) in Hc; [|done].
    by rewrite app_nil_r in Hc. }
  destruct (IH (length tl) ltac:(simpl in Hn; lia) c1 ltac:(by rewrite Hout) Hc1 Hp)
    as (evs & c' & Hpay & Hrun' & Hfin).
  exists ([EvTransfer 0 (length rest); EvComplete 0 false] ++ evs), c'.
  split; [done|]. split; [|done]. unfold c in Hrun. simpl in *.
  apply bind_Some in Hrun as (c2 & -> & Hrun). simpl.
  apply bind_Some in Hrun as (c3 & -> & [= ->]). done.
Qed.

Lemma run_without_sends evs c c' :
  outbox_ c = [] -> (forall r, WriteFrame r ∉ pending c) -> payloads evs = [] ->
  conn_run evs c = Some c' -> outbox_ c' = [].
Proof.
  revert c. induction evs as [|ev evs IH]; intros c Hout Hp Hpay; simpl.
  { by intros [= <-]. }
  intros H. apply bind_Some in H as (c1 & Hstep & Hrun).
  destruct ev as [p|i n|i f]; simpl in *; [done| |].
  - unfold transfer in Hstep. destruct (pending c !! i) as [[r|r]|] eqn:Hi; try done.
    + case_match; [|done]. injection Hstep as <-. eapply IH; [| | |exact Hrun]; try done.
      intros r' Hin. apply list_elem_of_lookup in Hin as [j Hj]. simpl in Hj.
      apply list_lookup_insert_Some in Hj as [(_ & [=] & _)|[_ Hj]].
      apply (Hp r'). by eapply list_elem_of_lookup_2.
    + exfalso. apply (Hp r). by eapply list_elem_of_lookup_2.
  - unfold complete in Hstep. destruct (pending c !! i) as [op|] eqn:Hi; [|done].
    assert (forall r, WriteFrame r ∉ delete i (pending c)) as Hp'.
    { intros r Hin. apply (Hp r). by eapply list_elem_of_delete_inv. }
    destruct f; [injection Hstep as <-; by eapply IH in Hrun|].
    destruct op as [[|? ?]|r]; try done; [injection Hstep as <-; by eapply IH in Hrun|].
    exfalso. apply (Hp r). by eapply list_elem_of_lookup_2.
Qed.

(** C32: on a connection whose handshake (the four bytes of the id) has been written and
    completed before the first [send] (otherwise [handshake_can_be_split]), whatever the
    socket accepts at a time and in whatever order sends, transfers and completions happen,
    the bytes on the wire are a prefix of the id followed by the frames in the order they
    were sent; they are all of it once the outbox is empty; and as long as no write has
    failed the outbox can be drained. *)
Theorem frames_in_order my_id hs c0 evs c :
  conn_run hs (do_send_id my_id conn_new) = Some c0 -> payloads hs = [] ->
  pending c0 = [] -> wire c0 = le32 my_id ->
  conn_run evs c0 = Some c ->
  let stream := le32 my_id ++ concat (payloads evs) in
  (exists rest, stream = wire c ++ rest) /\
  (outbox_ c = [] -> wire c = stream) /\
  (pending c <> [] \/ outbox_ c = [] ->
   exists more c', payloads more = [] /\ conn_run more c = Some c' /\ outbox_ c' = [] /\ wire c' = stream).
Proof.
  intros Hhs Hpay Hp Hw Hrun stream.
  assert (outbox_ c0 = []) as Hout.
  { eapply run_without_sends; [..|exact Hhs]; try done. simpl. intros r Hin.
    by apply list_elem_of_singleton in Hin. }
  assert (write_inv (le32 my_id) (payloads evs) c) as Hc.
  { apply (write_inv_run (le32 my_id) evs c0 c []); [|done].
    pose proof (wi_idle (le32 my_id) []) as H. cbn [concat] in H. rewrite app_nil_r in H.
    by destruct c0; simplify_eq/=. }
  split; [by apply write_inv_prefix|]. split; [|by apply write_inv_drain].
  by destruct Hc.
Qed.

Definition hello : list conn_event := [EvTransfer 0 4; EvComplete 0 false].
Definition two_sends : list conn_event :=
  [EvSend (str "abc"); EvTransfer 0 2; EvSend (str "de"); EvTransfer 0 1; EvComplete 0 false; EvTransfer 0 1].

Lemma frames_in_order_witness :
  exists c0 c, conn_run hello (do_send_id 5 conn_new) = Some c0 /\ conn_run two_sends c0 = Some c /\
    wire c = le32 5 ++ str "abcd" /\
    exists rest, le32 5 ++ concat (payloads two_sends) = wire c ++ rest.
Proof.
  eexists _, _. split; [vm_compute; reflexivity|]. split; [vm_compute; reflexivity|].
  split; [vm_compute; reflexivity|].
  eapply (frames_in_order 5 hello); vm_compute; reflexivity.
Defined.

Lemma stalled_run evs c c2 :
  pending c = [] -> outbox_ c <> [] -> conn_run evs c = Some c2 ->
  wire c2 = wire c /\ outbox_ c2 = outbox_ c ++ payloads evs.
Proof.
  revert c c2.
  induction evs as [|ev evs IH]; intros c c2 Hp Hout; simpl.
  { intros [= <-]. by rewrite app_nil_r. }
  intros H. apply bind_Some in H as (c1 & Hstep & Hrun).
  destruct ev as [p|[|i] n|[|i] f]; simpl in Hstep; unfold transfer, complete in Hstep; rewrite ?Hp in Hstep; try done.
  injection Hstep as <-. unfold conn_send in Hrun. rewrite bool_decide_eq_false_2 in Hrun by done.
  simpl in Hrun. apply IH in Hrun as [-> ->]; [|done|by destruct (outbox_ c)].
  split; [done|]. simpl. by rewrite <- app_assoc.
Qed.

(** Once a frame's write has failed, nothing is ever written again on the connection:
    the failed frame stays at the front of the outbox, and every later [send] only queues
    behind it. *)
Theorem write_error_stalls c rest c1 evs c2 :
  pending c = [WriteFrame rest] -> outbox_ c <> [] ->
  conn_step (EvComplete 0 true) c = Some c1 -> conn_run evs c1 = Some c2 ->
  wire c2 = wire c /\ outbox_ c2 = outbox_ c ++ payloads evs.
Proof.
  intros Hp Hout Hfail Hrun. simpl in Hfail. unfold complete in Hfail. rewrite Hp in Hfail.
  injection Hfail as <-.
  by apply (stalled_run evs (mkConn (outbox_ c) [] (wire c))).
Qed.

Lemma write_error_stalls_witness :
  exists c c1 c2, conn_run (hello ++ [EvSend (str "abc")]) (do_send_id 5 conn_new) = Some c /\
    conn_step (EvComplete 0 true) c = Some c1 /\ conn_run [EvSend (str "d")] c1 = Some c2 /\
    wire c2 = wire c /\ outbox_ c2 = outbox_ c ++ payloads [EvSend (str "d")].
Proof.
  eexists _, _, _. split; [vm_compute; reflexivity|]. split; [vm_compute; reflexivity|].
  split; [vm_compute; reflexivity|].
  eapply (write_error_stalls _ (str "abc") _ [EvSend (str "d")]); try (vm_compute; reflexivity).
  vm_compute. discriminate.
Defined.

(** A [send] that runs while the handshake is still being written starts a second
    [async_write] on the socket, and the frame's bytes can land inside the handshake. *)
Theorem handshake_can_be_split :
  exists evs c, conn_run evs (do_send_id 1 conn_new) = Some c /\
    payloads evs = [str "abcd"] /\ outbox_ c = [] /\ pending c = [] /\
    wire c = take 2 (le32 1) ++ str "abcd" ++ drop 2 (le32 1).
Proof.
  exists [EvTransfer 0 2; EvSend (str "abcd"); EvTransfer 1 4; EvTransfer 0 2;
          EvComplete 0 false; EvComplete 0 false].
  eexists. split; [vm_compute; reflexivity|]. by vm_compute.
Qed.

(** ** The reader: framing *)

Definition push (c : bytes) (r : Reader) : Reader :=
  mkReader (r_state r) (r_buf r ++ c) (peer_id_ r) (delivered r).

Definition reader_wf (r : Reader) : Prop :=
  match r_state r with ReadBody _ size => 0 <= size | _ => True end.

(** Every read uses up input or leaves the state of reading a body. *)
Definition read_measure (r : Reader) : nat :=
  (2 * length (r_buf r) + match r_state r with ReadBody _ _ => 1 | _ => 0 end)%nat.

Lemma read_step_measure r r' : read_step r = Some r' -> (read_measure r' < read_measure r)%nat.
Proof.
  unfold read_step, read_measure. intros H. cases; simpl; rewrite ?length_drop;
    rewrite ?Nat.ltb_ge in *; try lia.
Qed.

Lemma read_loop_settled fuel r : (read_measure r < fuel)%nat -> read_step (read_loop fuel r) = None.
Proof.
  revert r. induction fuel as [|fuel IH]; intros r Hf; [lia|]. simpl.
  destruct (read_step r) as [r'|] eqn:Hr; [|done].
  apply IH. apply read_step_measure in Hr. lia.
Qed.

Lemma read_loop_fuel n n' r :
  (read_measure r < n)%nat -> (read_measure r < n')%nat -> read_loop n r = read_loop n' r.
Proof.
  revert n' r. induction n as [|n IH]; intros n' r Hn Hn'; [lia|].
  destruct n' as [|n']; [lia|]. simpl. destruct (read_step r) as [r'|] eqn:Hr; [|done].
  apply read_step_measure in Hr. apply IH; lia.
Qed.

Lemma read_measure_bound r : (read_measure r < 2 + 2 * length (r_buf r))%nat.
Proof. unfold read_measure. case_match; lia. Qed.

Lemma read_all_step r r' : read_step r = Some r' -> read_all r = read_all r'.
Proof.
  intros Hr. unfold read_all. pose proof (read_step_measure _ _ Hr).
  rewrite (read_loop_fuel _ (S (read_measure r)) r) by (apply read_measure_bound || lia).
  cbn [read_loop]. rewrite Hr. apply read_loop_fuel; [done|apply read_measure_bound].
Qed.

Lemma read_step_push c r r' : reader_wf r -> read_step r = Some r' -> read_step (push c r) = Some (push c r').
Proof.
  unfold read_step, push, reader_wf, read32. intros Hwf H. simpl. rewrite !length_app, !zlen_app.
  pose proof (zlen_nonneg c). destruct (r_state r) as [| |lane size] eqn:Hs; cases;
    rewrite ?Nat.ltb_ge, ?Nat.ltb_lt in *; simpl in *; try lia; unfold zlen in *;
    rewrite ?drop_app_le, ?take_app_le by (rewrite ?length_drop; lia); try done.
Qed.

Lemma read_step_wf r r' : read_step r = Some r' -> reader_wf r'.
Proof.
  unfold read_step, reader_wf, read32. intros H. cases; simpl; try done.
  pose proof (le_combine_bound (take 4 (drop 4 (r_buf r)))). lia.
Qed.

Lemma read_loop_wf fuel r : reader_wf r -> reader_wf (read_loop fuel r).
Proof.
  revert r. induction fuel as [|fuel IH]; intros r Hr; simpl; [done|].
  destruct (read_step r) as [r'|] eqn:E; [|done]. by apply IH, (read_step_wf r).
Qed.

Lemma read_loop_push fuel c r : reader_wf r -> read_all (push c (read_loop fuel r)) = read_all (push c r).
Proof.
  revert r. induction fuel as [|fuel IH]; intros r Hr; simpl; [done|].
  destruct (read_step r) as [r'|] eqn:E; [|done].
  rewrite IH by by eapply read_step_wf. symmetry. by apply read_all_step, read_step_push.
Qed.

Lemma arrive_app a b r : reader_wf r -> arrive b (arrive a r) = arrive (a ++ b) r.
Proof.
  intros Hr.
  change (arrive b (arrive a r))
    with (read_all (push b (read_loop (2 + 2 * length (r_buf (push a r))) (push a r)))).
  rewrite read_loop_push by done. unfold arrive, push. simpl. by rewrite app_assoc.
Qed.

Lemma arrive_wf a r : reader_wf r -> reader_wf (arrive a r).
Proof. intros Hr. by apply read_loop_wf. Qed.

Lemma arrive_chunks chunks r :
  reader_wf r -> read_step r = None ->
  foldl (fun r c => arrive c r) r chunks = arrive (concat chunks) r.
Proof.
  revert r. induction chunks as [|c chunks IH]; intros r Hr Hs; simpl.
  - unfold arrive. rewrite app_nil_r. unfold read_all. destruct r; simpl in *. by rewrite Hs.
  - rewrite IH; [by apply arrive_app|by apply arrive_wf|].
    apply read_loop_settled, read_measure_bound.
Qed.

Lemma read32_le32 z rest : 0 <= z < 2 ^ 32 -> read32 (le32 z ++ rest) 0 = z.
Proof.
  intros Hz. unfold read32. rewrite drop_0, take_app_length' by (by rewrite length_le32).
  by rewrite le_combine_le32, u32_small.
Qed.

Lemma read_raw_frame lane body p d :
  0 <= lane < 2 ^ 32 -> zlen body < 2 ^ 32 ->
  arrive (raw_frame lane body) (mkReader ReadHeader [] p d) =
    mkReader ReadHeader [] p (d ++ [(p, lane, body)]).
Proof.
  intros Hl Hb. pose proof (zlen_nonneg body).
  change (read_all (push (raw_frame lane body) (mkReader ReadHeader [] p d)) =
          mkReader ReadHeader [] p (d ++ [(p, lane, body)])).
  rewrite (read_all_step _ (mkReader (ReadBody lane (zlen body)) body p d)).
  - rewrite (read_all_step _ (mkReader ReadHeader [] p (d ++ [(p, lane, body)]))); [done|].
    unfold read_step. simpl. rewrite Z.ltb_irrefl. unfold zlen. rewrite Nat2Z.id.
    by rewrite drop_all, firstn_all.
  - unfold read_step, push, raw_frame. cbn [r_state r_buf peer_id_ delivered app].
    rewrite !length_app, !length_le32. simpl (_ <? _)%nat.
    rewrite read32_le32 by done. unfold read32.
    rewrite (drop_app_length' (le32 lane)) by (by rewrite length_le32).
    rewrite (take_app_length' (le32 (zlen body))) by (by rewrite length_le32).
    rewrite le_combine_le32, u32_small by done.
    rewrite app_assoc, drop_app_length'; [done|]. by rewrite length_app, !length_le32.
Qed.

Definition frame_fits (m : Z * bytes) : Prop := 0 <= m.1 < 2 ^ 32 /\ zlen m.2 < 2 ^ 32.

Lemma read_raw_frames msgs p d :
  Forall frame_fits msgs ->
  arrive (concat ((fun m => raw_frame m.1 m.2) <$> msgs)) (mkReader ReadHeader [] p d) =
    mkReader ReadHeader [] p (d ++ ((fun m => (p, m.1, m.2)) <$> msgs)).
Proof.
  revert d. induction msgs as [|[lane body] msgs IH]; intros d Hf.
  { simpl. by rewrite app_nil_r. }
  apply Forall_cons in Hf as [[Hl Hb] Hf]. rewrite fmap_cons. cbn [concat fst snd].
  rewrite <- arrive_app, read_raw_frame, IH by done. simpl. by rewrite <- app_assoc.
Qed.

(** C33: an accepted connection delivers exactly the messages of the stream: if the bytes
    that arrive, cut into segments in any way, are the peer's id followed by messages framed
    as [Lane:4][Size:4][Body], then [on_message] is called once per message, in order, with
    the peer's id, and nothing is left over. *)
Theorem framing_roundtrip id msgs chunks :
  0 <= id < 2 ^ 32 -> Forall frame_fits msgs ->
  concat chunks = le32 id ++ concat ((fun m => raw_frame m.1 m.2) <$> msgs) ->
  foldl (fun r c => arrive c r) reader_inbound chunks =
    mkReader ReadHeader [] id ((fun m => (id, m.1, m.2)) <$> msgs).
Proof.
  intros Hid Hf Hc. rewrite arrive_chunks by done. rewrite Hc, <- arrive_app by done.
  replace (arrive (le32 id) reader_inbound) with (mkReader ReadHeader [] id []).
  { by rewrite read_raw_frames. }
  change (arrive (le32 id) reader_inbound) with (read_all (push (le32 id) reader_inbound)).
  rewrite (read_all_step _ (mkReader ReadHeader [] id [])); [done|].
  unfold read_step. cbn [push reader_inbound r_state r_buf peer_id_ delivered app].
  rewrite length_le32. simpl (_ <? _)%nat. rewrite <- (app_nil_r (le32 id)), read32_le32 by done.
  by rewrite app_nil_r.
Qed.

Lemma framing_roundtrip_witness :
  0 <= 7 < 2 ^ 32 /\ Forall frame_fits [(0, str "hi"); (3, [])] /\
  foldl (fun r c => arrive c r) reader_inbound
    [take 3 (le32 7); drop 3 (le32 7) ++ take 9 (raw_frame 0 (str "hi"));
     drop 9 (raw_frame 0 (str "hi")) ++ raw_frame 3 []] =
  mkReader ReadHeader [] 7 [(7, 0, str "hi"); (7, 3, [])].
Proof.
  split; [lia|]. assert (Forall frame_fits [(0, str "hi"); (3, [])]) as H.
  { repeat constructor; vm_compute; discriminate. }
  split; [exact H|]. apply (framing_roundtrip 7 [(0, str "hi"); (3, [])]); [lia|exact H|].
  vm_compute. reflexivity.
Defined.

(** ** What [Mesh::send] puts on the wire *)

Lemma read_loop_delivered fuel r : exists more, delivered (read_loop fuel r) = delivered r ++ more.
Proof.
  revert r. induction fuel as [|fuel IH]; intros r; simpl; [exists []; by rewrite app_nil_r|].
  destruct (read_step r) as [r'|] eqn:E; [|exists []; by rewrite app_nil_r].
  destruct (IH r') as [more ->]. unfold read_step in E. cases; simpl; try by exists more.
  rewrite <- app_assoc. by eexists.
Qed.

Lemma read_body_first fuel lane size buf p :
  match delivered (read_loop fuel (mkReader (ReadBody lane size) buf p [])) with
  | [] => True
  | (_, lane', _) :: _ => lane' = lane
  end.
Proof.
  destruct fuel as [|fuel]; simpl; [done|].
  destruct (read_step _) as [r'|] eqn:E; simpl; [|done].
  unfold read_step in E. simpl in E. destruct (zlen buf <? size); [done|]. injection E as <-.
  destruct (read_loop_delivered fuel (mkReader ReadHeader (drop (Z.to_nat size) buf) p
    [(p, lane, take (Z.to_nat size) buf)])) as [more ->]. done.
Qed.

Section MeshProps.
Context {l3 : Lite3} {l3_ok : Lite3Spec}.

Lemma mesh_frame_object lane payload :
  exists f, mesh_frame lane payload = Some f /\ lite3_object f.
Proof.
  unfold mesh_frame.
  destruct (set_bytes_ok (init_object buffer_default) (str "h")
    (le32 (lane_code lane) ++ le32 (u32 (zlen payload)))) as (f1 & -> & Hf1 & _).
  { apply init_object_ok. }
  destruct (set_bytes_ok f1 (str "b") payload Hf1) as (f2 & Hf2 & Hobj & _).
  by exists f2.
Qed.

(** A frame that [Mesh::send] puts on a fresh connection is not read back as the message
    sent: the receiver takes the first bytes of the encoded object for the lane, so the first
    message it can deliver from the stream carries none of the four lanes. *)
Theorem sent_frame_misread lane payload rest :
  exists f, mesh_frame lane payload = Some f /\
    match delivered (arrive (f ++ rest) reader_outbound) with
    | [] => True
    | (_, lane', _) :: _ => forall l : Lane, lane' <> lane_code l
    end.
Proof.
  destruct (mesh_frame_object lane payload) as (f & Hf & Hobj). exists f. split; [done|].
  apply object_tag in Hobj as [t ->].
  unfold arrive, read_all. cbn [r_state r_buf peer_id_ delivered reader_outbound app].
  remember (2 + 2 * length (Byte.x06 :: t ++ rest))%nat as fuel eqn:Hfuel.
  destruct fuel as [|fuel]; [discriminate|]. cbn [read_loop].
  destruct (read_step _) as [r'|] eqn:E; [|done].
  unfold read_step in E. cbn [r_state r_buf peer_id_ delivered] in E.
  destruct (_ <? _)%nat eqn:Hlen in E; [done|]. injection E as <-.
  set (lane' := read32 (Byte.x06 :: t ++ rest) 0).
  pose proof (read_body_first fuel lane' (read32 (Byte.x06 :: t ++ rest) 4)
    (drop 8 (Byte.x06 :: t ++ rest)) 0) as H.
  destruct (delivered _) as [|[[? ?] ?] ?]; [done|]. subst.
  assert (lane' mod 256 = 6) as Hmod.
  { unfold lane', read32. rewrite drop_0.
    change (take 4 (Byte.x06 :: t ++ rest)) with (Byte.x06 :: take 3 (t ++ rest)).
    change (le_combine (Byte.x06 :: take 3 (t ++ rest)))
      with (Z.lor 6 (Z.shiftl (le_combine (take 3 (t ++ rest))) 8)).
    rewrite Z.shiftl_mul_pow2 by done. change 256 with (2 ^ 8).
    rewrite <- Z.land_ones with (n := 8) by done. rewrite Z.land_lor_distr_l.
    rewrite (Z.land_ones _ 8), (Z.land_ones _ 8) by done. rewrite Z.mod_mul by done. done. }
  intros ln Heq. rewrite Heq in Hmod. by destruct ln.
Qed.

Lemma elem_of_active_peers p (m : Mesh) : p ∈ get_active_peers m <-> is_Some (peers_ m !! p).
Proof.
  unfold get_active_peers. rewrite merge_sort_Permutation, elem_of_elements. apply elem_of_dom.
Qed.

(** [Mesh::send] answers true exactly for the active peers.  For such a peer, without
    simulated latency, the frame goes to the end of the outbox of the peer's latest
    connection, no other connection changes, and the payload is counted on the lane; with
    latency it waits on a timer instead.  For any other peer nothing changes. *)
Theorem mesh_send_spec p lane payload (m : Mesh) :
  map_Forall (fun _ pr => (p_conn pr < length (conns m))%nat) (peers_ m) ->
  if decide (p ∈ get_active_peers m) then
    exists pr f m', peers_ m !! p = Some pr /\ mesh_frame lane payload = Some f /\
      mesh_send p lane payload m = (Ok true, m') /\ peers_ m' = peers_ m /\
      mesh_metrics m' = increment_mesh_bytes (lane_to_string (lane_code lane)) (zlen payload) true (mesh_metrics m) /\
      if 0 <? latency_ms_ m
      then conns m' = conns m /\ timers m' = timers m ++ [(p_conn pr, f)]
      else timers m' = timers m /\
           (exists c c', conns m !! p_conn pr = Some c /\ conns m' !! p_conn pr = Some c' /\
              outbox_ c' = outbox_ c ++ [f]) /\
           (forall i, i <> p_conn pr -> conns m' !! i = conns m !! i)
  else mesh_send p lane payload m = (Ok false, m).
Proof.
  intros Hwf. destruct (mesh_frame_object lane payload) as (f & Hf & _).
  case_decide as Hp; rewrite elem_of_active_peers in Hp.
  2: { unfold mesh_send. apply eq_None_not_Some in Hp. by rewrite Hp. }
  destruct Hp as [pr Hpr]. exists pr, f. unfold mesh_send. rewrite Hpr, Hf.
  eexists. split_and!; try done; [by case_match|by case_match|].
  destruct (0 <? latency_ms_ m); simpl; [done|]. split; [done|]. split.
  - destruct (lookup_lt_is_Some_2 (conns m) (p_conn pr)) as [c Hc]; [by eapply Hwf|].
    exists c, (conn_send f c). rewrite list_lookup_alter_eq, Hc. split_and!; try done.
    unfold conn_send, do_write. simpl. by destruct (outbox_ c).
  - intros i Hi. by apply list_lookup_alter_ne.
Qed.
End MeshProps.

Lemma sent_frame_misread_witness :
  exists f, mesh_frame Control (str "x") = Some f /\
    match delivered (arrive (f ++ str "trailing bytes") reader_outbound) with
    | [] => True
    | (_, lane', _) :: _ => forall l : Lane, lane' <> lane_code l
    end.
Proof. exact (sent_frame_misread Control (str "x") (str "trailing bytes")). Defined.

Definition sample_mesh : Mesh := (mesh_connect true 2 (str "host") 9090 (mesh_new 1 metrics_new)).2.

Lemma mesh_send_spec_witness :
  map_Forall (fun _ pr => (p_conn pr < length (conns sample_mesh))%nat) (peers_ sample_mesh) /\
  get_active_peers sample_mesh = [2] /\
  mesh_send 3 Heavy (str "x") sample_mesh = (Ok false, sample_mesh) /\
  exists m', mesh_send 2 Heavy (str "x") sample_mesh = (Ok true, m').
Proof.
  assert (map_Forall (fun _ pr => (p_conn pr < length (conns sample_mesh))%nat) (peers_ sample_mesh)) as Hwf.
  { intros i x Hx. cbn [sample_mesh mesh_connect mesh_new peers_ snd] in Hx.
    apply lookup_insert_Some in Hx as [[_ <-]|[_ Hx]]; [simpl; lia|done]. }
  split; [exact Hwf|]. split; [vm_compute; reflexivity|]. split.
  - pose proof (mesh_send_spec 3 Heavy (str "x") sample_mesh Hwf) as H.
    rewrite decide_False in H; [exact H|]. by rewrite elem_of_active_peers.
  - pose proof (mesh_send_spec 2 Heavy (str "x") sample_mesh Hwf) as H.
    rewrite decide_True in H by (rewrite elem_of_active_peers; by eexists).
    destruct H as (? & ? & m' & _ & _ & H & _). exists m'. exact H.
Defined.
