(* ===== verification/Main.v ===== *)
(** * The service (src/main.cpp)

    Command line, configuration file, and the wiring of the mesh to the sync manager.
    nlohmann::json is a parameter.  The second half follows a cluster of nodes wired this
    way through any exchange of sync messages. *)
From S2P Require Import Prelude CxxString Clock Extern Merkle Wal OrdMap Blob Credential.
From S2P Require Import Samples Store StoreSpec Engine EngineProps Scan Sync Metrics Mesh.

(** ** Configuration *)

(** The operations of nlohmann::json the loader uses; [None] is a thrown exception.
    [value] answers the default for a missing key and throws on a value of another type or
    on a document that is no object; the target type fixes the width. *)
Class Json := {
  json : Type;
  json_parse : bytes -> option json;
  value_string : json -> bytes -> bytes -> option bytes;
  value_ushort : json -> bytes -> Z -> option Z;
  value_int : json -> bytes -> Z -> option Z;
  value_uint : json -> bytes -> Z -> option Z;
  json_contains : json -> bytes -> bool;
  json_at : json -> bytes -> json;                   (* operator[] for a key that exists *)
  json_is_array : json -> bool;
  json_elements : json -> list json
}.

Record PeerConfig := mkPeerConfig { pc_id : Z; pc_host : bytes; pc_mesh_port : Z; pc_http_port : Z }.

Record Config := mkConfig {
  address : bytes;
  port : Z;
  min_threads : Z;
  max_threads : Z;
  wal_path : bytes;
  cfg_node_id : Z;
  mesh_port : Z;
  mesh_threads : Z;
  peers : list PeerConfig;
  cluster_mode : bytes;
  num_shards : Z;
  server_secret : bytes
}.

Definition default_config : Config :=
  mkConfig (str "127.0.0.1") 8080 4 32 (str "data.wal") 1 9090 2 [] (str "replicated") 1 [].

(** The argument loop of [main]; [arg[0]] of an empty argument is the terminator. *)
Fixpoint config_path (args : list bytes) (path : bytes) : bytes :=
  match args with
  | [] => path
  | arg :: rest =>
      if decide (arg = str "--config") then
        match rest with
        | next :: rest' => config_path rest' next
        | [] => path
        end
      else if decide (arg !! 0%nat = Some Byte.x2d) then config_path rest path
      else config_path rest arg
  end.

Section Config.
Context {js : Json}.

(** The loader mutates [cfg] as it goes: an exception leaves what was assigned. *)
Definition Load (A : Type) : Type := Config -> option A * Config.

Definition lret {A} (a : A) : Load A := fun c => (Some a, c).
Definition lbind {A B} (m : Load A) (f : A -> Load B) : Load B := fun c =>
  match m c with
  | (Some a, c') => f a c'
  | (None, c') => (None, c')
  end.
Definition assign {A} (read : Config -> option A) (write : A -> Config -> Config) : Load unit := fun c =>
  match read c with
  | Some v => (Some tt, write v c)
  | None => (None, c)
  end.

Notation "m1 ;> m2" := (lbind m1 (fun _ => m2)) (at level 60, right associativity).

Definition parse_peer (p : json) : option PeerConfig :=
  i ← value_uint p (str "id") 0;
  h ← value_string p (str "host") (str "127.0.0.1");
  mp ← value_int p (str "mesh_port") 9090;
  hp ← value_int p (str "http_port") 8080;
  Some (mkPeerConfig i h mp hp).

Definition push_peer (pc : PeerConfig) (c : Config) : Config :=
  mkConfig (address c) (port c) (min_threads c) (max_threads c) (wal_path c) (cfg_node_id c)
    (mesh_port c) (mesh_threads c)
    (if pc_id pc =? 0 then peers c else peers c ++ [pc]) (cluster_mode c) (num_shards c) (server_secret c).

Fixpoint load_peers (ps : list json) : Load unit :=
  match ps with
  | [] => lret tt
  | p :: ps' => assign (fun _ => parse_peer p) push_peer ;> load_peers ps'
  end.

Definition load_scalars (j : json) : Load unit :=
  assign (fun c => value_string j (str "address") (address c))
    (fun v '(mkConfig _ p mn mx w n mp mt ps cm ns ss) => mkConfig v p mn mx w n mp mt ps cm ns ss) ;>
  assign (fun c => value_ushort j (str "port") (port c))
    (fun v '(mkConfig a _ mn mx w n mp mt ps cm ns ss) => mkConfig a v mn mx w n mp mt ps cm ns ss) ;>
  assign (fun c => value_int j (str "min_threads") (min_threads c))
    (fun v '(mkConfig a p _ mx w n mp mt ps cm ns ss) => mkConfig a p v mx w n mp mt ps cm ns ss) ;>
  assign (fun c => value_int j (str "max_threads") (max_threads c))
    (fun v '(mkConfig a p mn _ w n mp mt ps cm ns ss) => mkConfig a p mn v w n mp mt ps cm ns ss) ;>
  assign (fun c => value_string j (str "wal_path") (wal_path c))
    (fun v '(mkConfig a p mn mx _ n mp mt ps cm ns ss) => mkConfig a p mn mx v n mp mt ps cm ns ss) ;>
  assign (fun c => value_uint j (str "node_id") (cfg_node_id c))
    (fun v '(mkConfig a p mn mx w _ mp mt ps cm ns ss) => mkConfig a p mn mx w v mp mt ps cm ns ss) ;>
  assign (fun c => value_int j (str "mesh_port") (mesh_port c))
    (fun v '(mkConfig a p mn mx w n _ mt ps cm ns ss) => mkConfig a p mn mx w n v mt ps cm ns ss) ;>
  assign (fun c => value_int j (str "mesh_threads") (mesh_threads c))
    (fun v '(mkConfig a p mn mx w n mp _ ps cm ns ss) => mkConfig a p mn mx w n mp v ps cm ns ss) ;>
  assign (fun _ => value_string j (str "server_secret") [])
    (fun v '(mkConfig a p mn mx w n mp mt ps cm ns _) => mkConfig a p mn mx w n mp mt ps cm ns v).

Definition load_cluster (c : json) : Load unit :=
  assign (fun cfg => value_string c (str "mode") (cluster_mode cfg))
    (fun v '(mkConfig a p mn mx w n mp mt ps _ ns ss) => mkConfig a p mn mx w n mp mt ps v ns ss) ;>
  assign (fun cfg => value_int c (str "shards") (num_shards cfg))
    (fun v '(mkConfig a p mn mx w n mp mt ps cm _ ss) => mkConfig a p mn mx w n mp mt ps cm v ss) ;>
  (if json_contains c (str "peers") then
     let p_node := json_at c (str "peers") in
     if json_is_array p_node then load_peers (json_elements p_node) else lret tt
   else lret tt).

Definition load_root_peers (j : json) : Load unit := fun cfg =>
  if bool_decide (peers cfg = []) && json_contains j (str "peers")
     && json_is_array (json_at j (str "peers"))
  then load_peers (json_elements (json_at j (str "peers"))) cfg
  else (Some tt, cfg).

(** [file] is the content of the configuration file, if it could be opened. *)
Definition load_config (file : option bytes) : Config :=
  match file with
  | None => default_config
  | Some text =>
      match json_parse text with
      | None => default_config
      | Some j =>
          ((load_scalars j ;>
            (if json_contains j (str "cluster") then load_cluster (json_at j (str "cluster")) else lret tt) ;>
            load_root_peers j) default_config).2
      end
  end.

(** The connect loop of [main]: [reachable] says which peers answer. *)
Definition connect_peers (reachable : PeerConfig -> bool) (ps : list PeerConfig) (m : Mesh) : Mesh :=
  foldl (fun m p => (mesh_connect (reachable p) (pc_id p) (pc_host p) (pc_mesh_port p) m).2) m ps.

End Config.

(** ** Dispatch *)

Section Dispatch.
Context {xxh : XXH3} {l3 : Lite3} {zs : Zstd} {srt : StdSort}.
Context (beyond : bytes) (wild : Z -> Z -> Z) (overflow : Z) (stale : bytes -> bytes).

(** The callback [main] registers with the mesh. *)
Definition on_message (node_id : Z) (lane : Z) (payload : bytes) : M (list Msg) :=
  if lane =? lane_code Control then handle_message beyond wild overflow stale node_id payload
  else ret [].

End Dispatch.

(** ** Loading: what a configuration can look like *)

Section ConfigProps.
Context {js : Json}.

Definition known_peers (c : Config) : Prop := Forall (fun p => pc_id p <> 0) (peers c).

(** Loading steps that keep the peer list clean, whether or not they throw. *)
Definition keeps {A} (m : Load A) : Prop := forall c, known_peers c -> known_peers (m c).2.

Lemma keeps_bind {A B} (m : Load A) (f : A -> Load B) : keeps m -> (forall a, keeps (f a)) -> keeps (lbind m f).
Proof.
  intros Hm Hf c Hc. unfold lbind. specialize (Hm c Hc). destruct (m c) as [[a|] c']; [by apply Hf|done].
Qed.

Lemma keeps_assign {A} (r : Config -> option A) (w : A -> Config -> Config) :
  (forall a c, known_peers c -> known_peers (w a c)) -> keeps (assign r w).
Proof. intros Hw c Hc. unfold assign. destruct (r c); [by apply Hw|done]. Qed.

Lemma keeps_ret {A} (a : A) : keeps (lret a).
Proof. by intros c Hc. Qed.

Lemma known_push_peer pc c : known_peers c -> known_peers (push_peer pc c).
Proof.
  unfold known_peers, push_peer. intros Hc. simpl. destruct (Z.eqb_spec (pc_id pc) 0); [done|].
  apply Forall_app. split; [done|]. by constructor.
Qed.

Lemma keeps_load_peers ps : keeps (load_peers ps).
Proof.
  induction ps as [|p ps IH]; simpl; [apply keeps_ret|].
  apply keeps_bind; [|done]. apply keeps_assign. intros. by apply known_push_peer.
Qed.

Ltac keep_step :=
  repeat first [ apply keeps_ret | apply keeps_load_peers
               | apply keeps_bind; [|intros _]
               | apply keeps_assign; intros ? [] ?; done
               | case_match ].

Lemma keeps_load_root_peers j : keeps (load_root_peers j).
Proof. intros c Hc. unfold load_root_peers. case_match; [by apply keeps_load_peers|done]. Qed.

(** Whatever the configuration file holds, valid or not, no configured peer has the
    id 0 that stands for a missing one. *)
Theorem configured_peers_have_ids file :
  Forall (fun p => pc_id p <> 0) (peers (load_config file)).
Proof.
  unfold load_config. destruct file as [text|]; [|constructor].
  destruct (json_parse text) as [j|]; [|constructor].
  enough (keeps (lbind (load_scalars j) (fun _ => lbind
    (if json_contains j (str "cluster") then load_cluster (json_at j (str "cluster")) else lret tt)
    (fun _ => load_root_peers j)))) as H by (apply H; constructor).
  unfold load_scalars, load_cluster. keep_step. apply keeps_load_root_peers.
Qed.

(** A value of the wrong type does not bring back the defaults: the fields read before
    it keep the values of the file, those from it on keep the defaults.  Here the port is
    unreadable and the address was read. *)
Theorem config_error_keeps_prefix text j a :
  json_parse text = Some j ->
  value_string j (str "address") (address default_config) = Some a ->
  value_ushort j (str "port") (port default_config) = None ->
  load_config (Some text) =
    mkConfig a (port default_config) (min_threads default_config) (max_threads default_config)
      (wal_path default_config) (cfg_node_id default_config) (mesh_port default_config)
      (mesh_threads default_config) [] (cluster_mode default_config) (num_shards default_config) [].
Proof.
  intros Hj Ha Hp. unfold load_config. rewrite Hj. unfold load_scalars, lbind, assign.
  rewrite Ha. change (port (mkConfig _ ?p _ _ _ _ _ _ _ _ _ _)) with p. simpl in *. by rewrite Hp.
Qed.

End ConfigProps.

(** A two-field document for evaluating the loader: an address, and a port that may be of
    the wrong type. *)
#[local] Instance sample_json : Json := {|
  json := bytes * option Z;
  json_parse t := match t with [] => None | _ => Some (t, None) end;
  value_string j k d := if decide (k = str "address") then Some j.1 else Some d;
  value_ushort j k d := j.2;
  value_int _ _ d := Some d;
  value_uint _ _ d := Some d;
  json_contains _ _ := false;
  json_at j _ := j;
  json_is_array _ := false;
  json_elements _ := []
|}.

Definition bad_port : bytes * option Z := (str "10.0.0.1", None).

Lemma config_error_keeps_prefix_witness :
  @json_parse sample_json (str "10.0.0.1") = Some bad_port /\
  address (load_config (Some (str "10.0.0.1"))) = str "10.0.0.1" /\
  port (load_config (Some (str "10.0.0.1"))) = 8080.
Proof.
  split; [reflexivity|].
  rewrite (@config_error_keeps_prefix sample_json (str "10.0.0.1") bad_port (str "10.0.0.1"));
    [split; reflexivity|reflexivity|reflexivity|reflexivity].
Defined.

(** ** A cluster wired by [main]

    Nodes exchange the messages of the sync manager.  A message that was sent can be
    delivered any number of times, in any order, or never. *)

Section Cluster.
Context {xxh : XXH3} {l3 : Lite3} {zs : Zstd} {srt : StdSort}.

Record Cluster := mkCluster { nodes : gmap Z Engine; network : list Msg }.

Inductive cluster_step : Cluster -> Cluster -> Prop :=
| step_gossip a active pick e msgs e' cl :
    nodes cl !! a = Some e ->
    trigger_gossip a active pick e = Some (Ok msgs, e') ->
    cluster_step cl (mkCluster (<[a := e']> (nodes cl)) (network cl ++ msgs))
| step_deliver m beyond wild overflow stale e msgs e' cl :
    m ∈ network cl -> nodes cl !! msg_to m = Some e ->
    on_message beyond wild overflow stale (msg_to m) (lane_code (msg_lane m)) (msg_body m) e
      = Some (Ok msgs, e') ->
    cluster_step cl (mkCluster (<[msg_to m := e']> (nodes cl)) (network cl ++ msgs)).

(** The message types the sync manager sends on the control lane. *)
Definition tree_type (b : Byte.byte) : Prop :=
  b = msgtype_byte SYNC_INIT \/ b = msgtype_byte SYNC_REQ_NODE \/
  b = msgtype_byte SYNC_REP_NODE \/ b = msgtype_byte SYNC_REQ_BUCKET.

Definition control_ok (m : Msg) : Prop := msg_lane m = Control -> tree_type (byte_at (msg_body m) 0).

(** An engine that differs from another one at most in the tree's cached hashes. *)
Definition cached_from (e0 e : Engine) : Prop := exists t, e = set_merkle t e0.

Lemma cached_refl e : cached_from e e.
Proof. exists (merkle_ (store e)). by destruct e as [[] ? ? ? ? ?]. Qed.

Lemma cached_set e0 e t : cached_from e0 e -> cached_from e0 (set_merkle t e).
Proof. intros [t' ->]. by exists t. Qed.

Lemma cached_trans e0 e1 e2 : cached_from e0 e1 -> cached_from e1 e2 -> cached_from e0 e2.
Proof. intros H [t ->]. by apply cached_set. Qed.

Lemma cached_idle e0 e : cached_from e0 e -> idle e0 -> idle e.
Proof. by intros [t ->]. Qed.

(** A handler that answers harmless messages and only refreshes caches. *)
Definition harmless (h : M (list Msg)) : Prop := forall e r e',
  idle e -> h e = Some (r, e') ->
  cached_from e e' /\ match r with Ok msgs => Forall control_ok msgs | Throw _ => True end.

Lemma harmless_ret l : Forall control_ok l -> harmless (ret l).
Proof. intros Hl e msgs e' _ [= <- <-]. split; [apply cached_refl|done]. Qed.

Lemma harmless_gets (f : Engine -> list Msg) : (forall e, Forall control_ok (f e)) -> harmless (gets f).
Proof. intros Hl e msgs e' _ [= <- <-]. split; [apply cached_refl|apply Hl]. Qed.

Lemma harmless_gets_bind {A} (f : Engine -> A) (k : A -> M (list Msg)) :
  (forall a, harmless (k a)) -> harmless (bind (gets f) k).
Proof. intros Hk e msgs e' He H. by apply (Hk (f e) e). Qed.

Lemma harmless_root (k : Z -> M (list Msg)) :
  (forall h, harmless (k h)) -> harmless (bind get_merkle_root_hash k).
Proof.
  intros Hk e msgs e' He H. unfold bind, get_merkle_root_hash in H.
  destruct (get_root_hash (merkle_ (store e))) as [h t].
  apply Hk in H as [Hc Hm]; [|done]. split; [|done].
  eapply cached_trans; [|exact Hc]. by exists t.
Qed.

Lemma header_type node t body : byte_at (header node t ++ body) 0 = msgtype_byte t.
Proof. done. Qed.

Lemma control_req_node node to lvl idx : control_ok (send_req_node node to lvl idx).
Proof. intros _. right. by left. Qed.
Lemma control_req_bucket node to b : control_ok (send_req_bucket node to b).
Proof. intros _. do 3 right. done. Qed.
Lemma control_heavy to body : control_ok (mkMsg to Heavy body).
Proof. by intros [=]. Qed.

Hint Resolve control_req_node control_req_bucket control_heavy harmless_ret Forall_nil_2 : l3kv.

Lemma harmless_gossip a active pick : harmless (trigger_gossip a active pick).
Proof.
  unfold trigger_gossip, send_sync_init. destruct active as [|p active]; [auto with l3kv|].
  destruct (_ !! pick); [|auto with l3kv]. apply harmless_root. intros h. apply harmless_ret.
  repeat constructor.
Qed.

Lemma harmless_tree_handlers beyond wild node from buf :
  harmless (on_sync_init node from buf) /\ harmless (on_req_node wild node from buf) /\
  harmless (on_rep_node beyond wild node from buf) /\ harmless (on_req_bucket node from buf).
Proof.
  unfold on_sync_init, on_req_node, on_rep_node, on_req_bucket.
  split_and!; (case_match; [auto with l3kv|]).
  - apply harmless_root. intros h. case_match; apply harmless_ret; auto with l3kv.
  - apply harmless_gets_bind. intros hs. apply harmless_ret. constructor; [|done].
    intros _. do 2 right. by left.
  - apply harmless_gets. intros e. apply Forall_concat, Forall_fmap, Forall_forall. intros i _. simpl.
    repeat case_match; auto with l3kv.
  - intros e msgs e' He Hr. unfold bind, get_bucket_keys in Hr.
    rewrite read_shards_idle in Hr by (done || apply all_shards).
    injection Hr as <- <-. split; [apply cached_refl|auto with l3kv].
Qed.

Lemma harmless_control beyond wild overflow stale node payload :
  tree_type (byte_at payload 0) -> harmless (handle_message beyond wild overflow stale node payload).
Proof.
  intros Ht e r e' He H. unfold handle_message in H.
  destruct (length payload <? 5)%nat.
  { injection H as <- <-. split; [apply cached_refl|done]. }
  destruct (harmless_tree_handlers beyond wild node (read32 payload 1) payload) as (H1 & H2 & H3 & H4).
  assert (exists h, harmless h /\ match h e with Some (Throw _, e') => Some (Ok [], e') | r => r end = Some (r, e'))
    as (h & Hh & Hr).
  { destruct Ht as [Ht|[Ht|[Ht|Ht]]]; rewrite Ht in H; eexists; (split; [|exact H]); done. }
  destruct (h e) as [[[msgs|x] e1]|] eqn:E; [| |done].
  - injection Hr as <- <-. exact (Hh e _ _ He E).
  - injection Hr as <- <-. split; [|done]. by apply (Hh e _ _ He E).
Qed.

Lemma harmless_on_message beyond wild overflow stale m :
  control_ok m ->
  harmless (on_message beyond wild overflow stale (msg_to m) (lane_code (msg_lane m)) (msg_body m)).
Proof.
  intros Hm. unfold on_message. destruct (msg_lane m) eqn:Hl; simpl; [|auto with l3kv..].
  apply harmless_control, Hm, Hl.
Qed.

(** The nodes have only refreshed their caches, and the control lane carries only messages
    about the tree. *)
Record quiet (ns0 : gmap Z Engine) (cl : Cluster) : Prop := {
  quiet_nodes n e : nodes cl !! n = Some e -> exists e0, ns0 !! n = Some e0 /\ cached_from e0 e;
  quiet_network : Forall control_ok (network cl)
}.

Lemma quiet_update ns0 cl n e h r e' :
  (forall n e, ns0 !! n = Some e -> idle e) -> quiet ns0 cl -> nodes cl !! n = Some e ->
  harmless h -> h e = Some (Ok r, e') ->
  quiet ns0 (mkCluster (<[n := e']> (nodes cl)) (network cl ++ r)).
Proof.
  intros Hidle [Hn Hw] He Hh Hr. destruct (Hn _ _ He) as (e0 & He0 & Hc).
  destruct (Hh e (Ok r) e' (cached_idle _ _ Hc (Hidle _ _ He0)) Hr) as [Hc' Hr'].
  split; simpl; [|by apply Forall_app].
  intros n' x Hx. apply lookup_insert_Some in Hx as [[<- <-]|[_ Hx]]; [|by apply Hn].
  exists e0. split; [done|]. by eapply cached_trans.
Qed.

Lemma quiet_step ns0 cl cl' :
  (forall n e, ns0 !! n = Some e -> idle e) -> quiet ns0 cl -> cluster_step cl cl' -> quiet ns0 cl'.
Proof.
  intros Hidle Hq Hs. destruct Hs as [a active pick e msgs e' cl He Hr|m by_ wl ov st e msgs e' cl Hm He Hr].
  - eapply quiet_update; [done|done|done|apply harmless_gossip|exact Hr].
  - eapply quiet_update; [done|done|done| |exact Hr]. apply harmless_on_message.
    by apply (proj1 (Forall_forall _ _) (quiet_network _ _ Hq)).
Qed.

(** C34: in a cluster whose nodes hand only the control lane to the sync manager, as [main]
    does, anti-entropy never repairs anything: listings and values travel on the heavy lane
    and are dropped, so after any exchange of messages every node still holds the data it
    started with and has logged nothing. *)
Theorem control_lane_never_repairs ns0 cl n e :
  (forall n e, ns0 !! n = Some e -> idle e) ->
  rtc cluster_step (mkCluster ns0 []) cl -> nodes cl !! n = Some e ->
  exists e0, ns0 !! n = Some e0 /\ shards_ (store e) = shards_ (store e0) /\ wal_ e = wal_ e0.
Proof.
  intros Hidle Hr. assert (quiet ns0 cl) as Hq.
  { assert (quiet ns0 (mkCluster ns0 [])) as H0.
    { split; simpl; [|constructor]. intros m x Hx. exists x. split; [done|apply cached_refl]. }
    remember (mkCluster ns0 []) as cl0 eqn:Heq. clear Heq.
    induction Hr as [|cl0 cl1 cl2 Hs _ IH]; [done|]. apply IH. by eapply quiet_step. }
  intros He. destruct (quiet_nodes _ _ Hq _ _ He) as (e0 & He0 & t & ->). by exists e0.
Qed.

End Cluster.

(** Two nodes with different contents: node 1 gossips its root to node 2. *)
Definition node_with (n : Z) (os : list store_op) : Engine :=
  set_store (run_ops os store_new) (engine_open [] n [10] []).

Definition two_nodes : gmap Z Engine :=
  <[1 := node_with 1 [SPut (str "k") (str "v")]]> (<[2 := node_with 2 []]> ∅).

Lemma node_with_idle n os : idle (node_with n os).
Proof. reflexivity. Qed.

Lemma two_nodes_idle n e : two_nodes !! n = Some e -> idle e.
Proof.
  unfold two_nodes. intros H. apply lookup_insert_Some in H as [[_ <-]|[_ H]]; [apply node_with_idle|].
  apply lookup_insert_Some in H as [[_ <-]|[_ H]]; [apply node_with_idle|done].
Qed.

Lemma control_lane_never_repairs_witness :
  exists cl e, rtc cluster_step (mkCluster two_nodes []) cl /\ length (network cl) = 1%nat /\
    nodes cl !! 1 = Some e /\
    exists e0, two_nodes !! 1 = Some e0 /\ shards_ (store e) = shards_ (store e0) /\ wal_ e = wal_ e0.
Proof.
  destruct (get_root_hash (merkle_ (store (node_with 1 [SPut (str "k") (str "v")])))) as [h t] eqn:Hr.
  assert (rtc cluster_step (mkCluster two_nodes [])
    (mkCluster (<[1 := set_merkle t (node_with 1 [SPut (str "k") (str "v")])]> two_nodes)
       ([] ++ [mkMsg 2 Control (sync_init_msg 1 h)]))) as Hrun.
  { apply rtc_once. apply (step_gossip 1 [2] 0%nat (node_with 1 [SPut (str "k") (str "v")]) _ _ (mkCluster two_nodes [])).
    - apply lookup_insert_eq.
    - unfold trigger_gossip, send_sync_init, bind, get_merkle_root_hash. cbn [lookup list_lookup].
      rewrite Hr. reflexivity. }
  eexists _, _. split; [exact Hrun|]. split; [reflexivity|].
  split; [apply lookup_insert_eq|].
  eapply (control_lane_never_repairs two_nodes _ 1); [exact two_nodes_idle|exact Hrun|apply lookup_insert_eq].
Defined.
