(* ===== verification/Service.v ===== *)
(** * The threads of the service (src/main.cpp)

    [main] listens on the mesh, starts a pool of threads on the io context, the gossip thread
    and one more io thread, serves requests until [ZmqServer::run] returns, and shuts down.
    The model keeps what decides which thread can go on: the flags, the pending accept of the
    mesh, and where each thread stands.  boost::asio's [io_context::run] returns when the
    context is stopped or nothing is pending. *)
From S2P Require Import Prelude.

(** ** State *)

(** The acceptor: not listening, an accept pending, or the delay after an error. *)
Inductive accept_state := NotListening | Accepting | Delayed.

(** [SyncManager::run_loop]: before the test of the loop, asleep, before the second test, in
    [trigger_gossip], after the loop. *)
Inductive sync_pc := STest | SSleep | SRetest | SGossip | SEnd.

(** [main], before the statement named; [MTerminate]: an exception unwinds past threads that
    are not joined, which ends the process ([std::terminate]). *)
Inductive main_pc :=
| MListen | MPool | MSyncStart | MMeshThread | MRun | MServing
| MJoinMesh | MSyncStop | MJoinSync | MIoStop | MJoinPool | MFlush | MReturn | MTerminate.

Record Service := mkService {
  main_at : main_pc;
  accepting : accept_state;
  io_stopped : bool;
  pool : list bool;            (** a thread of [mesh_pool] is still in [run()] *)
  mesh_thread : option bool;   (** the same for [mesh_thread], once started *)
  sync_running : bool;
  sync_thread : option sync_pc;
  gossips : nat;
  zmq_running : bool;
  flushed : bool }.

Definition service_new : Service :=
  mkService MListen NotListening false [] None false None 0 false false.

(** ** The gossip thread *)

Definition sync_start (s : Service) : Service :=
  if sync_running s then s
  else mkService (main_at s) (accepting s) (io_stopped s) (pool s) (mesh_thread s) true (Some STest)
         (gossips s) (zmq_running s) (flushed s).

(** [stop], up to the join. *)
Definition sync_stop (s : Service) : Service :=
  mkService (main_at s) (accepting s) (io_stopped s) (pool s) (mesh_thread s) false (sync_thread s)
    (gossips s) (zmq_running s) (flushed s).

Definition sync_step (s : Service) : option Service :=
  let go c g := Some (mkService (main_at s) (accepting s) (io_stopped s) (pool s) (mesh_thread s)
    (sync_running s) (Some c) (gossips s + g) (zmq_running s) (flushed s)) in
  match sync_thread s with
  | Some STest => go (if sync_running s then SSleep else SEnd) 0%nat
  | Some SSleep => go SRetest 0%nat
  | Some SRetest => go (if sync_running s then SGossip else SEnd) 0%nat
  | Some SGossip => go STest 1%nat
  | Some SEnd | None => None
  end.

(** ** The io context *)

(** [Mesh::listen] and [Mesh::do_accept]. *)
Definition do_accept (s : Service) : Service :=
  mkService (main_at s) Accepting (io_stopped s) (pool s) (mesh_thread s) (sync_running s) (sync_thread s)
    (gossips s) (zmq_running s) (flushed s).

(** A pending handler of the acceptor runs on some io thread; [ec]: the accept failed. *)
Definition accept_handler (ec : bool) (s : Service) : option Service :=
  match accepting s with
  | NotListening => None
  | Accepting =>
      if ec then Some (mkService (main_at s) Delayed (io_stopped s) (pool s) (mesh_thread s) (sync_running s)
                         (sync_thread s) (gossips s) (zmq_running s) (flushed s))
      else Some (do_accept s)
  | Delayed => Some (do_accept s)
  end.

(** [io_context::run] may return. *)
Definition run_returns (s : Service) : bool :=
  io_stopped s || match accepting s with NotListening => true | _ => false end.

(** ** [main] *)

Definition at_main (m : main_pc) (s : Service) : Service :=
  mkService m (accepting s) (io_stopped s) (pool s) (mesh_thread s) (sync_running s) (sync_thread s)
    (gossips s) (zmq_running s) (flushed s).

Definition main_step (mesh_threads : nat) (bind_fails : bool) (s : Service) : option Service :=
  match main_at s with
  | MListen => Some (at_main MPool (do_accept s))
  | MPool =>
      Some (mkService MSyncStart (accepting s) (io_stopped s) (replicate mesh_threads true) (mesh_thread s)
        (sync_running s) (sync_thread s) (gossips s) (zmq_running s) (flushed s))
  | MSyncStart => Some (at_main MMeshThread (sync_start s))
  | MMeshThread =>
      Some (mkService MRun (accepting s) (io_stopped s) (pool s) (Some true)
        (sync_running s) (sync_thread s) (gossips s) (zmq_running s) (flushed s))
  | MRun =>
      if bind_fails then Some (at_main MTerminate s)
      else Some (mkService MServing (accepting s) (io_stopped s) (pool s) (mesh_thread s)
        (sync_running s) (sync_thread s) (gossips s) true (flushed s))
  | MServing => if zmq_running s then Some s else Some (at_main MJoinMesh s)
  | MJoinMesh => match mesh_thread s with Some true => None | _ => Some (at_main MSyncStop s) end
  | MSyncStop => Some (at_main MJoinSync (sync_stop s))
  | MJoinSync => match sync_thread s with Some SEnd | None => Some (at_main MIoStop s) | _ => None end
  | MIoStop =>
      Some (mkService MJoinPool (accepting s) true (pool s) (mesh_thread s)
        (sync_running s) (sync_thread s) (gossips s) (zmq_running s) (flushed s))
  | MJoinPool => if forallb negb (pool s) then Some (at_main MFlush s) else None
  | MFlush =>
      Some (mkService MReturn (accepting s) (io_stopped s) (pool s) (mesh_thread s)
        (sync_running s) (sync_thread s) (gossips s) (zmq_running s) true)
  | MReturn | MTerminate => None
  end.

(** [ZmqServer::stop], by whoever calls it. *)
Definition zmq_stop (s : Service) : Service :=
  mkService (main_at s) (accepting s) (io_stopped s) (pool s) (mesh_thread s) (sync_running s) (sync_thread s)
    (gossips s) false (flushed s).

Inductive service_step (mesh_threads : nat) : Service -> Service -> Prop :=
| service_main s s' bind_fails : main_step mesh_threads bind_fails s = Some s' -> service_step mesh_threads s s'
| service_sync s s' : sync_step s = Some s' -> service_step mesh_threads s s'
| service_accept s s' ec : accept_handler ec s = Some s' -> service_step mesh_threads s s'
| service_pool s i :
    pool s !! i = Some true -> run_returns s = true ->
    service_step mesh_threads s
      (mkService (main_at s) (accepting s) (io_stopped s) (<[i := false]> (pool s)) (mesh_thread s)
        (sync_running s) (sync_thread s) (gossips s) (zmq_running s) (flushed s))
| service_mesh s :
    mesh_thread s = Some true -> run_returns s = true ->
    service_step mesh_threads s
      (mkService (main_at s) (accepting s) (io_stopped s) (pool s) (Some false)
        (sync_running s) (sync_thread s) (gossips s) (zmq_running s) (flushed s))
| service_stop s : service_step mesh_threads s (zmq_stop s).

(** ** Properties *)

Definition before_join (m : main_pc) : bool :=
  match m with
  | MListen | MPool | MSyncStart | MMeshThread | MRun | MServing | MJoinMesh | MTerminate => true
  | _ => false
  end.

(** [main] has not come past the join of [mesh_thread], whose [run()] has a pending accept in
    a context that nobody stopped. *)
Record stuck (s : Service) : Prop := {
  stuck_main : before_join (main_at s) = true;
  stuck_accept : main_at s <> MListen -> accepting s <> NotListening;
  stuck_listen : main_at s = MListen -> mesh_thread s = None;
  stuck_io : io_stopped s = false;
  stuck_thread : main_at s = MRun \/ main_at s = MServing \/ main_at s = MJoinMesh -> mesh_thread s = Some true;
  stuck_flush : flushed s = false }.

Lemma stuck_main_step k b s s' : stuck s -> main_step k b s = Some s' -> stuck s'.
Proof.
  intros [Hm Ha Hl Hio Ht Hf]. unfold main_step, sync_start.
  destruct (main_at s) eqn:Em; try done; try rewrite Ht by auto; repeat case_match; intros; simplify_eq;
    split; simpl; rewrite ?Em; try done; try (by intros _; apply Ha); naive_solver.
Qed.

Lemma stuck_step k s s' : stuck s -> service_step k s s' -> stuck s'.
Proof.
  intros Hst Hs. pose proof Hst as [Hm Ha Hl Hio Ht Hf].
  destruct Hs as [s s' b Hs|s s' Hs|s s' ec Hs|s i Hp Hret|s Hmt Hret|s].
  - by eapply stuck_main_step.
  - unfold sync_step in Hs. repeat case_match; simplify_eq; by split.
  - unfold accept_handler in Hs. repeat case_match; simplify_eq; by split.
  - by split.
  - exfalso. unfold run_returns in Hret. rewrite Hio in Hret. simpl in Hret.
    destruct (accepting s) eqn:Ea; try done. apply Ha; [|done]. intros Em. by rewrite Hl in Hmt.
  - by split.
Qed.

(** C35: [main] never shuts the service down in order: whatever the threads do, and even if
    [ZmqServer::stop] is called, it joins [mesh_thread], whose io context has a pending accept
    and is stopped only afterwards.  The gossip thread is not stopped and the log is never
    flushed to the disk. *)
Theorem main_never_flushes k s :
  rtc (service_step k) service_new s ->
  flushed s = false /\ io_stopped s = false /\
  (main_at s = MJoinMesh -> forall b, main_step k b s = None).
Proof.
  intros Hr. assert (stuck s) as Hst.
  { assert (stuck service_new) as H0 by (split; naive_solver).
    induction Hr as [|s1 s2 s3 Hs _ IH]; [done|]. apply IH. by eapply stuck_step. }
  split; [by apply stuck_flush|]. split; [by apply stuck_io|]. intros Hm b. unfold main_step.
  rewrite Hm. rewrite (stuck_thread s Hst) by auto. done.
Qed.

(** The service started, stopped by [ZmqServer::stop], and [main] in the join. *)
Definition stopping : Service :=
  mkService MJoinMesh Accepting false [true; true] (Some true) true (Some STest) 0 false false.

Lemma main_never_flushes_witness :
  rtc (service_step 2) service_new stopping /\ forall b, main_step 2 b stopping = None.
Proof.
  assert (rtc (service_step 2) service_new stopping) as Hr.
  { do 5 (eapply rtc_l; [by apply (service_main 2 _ _ false)|]).
    eapply rtc_l; [apply service_stop|]. apply rtc_once. by apply (service_main 2 _ _ false). }
  split; [exact Hr|]. exact (proj2 (proj2 (main_never_flushes 2 stopping Hr)) eq_refl).
Defined.

(** ** Stopping the gossip thread *)

Definition sync_run (k : nat) (s : Service) : Service :=
  Nat.iter k (fun s => match sync_step s with Some s' => s' | None => s end) s.

(** After [running_ = false] the thread ends within four steps of its own, the sleep of two
    seconds included, and gossips at most once more: [SyncManager::stop] returns. *)
Lemma sync_stop_ends s c :
  sync_thread s = Some c ->
  sync_thread (sync_run 4 (sync_stop s)) = Some SEnd /\
  (gossips (sync_run 4 (sync_stop s)) <= gossips s + 1)%nat.
Proof.
  destruct s as [m a io p mt r th g z fl]. simpl. intros [= ->].
  destruct c; cbn [sync_run sync_stop Nat.iter nat_rect sync_step sync_thread sync_running gossips]; split; reflexivity || lia.
Qed.
