(* ===== verification/Logger.v ===== *)
(** * The log file of the service (src/observability/file_logger.hpp)

    [FileLogger] appends one line per message to the file it has open and drops messages while
    none is open.  The lock makes each call atomic, so a run is a sequence of calls.  The file
    system is a map from paths to contents; the clock is the argument [now], nanoseconds since
    the epoch. *)
From stdpp Require Import gmap.
From S2P Require Import Prelude CxxString CxxStream Main.

(** [std::setfill(fill) << std::setw(width)] on a right-aligned text. *)
Definition setw_fill (fill : Byte.byte) (width : nat) (s : bytes) : bytes := replicate (width - length s) fill ++ s.

Record FileLogger := mkLogger { files : gmap bytes bytes; file_ : option bytes }.

Definition logger_new (fs : gmap bytes bytes) : FileLogger := mkLogger fs None.

(** [open]; [ok] is whether the operating system opens the file, which it creates when there is
    none. *)
Definition open (path : bytes) (ok : bool) (s : FileLogger) : FileLogger :=
  if ok then mkLogger (<[path := default [] (files s !! path)]> (files s)) (Some path)
  else mkLogger (files s) None.

Section Log.
(** [std::put_time] of a [time_t] in local time. *)
Context (local_time : Z -> bytes).

(** [to_time_t(now)] and the milliseconds: conversions of durations truncate. *)
Definition time_of (now : Z) : Z := Z.quot now (10 ^ 9).
Definition ms_of (now : Z) : Z := Z.rem (Z.quot now (10 ^ 6)) 1000.

Definition log_text (level msg : bytes) (now : Z) : bytes :=
  str "[" ++ local_time (time_of now) ++ str "." ++ setw_fill Byte.x30 3 (to_string (ms_of now)) ++ str "] "
  ++ str "[" ++ level ++ str "] " ++ msg.

Definition log (level msg : bytes) (now : Z) (s : FileLogger) : FileLogger :=
  match file_ s with
  | None => s
  | Some path => mkLogger (<[path := default [] (files s !! path) ++ log_text level msg now ++ [Byte.x0a]]> (files s)) (Some path)
  end.

(** The messages of [main] before it starts its threads; [t1] to [t4] are the clock readings. *)
Definition log_startup (cfg : Config) (ok : bool) (t1 t2 t3 t4 : Z) (s : FileLogger) : FileLogger :=
  let s := open (str "l3svc_" ++ to_string (cfg_node_id cfg) ++ str ".log") ok s in
  let s := log (str "INFO") (str "Starting Lite3 Service...") t1 s in
  let s := log (str "INFO") (str "  Address: " ++ address cfg ++ str ":" ++ to_string (port cfg)) t2 s in
  let s := log (str "INFO") (str "  Threads: " ++ to_string (min_threads cfg) ++ str "-"
    ++ to_string (max_threads cfg)) t3 s in
  log (str "INFO") (str "  Node ID: " ++ to_string (cfg_node_id cfg)) t4 s.

(** ** Sequences of calls *)

Inductive log_call := LOpen (path : bytes) (ok : bool) | LLog (level msg : bytes) (now : Z).

Definition run_log_call (s : FileLogger) (c : log_call) : FileLogger :=
  match c with LOpen path ok => open path ok s | LLog level msg now => log level msg now s end.

(** The texts that belong into the file [path], when [cur] is the file open at the start. *)
Fixpoint logged (path : bytes) (cur : option bytes) (cs : list log_call) : list bytes :=
  match cs with
  | [] => []
  | LOpen p ok :: cs => logged path (if ok then Some p else None) cs
  | LLog level msg now :: cs =>
      (if decide (cur = Some path) then [log_text level msg now] else []) ++ logged path cur cs
  end.

Definition as_lines (ts : list bytes) : bytes := concat ((fun t => t ++ [Byte.x0a]) <$> ts).

(** The lines of a text, without an unfinished last one. *)
Fixpoint split_lines (line s : bytes) : list bytes :=
  match s with
  | [] => []
  | b :: s => if decide (b = Byte.x0a) then rev line :: split_lines [] s else split_lines (b :: line) s
  end.

Lemma split_line line t s : Byte.x0a ∉ t -> split_lines line (t ++ Byte.x0a :: s) = (rev line ++ t) :: split_lines [] s.
Proof.
  revert line. induction t as [|b t IH]; intros line Ht; cbn [app split_lines].
  - by rewrite decide_True, app_nil_r.
  - apply not_elem_of_cons in Ht as [Hb Ht]. rewrite decide_False, IH by done. cbn [rev]. by rewrite <- app_assoc.
Qed.

Lemma split_as_lines ts : Forall (fun t => Byte.x0a ∉ t) ts -> split_lines [] (as_lines ts) = ts.
Proof.
  induction 1 as [|t ts Ht Hts IH]; [done|]. unfold as_lines. cbn [fmap list_fmap concat].
  rewrite <- app_assoc. cbn [app]. rewrite split_line by done. cbn [rev app]. f_equal. exact IH.
Qed.

(** Every file holds what it held before and the texts of its calls, one line each. *)
Lemma run_log_files cs path : forall s,
  default [] (files (foldl run_log_call s cs) !! path) =
  default [] (files s !! path) ++ as_lines (logged path (file_ s) cs).
Proof.
  induction cs as [|c cs IH]; intros s; cbn [foldl]; [by rewrite app_nil_r|]. rewrite IH. clear IH.
  destruct c as [p ok|level msg now]; cbn [run_log_call logged].
  - unfold open. destruct ok; [|done]. cbn [files file_]. f_equal.
    destruct (decide (p = path)) as [->|]; [by rewrite lookup_insert_eq|by rewrite lookup_insert_ne].
  - unfold log. destruct (file_ s) as [p|] eqn:E; [|by rewrite decide_False, E].
    destruct (decide (Some p = Some path)) as [[= ->]|Hne]; cbn [files file_].
    + rewrite lookup_insert_eq. unfold as_lines. generalize (log_text level msg now). intros t. cbn. by rewrite <- !app_assoc.
    + by rewrite lookup_insert_ne by congruence.
Qed.

Definition one_line (c : log_call) : Prop :=
  match c with LOpen _ _ => True | LLog level msg _ => Byte.x0a ∉ level /\ Byte.x0a ∉ msg end.

#[global] Instance one_line_dec c : Decision (one_line c).
Proof. destruct c; unfold one_line; apply _. Defined.

Context (local_time_line : forall t, Byte.x0a ∉ local_time t).

(** Three digits of milliseconds from the epoch on, and never a line break. *)
Lemma ms_text now :
  Byte.x0a ∉ to_string (ms_of now) /\ (0 <= now -> length (setw_fill Byte.x30 3 (to_string (ms_of now))) = 3%nat).
Proof.
  assert (- 1000 < ms_of now < 1000) as Hms by (unfold ms_of; pose proof (Z.rem_bound_abs (Z.quot now (10 ^ 6)) 1000); lia).
  assert (forall i, (i < 1999)%nat -> Byte.x0a ∉ to_string (Z.of_nat i - 999) /\
    ((999 <= i)%nat -> length (setw_fill Byte.x30 3 (to_string (Z.of_nat i - 999))) = 3%nat)) as Hall.
  { assert (Forall (fun i => Byte.x0a ∉ to_string (Z.of_nat i - 999) /\
      ((i < 999)%nat \/ length (setw_fill Byte.x30 3 (to_string (Z.of_nat i - 999))) = 3%nat)) (seq 0 1999)) as Hf
      by (apply (bool_decide_unpack _); vm_compute; exact I).
    rewrite Forall_forall in Hf. intros i Hi. destruct (Hf i) as [H1 H2]; [apply elem_of_seq; lia|].
    split; [done|]. intros ?. destruct H2; [lia|done]. }
  destruct (Hall (Z.to_nat (ms_of now + 999))) as [H1 H2]; [lia|].
  replace (Z.of_nat (Z.to_nat (ms_of now + 999)) - 999) with (ms_of now) in * by lia.
  split; [done|]. intros Hnow. apply H2.
  assert (0 <= ms_of now) by (unfold ms_of; apply Z.rem_nonneg; [lia|]; apply Z.quot_pos; lia). lia.
Qed.

Lemma log_text_line level msg now : Byte.x0a ∉ level -> Byte.x0a ∉ msg -> Byte.x0a ∉ log_text level msg now.
Proof.
  intros Hl Hm. unfold log_text, setw_fill. pose proof (local_time_line (time_of now)). destruct (ms_text now) as [Hms _].
  rewrite !elem_of_app. intros Hin. destruct_or! Hin; try done;
    first [apply elem_of_replicate in Hin as [Hin _]; discriminate Hin
          |apply list_elem_of_In in Hin; cbn in Hin; destruct_or! Hin; by try discriminate Hin].
Qed.

Lemma logged_lines path cs : forall cur, Forall one_line cs -> Forall (fun t => Byte.x0a ∉ t) (logged path cur cs).
Proof.
  induction cs as [|c cs IH]; intros cur Hcs; cbn [logged]; [constructor|]. apply Forall_cons in Hcs as [Hc Hcs].
  destruct c as [p ok|level msg now]; [by apply IH|]. apply Forall_app. split; [|by apply IH].
  destruct Hc as [Hl Hm]. destruct (decide _); repeat constructor. by apply log_text_line.
Qed.

(** A log file reads back: whatever was opened and reopened in between, a new file has one line
    for each message logged while it was open, in order, when no message has a line break. *)
Theorem log_reads_back path cs :
  Forall one_line cs ->
  split_lines [] (default [] (files (foldl run_log_call (logger_new ∅) cs) !! path)) = logged path None cs.
Proof.
  intros Hcs. rewrite run_log_files. cbn [logger_new files file_]. rewrite lookup_empty. cbn [default app].
  apply split_as_lines. by apply logged_lines.
Qed.

End Log.

(** A message with a line break can pass for another message. *)
Lemma line_break_forges_message :
  let time := fun _ : Z => str "2026-01-01 00:00:00" in
  exists msg, split_lines [] (default [] (files (foldl (run_log_call time) (logger_new ∅)
    [LOpen (str "l") true; LLog (str "INFO") msg 0]) !! str "l")) =
  logged time (str "l") None [LOpen (str "l") true; LLog (str "INFO") (str "a") 0; LLog (str "ERROR") (str "b") 0].
Proof.
  intros time. exists (str "a" ++ [Byte.x0a] ++ log_text time (str "ERROR") (str "b") 0). vm_compute. reflexivity.
Qed.

Lemma log_reads_back_witness :
  let time := fun _ : Z => str "2026-01-01 00:00:00" in
  let cs := [LLog (str "INFO") (str "lost") 0; LOpen (str "a") true; LLog (str "INFO") (str "x") 1500000;
             LOpen (str "b") false; LLog (str "INFO") (str "lost") 0; LOpen (str "a") true; LLog (str "ERROR") (str "y") 0] in
  split_lines [] (default [] (files (foldl (run_log_call time) (logger_new ∅) cs) !! str "a")) =
  [str "[2026-01-01 00:00:00.001] [INFO] x"; str "[2026-01-01 00:00:00.000] [ERROR] y"].
Proof.
  intros time cs. rewrite (log_reads_back time).
  - vm_compute. reflexivity.
  - intros t. apply (bool_decide_unpack _). vm_compute. exact I.
  - apply (bool_decide_unpack _). vm_compute. exact I.
Defined.
