(* ===== verification/CqArith.v ===== *)
(** * Index arithmetic of the vendored queue (lib/concurrentqueue/concurrentqueue.h)

    The queue of every shard numbers its elements with 64-bit indices that wrap around.
    This file has the default traits, the circular comparison of indices, the rounding to a
    power of two and the hash of thread identifiers, with what each computes. *)
From S2P Require Import Prelude.

Definition BLOCK_SIZE : Z := 32.
Definition IMPLICIT_INITIAL_INDEX_SIZE : Z := 32.
Definition INITIAL_IMPLICIT_PRODUCER_HASH_SIZE : Z := 32.

(** [details::circular_less_than<index_t>], for 64-bit [index_t]. *)
Definition circular_less_than (a b : Z) : bool := u64 (a - b) >? u64 (Z.shiftl 1 63).

(** One round [x |= x >> k]. *)
Definition smear_step (x k : Z) : Z := Z.lor x (Z.shiftr x k).

(** [details::ceil_to_pow_2<size_t>]: the loop runs with [i] = 1, 2, 4. *)
Definition ceil_to_pow_2 (x : Z) : Z :=
  let x := u64 (x - 1) in
  let x := smear_step x 1 in
  let x := smear_step x 2 in
  let x := smear_step x 4 in
  let x := fold_left (fun x i => smear_step x (Z.shiftl i 3)) [1; 2; 4] x in
  u64 (x + 1).

(** [details::hash_32_or_64<8>::hash], which [hash_thread_id] applies to the numeric
    thread identifier. *)
Definition hash_thread_id (h : Z) : Z :=
  let h := Z.lxor h (Z.shiftr h 33) in
  let h := u64 (h * 0xff51afd7ed558ccd) in
  let h := Z.lxor h (Z.shiftr h 33) in
  let h := u64 (h * 0xc4ceb9fe1a85ec53) in
  Z.lxor h (Z.shiftr h 33).

(** ** Machine arithmetic modulo a power of two *)

Lemma u64_mod z : u64 z = z mod 2 ^ 64.
Proof. reflexivity. Qed.

Lemma u64_add_r a b : u64 (a + u64 b) = u64 (a + b).
Proof. unfold u64. apply Zplus_mod_idemp_r. Qed.
Lemma u64_sub_l a b : u64 (u64 a - b) = u64 (a - b).
Proof. unfold u64. apply Zminus_mod_idemp_l. Qed.
Lemma u64_sub_r a b : u64 (a - u64 b) = u64 (a - b).
Proof. unfold u64. apply Zminus_mod_idemp_r. Qed.
Lemma u64_idemp a : u64 (u64 a) = u64 a.
Proof. unfold u64. apply Zmod_mod. Qed.

Create Rewrite HintDb l3u64.
#[export] Hint Rewrite u64_add_l u64_add_r u64_sub_l u64_sub_r u64_idemp : l3u64.

(** Masking with a power of two minus one. *)
Lemma land_mask a k : 0 <= k -> Z.land a (2 ^ k - 1) = a mod 2 ^ k.
Proof. intros Hk. rewrite <- Z.land_ones by done. f_equal. rewrite Z.ones_equiv. lia. Qed.

(** Reduction modulo a smaller power of two does not see the wrap-around. *)
Lemma u64_mod_pow2 a k : 0 <= k <= 64 -> u64 a mod 2 ^ k = a mod 2 ^ k.
Proof.
  intros Hk. unfold u64.
  replace (2 ^ 64) with (2 ^ k * 2 ^ (64 - k)) by (rewrite <- Z.pow_add_r by lia; f_equal; lia).
  rewrite Z.rem_mul_r by (try apply Z.pow_pos_nonneg; lia).
  rewrite Z.mul_comm, Z.mod_add by (apply Z.pow_nonzero; lia).
  apply Zmod_mod.
Qed.

(** On indices less than half the range apart, the circular comparison is the comparison of
    the indices before wrap-around. *)
Lemma circular_less_than_spec a b :
  - 2 ^ 63 < a - b <= 2 ^ 63 -> circular_less_than (u64 a) (u64 b) = (a <? b).
Proof.
  intros Hab. unfold circular_less_than. autorewrite with l3u64.
  change (u64 (Z.shiftl 1 63)) with (2 ^ 63).
  unfold u64. destruct (Z.ltb_spec a b).
  - rewrite <- (Z_mod_plus_full _ 1), Z.mod_small by lia. lia.
  - rewrite Z.mod_small by lia. lia.
Qed.

(** ** Rounding up to a power of two *)

(** [x] has bit [i] set when one of the [n] bits of [x0] from [i] up is. *)
Definition smeared (n x0 x : Z) : Prop :=
  0 <= x /\
  forall i, 0 <= i -> Z.testbit x i = true <-> exists j, 0 <= j < n /\ Z.testbit x0 (i + j) = true.

Lemma smeared_start x : 0 <= x -> smeared 1 x x.
Proof.
  intros Hx. split; [done|]. intros i Hi. split.
  - exists 0. rewrite Z.add_0_r. split; [lia|done].
  - intros (j & Hj & H). assert (j = 0) as -> by lia. by rewrite Z.add_0_r in H.
Qed.

Lemma smeared_step n x0 x : 0 < n -> smeared n x0 x -> smeared (2 * n) x0 (smear_step x n).
Proof.
  intros Hn [Hx Hbits]. unfold smear_step. split.
  { apply Z.lor_nonneg. split; [done|]. by apply Z.shiftr_nonneg. }
  intros i Hi. rewrite Z.lor_spec, Z.shiftr_spec, orb_true_iff, !Hbits by lia. split.
  - intros [(j & Hj & H) | (j & Hj & H)].
    { exists j. split; [lia|done]. }
    exists (n + j). split; [lia|]. by rewrite Z.add_assoc.
  - intros (j & Hj & H). destruct (Z.lt_ge_cases j n).
    { left. exists j. split; [lia|done]. }
    right. exists (j - n). split; [lia|]. by replace (i + n + (j - n)) with (i + j) by lia.
Qed.

Lemma smeared_all n x0 x :
  0 < x0 < 2 ^ n -> 0 < n -> smeared n x0 x -> x = Z.ones (Z.log2 x0 + 1).
Proof.
  intros Hx0 Hn [Hx Hbits].
  pose proof (Z.log2_nonneg x0) as Hl0.
  assert (Z.log2 x0 < n) as Hl by (apply Z.log2_lt_pow2; lia).
  apply Z.bits_inj'. intros i Hi. rewrite Z.testbit_ones_nonneg by lia.
  apply eq_true_iff_eq. rewrite Hbits, Z.ltb_lt by done. split.
  - intros (j & Hj & H). destruct (Z.le_gt_cases i (Z.log2 x0)); [lia|].
    rewrite Z.bits_above_log2 in H by lia. done.
  - intros Hlt. exists (Z.log2 x0 - i). split; [lia|].
    replace (i + _) with (Z.log2 x0) by lia. apply Z.bit_log2. lia.
Qed.

(** The least power of two that is not below [x], for every [x] that has one. *)
Theorem ceil_to_pow_2_spec x : 1 <= x <= 2 ^ 63 -> ceil_to_pow_2 x = 2 ^ Z.log2_up x.
Proof.
  intros Hx. destruct (Z.eq_dec x 1) as [->|Hne]; [reflexivity|].
  unfold ceil_to_pow_2. rewrite (u64_small (x - 1)) by lia. cbn [fold_left].
  rewrite (smeared_all 64 (x - 1) (smear_step _ (Z.shiftl 4 3))).
  - assert (0 <= Z.log2 (x - 1) < 63) as Hl.
    { split; [apply Z.log2_nonneg|]. apply Z.log2_lt_pow2; lia. }
    rewrite Z.ones_equiv, Z.log2_up_eqn, <- (Z.sub_1_r x) by lia.
    rewrite !Z.add_1_r, Z.succ_pred. apply u64_small.
    split; [apply Z.pow_nonneg; lia|]. apply Z.pow_lt_mono_r; lia.
  - lia.
  - lia.
  - change (Z.shiftl 1 3) with (2 * 4). change (Z.shiftl 2 3) with (2 * (2 * 4)).
    change (Z.shiftl 4 3) with (2 * (2 * (2 * 4))).
    change 64 with (2 * (2 * (2 * (2 * (2 * (2 * 1)))))).
    repeat (apply smeared_step; [lia|]). apply smeared_start. lia.
Qed.

(** ** The hash of thread identifiers is injective *)

Lemma xorshift_involution h :
  0 <= h < 2 ^ 64 ->
  let g := Z.lxor h (Z.shiftr h 33) in Z.lxor g (Z.shiftr g 33) = h.
Proof.
  intros Hh g. unfold g.
  rewrite Z.shiftr_lxor, Z.shiftr_shiftr by lia.
  replace (Z.shiftr h (33 + 33)) with 0; cycle 1.
  { symmetry. rewrite Z.shiftr_div_pow2 by lia. apply Z.div_small. lia. }
  by rewrite Z.lxor_0_r, Z.lxor_assoc, Z.lxor_nilpotent, Z.lxor_0_r.
Qed.

Lemma xorshift_range h : 0 <= h < 2 ^ 64 -> 0 <= Z.lxor h (Z.shiftr h 33) < 2 ^ 64.
Proof.
  intros Hh. apply lxor_range; [lia|done|]. rewrite Z.shiftr_div_pow2 by lia.
  split; [apply Z.div_pos; lia|]. apply Z.div_lt_upper_bound; lia.
Qed.

Lemma xorshift_inj h k :
  0 <= h < 2 ^ 64 -> 0 <= k < 2 ^ 64 ->
  Z.lxor h (Z.shiftr h 33) = Z.lxor k (Z.shiftr k 33) -> h = k.
Proof.
  intros Hh Hk Heq. rewrite <- (xorshift_involution h), <- (xorshift_involution k) by done.
  by cbv zeta; rewrite Heq.
Qed.

(** Multiplication by a constant with an inverse modulo [2^64]. *)
Lemma mul_odd_inj c d h k :
  u64 (c * d) = 1 -> 0 <= h < 2 ^ 64 -> 0 <= k < 2 ^ 64 -> u64 (h * c) = u64 (k * c) -> h = k.
Proof.
  intros Hcd Hh Hk Heq.
  assert (forall x, 0 <= x < 2 ^ 64 -> u64 (u64 (x * c) * d) = x) as Hinv.
  { intros x Hx. unfold u64 in *. rewrite Zmult_mod_idemp_l, <- Z.mul_assoc.
    rewrite Zmult_mod, Hcd, Z.mul_1_r, Zmod_mod. by apply Z.mod_small. }
  by rewrite <- (Hinv h), <- (Hinv k), Heq.
Qed.

(** Distinct threads have distinct hashes: the finalizer only propagates the uniqueness of
    the identifiers. *)
Theorem hash_thread_id_inj a b :
  0 <= a < 2 ^ 64 -> 0 <= b < 2 ^ 64 -> hash_thread_id a = hash_thread_id b -> a = b.
Proof.
  intros Ha Hb Heq. unfold hash_thread_id in Heq.
  apply xorshift_inj in Heq; [|apply u64_range..].
  apply (mul_odd_inj _ 0x9cb4b2f8129337db) in Heq;
    [|vm_compute; reflexivity|apply xorshift_range, u64_range..].
  apply xorshift_inj in Heq; [|apply u64_range..].
  apply (mul_odd_inj _ 0x4f74430c22a54005) in Heq;
    [|vm_compute; reflexivity|by apply xorshift_range..].
  by apply xorshift_inj in Heq.
Qed.
