(* ===== verification/CqProducer.v ===== *)
(** * A sub-queue of the vendored queue (lib/concurrentqueue/concurrentqueue.h)

    [ConcurrentQueue] keeps one [ImplicitProducer] per enqueuing thread: that thread is its
    only writer, any thread may dequeue from it.  Elements live in blocks of 32; a circular
    index maps the base index of a block to the block.  This file translates [enqueue] and
    [dequeue] of [ImplicitProducer], its block index, [Block] and the block pool of the
    queue.

    Both operations are written as machines that make at most one access to memory another
    thread can write (or one write another thread can read) per step, so that every
    interleaving of one enqueuing thread, any number of dequeuing threads and the other
    sub-queues sharing the block pool is a sequence of steps.  Memory accesses are
    sequentially consistent.  Dereferencing a null or freed pointer, reading outside an array
    and reading a slot without an element lead to the states [PFault] and [CFault].

    The element type of the engine is CoreMessage, whose move operations do not throw; the
    branches for throwing constructors are not taken. *)
From stdpp Require Import functions.
From S2P Require Import Prelude CqArith.

Section Producer.
Context {A : Type}.

(** ** Memory *)

(** [Block]: an empty slot is raw memory.  The context is the implicit one, which counts
    the elements taken out. *)
Record Block := mkBlock {
  elements : list (option A);
  elementsCompletelyDequeued : Z;
  dynamicallyAllocated : bool }.

Definition new_block (dynamic : bool) : Block :=
  mkBlock (replicate (Z.to_nat BLOCK_SIZE) None) 0 dynamic.

(** [Block::operator[]]: the slot of an index. *)
Definition slot (idx : Z) : nat := Z.to_nat (Z.land idx (BLOCK_SIZE - 1)).

Definition set_slot (idx : Z) (v : option A) (b : Block) : Block :=
  mkBlock (<[slot idx := v]> (elements b)) (elementsCompletelyDequeued b)
    (dynamicallyAllocated b).

(** [Block::set_empty<implicit_context>]: whether the block is now empty. *)
Definition set_empty (b : Block) : bool * Block :=
  let prevVal := elementsCompletelyDequeued b in
  (prevVal =? BLOCK_SIZE - 1,
   mkBlock (elements b) (u64 (prevVal + 1)) (dynamicallyAllocated b)).

(** [Block::reset_empty<implicit_context>]. *)
Definition reset_empty (b : Block) : Block :=
  mkBlock (elements b) 0 (dynamicallyAllocated b).

Definition INVALID_BLOCK_BASE : Z := 1.

(** Pointers are positions in the lists of all objects of a type ever allocated. *)
Record BlockIndexEntry := mkEntry { key : Z; value : option nat }.

Record BlockIndexHeader := mkHeader {
  capacity : Z;
  header_tail : Z;
  header_index : list nat }.

(** ** The block pool of the queue

    [blocks] is the heap of blocks ([None]: freed); [others] are the blocks in use by other
    sub-queues. *)
Record Pool := mkPool {
  blocks : list (option Block);
  initialBlockPoolIndex : Z;
  initialBlockPoolSize : Z;
  freeList : list nat;
  others : list nat }.

Definition with_blocks (f : list (option Block) -> list (option Block)) (m : Pool) : Pool :=
  mkPool (f (blocks m)) (initialBlockPoolIndex m) (initialBlockPoolSize m) (freeList m)
    (others m).

Definition with_others (o : list nat) (m : Pool) : Pool :=
  mkPool (blocks m) (initialBlockPoolIndex m) (initialBlockPoolSize m) (freeList m) o.

(** A live block. *)
Definition deref (m : Pool) (b : nat) : option Block := mjoin (blocks m !! b).

Definition store_block (b : nat) (B : Block) (m : Pool) : Pool :=
  with_blocks (fun bs => <[b := Some B]> bs) m.

(** [populate_initial_block_list]; [mem] is whether the allocation succeeds. *)
Definition populate_initial_block_list (mem : bool) (blockCount : Z) : Pool :=
  if blockCount =? 0 then mkPool [] 0 0 [] []
  else if mem then mkPool (replicate (Z.to_nat blockCount) (Some (new_block false))) 0 blockCount [] []
  else mkPool [] 0 0 [] [].

Definition try_get_block_from_initial_pool (m : Pool) : option nat * Pool :=
  if initialBlockPoolIndex m >=? initialBlockPoolSize m then (None, m)
  else
    let i := initialBlockPoolIndex m in
    (if i <? initialBlockPoolSize m then Some (Z.to_nat i) else None,
     mkPool (blocks m) (u64 (i + 1)) (initialBlockPoolSize m) (freeList m) (others m)).

(** The free list as a set: under contention it hands out any of its blocks or finds none
    ([CqFreeList.free_list_is_set]); [pick] is the place of the block in [freeList]. *)
Definition try_get_block_from_free_list (pick : option nat) (m : Pool) : option nat * Pool :=
  match pick with
  | None => (None, m)
  | Some i =>
      match freeList m !! i with
      | None => (None, m)
      | Some b =>
          (Some b, mkPool (blocks m) (initialBlockPoolIndex m) (initialBlockPoolSize m)
                     (filter (fun x => x <> b) (freeList m)) (others m))
      end
  end.

(** What the environment answers: whether malloc succeeds and what the free list returns. *)
Record answers := mkAnswers { mem : bool; pick : option nat }.

(** No contention and no lack of memory. *)
Definition alone : answers := mkAnswers true (Some 0%nat).

(** [requisition_block<CanAlloc>], as one step of its caller.  [FreeList::try_get] inside it is
    a loop of many accesses with retries: what it returns is what this step returns, by
    [CqFreeList.free_list_is_set], but the number of its accesses is not bounded. *)
Definition requisition_block (a : answers) (m : Pool) : option nat * Pool :=
  match try_get_block_from_initial_pool m with
  | (Some b, m) => (Some b, m)
  | (None, m) =>
      match try_get_block_from_free_list (pick a) m with
      | (Some b, m) => (Some b, m)
      | (None, m) =>
          if mem a then (Some (length (blocks m)), with_blocks (fun bs => bs ++ [Some (new_block true)]) m)
          else (None, m)
      end
  end.

(** [add_block_to_free_list], with [RECYCLE_ALLOCATED_BLOCKS] false: a block from the heap
    is freed.  One step of its caller too, though [FreeList::add] retries while other threads
    change the list: the step is its effect, not its cost. *)
Definition add_block_to_free_list (b : nat) (m : Pool) : option Pool :=
  match deref m b with
  | None => None
  | Some B =>
      Some (if dynamicallyAllocated B then with_blocks (fun bs => <[b := None]> bs) m
            else mkPool (blocks m) (initialBlockPoolIndex m) (initialBlockPoolSize m)
                   (b :: freeList m) (others m))
  end.

(** ** The producer *)

Record ImplicitProducer := mkProducer {
  tailIndex : Z;
  headIndex : Z;
  dequeueOptimisticCount : Z;
  dequeueOvercommit : Z;
  tailBlock : option nat;
  nextBlockIndexCapacity : Z;
  blockIndex : option nat;
  headers : list BlockIndexHeader;
  entries : list BlockIndexEntry }.

Definition set_tailIndex (x : Z) (p : ImplicitProducer) :=
  mkProducer x (headIndex p) (dequeueOptimisticCount p) (dequeueOvercommit p) (tailBlock p)
    (nextBlockIndexCapacity p) (blockIndex p) (headers p) (entries p).
Definition set_headIndex (x : Z) (p : ImplicitProducer) :=
  mkProducer (tailIndex p) x (dequeueOptimisticCount p) (dequeueOvercommit p) (tailBlock p)
    (nextBlockIndexCapacity p) (blockIndex p) (headers p) (entries p).
Definition set_dequeueOptimisticCount (x : Z) (p : ImplicitProducer) :=
  mkProducer (tailIndex p) (headIndex p) x (dequeueOvercommit p) (tailBlock p)
    (nextBlockIndexCapacity p) (blockIndex p) (headers p) (entries p).
Definition set_dequeueOvercommit (x : Z) (p : ImplicitProducer) :=
  mkProducer (tailIndex p) (headIndex p) (dequeueOptimisticCount p) x (tailBlock p)
    (nextBlockIndexCapacity p) (blockIndex p) (headers p) (entries p).
Definition set_tailBlock (x : option nat) (p : ImplicitProducer) :=
  mkProducer (tailIndex p) (headIndex p) (dequeueOptimisticCount p) (dequeueOvercommit p) x
    (nextBlockIndexCapacity p) (blockIndex p) (headers p) (entries p).
Definition set_headers (x : list BlockIndexHeader) (p : ImplicitProducer) :=
  mkProducer (tailIndex p) (headIndex p) (dequeueOptimisticCount p) (dequeueOvercommit p)
    (tailBlock p) (nextBlockIndexCapacity p) (blockIndex p) x (entries p).
Definition set_entries (x : list BlockIndexEntry) (p : ImplicitProducer) :=
  mkProducer (tailIndex p) (headIndex p) (dequeueOptimisticCount p) (dequeueOvercommit p)
    (tailBlock p) (nextBlockIndexCapacity p) (blockIndex p) (headers p) x.

(** [header->tail.store(t)], [entry->key.store(k)], [entry->value.store(v)]. *)
Definition store_tail (h : nat) (t : Z) (p : ImplicitProducer) : ImplicitProducer :=
  set_headers (alter (fun H => mkHeader (capacity H) t (header_index H)) h (headers p)) p.
Definition store_key (e : nat) (k : Z) (p : ImplicitProducer) : ImplicitProducer :=
  set_entries (alter (fun E => mkEntry k (value E)) e (entries p)) p.
Definition store_value (e : nat) (v : option nat) (p : ImplicitProducer) : ImplicitProducer :=
  set_entries (alter (fun E => mkEntry (key E) v) e (entries p)) p.

(** [H->index[i]]. *)
Definition index_at (H : BlockIndexHeader) (i : Z) : option nat := header_index H !! Z.to_nat i.

(** The loop of [new_block_index] that copies the previous index, oldest entry first. *)
Fixpoint copy_index (fuel : nat) (prev : BlockIndexHeader) (prevPos : Z) : list nat :=
  match fuel with
  | O => []
  | S fuel =>
      let prevPos := Z.land (u64 (prevPos + 1)) (u64 (capacity prev - 1)) in
      match index_at prev prevPos with
      | None => []
      | Some e =>
          e :: if prevPos =? header_tail prev then [] else copy_index fuel prev prevPos
      end
  end.

(** [new_block_index], once malloc has succeeded.  [raw_value] is what the value of a fresh
    entry holds before it is first stored. *)
Definition new_block_index (raw_value : option nat) (p : ImplicitProducer) : ImplicitProducer :=
  let prev := match blockIndex p with None => None | Some h => headers p !! h end in
  let prevCapacity := match prev with None => 0 | Some H => capacity H end in
  let entryCount := match prev with None => nextBlockIndexCapacity p | Some _ => prevCapacity end in
  let old :=
    match prev with
    | None => []
    | Some H => copy_index (Z.to_nat (capacity H)) H (header_tail H)
    end in
  let fresh := seq (length (entries p)) (Z.to_nat entryCount) in
  let header :=
    mkHeader (nextBlockIndexCapacity p)
      (Z.land (u64 (prevCapacity - 1)) (u64 (nextBlockIndexCapacity p - 1))) (old ++ fresh) in
  mkProducer (tailIndex p) (headIndex p) (dequeueOptimisticCount p) (dequeueOvercommit p)
    (tailBlock p) (u64 (Z.shiftl (nextBlockIndexCapacity p) 1)) (Some (length (headers p)))
    (headers p ++ [header])
    (entries p ++ replicate (Z.to_nat entryCount) (mkEntry INVALID_BLOCK_BASE raw_value)).

(** The constructor; [start] is 0 in the source. *)
Definition ImplicitProducer_init (raw_value : option nat) (mem : bool) (start : Z) : ImplicitProducer :=
  let p := mkProducer start start start 0 None IMPLICIT_INITIAL_INDEX_SIZE None [] [] in
  if mem then new_block_index raw_value p else p.

(** [ProducerBase::size_approx]. *)
Definition size_approx (p : ImplicitProducer) : Z :=
  let tail := tailIndex p in
  let head := headIndex p in
  if circular_less_than head tail then u64 (tail - head) else 0.

(** The position [get_block_index_index_for_index] computes, from the tail it has loaded and
    the base index of the tail entry. *)
Definition block_index_position (index tail tailBase cap : Z) : Z :=
  let index := Z.land index (u64 (Z.lnot (BLOCK_SIZE - 1))) in
  let offset := u64 (Z.quot (i64 (index - tailBase)) (i64 BLOCK_SIZE)) in
  Z.land (u64 (tail + offset)) (u64 (cap - 1)).

(** ** [ImplicitProducer::enqueue<CanAlloc>] *)

(** Where the enqueuing thread stands, with its local variables. *)
Inductive ppc :=
| PIdle
| PEnqueue (v : A)
| PHead (v : A) (currentTailIndex : Z)
| PInsert (v : A) (currentTailIndex : Z)
| PKey (v : A) (currentTailIndex : Z) (h : nat) (newTail : Z) (e : nat)
| PTail (v : A) (currentTailIndex : Z) (h : nat) (newTail : Z) (e : nat)
| PGrow (v : A) (currentTailIndex : Z)
| PBlock (v : A) (currentTailIndex : Z) (e : nat)
| PRewind (e : nat)
| PUnset (e : nat)
| PReset (v : A) (currentTailIndex : Z) (e : nat) (b : nat)
| PValue (v : A) (currentTailIndex : Z) (e : nat) (b : nat)
| PConstruct (v : A) (currentTailIndex : Z)
| PPublish (v : A) (currentTailIndex : Z)
| PRet (ok : bool)
| PFault.

(** The entry behind the tail of the current header: its header, position and pointer. *)
Definition next_entry (p : ImplicitProducer) : option (nat * Z * nat) :=
  match blockIndex p with
  | None => None
  | Some h =>
      match headers p !! h with
      | None => None
      | Some H =>
          let newTail := Z.land (u64 (header_tail H + 1)) (u64 (capacity H - 1)) in
          match index_at H newTail with
          | None => None
          | Some e => Some (h, newTail, e)
          end
      end
  end.

(** [insert_block_index_entry] up to the store of the key: the test of the entry. *)
Definition insert_test (v : A) (t : Z) (p : ImplicitProducer) : ppc :=
  match blockIndex p with
  | None => PRet false
  | Some _ =>
      match next_entry p with
      | None => PFault
      | Some (h, newTail, e) =>
          match entries p !! e with
          | None => PFault
          | Some E =>
              if (key E =? INVALID_BLOCK_BASE) || bool_decide (value E = None)
              then PKey v t h newTail e
              else PGrow v t
          end
      end
  end.

(** [rewind_block_index_tail]. *)
Definition rewind_block_index_tail (p : ImplicitProducer) : option ImplicitProducer :=
  match blockIndex p with
  | None => None
  | Some h =>
      match headers p !! h with
      | None => None
      | Some H =>
          Some (store_tail h (Z.land (u64 (header_tail H - 1)) (u64 (capacity H - 1))) p)
      end
  end.

(** One step of the enqueuing thread. *)
Definition enqueue_step (raw_value : option nat) (a : answers) (p : ImplicitProducer) (m : Pool)
    (pc : ppc) : ImplicitProducer * Pool * ppc :=
  match pc with
  | PIdle | PRet _ | PFault => (p, m, pc)
  | PEnqueue v =>
      let t := tailIndex p in
      (p, m, if Z.land t (BLOCK_SIZE - 1) =? 0 then PHead v t else PConstruct v t)
  | PHead v t =>
      if negb (circular_less_than (headIndex p) (u64 (t + BLOCK_SIZE)))
      then (p, m, PRet false) else (p, m, PInsert v t)
  | PInsert v t => (p, m, insert_test v t p)
  | PKey v t h newTail e => (store_key e t p, m, PTail v t h newTail e)
  | PTail v t h newTail e => (store_tail h newTail p, m, PBlock v t e)
  | PGrow v t =>
      if mem a then
        let p := new_block_index raw_value p in
        (p, m, match next_entry p with
               | None => PFault
               | Some (h, newTail, e) => PKey v t h newTail e
               end)
      else (p, m, PRet false)
  | PBlock v t e =>
      match requisition_block a m with
      | (None, m) => (p, m, PRewind e)
      | (Some b, m) => (p, m, PReset v t e b)
      end
  | PRewind e =>
      match rewind_block_index_tail p with
      | None => (p, m, PFault)
      | Some p => (p, m, PUnset e)
      end
  | PUnset e => (store_value e None p, m, PRet false)
  | PReset v t e b =>
      match deref m b with
      | None => (p, m, PFault)
      | Some B => (p, store_block b (reset_empty B) m, PValue v t e b)
      end
  | PValue v t e b => (set_tailBlock (Some b) (store_value e (Some b) p), m, PConstruct v t)
  | PConstruct v t =>
      match tailBlock p with
      | None => (p, m, PFault)
      | Some b =>
          match deref m b with
          | None => (p, m, PFault)
          | Some B => (p, store_block b (set_slot t (Some v) B) m, PPublish v t)
          end
      end
  | PPublish v t => (set_tailIndex (u64 (1 + t)) p, m, PRet true)
  end.

(** ** [ImplicitProducer::dequeue] *)

(** Where a dequeuing thread stands, with its local variables. *)
Inductive cpc :=
| CIdle
| CDequeue
| COvercommit (tail : Z)
| COptimistic (tail overcommit : Z)
| CClaim (overcommit : Z)
| CTest (overcommit myDequeueCount : Z)
| CTake
| CGiveUp
| CIndex (index : Z)
| CTail (index : Z) (h : nat)
| CBase (index : Z) (h : nat) (tail : Z)
| CValue (index : Z) (e : nat)
| CMove (index : Z) (e b : nat)
| CEmpty (index : Z) (e b : nat) (el : A)
| CClear (index : Z) (e b : nat) (el : A)
| CFree (index : Z) (b : nat) (el : A)
| CRet (r : option A)
| CFault.

(** One step of a dequeuing thread. *)
Definition dequeue_step (p : ImplicitProducer) (m : Pool) (pc : cpc) : ImplicitProducer * Pool * cpc :=
  match pc with
  | CIdle | CRet _ | CFault => (p, m, pc)
  | CDequeue => (p, m, COvercommit (tailIndex p))
  | COvercommit tail => (p, m, COptimistic tail (dequeueOvercommit p))
  | COptimistic tail overcommit =>
      (p, m, if circular_less_than (u64 (dequeueOptimisticCount p - overcommit)) tail
             then CClaim overcommit else CRet None)
  | CClaim overcommit =>
      let myDequeueCount := dequeueOptimisticCount p in
      (set_dequeueOptimisticCount (u64 (myDequeueCount + 1)) p, m, CTest overcommit myDequeueCount)
  | CTest overcommit myDequeueCount =>
      (p, m, if circular_less_than (u64 (myDequeueCount - overcommit)) (tailIndex p)
             then CTake else CGiveUp)
  | CGiveUp => (set_dequeueOvercommit (u64 (dequeueOvercommit p + 1)) p, m, CRet None)
  | CTake =>
      let index := headIndex p in
      (set_headIndex (u64 (index + 1)) p, m, CIndex index)
  | CIndex index =>
      (p, m, match blockIndex p with None => CFault | Some h => CTail index h end)
  | CTail index h =>
      (p, m, match headers p !! h with None => CFault | Some H => CBase index h (header_tail H) end)
  | CBase index h tail =>
      (p, m,
       match headers p !! h with
       | None => CFault
       | Some H =>
           match index_at H tail with
           | None => CFault
           | Some te =>
               match entries p !! te with
               | None => CFault
               | Some E =>
                   match index_at H (block_index_position index tail (key E) (capacity H)) with
                   | None => CFault
                   | Some e => CValue index e
                   end
               end
           end
       end)
  | CValue index e =>
      (p, m,
       match entries p !! e with
       | None => CFault
       | Some E => match value E with None => CFault | Some b => CMove index e b end
       end)
  | CMove index e b =>
      match deref m b with
      | None => (p, m, CFault)
      | Some B =>
          match elements B !! slot index with
          | Some (Some el) => (p, store_block b (set_slot index None B) m, CEmpty index e b el)
          | _ => (p, m, CFault)
          end
      end
  | CEmpty index e b el =>
      match deref m b with
      | None => (p, m, CFault)
      | Some B =>
          let '(last, B) := set_empty B in
          (p, store_block b B m, if last then CClear index e b el else CRet (Some el))
      end
  | CClear index e b el => (store_value e None p, m, CFree index b el)
  | CFree index b el =>
      match add_block_to_free_list b m with
      | None => (p, m, CFault)
      | Some m => (p, m, CRet (Some el))
      end
  end.

(** ** Whole calls, when no other thread interferes

    Apart from the calls of the block pool neither operation loops: a dequeue takes at most 14
    steps, an enqueue at most 11. *)
Fixpoint run_dequeue (fuel : nat) (p : ImplicitProducer) (m : Pool) (pc : cpc) : ImplicitProducer * Pool * cpc :=
  match fuel with
  | O => (p, m, pc)
  | S fuel => let '(p, m, pc) := dequeue_step p m pc in run_dequeue fuel p m pc
  end.

Definition dequeue (p : ImplicitProducer) (m : Pool) : ImplicitProducer * Pool * cpc :=
  run_dequeue 14 p m CDequeue.

Fixpoint run_enqueue (fuel : nat) (raw_value : option nat) (a : answers) (p : ImplicitProducer) (m : Pool)
    (pc : ppc) : ImplicitProducer * Pool * ppc :=
  match fuel with
  | O => (p, m, pc)
  | S fuel =>
      let '(p, m, pc) := enqueue_step raw_value a p m pc in run_enqueue fuel raw_value a p m pc
  end.

Definition enqueue (raw_value : option nat) (a : answers) (v : A) (p : ImplicitProducer) (m : Pool) :
    ImplicitProducer * Pool * ppc :=
  run_enqueue 11 raw_value a p m (PEnqueue v).

(** ** The system: one enqueuing thread, any number of dequeuing threads *)

Record sys := mkSys {
  producer : ImplicitProducer;
  pool : Pool;
  enqueuer : ppc;
  consumers : nat -> cpc }.

(** What an observer sees: the calls, the moment an enqueue or a dequeue takes effect and the
    results of the calls. *)
Inductive event :=
| ECallEnqueue (v : A)
| EPush (v : A)
| EEnqueue (ok : bool)
| ECallDequeue (tid : nat)
| ETake (tid : nat)
| EDequeue (tid : nat) (r : option A).

Definition enqueue_event (pc pc' : ppc) : list event :=
  match pc, pc' with
  | PPublish v _, _ => [EPush v; EEnqueue true]
  | PRet _, _ | PIdle, _ => []
  | _, PRet ok => [EEnqueue ok]
  | _, _ => []
  end.

Definition dequeue_event (tid : nat) (pc pc' : cpc) : list event :=
  match pc, pc' with
  | CTake, _ => [ETake tid]
  | CRet _, _ => []
  | _, CRet r => [EDequeue tid r]
  | _, _ => []
  end.

Definition running (pc : cpc) : Prop :=
  match pc with CIdle | CRet _ => False | _ => True end.
Definition enqueuing (pc : ppc) : Prop :=
  match pc with PIdle | PRet _ => False | _ => True end.

(** The steps.  The last three are the other sub-queues of the same queue, which take blocks
    from the pool, use them and give them back. *)
Inductive step (raw_value : option nat) : sys -> list event -> sys -> Prop :=
| step_enqueue_call p m pc cs v :
    ~ enqueuing pc ->
    step raw_value (mkSys p m pc cs) [ECallEnqueue v] (mkSys p m (PEnqueue v) cs)
| step_enqueue p m pc cs a p' m' pc' :
    enqueuing pc ->
    enqueue_step raw_value a p m pc = (p', m', pc') ->
    step raw_value (mkSys p m pc cs) (enqueue_event pc pc') (mkSys p' m' pc' cs)
| step_dequeue_call p m pc cs tid :
    ~ running (cs tid) ->
    step raw_value (mkSys p m pc cs) [ECallDequeue tid] (mkSys p m pc (<[tid := CDequeue]> cs))
| step_dequeue p m pc cs tid p' m' c' :
    running (cs tid) ->
    dequeue_step p m (cs tid) = (p', m', c') ->
    step raw_value (mkSys p m pc cs) (dequeue_event tid (cs tid) c')
      (mkSys p' m' pc (<[tid := c']> cs))
| step_other_take p m pc cs a b m' :
    requisition_block a m = (Some b, m') ->
    step raw_value (mkSys p m pc cs) [] (mkSys p (with_others (b :: others m') m') pc cs)
| step_other_write p m pc cs b B0 B :
    b ∈ others m -> deref m b = Some B0 -> dynamicallyAllocated B = dynamicallyAllocated B0 ->
    length (elements B) = Z.to_nat BLOCK_SIZE -> 0 <= elementsCompletelyDequeued B < 2 ^ 64 ->
    step raw_value (mkSys p m pc cs) [] (mkSys p (store_block b B m) pc cs)
| step_other_give p m pc cs b m' :
    b ∈ others m ->
    add_block_to_free_list b (with_others (filter (fun x => x <> b) (others m)) m) = Some m' ->
    step raw_value (mkSys p m pc cs) [] (mkSys p m' pc cs).

(** [n] steps with their events. *)
Inductive steps (raw_value : option nat) : nat -> sys -> list event -> sys -> Prop :=
| steps_refl s : steps raw_value 0 s [] s
| steps_snoc n s1 tr s2 ev s3 :
    steps raw_value n s1 tr s2 -> step raw_value s2 ev s3 ->
    steps raw_value (S n) s1 (tr ++ ev) s3.

(** A fresh sub-queue. *)
Definition init (raw_value : option nat) (mem : bool) (start : Z) (m : Pool) : sys :=
  mkSys (ImplicitProducer_init raw_value mem start) m PIdle (fun _ => CIdle).

End Producer.

Arguments Block : clear implicits.
Arguments Pool : clear implicits.
Arguments ppc : clear implicits.
Arguments cpc : clear implicits.
Arguments sys : clear implicits.
Arguments event : clear implicits.
