(* ===== verification/CqInv.v ===== *)
(** * What holds of a sub-queue in every interleaving: the parts of the invariant

    Each reachable state of [CqProducer.sys] is described by a ghost state with unbounded
    numbers: the elements enqueued so far, what became of every ticket drawn from
    [dequeueOptimisticCount] and of every index drawn from [headIndex], which entry and
    which block holds each group of 32 elements, who owns each block, and where each
    dequeuing thread stands.  Threads appear by name in the ghost state, so that two threads
    cannot hold the same ticket, index or block. *)
From stdpp Require Import functions.
From S2P Require Import Prelude CqArith CqProducer.

(** ** Counting *)

Fixpoint count {B} (p : B -> bool) (l : list B) : nat :=
  match l with [] => 0 | x :: l => Nat.b2n (p x) + count p l end.

Section Count.
Context {B : Type} (p : B -> bool).
Implicit Types l : list B.

Lemma count_app l k : count p (l ++ k) = (count p l + count p k)%nat.
Proof. induction l; simpl; lia. Qed.

Lemma count_le l : (count p l <= length l)%nat.
Proof. induction l as [|x l]; simpl; [lia|]. destruct (p x); simpl; lia. Qed.

Lemma count_insert l i x y :
  l !! i = Some x ->
  (count p (<[i := y]> l) + Nat.b2n (p x) = count p l + Nat.b2n (p y))%nat.
Proof.
  revert i. induction l as [|z l IH]; intros [|i] Hi; simplify_eq/=; [lia|].
  specialize (IH i Hi). lia.
Qed.

Lemma count_take_le l n : (count p (take n l) <= count p l)%nat.
Proof. rewrite <- (take_drop n l) at 2. rewrite count_app. lia. Qed.

Lemma count_insert_ge l i x y :
  l !! i = Some x -> p x = false -> (count p l <= count p (<[i := y]> l))%nat.
Proof. intros Hi Hx. pose proof (count_insert l i x y Hi) as H. rewrite Hx in H. simpl in H. lia. Qed.

Lemma count_none l : (forall x, x ∈ l -> p x = false) -> count p l = 0%nat.
Proof.
  induction l as [|x l IH]; intros Hl; simpl; [done|].
  rewrite (Hl x), IH; [done| |left]. intros y Hy. apply Hl. by right.
Qed.

Lemma count_full l x : count p l = length l -> x ∈ l -> p x = true.
Proof.
  induction l as [|y l IH]; intros Hc Hx; [by apply not_elem_of_nil in Hx|].
  simpl in Hc. pose proof (count_le l).
  destruct (p y) eqn:Hy; simpl in Hc; [|lia].
  apply elem_of_cons in Hx as [-> | Hx]; [done|]. apply IH; [lia|done].
Qed.

(** The part of a list that belongs to block [n]. *)
Definition seg (n : nat) (l : list B) : list B := take 32 (drop (32 * n) l).

Lemma lookup_seg n l i : (i < 32)%nat -> seg n l !! i = l !! (32 * n + i)%nat.
Proof. intros Hi. unfold seg. rewrite lookup_take_lt by done. apply lookup_drop. Qed.

Lemma length_seg n l : (length (seg n l) <= 32)%nat.
Proof. unfold seg. rewrite length_take. lia. Qed.

Lemma seg_insert n l k x :
  seg n (<[k := x]> l) =
  if decide (k / 32 = n)%nat then <[(k mod 32)%nat := x]> (seg n l) else seg n l.
Proof.
  pose proof (Nat.div_mod k 32 ltac:(done)) as Hk.
  pose proof (Nat.mod_upper_bound k 32 ltac:(done)) as Hm.
  apply list_eq. intros i. destruct (decide (i < 32)%nat) as [Hi|Hi].
  - rewrite lookup_seg by done. destruct (decide (k / 32 = n)%nat) as [Hn|Hn].
    + destruct (decide (i = k mod 32)%nat) as [->|Hne].
      * replace (32 * n + k mod 32)%nat with k by lia.
        destruct (decide (k < length l)%nat).
        -- rewrite list_lookup_insert_eq by done. rewrite list_lookup_insert_eq; [done|].
           unfold seg. rewrite length_take, length_drop. lia.
        -- rewrite !list_insert_ge; [|unfold seg; rewrite length_take, length_drop; lia|lia].
           rewrite lookup_seg by done. f_equal. lia.
      * rewrite !list_lookup_insert_ne by lia. by rewrite lookup_seg.
    + rewrite list_lookup_insert_ne, lookup_seg; [done..|]. intros ->.
      apply Hn. rewrite Nat.mul_comm, Nat.div_add_l by done. rewrite (Nat.div_small i); lia.
  - rewrite lookup_ge_None_2 by (pose proof (length_seg n (<[k:=x]> l)); lia).
    symmetry. apply lookup_ge_None_2.
    case_decide; rewrite ?length_insert; pose proof (length_seg n l); lia.
Qed.

Lemma seg_app_end n l k : (32 * (n + 1) <= length l)%nat -> seg n (l ++ k) = seg n l.
Proof.
  intros Hn. unfold seg. rewrite drop_app_le by lia. rewrite take_app_le; [done|].
  rewrite length_drop. lia.
Qed.

(** Appending something that is not counted changes no count. *)
Lemma count_seg_app n l x : p x = false -> count p (seg n (l ++ [x])) = count p (seg n l).
Proof.
  intros Hx. unfold seg. destruct (decide (32 * n <= length l)%nat) as [Hn|Hn].
  - rewrite drop_app_le, take_app by done. rewrite count_app.
    assert (count p (take (32 - length (drop (32 * n) l)) [x]) = 0)%nat as ->; [|lia].
    apply count_none. intros y Hy%elem_of_take. destruct Hy as (i & Hy & _).
    destruct i; simplify_eq/=; done.
  - rewrite !drop_ge; [done|lia|rewrite length_app; simpl; lia].
Qed.

Lemma count_seg_insert n l k x y :
  l !! k = Some x ->
  (count p (seg n (<[k := y]> l)) + (if decide (k / 32 = n)%nat then Nat.b2n (p x) else 0)
   = count p (seg n l) + (if decide (k / 32 = n)%nat then Nat.b2n (p y) else 0))%nat.
Proof.
  intros Hk. rewrite seg_insert. case_decide as Hn; [|lia]. apply count_insert.
  rewrite lookup_seg by (apply Nat.mod_upper_bound; done).
  rewrite <- Hk. f_equal. pose proof (Nat.div_mod k 32 ltac:(done)). lia.
Qed.

Lemma count_seg_le n l : (count p (seg n l) <= 32)%nat.
Proof. pose proof (count_le (seg n l)). pose proof (length_seg n l). lia. Qed.

(** A block whose 32 elements are all counted. *)
Lemma count_seg_full n l k :
  count p (seg n l) = 32%nat -> (k / 32 = n)%nat -> exists x, l !! k = Some x /\ p x = true.
Proof.
  intros Hc Hk. pose proof (count_le (seg n l)). pose proof (length_seg n l).
  pose proof (Nat.div_mod k 32 ltac:(done)). pose proof (Nat.mod_upper_bound k 32 ltac:(done)).
  destruct (lookup_lt_is_Some_2 (seg n l) (k mod 32)%nat) as [x Hx]; [lia|].
  exists x. split.
  - rewrite <- Hx, lookup_seg by done. f_equal. lia.
  - apply count_full with (l := seg n l); [lia|]. by apply list_elem_of_lookup_2 in Hx.
Qed.

(** A block with a member that is not counted is not full. *)
Lemma count_seg_lt n l k :
  (k / 32 = n)%nat -> (forall x, l !! k = Some x -> p x = false) -> (count p (seg n l) < 32)%nat.
Proof.
  intros Hk Hx. pose proof (count_seg_le n l).
  destruct (decide (count p (seg n l) = 32)%nat) as [He|He]; [|lia].
  destruct (count_seg_full n l k He Hk) as (x & Hl & Hp). by rewrite (Hx x Hl) in Hp.
Qed.

End Count.

(** ** The ghost state *)

(** What became of a ticket of [dequeueOptimisticCount]. *)
Inductive claim :=
| Undecided (tid : nat)
| Winner (tid : nat)
| Taken
| Loser (tid : nat)
| Lost.

Definition is_lost (c : claim) : bool := match c with Lost => true | _ => false end.
Definition is_taken (c : claim) : bool := match c with Taken => true | _ => false end.
Definition is_won (c : claim) : bool := match c with Taken | Winner _ => true | _ => false end.

(** What became of an index of [headIndex]: its element still in its slot, moved out, or
    counted as taken out of the block. *)
Inductive idx_state := Held (tid : nat) | Moved (tid : nat) | Done.

Definition is_done (x : idx_state) : bool := match x with Done => true | _ => false end.

(** A block: in use; emptied, with a thread about to clear its entry; cleared, with that
    thread about to give the block back; given back. *)
Inductive blk_state := Live | Clearing (tid : nat) | Freeing (tid : nat) | Gone.

Inductive owner := OwnBlock (n : nat) | OwnPrivate | OwnFree | OwnOther | OwnPool.

(** A dequeuing thread with unbounded registers; [k] is its element's number, [J] the block
    number of the index tail it has read. *)
Inductive gpc :=
| GIdle
| GOvercommit (ti : nat)
| GOptimistic (ti oi : nat)
| GClaim (oi : nat)
| GTest (oi m : nat)
| GTake (m : nat)
| GGiveUp (m : nat)
| GIndex (k : nat)
| GTail (k h : nat)
| GBase (k h : nat) (tail : Z) (J : nat)
| GValue (k : nat)
| GMove (k : nat)
| GEmpty (k : nat)
| GClear (k : nat)
| GFree (k : nat).

Definition held_index (g : gpc) : option nat :=
  match g with
  | GIndex k | GTail k _ | GBase k _ _ _ | GValue k | GMove k => Some k
  | _ => None
  end.

(** The element a thread has taken and not yet returned. *)
Definition taken_index (g : gpc) : option nat :=
  match g with
  | GEmpty k | GClear k | GFree k => Some k
  | _ => held_index g
  end.

(** Case analysis on which thread a ghost fact is about. *)
Ltac by_thread tid tid' :=
  destruct (decide (tid = tid')) as [->|?];
  [rewrite ?fn_lookup_insert in *|rewrite ?fn_lookup_insert_ne in * by done].

(** ** Tickets

    [dequeueOptimisticCount - dequeueOvercommit] bounds the number of winners: a winner with
    ticket [m] has seen at least [m + 1 - tailIndex] losers among the earlier tickets. *)

Definition claim_tid (c : claim) : option nat :=
  match c with Undecided tid | Winner tid | Loser tid => Some tid | _ => None end.

(** The ticket a thread holds. *)
Definition claim_of (tid : nat) (g : gpc) : option (nat * claim) :=
  match g with
  | GTest _ m => Some (m, Undecided tid)
  | GTake m => Some (m, Winner tid)
  | GGiveUp m => Some (m, Loser tid)
  | _ => None
  end.

Definition regs_ok (claims : list claim) (N : nat) (g : gpc) : Prop :=
  match g with
  | GOvercommit ti => (ti <= N)%nat
  | GOptimistic ti oi => (ti <= N)%nat /\ (oi <= count is_lost claims)%nat
  | GClaim oi => (oi <= count is_lost claims)%nat
  | GTest oi m => (oi <= count is_lost (take m claims))%nat
  | _ => True
  end.

Record tickets (claims : list claim) (gcs : nat -> gpc) (N H : nat) : Prop := {
  tk_won m c :
    claims !! m = Some c -> is_won c = true ->
    (m + 1 <= N + count is_lost (take m claims))%nat;
  tk_taken : count is_taken claims = H;
  tk_claim m c tid :
    claim_tid c = Some tid -> claims !! m = Some c <-> claim_of tid (gcs tid) = Some (m, c);
  tk_regs tid : regs_ok claims N (gcs tid) }.

Section Tickets.
Implicit Types (claims : list claim) (gcs : nat -> gpc).

Lemma won_bound claims N :
  (forall m c, claims !! m = Some c -> is_won c = true ->
     (m + 1 <= N + count is_lost (take m claims))%nat) ->
  (count is_won claims <= N)%nat.
Proof.
  induction claims as [|c l IH] using rev_ind; intros Hw; [simpl; lia|].
  rewrite count_app. simpl. destruct (is_won c) eqn:Hc.
  - specialize (Hw (length l) c). rewrite lookup_app_r, Nat.sub_diag, take_app_length in Hw by lia.
    specialize (Hw eq_refl Hc).
    assert (count is_won l + count is_lost l <= length l)%nat; [|simpl; lia].
    clear. induction l as [|[] l IH]; simpl; lia.
  - simpl. rewrite Nat.add_0_r. apply IH. intros m d Hm Hd.
    assert (m < length l)%nat by (by eapply lookup_lt_Some).
    specialize (Hw m d). rewrite lookup_app_l, take_app_le in Hw by lia. auto.
Qed.

(** No more indices are drawn than elements published. *)
Lemma tickets_bound claims gcs N H :
  tickets claims gcs N H -> (H + count is_won claims - count is_taken claims <= N)%nat.
Proof.
  intros Ht. pose proof (won_bound _ _ (tk_won _ _ _ _ Ht)). rewrite (tk_taken _ _ _ _ Ht). lia.
Qed.

Lemma count_won_taken claims m tid :
  claims !! m = Some (Winner tid) -> (count is_taken claims < count is_won claims)%nat.
Proof.
  revert m. induction claims as [|c l IH]; intros [|m] Hm; simplify_eq/=.
  - assert (count is_taken l <= count is_won l)%nat; [|lia].
    clear. induction l as [|[] l IH]; simpl; lia.
  - specialize (IH m Hm). destruct c; simpl; lia.
Qed.

Lemma tickets_head claims gcs N H :
  tickets claims gcs N H -> (H <= N)%nat.
Proof.
  intros Ht. pose proof (won_bound _ _ (tk_won _ _ _ _ Ht)).
  rewrite <- (tk_taken _ _ _ _ Ht).
  assert (count is_taken claims <= count is_won claims)%nat; [|lia].
  clear. induction claims as [|[] l IH]; simpl; lia.
Qed.

Lemma tickets_push claims gcs N H : tickets claims gcs N H -> tickets claims gcs (N + 1) H.
Proof.
  intros [Hw Ht Hc Hr]. split; [|done..|].
  - intros m c Hm Hwon. specialize (Hw m c Hm Hwon). lia.
  - intros tid. specialize (Hr tid). destruct (gcs tid); simpl in *; intuition lia.
Qed.

(** A thread that neither holds nor gains a ticket. *)
Lemma tickets_local claims gcs N H tid g :
  tickets claims gcs N H -> claim_of tid (gcs tid) = None -> claim_of tid g = None ->
  regs_ok claims N g -> tickets claims (<[tid := g]> gcs) N H.
Proof.
  intros [Hw Ht Hc Hr] Hold Hnew Hregs. split; [done..| |].
  - intros m c tid' Hn. rewrite (Hc m c tid') by done. by_thread tid tid'; [|done].
    by rewrite Hold, Hnew.
  - intros tid'. by_thread tid tid'; [done|apply Hr].
Qed.

Lemma regs_ok_mono claims claims' N g :
  (forall m, count is_lost (take m claims) <= count is_lost (take m claims'))%nat ->
  (count is_lost claims <= count is_lost claims')%nat ->
  regs_ok claims N g -> regs_ok claims' N g.
Proof. intros Ht Ha. destruct g; simpl; intuition (try lia). specialize (Ht m). lia. Qed.

(** Drawing a ticket. *)
Lemma tickets_claim claims gcs N H tid oi :
  tickets claims gcs N H -> gcs tid = GClaim oi ->
  tickets (claims ++ [Undecided tid]) (<[tid := GTest oi (length claims)]> gcs) N H.
Proof.
  intros [Hw Ht Hc Hr] Hg.
  assert (forall m, count is_lost (take m (claims ++ [Undecided tid])) =
                    count is_lost (take m claims)) as Hlost.
  { intros m. rewrite take_app, count_app.
    destruct (m - length claims)%nat; simpl; rewrite ?take_nil; simpl; lia. }
  split.
  - intros m c [Hm|[Hm Hx]]%lookup_app_Some Hwon; rewrite Hlost; [eauto|].
    apply list_lookup_singleton_Some in Hx as [_ <-]. done.
  - rewrite count_app, Ht. simpl. lia.
  - intros m c tid' Hn. split.
    + intros [Hm|[Hm Hx]]%lookup_app_Some.
      * apply (Hc m c tid' Hn) in Hm. by_thread tid tid'; [by rewrite Hg in Hm|done].
      * apply list_lookup_singleton_Some in Hx as [? <-]. simplify_eq/=.
        rewrite fn_lookup_insert. simpl. do 2 f_equal. lia.
    + by_thread tid tid'; simpl.
      * intros [= <- <-]. by rewrite lookup_app_r, Nat.sub_diag by lia.
      * intros Hm%(Hc m c tid' Hn). apply lookup_app_l_Some. done.
  - intros tid'. by_thread tid tid'.
    + simpl. rewrite Hlost, take_ge by lia. specialize (Hr tid'). by rewrite Hg in Hr.
    + eapply regs_ok_mono; [..|apply Hr]; [intros m; by rewrite Hlost|].
      rewrite count_app. simpl. lia.
Qed.

(** A thread whose ticket changes from [c] to [c']. *)
Lemma tickets_update claims gcs N H H' tid g m c c' :
  tickets claims gcs N H -> claim_of tid (gcs tid) = Some (m, c) ->
  claim_of tid g = (fun _ => (m, c')) <$> claim_tid c' -> claim_tid c' = None \/ claim_tid c' = Some tid ->
  (is_won c' = true -> is_won c = true \/ (m + 1 <= N + count is_lost (take m claims))%nat) ->
  regs_ok claims N g -> count is_taken (<[m := c']> claims) = H' ->
  claims !! m = Some c /\ tickets (<[m := c']> claims) (<[tid := g]> gcs) N H'.
Proof.
  intros [Hw Ht Hc Hr] Hold Hnew Hname Hwon Hregs Htaken.
  assert (claim_tid c = Some tid) as Hctid by (destruct (gcs tid); simplify_eq/=; done).
  assert (is_lost c = false) as Hnl by (by destruct c).
  assert (claims !! m = Some c) as Hm by (by apply (Hc m c tid)).
  split; [done|].
  assert (forall i, count is_lost (take i claims) <= count is_lost (take i (<[m := c']> claims)))%nat as Hlost.
  { intros i. destruct (decide (m < i)%nat).
    - rewrite take_insert_lt by done. eapply count_insert_ge; [|done].
      by rewrite lookup_take_lt.
    - by rewrite take_insert_ge by lia. }
  assert (count is_lost claims <= count is_lost (<[m := c']> claims))%nat as Hlosta
    by (by eapply count_insert_ge).
  split; [|done|..].
  - intros i d Hi Hd. specialize (Hlost i).
    destruct (decide (m = i)) as [<-|Hne].
    + rewrite list_lookup_insert_eq in Hi by (by eapply lookup_lt_Some). simplify_eq.
      specialize (Hwon Hd) as [Hcw|Hle]; [|lia]. specialize (Hw m c Hm Hcw). lia.
    + rewrite list_lookup_insert_ne in Hi by done. specialize (Hw i d Hi Hd). lia.
  - intros i d tid' Hd. destruct (decide (m = i)) as [<-|Hne].
    + rewrite list_lookup_insert_eq by (by eapply lookup_lt_Some). by_thread tid tid'.
      * rewrite Hnew. destruct Hname as [Hn'|Hn']; rewrite Hn'; naive_solver.
      * split; intros Heq.
        -- simplify_eq. destruct Hname; congruence.
        -- apply (Hc m d tid' Hd) in Heq. congruence.
    + rewrite list_lookup_insert_ne by done. rewrite (Hc i d tid' Hd).
      by_thread tid tid'; [|done]. rewrite Hold, Hnew.
      destruct (claim_tid c'); naive_solver.
  - intros tid'. by_thread tid tid'; [|]; (eapply regs_ok_mono; [apply Hlost|done|]); [done|apply Hr].
Qed.

End Tickets.

(** ** Indices *)

Definition idx_tid (x : idx_state) : option nat :=
  match x with Held tid | Moved tid => Some tid | Done => None end.

Definition index_of (tid : nat) (g : gpc) : option (nat * idx_state) :=
  match g with
  | GEmpty k => Some (k, Moved tid)
  | GClear k | GFree k => Some (k, Done)
  | _ => (fun k => (k, Held tid)) <$> held_index g
  end.

Record indices (heads : list idx_state) (gcs : nat -> gpc) : Prop := {
  ix_tid k x tid :
    idx_tid x = Some tid -> heads !! k = Some x <-> index_of tid (gcs tid) = Some (k, x);
  ix_index k x tid : index_of tid (gcs tid) = Some (k, x) -> heads !! k = Some x }.

Section Indices.
Implicit Types (heads : list idx_state) (gcs : nat -> gpc).

Lemma indices_local heads gcs tid g :
  indices heads gcs -> index_of tid g = index_of tid (gcs tid) \/ index_of tid g = None /\
    (index_of tid (gcs tid) = None \/ exists k, index_of tid (gcs tid) = Some (k, Done)) ->
  indices heads (<[tid := g]> gcs).
Proof.
  intros [Ht Hi] Hg. split.
  - intros k x tid' Hx. rewrite (Ht k x tid' Hx). by_thread tid tid'; [|done].
    destruct Hg as [->|[-> [->|[k' ->]]]]; [done|done|]. split; [|done].
    intros [= -> <-]. done.
  - intros k x tid'. by_thread tid tid'; [|apply Hi].
    destruct Hg as [->|[-> _]]; [apply Hi|done].
Qed.

(** Drawing an index. *)
Lemma indices_take heads gcs tid g :
  indices heads gcs -> index_of tid (gcs tid) = None ->
  index_of tid g = Some (length heads, Held tid) ->
  indices (heads ++ [Held tid]) (<[tid := g]> gcs).
Proof.
  intros [Ht Hi] Hold Hnew. split.
  - intros k x tid' Hx. split.
    + intros [Hk|[Hk Hy]]%lookup_app_Some.
      * apply (Ht k x tid' Hx) in Hk. by_thread tid tid'; [by rewrite Hold in Hk|done].
      * apply list_lookup_singleton_Some in Hy as [? <-]. simplify_eq/=.
        rewrite fn_lookup_insert, Hnew. do 2 f_equal. lia.
    + by_thread tid tid'.
      * rewrite Hnew. intros [= <- <-]. by rewrite lookup_app_r, Nat.sub_diag by lia.
      * intros Hk%(Ht k x tid' Hx). by apply lookup_app_l_Some.
  - intros k x tid'. by_thread tid tid'.
    + rewrite Hnew. intros [= <- <-]. by rewrite lookup_app_r, Nat.sub_diag by lia.
    + intros Hk%Hi. by apply lookup_app_l_Some.
Qed.

(** A thread whose index changes from [x] to [x']. *)
Lemma indices_update heads gcs tid g k x x' :
  indices heads gcs -> index_of tid (gcs tid) = Some (k, x) -> idx_tid x = Some tid ->
  (index_of tid g = Some (k, x') \/ index_of tid g = None) -> idx_tid x' = None \/
    idx_tid x' = Some tid /\ index_of tid g = Some (k, x') ->
  indices (<[k := x']> heads) (<[tid := g]> gcs).
Proof.
  intros [Ht Hi] Hold Hx Hg Hx'.
  pose proof (Hi _ _ _ Hold) as Hk. pose proof (lookup_lt_Some _ _ _ Hk) as Hlt.
  assert (forall tid' y, tid' <> tid -> index_of tid' (gcs tid') <> Some (k, y)) as Hne.
  { intros tid' y Hne Heq. pose proof (Hi _ _ _ Heq) as Hy. rewrite Hk in Hy. injection Hy as <-.
    destruct (gcs tid') eqn:E; simplify_eq/=; try done. }
  split.
  - intros i y tid' Hy. destruct (decide (k = i)) as [<-|Hik].
    + rewrite list_lookup_insert_eq by done. by_thread tid tid'.
      * destruct Hx' as [Hx'|[Hx' Hg']]; [|rewrite Hg'; naive_solver].
        split; [intros [= ->]; congruence|].
        destruct Hg as [Hg|Hg]; rewrite Hg; [intros [= ->]; congruence|done].
      * split; [|by intros ?%Hne]. intros [= ->]. destruct Hx' as [?|[? ?]]; congruence.
    + rewrite list_lookup_insert_ne by done. rewrite (Ht i y tid' Hy). by_thread tid tid'; [|done].
      rewrite Hold. destruct Hg as [Hg|Hg]; rewrite Hg; naive_solver.
  - intros i y tid'. by_thread tid tid'.
    + destruct Hg as [Hg|Hg]; rewrite Hg; [|done]. intros [= <- <-].
      by rewrite list_lookup_insert_eq.
    + intros Heq. destruct (decide (k = i)) as [<-|Hik]; [by eapply Hne in Heq|].
      rewrite list_lookup_insert_ne by done. by apply Hi in Heq.
Qed.

End Indices.

(** ** Blocks *)

Section Blocks.
Context {A : Type}.
Implicit Types (elems : list A) (heads : list idx_state) (binfo : list (nat * blk_state))
  (gcs : nat -> gpc) (m : Pool A) (own : gmap nat owner).

Definition done_in (heads : list idx_state) (n : nat) : nat := count is_done (seg n heads).

(** Element [k] is still in its slot (once published). *)
Definition in_slot (heads : list idx_state) (k : nat) : Prop :=
  forall x, heads !! k = Some x -> exists tid, x = Held tid.

Definition block_holds elems heads m (n b : nat) : Prop :=
  exists B, deref m b = Some B /\ length (elements B) = 32%nat /\
    elementsCompletelyDequeued B = Z.of_nat (done_in heads n) /\
    forall k, (k / 32 = n)%nat -> (k < length elems)%nat -> in_slot heads k ->
      elements B !! (k mod 32)%nat = Some (elems !! k).

Definition blk_tid (st : blk_state) : option nat :=
  match st with Clearing tid | Freeing tid => Some tid | _ => None end.

Definition blk_of (tid : nat) (g : gpc) : option (nat * blk_state) :=
  match g with
  | GClear k => Some (k / 32, Clearing tid)%nat
  | GFree k => Some (k / 32, Freeing tid)%nat
  | _ => None
  end.

Record blocks_ok elems heads binfo gcs m own : Prop := {
  bk_live n b st : binfo !! n = Some (b, st) -> st = Live <-> (done_in heads n < 32)%nat;
  bk_mem n b st : binfo !! n = Some (b, st) -> st <> Gone -> block_holds elems heads m n b;
  bk_own n b st : binfo !! n = Some (b, st) -> st <> Gone -> own !! b = Some (OwnBlock n);
  bk_tid n st tid :
    blk_tid st = Some tid ->
    (exists b, binfo !! n = Some (b, st)) <-> blk_of tid (gcs tid) = Some (n, st);
  bk_back b n : own !! b = Some (OwnBlock n) -> exists st, binfo !! n = Some (b, st) /\ st <> Gone }.

Lemma deref_store m b B b' :
  is_Some (deref m b) -> deref (store_block b B m) b' = if decide (b = b') then Some B else deref m b'.
Proof.
  intros [B0 Hb]. unfold deref, store_block in *. simpl. case_decide as Hd.
  - subst b'. rewrite list_lookup_insert_eq; [done|].
    destruct (blocks m !! b) eqn:E; [|done]. by eapply lookup_lt_Some.
  - by rewrite list_lookup_insert_ne.
Qed.

Lemma blocks_local elems heads binfo gcs m own tid g :
  blocks_ok elems heads binfo gcs m own -> blk_of tid g = blk_of tid (gcs tid) ->
  blocks_ok elems heads binfo (<[tid := g]> gcs) m own.
Proof.
  intros [Hl Hm Ho Ht Hb] Hg. split; [done..| |done]. intros n st tid' Hst. rewrite Ht by done.
  by_thread tid tid'; [by rewrite Hg|done].
Qed.

Lemma block_holds_frame elems heads m m' n b :
  deref m' b = deref m b -> block_holds elems heads m n b -> block_holds elems heads m' n b.
Proof. unfold block_holds. by intros ->. Qed.

(** Memory and ownership may change outside the blocks of this sub-queue. *)
Lemma blocks_frame elems heads binfo gcs m m' own own' :
  blocks_ok elems heads binfo gcs m own ->
  (forall b n, own !! b = Some (OwnBlock n) -> own' !! b = Some (OwnBlock n) /\ deref m' b = deref m b) ->
  (forall b n, own' !! b = Some (OwnBlock n) -> own !! b = Some (OwnBlock n)) ->
  blocks_ok elems heads binfo gcs m' own'.
Proof.
  intros [Hl Hm Ho Ht Hbk] Hf Hf'. split; [done| | |done|]; [| |intros b n Hb; by apply Hbk, Hf'].
  - intros n b st Hb Hst. eapply block_holds_frame; [by eapply Hf, Ho|]. by eapply Hm.
  - intros n b st Hb Hst. by eapply Hf, Ho.
Qed.

(** An index is drawn: its element stays in its slot. *)
Lemma blocks_take elems heads binfo gcs m own tid :
  blocks_ok elems heads binfo gcs m own -> blocks_ok elems (heads ++ [Held tid]) binfo gcs m own.
Proof.
  intros [Hl Hm Ho Ht Hbk].
  assert (forall n, done_in (heads ++ [Held tid]) n = done_in heads n) as Hd
    by (intros n; by apply count_seg_app).
  split; [intros n; rewrite Hd; apply Hl| |done|done|done].
  intros n b st Hb Hst. destruct (Hm n b st Hb Hst) as (B & HB & Hlen & Hc & Hs).
  exists B. rewrite Hd. repeat split; [done..|]. intros k Hk Hke Hin. apply Hs; [done..|].
  intros x Hx. apply Hin. by apply lookup_app_l_Some.
Qed.

(** The element in the tail slot is published. *)
Lemma blocks_push elems heads binfo gcs m own v :
  blocks_ok elems heads binfo gcs m own ->
  (forall b st, binfo !! (length elems / 32)%nat = Some (b, st) ->
     exists B, deref m b = Some B /\ elements B !! (length elems mod 32)%nat = Some (Some v)) ->
  blocks_ok (elems ++ [v]) heads binfo gcs m own.
Proof.
  intros [Hl Hm Ho Ht Hbk] Hv. split; [done| |done|done|done].
  intros n b st Hb Hst. destruct (Hm n b st Hb Hst) as (B & HB & Hlen & Hc & Hs).
  exists B. repeat split; [done..|]. intros k Hk Hke Hin. rewrite length_app in Hke. simpl in Hke.
  destruct (decide (k = length elems)) as [->|Hne].
  - subst n. destruct (Hv b st Hb) as (B' & HB' & He). simplify_eq.
    by rewrite lookup_app_r, Nat.sub_diag by lia.
  - rewrite lookup_app_l by lia. apply Hs; [done|lia|done].
Qed.

Lemma div_mod_inj k k' : (k / 32 = k' / 32 -> k mod 32 = k' mod 32 -> k = k')%nat.
Proof.
  intros Hd Hm. rewrite (Nat.div_mod k 32), (Nat.div_mod k' 32) by done. by rewrite Hd, Hm.
Qed.

(** The slot behind the last element is written. *)
Lemma blocks_construct elems heads binfo gcs m own n b st B idx x :
  blocks_ok elems heads binfo gcs m own ->
  binfo !! n = Some (b, st) -> (length elems / 32 = n)%nat -> st <> Gone -> deref m b = Some B ->
  slot idx = (length elems mod 32)%nat ->
  blocks_ok elems heads binfo gcs (store_block b (set_slot idx x B) m) own.
Proof.
  intros [Hl Hm Ho Ht Hbk] Hn Hlast Hst HB Hslot. split; [done| |done|done|done].
  intros n' b' st' Hb' Hst'. destruct (Hm n' b' st' Hb' Hst') as (B' & HB' & Hlen & Hc & Hs).
  unfold block_holds. rewrite deref_store by done. case_decide as Hd; [|by exists B'].
  subst b'. assert (B' = B) as -> by congruence. subst n.
  assert (n' = length elems / 32)%nat as ->.
  { pose proof (Ho _ _ _ Hn Hst). pose proof (Ho _ _ _ Hb' Hst'). congruence. }
  exists (set_slot idx x B). simpl. rewrite length_insert. repeat split; [done..|].
  intros k Hk Hke Hin. rewrite list_lookup_insert_ne; [by apply Hs|].
  rewrite Hslot. intros He. assert (k = length elems) by (by apply div_mod_inj). lia.
Qed.

(** A fresh block becomes the next one. *)
Lemma blocks_new elems heads binfo gcs m own b B :
  blocks_ok elems heads binfo gcs m own ->
  own !! b = Some OwnPrivate -> deref m b = Some B -> length (elements B) = 32%nat ->
  elementsCompletelyDequeued B = 0 -> (length heads <= length elems)%nat ->
  (length elems <= 32 * length binfo)%nat ->
  blocks_ok elems heads (binfo ++ [(b, Live)]) gcs m (<[b := OwnBlock (length binfo)]> own).
Proof.
  intros [Hl Hm Ho Ht Hbk] Hb HB Hlen Hc Hhe Hel.
  assert (done_in heads (length binfo) = 0%nat) as Hz.
  { unfold done_in, seg. rewrite drop_ge by lia. done. }
  split.
  - intros n b' st [Hn|[Hn Hx]]%lookup_app_Some; [by eapply Hl|].
    apply list_lookup_singleton_Some in Hx as [? [= <- <-]].
    replace n with (length binfo) by lia. rewrite Hz. split; [lia|done].
  - intros n b' st [Hn|[Hn Hx]]%lookup_app_Some Hst; [by eapply Hm|].
    apply list_lookup_singleton_Some in Hx as [? [= <- <-]].
    replace n with (length binfo) by lia.
    exists B. rewrite Hz. repeat split; [done..|]. intros k Hk Hke _.
    assert (length binfo * 32 <= k)%nat; [|lia]. subst. rewrite <- Hk.
    pose proof (Nat.div_mod k 32 ltac:(done)). lia.
  - intros n b' st [Hn|[Hn Hx]]%lookup_app_Some Hst.
    + pose proof (Ho _ _ _ Hn Hst). rewrite lookup_insert_ne; [done|]. congruence.
    + apply list_lookup_singleton_Some in Hx as [? [= <- <-]].
      rewrite lookup_insert_eq. do 2 f_equal. lia.
  - intros n st tid Hst. rewrite <- (Ht n st tid Hst). split; intros [b' Hn].
    + apply lookup_app_Some in Hn as [Hn|[Hn Hx]]; [by exists b'|].
      apply list_lookup_singleton_Some in Hx as [? [= <- <-]]. done.
    + exists b'. by apply lookup_app_l_Some.
  - intros b' n. destruct (decide (b' = b)) as [->|Hne].
    + rewrite lookup_insert_eq. intros [= <-]. exists Live. split; [|done]. by apply list_lookup_middle.
    + rewrite lookup_insert_ne by done. intros (st & Hn & Hst)%Hbk. exists st. split; [by apply lookup_app_l_Some|done].
Qed.

(** An element is moved out of its slot. *)
Lemma blocks_move elems heads binfo gcs m own tid k b st B idx :
  blocks_ok elems heads binfo gcs m own ->
  heads !! k = Some (Held tid) -> binfo !! (k / 32)%nat = Some (b, st) -> st <> Gone ->
  deref m b = Some B -> slot idx = (k mod 32)%nat ->
  blocks_ok elems (<[k := Moved tid]> heads) binfo gcs (store_block b (set_slot idx None B) m) own.
Proof.
  intros [Hl Hm Ho Ht Hbk] Hk Hn Hst HB Hslot.
  assert (forall n, done_in (<[k := Moved tid]> heads) n = done_in heads n) as Hd.
  { intros n. pose proof (count_seg_insert is_done n heads k _ (Moved tid) Hk) as Hc.
    unfold done_in. simpl in Hc. destruct (decide _); lia. }
  assert (forall k', in_slot (<[k := Moved tid]> heads) k' -> in_slot heads k' /\ k' <> k) as Hin.
  { intros k' Hin. assert (k' <> k) as Hne.
    - intros ->. destruct (Hin (Moved tid)) as [? [=]].
      apply list_lookup_insert_eq. by eapply lookup_lt_Some.
    - split; [|done]. intros x Hx. apply Hin. by rewrite list_lookup_insert_ne. }
  split; [intros n; rewrite Hd; apply Hl| |done|done|done].
  intros n b' st' Hb' Hst'. destruct (Hm n b' st' Hb' Hst') as (B' & HB' & Hlen & Hc & Hs).
  unfold block_holds. rewrite deref_store, Hd by done. case_decide as Hdec; cycle 1.
  { exists B'. repeat split; [done..|]. intros k' ? ? [? ?]%Hin. by apply Hs. }
  subst b'. assert (B' = B) as -> by congruence.
  assert (n = k / 32)%nat as ->.
  { pose proof (Ho _ _ _ Hn Hst). pose proof (Ho _ _ _ Hb' Hst'). congruence. }
  exists (set_slot idx None B). simpl. rewrite length_insert. repeat split; [done..|].
  intros k' Hk' Hke [Hin' Hne]%Hin. rewrite list_lookup_insert_ne; [by apply Hs|].
  rewrite Hslot. intros He. apply Hne. by apply div_mod_inj.
Qed.

(** An element is counted as taken out.  The thread that counts the last one becomes
    responsible for the block. *)
Lemma blocks_empty elems heads binfo gcs m own tid k b B :
  blocks_ok elems heads binfo gcs m own ->
  gcs tid = GEmpty k -> heads !! k = Some (Moved tid) -> binfo !! (k / 32)%nat = Some (b, Live) ->
  deref m b = Some B ->
  let last := fst (set_empty B) in
  blocks_ok elems (<[k := Done]> heads)
    (if last then <[(k / 32)%nat := (b, Clearing tid)]> binfo else binfo)
    (<[tid := if last then GClear k else GIdle]> gcs) (store_block b (snd (set_empty B)) m) own.
Proof.
  intros [Hl Hm Ho Ht Hbk] Hg Hk Hn HB last. set (n := (k / 32)%nat) in *.
  destruct (Hm n b Live Hn ltac:(done)) as (B0 & HB0 & Hlen0 & Hc0 & Hs0).
  assert (B0 = B) as -> by congruence.
  assert (done_in heads n < 32)%nat as Hlt by (by apply (Hl n b Live Hn)).
  assert (forall n', done_in (<[k := Done]> heads) n' =
            if decide (n = n') then (done_in heads n + 1)%nat else done_in heads n') as Hd.
  { intros n'. pose proof (count_seg_insert is_done n' heads k _ Done Hk) as Hc.
    unfold done_in. simpl in Hc. unfold n in *. destruct (decide _); subst; simpl in *; lia. }
  assert (last = bool_decide (done_in heads n + 1 = 32)%nat) as Hlast.
  { unfold last, set_empty. simpl. rewrite Hc0. unfold BLOCK_SIZE.
    case_bool_decide; [apply Z.eqb_eq|apply Z.eqb_neq]; lia. }
  assert (forall k', in_slot (<[k := Done]> heads) k' -> in_slot heads k') as Hin.
  { intros k' Hin x Hx. destruct (decide (k = k')) as [<-|Hne].
    - destruct (Hin Done) as [? [=]]. apply list_lookup_insert_eq. by eapply lookup_lt_Some.
    - apply Hin. by rewrite list_lookup_insert_ne. }
  assert (forall n' b' st', (if last then <[n := (b, Clearing tid)]> binfo else binfo) !! n' = Some (b', st') ->
            n' = n /\ b' = b /\ st' = (if last then Clearing tid else Live) \/
            n' <> n /\ binfo !! n' = Some (b', st')) as Hbi.
  { intros n' b' st'. destruct (decide (n' = n)) as [->|Hne].
    - destruct last; [rewrite list_lookup_insert_eq by (by eapply lookup_lt_Some)|]; naive_solver.
    - destruct last; [rewrite list_lookup_insert_ne by done|]; naive_solver. }
  split.
  - intros n' b' st' [(-> & -> & ->)|[Hne Hb']]%Hbi; rewrite Hd.
    + rewrite decide_True by done. rewrite Hlast.
      case_bool_decide; [split; [done|lia]|split; [lia|done]].
    + rewrite decide_False by done. by eapply Hl.
  - intros n' b' st' [(-> & -> & ->)|[Hne Hb']]%Hbi Hst'.
    + exists (snd (set_empty B)). rewrite deref_store, decide_True by done. repeat split; [done| |].
      * simpl. rewrite Hc0, Hd, decide_True by done. rewrite u64_small; lia.
      * intros k' Hk' Hke Hi%Hin. by apply Hs0.
    + destruct (Hm n' b' st' Hb' Hst') as (B' & HB' & Hlen & Hc & Hs).
      assert (b <> b') as Hbb.
      { intros <-. pose proof (Ho _ _ _ Hn ltac:(done)). pose proof (Ho _ _ _ Hb' Hst'). congruence. }
      exists B'. rewrite deref_store, decide_False, Hd, decide_False by done.
      repeat split; [done..|]. intros k' ? ? Hi%Hin. by apply Hs.
  - intros n' b' st' [(-> & -> & ->)|[Hne Hb']]%Hbi Hst'; [by eapply Ho|by eapply Ho].
  - intros n' st' tid' Hst'. by_thread tid tid'.
    + assert (~ exists b', binfo !! n' = Some (b', st')) as Hno by (rewrite Ht, Hg by done; done).
      split.
      * intros [b' [(-> & -> & ->)|[Hne Hb']]%Hbi]; [by destruct last|]. by destruct Hno; exists b'.
      * destruct last; [|done]. simpl. intros [= <- <-]. exists b.
        apply list_lookup_insert_eq. by eapply lookup_lt_Some.
    + rewrite <- Ht by done. split; intros [b' Hb'].
      * apply Hbi in Hb' as [(-> & -> & ->)|[Hne Hb']]; [|by exists b'].
        destruct last; simplify_eq/=.
      * exists b'. destruct last; [|done]. rewrite list_lookup_insert_ne; [done|].
        intros <-. rewrite Hn in Hb'. by simplify_eq.
  - intros b' n' (st & Hn' & Hst)%Hbk. destruct last; [|by exists st]. destruct (decide (n' = n)) as [->|Hne].
    + exists (Clearing tid). split; [|done]. rewrite Hn in Hn'. injection Hn' as <- <-.
      apply list_lookup_insert_eq. by eapply lookup_lt_Some.
    + exists st. by rewrite list_lookup_insert_ne.
Qed.

(** The state of an emptied block advances, in the hands of one thread. *)
Lemma blocks_status elems heads binfo gcs m m' own own' tid g n b st st' :
  blocks_ok elems heads binfo gcs m own ->
  binfo !! n = Some (b, st) -> blk_tid st = Some tid -> st' <> Live ->
  blk_of tid (gcs tid) = Some (n, st) -> blk_of tid g = (fun _ => (n, st')) <$> blk_tid st' ->
  (blk_tid st' = None \/ blk_tid st' = Some tid) ->
  (forall b' n', own !! b' = Some (OwnBlock n') -> b' <> b \/ st' <> Gone ->
     own' !! b' = Some (OwnBlock n') /\ deref m' b' = deref m b') ->
  (forall b' n', own' !! b' = Some (OwnBlock n') -> own !! b' = Some (OwnBlock n') /\ (b' <> b \/ st' <> Gone)) ->
  blocks_ok elems heads (<[n := (b, st')]> binfo) (<[tid := g]> gcs) m' own'.
Proof.
  intros [Hl Hm Ho Ht Hbk] Hn Htid Hst' Hold Hnew Hname Hf Hf'.
  assert (st <> Live /\ st <> Gone) as [Hs1 Hs2] by (by destruct st).
  pose proof (lookup_lt_Some _ _ _ Hn) as Hlt.
  assert (forall n0 b0 st0, <[n := (b, st')]> binfo !! n0 = Some (b0, st0) ->
     n0 = n /\ b0 = b /\ st0 = st' \/ n0 <> n /\ binfo !! n0 = Some (b0, st0)) as Hbi.
  { intros n0 b0 st0. destruct (decide (n0 = n)) as [->|?].
    - rewrite list_lookup_insert_eq by done. naive_solver.
    - rewrite list_lookup_insert_ne by done. naive_solver. }
  assert (forall n0 b0 st0, n0 <> n -> binfo !! n0 = Some (b0, st0) -> st0 <> Gone -> b0 <> b) as Hdist.
  { intros n0 b0 st0 Hne H0 Hg0 ->. pose proof (Ho _ _ _ Hn Hs2). pose proof (Ho _ _ _ H0 Hg0). congruence. }
  split.
  - intros n0 b0 st0 [(-> & -> & ->)|[Hne H0]]%Hbi; [|by eapply Hl].
    rewrite <- (Hl _ _ _ Hn). split; congruence.
  - intros n0 b0 st0 [(-> & -> & ->)|[Hne H0]]%Hbi Hg0.
    + eapply block_holds_frame; [|by eapply Hm]. eapply Hf; [by eapply Ho|by right].
    + eapply block_holds_frame; [|by eapply Hm]. eapply Hf; [by eapply Ho|left; by eapply Hdist].
  - intros n0 b0 st0 [(-> & -> & ->)|[Hne H0]]%Hbi Hg0.
    + eapply Hf; [by eapply Ho|by right].
    + eapply Hf; [by eapply Ho|left; by eapply Hdist].
  - intros n0 st0 tid0 Hst0. by_thread tid tid0.
    + rewrite Hnew. split.
      * intros [b0 [(-> & -> & ->)|[Hne H0]]%Hbi]; [by rewrite Hst0|].
        assert (blk_of tid0 (gcs tid0) = Some (n0, st0)) as Heq by (apply (Ht n0 st0); [done|by exists b0]).
        congruence.
      * destruct (blk_tid st') eqn:E; [|done]. intros [= <- <-]. exists b.
        by apply list_lookup_insert_eq.
    + rewrite <- Ht by done. split; intros [b0 H0].
      * apply Hbi in H0 as [(-> & -> & ->)|[Hne H0]]; [|by exists b0].
        destruct Hname; congruence.
      * exists b0. rewrite list_lookup_insert_ne; [done|]. intros <-. rewrite Hn in H0. simplify_eq.
  - intros b0 n0 [Hown Hor]%Hf'. destruct (Hbk _ _ Hown) as (st0 & H0 & Hg0). destruct (decide (n0 = n)) as [->|Hne].
    + rewrite Hn in H0. injection H0 as <- <-. exists st'. split; [by apply list_lookup_insert_eq|]. by destruct Hor.
    + exists st0. by rewrite list_lookup_insert_ne.
Qed.

End Blocks.

(** ** Ownership of blocks *)

Section PoolOk.
Context {A : Type}.
Implicit Types (m : Pool A) (own : gmap nat owner).

Record pool_ok m own : Prop := {
  po_live b o : own !! b = Some o -> exists B, deref m b = Some B /\ length (elements B) = 32%nat;
  po_nodup : NoDup (freeList m);
  po_free b : b ∈ freeList m -> own !! b = Some OwnFree;
  po_others b : b ∈ others m -> own !! b = Some OwnOther;
  po_pool i :
    initialBlockPoolIndex m <= i < initialBlockPoolSize m -> own !! Z.to_nat i = Some OwnPool;
  po_size : 0 <= initialBlockPoolIndex m /\ initialBlockPoolSize m < 2 ^ 64;
  po_owned b : is_Some (deref m b) -> is_Some (own !! b);
  po_home b B : deref m b = Some B -> dynamicallyAllocated B = false <-> Z.of_nat b < initialBlockPoolSize m;
  po_static b : own !! b = Some OwnFree \/ own !! b = Some OwnPool -> Z.of_nat b < initialBlockPoolSize m;
  po_length : initialBlockPoolSize m <= Z.of_nat (length (blocks m)) }.

(** Blocks in use keep their contents and their owner, [b] excepted. *)
Definition frame_ok m m' own own' (b : nat) : Prop :=
  forall b' n, own !! b' = Some (OwnBlock n) -> b' <> b ->
    own' !! b' = Some (OwnBlock n) /\ deref m' b' = deref m b'.

Lemma insert_owned own b o b' (x : owner) : own !! b' = Some x -> is_Some (<[b := o]> own !! b').
Proof. intros Hx. destruct (decide (b = b')) as [->|Hne]; [by rewrite lookup_insert_eq|]. by rewrite lookup_insert_ne, Hx. Qed.

Lemma insert_static m own b o b' :
  (forall b, own !! b = Some OwnFree \/ own !! b = Some OwnPool -> Z.of_nat b < initialBlockPoolSize m) ->
  o <> OwnFree /\ o <> OwnPool ->
  <[b := o]> own !! b' = Some OwnFree \/ <[b := o]> own !! b' = Some OwnPool -> Z.of_nat b' < initialBlockPoolSize m.
Proof.
  intros Hs [H1 H2]. destruct (decide (b = b')) as [->|Hne]; [rewrite lookup_insert_eq; naive_solver|].
  rewrite lookup_insert_ne by done. apply Hs.
Qed.

Lemma deref_lt m b B : deref m b = Some B -> (b < length (blocks m))%nat.
Proof. unfold deref. destruct (blocks m !! b) eqn:E; [|done]. intros _. by eapply lookup_lt_Some. Qed.

(** The three sources of a block: the initial pool, the free list and the heap. *)
Definition handed m own o b m' : Prop :=
  pool_ok m' (<[b := o]> own) /\ frame_ok m m' own (<[b := o]> own) b /\
  (forall o', own !! b = Some o' -> o' = OwnFree \/ o' = OwnPool) /\ others m' = others m.

Lemma initial_pool_ok m own o b m' :
  pool_ok m own -> try_get_block_from_initial_pool m = (Some b, m') -> o = OwnPrivate \/ o = OwnOther ->
  handed m own o b m'.
Proof.
  intros [Hlive Hnd Hfree Hoth Hpool Hsize Howned Hhome Hstat Hcount] Hreq Ho. unfold try_get_block_from_initial_pool in Hreq.
  destruct (Z.geb_spec (initialBlockPoolIndex m) (initialBlockPoolSize m)) as [Hge|Hlt]; [done|].
  rewrite (proj2 (Z.ltb_lt _ _) Hlt) in Hreq. injection Hreq as <- <-.
  pose proof (Hpool (initialBlockPoolIndex m) ltac:(lia)) as Hb.
  rewrite u64_small by lia.
  split; [|split; [|split; [naive_solver|done]]].
  - split; simpl; [|done|..|lia| |done| |done].
    + intros b o' Hb'. destruct (decide (b = Z.to_nat (initialBlockPoolIndex m))) as [->|].
      * by eapply Hlive.
      * rewrite lookup_insert_ne in Hb' by done. by eapply Hlive.
    + intros b Hin. rewrite lookup_insert_ne; [by apply Hfree|]. intros <-. apply Hfree in Hin. congruence.
    + intros b Hin. rewrite lookup_insert_ne; [by apply Hoth|]. intros <-. apply Hoth in Hin. congruence.
    + intros i Hi. rewrite lookup_insert_ne by lia. apply Hpool. lia.
    + intros b Hl. destruct (Howned b Hl) as [x Hx]. by eapply insert_owned.
    + intros b. apply insert_static; [done|]. by destruct Ho as [-> | ->].
  - intros b' n Hn Hne. by rewrite lookup_insert_ne.
Qed.

Lemma initial_pool_none m m' : try_get_block_from_initial_pool m = (None, m') -> m' = m.
Proof.
  unfold try_get_block_from_initial_pool.
  destruct (Z.geb_spec (initialBlockPoolIndex m) (initialBlockPoolSize m)) as [Hge|Hlt]; [by intros [= <-]|].
  by rewrite (proj2 (Z.ltb_lt _ _) Hlt).
Qed.

Lemma free_list_none pk m m' : try_get_block_from_free_list pk m = (None, m') -> m' = m.
Proof. unfold try_get_block_from_free_list. destruct pk as [i|]; [destruct (freeList m !! i)|]; naive_solver. Qed.

Lemma free_list_ok pk m own o b m' :
  pool_ok m own -> try_get_block_from_free_list pk m = (Some b, m') -> o = OwnPrivate \/ o = OwnOther ->
  handed m own o b m'.
Proof.
  intros [Hlive Hnd Hfree Hoth Hpool Hsize Howned Hhome Hstat Hcount] Hreq Ho. unfold try_get_block_from_free_list in Hreq.
  destruct pk as [i|]; [|done]. destruct (freeList m !! i) as [f|] eqn:Hf; [|done]. injection Hreq as <- <-.
  pose proof (Hfree f (list_elem_of_lookup_2 _ _ _ Hf)) as Hown.
  split; [|split; [|split; [naive_solver|done]]].
  - split; simpl; [|by apply NoDup_filter|..|lia| |done| |done].
    + intros b' o' Hb'. destruct (decide (b' = f)) as [->|]; [by eapply Hlive|].
      rewrite lookup_insert_ne in Hb' by done. by eapply Hlive.
    + intros b' [Hne Hin]%list_elem_of_filter. rewrite lookup_insert_ne by done. by apply Hfree.
    + intros b' Hin. apply Hoth in Hin. rewrite lookup_insert_ne; [done|]. congruence.
    + intros j Hj. pose proof (Hpool j Hj) as Hp. rewrite lookup_insert_ne; [done|]. congruence.
    + intros b' Hl. destruct (Howned b' Hl) as [x Hx]. by eapply insert_owned.
    + intros b'. apply insert_static; [done|]. by destruct Ho as [-> | ->].
  - intros b' n Hn Hne. by rewrite lookup_insert_ne.
Qed.

Lemma fresh_deref m b' :
  b' <> length (blocks m) -> deref (with_blocks (fun bs => bs ++ [Some (new_block true)]) m) b' = deref m b'.
Proof.
  intros Hne. unfold deref. simpl. destruct (decide (b' < length (blocks m))%nat); [by rewrite lookup_app_l|].
  rewrite !lookup_ge_None_2; [done|lia|rewrite length_app; simpl; lia].
Qed.

Lemma fresh_ok m own o :
  pool_ok m own -> o = OwnPrivate \/ o = OwnOther ->
  handed m own o (length (blocks m)) (with_blocks (fun bs => bs ++ [Some (new_block true)]) m).
Proof.
  intros [Hlive Hnd Hfree Hoth Hpool Hsize Howned Hhome Hstat Hcount] Ho.
  assert (own !! length (blocks m) = None) as Hb.
  { destruct (own !! length (blocks m)) eqn:E; [|done]. destruct (Hlive _ _ E) as (B & HB & _).
    unfold deref in HB. by rewrite lookup_ge_None_2 in HB. }
  split; [|split; [|split; [naive_solver|done]]].
  - split; simpl; [|done|..|lia| | | |rewrite length_app; lia].
    + intros b' o' Hb'. destruct (decide (b' = length (blocks m))) as [->|Hne].
      * exists (new_block true). split; [|done]. unfold deref. simpl.
        by rewrite lookup_app_r, Nat.sub_diag by lia.
      * rewrite lookup_insert_ne in Hb' by done. rewrite fresh_deref by done. by eapply Hlive.
    + intros b' Hin. apply Hfree in Hin. rewrite lookup_insert_ne; [done|]. congruence.
    + intros b' Hin. apply Hoth in Hin. rewrite lookup_insert_ne; [done|]. congruence.
    + intros i Hi. pose proof (Hpool i Hi) as Hp. rewrite lookup_insert_ne; [done|]. congruence.
    + intros b' Hl. destruct (decide (b' = length (blocks m))) as [->|Hne]; [by rewrite lookup_insert_eq|].
      rewrite fresh_deref in Hl by done. rewrite lookup_insert_ne by done. by apply Howned.
    + intros b' B. destruct (decide (b' = length (blocks m))) as [->|Hne].
      * unfold deref. simpl. rewrite lookup_app_r, Nat.sub_diag by lia. simpl. intros [= <-]. split; [done|lia].
      * rewrite fresh_deref by done. apply Hhome.
    + intros b'. apply insert_static; [done|]. by destruct Ho as [-> | ->].
  - intros b' n Hn Hne. by rewrite lookup_insert_ne, fresh_deref.
Qed.

(** How a block was obtained. *)
Lemma requisition_cases a m r m' :
  requisition_block a m = (r, m') ->
  (exists b, r = Some b /\ try_get_block_from_initial_pool m = (Some b, m')) \/
  (exists b, r = Some b /\ try_get_block_from_free_list (pick a) m = (Some b, m')) \/
  (r = Some (length (blocks m)) /\ m' = with_blocks (fun bs => bs ++ [Some (new_block true)]) m) \/
  (r = None /\ m' = m /\ mem a = false).
Proof.
  unfold requisition_block. destruct (try_get_block_from_initial_pool m) as [[b|] m1] eqn:Hi.
  - intros [= <- <-]. left. by exists b.
  - apply initial_pool_none in Hi as ->. destruct (try_get_block_from_free_list (pick a) m) as [[b|] m2] eqn:Hf.
    + intros [= <- <-]. right. left. by exists b.
    + apply free_list_none in Hf as ->. destruct (mem a); intros [= <- <-]; naive_solver.
Qed.

Lemma requisition_ok a m own o b m' :
  pool_ok m own -> requisition_block a m = (Some b, m') -> o = OwnPrivate \/ o = OwnOther ->
  pool_ok m' (<[b := o]> own) /\ frame_ok m m' own (<[b := o]> own) b /\
  (forall o', own !! b = Some o' -> o' = OwnFree \/ o' = OwnPool) /\ others m' = others m.
Proof.
  intros Hp Hreq Ho.
  destruct (requisition_cases _ _ _ _ Hreq) as [(x & [= <-] & Hi)|[(x & [= <-] & Hf)|[([= ->] & ->)|(? & _)]]]; [..|done].
  - by apply initial_pool_ok.
  - by eapply free_list_ok.
  - by apply fresh_ok.
Qed.

Lemma requisition_none a m m' :
  requisition_block a m = (None, m') -> m' = m /\ mem a = false.
Proof. intros Hreq. apply requisition_cases in Hreq. naive_solver. Qed.

(** Taking a block from the pool or giving one back touches no other block. *)
Lemma requisition_deref a m b m' x :
  requisition_block a m = (Some b, m') -> x <> b -> deref m' x = deref m x.
Proof.
  intros Hreq Hx.
  destruct (requisition_cases _ _ _ _ Hreq) as [(y & [= <-] & Hi)|[(y & [= <-] & Hf)|[([= ->] & ->)|(? & _)]]]; [..|done].
  - unfold try_get_block_from_initial_pool in Hi. repeat case_match; by simplify_eq.
  - unfold try_get_block_from_free_list in Hf. destruct (pick a) as [i|]; [|done]. by destruct (freeList m !! i); simplify_eq.
  - by apply fresh_deref.
Qed.

Lemma give_back_deref m b m' x :
  add_block_to_free_list b m = Some m' -> x <> b -> deref m' x = deref m x.
Proof.
  unfold add_block_to_free_list. destruct (deref m b) as [B|]; [|done]. intros [= <-] Hx.
  unfold deref. destruct (dynamicallyAllocated B); [|done]. simpl. by rewrite list_lookup_insert_ne.
Qed.

(** Giving back a block that this sub-queue or another one holds. *)
Lemma give_back_ok m own b o :
  pool_ok m own -> own !! b = Some o -> o <> OwnFree -> o <> OwnPool -> b ∉ others m ->
  exists m' own', add_block_to_free_list b m = Some m' /\ pool_ok m' own' /\ others m' = others m /\
    (forall x, x <> b -> own' !! x = own !! x) /\ (own' !! b = None \/ own' !! b = Some OwnFree).
Proof.
  intros [Hlive Hnd Hfree Hoth Hpool Hsize Howned Hhome Hstat Hcount] Hb Hof Hop Hbo.
  destruct (Hlive _ _ Hb) as (B & HB & Hlen). unfold add_block_to_free_list. rewrite HB.
  destruct (dynamicallyAllocated B) eqn:Hdyn.
  - eexists _, (delete b own). split; [done|]. split; [|split; [done|split]].
    + split; simpl; [|done|..|lia| | | |by rewrite length_insert].
      * intros b' o' [Hne Hb']%lookup_delete_Some. destruct (Hlive _ _ Hb') as (B' & HB' & Hlen').
        exists B'. split; [|done]. unfold deref. simpl. by rewrite list_lookup_insert_ne.
      * intros b' Hin. apply Hfree in Hin. rewrite lookup_delete_ne; [done|]. congruence.
      * intros b' Hin. rewrite lookup_delete_ne by (by intros ->). by apply Hoth.
      * intros i Hi. apply Hpool in Hi. rewrite lookup_delete_ne; [done|]. congruence.
      * intros b' Hl. destruct (decide (b' = b)) as [->|Hne].
        -- unfold deref in Hl. simpl in Hl. rewrite list_lookup_insert_eq in Hl by (by eapply deref_lt). by destruct Hl.
        -- rewrite lookup_delete_ne by done. apply Howned. unfold deref in Hl. simpl in Hl. by rewrite list_lookup_insert_ne in Hl.
      * intros b' B'. destruct (decide (b' = b)) as [->|Hne].
        -- unfold deref. simpl. by rewrite list_lookup_insert_eq by (by eapply deref_lt).
        -- unfold deref. simpl. rewrite list_lookup_insert_ne by done. apply Hhome.
      * intros b' Hx. apply Hstat. destruct (decide (b' = b)) as [->|Hne]; [by rewrite lookup_delete_eq in Hx; destruct Hx|].
        by rewrite lookup_delete_ne in Hx.
    + intros x Hx. by rewrite lookup_delete_ne.
    + left. apply lookup_delete_eq.
  - eexists _, (<[b := OwnFree]> own). split; [done|]. split; [|split; [done|split]].
    + split; simpl; [|..|lia| |done| |done].
      * intros b' o' Hb'. destruct (decide (b' = b)) as [->|]; [by eapply Hlive|].
        rewrite lookup_insert_ne in Hb' by done. by eapply Hlive.
      * apply NoDup_cons. split; [|done]. intros Hin%Hfree. congruence.
      * intros b' [->|Hin]%elem_of_cons; [by rewrite lookup_insert_eq|].
        destruct (decide (b' = b)) as [->|]; [by rewrite lookup_insert_eq|].
        rewrite lookup_insert_ne by done. by apply Hfree.
      * intros b' Hin. rewrite lookup_insert_ne by (by intros ->). by apply Hoth.
      * intros i Hi. apply Hpool in Hi. rewrite lookup_insert_ne; [done|]. congruence.
      * intros b' Hl. destruct (Howned b' Hl) as [x Hx]. by eapply insert_owned.
      * intros b'. destruct (decide (b' = b)) as [->|Hne]; [intros _; by apply (Hhome b B)|].
        rewrite lookup_insert_ne by done. apply Hstat.
    + intros x Hx. by rewrite lookup_insert_ne.
    + right. apply lookup_insert_eq.
Qed.

(** Writing a live block. *)
Lemma pool_store m own b B :
  pool_ok m own -> (exists B0, deref m b = Some B0 /\ dynamicallyAllocated B = dynamicallyAllocated B0) ->
  length (elements B) = 32%nat -> pool_ok (store_block b B m) own.
Proof.
  intros [Hlive Hnd Hfree Hoth Hpool Hsize Howned Hhome Hstat Hcount] (B0 & HB0 & Hdyn) Hlen.
  assert (forall b', deref (store_block b B m) b' = if decide (b = b') then Some B else deref m b') as Hst
    by (intros b'; by apply deref_store).
  split; simpl; [|done|done|done|done|done| | |done|by rewrite length_insert].
  - intros b' o Ho. rewrite Hst. case_decide; [by exists B|by eapply Hlive].
  - intros b' Hl. rewrite Hst in Hl. apply Howned. case_decide; [by subst; exists B0|done].
  - intros b' B'. rewrite Hst. case_decide; [|apply Hhome]. subst b'. intros [= <-]. rewrite Hdyn. by apply Hhome.
Qed.

Lemma pool_reown m own b o o' :
  pool_ok m own -> own !! b = Some o -> o <> OwnFree -> o <> OwnOther -> o <> OwnPool ->
  o' <> OwnFree /\ o' <> OwnPool -> pool_ok m (<[b := o']> own).
Proof.
  intros [Hlive Hnd Hfree Hoth Hpool Hsize Howned Hhome Hstat Hcount] Hb H1 H2 H3 Ho'. split; [|done|..|done| |done| |done].
  - intros b' o0 Hb'. destruct (decide (b' = b)) as [->|]; [by eapply Hlive|].
    rewrite lookup_insert_ne in Hb' by done. by eapply Hlive.
  - intros b' Hin%Hfree. rewrite lookup_insert_ne; [done|]. congruence.
  - intros b' Hin%Hoth. rewrite lookup_insert_ne; [done|]. congruence.
  - intros i Hi%Hpool. rewrite lookup_insert_ne; [done|]. congruence.
  - intros b' Hl. destruct (Howned b' Hl) as [x Hx]. by eapply insert_owned.
  - intros b'. by apply insert_static.
Qed.

End PoolOk.
