(* ===== verification/CqFreeList.v ===== *)
(** * The free list of the vendored queue (lib/concurrentqueue/concurrentqueue.h)

    [FreeList] is a stack of blocks under compare-and-swap.  A reference count per block keeps
    a block that some thread still looks at from being pushed again, which would let a stale
    compare-and-swap succeed; the top bit of the count records that the block should be on the
    list, and whoever drops the last reference pushes it.  One step is one access to shared
    memory.  The blocks outside the list belong to the callers, who give each back once. *)
From stdpp Require Import functions.
From S2P Require Import Prelude CqArith CqProducer CqInv.

Definition REFS_MASK : Z := 0x7FFFFFFF.
Definition SHOULD_BE_ON_FREELIST : Z := 0x80000000.

(** ** State *)

Record FreeList := mkFreeList {
  freeListHead : option nat;
  freeListRefs : nat -> Z;
  freeListNext : nat -> option nat }.

Definition FreeList_init : FreeList := mkFreeList None (fun _ => 0) (fun _ => None).

Definition set_head (h : option nat) (f : FreeList) : FreeList :=
  mkFreeList h (freeListRefs f) (freeListNext f).
Definition set_refs (n : nat) (r : Z) (f : FreeList) : FreeList :=
  mkFreeList (freeListHead f) (<[n := r]> (freeListRefs f)) (freeListNext f).
Definition set_next (n : nat) (x : option nat) (f : FreeList) : FreeList :=
  mkFreeList (freeListHead f) (freeListRefs f) (<[n := x]> (freeListNext f)).

(** ** Operations

    [add_knowing_refcount_is_zero] is called by [add] and by [try_get], which goes on with
    the value of the head it has last seen. *)
Inductive cont := KAdd | KGet (head : option nat).

(** The next access of a thread, with its local variables. *)
Inductive fpc :=
| FIdle
| FAdd (node : nat)
| FLoadHead (node : nat) (k : cont)
| FStoreNext (node : nat) (head : option nat) (k : cont)
| FStoreRefs (node : nat) (head : option nat) (k : cont)
| FCas (node : nat) (head : option nat) (k : cont)
| FRetract (node : nat) (head : option nat) (k : cont)
| FAdded
| GLoad
| GRefs (head : nat)
| GInc (head : nat) (refs : Z)
| GNext (head : nat)
| GCas (head : nat) (next : option nat)
| GDec2 (head : nat)
| GDec1 (prevHead : nat) (head : option nat)
| GRet (r : option nat).

(** The test of the loop of [try_get]. *)
Definition enter (head : option nat) : fpc :=
  match head with None => GRet None | Some n => GRefs n end.

Definition finish (k : cont) : fpc :=
  match k with KAdd => FAdded | KGet head => enter head end.

Definition free_step (f : FreeList) (c : fpc) : FreeList * fpc :=
  match c with
  | FIdle | FAdded | GRet _ => (f, c)
  (* add *)
  | FAdd node =>
      let old := freeListRefs f node in
      (set_refs node (u32 (old + SHOULD_BE_ON_FREELIST)) f,
       if old =? 0 then FLoadHead node KAdd else FAdded)
  (* add_knowing_refcount_is_zero *)
  | FLoadHead node k => (f, FStoreNext node (freeListHead f) k)
  | FStoreNext node head k => (set_next node head f, FStoreRefs node head k)
  | FStoreRefs node head k => (set_refs node 1 f, FCas node head k)
  | FCas node head k =>
      if bool_decide (freeListHead f = head) then (set_head (Some node) f, finish k)
      else (f, FRetract node (freeListHead f) k)
  | FRetract node head k =>
      let old := freeListRefs f node in
      (set_refs node (u32 (old + (SHOULD_BE_ON_FREELIST - 1))) f,
       if old =? 1 then FStoreNext node head k else finish k)
  (* try_get *)
  | GLoad => (f, enter (freeListHead f))
  | GRefs head =>
      let refs := freeListRefs f head in
      (f, if Z.land refs REFS_MASK =? 0 then GLoad else GInc head refs)
  | GInc head refs =>
      if freeListRefs f head =? refs then (set_refs head (u32 (refs + 1)) f, GNext head) else (f, GLoad)
  | GNext head => (f, GCas head (freeListNext f head))
  | GCas head next =>
      if bool_decide (freeListHead f = Some head) then (set_head next f, GDec2 head)
      else (f, GDec1 head (freeListHead f))
  | GDec2 head => (set_refs head (u32 (freeListRefs f head - 2)) f, GRet (Some head))
  | GDec1 prevHead head =>
      let old := freeListRefs f prevHead in
      (set_refs prevHead (u32 (old - 1)) f,
       if old =? SHOULD_BE_ON_FREELIST + 1 then FLoadHead prevHead (KGet head) else enter head)
  end.

Fixpoint free_run (k : nat) (f : FreeList) (c : fpc) : FreeList * fpc :=
  match k with O => (f, c) | S k => let '(f, c) := free_step f c in free_run k f c end.

(** ** Threads

    A thread gives back a block that is outside; a block it gets is outside again. *)
Record free_sys := mkFreeSys { fl : FreeList; threads : list fpc; outside : gset nat }.

Inductive free_event := EAdd (n : nat) | EGet (r : option nat).

Definition at_rest (c : fpc) : bool :=
  match c with FIdle | FAdded | GRet _ => true | _ => false end.

Definition free_events (c : fpc) : list free_event :=
  match c with GRet r => [EGet r] | _ => [] end.

Definition returned (c : fpc) : gset nat :=
  match c with GRet (Some n) => {[n]} | _ => ∅ end.

Inductive fl_step : free_sys -> list free_event -> free_sys -> Prop :=
| fl_call_add f ths out t c n :
    ths !! t = Some c -> at_rest c = true -> n ∈ out ->
    fl_step (mkFreeSys f ths out) [EAdd n] (mkFreeSys f (<[t := FAdd n]> ths) (out ∖ {[n]}))
| fl_call_get f ths out t c :
    ths !! t = Some c -> at_rest c = true ->
    fl_step (mkFreeSys f ths out) [] (mkFreeSys f (<[t := GLoad]> ths) out)
| fl_run f ths out t c f' c' :
    ths !! t = Some c -> at_rest c = false -> free_step f c = (f', c') ->
    fl_step (mkFreeSys f ths out) (free_events c') (mkFreeSys f' (<[t := c']> ths) (out ∪ returned c')).

Inductive fl_steps : free_sys -> list free_event -> free_sys -> Prop :=
| fl_steps_refl s : fl_steps s [] s
| fl_steps_snoc s1 tr s2 ev s3 : fl_steps s1 tr s2 -> fl_step s2 ev s3 -> fl_steps s1 (tr ++ ev) s3.

(** What the callers see: a set of blocks; a get takes any of them, or finds none. *)
Fixpoint bag_run (b : gset nat) (tr : list free_event) : option (gset nat) :=
  match tr with
  | [] => Some b
  | EAdd n :: tr => if decide (n ∈ b) then None else bag_run ({[n]} ∪ b) tr
  | EGet None :: tr => bag_run b tr
  | EGet (Some n) :: tr => if decide (n ∈ b) then bag_run (b ∖ {[n]}) tr else None
  end.

(** ** Invariant *)

(** Where a block is: outside; given to [add] by thread [t]; to be pushed by whoever drops the
    last reference; about to be pushed by [t], alone and then with its count restored; on the
    list; taken off it by [t]. *)
Inductive node_state :=
| NOut | NAdd (t : nat) | NPending | NInserting (t : nat) | NTentative (t : nat) | NListed | NPopped (t : nat).

Definition owner_of (x : node_state) : option nat :=
  match x with NAdd t | NInserting t | NTentative t | NPopped t => Some t | _ => None end.

(** The count, less the references of threads. *)
Definition base (x : node_state) : Z :=
  match x with
  | NOut | NAdd _ => 0
  | NPending | NInserting _ => SHOULD_BE_ON_FREELIST
  | NTentative _ | NListed | NPopped _ => 1
  end.

Definition role (t : nat) (c : fpc) : option (nat * node_state) :=
  match c with
  | FAdd n => Some (n, NAdd t)
  | FLoadHead n _ | FStoreNext n _ _ | FStoreRefs n _ _ => Some (n, NInserting t)
  | FCas n _ _ | FRetract n _ _ => Some (n, NTentative t)
  | GDec2 n => Some (n, NPopped t)
  | _ => None
  end.

(** The block a thread holds a reference of. *)
Definition refers (c : fpc) : option nat :=
  match c with GNext n | GCas n _ | GDec2 n | GDec1 n _ => Some n | _ => None end.

Definition holds (n : nat) (c : fpc) : bool := bool_decide (refers c = Some n).

(** The successor a thread relies on. *)
Definition knows (c : fpc) : option (nat * option nat) :=
  match c with FStoreRefs n h _ | FCas n h _ | GCas n h => Some (n, h) | _ => None end.

Definition seen_refs (c : fpc) : Prop :=
  match c with GInc _ r => Z.land r REFS_MASK <> 0 | _ => True end.

Fixpoint chain (h : option nat) (next : nat -> option nat) (L : list nat) : Prop :=
  match L with [] => h = None | n :: L => h = Some n /\ chain (next n) next L end.

(** A block that somebody refers to is not pushed; one that is due has a reference left. *)
Definition settled (x : node_state) (h : nat) : Prop :=
  match x with NPending => (1 <= h)%nat | NInserting _ => h = 0%nat | _ => True end.

Record fl_ok (st : nat -> node_state) (L : list nat) (f : FreeList) (ths : list fpc) : Prop := {
  ok_threads : Z.of_nat (length ths) < 2 ^ 31 - 2;
  ok_refs n : freeListRefs f n = base (st n) + Z.of_nat (count (holds n) ths);
  ok_settled n : settled (st n) (count (holds n) ths);
  ok_chain : chain (freeListHead f) (freeListNext f) L;
  ok_nodup : NoDup L;
  ok_listed n : n ∈ L <-> st n = NListed;
  ok_role t c n x : ths !! t = Some c -> role t c = Some (n, x) -> st n = x;
  ok_owner n t : owner_of (st n) = Some t -> exists c, ths !! t = Some c /\ role t c = Some (n, st n);
  ok_next t c n x : ths !! t = Some c -> knows c = Some (n, x) -> freeListNext f n = x;
  ok_seen t c : ths !! t = Some c -> seen_refs c }.

Lemma role_owner t c n x : role t c = Some (n, x) -> owner_of x = Some t.
Proof. destruct c; intros [=]; by subst. Qed.

Lemma chain_insert h next L n x : n ∉ L -> chain h next L -> chain h (<[n := x]> next) L.
Proof.
  revert h. induction L as [|m L IH]; intros h Hn; simpl; [done|]. intros [-> Hc].
  apply not_elem_of_cons in Hn as [Hne Hn]. rewrite fn_lookup_insert_ne by done. split; [done|]. by apply IH.
Qed.

Lemma chain_head n next L : chain (Some n) next L -> exists L0, L = n :: L0 /\ chain (next n) next L0.
Proof. destruct L as [|m L]; simpl; [done|]. intros [[= <-] Hc]. by exists L. Qed.

(** The count of a block after thread [t] has moved from [c] to [c']. *)
Lemma count_holds ths t c c' n :
  ths !! t = Some c ->
  Z.of_nat (count (holds n) (<[t := c']> ths)) =
  Z.of_nat (count (holds n) ths) - Z.b2z (holds n c) + Z.b2z (holds n c').
Proof.
  intros Ht. pose proof (count_insert (holds n) ths t c c' Ht).
  destruct (holds n c), (holds n c'); simpl in *; lia.
Qed.

(** A step of thread [t] that concerns block [n] only. *)
Lemma fl_update st L f ths t c c' n x' L' f' :
  fl_ok st L f ths -> ths !! t = Some c ->
  (forall m, m <> n -> freeListRefs f' m = freeListRefs f m) ->
  (forall m, m <> n -> holds m c' = holds m c) ->
  freeListRefs f' n = base x' + Z.of_nat (count (holds n) (<[t := c']> ths)) ->
  settled x' (count (holds n) (<[t := c']> ths)) ->
  chain (freeListHead f') (freeListNext f') L' -> NoDup L' ->
  (forall m, m ∈ L' <-> (<[n := x']> st) m = NListed) ->
  (x' = st n /\ role t c' = role t c \/
   (owner_of (st n) = None \/ owner_of (st n) = Some t) /\
   (forall m y, role t c = Some (m, y) -> m = n) /\
   (owner_of x' = None /\ role t c' = None \/ owner_of x' = Some t /\ role t c' = Some (n, x'))) ->
  (forall t2 c2 m y, t2 <> t -> ths !! t2 = Some c2 -> knows c2 = Some (m, y) -> freeListNext f' m = y) ->
  (forall m y, knows c' = Some (m, y) -> freeListNext f' m = y) ->
  seen_refs c' ->
  fl_ok (<[n := x']> st) L' f' (<[t := c']> ths).
Proof.
  intros [Hlen Hrefs Hset Hch Hnd Hlist Hrole Hown Hnext Hseen] Ht Hr Hh Hrn Hsn Hch' Hnd' Hl' Hro Hn2 Hn1 Hsc.
  assert (t < length ths)%nat as Hlt by (by eapply lookup_lt_Some).
  assert (forall t2 c2, (<[t := c']> ths) !! t2 = Some c2 -> t2 = t /\ c2 = c' \/ t2 <> t /\ ths !! t2 = Some c2) as Hths.
  { intros t2 c2 H2. apply list_lookup_insert_Some in H2 as [(-> & -> & _)|[? ?]]; [by left|by right]. }
  split; try done.
  - by rewrite length_insert.
  - intros m. destruct (decide (m = n)) as [->|Hm]; [by rewrite fn_lookup_insert|].
    rewrite fn_lookup_insert_ne, Hr, Hrefs, (count_holds _ _ _ _ _ Ht), Hh by done. lia.
  - intros m. destruct (decide (m = n)) as [->|Hm]; [by rewrite fn_lookup_insert|].
    rewrite fn_lookup_insert_ne by done. replace (count (holds m) (<[t := c']> ths)) with (count (holds m) ths); [done|].
    pose proof (count_holds ths t c c' m Ht) as Hc. rewrite Hh in Hc by done. lia.
  - intros t2 c2 m x [(-> & ->)|(Hne & H2)]%Hths Hx.
    + destruct Hro as [(-> & Heq)|(_ & _ & [(_ & Heq)|(Ho & Heq)])].
      * rewrite Heq in Hx. destruct (decide (m = n)) as [->|Hm]; [rewrite fn_lookup_insert|rewrite fn_lookup_insert_ne by done];
          by apply (Hrole t c).
      * by rewrite Heq in Hx.
      * rewrite Heq in Hx. simplify_eq. by rewrite fn_lookup_insert.
    + pose proof (Hrole _ _ _ _ H2 Hx) as Hst. destruct (decide (m = n)) as [->|Hm]; [|by rewrite fn_lookup_insert_ne].
      rewrite fn_lookup_insert. destruct Hro as [(-> & _)|(Ho & _)]; [done|].
      apply role_owner in Hx. subst x. rewrite Hx in Ho. destruct Ho; simplify_eq.
  - intros m t2. destruct (decide (m = n)) as [->|Hm]; [rewrite fn_lookup_insert|rewrite fn_lookup_insert_ne by done].
    + intros Ho. destruct Hro as [(-> & Heq)|(Hst & _ & [(Hnone & _)|(Ho' & Heq)])]; [|congruence|].
      * destruct (Hown n t2 Ho) as (c2 & H2 & Hx). destruct (decide (t2 = t)) as [->|Hne].
        -- exists c'. rewrite list_lookup_insert_eq by done. split; [done|]. congruence.
        -- exists c2. by rewrite list_lookup_insert_ne.
      * assert (t2 = t) as -> by congruence. exists c'. by rewrite list_lookup_insert_eq.
    + intros Ho. destruct (Hown m t2 Ho) as (c2 & H2 & Hx). destruct (decide (t2 = t)) as [->|Hne].
      * rewrite Ht in H2. simplify_eq. destruct Hro as [(_ & Heq)|(_ & Honly & _)]; [|by apply Honly in Hx].
        exists c'. rewrite list_lookup_insert_eq by done. split; [done|]. congruence.
      * exists c2. by rewrite list_lookup_insert_ne.
  - intros t2 c2 m y [(-> & ->)|(Hne & H2)]%Hths Hk; [by apply Hn1|by eapply Hn2].
  - intros t2 c2 [(-> & ->)|(Hne & H2)]%Hths; [done|by eapply Hseen].
Qed.

(** A step that changes nothing in memory. *)
Lemma fl_local st L f ths t c c' :
  fl_ok st L f ths -> ths !! t = Some c ->
  role t c' = role t c -> refers c' = refers c ->
  (forall m y, knows c' = Some (m, y) -> freeListNext f m = y) -> seen_refs c' ->
  fl_ok st L f (<[t := c']> ths).
Proof.
  intros Hok Ht Hro Hre Hk Hs.
  assert (forall m, holds m c' = holds m c) as Hh by (intros m; unfold holds; by rewrite Hre).
  assert (fl_ok (<[0%nat := st 0%nat]> st) L f (<[t := c']> ths)) as Hok'.
  { eapply (fl_update st L f ths t c c' 0%nat (st 0%nat)); eauto.
    - rewrite (ok_refs _ _ _ _ Hok), (count_holds _ _ _ _ _ Ht), Hh. lia.
    - replace (count (holds 0%nat) (<[t := c']> ths)) with (count (holds 0%nat) ths); [apply (ok_settled _ _ _ _ Hok)|].
      pose proof (count_holds ths t c c' 0%nat Ht) as Hc. rewrite Hh in Hc. lia.
    - apply (ok_chain _ _ _ _ Hok).
    - apply (ok_nodup _ _ _ _ Hok).
    - intros m. rewrite (ok_listed _ _ _ _ Hok). destruct (decide (m = 0%nat)) as [->|Hm];
        [by rewrite fn_lookup_insert|by rewrite fn_lookup_insert_ne].
    - intros t2 c2 m y _ H2. by apply (ok_next _ _ _ _ Hok t2 c2). }
  assert (forall m, (<[0%nat := st 0%nat]> st) m = st m) as Hst
    by (intros m; destruct (decide (m = 0%nat)) as [->|Hm]; [by rewrite fn_lookup_insert|by rewrite fn_lookup_insert_ne]).
  destruct Hok' as [? Hr Hse ? ? Hl Hro' Ho ? ?]. split; try done.
  - intros n. by rewrite Hr, Hst.
  - intros n. rewrite <- Hst. apply Hse.
  - intros n. by rewrite Hl, Hst.
  - intros. rewrite <- Hst. by eapply Hro'.
  - intros n t2. rewrite <- Hst. apply Ho.
Qed.

(** ** Every step keeps the invariant *)

Lemma returns_from f c f' n : free_step f c = (f', GRet (Some n)) -> at_rest c = false -> c = GDec2 n.
Proof.
  assert (forall h, enter h <> GRet (Some n)) as He by (by intros []).
  assert (forall k, finish k <> GRet (Some n)) as Hf by (by intros [|[]]).
  intros Hs Hr. destruct c; simpl in *; repeat case_match; simplify_eq; naive_solver.
Qed.

Section Steps.
Context (st : nat -> node_state) (L : list nat) (f : FreeList) (ths : list fpc) (t : nat).
Hypothesis Hok : fl_ok st L f ths.

(** The state after a step; the blocks outside are the same ones and those just returned. *)
Definition stepped (f' : FreeList) (c' : fpc) : Prop :=
  exists st' L', fl_ok st' L' f' (<[t := c']> ths) /\ forall m, st' m = NOut <-> st m = NOut \/ m ∈ returned c'.

Lemma stepped_local c c' :
  ths !! t = Some c -> role t c' = role t c -> refers c' = refers c ->
  (forall m y, knows c' = Some (m, y) -> freeListNext f m = y) -> seen_refs c' -> returned c' = ∅ ->
  stepped f c'.
Proof.
  intros Ht Hro Hre Hk Hs Hret. exists st, L. split; [by eapply fl_local|]. rewrite Hret. set_solver.
Qed.

Lemma stepped_insert n x' c' L' f' :
  fl_ok (<[n := x']> st) L' f' (<[t := c']> ths) -> st n <> NOut -> x' <> NOut -> returned c' = ∅ -> stepped f' c'.
Proof.
  intros Hok' Hn Hx Hret. eexists _, L'. split; [exact Hok'|]. intros m. rewrite Hret.
  destruct (decide (m = n)) as [->|Hm]; [rewrite fn_lookup_insert|rewrite fn_lookup_insert_ne by done]; set_solver.
Qed.

Lemma count_lt n : Z.of_nat (count (holds n) ths) < 2 ^ 31 - 2.
Proof. pose proof (count_le (holds n) ths). pose proof (ok_threads _ _ _ _ Hok). lia. Qed.

Lemma others_next t2 c2 m y : t2 <> t -> ths !! t2 = Some c2 -> knows c2 = Some (m, y) -> freeListNext f m = y.
Proof. intros _. by apply (ok_next _ _ _ _ Hok). Qed.

Lemma listed_insert n x' : st n <> NListed -> x' <> NListed -> forall m, m ∈ L <-> (<[n := x']> st) m = NListed.
Proof.
  intros Hn Hx m. rewrite (ok_listed _ _ _ _ Hok).
  destruct (decide (m = n)) as [->|Hm]; [rewrite fn_lookup_insert|rewrite fn_lookup_insert_ne by done]; naive_solver.
Qed.

(** A step on the count of a block that is not on the list. *)
Lemma stepped_refs c c' n x' r :
  ths !! t = Some c ->
  (forall m, m <> n -> holds m c' = holds m c) ->
  r = base x' + Z.of_nat (count (holds n) (<[t := c']> ths)) ->
  settled x' (count (holds n) (<[t := c']> ths)) ->
  st n <> NListed -> x' <> NListed -> st n <> NOut -> x' <> NOut ->
  (owner_of (st n) = None \/ owner_of (st n) = Some t) ->
  (forall m y, role t c = Some (m, y) -> m = n) ->
  (owner_of x' = None /\ role t c' = None \/ owner_of x' = Some t /\ role t c' = Some (n, x')) ->
  (forall m y, knows c' = Some (m, y) -> freeListNext f m = y) -> seen_refs c' -> returned c' = ∅ ->
  stepped (set_refs n r f) c'.
Proof.
  intros Ht Hh Hr Hs Hl Hl' Ho Ho' Hw Honly Hro Hk Hsc Hret.
  eapply (stepped_insert n x'); [|done..].
  eapply (fl_update st L f ths t c c' n x' L); eauto; simpl.
  - intros m Hm. by rewrite fn_lookup_insert_ne.
  - by rewrite fn_lookup_insert.
  - apply (ok_chain _ _ _ _ Hok).
  - apply (ok_nodup _ _ _ _ Hok).
  - by apply listed_insert.
  - intros. by eapply others_next.
Qed.

(** The same when the block's state stays. *)
Lemma stepped_count c c' n r :
  ths !! t = Some c ->
  (forall m, m <> n -> holds m c' = holds m c) ->
  r = base (st n) + Z.of_nat (count (holds n) (<[t := c']> ths)) ->
  settled (st n) (count (holds n) (<[t := c']> ths)) ->
  role t c' = role t c ->
  (forall m y, knows c' = Some (m, y) -> freeListNext f m = y) -> seen_refs c' -> returned c' = ∅ ->
  stepped (set_refs n r f) c'.
Proof.
  intros Ht Hh Hr Hs Hro Hk Hsc Hret.
  assert (forall m, (<[n := st n]> st) m = st m) as Hst
    by (intros m; destruct (decide (m = n)) as [->|Hm]; [by rewrite fn_lookup_insert|by rewrite fn_lookup_insert_ne]).
  exists (<[n := st n]> st), L. split; [|intros m; rewrite Hst, Hret; set_solver].
  eapply (fl_update st L f ths t c c' n (st n) L); eauto; simpl.
  - intros m Hm. by rewrite fn_lookup_insert_ne.
  - by rewrite fn_lookup_insert.
  - apply (ok_chain _ _ _ _ Hok).
  - apply (ok_nodup _ _ _ _ Hok).
  - intros m. rewrite Hst. apply (ok_listed _ _ _ _ Hok).
  - intros. by eapply others_next.
Qed.

Lemma finish_quiet k :
  role t (finish k) = None /\ refers (finish k) = None /\ knows (finish k) = None /\
  seen_refs (finish k) /\ returned (finish k) = ∅.
Proof. by destruct k as [|[]]. Qed.

Lemma enter_quiet h :
  role t (enter h) = None /\ refers (enter h) = None /\ knows (enter h) = None /\
  seen_refs (enter h) /\ returned (enter h) = ∅.
Proof. by destruct h. Qed.

Lemma holds_none c m : refers c = None -> holds m c = false.
Proof. intros Hc. unfold holds. by rewrite Hc. Qed.

Lemma count_same c c' n :
  ths !! t = Some c -> holds n c' = holds n c -> count (holds n) (<[t := c']> ths) = count (holds n) ths.
Proof. intros Ht Hh. pose proof (count_holds ths t c c' n Ht) as Hc. rewrite Hh in Hc. lia. Qed.

Lemma count_moved c c' n :
  ths !! t = Some c -> holds n c = true -> refers c' = None ->
  (count (holds n) ths = 1 + count (holds n) (<[t := c']> ths))%nat.
Proof.
  intros Ht Hh Hc'. pose proof (count_holds ths t c c' n Ht) as Hc. rewrite Hh, (holds_none c') in Hc by done.
  simpl in Hc. lia.
Qed.

Lemma holds_refl n c : refers c = Some n -> holds n c = true.
Proof. intros Hc. unfold holds. by apply bool_decide_eq_true. Qed.

Lemma holds_other n m c c' :
  (refers c = Some n \/ refers c = None) -> (refers c' = Some n \/ refers c' = None) -> m <> n -> holds m c' = holds m c.
Proof.
  intros Hc Hc' Hm. unfold holds. destruct Hc as [-> | ->], Hc' as [-> | ->]; repeat case_bool_decide; naive_solver.
Qed.

Lemma count_pos t2 c n : ths !! t2 = Some c -> refers c = Some n -> (1 <= count (holds n) ths)%nat.
Proof.
  intros H2 Hc. destruct (count (holds n) ths) eqn:E; [|lia]. exfalso.
  pose proof (count_insert (holds n) ths t2 c FIdle H2) as Hi. rewrite (holds_refl n c Hc) in Hi. simpl in Hi. lia.
Qed.

Ltac free_side := try done; eauto using holds_other; try (by right); try (by left); try (by intros ? ? [= <- _]).

Lemma step_add n : ths !! t = Some (FAdd n) -> let '(f', c') := free_step f (FAdd n) in stepped f' c'.
Proof.
  intros Ht. pose proof (ok_role _ _ _ _ Hok _ _ _ _ Ht eq_refl) as Hst.
  pose proof (ok_refs _ _ _ _ Hok n) as Hr. rewrite Hst, Z.add_0_l in Hr. pose proof (count_lt n).
  cbn [free_step]. rewrite Hr.
  destruct (Z.eqb_spec (Z.of_nat (count (holds n) ths)) 0) as [Hz|Hz].
  - apply (stepped_refs (FAdd n) _ n (NInserting t)); rewrite ?Hst, ?(count_same (FAdd n)) by done; free_side.
    + simpl. rewrite u32_small by (unfold SHOULD_BE_ON_FREELIST; lia). lia.
    + simpl. lia.
  - apply (stepped_refs (FAdd n) _ n NPending); rewrite ?Hst, ?(count_same (FAdd n)) by done; free_side.
    + simpl. rewrite u32_small by (unfold SHOULD_BE_ON_FREELIST; lia). lia.
    + simpl. lia.
Qed.

Lemma step_store_next n h k :
  ths !! t = Some (FStoreNext n h k) -> stepped (set_next n h f) (FStoreRefs n h k).
Proof.
  intros Ht. pose proof (ok_role _ _ _ _ Hok _ _ _ _ Ht eq_refl) as Hst.
  pose proof (ok_settled _ _ _ _ Hok n) as Hs. rewrite Hst in Hs. simpl in Hs.
  assert (n ∉ L) as HnL by (rewrite (ok_listed _ _ _ _ Hok), Hst; done).
  apply (stepped_insert n (NInserting t) _ L); [|by rewrite Hst|done..].
  eapply (fl_update st L f ths t _ _ n (NInserting t)); eauto; simpl; rewrite ?(count_same (FStoreNext n h k)) by done; free_side.
  - by rewrite (ok_refs _ _ _ _ Hok), Hst.
  - apply chain_insert; [done|]. apply (ok_chain _ _ _ _ Hok).
  - apply (ok_nodup _ _ _ _ Hok).
  - apply listed_insert; by rewrite ?Hst.
  - intros t2 c2 m y Hne H2 Hk. destruct (decide (m = n)) as [->|Hm];
      [|rewrite fn_lookup_insert_ne by done; by eapply (ok_next _ _ _ _ Hok)].
    exfalso. destruct c2; simplify_eq/=.
    + pose proof (ok_role _ _ _ _ Hok _ _ _ _ H2 eq_refl). congruence.
    + pose proof (ok_role _ _ _ _ Hok _ _ _ _ H2 eq_refl). congruence.
    + pose proof (count_pos _ _ n H2 eq_refl). lia.
  - intros m y [= <- <-]. by rewrite fn_lookup_insert.
Qed.

Lemma step_store_refs n h k :
  ths !! t = Some (FStoreRefs n h k) -> stepped (set_refs n 1 f) (FCas n h k).
Proof.
  intros Ht. pose proof (ok_role _ _ _ _ Hok _ _ _ _ Ht eq_refl) as Hst.
  pose proof (ok_settled _ _ _ _ Hok n) as Hs. rewrite Hst in Hs. simpl in Hs.
  apply (stepped_refs (FStoreRefs n h k) _ n (NTentative t)); rewrite ?Hst, ?(count_same (FStoreRefs n h k)) by done; free_side.
  - by rewrite Hs.
  - intros m y [= <- <-]. by apply (ok_next _ _ _ _ Hok t (FStoreRefs n h k)).
Qed.

Lemma step_cas n h k :
  ths !! t = Some (FCas n h k) -> let '(f', c') := free_step f (FCas n h k) in stepped f' c'.
Proof.
  intros Ht. pose proof (ok_role _ _ _ _ Hok _ _ _ _ Ht eq_refl) as Hst. cbn [free_step].
  destruct (finish_quiet k) as (Hro & Hre & Hk & Hse & Hret).
  case_bool_decide as Hh; [|by apply (stepped_local (FCas n h k))].
  assert (n ∉ L) as HnL by (rewrite (ok_listed _ _ _ _ Hok), Hst; done).
  assert (holds n (finish k) = holds n (FCas n h k)) as Hho by (by rewrite holds_none).
  apply (stepped_insert n NListed _ (n :: L)); [|by rewrite Hst|done..].
  eapply (fl_update st L f ths t _ _ n NListed); eauto; simpl; rewrite ?(count_same (FCas n h k)) by done.
  - intros m Hm. by rewrite !holds_none.
  - by rewrite (ok_refs _ _ _ _ Hok), Hst.
  - done.
  - split; [done|]. rewrite (ok_next _ _ _ _ Hok _ _ _ _ Ht eq_refl), <- Hh. apply (ok_chain _ _ _ _ Hok).
  - constructor; [done|]. apply (ok_nodup _ _ _ _ Hok).
  - intros m. rewrite elem_of_cons, (ok_listed _ _ _ _ Hok).
    destruct (decide (m = n)) as [->|Hm]; [rewrite fn_lookup_insert; naive_solver|].
    rewrite fn_lookup_insert_ne by done. naive_solver.
  - right. rewrite Hst. split; [by right|]. split; [by intros m y [= <- _]|]. by left.
  - intros t2 c2 m y _ H2. by apply (ok_next _ _ _ _ Hok t2 c2).
  - by rewrite Hk.
Qed.

Lemma step_retract n h k :
  ths !! t = Some (FRetract n h k) -> let '(f', c') := free_step f (FRetract n h k) in stepped f' c'.
Proof.
  intros Ht. pose proof (ok_role _ _ _ _ Hok _ _ _ _ Ht eq_refl) as Hst.
  pose proof (ok_refs _ _ _ _ Hok n) as Hr. rewrite Hst in Hr. cbn [base] in Hr. pose proof (count_lt n).
  destruct (finish_quiet k) as (Hro & Hre & Hk & Hse & Hret).
  assert (forall m, holds m (finish k) = holds m (FRetract n h k)) as Hho by (intros m; by rewrite holds_none).
  cbn [free_step]. rewrite Hr.
  destruct (Z.eqb_spec (1 + Z.of_nat (count (holds n) ths)) 1) as [Hz|Hz].
  - apply (stepped_refs (FRetract n h k) _ n (NInserting t)); rewrite ?Hst, ?(count_same (FRetract n h k)) by done; free_side.
    + simpl. rewrite u32_small by (unfold SHOULD_BE_ON_FREELIST; lia). lia.
    + simpl. lia.
  - apply (stepped_refs (FRetract n h k) _ n NPending); rewrite ?Hst, ?(count_same (FRetract n h k)) by done; free_side.
    + simpl. rewrite u32_small by (unfold SHOULD_BE_ON_FREELIST; lia). lia.
    + simpl. lia.
    + by rewrite Hk.
Qed.

Lemma step_inc n r :
  ths !! t = Some (GInc n r) -> let '(f', c') := free_step f (GInc n r) in stepped f' c'.
Proof.
  intros Ht. cbn [free_step]. destruct (Z.eqb_spec (freeListRefs f n) r) as [Hr|]; [|by apply (stepped_local (GInc n r))].
  pose proof (ok_refs _ _ _ _ Hok n) as Href. pose proof (count_lt n). pose proof (ok_seen _ _ _ _ Hok _ _ Ht) as Hseen.
  pose proof (ok_settled _ _ _ _ Hok n) as Hs. simpl in Hseen.
  assert (count (holds n) (<[t := GNext n]> ths) = 1 + count (holds n) ths)%nat as Hc.
  { pose proof (count_holds ths t _ (GNext n) n Ht) as Hc. rewrite (holds_refl n (GNext n)) in Hc by done. simpl in Hc. lia. }
  apply (stepped_count (GInc n r)); rewrite ?Hc; free_side.
  - rewrite <- Hr, Href, u32_small; [lia|]. destruct (st n); simpl; unfold SHOULD_BE_ON_FREELIST; lia.
  - destruct (st n); simpl in *; try done; [lia|]. rewrite Hs, Z.add_0_r in Href. rewrite <- Hr, Href in Hseen. done.
Qed.

Lemma step_pop n x :
  ths !! t = Some (GCas n x) -> let '(f', c') := free_step f (GCas n x) in stepped f' c'.
Proof.
  intros Ht. cbn [free_step]. case_bool_decide as Hh; [|by apply (stepped_local (GCas n x))].
  pose proof (ok_chain _ _ _ _ Hok) as Hch. pose proof (ok_nodup _ _ _ _ Hok) as Hnd. rewrite Hh in Hch.
  apply chain_head in Hch as (L0 & HL & Hch). rewrite HL in Hnd.
  assert (st n = NListed) as Hst by (apply (ok_listed _ _ _ _ Hok); rewrite HL; left).
  pose proof (ok_next _ _ _ _ Hok _ _ _ _ Ht eq_refl) as Hx. apply NoDup_cons in Hnd as [HnL Hnd].
  apply (stepped_insert n (NPopped t) _ L0); [|by rewrite Hst|done..].
  eapply (fl_update st _ f ths t _ _ n (NPopped t)); eauto; simpl; rewrite ?(count_same (GCas n x)) by done; free_side.
  - by rewrite (ok_refs _ _ _ _ Hok), Hst.
  - by rewrite <- Hx.
  - intros m0. destruct (decide (m0 = n)) as [->|Hm0]; [by rewrite fn_lookup_insert|]. rewrite fn_lookup_insert_ne by done.
    rewrite <- (ok_listed _ _ _ _ Hok), HL, elem_of_cons. naive_solver.
  - right. rewrite Hst. split; [by left|]. split; [done|]. by right.
  - intros t2 c2 m0 y _ H2. by apply (ok_next _ _ _ _ Hok t2 c2).
Qed.

Lemma step_dec2 n :
  ths !! t = Some (GDec2 n) ->
  st n <> NOut /\ let '(f', c') := free_step f (GDec2 n) in stepped f' c'.
Proof.
  intros Ht. pose proof (ok_role _ _ _ _ Hok _ _ _ _ Ht eq_refl) as Hst. split; [by rewrite Hst|].
  pose proof (ok_refs _ _ _ _ Hok n) as Hr. rewrite Hst in Hr. cbn [base] in Hr. pose proof (count_lt n).
  pose proof (count_moved _ (GRet (Some n)) n Ht (holds_refl n (GDec2 n) eq_refl) eq_refl) as Hc.
  cbn [free_step]. exists (<[n := NOut]> st), L. split.
  - eapply (fl_update st L f ths t _ _ n NOut); eauto; simpl; free_side.
    + intros m Hm. by rewrite fn_lookup_insert_ne.
    + rewrite fn_lookup_insert, Hr, u32_small; lia.
    + apply (ok_chain _ _ _ _ Hok).
    + apply (ok_nodup _ _ _ _ Hok).
    + apply listed_insert; by rewrite ?Hst.
    + right. rewrite Hst. split; [by right|]. split; [by intros m y [= <- _]|]. by left.
    + intros t2 c2 m y _ H2. by apply (ok_next _ _ _ _ Hok t2 c2).
  - intros m. simpl. destruct (decide (m = n)) as [->|Hm];
      [rewrite fn_lookup_insert; set_solver|rewrite fn_lookup_insert_ne by done; set_solver].
Qed.

Lemma step_dec1 n h :
  ths !! t = Some (GDec1 n h) -> let '(f', c') := free_step f (GDec1 n h) in stepped f' c'.
Proof.
  intros Ht. pose proof (ok_refs _ _ _ _ Hok n) as Hr. pose proof (count_lt n).
  destruct (enter_quiet h) as (Hro & Hre & Hk & Hse & Hret).
  pose proof (count_moved _ (enter h) n Ht (holds_refl n (GDec1 n h) eq_refl) Hre) as Hc.
  pose proof (count_moved _ (FLoadHead n (KGet h)) n Ht (holds_refl n (GDec1 n h) eq_refl) eq_refl) as Hc'.
  pose proof (ok_settled _ _ _ _ Hok n) as Hs. cbn [free_step].
  destruct (Z.eqb_spec (freeListRefs f n) (SHOULD_BE_ON_FREELIST + 1)) as [Hz|Hz].
  - assert (st n = NPending) as Hst by (destruct (st n); simpl in *; unfold SHOULD_BE_ON_FREELIST in *; done || lia).
    rewrite Hst in Hr, Hs. cbn [base] in Hr.
    apply (stepped_refs (GDec1 n h) _ n (NInserting t)); rewrite ?Hst; free_side; simpl.
    + rewrite Hr, u32_small; unfold SHOULD_BE_ON_FREELIST in *; lia.
    + unfold SHOULD_BE_ON_FREELIST in *; lia.
  - apply (stepped_count (GDec1 n h)); free_side.
    + rewrite Hr, u32_small; [lia|]. destruct (st n); simpl in *; unfold SHOULD_BE_ON_FREELIST in *; lia.
    + destruct (st n); simpl in *; unfold SHOULD_BE_ON_FREELIST in *; done || lia.
    + by rewrite Hk.
Qed.

Lemma free_step_ok c f' c' :
  ths !! t = Some c -> at_rest c = false -> free_step f c = (f', c') ->
  stepped f' c' /\ (forall n, c' = GRet (Some n) -> st n <> NOut).
Proof.
  intros Ht Hrest Hs.
  assert (let '(f', c') := free_step f c in stepped f' c') as Hst.
  { destruct c as [|n|n k|n h k|n h k|n h k|n h k| | |n|n r|n|n x|n|n h|]; try done.
    - by apply step_add.
    - by apply (stepped_local (FLoadHead n k)).
    - by apply step_store_next.
    - by apply step_store_refs.
    - by apply step_cas.
    - by apply step_retract.
    - destruct (enter_quiet (freeListHead f)) as (Hro & Hre & Hk & Hse & Hret).
      apply (stepped_local GLoad); try done. by rewrite Hk.
    - cbn [free_step]. destruct (Z.eqb_spec (Z.land (freeListRefs f n) REFS_MASK) 0);
        by apply (stepped_local (GRefs n)).
    - by apply step_inc.
    - apply (stepped_local (GNext n)); try done. by intros m y [= <- <-].
    - by apply step_pop.
    - by apply step_dec2.
    - by apply step_dec1. }
  rewrite Hs in Hst. split; [done|]. intros n ->.
  apply returns_from in Hs; [|done]. rewrite Hs in Ht. by apply step_dec2.
Qed.

End Steps.

(** ** Reachable states *)

Record sys_ok (nodes : gset nat) (st : nat -> node_state) (L : list nat) (s : free_sys) : Prop := {
  sys_fl : fl_ok st L (fl s) (threads s);
  sys_out n : n ∈ outside s <-> n ∈ nodes /\ st n = NOut;
  sys_nodes n : st n <> NOut -> n ∈ nodes }.

Lemma rest_role t c : at_rest c = true -> role t c = None /\ refers c = None /\ knows c = None.
Proof. by destruct c. Qed.

Lemma add_call_ok st L f ths t c n :
  fl_ok st L f ths -> ths !! t = Some c -> at_rest c = true -> st n = NOut ->
  fl_ok (<[n := NAdd t]> st) L f (<[t := FAdd n]> ths).
Proof.
  intros Hok Ht Hc Hn. destruct (rest_role t c Hc) as (Hro & Hre & Hk).
  assert (forall m, holds m (FAdd n) = holds m c) as Hho by (intros m; by rewrite !holds_none).
  eapply (fl_update st L f ths t _ _ n (NAdd t)); eauto; rewrite ?(count_same ths t c) by done.
  - by rewrite (ok_refs _ _ _ _ Hok), Hn.
  - done.
  - apply (ok_chain _ _ _ _ Hok).
  - apply (ok_nodup _ _ _ _ Hok).
  - apply (listed_insert st L f ths Hok); by rewrite ?Hn.
  - right. rewrite Hn. split; [by left|]. split; [by rewrite Hro|]. by right.
  - intros t2 c2 m y _ H2. by apply (ok_next _ _ _ _ Hok t2 c2).
  - done.
  - done.
Qed.

Lemma fl_step_ok nodes st L s ev s' :
  sys_ok nodes st L s -> fl_step s ev s' ->
  exists st' L', sys_ok nodes st' L' s' /\ bag_run (nodes ∖ outside s) ev = Some (nodes ∖ outside s').
Proof.
  intros [Hfl Hout Hnodes] Hs. destruct Hs as [f ths out t c n Ht Hc Hn|f ths out t c Ht Hc|f ths out t c f' c' Ht Hc Hs]; simpl in *.
  - apply Hout in Hn as [Hnn Hn]. exists (<[n := NAdd t]> st), L. split.
    + split; simpl; [by eapply add_call_ok|..].
      * intros m. destruct (decide (m = n)) as [->|Hm]; [rewrite fn_lookup_insert|rewrite fn_lookup_insert_ne by done]; set_solver.
      * intros m. destruct (decide (m = n)) as [->|Hm]; [done|]. rewrite fn_lookup_insert_ne by done. apply Hnodes.
    + rewrite decide_False by set_solver. f_equal. set_unfold. intros m. specialize (Hout m).
      destruct (decide (m = n)) as [->|]; naive_solver.
  - destruct (rest_role t c Hc) as (Hro & Hre & Hk). exists st, L. split; [|done]. split; simpl; [|done..].
    by apply (fl_local _ _ _ _ _ c); rewrite ?Hro, ?Hre.
  - destruct (free_step_ok st L f ths t Hfl c f' c' Ht Hc Hs) as [(st' & L' & Hfl' & Hst') Hret].
    exists st', L'.
    assert (forall n, c' = GRet (Some n) -> n ∈ nodes /\ n ∉ out) as Hn.
    { intros n Hc'. specialize (Hret n Hc'). split; [by apply Hnodes|]. rewrite Hout. naive_solver. }
    split; [split; simpl; [done|..]|].
    + intros m. rewrite elem_of_union, Hout, Hst'. split; [|naive_solver].
      intros [[? ?]|Hm]; [naive_solver|]. split; [|by right]. destruct c' as [| | | | | | | | | | | | | | |[n|]]; set_solver.
    + intros m Hm. apply Hnodes. intros E. apply Hm, Hst'. by left.
    + destruct c' as [| | | | | | | | | | | | | | |[n|]]; simpl; rewrite ?(right_id_L ∅ (∪)); try done.
      destruct (Hn n eq_refl). rewrite decide_True by set_solver. f_equal. set_solver.
Qed.

Lemma bag_run_app b b' tr ev : bag_run b tr = Some b' -> bag_run b (tr ++ ev) = bag_run b' ev.
Proof.
  revert b. induction tr as [|[n|[n|]] tr IH]; intros b; simpl; [by intros [= ->]|..].
  - case_decide; [done|]. apply IH.
  - case_decide; [|done]. apply IH.
  - apply IH.
Qed.

(** All blocks are outside, [k] threads. *)
Definition free_init (nodes : gset nat) (k : nat) : free_sys :=
  mkFreeSys FreeList_init (replicate k FIdle) nodes.

Lemma free_init_ok nodes k :
  Z.of_nat k < 2 ^ 31 - 2 -> sys_ok nodes (fun _ => NOut) [] (free_init nodes k).
Proof.
  intros Hk. split; simpl; [|naive_solver|done]. split; simpl; try done.
  - by rewrite length_replicate.
  - intros n. rewrite count_none; [done|]. by intros c [-> _]%elem_of_replicate.
  - constructor.
  - intros n. split; [by intros ?%not_elem_of_nil|done].
  - by intros t c n x [-> _]%lookup_replicate.
  - by intros t c n x [-> _]%lookup_replicate.
  - by intros t c [-> _]%lookup_replicate.
Qed.

Lemma fl_steps_ok nodes k tr s :
  Z.of_nat k < 2 ^ 31 - 2 -> fl_steps (free_init nodes k) tr s ->
  exists st L, sys_ok nodes st L s /\ bag_run ∅ tr = Some (nodes ∖ outside s).
Proof.
  intros Hk Hs. remember (free_init nodes k) as s0 eqn:Es.
  induction Hs as [s|s1 tr s2 ev s3 Hs IH Hst]; subst.
  - exists (fun _ => NOut), []. split; [by apply free_init_ok|]. simpl. f_equal. set_solver.
  - destruct (IH eq_refl) as (st & L & Hok & Hb). destruct (fl_step_ok _ _ _ _ _ _ Hok Hst) as (st' & L' & Hok' & Hb').
    exists st', L'. split; [done|]. by rewrite (bag_run_app _ _ _ _ Hb).
Qed.

(** When no call is under way, the list holds exactly the blocks given back. *)
Lemma rest_list nodes st L s :
  sys_ok nodes st L s -> (forall t c, threads s !! t = Some c -> at_rest c = true) ->
  list_to_set L = nodes ∖ outside s /\ forall n, count (holds n) (threads s) = 0%nat.
Proof.
  intros [Hfl Hout Hnodes] Hrest.
  assert (forall n, count (holds n) (threads s) = 0%nat) as Hc.
  { intros n. apply count_none. intros c [t Ht]%list_elem_of_lookup. apply holds_none.
    by apply (rest_role t c), (Hrest t). }
  split; [|done]. apply set_eq. intros n. rewrite elem_of_list_to_set, (ok_listed _ _ _ _ Hfl), elem_of_difference, Hout.
  split; [intros Hn; split; [by apply Hnodes; rewrite Hn|rewrite Hn; by intros [_ ?]]|].
  intros [Hn Hno]. destruct (owner_of (st n)) as [t|] eqn:Ho.
  - destruct (ok_owner _ _ _ _ Hfl _ _ Ho) as (c & Ht & Hr). destruct (rest_role t c (Hrest _ _ Ht)) as [? _]. congruence.
  - pose proof (ok_settled _ _ _ _ Hfl n) as Hset. rewrite Hc in Hset.
    destruct (st n); simpl in Hset, Ho; [by destruct Hno|done|lia|done|done|done|done].
Qed.

(** An undisturbed [try_get] takes the first block of the list. *)
Lemma get_alone st L f ths :
  fl_ok st L f ths -> (forall n, count (holds n) ths = 0%nat) ->
  snd (free_run 6 f GLoad) = GRet (head L).
Proof.
  intros Hok Hc. pose proof (ok_chain _ _ _ _ Hok) as Hch.
  destruct L as [|n L]; simpl in Hch; [cbn [free_run free_step]; rewrite Hch; done|]. destruct Hch as [Hh _].
  assert (freeListRefs f n = 1) as Hr.
  { rewrite (ok_refs _ _ _ _ Hok), Hc, (proj1 (ok_listed _ _ _ _ Hok n)) by left. done. }
  cbn [free_run free_step]. rewrite Hh. cbn [enter free_run free_step]. rewrite Hr. change (Z.land 1 REFS_MASK =? 0) with false.
  cbn [free_run free_step]. rewrite Hr, Z.eqb_refl. cbn [free_run free_step set_refs freeListHead freeListNext].
  rewrite Hh, bool_decide_true by done. done.
Qed.

(** C17: The lock-free free list never hands out a block twice and loses none.  In every
    interleaving the calls behave like those of a set of blocks, in which a get takes some
    block that was given back and not taken since, or finds nothing; when no call is under
    way, the chain of next pointers from the head holds exactly the blocks given back, each
    once, and a get that runs alone takes the first. *)
Theorem free_list_is_set nodes k tr s :
  Z.of_nat k < 2 ^ 31 - 2 -> fl_steps (free_init nodes k) tr s ->
  exists b, bag_run ∅ tr = Some b /\
    ((forall t c, threads s !! t = Some c -> at_rest c = true) ->
     exists L, chain (freeListHead (fl s)) (freeListNext (fl s)) L /\ NoDup L /\ list_to_set L = b /\
       snd (free_run 6 (fl s) GLoad) = GRet (head L)).
Proof.
  intros Hk Hs. destruct (fl_steps_ok nodes k tr s Hk Hs) as (st & L & Hok & Hb).
  exists (nodes ∖ outside s). split; [done|]. intros Hrest. destruct (rest_list _ _ _ _ Hok Hrest) as [HL Hc].
  destruct Hok as [Hfl _ _]. exists L. split; [apply (ok_chain _ _ _ _ Hfl)|]. split; [apply (ok_nodup _ _ _ _ Hfl)|].
  split; [done|]. by eapply get_alone.
Qed.

(** ** Schedules *)

Inductive free_action := CallAdd (t n : nat) | CallGet (t : nat) | Run (t : nat).

Definition free_act (a : free_action) (s : free_sys) : option (list free_event * free_sys) :=
  let '(mkFreeSys f ths out) := s in
  match a with
  | CallAdd t n =>
      match ths !! t with
      | Some c => if at_rest c && bool_decide (n ∈ out)
                  then Some ([EAdd n], mkFreeSys f (<[t := FAdd n]> ths) (out ∖ {[n]})) else None
      | None => None
      end
  | CallGet t =>
      match ths !! t with
      | Some c => if at_rest c then Some ([], mkFreeSys f (<[t := GLoad]> ths) out) else None
      | None => None
      end
  | Run t =>
      match ths !! t with
      | Some c =>
          if at_rest c then None
          else let '(f', c') := free_step f c in
               Some (free_events c', mkFreeSys f' (<[t := c']> ths) (out ∪ returned c'))
      | None => None
      end
  end.

Fixpoint free_exec (l : list free_action) (tr : list free_event) (s : free_sys) : option (list free_event * free_sys) :=
  match l with
  | [] => Some (tr, s)
  | a :: l => match free_act a s with None => None | Some (ev, s) => free_exec l (tr ++ ev) s end
  end.

Lemma free_exec_steps s0 l tr s tr' s' :
  fl_steps s0 tr s -> free_exec l tr s = Some (tr', s') -> fl_steps s0 tr' s'.
Proof.
  revert tr s. induction l as [|a l IH]; intros tr s Hs; simpl; [by intros [= <- <-]|].
  destruct (free_act a s) as [[ev s1]|] eqn:Ha; [|done]. apply IH. econstructor; [exact Hs|].
  destruct s as [f ths out], a as [t n|t|t]; simpl in Ha; destruct (ths !! t) as [c|] eqn:Ht; try done;
    destruct (at_rest c) eqn:Hc; simpl in Ha; try done.
  - case_bool_decide; [|done]. injection Ha as <- <-. by econstructor.
  - injection Ha as <- <-. by econstructor.
  - destruct (free_step f c) as [f' c'] eqn:Hst. injection Ha as <- <-. by econstructor.
Qed.

(** Thread 1 holds a reference of block 0 while thread 0 takes the block and gives it back:
    thread 1, which drops the last reference, pushes it. *)
Definition handed_over : list free_action :=
  CallAdd 0 0 :: replicate 5 (Run 0) ++ CallGet 1 :: replicate 3 (Run 1) ++
  CallGet 0 :: replicate 6 (Run 0) ++ [CallAdd 0 0; Run 0] ++ replicate 7 (Run 1).

Definition handed_over_events : list free_event := [EAdd 0; EGet (Some 0%nat); EAdd 0; EGet None].

Lemma free_list_is_set_witness :
  exists s b, fl_steps (free_init {[0%nat]} 2) handed_over_events s /\
    threads s = [FAdded; GRet None] /\ bag_run ∅ handed_over_events = Some b /\
    exists L, chain (freeListHead (fl s)) (freeListNext (fl s)) L /\ list_to_set L = b.
Proof.
  destruct (free_exec handed_over [] (free_init {[0%nat]} 2)) as [[tr s]|] eqn:He;
    [|apply (f_equal (fmap fst)) in He; vm_compute in He; discriminate].
  assert (tr = handed_over_events) as ->.
  { apply (f_equal (fmap fst)) in He. vm_compute in He. by injection He. }
  assert (threads s = [FAdded; GRet None]) as Hth.
  { apply (f_equal (fmap (fun p => threads p.2))) in He. vm_compute in He. by injection He. }
  pose proof (free_exec_steps _ _ _ _ _ _ (fl_steps_refl _) He) as Hs.
  destruct (free_list_is_set {[0%nat]} 2 handed_over_events s ltac:(reflexivity) Hs) as (b & Hb & HL).
  exists s, b. split; [exact Hs|]. split; [exact Hth|]. split; [exact Hb|].
  destruct HL as (L & Hch & _ & HL & _); [|by exists L].
  rewrite Hth. intros [|[|t]] c; simpl; intros [= <-]; reflexivity.
Defined.
