(* ===== verification/CqTable.v ===== *)
(** * The table from threads to sub-queues (lib/concurrentqueue/concurrentqueue.h)

    [get_or_add_implicit_producer] finds the sub-queue of the calling thread in a chain of
    open-addressing hash tables, or gives it one: a sub-queue that an exited thread has left
    or a new one.  [implicit_producer_thread_exited] removes an exiting thread from all tables
    and leaves its sub-queue for reuse.  The lock-free sub-queue relies on having one
    enqueuing thread; this file shows that the table provides it.  One step is one access to
    shared memory; allocating and publishing a sub-queue is one step. *)
From S2P Require Import Prelude CqArith CqProducer CqInv.

(** ** State *)

(** A key: [invalid_thread_id], [invalid_thread_id2], or a thread. *)
Inductive tkey := KEmpty | KReusable | KId (t : nat).

#[global] Instance tkey_eq_dec : EqDecision tkey.
Proof. solve_decision. Defined.

Record ImplicitProducerHash := mkTable {
  tcap : Z;
  tkeys : list tkey;
  tvals : list (option nat) }.

(** The tables, oldest first: the previous table of the [i]th is the one before it.  For every
    sub-queue, oldest first, whether it is inactive. *)
Record ProducerTable := mkTables {
  tables : list ImplicitProducerHash;
  implicitProducerHashCount : Z;
  implicitProducerHashResizeInProgress : bool;
  inactive : list bool }.

Definition empty_table (cap : Z) : ImplicitProducerHash :=
  mkTable cap (replicate (Z.to_nat cap) KEmpty) (replicate (Z.to_nat cap) None).

Definition populate_initial_implicit_producer_hash : ProducerTable :=
  mkTables [empty_table INITIAL_IMPLICIT_PRODUCER_HASH_SIZE] 0 false [].

Definition set_key (i j : nat) (k : tkey) (s : ProducerTable) : ProducerTable :=
  mkTables (alter (fun tb => mkTable (tcap tb) (<[j := k]> (tkeys tb)) (tvals tb)) i (tables s))
    (implicitProducerHashCount s) (implicitProducerHashResizeInProgress s) (inactive s).
Definition set_value (i j : nat) (v : option nat) (s : ProducerTable) : ProducerTable :=
  mkTables (alter (fun tb => mkTable (tcap tb) (tkeys tb) (<[j := v]> (tvals tb))) i (tables s))
    (implicitProducerHashCount s) (implicitProducerHashResizeInProgress s) (inactive s).
Definition set_count (n : Z) (s : ProducerTable) : ProducerTable :=
  mkTables (tables s) n (implicitProducerHashResizeInProgress s) (inactive s).
Definition set_resizing (b : bool) (s : ProducerTable) : ProducerTable :=
  mkTables (tables s) (implicitProducerHashCount s) b (inactive s).
Definition set_inactive (l : list bool) (s : ProducerTable) : ProducerTable :=
  mkTables (tables s) (implicitProducerHashCount s) (implicitProducerHashResizeInProgress s) l.
Definition push_table (tb : ImplicitProducerHash) (s : ProducerTable) : ProducerTable :=
  mkTables (tables s ++ [tb]) (implicitProducerHashCount s) (implicitProducerHashResizeInProgress s) (inactive s).

(** The table [implicitProducerHash] points to. *)
Definition main_table (s : ProducerTable) : nat := (length (tables s) - 1)%nat.

Definition key_of (s : ProducerTable) (i j : nat) : option tkey :=
  tables s !! i ≫= fun tb => tkeys tb !! j.
Definition value_of (s : ProducerTable) (i j : nat) : option (option nat) :=
  tables s !! i ≫= fun tb => tvals tb !! j.
Definition cap_of (s : ProducerTable) (i : nat) : Z :=
  match tables s !! i with Some tb => tcap tb | None => 0 end.

(** [index &= hash->capacity - 1u]. *)
Definition masked (s : ProducerTable) (i : nat) (index : Z) : nat :=
  Z.to_nat (Z.land index (u64 (cap_of s i - 1))).

(** ** Threads

    The next access of a thread, with its local variables; [j] is a masked index. *)
Inductive tpc :=
| TDead
| TIdle
(* get_or_add_implicit_producer: look the thread up *)
| TLoad
| TProbe (main hash : nat) (index : Z)
| TValue (main hash j : nat)
| TMoveE (main : nat) (index : Z) (v : option nat)
| TMoveR (main j : nat) (v : option nat)
| TMoveV (main j : nat) (v : option nat)
(* insert it *)
| TCount (main : nat)
| TLock (main : nat) (newCount : Z)
| TReload (newCount : Z)
| TGrow (main : nat) (newCount : Z)
| TUnlock (main : nat) (newCount : Z)
| TNoMemory
| TNoMemoryUnlock
| TWait (newCount : Z)
| TList (main : nat)
| TScan (main ptr : nat)
| TCatch (main ptr : nat)
| TCreate (main : nat)
| TNoProducer
| TInsertR (main : nat) (index : Z) (producer : nat)
| TInsertE (main j producer : nat)
| TInsertSub (main j producer : nat)
| TInsertV (main j producer : nat)
| TRet (r : option nat)
(* implicit_producer_thread_exited *)
| XLoad (producer : nat)
| XProbe (producer hash : nat) (index : Z)
| XInactive (producer : nat).

(** A new capacity that [newCount] entries fill less than half. *)
Fixpoint grow_capacity (fuel : nat) (newCount newCapacity : Z) : Z :=
  match fuel with
  | O => newCapacity
  | S fuel =>
      if newCount >=? Z.shiftr newCapacity 1 then grow_capacity fuel newCount (u64 (Z.shiftl newCapacity 1))
      else newCapacity
  end.

(** After the resize: whether the table has room, less than three quarters full. *)
Definition room (s : ProducerTable) (main : nat) (newCount : Z) : tpc :=
  if newCount <? u64 (Z.shiftr (cap_of s main) 1 + Z.shiftr (cap_of s main) 2) then TList main else TWait newCount.

(** From a table to the previous one. *)
Definition next_hash (hashedId : Z) (main hash : nat) : tpc :=
  match hash with O => TCount main | S hash => TProbe main hash hashedId end.

Definition next_exit (hashedId : Z) (producer hash : nat) : tpc :=
  match hash with O => XInactive producer | S hash => XProbe producer hash hashedId end.

(** The search of [recycle_or_create_producer] goes from the newest sub-queue to the oldest;
    [ptr] of them are left. *)
Definition next_producer (main ptr : nat) : tpc :=
  match ptr with O => TCreate main | S ptr => TScan main ptr end.

(** One step of thread [t], whose id hashes to [hashedId]; [listener] is the sub-queue it has
    subscribed its exit for, [mem] answers malloc.  First the search for a sub-queue to reuse
    and its subscription. *)
Definition recycle_or_create_step (hashedId : Z) (mem : bool) (t : nat) (s : ProducerTable) (c : tpc) (listener : option nat) :
    ProducerTable * tpc * option nat :=
  match c with
  | TList main => (s, next_producer main (length (inactive s)), listener)
  | TScan main ptr =>
      (s, match inactive s !! ptr with Some true => TCatch main ptr | _ => next_producer main ptr end, listener)
  | TCatch main ptr =>
      match inactive s !! ptr with
      | Some true => (set_inactive (<[ptr := false]> (inactive s)) s, TInsertR main hashedId ptr, Some ptr)
      | _ => (s, next_producer main ptr, listener)
      end
  | TCreate main =>
      if mem then (set_inactive (inactive s ++ [false]) s, TInsertR main hashedId (length (inactive s)),
                   Some (length (inactive s)))
      else (s, TNoProducer, listener)
  | _ => (s, c, listener)
  end.

Definition get_or_add_step (hashedId : Z) (mem : bool) (t : nat) (s : ProducerTable) (c : tpc) (listener : option nat) :
    ProducerTable * tpc * option nat :=
  match c with
  | TLoad => (s, TProbe (main_table s) (main_table s) hashedId, listener)
  | TProbe main hash index =>
      let j := masked s hash index in
      (s, match key_of s hash j with
          | Some (KId u) => if decide (u = t) then TValue main hash j else TProbe main hash (Z.of_nat j + 1)
          | Some KReusable => TProbe main hash (Z.of_nat j + 1)
          | Some KEmpty | None => next_hash hashedId main hash
          end, listener)
  | TValue main hash j =>
      let v := default None (value_of s hash j) in
      (s, if decide (hash = main) then TRet v else TMoveE main hashedId v, listener)
  | TMoveE main index v =>
      let j := masked s main index in
      if decide (key_of s main j = Some KEmpty) then (set_key main j (KId t) s, TMoveV main j v, listener)
      else (s, TMoveR main j v, listener)
  | TMoveR main j v =>
      if decide (key_of s main j = Some KReusable) then (set_key main j (KId t) s, TMoveV main j v, listener)
      else (s, TMoveE main (Z.of_nat j + 1) v, listener)
  | TMoveV main j v => (set_value main j v s, TRet v, listener)
  | TCount main =>
      let newCount := u64 (implicitProducerHashCount s + 1) in
      (set_count newCount s, TLock main newCount, listener)
  | TLock main newCount =>
      if newCount >=? Z.shiftr (cap_of s main) 1 then
        if implicitProducerHashResizeInProgress s then (s, room s main newCount, listener)
        else (set_resizing true s, TReload newCount, listener)
      else (s, room s main newCount, listener)
  | TReload newCount => (s, TGrow (main_table s) newCount, listener)
  | TGrow main newCount =>
      if newCount >=? Z.shiftr (cap_of s main) 1 then
        if mem then
          let newCapacity := grow_capacity 64 newCount (u64 (Z.shiftl (cap_of s main) 1)) in
          (push_table (empty_table newCapacity) s, TUnlock (length (tables s)) newCount, listener)
        else (s, TNoMemory, listener)
      else (s, TUnlock main newCount, listener)
  | TUnlock main newCount => (set_resizing false s, room s main newCount, listener)
  | TNoMemory => (set_count (u64 (implicitProducerHashCount s - 1)) s, TNoMemoryUnlock, listener)
  | TNoMemoryUnlock => (set_resizing false s, TRet None, listener)
  | TWait newCount => (s, TLock (main_table s) newCount, listener)
  | TNoProducer => (set_count (u64 (implicitProducerHashCount s - 1)) s, TRet None, listener)
  (* insertion *)
  | TInsertR main index producer =>
      let j := masked s main index in
      if decide (key_of s main j = Some KReusable)
      then (set_key main j (KId t) s, TInsertSub main j producer, listener)
      else (s, TInsertE main j producer, listener)
  | TInsertE main j producer =>
      if decide (key_of s main j = Some KEmpty)
      then (set_key main j (KId t) s, TInsertV main j producer, listener)
      else (s, TInsertR main (Z.of_nat j + 1) producer, listener)
  | TInsertSub main j producer =>
      (set_count (u64 (implicitProducerHashCount s - 1)) s, TInsertV main j producer, listener)
  | TInsertV main j producer => (set_value main j (Some producer) s, TRet (Some producer), listener)
  | _ => (s, c, listener)
  end.

Definition exit_step (hashedId : Z) (t : nat) (s : ProducerTable) (c : tpc) (listener : option nat) :
    ProducerTable * tpc * option nat :=
  match c with
  | XLoad producer => (s, XProbe producer (main_table s) hashedId, listener)
  | XProbe producer hash index =>
      let j := masked s hash index in
      match key_of s hash j with
      | Some (KId u) =>
          if decide (u = t) then (set_key hash j KReusable s, next_exit hashedId producer hash, listener)
          else (s, XProbe producer hash (Z.of_nat j + 1), listener)
      | Some KReusable => (s, XProbe producer hash (Z.of_nat j + 1), listener)
      | Some KEmpty | None => (s, next_exit hashedId producer hash, listener)
      end
  | XInactive producer => (set_inactive (<[producer := true]> (inactive s)) s, TDead, None)
  | _ => (s, c, listener)
  end.

Definition table_step (hashedId : Z) (mem : bool) (t : nat) (s : ProducerTable) (c : tpc) (listener : option nat) :
    ProducerTable * tpc * option nat :=
  match c with
  | TList _ | TScan _ _ | TCatch _ _ | TCreate _ => recycle_or_create_step hashedId mem t s c listener
  | XLoad _ | XProbe _ _ _ | XInactive _ => exit_step hashedId t s c listener
  | _ => get_or_add_step hashedId mem t s c listener
  end.

(** Threads start, call, exit, and their ids are used again. *)
Record table_sys := mkTableSys { ptab : ProducerTable; tthreads : list (tpc * option nat) }.

Definition resting_pc (c : tpc) : bool := match c with TIdle | TRet _ => true | _ => false end.
Definition stopped_pc (c : tpc) : bool := match c with TDead | TIdle | TRet _ => true | _ => false end.

Inductive tab_step (hashed : nat -> Z) : table_sys -> table_sys -> Prop :=
| tab_start s ths t l :
    ths !! t = Some (TDead, l) ->
    tab_step hashed (mkTableSys s ths) (mkTableSys s (<[t := (TIdle, l)]> ths))
| tab_call s ths t c l :
    ths !! t = Some (c, l) -> resting_pc c = true ->
    tab_step hashed (mkTableSys s ths) (mkTableSys s (<[t := (TLoad, l)]> ths))
| tab_exit s ths t c l :
    ths !! t = Some (c, l) -> resting_pc c = true ->
    tab_step hashed (mkTableSys s ths)
      (mkTableSys s (<[t := (match l with None => TDead | Some p => XLoad p end, l)]> ths))
| tab_run s ths t c l mem s' c' l' :
    ths !! t = Some (c, l) -> stopped_pc c = false -> table_step (hashed t) mem t s c l = (s', c', l') ->
    tab_step hashed (mkTableSys s ths) (mkTableSys s' (<[t := (c', l')]> ths)).

Inductive tab_steps (hashed : nat -> Z) : nat -> table_sys -> table_sys -> Prop :=
| tab_steps_refl s : tab_steps hashed 0 s s
| tab_steps_snoc n s1 s2 s3 : tab_steps hashed n s1 s2 -> tab_step hashed s2 s3 -> tab_steps hashed (S n) s1 s3.

(** [k] threads, none started. *)
Definition tab_init (k : nat) : table_sys :=
  mkTableSys populate_initial_implicit_producer_hash (replicate k (TDead, None)).

(** ** Invariant *)

Section Table.
Context (hashed : nat -> Z) (Hhashed : forall t, 0 <= hashed t < 2 ^ 64).
Implicit Types (s : ProducerTable) (ths : list (tpc * option nat)).

(** The [d]th place at which thread [t] looks in table [i]. *)
Definition pos s (i t d : nat) : nat := Z.to_nat ((hashed t + Z.of_nat d) mod cap_of s i).

Definition free_of s (i t : nat) : Prop := forall j, key_of s i j <> Some (KId t).
Definition absent s (t : nat) : Prop := forall i, free_of s i t.

(** Places that are in use by others. *)
Definition passed s (i t d : nat) : Prop :=
  forall d', (d' < d)%nat -> exists k, key_of s i (pos s i t d') = Some k /\ k <> KEmpty /\ k <> KId t.

Definition probing s (i t : nat) (index : Z) : Prop :=
  0 <= index < 2 ^ 64 /\
  exists d, index mod cap_of s i = (hashed t + Z.of_nat d) mod cap_of s i /\ passed s i t d.

Definition probed s (i t j : nat) : Prop := exists d, j = pos s i t d /\ passed s i t d.

Definition counted (c : tpc) : option Z :=
  match c with TLock _ n | TReload n | TGrow _ n | TUnlock _ n | TWait n => Some n | _ => None end.

(** A thread between its increment of the count and the use of it. *)
Definition inflight (c : tpc) : bool :=
  match c with
  | TLock _ _ | TReload _ | TGrow _ _ | TUnlock _ _ | TNoMemory | TWait _ | TList _ | TScan _ _ | TCatch _ _
  | TCreate _ | TNoProducer | TInsertR _ _ _ | TInsertE _ _ _ | TInsertSub _ _ _ => true
  | _ => false
  end.

(** The slot whose key a thread has set and whose value it has not stored yet. *)
Definition storing (c : tpc) : option (nat * nat) :=
  match c with TMoveV i j _ | TInsertSub i j _ | TInsertV i j _ => Some (i, j) | _ => None end.

(** A thread with a sub-queue is in some table, unless it is being inserted or removed. *)
Definition listed (c : tpc) : bool :=
  match c with TInsertR _ _ _ | TInsertE _ _ _ | XProbe _ _ _ | XInactive _ => false | _ => true end.

Definition pc_ok s (t : nat) (c : tpc) (l : option nat) : Prop :=
  match c with
  | TDead | TIdle => l = None
  | TLoad => True
  | TProbe main hash index =>
      (hash <= main < length (tables s))%nat /\ (forall i, (hash < i)%nat -> free_of s i t) /\ probing s hash t index
  | TValue main hash j =>
      (hash <= main < length (tables s))%nat /\ (forall i, (hash < i)%nat -> free_of s i t) /\
      key_of s hash j = Some (KId t)
  | TMoveE main index v =>
      (main < length (tables s))%nat /\ v = l /\ l <> None /\ free_of s main t /\ probing s main t index
  | TMoveR main j v =>
      (main < length (tables s))%nat /\ v = l /\ l <> None /\ free_of s main t /\ probed s main t j /\
      exists k, key_of s main j = Some k /\ k <> KEmpty /\ k <> KId t
  | TMoveV main j v => v = l /\ l <> None /\ key_of s main j = Some (KId t)
  | TCount main | TLock main _ | TGrow main _ | TUnlock main _ | TList main | TScan main _ | TCatch main _
  | TCreate main => (main < length (tables s))%nat /\ l = None
  | TReload _ | TNoMemory | TNoMemoryUnlock | TWait _ | TNoProducer => l = None
  | TInsertR main index p =>
      (main < length (tables s))%nat /\ l = Some p /\ absent s t /\ probing s main t index
  | TInsertE main j p => (main < length (tables s))%nat /\ l = Some p /\ absent s t /\ probed s main t j
  | TInsertSub main j p | TInsertV main j p => l = Some p /\ key_of s main j = Some (KId t)
  | TRet r => r = l
  | XLoad p => l = Some p
  | XProbe p hash index =>
      l = Some p /\ (hash < length (tables s))%nat /\ (forall i, (hash < i)%nat -> free_of s i t) /\
      probing s hash t index
  | XInactive p => l = Some p /\ absent s t
  end.

Definition table_ok (tb : ImplicitProducerHash) : Prop :=
  (exists k, 5 <= k <= 62 /\ tcap tb = 2 ^ k) /\
  Z.of_nat (length (tkeys tb)) = tcap tb /\ Z.of_nat (length (tvals tb)) = tcap tb.

Definition tables_ok s : Prop := (0 < length (tables s))%nat /\ Forall table_ok (tables s).

(** What holds of the entries of thread [t], which is at [c] with the sub-queue [l]. *)
Record entries_ok s (t : nat) (c : tpc) (l : option nat) : Prop := {
  en_value i j : key_of s i j = Some (KId t) ->
    l <> None /\ (value_of s i j = Some l \/ storing c = Some (i, j));
  en_path i j : key_of s i j = Some (KId t) ->
    exists d, j = pos s i t d /\ forall d', (d' < d)%nat -> exists k, key_of s i (pos s i t d') = Some k /\ k <> KEmpty;
  en_unique i j j' : key_of s i j = Some (KId t) -> key_of s i j' = Some (KId t) -> j = j';
  en_listed : l <> None -> listed c = true -> exists i j, key_of s i j = Some (KId t) }.

Record tab_ok (N : nat) s ths : Prop := {
  tb_tables : tables_ok s;
  tb_thread t c l : ths !! t = Some (c, l) -> pc_ok s t c l /\ entries_ok s t c l;
  tb_known i j t : key_of s i j = Some (KId t) -> (t < length ths)%nat;
  tb_inj t u c d p : ths !! t = Some (c, Some p) -> ths !! u = Some (d, Some p) -> t = u;
  tb_active t c p : ths !! t = Some (c, Some p) -> inactive s !! p = Some false;
  tb_count : exists settled : nat,
    implicitProducerHashCount s = Z.of_nat (settled + count (fun x => inflight x.1) ths);
  tb_bound : implicitProducerHashCount s <= Z.of_nat N;
  tb_counted t c l n : ths !! t = Some (c, l) -> counted c = Some n -> 0 <= n <= Z.of_nat N }.

(** ** What a step of one thread does to the others *)

Record evolves (t : nat) s s' : Prop := {
  ev_length : (length (tables s) <= length (tables s'))%nat;
  ev_cap i : (i < length (tables s))%nat -> cap_of s' i = cap_of s i;
  ev_key i j k : key_of s i j = Some k ->
    key_of s' i j = Some k \/ (k = KEmpty \/ k = KReusable) /\ key_of s' i j = Some (KId t) \/
    k = KId t /\ key_of s' i j = Some KReusable;
  ev_new i j k : key_of s' i j = Some k -> (exists k0, key_of s i j = Some k0) \/ k = KEmpty;
  ev_value i j u : u <> t -> key_of s i j = Some (KId u) -> value_of s' i j = value_of s i j }.

Lemma key_of_lt s i j k : key_of s i j = Some k -> (i < length (tables s))%nat.
Proof. unfold key_of. destruct (tables s !! i) eqn:E; [|done]. intros _. by eapply lookup_lt_Some. Qed.

Section Evolves.
Context (t : nat) s s' (Hev : evolves t s s').

Lemma ev_mine i j u : u <> t -> key_of s' i j = Some (KId u) <-> key_of s i j = Some (KId u).
Proof.
  intros Hu. split; intros Hk.
  - destruct (ev_new _ _ _ Hev _ _ _ Hk) as [[k0 Hk0]|?]; [|done].
    destruct (ev_key _ _ _ Hev _ _ _ Hk0) as [H|[[_ H]|[_ H]]]; congruence.
  - destruct (ev_key _ _ _ Hev _ _ _ Hk) as [H|[[[?|?] _]|[? _]]]; congruence.
Qed.

Lemma ev_free i u : u <> t -> free_of s i u -> free_of s' i u.
Proof. intros Hu Hf j Hj. apply ev_mine in Hj; [|done]. by apply (Hf j). Qed.

Lemma ev_absent u : u <> t -> absent s u -> absent s' u.
Proof. intros Hu Ha i. by apply ev_free. Qed.

Lemma ev_used i j u k :
  u <> t -> key_of s i j = Some k -> k <> KEmpty -> k <> KId u ->
  exists k', key_of s' i j = Some k' /\ k' <> KEmpty /\ k' <> KId u.
Proof.
  intros Hu Hk He Hn. destruct (ev_key _ _ _ Hev _ _ _ Hk) as [H|[[_ H]|[_ H]]]; eexists; (split; [exact H|]); naive_solver.
Qed.

Lemma ev_pos i u d : (i < length (tables s))%nat -> pos s' i u d = pos s i u d.
Proof. intros Hi. unfold pos. by rewrite (ev_cap _ _ _ Hev). Qed.

Lemma ev_passed i u d : (i < length (tables s))%nat -> u <> t -> passed s i u d -> passed s' i u d.
Proof.
  intros Hi Hu Hp d' Hd. destruct (Hp d' Hd) as (k & Hk & He & Hn). rewrite ev_pos by done. by eapply ev_used.
Qed.

Lemma ev_probing i u index : (i < length (tables s))%nat -> u <> t -> probing s i u index -> probing s' i u index.
Proof.
  intros Hi Hu (Hr & d & Hd & Hp). split; [done|]. exists d. rewrite (ev_cap _ _ _ Hev) by done.
  split; [done|]. by apply ev_passed.
Qed.

Lemma ev_probed i u j : (i < length (tables s))%nat -> u <> t -> probed s i u j -> probed s' i u j.
Proof. intros Hi Hu (d & Hd & Hp). exists d. rewrite ev_pos by done. split; [done|]. by apply ev_passed. Qed.

Lemma ev_kept i j k : key_of s i j = Some k -> k <> KEmpty -> exists k', key_of s' i j = Some k' /\ k' <> KEmpty.
Proof.
  intros Hk He. destruct (ev_key _ _ _ Hev _ _ _ Hk) as [H|[[_ H]|[_ H]]]; eexists; (split; [exact H|]); congruence.
Qed.

Lemma ev_pc_ok u c l : u <> t -> pc_ok s u c l -> pc_ok s' u c l.
Proof.
  intros Hu. pose proof (ev_length _ _ _ Hev) as Hlen.
  destruct c; simpl; intros Hok; try done;
    repeat match goal with H : _ /\ _ |- _ => destruct H end; repeat match goal with |- _ /\ _ => split end; try done; try lia;
    try (by apply ev_free); try (by apply ev_absent); try (by apply ev_mine);
    try (by intros; apply ev_free; eauto); try (by apply ev_probing); try (apply ev_probing; [lia|done..]);
    try (by apply ev_probed).
  destruct H4 as (k & Hk & He & Hn). by eapply ev_used.
Qed.

Lemma ev_entries u c l : u <> t -> entries_ok s u c l -> entries_ok s' u c l.
Proof.
  intros Hu [Hv Hp Huq Hl]. split.
  - intros i j Hk%ev_mine; [|done]. rewrite (ev_value _ _ _ Hev i j u) by done. by apply Hv.
  - intros i j Hk%ev_mine; [|done]. destruct (Hp i j Hk) as (d & Hd & Hne). exists d.
    pose proof (key_of_lt _ _ _ _ Hk) as Hi. rewrite ev_pos by done. split; [done|]. intros d' Hd'. rewrite ev_pos by done.
    destruct (Hne d' Hd') as (k & Hk' & He). by eapply ev_kept.
  - intros i j j' Hj%ev_mine Hj'%ev_mine; [|done..]. by eapply Huq.
  - intros Hl0 Hls. destruct (Hl Hl0 Hls) as (i & j & Hk). exists i, j. by apply ev_mine.
Qed.

End Evolves.

Lemma count_pcs ths t c l c' l' :
  ths !! t = Some (c, l) ->
  (count (fun x => inflight x.1) (<[t := (c', l')]> ths) + Nat.b2n (inflight c) =
   count (fun x => inflight x.1) ths + Nat.b2n (inflight c'))%nat.
Proof. intros Ht. apply (count_insert (fun x : tpc * option nat => inflight x.1) ths t (c, l) (c', l') Ht). Qed.

(** A step of thread [t]. *)
Lemma tab_update N s ths t c l s' c' l' :
  tab_ok N s ths -> ths !! t = Some (c, l) -> evolves t s s' -> tables_ok s' ->
  pc_ok s' t c' l' -> entries_ok s' t c' l' ->
  (forall p, l' = Some p -> inactive s' !! p = Some false) ->
  (forall u d p, u <> t -> ths !! u = Some (d, Some p) -> l' <> Some p /\ inactive s' !! p = Some false) ->
  (exists settled : nat, implicitProducerHashCount s' = Z.of_nat (settled + count (fun x => inflight x.1) (<[t := (c', l')]> ths))) ->
  implicitProducerHashCount s' <= Z.of_nat (S N) ->
  (forall n, counted c' = Some n -> 0 <= n <= Z.of_nat (S N)) ->
  tab_ok (S N) s' (<[t := (c', l')]> ths).
Proof.
  intros [Htab Hth Hkn Hinj Hact Hcnt Hbd Hctd] Ht Hev Htab' Hpc Hen Hp Hu Hcnt' Hbd' Hctd'.
  assert (t < length ths)%nat as Hlt by (by eapply lookup_lt_Some).
  assert (forall u x, (<[t := (c', l')]> ths) !! u = Some x -> u = t /\ x = (c', l') \/ u <> t /\ ths !! u = Some x) as Hths.
  { intros u x Hx. apply list_lookup_insert_Some in Hx as [(-> & -> & _)|[? ?]]; [by left|by right]. }
  split; try done.
  - intros u d m [[-> E]|[Hne H]]%Hths; [by simplify_eq|]. destruct (Hth u d m H) as [H1 H2].
    split; [by eapply ev_pc_ok|by eapply ev_entries].
  - intros i j u Hk. rewrite length_insert. destruct (decide (u = t)) as [->|Hne]; [done|].
    apply (Hkn i j). by apply (ev_mine t s s' Hev).
  - intros u1 u2 d1 d2 p [[-> E1]|[Hne1 H1]]%Hths [[-> E2]|[Hne2 H2]]%Hths; [done|..].
    + destruct (Hu u2 d2 p Hne2 H2). congruence.
    + destruct (Hu u1 d1 p Hne1 H1). congruence.
    + by eapply Hinj.
  - intros u d p [[-> E]|[Hne H]]%Hths; [apply Hp; congruence|]. by apply (Hu u d p).
  - intros u d m n [[-> E]|[Hne H]]%Hths Hc; [simplify_eq; by apply Hctd'|]. pose proof (Hctd u d m n H Hc). lia.
Qed.

Lemma evolves_refl t s : evolves t s s.
Proof. split; naive_solver. Qed.

(** Steps that leave the tables alone: the entries of the thread as well. *)
Definition same_tables s s' : Prop := tables s' = tables s.

Lemma same_tables_evolves t s s' : same_tables s s' -> evolves t s s'.
Proof.
  intros Hs. split; unfold key_of, value_of, cap_of; rewrite Hs; [done|done|naive_solver|naive_solver|done].
Qed.

Lemma same_key s s' i j : same_tables s s' -> key_of s' i j = key_of s i j.
Proof. unfold key_of. by intros ->. Qed.

Lemma same_entries s s' t c c' l :
  same_tables s s' -> entries_ok s t c l ->
  storing c' = storing c -> (listed c' = true -> listed c = true) -> entries_ok s' t c' l.
Proof.
  intros Hs [Hv Hp Hu Hl] Hst Hli. unfold same_tables in Hs.
  split; unfold key_of, value_of, pos, cap_of in *; rewrite ?Hs; rewrite ?Hst; eauto.
Qed.

(** ** Probing *)

Lemma cap_pow s i : tables_ok s -> (i < length (tables s))%nat -> exists k, 5 <= k <= 62 /\ cap_of s i = 2 ^ k.
Proof.
  intros [_ Hf] Hi. destruct (lookup_lt_is_Some_2 _ _ Hi) as [tb Htb]. unfold cap_of. rewrite Htb.
  by destruct (Forall_lookup_1 _ _ _ _ Hf Htb) as [Hk _].
Qed.

Lemma cap_range s i : tables_ok s -> (i < length (tables s))%nat -> 32 <= cap_of s i <= 2 ^ 62.
Proof.
  intros Hs Hi. destruct (cap_pow s i Hs Hi) as (k & Hk & ->). change 32 with (2 ^ 5).
  split; apply Z.pow_le_mono_r; lia.
Qed.

Lemma masked_mod s i index :
  tables_ok s -> (i < length (tables s))%nat -> 0 <= index < 2 ^ 64 ->
  masked s i index = Z.to_nat (index mod cap_of s i).
Proof.
  intros Hs Hi Hx. destruct (cap_pow s i Hs Hi) as (k & Hk & Hc). pose proof (cap_range s i Hs Hi).
  unfold masked. rewrite u64_small by lia. rewrite Hc, land_mask by lia. done.
Qed.

Lemma key_in s i x : tables_ok s -> (i < length (tables s))%nat -> 0 <= x < cap_of s i -> exists k, key_of s i (Z.to_nat x) = Some k.
Proof.
  intros [_ Hf] Hi Hx. destruct (lookup_lt_is_Some_2 _ _ Hi) as [tb Htb]. unfold cap_of, key_of in *. rewrite Htb in *. simpl.
  destruct (Forall_lookup_1 _ _ _ _ Hf Htb) as (_ & Hl & _). apply lookup_lt_is_Some_2. lia.
Qed.

Lemma probing_probed s i t index :
  tables_ok s -> (i < length (tables s))%nat -> probing s i t index ->
  probed s i t (masked s i index) /\ exists k, key_of s i (masked s i index) = Some k.
Proof.
  intros Hs Hi (Hr & d & Hd & Hp). pose proof (cap_range s i Hs Hi). rewrite masked_mod by done. split.
  - exists d. split; [|done]. unfold pos. by rewrite Hd.
  - apply key_in; [done|done|]. apply Z.mod_pos_bound. lia.
Qed.

Lemma probed_next s i t j k :
  tables_ok s -> (i < length (tables s))%nat -> probed s i t j -> key_of s i j = Some k -> k <> KEmpty -> k <> KId t ->
  probing s i t (Z.of_nat j + 1).
Proof.
  intros Hs Hi (d & -> & Hp) Hk He Hn. pose proof (cap_range s i Hs Hi).
  pose proof (Z.mod_pos_bound (hashed t + Z.of_nat d) (cap_of s i)) as Hb.
  unfold pos in *. rewrite Z2Nat.id by lia. split; [lia|]. exists (S d). split.
  - rewrite Zplus_mod_idemp_l. f_equal. lia.
  - intros d' Hd'. destruct (decide (d' = d)) as [->|]; [by exists k|]. apply Hp. lia.
Qed.

Lemma probing_start s i t : probing s i t (hashed t).
Proof. split; [apply Hhashed|]. exists 0%nat. split; [f_equal; lia|]. intros d' Hd. lia. Qed.

(** An empty place ends the search. *)
Lemma probed_stop s i t j c l :
  probed s i t j -> key_of s i j = Some KEmpty -> entries_ok s t c l -> free_of s i t.
Proof.
  intros (d & Hd & Hp) He Hen j' Hj. subst j. destruct (en_path _ _ _ _ Hen _ _ Hj) as (d' & -> & Hpath).
  destruct (lt_eq_lt_dec d' d) as [[Hlt|Heq]|Hgt].
  - destruct (Hp d' Hlt) as (k & Hk & _ & Hn). congruence.
  - subst. congruence.
  - destruct (Hpath d Hgt) as (k & Hk & Hne). congruence.
Qed.

(** ** Writing a key or a value *)

Lemma key_set_key s i j k i' j' k0 :
  key_of s i j = Some k0 ->
  key_of (set_key i j k s) i' j' = if decide (i' = i /\ j' = j) then Some k else key_of s i' j'.
Proof.
  unfold key_of, set_key. simpl. intros Hk. rewrite list_lookup_alter. destruct (decide (i = i')) as [<-|Hi].
  - destruct (tables s !! i) as [tb|]; [|done]. simpl in *. destruct (decide (j' = j)) as [->|Hj].
    + rewrite decide_True by done. apply list_lookup_insert_eq. by eapply lookup_lt_Some.
    + rewrite decide_False by naive_solver. by rewrite list_lookup_insert_ne.
  - by rewrite decide_False by naive_solver.
Qed.

Lemma value_set_key s i j k i' j' : value_of (set_key i j k s) i' j' = value_of s i' j'.
Proof.
  unfold value_of, set_key. simpl. rewrite list_lookup_alter. destruct (decide (i = i')) as [<-|Hi]; [|done].
  by destruct (tables s !! i).
Qed.

Lemma cap_set_key s i j k i' : cap_of (set_key i j k s) i' = cap_of s i'.
Proof.
  unfold cap_of, set_key. simpl. rewrite list_lookup_alter. destruct (decide (i = i')) as [<-|Hi]; [|done].
  by destruct (tables s !! i).
Qed.

Lemma tables_set_key s i j k : tables_ok s -> tables_ok (set_key i j k s).
Proof.
  intros [Hl Hf]. split; simpl; [by rewrite length_alter|]. apply Forall_alter; [done|]. intros tb _ (Hk & H1 & H2).
  split; [done|]. simpl. by rewrite length_insert.
Qed.

Lemma set_key_evolves t s i j k0 k :
  key_of s i j = Some k0 ->
  ((k0 = KEmpty \/ k0 = KReusable) /\ k = KId t) \/ (k0 = KId t /\ k = KReusable) ->
  evolves t s (set_key i j k s).
Proof.
  intros Hk Hc. split.
  - simpl. by rewrite length_alter.
  - intros i' _. apply cap_set_key.
  - intros i' j' k' Hk'. rewrite (key_set_key _ _ _ _ _ _ _ Hk). destruct (decide (i' = i /\ j' = j)) as [[-> ->]|]; [|by left].
    rewrite Hk in Hk'. naive_solver.
  - intros i' j' k'. rewrite (key_set_key _ _ _ _ _ _ _ Hk). destruct (decide (i' = i /\ j' = j)) as [[-> ->]|]; eauto.
  - intros. apply value_set_key.
Qed.

Lemma key_set_value s i j v i' j' : key_of (set_value i j v s) i' j' = key_of s i' j'.
Proof.
  unfold key_of, set_value. simpl. rewrite list_lookup_alter. destruct (decide (i = i')) as [<-|Hi]; [|done].
  by destruct (tables s !! i).
Qed.

Lemma cap_set_value s i j v i' : cap_of (set_value i j v s) i' = cap_of s i'.
Proof.
  unfold cap_of, set_value. simpl. rewrite list_lookup_alter. destruct (decide (i = i')) as [<-|Hi]; [|done].
  by destruct (tables s !! i).
Qed.

Lemma value_set_value s i j v i' j' k :
  tables_ok s -> key_of s i j = Some k ->
  value_of (set_value i j v s) i' j' = if decide (i' = i /\ j' = j) then Some v else value_of s i' j'.
Proof.
  intros [_ Hf]. unfold key_of, value_of, set_value. simpl. rewrite list_lookup_alter. intros Hk.
  destruct (decide (i = i')) as [<-|Hi]; [|by rewrite decide_False by naive_solver].
  destruct (tables s !! i) as [tb|] eqn:Htb; [|done]. simpl in *.
  destruct (Forall_lookup_1 _ _ _ _ Hf Htb) as (_ & Hl1 & Hl2). destruct (decide (j' = j)) as [->|Hj].
  - rewrite decide_True by done. apply list_lookup_insert_eq. apply lookup_lt_Some in Hk. lia.
  - rewrite decide_False by naive_solver. by rewrite list_lookup_insert_ne.
Qed.

Lemma tables_set_value s i j v : tables_ok s -> tables_ok (set_value i j v s).
Proof.
  intros [Hl Hf]. split; simpl; [by rewrite length_alter|]. apply Forall_alter; [done|]. intros tb _ (Hk & H1 & H2).
  split; [done|]. simpl. by rewrite length_insert.
Qed.

Lemma set_value_evolves t s i j v :
  tables_ok s -> key_of s i j = Some (KId t) -> evolves t s (set_value i j v s).
Proof.
  intros Hs Hk. split.
  - simpl. by rewrite length_alter.
  - intros i' _. apply cap_set_value.
  - intros i' j' k' Hk'. rewrite key_set_value. by left.
  - intros i' j' k'. rewrite key_set_value. eauto.
  - intros i' j' u Hu Hk'. rewrite (value_set_value _ _ _ _ _ _ _ Hs Hk). rewrite decide_False; [done|].
    intros [-> ->]. congruence.
Qed.

(** The entries of a thread after it has written a key or a value, or a table was added. *)
Lemma insert_entries s t c l i j k0 c' :
  entries_ok s t c l -> l <> None -> free_of s i t -> key_of s i j = Some k0 -> k0 = KEmpty \/ k0 = KReusable ->
  probed s i t j -> storing c = None -> storing c' = Some (i, j) ->
  entries_ok (set_key i j (KId t) s) t c' l.
Proof.
  intros [Hv Hp Hu Hl] Hl0 Hf Hk Hk0 (d & Hd & Hpass) Hst Hst'.
  pose proof (set_key_evolves t s i j k0 (KId t) Hk ltac:(by left)) as Hev.
  pose proof (fun i' j' => key_set_key s i j (KId t) i' j' k0 Hk) as Hkey.
  assert (forall i' d, pos (set_key i j (KId t) s) i' t d = pos s i' t d) as Hpos by (intros; unfold pos; by rewrite cap_set_key).
  split.
  - intros i' j'. rewrite Hkey, value_set_key. destruct (decide (i' = i /\ j' = j)) as [[-> ->]|]; [by split; [|right]|].
    intros Hk'. destruct (Hv _ _ Hk') as [_ [Hval|Hs]]; [by split; [|left]|congruence].
  - intros i' j'. rewrite Hkey. destruct (decide (i' = i /\ j' = j)) as [[-> ->]|].
    + intros _. exists d. rewrite Hpos. split; [done|]. intros d' Hd'. rewrite Hpos.
      destruct (Hpass d' Hd') as (k & Hk' & He & _). by eapply ev_kept.
    + intros Hk'. destruct (Hp _ _ Hk') as (d0 & Hd0 & Hne). exists d0. rewrite Hpos. split; [done|]. intros d' Hd'. rewrite Hpos.
      destruct (Hne d' Hd') as (k & Hk'' & He). by eapply ev_kept.
  - intros i' j1 j2. rewrite !Hkey. destruct (decide (i' = i /\ j1 = j)) as [[H1 H1']|], (decide (i' = i /\ j2 = j)) as [[H2 H2']|]; subst; try done.
    + intros _ H2. by destruct (Hf j2).
    + intros H1. by destruct (Hf j1).
    + by apply Hu.
  - intros _ _. exists i, j. by rewrite Hkey, decide_True.
Qed.

Lemma store_entries s t c l i j c' :
  tables_ok s -> entries_ok s t c l -> l <> None -> key_of s i j = Some (KId t) ->
  storing c = Some (i, j) -> storing c' = None -> entries_ok (set_value i j l s) t c' l.
Proof.
  intros Hs [Hv Hp Hu Hl] Hl0 Hk Hst Hst'.
  assert (forall i' d, pos (set_value i j l s) i' t d = pos s i' t d) as Hpos by (intros; unfold pos; by rewrite cap_set_value).
  split.
  - intros i' j' Hk'. rewrite key_set_value in Hk'. rewrite (value_set_value _ _ _ _ _ _ _ Hs Hk). split; [done|left].
    destruct (decide (i' = i /\ j' = j)) as [|Hne]; [done|]. destruct (Hv _ _ Hk') as [_ [Hval|Hs']]; [done|].
    rewrite Hst in Hs'. injection Hs' as <- <-. by destruct Hne.
  - intros i' j' Hk'. rewrite key_set_value in Hk'. destruct (Hp _ _ Hk') as (d & Hd & Hne). exists d. rewrite Hpos.
    split; [done|]. intros d' Hd'. rewrite Hpos, key_set_value. by apply Hne.
  - intros i' j1 j2. rewrite !key_set_value. apply Hu.
  - intros _ _. exists i, j. by rewrite key_set_value.
Qed.

Lemma remove_entries s t c l i j c' :
  entries_ok s t c l -> key_of s i j = Some (KId t) -> storing c = None -> storing c' = None -> listed c' = false ->
  entries_ok (set_key i j KReusable s) t c' l /\ free_of (set_key i j KReusable s) i t.
Proof.
  intros [Hv Hp Hu Hl] Hk Hst Hst' Hli.
  assert (forall i' j', key_of (set_key i j KReusable s) i' j' = Some (KId t) -> key_of s i' j' = Some (KId t) /\ ~ (i' = i /\ j' = j)) as Hold.
  { intros i' j'. rewrite (key_set_key _ _ _ _ _ _ _ Hk). by destruct (decide _). }
  assert (forall i' d, pos (set_key i j KReusable s) i' t d = pos s i' t d) as Hpos by (intros; unfold pos; by rewrite cap_set_key).
  split; [split|].
  - intros i' j' [Hk' _]%Hold. rewrite value_set_key. destruct (Hv _ _ Hk') as [? [?|?]]; [by split; [|left]|congruence].
  - intros i' j' [Hk' _]%Hold. destruct (Hp _ _ Hk') as (d & Hd & Hne). exists d. rewrite Hpos.
    split; [done|]. intros d' Hd'. destruct (Hne d' Hd') as (k & Hk'' & He). rewrite Hpos, (key_set_key _ _ _ _ _ _ _ Hk).
    destruct (decide _); eauto.
  - intros i' j1 j2 [H1 _]%Hold [H2 _]%Hold. by eapply Hu.
  - congruence.
  - intros j' [Hk' Hne]%Hold. apply Hne. split; [done|]. by eapply Hu.
Qed.

Lemma key_push s cap i j :
  key_of (push_table (empty_table cap) s) i j =
  if decide (i < length (tables s))%nat then key_of s i j
  else if decide (i = length (tables s) /\ (j < Z.to_nat cap)%nat) then Some KEmpty else None.
Proof.
  unfold key_of, push_table. simpl. destruct (decide (i < length (tables s))%nat) as [Hi|Hi]; [by rewrite lookup_app_l|].
  rewrite lookup_app_r by lia. destruct (decide (i = length (tables s))) as [->|Hne].
  - rewrite Nat.sub_diag. simpl. destruct (decide (j < Z.to_nat cap)%nat) as [Hj|Hj].
    + rewrite decide_True by done. by apply lookup_replicate_2.
    + rewrite decide_False by naive_solver. apply lookup_ge_None_2. rewrite length_replicate. lia.
  - rewrite decide_False by naive_solver. destruct (i - length (tables s))%nat as [|n] eqn:E; [lia|]. done.
Qed.

Lemma cap_push s tb i : (i < length (tables s))%nat -> cap_of (push_table tb s) i = cap_of s i.
Proof. intros Hi. unfold cap_of, push_table. simpl. by rewrite lookup_app_l. Qed.

Lemma push_evolves t s cap : evolves t s (push_table (empty_table cap) s).
Proof.
  split.
  - simpl. rewrite length_app. lia.
  - intros i Hi. by apply cap_push.
  - intros i j k Hk. left. rewrite key_push, decide_True; [done|]. by eapply key_of_lt.
  - intros i j k. rewrite key_push. repeat case_decide; naive_solver.
  - intros i j u _ Hk%key_of_lt. unfold value_of, push_table. simpl. by rewrite lookup_app_l.
Qed.

Lemma push_entries s t c l cap c' :
  entries_ok s t c l -> l = None -> entries_ok (push_table (empty_table cap) s) t c' l.
Proof.
  intros [Hv _ _ _] ->.
  assert (forall i j, key_of (push_table (empty_table cap) s) i j <> Some (KId t)) as Hno.
  { intros i j. rewrite key_push. repeat case_decide; try done. intros Hk. by destruct (Hv _ _ Hk). }
  split; try done; intros; by destruct (Hno i j).
Qed.

Lemma grow_capacity_spec fuel n k :
  0 <= n < 2 ^ 59 -> 5 <= k <= 61 -> 61 - k < Z.of_nat fuel ->
  exists k', k <= k' <= 61 /\ grow_capacity fuel n (2 ^ k) = 2 ^ k' /\ n < 2 ^ (k' - 1).
Proof.
  intros Hn. revert k. induction fuel as [|fuel IH]; intros k Hk Hf; [lia|]. cbn [grow_capacity].
  rewrite Z.shiftr_div_pow2 by lia. replace (2 ^ k / 2 ^ 1) with (2 ^ (k - 1)) by (rewrite <- Z.pow_sub_r by lia; done).
  destruct (Z.geb_spec n (2 ^ (k - 1))) as [Hge|Hlt]; [|exists k; split; [lia|done]].
  assert (k - 1 < 59) as Hlt by (apply (Z.pow_lt_mono_r_iff 2); lia).
  rewrite Z.shiftl_mul_pow2 by lia. replace (2 ^ k * 2 ^ 1) with (2 ^ (k + 1)) by (rewrite Z.pow_add_r by lia; done).
  assert (2 ^ (k + 1) <= 2 ^ 61) by (apply Z.pow_le_mono_r; lia).
  rewrite u64_small by (split; [apply Z.pow_nonneg; lia|lia]).
  destruct (IH (k + 1) ltac:(lia) ltac:(lia)) as (k' & Hk' & Hg & Hb). exists k'. split; [lia|done].
Qed.

#[local] Arguments grow_capacity : simpl never.

(** ** Every step keeps the invariant *)

Section Step.
Context (N : nat) s ths (t : nat) (HN : Z.of_nat N < 2 ^ 58).
Hypothesis Hok : tab_ok N s ths.

Definition after s' c' l' : Prop := tab_ok (S N) s' (<[t := (c', l')]> ths).

(** Steps that change neither the sub-queue of the thread nor the state of a sub-queue. *)
Lemma after_kept c l s' c' :
  ths !! t = Some (c, l) -> evolves t s s' -> tables_ok s' -> pc_ok s' t c' l -> entries_ok s' t c' l ->
  inactive s' = inactive s ->
  (exists e : nat, implicitProducerHashCount s' = implicitProducerHashCount s - Z.b2z (inflight c) + Z.b2z (inflight c') + Z.of_nat e) ->
  implicitProducerHashCount s' <= Z.of_nat (S N) ->
  (forall n, counted c' = Some n -> 0 <= n <= Z.of_nat (S N)) ->
  after s' c' l.
Proof.
  intros Ht Hev Hts Hpc Hen Hin (e & He) Hb Hc. eapply (tab_update N s ths t c l); eauto.
  - intros p ->. rewrite Hin. by eapply (tb_active _ _ _ Hok).
  - intros u d p Hu H. rewrite Hin. split; [|by eapply (tb_active _ _ _ Hok)].
    intros ->. by pose proof (tb_inj _ _ _ Hok _ _ _ _ _ H Ht).
  - destruct (tb_count _ _ _ Hok) as (st & Hst). exists (st + e)%nat.
    pose proof (count_pcs ths t c l c' l Ht). destruct (inflight c), (inflight c'); simpl in *; lia.
Qed.

(** Steps that leave the tables alone. *)
Lemma after_same c l s' c' :
  ths !! t = Some (c, l) -> same_tables s s' -> inactive s' = inactive s -> pc_ok s t c' l ->
  storing c' = storing c -> (listed c' = true -> listed c = true) ->
  implicitProducerHashCount s' = implicitProducerHashCount s - Z.b2z (inflight c) + Z.b2z (inflight c') ->
  (forall n, counted c' = Some n -> 0 <= n <= Z.of_nat (S N)) ->
  after s' c' l.
Proof.
  intros Ht Hs Hin Hpc Hst Hli Hcn Hc. pose proof (tb_bound _ _ _ Hok) as Hb.
  assert (pc_ok s' t c' l) as Hpc'.
  { unfold same_tables in Hs.
    destruct c'; simpl in *; unfold probing, probed, passed, absent, free_of, key_of, pos, cap_of in *; by rewrite ?Hs. }
  eapply (after_kept c); eauto using same_tables_evolves.
  - pose proof (tb_tables _ _ _ Hok) as H. unfold tables_ok in *. by rewrite Hs.
  - eapply (same_entries s); [done|by apply (tb_thread _ _ _ Hok _ _ _ Ht)|done|done].
  - exists 0%nat. lia.
  - destruct (inflight c), (inflight c'); simpl in *; lia.
Qed.

Lemma after_local c l c' :
  ths !! t = Some (c, l) -> pc_ok s t c' l -> storing c' = storing c -> (listed c' = true -> listed c = true) ->
  inflight c' = inflight c -> (forall n, counted c' = Some n -> 0 <= n <= Z.of_nat (S N)) -> after s c' l.
Proof. intros Ht Hpc Hst Hli Hi Hc. apply (after_same c l s c'); try done. rewrite Hi. lia. Qed.

Lemma free_beyond i u : (length (tables s) <= i)%nat -> free_of s i u.
Proof. intros Hi j Hj. apply key_of_lt in Hj. lia. Qed.

Lemma main_lt : (main_table s < length (tables s))%nat.
Proof. destruct (tb_tables _ _ _ Hok) as [Hl _]. unfold main_table. lia. Qed.

Lemma count_positive c l : ths !! t = Some (c, l) -> inflight c = true -> 1 <= implicitProducerHashCount s.
Proof.
  intros Ht Hi. destruct (tb_count _ _ _ Hok) as (st & ->). pose proof (count_pcs ths t c l TDead l Ht) as Hc.
  rewrite Hi in Hc. simpl in Hc. lia.
Qed.

Lemma decrement c l c' :
  ths !! t = Some (c, l) -> inflight c = true -> inflight c' = false -> pc_ok s t c' l ->
  storing c' = storing c -> (listed c' = true -> listed c = true) -> counted c' = None ->
  after (set_count (u64 (implicitProducerHashCount s - 1)) s) c' l.
Proof.
  intros Ht Hi Hi' Hpc Hst Hli Hc. pose proof (count_positive c l Ht Hi). pose proof (tb_bound _ _ _ Hok).
  apply (after_same c l); try done; [|by rewrite Hc].
  simpl. rewrite Hi, Hi'. rewrite u64_small by lia. simpl. lia.
Qed.

(** The step of a thread at [c]. *)
Definition steps_well (mem : bool) c l : Prop :=
  let '(s', c', l') := table_step (hashed t) mem t s c l in after s' c' l'.

Lemma step_probe mem main hash index l :
  ths !! t = Some (TProbe main hash index, l) -> steps_well mem (TProbe main hash index) l.
Proof.
  intros Ht. destruct (tb_thread _ _ _ Hok _ _ _ Ht) as [(Hm & Hf & Hpr) Hen].
  pose proof (tb_tables _ _ _ Hok) as Hts. unfold steps_well. cbn [table_step recycle_or_create_step get_or_add_step exit_step].
  destruct (probing_probed s hash t index Hts ltac:(lia) Hpr) as [Hpd [k Hk]]. rewrite Hk.
  assert (k = KEmpty -> after s (next_hash (hashed t) main hash) l) as Hempty.
  { intros ->. pose proof (probed_stop _ _ _ _ _ _ Hpd Hk Hen) as Hfree.
    destruct hash as [|h]; simpl.
    - apply (after_local _ _ _ Ht); try done. split; [lia|]. destruct l as [p|]; [|done]. exfalso.
      destruct (en_listed _ _ _ _ Hen) as (i & j & Hij); [done|done|].
      destruct i as [|i]; [by apply (Hfree j)|]. by apply (Hf (S i) ltac:(lia) j).
    - apply (after_local _ _ _ Ht); try done. split; [lia|]. split; [|apply probing_start].
      intros i Hi. destruct (decide (i = S h)) as [->|]; [done|]. apply Hf. lia. }
  assert (k <> KEmpty -> k <> KId t -> after s (TProbe main hash (Z.of_nat (masked s hash index) + 1)) l) as Hnext.
  { intros He Hn. apply (after_local _ _ _ Ht); try done. split; [done|]. split; [done|].
    eapply probed_next; [done|lia|done..]. }
  destruct k as [| |u]; [by apply Hempty|by apply Hnext|]. case_decide as Hu; [|apply Hnext; congruence].
  subst u. by apply (after_local _ _ _ Ht).
Qed.

Lemma step_value mem main hash j l :
  ths !! t = Some (TValue main hash j, l) -> steps_well mem (TValue main hash j) l.
Proof.
  intros Ht. destruct (tb_thread _ _ _ Hok _ _ _ Ht) as [(Hm & Hf & Hk) Hen]. unfold steps_well. cbn [table_step recycle_or_create_step get_or_add_step exit_step].
  destruct (en_value _ _ _ _ Hen _ _ Hk) as [Hl [Hv|?]]; [|done]. rewrite Hv. simpl.
  case_decide as Hmain; [by apply (after_local _ _ _ Ht)|]. apply (after_local _ _ _ Ht); try done.
  split; [lia|]. do 2 (split; [done|]). split; [apply Hf; lia|apply probing_start].
Qed.

(** A key is written at a place found by probing. *)
Lemma step_insert c l i j k0 c' :
  ths !! t = Some (c, l) -> l <> None -> free_of s i t -> key_of s i j = Some k0 -> k0 = KEmpty \/ k0 = KReusable ->
  probed s i t j -> storing c = None -> storing c' = Some (i, j) -> counted c' = None ->
  pc_ok (set_key i j (KId t) s) t c' l -> (inflight c' = inflight c \/ inflight c = true /\ inflight c' = false) ->
  after (set_key i j (KId t) s) c' l.
Proof.
  intros Ht Hl Hf Hk Hk0 Hp Hst Hst' Hc Hpc Hi. destruct (tb_thread _ _ _ Hok _ _ _ Ht) as [_ Hen].
  pose proof (tb_bound _ _ _ Hok). eapply (after_kept c); eauto.
  - eapply set_key_evolves; [done|by left].
  - apply tables_set_key, (tb_tables _ _ _ Hok).
  - by eapply insert_entries.
  - destruct Hi as [-> |[-> ->]]; [exists 0%nat|exists 1%nat]; simpl; lia.
  - simpl. lia.
  - by rewrite Hc.
Qed.

Lemma key_written i j k0 : key_of s i j = Some k0 -> key_of (set_key i j (KId t) s) i j = Some (KId t).
Proof. intros Hk. by rewrite (key_set_key _ _ _ _ _ _ _ Hk), decide_True. Qed.

Lemma step_move_empty mem main index v l :
  ths !! t = Some (TMoveE main index v, l) -> steps_well mem (TMoveE main index v) l.
Proof.
  intros Ht. destruct (tb_thread _ _ _ Hok _ _ _ Ht) as [(Hm & Hv & Hl & Hf & Hpr) Hen].
  pose proof (tb_tables _ _ _ Hok) as Hts. unfold steps_well. cbn [table_step recycle_or_create_step get_or_add_step exit_step].
  destruct (probing_probed s main t index Hts Hm Hpr) as [Hpd [k Hk]]. case_decide as He.
  - eapply (step_insert _ _ _ _ KEmpty); eauto. simpl. do 2 (split; [done|]). by eapply key_written.
  - apply (after_local _ _ _ Ht); try done. do 5 (split; [done|]). exists k. split; [done|]. split; [congruence|].
    intros ->. by apply (Hf (masked s main index)).
Qed.

Lemma step_move_reusable mem main j v l :
  ths !! t = Some (TMoveR main j v, l) -> steps_well mem (TMoveR main j v) l.
Proof.
  intros Ht. destruct (tb_thread _ _ _ Hok _ _ _ Ht) as [(Hm & Hv & Hl & Hf & Hpd & k & Hk & He & Hn) Hen].
  pose proof (tb_tables _ _ _ Hok) as Hts. unfold steps_well. cbn [table_step recycle_or_create_step get_or_add_step exit_step]. case_decide as Hr.
  - eapply (step_insert _ _ _ _ KReusable); eauto. simpl. do 2 (split; [done|]). by eapply key_written.
  - apply (after_local _ _ _ Ht); try done. do 4 (split; [done|]). by eapply probed_next.
Qed.

(** The value of the entry is stored and the call returns. *)
Lemma step_store c l i j :
  ths !! t = Some (c, l) -> l <> None -> key_of s i j = Some (KId t) -> storing c = Some (i, j) -> inflight c = false ->
  after (set_value i j l s) (TRet l) l.
Proof.
  intros Ht Hl Hk Hst Hi. destruct (tb_thread _ _ _ Hok _ _ _ Ht) as [_ Hen]. pose proof (tb_tables _ _ _ Hok) as Hts.
  pose proof (tb_bound _ _ _ Hok). eapply (after_kept c); eauto.
  - by apply set_value_evolves.
  - by apply tables_set_value.
  - done.
  - by eapply store_entries.
  - exists 0%nat. rewrite Hi. simpl. lia.
  - simpl. lia.
  - done.
Qed.

Lemma step_insert_reusable mem main index p l :
  ths !! t = Some (TInsertR main index p, l) -> steps_well mem (TInsertR main index p) l.
Proof.
  intros Ht. destruct (tb_thread _ _ _ Hok _ _ _ Ht) as [(Hm & Hl & Ha & Hpr) Hen].
  pose proof (tb_tables _ _ _ Hok) as Hts. unfold steps_well. cbn [table_step recycle_or_create_step get_or_add_step exit_step].
  destruct (probing_probed s main t index Hts Hm Hpr) as [Hpd [k Hk]]. case_decide as He.
  - eapply (step_insert _ _ _ _ KReusable); eauto; [congruence|]. split; [done|]. by eapply key_written.
  - by apply (after_local _ _ _ Ht).
Qed.

Lemma step_insert_empty mem main j p l :
  ths !! t = Some (TInsertE main j p, l) -> steps_well mem (TInsertE main j p) l.
Proof.
  intros Ht. destruct (tb_thread _ _ _ Hok _ _ _ Ht) as [(Hm & Hl & Ha & Hpd) Hen].
  pose proof (tb_tables _ _ _ Hok) as Hts. unfold steps_well. cbn [table_step recycle_or_create_step get_or_add_step exit_step]. case_decide as He.
  - eapply (step_insert _ _ _ _ KEmpty); eauto; [congruence|]. split; [done|]. by eapply key_written.
  - apply (after_local _ _ _ Ht); try done. do 3 (split; [done|]).
    assert (exists k, key_of s main j = Some k) as [k Hk].
    { destruct Hpd as (d & -> & _). apply key_in; [done|done|]. apply Z.mod_pos_bound.
      pose proof (cap_range s main Hts Hm). lia. }
    eapply probed_next; [done|done|done|exact Hk|congruence|]. intros ->. by apply (Ha main j).
Qed.

Lemma step_exit_probe mem p hash index l :
  ths !! t = Some (XProbe p hash index, l) -> steps_well mem (XProbe p hash index) l.
Proof.
  intros Ht. destruct (tb_thread _ _ _ Hok _ _ _ Ht) as [(Hl & Hm & Hf & Hpr) Hen].
  pose proof (tb_tables _ _ _ Hok) as Hts. unfold steps_well. cbn [table_step recycle_or_create_step get_or_add_step exit_step]. pose proof (tb_bound _ _ _ Hok).
  destruct (probing_probed s hash t index Hts Hm Hpr) as [Hpd [k Hk]]. rewrite Hk.
  assert (forall s', (length (tables s) <= length (tables s'))%nat -> (forall i, (hash <= i)%nat -> free_of s' i t) ->
    pc_ok s' t (next_exit (hashed t) p hash) l) as Hpc.
  { intros s' Hlen Hfree. destruct hash as [|h]; simpl; [split; [done|]; intros i; apply Hfree; lia|].
    split; [done|]. split; [lia|]. split; [intros i Hi; apply Hfree; lia|apply probing_start]. }
  assert (inflight (next_exit (hashed t) p hash) = false /\ counted (next_exit (hashed t) p hash) = None /\
    storing (next_exit (hashed t) p hash) = None /\ listed (next_exit (hashed t) p hash) = false) as (Hi & Hc & Hs & Hli)
    by (by destruct hash).
  destruct k as [| |u].
  - pose proof (probed_stop _ _ _ _ _ _ Hpd Hk Hen) as Hfree. apply (after_local _ _ _ Ht); rewrite ?Hs, ?Hli, ?Hi, ?Hc; try done.
    apply Hpc; [done|]. intros i Hi'. destruct (decide (i = hash)) as [->|]; [done|]. apply Hf. lia.
  - apply (after_local _ _ _ Ht); try done. do 3 (split; [done|]). by eapply probed_next.
  - case_decide as Hu; [subst u|].
    + destruct (remove_entries s t _ l hash _ (next_exit (hashed t) p hash) Hen Hk eq_refl Hs Hli) as [Hen' Hfree].
      pose proof (set_key_evolves t s hash _ _ KReusable Hk ltac:(by right)) as Hev.
      eapply (after_kept (XProbe p hash index)); eauto.
      * by apply tables_set_key.
      * apply Hpc; [simpl; by rewrite length_alter|]. intros i Hi'. destruct (decide (i = hash)) as [->|Hne]; [done|].
        intros j. rewrite (key_set_key _ _ _ _ _ _ _ Hk), decide_False by naive_solver. apply Hf. lia.
      * exists 0%nat. rewrite Hi. simpl. lia.
      * simpl. lia.
      * by rewrite Hc.
    + apply (after_local _ _ _ Ht); try done. do 3 (split; [done|]). eapply probed_next; [done|done|done|done|done|congruence].
Qed.

(** A thread without entries takes or leaves a sub-queue. *)
Lemma absent_entries s' c' l' : absent s' t -> (l' = None \/ listed c' = false) -> entries_ok s' t c' l'.
Proof. intros Ha Hl. split; [| | |intros ? ?; destruct Hl; congruence];
    intros i; intros; exfalso; by eapply (Ha i). Qed.

Lemma no_subqueue_absent c : ths !! t = Some (c, None) -> absent s t.
Proof.
  intros Ht i j Hk. destruct (tb_thread _ _ _ Hok _ _ _ Ht) as [_ Hen]. by destruct (en_value _ _ _ _ Hen _ _ Hk).
Qed.

Lemma step_take main c ptr flags :
  ths !! t = Some (c, None) -> inflight c = true -> (main < length (tables s))%nat ->
  flags !! ptr = Some false ->
  (forall p, inactive s !! p = Some false -> p <> ptr /\ flags !! p = Some false) ->
  after (set_inactive flags s) (TInsertR main (hashed t) ptr) (Some ptr).
Proof.
  intros Ht Hi Hm Hptr Hfl. pose proof (no_subqueue_absent c Ht) as Ha. pose proof (tb_bound _ _ _ Hok).
  assert (absent (set_inactive flags s) t) as Ha' by exact Ha.
  eapply (tab_update N s ths t c None); eauto.
  - by apply same_tables_evolves.
  - apply (tb_tables _ _ _ Hok).
  - do 3 (split; [done|]). apply probing_start.
  - apply absent_entries; [done|by right].
  - intros p [= <-]. done.
  - intros u d p Hu H'. destruct (Hfl p (tb_active _ _ _ Hok _ _ _ H')). split; [congruence|done].
  - destruct (tb_count _ _ _ Hok) as (st & Hst). exists st.
    pose proof (count_pcs ths t c None (TInsertR main (hashed t) ptr) (Some ptr) Ht) as Hc. rewrite Hi in Hc. simpl in *. lia.
  - simpl. lia.
  - done.
Qed.

Lemma step_catch mem main ptr l : ths !! t = Some (TCatch main ptr, l) -> steps_well mem (TCatch main ptr) l.
Proof.
  intros Ht. destruct (tb_thread _ _ _ Hok _ _ _ Ht) as [[Hm ->] _]. unfold steps_well. cbn [table_step recycle_or_create_step get_or_add_step exit_step].
  assert (after s (next_producer main ptr) None) as Hnext by (destruct ptr; by apply (after_local _ _ _ Ht)).
  destruct (inactive s !! ptr) as [[]|] eqn:E; [|done|done].
  apply (step_take _ (TCatch main ptr)); try done.
  - apply list_lookup_insert_eq. by eapply lookup_lt_Some.
  - intros p Hp. assert (p <> ptr) by congruence. split; [done|]. by rewrite list_lookup_insert_ne.
Qed.

Lemma step_create mem main l : ths !! t = Some (TCreate main, l) -> steps_well mem (TCreate main) l.
Proof.
  intros Ht. destruct (tb_thread _ _ _ Hok _ _ _ Ht) as [[Hm ->] _]. unfold steps_well. cbn [table_step recycle_or_create_step get_or_add_step exit_step].
  destruct mem; [|by apply (after_local _ _ _ Ht)]. apply (step_take _ (TCreate main)); try done.
  - by apply list_lookup_middle.
  - intros p Hp. pose proof (lookup_lt_Some _ _ _ Hp). split; [lia|]. by apply lookup_app_l_Some.
Qed.

Lemma step_leave mem p l : ths !! t = Some (XInactive p, l) -> steps_well mem (XInactive p) l.
Proof.
  intros Ht. destruct (tb_thread _ _ _ Hok _ _ _ Ht) as [[-> Ha] _]. unfold steps_well. cbn [table_step recycle_or_create_step get_or_add_step exit_step].
  pose proof (tb_bound _ _ _ Hok). set (s' := set_inactive _ s).
  assert (absent s' t) as Ha' by exact Ha. eapply (tab_update N s ths t); eauto.
  - by apply same_tables_evolves.
  - apply (tb_tables _ _ _ Hok).
  - done.
  - apply absent_entries; [done|by left].
  - done.
  - intros u d q Hu H0. split; [done|]. simpl. rewrite list_lookup_insert_ne; [by eapply (tb_active _ _ _ Hok)|].
    intros ->. by pose proof (tb_inj _ _ _ Hok _ _ _ _ _ H0 Ht).
  - destruct (tb_count _ _ _ Hok) as (st & Hst). exists st.
    pose proof (count_pcs ths t _ _ TDead None Ht) as Hc. simpl in *. lia.
  - simpl. lia.
  - done.
Qed.

(** After the resize. *)
Lemma room_ok c main n :
  ths !! t = Some (c, None) -> counted c = Some n -> (main < length (tables s))%nat ->
  pc_ok s t (room s main n) None /\ inflight (room s main n) = true /\ storing (room s main n) = None /\
  (forall n', counted (room s main n) = Some n' -> 0 <= n' <= Z.of_nat (S N)).
Proof.
  intros Ht Hc Hm. pose proof (tb_counted _ _ _ Hok _ _ _ _ Ht Hc).
  unfold room. case_match; repeat match goal with |- _ /\ _ => split end; try done. intros n' [= <-]. lia.
Qed.

Lemma step_count mem main l : ths !! t = Some (TCount main, l) -> steps_well mem (TCount main) l.
Proof.
  intros Ht. destruct (tb_thread _ _ _ Hok _ _ _ Ht) as [[Hm ->] _]. unfold steps_well. cbn [table_step recycle_or_create_step get_or_add_step exit_step].
  pose proof (tb_bound _ _ _ Hok). destruct (tb_count _ _ _ Hok) as (st & Hst).
  assert (u64 (implicitProducerHashCount s + 1) = implicitProducerHashCount s + 1) as Hu by (apply u64_small; lia).
  rewrite Hu. apply (after_same _ _ _ _ Ht); try done; [simpl; lia|]. intros n [= <-]. lia.
Qed.

Lemma step_lock mem main n l : ths !! t = Some (TLock main n, l) -> steps_well mem (TLock main n) l.
Proof.
  intros Ht. destruct (tb_thread _ _ _ Hok _ _ _ Ht) as [[Hm ->] _]. unfold steps_well. cbn [table_step recycle_or_create_step get_or_add_step exit_step].
  destruct (room_ok _ main n Ht eq_refl Hm) as (Hpc & Hi & Hs & Hc).
  assert (after s (room s main n) None) as Hroom by (apply (after_local _ _ _ Ht); rewrite ?Hs, ?Hi; done).
  pose proof (tb_counted _ _ _ Hok _ _ _ _ Ht eq_refl).
  destruct (_ >=? _); [|done]. destruct (implicitProducerHashResizeInProgress s); [done|].
  apply (after_same _ _ _ _ Ht); try done; [simpl; lia|]. intros n' [= <-]. lia.
Qed.

Lemma step_grow mem main n l : ths !! t = Some (TGrow main n, l) -> steps_well mem (TGrow main n) l.
Proof.
  intros Ht. destruct (tb_thread _ _ _ Hok _ _ _ Ht) as [[Hm ->] Hen]. unfold steps_well. cbn [table_step recycle_or_create_step get_or_add_step exit_step].
  pose proof (tb_counted _ _ _ Hok _ _ _ _ Ht eq_refl) as Hn. pose proof (tb_tables _ _ _ Hok) as [Hlen Hts].
  pose proof (tb_bound _ _ _ Hok).
  destruct (cap_pow s main ltac:(done) Hm) as (k & Hk & Hcap). rewrite Hcap, Z.shiftr_div_pow2, Z.shiftl_mul_pow2 by lia.
  replace (2 ^ k / 2 ^ 1) with (2 ^ (k - 1)) by (rewrite <- Z.pow_sub_r by lia; done).
  replace (2 ^ k * 2 ^ 1) with (2 ^ (k + 1)) by (rewrite Z.pow_add_r by lia; done).
  destruct (Z.geb_spec n (2 ^ (k - 1))) as [Hge|_].
  2: { apply (after_local _ _ _ Ht); try done. intros n' [= <-]. lia. }
  destruct mem; [|by apply (after_local _ _ _ Ht)].
  assert (k - 1 < 58) as Hk58 by (apply (Z.pow_lt_mono_r_iff 2); lia).
  assert (2 ^ (k + 1) <= 2 ^ 61) by (apply Z.pow_le_mono_r; lia).
  rewrite u64_small by (split; [apply Z.pow_nonneg; lia|lia]).
  destruct (grow_capacity_spec 64 n (k + 1) ltac:(lia) ltac:(lia) ltac:(lia)) as (k' & Hk' & -> & Hfit).
  apply (after_kept _ _ _ _ Ht); try done.
  - apply push_evolves.
  - split; [simpl; rewrite length_app; lia|]. apply Forall_app_2; [done|]. apply Forall_singleton.
    split; [exists k'; split; [lia|done]|]. simpl. rewrite !length_replicate.
    pose proof (Z.pow_nonneg 2 k'). lia.
  - simpl. rewrite length_app. simpl. split; [lia|done].
  - by eapply push_entries.
  - exists 0%nat. simpl. lia.
  - simpl. lia.
  - intros n' [= <-]. lia.
Qed.

Lemma step_unlock mem main n l : ths !! t = Some (TUnlock main n, l) -> steps_well mem (TUnlock main n) l.
Proof.
  intros Ht. destruct (tb_thread _ _ _ Hok _ _ _ Ht) as [[Hm ->] _]. unfold steps_well. cbn [table_step recycle_or_create_step get_or_add_step exit_step].
  destruct (room_ok _ main n Ht eq_refl Hm) as (Hpc & Hi & Hs & Hc).
  apply (after_same _ _ _ _ Ht); rewrite ?Hs, ?Hi; try done. simpl. lia.
Qed.

(** Every step of a running thread. *)
Lemma run_ok mem c l : ths !! t = Some (c, l) -> stopped_pc c = false -> steps_well mem c l.
Proof.
  intros Ht Hc. pose proof (proj1 (tb_thread _ _ _ Hok _ _ _ Ht)) as Hpc. pose proof main_lt as Hmain.
  destruct c; try done; eauto using step_probe, step_value, step_move_empty, step_move_reusable, step_catch, step_create,
    step_leave, step_count, step_lock, step_grow, step_unlock, step_insert_reusable, step_insert_empty, step_exit_probe;
    unfold steps_well; cbn [table_step recycle_or_create_step get_or_add_step exit_step]; simpl in Hpc.
  - (* TLoad *) apply (after_local _ _ _ Ht); try done. split; [lia|]. split; [|apply probing_start].
    intros i Hi. apply free_beyond. unfold main_table in Hi. lia.
  - (* TMoveV *) destruct Hpc as (-> & Hl & Hk). by apply (step_store _ _ _ _ Ht).
  - (* TReload *) apply (after_local _ _ _ Ht); try done. intros n [= <-].
    pose proof (tb_counted _ _ _ Hok _ _ _ _ Ht eq_refl). lia.
  - (* TNoMemory *) by apply (decrement _ _ _ Ht).
  - (* TNoMemoryUnlock *) apply (after_same _ _ _ _ Ht); try done; simpl; lia.
  - (* TWait *) apply (after_local _ _ _ Ht); try done. intros n [= <-].
    pose proof (tb_counted _ _ _ Hok _ _ _ _ Ht eq_refl). lia.
  - (* TList *) destruct (length (inactive s)); by apply (after_local _ _ _ Ht).
  - (* TScan *) destruct (inactive s !! ptr) as [[]|]; [by apply (after_local _ _ _ Ht)| |];
      destruct ptr; by apply (after_local _ _ _ Ht).
  - (* TNoProducer *) by apply (decrement _ _ _ Ht).
  - (* TInsertSub *) by apply (decrement _ _ _ Ht).
  - (* TInsertV *) destruct Hpc as (Hl & Hk). rewrite <- Hl. apply (step_store _ _ _ _ Ht); try done. by rewrite Hl.
  - (* XLoad *) apply (after_local _ _ _ Ht); try done. split; [done|]. split; [done|]. split; [|apply probing_start].
    intros i Hi. apply free_beyond. unfold main_table in Hi. lia.
Qed.

Lemma stopped_ok c l c' :
  ths !! t = Some (c, l) -> stopped_pc c = true -> storing c' = None -> inflight c' = false -> counted c' = None ->
  pc_ok s t c' l -> after s c' l.
Proof. intros Ht Hc Hs Hi Hn Hpc. apply (after_local _ _ _ Ht); rewrite ?Hs, ?Hi, ?Hn; by destruct c. Qed.

End Step.

Lemma tab_step_ok N sys sys' :
  Z.of_nat N < 2 ^ 58 -> tab_ok N (ptab sys) (tthreads sys) -> tab_step hashed sys sys' ->
  tab_ok (S N) (ptab sys') (tthreads sys').
Proof.
  intros HN Hok Hstep. destruct Hstep as [s ths t l Ht|s ths t c l Ht Hc|s ths t c l Ht Hc|s ths t c l mem s' c' l' Ht Hc Heq]; simpl in *.
  - destruct (tb_thread _ _ _ Hok _ _ _ Ht) as [Hpc _]. by apply (stopped_ok N s ths t Hok TDead).
  - apply (stopped_ok N s ths t Hok c); try done. by destruct c.
  - apply (stopped_ok N s ths t Hok c); try done; [by destruct c|by destruct l..].
  - pose proof (run_ok N s ths t HN Hok mem c l Ht Hc) as H. unfold steps_well in H. by rewrite Heq in H.
Qed.

Lemma tab_init_ok k : tab_ok 0 (ptab (tab_init k)) (tthreads (tab_init k)).
Proof.
  assert (forall i j, key_of (ptab (tab_init k)) i j = Some KEmpty \/ key_of (ptab (tab_init k)) i j = None) as Hkey.
  { intros i j. destruct i as [|i]; [|by right]. unfold key_of, empty_table. simpl.
    destruct (_ !! j) eqn:E; [|by right]. apply (lookup_replicate 32) in E as [-> _]. by left. }
  assert (forall t c l, tthreads (tab_init k) !! t = Some (c, l) -> c = TDead /\ l = None) as Hth.
  { intros t c l H. apply lookup_replicate in H as [H _]. by simplify_eq. }
  split.
  - split; [simpl; lia|]. apply Forall_singleton. split; [by exists 5|done].
  - intros t c l [-> ->]%Hth. split; [done|]. apply absent_entries; [|by left]. intros i j. destruct (Hkey i j); congruence.
  - intros i j t H. destruct (Hkey i j); congruence.
  - intros t u c d p [_ ?]%Hth. done.
  - intros t c p [_ ?]%Hth. done.
  - exists 0%nat. simpl. clear. by induction k.
  - done.
  - intros t c l n [-> _]%Hth. done.
Qed.

Lemma tab_steps_ok N k sys :
  Z.of_nat N < 2 ^ 58 -> tab_steps hashed N (tab_init k) sys -> tab_ok N (ptab sys) (tthreads sys).
Proof.
  intros HN Hs. remember (tab_init k) as s0. induction Hs as [s|n s1 s2 s3 Hs IH Hstep]; subst; [apply tab_init_ok|].
  eapply tab_step_ok; [|by apply IH; [lia|]|done]. lia.
Qed.

(** A thread keeps its sub-queue until it has exited. *)
Lemma keeps_subqueue N sys sys' t c p c' l' :
  tab_ok N (ptab sys) (tthreads sys) -> tab_step hashed sys sys' ->
  tthreads sys !! t = Some (c, Some p) -> tthreads sys' !! t = Some (c', l') ->
  l' = Some p \/ c = XInactive p /\ c' = TDead /\ l' = None.
Proof.
  intros Hok Hstep Ht Ht'. pose proof (proj1 (tb_thread _ _ _ Hok _ _ _ Ht)) as Hpc.
  assert (forall ths u x, ths !! u = Some (c, Some p) -> <[u := x]> ths !! u = Some (c', l') -> (c', l') = x) as Hins.
  { intros ths u x Hu. rewrite list_lookup_insert_eq by (by eapply lookup_lt_Some). congruence. }
  destruct Hstep as [s ths u l Hu|s ths u d l Hu Hd|s ths u d l Hu Hd|s ths u d l mem s' d' l1 Hu Hd Heq]; simpl in *;
    (destruct (decide (u = t)) as [->|Hne]; [|rewrite list_lookup_insert_ne in Ht' by done; left; congruence]);
    rewrite Ht in Hu; injection Hu as <- <-; apply (Hins _ _ _ Ht) in Ht'; [left; congruence..|].
  injection Ht' as -> ->. destruct c; simpl in Heq, Hpc; repeat case_match; simplify_eq; try (by left);
    (repeat match goal with H : _ /\ _ |- _ => destruct H end); simplify_eq; by right.
Qed.

End Table.

#[local] Arguments grow_capacity : simpl never.

(** ** The lock of the resize *)

Definition holding (c : tpc) : bool :=
  match c with TReload _ | TGrow _ _ | TUnlock _ _ | TNoMemory | TNoMemoryUnlock => true | _ => false end.

Record lock_ok (sys : table_sys) : Prop := {
  lk_flag t c l : tthreads sys !! t = Some (c, l) -> holding c = true ->
    implicitProducerHashResizeInProgress (ptab sys) = true;
  lk_one t u c d l m : tthreads sys !! t = Some (c, l) -> tthreads sys !! u = Some (d, m) ->
    holding c = true -> holding d = true -> t = u;
  lk_main t main n l : tthreads sys !! t = Some (TGrow main n, l) -> main = main_table (ptab sys) }.

Lemma table_step_lock h mem t s c l s' c' l' :
  table_step h mem t s c l = (s', c', l') ->
  (holding c' = true -> holding c = true \/ implicitProducerHashResizeInProgress s = false) /\
  (holding c' = true -> implicitProducerHashResizeInProgress s = holding c -> implicitProducerHashResizeInProgress s' = true) /\
  (holding c = false -> implicitProducerHashResizeInProgress s = true -> implicitProducerHashResizeInProgress s' = true) /\
  (holding c = false -> length (tables s') = length (tables s)) /\
  (forall main n, c' = TGrow main n -> main = main_table s').
Proof.
  destruct c; simpl; intros Heq; unfold room, next_hash, next_producer, next_exit in *; repeat case_match; simplify_eq;
    simpl; rewrite ?length_alter; repeat match goal with |- _ /\ _ => split end; try done; try (by left); try (by right);
    congruence.
Qed.

Lemma lock_step hashed sys sys' : lock_ok sys -> tab_step hashed sys sys' -> lock_ok sys'.
Proof.
  intros [Hflag Hone Hmain] Hstep.
  assert (forall t c l c' l', tthreads sys !! t = Some (c, l) -> holding c' = false ->
    lock_ok (mkTableSys (ptab sys) (<[t := (c', l')]> (tthreads sys)))) as Hrest.
  { intros t c l c' l' Ht Hc'.
    assert (forall u d m, <[t := (c', l')]> (tthreads sys) !! u = Some (d, m) -> holding d = true ->
      tthreads sys !! u = Some (d, m)) as Hold.
    { intros u d m [(-> & [= -> ->] & _)|[_ H]]%list_lookup_insert_Some Hd; [congruence|done]. }
    split; simpl; [eauto|eauto|]. intros u main n m H. apply Hold in H; [|done]. eauto. }
  destruct Hstep as [s ths t l Ht|s ths t c l Ht Hc|s ths t c l Ht Hc|s ths t c l mem s' c' l' Ht Hc Heq]; simpl in *.
  1-3: by eapply Hrest; [done|]; repeat case_match.
  destruct (table_step_lock _ _ _ _ _ _ _ _ _ Heq) as (H1 & H2 & H3 & H4 & H5).
  assert (forall u d m, <[t := (c', l')]> ths !! u = Some (d, m) -> u = t /\ d = c' \/ u <> t /\ ths !! u = Some (d, m)) as Hcase.
  { intros u d m [(-> & [= -> ->] & _)|[? H]]%list_lookup_insert_Some; [by left|right]. by split. }
  assert (forall u d m, u <> t -> ths !! u = Some (d, m) -> holding d = true ->
    holding c = false /\ implicitProducerHashResizeInProgress s = true) as Hother.
  { intros u d m Hne Hu Hd. split; [|by eapply Hflag]. destruct (holding c) eqn:E; [|done]. by destruct Hne; eapply Hone. }
  split; simpl.
  - intros u d m [[-> ->]|[Hne Hu]]%Hcase Hd.
    + apply H2; [done|]. destruct (H1 Hd) as [Hh|Hf]; [rewrite Hh; by eapply Hflag|].
      destruct (holding c) eqn:E; [|done]. by rewrite <- (Hflag _ _ _ Ht E).
    + destruct (Hother u d m) as [Hh Hr]; [done..|]. by apply H3.
  - intros u v d e m m' [[-> ->]|[Hne Hu]]%Hcase [[-> ->]|[Hne' Hv]]%Hcase Hd He; [done|..].
    + destruct (Hother v e m') as [Hh Hr]; [done..|]. destruct (H1 Hd); congruence.
    + destruct (Hother u d m) as [Hh Hr]; [done..|]. destruct (H1 He); congruence.
    + by eapply Hone.
  - intros u main n m [[-> E]|[Hne Hu]]%Hcase; [by eapply H5|].
    destruct (Hother u (TGrow main n) m) as [Hh _]; [done..|]. unfold main_table. rewrite H4 by done. by eapply Hmain.
Qed.

Lemma lock_steps hashed n k sys : tab_steps hashed n (tab_init k) sys -> lock_ok sys.
Proof.
  intros Hs. remember (tab_init k) as s0. induction Hs as [s|n s1 s2 s3 Hs IH Hstep]; subst; [|by eapply lock_step; eauto].
  split; simpl.
  - by intros t c l [[= -> _] _]%lookup_replicate.
  - by intros t u c d l m [[= -> _] _]%lookup_replicate.
  - by intros t main n l [? _]%lookup_replicate.
Qed.

(** ** Runs *)

Inductive tab_event := EStart (t : nat) | ECall (t : nat) | EExit (t : nat) | ERun (t : nat) (mem : bool).

Definition tab_do (hashed : nat -> Z) (e : tab_event) (sys : table_sys) : option table_sys :=
  let '(mkTableSys s ths) := sys in
  match e with
  | EStart t =>
      match ths !! t with Some (TDead, l) => Some (mkTableSys s (<[t := (TIdle, l)]> ths)) | _ => None end
  | ECall t =>
      '(c, l) ← ths !! t; if resting_pc c then Some (mkTableSys s (<[t := (TLoad, l)]> ths)) else None
  | EExit t =>
      '(c, l) ← ths !! t;
      if resting_pc c
      then Some (mkTableSys s (<[t := (match l with None => TDead | Some p => XLoad p end, l)]> ths)) else None
  | ERun t mem =>
      '(c, l) ← ths !! t;
      if stopped_pc c then None
      else let '(s', c', l') := table_step (hashed t) mem t s c l in Some (mkTableSys s' (<[t := (c', l')]> ths))
  end.

Fixpoint tab_exec (hashed : nat -> Z) (es : list tab_event) (sys : table_sys) : option table_sys :=
  match es with [] => Some sys | e :: es => tab_do hashed e sys ≫= tab_exec hashed es end.

Lemma tab_do_step hashed e sys sys' : tab_do hashed e sys = Some sys' -> tab_step hashed sys sys'.
Proof.
  destruct sys as [s ths]. intros H.
  destruct e as [t|t|t|t mem]; simpl in H; destruct (ths !! t) as [[c l]|] eqn:Ht; simpl in H; try done.
  - destruct c; simplify_eq. by apply tab_start.
  - destruct (resting_pc c) eqn:Hc; simplify_eq. by eapply tab_call.
  - destruct (resting_pc c) eqn:Hc; simplify_eq. by eapply tab_exit.
  - destruct (stopped_pc c) eqn:Hc; [done|]. destruct (table_step _ _ _ _ _ _) as [[s' c'] l'] eqn:E. simplify_eq.
    by eapply tab_run.
Qed.

Lemma tab_exec_steps hashed es n s0 sys sys' :
  tab_steps hashed n s0 sys -> tab_exec hashed es sys = Some sys' -> tab_steps hashed (n + length es) s0 sys'.
Proof.
  revert n sys. induction es as [|e es IH]; intros n sys Hs He; simpl in *.
  - simplify_eq. by rewrite Nat.add_0_r.
  - apply bind_Some in He as (sys1 & H1 & H2). rewrite <- Nat.add_succ_comm. eapply IH; [|done].
    eapply tab_steps_snoc; [done|]. by eapply tab_do_step.
Qed.

(** ** Theorem *)

(** C18: the table from threads to sub-queues, for threads that start, call, exit and whose ids
    are used again in any interleaving of fewer than 2^58 steps.  No two threads ever have the
    same sub-queue, so that a sub-queue has one enqueuing thread; the sub-queue of a thread is
    never marked as free for reuse; a call returns the sub-queue of its thread (null only if
    the thread has none, after a failed allocation), which the thread keeps until its exit has
    completed; and a new table is linked to the newest one. *)
Theorem producers_exclusive (hashed : nat -> Z) (N k : nat) (sys : table_sys) :
  (forall t, 0 <= hashed t < 2 ^ 64) -> Z.of_nat N < 2 ^ 58 -> tab_steps hashed N (tab_init k) sys ->
  (forall t u c d p, tthreads sys !! t = Some (c, Some p) -> tthreads sys !! u = Some (d, Some p) -> t = u) /\
  (forall t c p, tthreads sys !! t = Some (c, Some p) -> inactive (ptab sys) !! p = Some false) /\
  (forall t r l, tthreads sys !! t = Some (TRet r, l) -> r = l) /\
  (forall sys' t c p c' l', tab_step hashed sys sys' ->
    tthreads sys !! t = Some (c, Some p) -> tthreads sys' !! t = Some (c', l') ->
    l' = Some p \/ c = XInactive p /\ c' = TDead /\ l' = None) /\
  (forall t main n l, tthreads sys !! t = Some (TGrow main n, l) -> main = main_table (ptab sys)).
Proof.
  intros Hh HN Hs. pose proof (tab_steps_ok hashed Hh N k sys HN Hs) as Hok.
  split; [apply (tb_inj _ _ _ _ Hok)|]. split; [apply (tb_active _ _ _ _ Hok)|]. split; [|split].
  - intros t r l Ht. apply (proj1 (tb_thread _ _ _ _ Hok _ _ _ Ht)).
  - intros sys' t c p c' l'. by apply (keeps_subqueue hashed N).
  - apply (lk_main _ (lock_steps _ _ _ _ Hs)).
Qed.

(** Two threads whose ids collide get a sub-queue each; the first exits, starts again and takes
    the sub-queue it had left. *)
Definition collide (t : nat) : Z := 37.
Definition two_threads : list tab_event :=
  [EStart 0; ECall 0; EStart 1; ECall 1] ++ replicate 9 (ERun 0 true) ++ replicate 13 (ERun 1 true) ++
  [EExit 0] ++ replicate 3 (ERun 0 true) ++ [EStart 0; ECall 0] ++ replicate 13 (ERun 0 true).

Lemma producers_exclusive_witness :
  exists sys, tab_exec collide two_threads (tab_init 2) = Some sys /\ 
    tthreads sys = [(TRet (Some 0), Some 0); (TRet (Some 1), Some 1)]%nat /\
    (forall t c p, tthreads sys !! t = Some (c, Some p) -> inactive (ptab sys) !! p = Some false).
Proof.
  destruct (tab_exec collide two_threads (tab_init 2)) as [sys|] eqn:E; [|vm_compute in E; discriminate].
  exists sys. split; [done|]. split; [vm_compute in E; by injection E as <-|].
  apply (producers_exclusive collide (length two_threads) 2 sys).
  - unfold collide. lia.
  - vm_compute. done.
  - apply (tab_exec_steps collide two_threads 0 _ _ _ (tab_steps_refl _ _) E).
Defined.
