(* ===== verification/CqIndex.v ===== *)
(** * The circular block index of a sub-queue

    The index of [ImplicitProducer] is an array of entries behind a header; it is replaced
    by one of twice the size when it is full, while dequeuing threads may still read the old
    one.  This file states what every header promises its readers and shows that the writes
    of [enqueue] and [dequeue] keep it: as long as a block is not cleared, its entry and
    those of the blocks behind it stay where each header says. *)
From stdpp Require Import functions.
From S2P Require Import Prelude CqArith CqProducer CqInv.

Definition cleared (st : blk_state) : bool :=
  match st with Freeing _ | Gone => true | _ => false end.

(** The position arithmetic of the source: a mask by the capacity less one. *)
Lemma mask_pos x k : 0 <= k <= 63 -> Z.land (u64 x) (u64 (2 ^ k - 1)) = x mod 2 ^ k.
Proof.
  intros Hk. assert (0 < 2 ^ k <= 2 ^ 63).
  { split; [apply Z.pow_pos_nonneg; lia|apply Z.pow_le_mono_r; lia]. }
  rewrite (u64_small (2 ^ k - 1)) by lia. rewrite land_mask, u64_mod_pow2 by lia. done.
Qed.

(** A multiple of the block size below the index. *)
Lemma block_base x : Z.land (u64 x) (u64 (Z.lnot (BLOCK_SIZE - 1))) = u64 (32 * (x / 32)).
Proof.
  unfold BLOCK_SIZE. change (u64 (Z.lnot (32 - 1))) with (Z.ldiff (Z.ones 64) (Z.ones 5)).
  unfold u64. rewrite <- !Z.land_ones by lia.
  apply Z.bits_inj'. intros i Hi.
  rewrite !Z.land_spec, Z.ldiff_spec, !Z.testbit_ones_nonneg by lia.
  replace (32 * (x / 32)) with (Z.shiftl (Z.shiftr x 5) 5); cycle 1.
  { rewrite Z.shiftl_mul_pow2, Z.shiftr_div_pow2 by lia. change (2 ^ 5) with 32. lia. }
  destruct (Z.ltb_spec i 64); simpl; [|by rewrite !andb_false_r].
  rewrite !andb_true_r. destruct (Z.ltb_spec i 5); simpl.
  - rewrite andb_false_r. symmetry. apply Z.shiftl_spec_low. done.
  - rewrite andb_true_r, Z.shiftl_spec, Z.shiftr_spec by lia. f_equal. lia.
Qed.

Lemma i64_u64 z : - 2 ^ 63 <= z < 2 ^ 63 -> i64 (u64 z) = z.
Proof.
  intros Hz. unfold i64, u64. rewrite Zplus_mod_idemp_l, Z.mod_small by lia. lia.
Qed.

Lemma i64_of_u64 z : i64 z = i64 (u64 z).
Proof. unfold i64, u64. by rewrite Zplus_mod_idemp_l. Qed.

(** [block_index_position] finds the block [d] places before the tail. *)
Lemma block_index_position_spec s x tail tb k :
  s mod 32 = 0 -> 0 <= k <= 63 -> 0 <= x / 32 <= tb -> tb < 2 ^ 57 ->
  block_index_position (u64 (s + x)) tail (u64 (s + 32 * tb)) (2 ^ k)
  = (tail - (tb - x / 32)) mod 2 ^ k.
Proof.
  intros Hs Hk Hx Htb. unfold block_index_position. cbv zeta.
  rewrite block_base.
  assert ((s + x) / 32 = s / 32 + x / 32) as ->.
  { rewrite (Z_div_mod_eq_full s 32) at 1. rewrite Hs, Z.add_0_r.
    rewrite Z.add_comm, Z.mul_comm, Z.div_add by lia. lia. }
  assert (i64 (u64 (32 * (s / 32 + x / 32)) - u64 (s + 32 * tb)) = 32 * (x / 32 - tb)) as ->.
  { rewrite i64_of_u64, u64_sub_l, u64_sub_r. rewrite <- (i64_u64 (32 * (x / 32 - tb))) by lia.
    do 2 f_equal. rewrite (Z_div_mod_eq_full s 32) at 2. rewrite Hs. lia. }
  unfold BLOCK_SIZE. change (i64 32) with 32.
  rewrite Z.mul_comm, Z.quot_mul by lia. rewrite u64_add_r, mask_pos by done. f_equal. lia.
Qed.

Lemma mod_zero_small a c : - c < a < c -> a mod c = 0 -> a = 0.
Proof.
  intros Ha H0. destruct (Z.le_gt_cases 0 a); [rewrite Z.mod_small in H0; lia|].
  rewrite <- (Z_mod_plus_full _ 1), Z.mod_small in H0; lia.
Qed.

(** ** Headers *)

Record hdr_ok (ents : list nat) (lo ne : nat) (H : BlockIndexHeader) (c : nat) : Prop := {
  hk_cap : exists k, 5 <= k <= 61 /\ capacity H = 2 ^ k;
  hk_len : Z.of_nat (length (header_index H)) = capacity H;
  hk_nodup : NoDup (header_index H);
  hk_bound e : e ∈ header_index H -> (e < ne)%nat;
  hk_tail : 0 <= header_tail H < capacity H;
  hk_top : (c <= length ents)%nat;
  hk_win : Z.of_nat c - Z.of_nat lo <= capacity H;
  hk_index n : (lo <= n < c)%nat ->
    index_at H ((header_tail H - (Z.of_nat c - 1 - Z.of_nat n)) mod capacity H) = ents !! n }.

Lemma hdr_mono ents ents' lo lo' ne ne' H c :
  hdr_ok ents lo ne H c -> (exists l, ents' = ents ++ l) -> (lo <= lo')%nat -> (ne <= ne')%nat ->
  hdr_ok ents' lo' ne' H c.
Proof.
  intros [Hc Hl Hn Hb Ht Htop Hw Hi] [l ->] Hlo Hne. split; [done..| |done| |lia|].
  - intros e He. specialize (Hb e He). lia.
  - rewrite length_app. lia.
  - intros n Hn'. rewrite Hi by lia. rewrite lookup_app_l by lia. done.
Qed.

Lemma cap_bounds ents lo ne H c : hdr_ok ents lo ne H c -> 32 <= capacity H <= 2 ^ 61.
Proof.
  intros Hh. destruct (hk_cap _ _ _ _ _ Hh) as (k & Hk & ->). split.
  - change 32 with (2 ^ 5). apply Z.pow_le_mono_r; lia.
  - apply Z.pow_le_mono_r; lia.
Qed.

Lemma index_at_Some ents lo ne H c i :
  hdr_ok ents lo ne H c -> 0 <= i < capacity H -> exists e, index_at H i = Some e /\ (e < ne)%nat.
Proof.
  intros Hh Hi. unfold index_at.
  destruct (lookup_lt_is_Some_2 (header_index H) (Z.to_nat i)) as [e He].
  { pose proof (hk_len _ _ _ _ _ Hh). lia. }
  exists e. split; [done|]. eapply hk_bound; [done|]. by eapply list_elem_of_lookup_2.
Qed.

Lemma index_at_inj ents lo ne H c i j e :
  hdr_ok ents lo ne H c -> 0 <= i -> 0 <= j -> index_at H i = Some e -> index_at H j = Some e -> i = j.
Proof.
  intros Hh Hi Hj He1 He2. apply Z2Nat.inj; [done..|].
  eapply NoDup_lookup; [apply (hk_nodup _ _ _ _ _ Hh)|done..].
Qed.

Lemma mask_header ents lo ne H c x :
  hdr_ok ents lo ne H c -> Z.land (u64 x) (u64 (capacity H - 1)) = x mod capacity H.
Proof. intros Hh. destruct (hk_cap _ _ _ _ _ Hh) as (k & Hk & ->). apply mask_pos. lia. Qed.

(** The slot behind the tail holds the oldest block of a full index, and no block of an
    index that is not full. *)
Lemma next_slot ents lo ne H c n e :
  hdr_ok ents lo ne H c -> index_at H ((header_tail H + 1) mod capacity H) = Some e ->
  (lo <= n < c)%nat -> ents !! n = Some e -> Z.of_nat c - Z.of_nat n = capacity H.
Proof.
  intros Hh He Hn Hne. pose proof (cap_bounds _ _ _ _ _ Hh) as Hcap.
  pose proof (hk_win _ _ _ _ _ Hh) as Hwin.
  assert ((header_tail H - (Z.of_nat c - 1 - Z.of_nat n)) mod capacity H
          = (header_tail H + 1) mod capacity H) as Heq.
  { eapply index_at_inj; [done|apply Z.mod_pos_bound; lia..| |done].
    rewrite <- Hne. by apply (hk_index _ _ _ _ _ Hh). }
  assert (((header_tail H + 1) - (header_tail H - (Z.of_nat c - 1 - Z.of_nat n))) mod capacity H = 0) as H0.
  { by rewrite Zminus_mod, Heq, Z.sub_diag, Z.mod_0_l by lia. }
  replace (_ - _) with (Z.of_nat c - Z.of_nat n) in H0 by lia.
  apply Z.mod_divide in H0 as [d Hd]; [|lia].
  assert (d = 1) as -> by nia. lia.
Qed.

(** The copy of the previous index starts with its oldest entry. *)
Lemma copy_index_spec ents lo ne H c f :
  hdr_ok ents lo ne H c -> Z.of_nat f <= capacity H ->
  let l := copy_index f H ((header_tail H - Z.of_nat f) mod capacity H) in
  length l = f /\ forall i, (i < f)%nat ->
    l !! i = index_at H ((header_tail H - Z.of_nat f + 1 + Z.of_nat i) mod capacity H).
Proof.
  intros Hh. pose proof (cap_bounds _ _ _ _ _ Hh) as Hcap. pose proof (hk_tail _ _ _ _ _ Hh) as Ht.
  induction f as [|f IH]; intros Hf l; [by split; [|lia]|].
  unfold l. cbn [copy_index]. rewrite (mask_header _ _ _ _ _ _ Hh), Zplus_mod_idemp_l.
  replace (header_tail H - Z.of_nat (S f) + 1) with (header_tail H - Z.of_nat f) by lia.
  destruct (index_at_Some _ _ _ _ _ ((header_tail H - Z.of_nat f) mod capacity H) Hh) as (e & He & _).
  { apply Z.mod_pos_bound. lia. }
  rewrite He. specialize (IH ltac:(lia)). cbv zeta in IH. destruct IH as [IHl IHi].
  destruct (Z.eqb_spec ((header_tail H - Z.of_nat f) mod capacity H) (header_tail H)) as [Heq|Hne].
  - assert (f = 0%nat) as ->.
    { destruct f as [|f]; [done|]. rewrite <- (Z.mod_small (header_tail H) (capacity H)) in Heq at 2 by lia.
      assert ((header_tail H - (header_tail H - Z.of_nat (S f))) mod capacity H = 0) as H0.
      { by rewrite Zminus_mod, Heq, Z.sub_diag, Z.mod_0_l by lia. }
      replace (_ - (_ - _)) with (Z.of_nat (S f)) in H0 by lia. rewrite Z.mod_small in H0 by lia. lia. }
    split; [done|]. intros [|i] Hi; [|lia]. simpl. rewrite <- He. f_equal. f_equal. lia.
  - split; [simpl; by rewrite IHl|]. intros [|i] Hi; simpl.
    + rewrite <- He. f_equal. f_equal. lia.
    + rewrite IHi by lia. f_equal. f_equal. lia.
Qed.

(** ** The index *)

Implicit Types (ents tops : list nat) (lo : nat) (binfo : list (nat * blk_state)).

(** [ents] lists the entries given to the blocks, one per block and possibly one reserved
    for the next; the blocks below [lo] are cleared and their entries may have new tenants;
    [tops] has for every header the number of blocks up to its tail. *)
Record index_ok (start : Z) ents lo tops binfo (p : ImplicitProducer) : Prop := {
  in_tops : length tops = length (headers p);
  in_hdr i H c :
    headers p !! i = Some H -> tops !! i = Some c -> hdr_ok ents lo (length (entries p)) H c;
  in_ents : (length binfo <= length ents <= length binfo + 1)%nat;
  in_lo : (lo <= length binfo)%nat;
  in_nodup : NoDup (drop lo ents);
  in_bound e : e ∈ ents -> (e < length (entries p))%nat;
  in_cleared n : (n < lo)%nat -> exists b st, binfo !! n = Some (b, st) /\ cleared st = true;
  in_key n e :
    (lo <= n)%nat -> ents !! n = Some e ->
    exists E, entries p !! e = Some E /\ key E = u64 (start + 32 * Z.of_nat n);
  in_value n e b st :
    (lo <= n)%nat -> ents !! n = Some e -> binfo !! n = Some (b, st) ->
    exists E, entries p !! e = Some E /\ value E = if cleared st then None else Some b;
  in_junk e E :
    e ∉ drop lo ents -> entries p !! e = Some E -> key E = INVALID_BLOCK_BASE \/ value E = None }.

(** The header the enqueuing thread works on. *)
Record current ents lo tops binfo (p : ImplicitProducer) (i : nat) (H : BlockIndexHeader) (c : nat) : Prop := {
  cu_index : blockIndex p = Some i;
  cu_last : S i = length (headers p);
  cu_header : headers p !! i = Some H;
  cu_top : tops !! i = Some c;
  cu_next : nextBlockIndexCapacity p = 2 * capacity H;
  cu_room : Z.of_nat (length ents) - Z.of_nat lo <= capacity H;
  cu_size : capacity H = 32 \/ capacity H <= 2 * Z.of_nat (length binfo) }.

Section Index.
Context (start : Z) (Hstart : start mod 32 = 0).

Lemma current_hdr ents lo tops binfo p i H c :
  index_ok start ents lo tops binfo p -> current ents lo tops binfo p i H c ->
  hdr_ok ents lo (length (entries p)) H c.
Proof. intros Hi Hc. eapply in_hdr; [done|apply (cu_header _ _ _ _ _ _ _ _ Hc)|apply (cu_top _ _ _ _ _ _ _ _ Hc)]. Qed.

(** The entry behind the tail. *)
Lemma next_entry_spec ents lo tops binfo p i H c :
  index_ok start ents lo tops binfo p -> current ents lo tops binfo p i H c ->
  exists e, index_at H ((header_tail H + 1) mod capacity H) = Some e /\
    (e < length (entries p))%nat /\
    next_entry p = Some (i, (header_tail H + 1) mod capacity H, e).
Proof.
  intros Hi Hc. pose proof (current_hdr _ _ _ _ _ _ _ _ Hi Hc) as Hh.
  pose proof (cap_bounds _ _ _ _ _ Hh).
  destruct (index_at_Some _ _ _ _ _ ((header_tail H + 1) mod capacity H) Hh) as (e & He & Hlt).
  { apply Z.mod_pos_bound. lia. }
  exists e. split; [done|]. split; [done|]. unfold next_entry.
  rewrite (cu_index _ _ _ _ _ _ _ _ Hc), (cu_header _ _ _ _ _ _ _ _ Hc).
  by rewrite (mask_header _ _ _ _ _ _ Hh), He.
Qed.

Lemma base_not_invalid n : u64 (start + 32 * Z.of_nat n) <> INVALID_BLOCK_BASE.
Proof.
  intros Heq. assert (u64 (start + 32 * Z.of_nat n) mod 2 ^ 5 = 0) as Hm.
  { rewrite u64_mod_pow2 by lia. rewrite Z.mul_comm, Z.mod_add by lia. done. }
  rewrite Heq in Hm. done.
Qed.

Lemma drop_lookup {B} (l : list B) (lo n : nat) x : (lo <= n)%nat -> l !! n = Some x -> x ∈ drop lo l.
Proof.
  intros Hlo Hn. apply list_elem_of_lookup. exists (n - lo)%nat. rewrite lookup_drop.
  by replace (lo + (n - lo))%nat with n by lia.
Qed.

Lemma drop_lookup_inj {B} (l : list B) (lo n n' : nat) x :
  NoDup (drop lo l) -> (lo <= n)%nat -> (lo <= n')%nat -> l !! n = Some x -> l !! n' = Some x -> n = n'.
Proof.
  intros Hnd Hn Hn' Hx Hx'.
  assert (n - lo = n' - lo)%nat; [|lia].
  eapply NoDup_lookup; [done|rewrite lookup_drop..].
  - by replace (lo + (n - lo))%nat with n by lia.
  - by replace (lo + (n' - lo))%nat with n' by lia.
Qed.

(** [insert_block_index_entry] stores the key of the next block in a usable entry: either
    the entry was reserved before, or it is free for good. *)
Lemma index_store_key_reserved ents lo tops binfo p e E :
  index_ok start ents lo tops binfo p -> entries p !! e = Some E ->
  (length ents = length binfo + 1)%nat -> ents !! length binfo = Some e ->
  index_ok start ents lo tops binfo (store_key e (u64 (start + 32 * Z.of_nat (length binfo))) p).
Proof.
  intros [Htops Hhdr Hents Hlo Hnd Hbound Hcl Hkey Hval Hjunk] HE Hr Hres.
  split; simpl; rewrite ?length_alter; try done.
  - intros n e' Hn He'. rewrite list_lookup_alter. case_decide as Hd; [|by eapply Hkey].
    subst e'. rewrite HE. eexists. split; [done|]. simpl. do 3 f_equal. f_equal.
    eapply drop_lookup_inj; [done| |done..]. lia.
  - intros n e' b st Hn He' Hb. rewrite list_lookup_alter.
    destruct (Hval n e' b st Hn He' Hb) as (E' & HE' & Hv').
    case_decide; [subst; rewrite HE'; by eexists|by exists E'].
  - intros e' E' Hn'. rewrite list_lookup_alter. case_decide as Hd; [|by apply Hjunk].
    subst e'. destruct Hn'. by eapply (drop_lookup _ _ (length binfo)).
Qed.

(** When the ring is full, the entry behind the tail is the oldest one, and its block has been
    emptied if the entry is free for use. *)
Lemma oldest_entry ents lo ne H c e :
  hdr_ok ents lo ne H c -> (lo < c)%nat -> Z.of_nat c - Z.of_nat lo = capacity H ->
  index_at H ((header_tail H + 1) mod capacity H) = Some e -> ents !! lo = Some e.
Proof.
  intros Hh Hlo Hfull He. pose proof (cap_bounds _ _ _ _ _ Hh).
  rewrite <- (hk_index _ _ _ _ _ Hh lo) by lia.
  replace (header_tail H - _) with (header_tail H + 1 + (-1) * capacity H) by lia.
  by rewrite Z.mod_add by lia.
Qed.

Lemma oldest_cleared ents lo tops binfo p e E :
  index_ok start ents lo tops binfo p -> (lo < length binfo)%nat -> ents !! lo = Some e -> entries p !! e = Some E ->
  key E = INVALID_BLOCK_BASE \/ value E = None ->
  exists b st, binfo !! lo = Some (b, st) /\ cleared st = true.
Proof.
  intros Hok Hlo He HE Husable. destruct (lookup_lt_is_Some_2 binfo lo Hlo) as [[b st] Hb]. exists b, st. split; [done|].
  destruct (in_key _ _ _ _ _ _ Hok lo e ltac:(lia) He) as (E1 & HE1 & Hk1).
  destruct (in_value _ _ _ _ _ _ Hok lo e b st ltac:(lia) He Hb) as (E2 & HE2 & Hv2).
  assert (E1 = E) as -> by congruence. assert (E2 = E) as -> by congruence.
  destruct (cleared st); [done|]. destruct Husable as [Hu|Hu]; [|congruence].
  by destruct (base_not_invalid lo); rewrite <- Hk1.
Qed.

(** A new block gets an entry that no block from [lo'] on has. *)
Lemma index_store_key_fresh ents lo lo' tops binfo p e E :
  index_ok start ents lo tops binfo p -> entries p !! e = Some E ->
  length ents = length binfo -> (lo <= lo' <= length binfo)%nat ->
  (forall n, (lo' <= n)%nat -> ents !! n <> Some e) ->
  (forall n, (n < lo')%nat -> exists b st, binfo !! n = Some (b, st) /\ cleared st = true) ->
  (forall x, x ∈ drop lo ents -> x = e \/ x ∈ drop lo' ents) ->
  index_ok start (ents ++ [e]) lo' tops binfo (store_key e (u64 (start + 32 * Z.of_nat (length binfo))) p).
Proof.
  intros [Htops Hhdr Hents Hlo Hnd Hbound Hcl Hkey Hval Hjunk] HE Hle Hlo' Hfresh Hcl2 Hkeep.
  assert (drop lo' (ents ++ [e]) = drop lo' ents ++ [e]) as Hdrop by (apply drop_app_le; lia).
  split; simpl; rewrite ?length_alter; try done.
  - intros i' H' c' Hh' Hc'. eapply hdr_mono; [by eapply Hhdr|by eexists|lia|done].
  - rewrite length_app. simpl. lia.
  - lia.
  - rewrite Hdrop. apply NoDup_app. split; [|split; [|apply NoDup_singleton]].
    + replace lo' with (lo + (lo' - lo))%nat by lia. rewrite <- drop_drop.
      eapply sublist_NoDup; [done|apply sublist_drop].
    + intros x [j Hj]%list_elem_of_lookup Hx%list_elem_of_singleton. rewrite lookup_drop in Hj. subst.
      by eapply Hfresh; [|exact Hj]; lia.
  - intros e' [He' | ->%list_elem_of_singleton]%elem_of_app; [by apply Hbound|].
    by eapply lookup_lt_Some.
  - intros n e' Hn [He'|[Hn' [? ->]%list_lookup_singleton_Some]]%lookup_app_Some; rewrite list_lookup_alter.
    + rewrite decide_False by (intros ->; by eapply Hfresh). apply Hkey; [lia|done].
    + rewrite decide_True, HE by done. eexists. split; [done|]. simpl. do 3 f_equal. lia.
  - intros n e' b st Hn He' Hb. rewrite lookup_app_l in He' by (apply lookup_lt_Some in Hb; lia).
    rewrite list_lookup_alter. rewrite decide_False by (intros ->; by eapply Hfresh).
    apply (Hval n e' b st); [lia|done..].
  - intros e' E' Hn'. rewrite Hdrop in Hn'. rewrite list_lookup_alter.
    case_decide as Hd; [subst e'; destruct Hn'; apply elem_of_app; right; by apply list_elem_of_singleton|].
    apply Hjunk. intros Hin. destruct Hn'. apply elem_of_app. left. by destruct (Hkeep e' Hin).
Qed.

Lemma index_store_key ents lo tops binfo p i H e E :
  index_ok start ents lo tops binfo p -> current ents lo tops binfo p i H (length binfo) ->
  index_at H ((header_tail H + 1) mod capacity H) = Some e -> entries p !! e = Some E ->
  key E = INVALID_BLOCK_BASE \/ value E = None ->
  (length ents = length binfo + 1 -> ents !! length binfo = Some e)%nat ->
  exists ents' lo', (lo <= lo')%nat /\ (exists l, ents' = ents ++ l) /\
    (length ents' = length binfo + 1)%nat /\ ents' !! length binfo = Some e /\
    index_ok start ents' lo' tops binfo (store_key e (u64 (start + 32 * Z.of_nat (length binfo))) p) /\
    current ents' lo' tops binfo (store_key e (u64 (start + 32 * Z.of_nat (length binfo))) p) i H (length binfo).
Proof.
  intros Hok Hcur He HE Husable Hres.
  pose proof (current_hdr _ _ _ _ _ _ _ _ Hok Hcur) as Hh. pose proof (cap_bounds _ _ _ _ _ Hh) as Hcap.
  pose proof (in_ents _ _ _ _ _ _ Hok) as Hents. pose proof (in_lo _ _ _ _ _ _ Hok) as Hlo.
  destruct Hcur as [Hci Hcl' Hch Hct Hcn Hcr Hcs].
  destruct (decide (length ents = length binfo + 1)%nat) as [Hr|Hr].
  { exists ents, lo. specialize (Hres Hr). do 4 (split; [done || by exists []; rewrite app_nil_r|]).
    split; [by eapply index_store_key_reserved|by split]. }
  assert (length ents = length binfo) as Hle by lia.
  (* whether the oldest entry is reused *)
  set (lo' := if decide (Z.of_nat (length binfo) - Z.of_nat lo = capacity H) then S lo else lo).
  assert (lo <= lo' <= length binfo)%nat as Hlo' by (unfold lo'; case_decide; lia).
  assert (forall n, (lo <= n)%nat -> ents !! n = Some e -> Z.of_nat (length binfo) - Z.of_nat n = capacity H) as Hwhere.
  { intros n Hn Hne. pose proof (lookup_lt_Some _ _ _ Hne). eapply next_slot; [done..| |done]. lia. }
  assert (forall n, (lo <= n < lo')%nat -> n = lo /\ ents !! lo = Some e) as Hold.
  { intros n Hn. unfold lo' in Hn. case_decide as Hfull; [|lia]. split; [lia|].
    eapply oldest_entry; [done| |done|done]. lia. }
  exists (ents ++ [e]), lo'. rewrite length_app. simpl.
  split; [lia|]. split; [by eexists|]. split; [lia|]. split; [by rewrite lookup_app_r, Hle, Nat.sub_diag by lia|]. split.
  - eapply index_store_key_fresh; [done|done|done|done|..].
    + intros n Hn Hne. pose proof (Hwhere n ltac:(lia) Hne). unfold lo' in Hn. case_decide; lia.
    + intros n Hn. destruct (decide (n < lo)%nat); [by apply (in_cleared _ _ _ _ _ _ Hok)|].
      destruct (Hold n ltac:(lia)) as [-> He0]. eapply oldest_cleared; [done| |done..]. lia.
    + intros x [j Hj]%list_elem_of_lookup. rewrite lookup_drop in Hj.
      destruct (decide (lo' <= lo + j)%nat); [right; by eapply drop_lookup|left].
      destruct (Hold (lo + j)%nat ltac:(lia)) as [Hj' He0]. rewrite Hj' in Hj. congruence.
  - split; simpl; rewrite ?length_app; simpl; try done. unfold lo'. case_decide; lia.
Qed.

(** A store to the tail of the current header. *)
Lemma index_store_tail ents lo tops binfo p i H c c' t :
  index_ok start ents lo tops binfo p -> current ents lo tops binfo p i H c ->
  let H' := mkHeader (capacity H) t (header_index H) in
  hdr_ok ents lo (length (entries p)) H' c' ->
  index_ok start ents lo (<[i := c']> tops) binfo (store_tail i t p) /\
  current ents lo (<[i := c']> tops) binfo (store_tail i t p) i H' c'.
Proof.
  intros [Htops Hhdr Hents Hlo Hnd Hbound Hcl Hkey Hval Hjunk] [Hci Hcl' Hch Hct Hcn Hcr Hcs] H' Hh'.
  pose proof (lookup_lt_Some _ _ _ Hct) as Hlt.
  split; split; simpl; rewrite ?length_alter, ?length_insert; try done.
  - intros i' H1 c1 Hh1 Hc1. destruct (decide (i = i')) as [<-|Hne].
    + rewrite list_lookup_alter_eq, Hch in Hh1. rewrite list_lookup_insert_eq in Hc1 by done.
      simplify_eq/=. done.
    + rewrite list_lookup_alter_ne in Hh1 by done. rewrite list_lookup_insert_ne in Hc1 by done.
      by eapply Hhdr.
  - by rewrite list_lookup_alter_eq, Hch.
  - by apply list_lookup_insert_eq.
Qed.

(** The tail moves to the reserved entry. *)
Lemma hdr_advance ents lo ne H n e :
  hdr_ok ents lo ne H n -> index_at H ((header_tail H + 1) mod capacity H) = Some e ->
  ents !! n = Some e -> Z.of_nat (S n) - Z.of_nat lo <= capacity H ->
  hdr_ok ents lo ne (mkHeader (capacity H) ((header_tail H + 1) mod capacity H) (header_index H)) (S n).
Proof.
  intros Hh He Hn Hroom. pose proof (cap_bounds _ _ _ _ _ Hh) as Hcap.
  destruct Hh as [Hc Hl Hnd Hb Ht Htop Hw Hi]. split; simpl; try done.
  - apply Z.mod_pos_bound. lia.
  - apply lookup_lt_Some in Hn. lia.
  - intros j Hj. rewrite Zminus_mod_idemp_l. unfold index_at in *. simpl.
    destruct (decide (j = n)) as [->|Hne].
    + replace (_ - _) with (header_tail H + 1) by lia. by rewrite He.
    + rewrite <- Hi by lia. do 3 f_equal. lia.
Qed.

(** ... and back. *)
Lemma hdr_rewind ents lo ne H n e :
  hdr_ok ents lo ne H (S n) -> ents !! n = Some e -> (lo <= n)%nat ->
  let H' := mkHeader (capacity H) ((header_tail H - 1) mod capacity H) (header_index H) in
  hdr_ok ents lo ne H' n /\ index_at H' ((header_tail H' + 1) mod capacity H') = Some e.
Proof.
  intros Hh Hn Hlo H'. pose proof (cap_bounds _ _ _ _ _ Hh) as Hcap.
  destruct Hh as [Hc Hl Hnd Hb Ht Htop Hw Hi]. split.
  - split; simpl; try done; [apply Z.mod_pos_bound; lia|lia|lia|].
    intros j Hj. rewrite Zminus_mod_idemp_l. rewrite <- Hi by lia. unfold index_at. simpl.
    do 3 f_equal. lia.
  - simpl. rewrite Zplus_mod_idemp_l. rewrite <- Hn, <- Hi by lia. unfold index_at. simpl.
    do 3 f_equal. lia.
Qed.

(** A store to the value of an entry, with the change of the blocks it stands for. *)
Lemma index_store_value ents lo tops binfo binfo' p e v n :
  index_ok start ents lo tops binfo p -> ents !! n = Some e -> (lo <= n)%nat ->
  (length binfo <= length binfo')%nat -> (length binfo' <= length ents <= length binfo' + 1)%nat ->
  (forall n' b st, n' <> n -> binfo' !! n' = Some (b, st) -> binfo !! n' = Some (b, st)) ->
  (forall n' b st, n' <> n -> binfo !! n' = Some (b, st) -> binfo' !! n' = Some (b, st)) ->
  (forall b st, binfo' !! n = Some (b, st) -> v = if cleared st then None else Some b) ->
  index_ok start ents lo tops binfo' (store_value e v p).
Proof.
  intros [Htops Hhdr Hents Hlo Hnd Hbound Hcl Hkey Hval Hjunk] Hn Hlon Hlen Hlen' Hold Hnew Hv.
  split; simpl; rewrite ?length_alter; try done; [lia|..].
  - intros n' Hn'. destruct (Hcl n' Hn') as (b & st & Hb & Hst). exists b, st.
    split; [|done]. apply Hnew; [lia|done].
  - intros n' e' Hn' He'. destruct (Hkey n' e' Hn' He') as (E & HE & Hk). rewrite list_lookup_alter.
    case_decide as Hd; [subst e'; rewrite HE; by eexists|by exists E].
  - intros n' e' b st Hn' He' Hb. destruct (Hkey n' e' Hn' He') as (E & HE & Hk).
    rewrite list_lookup_alter. case_decide as Hd.
    + subst e'. rewrite HE. eexists. split; [done|]. simpl.
      assert (n' = n) as -> by (by eapply drop_lookup_inj). by apply Hv.
    + apply (Hval n' e' b st); [done..|]. apply Hold; [|done]. congruence.
  - intros e' E Hn'. rewrite list_lookup_alter. case_decide as Hd; [|by apply Hjunk].
    subst e'. destruct Hn'. by eapply drop_lookup.
Qed.

Lemma current_store_value ents lo tops binfo binfo' p e v i H c :
  current ents lo tops binfo p i H c -> (length binfo <= length binfo')%nat ->
  current ents lo tops binfo' (store_value e v p) i H c.
Proof. intros [] Hlen. split; simpl; try done. lia. Qed.

(** The state of a block changes without its entry being cleared. *)
Lemma index_status ents lo tops binfo p n b st st' :
  index_ok start ents lo tops binfo p -> binfo !! n = Some (b, st) -> cleared st' = cleared st ->
  index_ok start ents lo tops (<[n := (b, st')]> binfo) p.
Proof.
  intros [Htops Hhdr Hents Hlo Hnd Hbound Hcl Hkey Hval Hjunk] Hn Hst.
  assert (forall n' b' st0, <[n := (b, st')]> binfo !! n' = Some (b', st0) ->
     exists st1, binfo !! n' = Some (b', st1) /\ cleared st1 = cleared st0) as Hbi.
  { intros n' b' st0. destruct (decide (n = n')) as [<-|].
    - rewrite list_lookup_insert_eq by (by eapply lookup_lt_Some). intros [= <- <-]. eauto.
    - rewrite list_lookup_insert_ne by done. eauto. }
  split; rewrite ?length_insert; try done.
  - intros n' Hn'. destruct (Hcl n' Hn') as (b' & st0 & Hb' & Hst0).
    destruct (decide (n = n')) as [<-|].
    + exists b, st'. rewrite list_lookup_insert_eq by (by eapply lookup_lt_Some).
      split; [done|]. congruence.
    + exists b', st0. by rewrite list_lookup_insert_ne.
  - intros n' e b' st0 Hn' He Hb'. apply Hbi in Hb' as (st1 & Hb' & Hst1).
    destruct (Hval n' e b' st1 Hn' He Hb') as (E & HE & Hv). exists E. by rewrite <- Hst1.
Qed.

Lemma current_length ents lo tops binfo binfo' p i H c :
  current ents lo tops binfo p i H c -> length binfo' = length binfo ->
  current ents lo tops binfo' p i H c.
Proof. intros [] Hlen. split; try done. by rewrite Hlen. Qed.

(** The index and its current header depend on the producer's index only. *)
Lemma index_same ents lo tops binfo p p' :
  headers p' = headers p -> entries p' = entries p ->
  index_ok start ents lo tops binfo p -> index_ok start ents lo tops binfo p'.
Proof.
  intros Hh He [Htops Hhdr Hents Hlo Hnd Hbound Hcl Hkey Hval Hjunk].
  split; rewrite ?Hh, ?He; done.
Qed.

Lemma current_same ents lo tops binfo p p' i H c :
  blockIndex p' = blockIndex p -> headers p' = headers p ->
  nextBlockIndexCapacity p' = nextBlockIndexCapacity p ->
  current ents lo tops binfo p i H c -> current ents lo tops binfo p' i H c.
Proof. intros Hb Hh Hn []. split; rewrite ?Hb, ?Hh, ?Hn; done. Qed.

(** ** Growth *)

Definition grown (p : ImplicitProducer) (H : BlockIndexHeader) : BlockIndexHeader :=
  mkHeader (2 * capacity H) (capacity H - 1)
    (copy_index (Z.to_nat (capacity H)) H (header_tail H) ++
     seq (length (entries p)) (Z.to_nat (capacity H))).

Lemma copy_index_all ents lo ne H c :
  hdr_ok ents lo ne H c ->
  let l := copy_index (Z.to_nat (capacity H)) H (header_tail H) in
  Z.of_nat (length l) = capacity H /\ (forall e, e ∈ l -> (e < ne)%nat) /\ NoDup l /\
  forall i, (Z.of_nat i < capacity H) ->
    l !! i = index_at H ((header_tail H + 1 + Z.of_nat i) mod capacity H).
Proof.
  intros Hh l. pose proof (cap_bounds _ _ _ _ _ Hh) as Hcap.
  pose proof (hk_tail _ _ _ _ _ Hh) as Ht.
  pose proof (copy_index_spec _ _ _ _ _ (Z.to_nat (capacity H)) Hh ltac:(lia)) as [Hlen Hl].
  replace ((header_tail H - Z.of_nat (Z.to_nat (capacity H))) mod capacity H) with (header_tail H) in *; cycle 1.
  { replace (_ - _) with (header_tail H + (-1) * capacity H) by lia.
    rewrite Z.mod_add, Z.mod_small by lia. done. }
  fold l in Hlen, Hl.
  assert (forall i, Z.of_nat i < capacity H ->
    l !! i = index_at H ((header_tail H + 1 + Z.of_nat i) mod capacity H)) as Hl'.
  { intros i Hi. rewrite Hl by lia. f_equal.
    replace (_ - _ + 1 + _) with (header_tail H + 1 + Z.of_nat i + (-1) * capacity H) by lia.
    by rewrite Z.mod_add by lia. }
  split; [lia|]. split; [|split; [|done]].
  - intros e [i Hi]%list_elem_of_lookup. pose proof (lookup_lt_Some _ _ _ Hi).
    rewrite Hl' in Hi by lia. eapply hk_bound; [done|]. unfold index_at in Hi.
    by eapply list_elem_of_lookup_2.
  - apply NoDup_alt. intros i j e Hi Hj.
    pose proof (lookup_lt_Some _ _ _ Hi) as Hi'. pose proof (lookup_lt_Some _ _ _ Hj) as Hj'.
    rewrite Hl' in Hi by lia. rewrite Hl' in Hj by lia.
    assert ((header_tail H + 1 + Z.of_nat i) mod capacity H =
            (header_tail H + 1 + Z.of_nat j) mod capacity H) as Heq.
    { eapply index_at_inj; [done|apply Z.mod_pos_bound; lia..|done|done]. }
    assert (((header_tail H + 1 + Z.of_nat i) - (header_tail H + 1 + Z.of_nat j)) mod capacity H = 0) as H0.
    { by rewrite Zminus_mod, Heq, Z.sub_diag, Z.mod_0_l by lia. }
    apply mod_zero_small in H0; lia.
Qed.

(** The new header covers what the old one did. *)
Lemma hdr_grown ents lo ne p H n :
  hdr_ok ents lo ne H n -> length (entries p) = ne -> capacity H <= 2 ^ 60 ->
  hdr_ok ents lo (ne + Z.to_nat (capacity H)) (grown p H) n.
Proof.
  intros Hh Hne Hsmall. pose proof (cap_bounds _ _ _ _ _ Hh) as Hcap.
  destruct (copy_index_all _ _ _ _ _ Hh) as (Hlen & Hlt & Hnd & Hl).
  unfold grown. set (l := copy_index _ _ _) in *.
  split; simpl.
  - destruct (hk_cap _ _ _ _ _ Hh) as (k & Hk & Hck). exists (k + 1). rewrite Hck in *.
    rewrite Z.pow_add_r by lia. split; [|lia]. split; [lia|].
    destruct (Z.le_gt_cases k 60); [lia|]. assert (2 ^ 61 <= 2 ^ k) by (apply Z.pow_le_mono_r; lia). lia.
  - rewrite length_app, length_seq. lia.
  - apply NoDup_app. split; [done|]. split; [|apply NoDup_seq].
    intros e He%Hlt Hs%elem_of_seq. lia.
  - intros e [He%Hlt|Hs%elem_of_seq]%elem_of_app; lia.
  - lia.
  - apply (hk_top _ _ _ _ _ Hh).
  - pose proof (hk_win _ _ _ _ _ Hh). lia.
  - intros j Hj. pose proof (hk_win _ _ _ _ _ Hh) as Hw.
    rewrite Z.mod_small by lia. unfold index_at at 1. simpl. rewrite lookup_app_l by lia.
    rewrite Hl by lia. rewrite <- (hk_index _ _ _ _ _ Hh j Hj). f_equal.
    rewrite Z2Nat.id by lia.
    replace (header_tail H + 1 + _)
      with (header_tail H - (Z.of_nat n - 1 - Z.of_nat j) + 1 * capacity H) by lia.
    by rewrite Z.mod_add by lia.
Qed.

Lemma new_block_index_spec ents lo tops binfo p i H n raw :
  index_ok start ents lo tops binfo p -> current ents lo tops binfo p i H n ->
  capacity H <= 2 ^ 60 ->
  headers (new_block_index raw p) = headers p ++ [grown p H] /\
  blockIndex (new_block_index raw p) = Some (length (headers p)) /\
  nextBlockIndexCapacity (new_block_index raw p) = 2 * (2 * capacity H) /\
  entries (new_block_index raw p) =
    entries p ++ replicate (Z.to_nat (capacity H)) (mkEntry INVALID_BLOCK_BASE raw).
Proof.
  intros Hok Hcur Hsmall. pose proof (current_hdr _ _ _ _ _ _ _ _ Hok Hcur) as Hh.
  pose proof (cap_bounds _ _ _ _ _ Hh) as Hcap.
  destruct Hcur as [Hci Hcl' Hch Hct Hcn Hcr Hcs].
  unfold new_block_index. rewrite Hci, Hch, Hcn. simpl. repeat split.
  - unfold grown. do 3 f_equal. destruct (hk_cap _ _ _ _ _ Hh) as (k & Hk & Hck).
    rewrite Hck. replace (2 * 2 ^ k - 1) with (2 ^ (k + 1) - 1) by (rewrite Z.pow_add_r by lia; lia).
    rewrite mask_pos by lia. rewrite Z.mod_small; [done|].
    assert (0 < 2 ^ k) by (apply Z.pow_pos_nonneg; lia). rewrite Z.pow_add_r by lia. lia.
  - rewrite Z.shiftl_mul_pow2 by lia. rewrite u64_small by lia. lia.
Qed.

Lemma index_grow ents lo tops binfo p i H raw :
  index_ok start ents lo tops binfo p -> current ents lo tops binfo p i H (length binfo) ->
  capacity H <= 2 ^ 60 -> Z.of_nat (length binfo) - Z.of_nat lo = capacity H ->
  length ents = length binfo ->
  let p' := new_block_index raw p in
  let tops' := tops ++ [length binfo] in
  index_ok start ents lo tops' binfo p' /\
  current ents lo tops' binfo p' (length (headers p)) (grown p H) (length binfo) /\
  exists e E, index_at (grown p H) ((header_tail (grown p H) + 1) mod capacity (grown p H)) = Some e /\
    entries p' !! e = Some E /\ key E = INVALID_BLOCK_BASE.
Proof.
  intros Hok Hcur Hsmall Hfull Hlen p' tops'.
  destruct (new_block_index_spec _ _ _ _ _ _ _ _ raw Hok Hcur Hsmall) as (Hh' & Hb' & Hn' & He').
  pose proof (current_hdr _ _ _ _ _ _ _ _ Hok Hcur) as Hh.
  pose proof (cap_bounds _ _ _ _ _ Hh) as Hcap. fold p' in Hh', Hb', Hn', He'.
  pose proof (hdr_grown _ _ _ p _ _ Hh eq_refl Hsmall) as Hg.
  destruct (copy_index_all _ _ _ _ _ Hh) as (Hclen & _).
  destruct Hok as [Htops Hhdr Hents Hlo Hnd Hbound Hcl Hkey Hval Hjunk].
  assert (forall e E, entries p !! e = Some E -> entries p' !! e = Some E) as Hkeep
    by (intros e E HE; rewrite He'; by apply lookup_app_l_Some).
  split; [|split].
  - split; rewrite ?Hh', ?He'; unfold tops'; rewrite ?length_app, ?length_replicate; simpl; try done; try lia.
    + intros i' H' c' [Hi'|[Hi' [? <-]%list_lookup_singleton_Some]]%lookup_app_Some Hc'.
      * rewrite lookup_app_l in Hc' by (apply lookup_lt_Some in Hi'; lia).
        eapply hdr_mono; [by eapply Hhdr|eexists; symmetry; apply app_nil_r|lia|lia].
      * rewrite lookup_app_r in Hc' by lia. apply list_lookup_singleton_Some in Hc' as [? <-]. done.
    + intros e He%Hbound. lia.
    + intros n e Hn He. destruct (Hkey n e Hn He) as (E & HE & Hk). exists E. split; [|done].
      by apply lookup_app_l_Some.
    + intros n e b st Hn He Hb. destruct (Hval n e b st Hn He Hb) as (E & HE & Hv). exists E.
      split; [|done]. by apply lookup_app_l_Some.
    + intros e E Hne [HE|[HE Hx]]%lookup_app_Some; [by apply (Hjunk e)|].
      apply lookup_replicate in Hx as [-> _]. by left.
  - split; [done| | | | | |].
    + rewrite Hh', length_app. simpl. lia.
    + rewrite Hh'. by rewrite lookup_app_r, Nat.sub_diag by lia.
    + unfold tops'. rewrite <- Htops. by rewrite lookup_app_r, Nat.sub_diag by lia.
    + by rewrite Hn'.
    + simpl. lia.
    + right. simpl. lia.
  - exists (length (entries p)), (mkEntry INVALID_BLOCK_BASE raw). repeat split.
    + simpl. rewrite Z.mod_small by lia. unfold index_at. simpl.
      rewrite lookup_app_r by lia. rewrite lookup_seq. split; lia.
    + rewrite He', lookup_app_r, Nat.sub_diag by lia. apply lookup_replicate. split; [done|lia].
Qed.

End Index.
