(* ===== verification/CqLin.v ===== *)
(** * The invariant of a sub-queue

    The invariant of [CqProducer.sys] assembled from the parts in [CqInv] and [CqIndex], its
    preservation by every step of every thread, and what each step does to the list of elements
    the sub-queue stands for: publish one at its end, take one from its front, or nothing.
    [CqSub] and [CqFifo] conclude from it. *)
From stdpp Require Import functions.
From S2P Require Import Prelude CqArith CqProducer CqInv CqIndex.

#[local] Arguments Nat.div : simpl never.
#[local] Arguments Nat.modulo : simpl never.
#[local] Arguments Nat.mul : simpl never.

(** ** The list of elements

    The list a sub-queue stands for and, per thread, the element the thread has taken and not
    yet returned, with what the events do to them.  When a dequeue may find nothing and when
    an enqueue returns is the matter of the specification in [CqFifo]. *)
Section Spec.
Context {A : Type}.

Record atomic := mkAtomic { items : list A; pending : nat -> option A }.

Definition same_pending (except : nat -> Prop) (a a' : atomic) : Prop :=
  forall tid, ~ except tid -> pending a' tid = pending a tid.

Definition atomic_step (a : atomic) (ev : event A) (a' : atomic) : Prop :=
  match ev with
  | EPush v => items a' = items a ++ [v] /\ same_pending (fun _ => False) a a'
  | ECallEnqueue _ | EEnqueue _ | ECallDequeue _ =>
      items a' = items a /\ same_pending (fun _ => False) a a'
  | ETake tid =>
      exists v, items a = v :: items a' /\ pending a tid = None /\ pending a' tid = Some v /\
        same_pending (eq tid) a a'
  | EDequeue tid r =>
      items a' = items a /\ pending a tid = r /\ pending a' tid = None /\ same_pending (eq tid) a a'
  end.

Fixpoint atomic_steps (a : atomic) (evs : list (event A)) (a' : atomic) : Prop :=
  match evs with
  | [] => items a' = items a /\ same_pending (fun _ => False) a a'
  | ev :: evs => exists a1, atomic_step a ev a1 /\ atomic_steps a1 evs a'
  end.

Definition atomic_empty : atomic := mkAtomic [] (fun _ => None).

End Spec.
Arguments atomic : clear implicits.

(** ** The invariant *)

Section Lin.
Context {A : Type} (start : Z) (raw_value : option nat).

(** The 64-bit index of element (or ticket) number [k]. *)
Definition idx (k : nat) : Z := u64 (start + Z.of_nat k).

Record ghost := mkGhost {
  elems : list A;
  claims : list claim;
  heads : list idx_state;
  binfo : list (nat * blk_state);
  ents : list nat;
  lo : nat;
  tops : list nat;
  own : gmap nat owner;
  gcs : nat -> gpc }.

(** A thread's program counter is the machine version of its ghost. *)
Definition conc (g : ghost) (p : ImplicitProducer) (x : gpc) (pc : cpc A) : Prop :=
  match x with
  | GIdle => ~ running pc \/ pc = CDequeue
  | GOvercommit ti => pc = COvercommit (idx ti)
  | GOptimistic ti oi => pc = COptimistic (idx ti) (u64 (Z.of_nat oi))
  | GClaim oi => pc = CClaim (u64 (Z.of_nat oi))
  | GTest oi m => pc = CTest (u64 (Z.of_nat oi)) (idx m)
  | GTake _ => pc = CTake
  | GGiveUp _ => pc = CGiveUp
  | GIndex k => pc = CIndex (idx k)
  | GTail k h => pc = CTail (idx k) h /\ exists c, tops g !! h = Some c /\ (k / 32 < c)%nat
  | GBase k h t J =>
      pc = CBase (idx k) h t /\ (k / 32 <= J < length (ents g))%nat /\
      exists H, headers p !! h = Some H /\ index_at H t = ents g !! J /\
        index_at H ((t - (Z.of_nat J - Z.of_nat (k / 32))) mod capacity H) = ents g !! (k / 32)%nat
  | GValue k => exists e, pc = CValue (idx k) e /\ ents g !! (k / 32)%nat = Some e
  | GMove k =>
      exists e b st, pc = CMove (idx k) e b /\ ents g !! (k / 32)%nat = Some e /\
        binfo g !! (k / 32)%nat = Some (b, st)
  | GEmpty k =>
      exists e b st v, pc = CEmpty (idx k) e b v /\ ents g !! (k / 32)%nat = Some e /\
        binfo g !! (k / 32)%nat = Some (b, st) /\ elems g !! k = Some v
  | GClear k =>
      exists e b st v, pc = CClear (idx k) e b v /\ ents g !! (k / 32)%nat = Some e /\
        binfo g !! (k / 32)%nat = Some (b, st) /\ elems g !! k = Some v
  | GFree k =>
      exists b st v, pc = CFree (idx k) b v /\
        binfo g !! (k / 32)%nat = Some (b, st) /\ elems g !! k = Some v
  end.

(** Program points of the enqueuing thread: between the choice of the block and the
    publication of its first element; with the index tail on the reserved entry; while the
    value of the reserved entry is not yet defined. *)
Definition mid (pc : ppc A) : bool :=
  match pc with PConstruct _ _ | PPublish _ _ => true | _ => false end.
Definition advanced (pc : ppc A) : bool :=
  match pc with PBlock _ _ _ | PRewind _ | PReset _ _ _ _ | PValue _ _ _ _ => true | _ => false end.
Definition unset (pc : ppc A) : bool :=
  match pc with PTail _ _ _ _ _ | PUnset _ => true | _ => advanced pc end.
Definition indexless (pc : ppc A) : bool :=
  match pc with PIdle | PRet _ | PEnqueue _ | PHead _ _ | PInsert _ _ => true | _ => false end.

(** The local variables of the enqueuing thread. *)
Definition locals (g : ghost) (p : ImplicitProducer) (m : Pool A) (pc : ppc A) : Prop :=
  let T := length (elems g) in
  let n := length (binfo g) in
  match pc with
  | PIdle | PRet _ | PEnqueue _ => True
  | PHead _ t | PInsert _ t => t = idx T /\ T = (32 * n)%nat
  | PKey _ t h nt e =>
      t = idx T /\ T = (32 * n)%nat /\ next_entry p = Some (h, nt, e) /\
      exists E, entries p !! e = Some E /\ (key E = INVALID_BLOCK_BASE \/ value E = None)
  | PTail _ t h nt e =>
      t = idx T /\ T = (32 * n)%nat /\ next_entry p = Some (h, nt, e) /\ ents g !! n = Some e
  | PGrow _ t =>
      t = idx T /\ T = (32 * n)%nat /\ length (ents g) = n /\
      forall i H c, current (ents g) (lo g) (tops g) (binfo g) p i H c ->
        Z.of_nat n - Z.of_nat (lo g) = capacity H
  | PBlock _ t e => t = idx T /\ T = (32 * n)%nat /\ ents g !! n = Some e
  | PRewind e | PUnset e => T = (32 * n)%nat /\ ents g !! n = Some e
  | PReset _ t e b =>
      t = idx T /\ T = (32 * n)%nat /\ ents g !! n = Some e /\ own g !! b = Some OwnPrivate
  | PValue _ t e b =>
      t = idx T /\ T = (32 * n)%nat /\ ents g !! n = Some e /\ own g !! b = Some OwnPrivate /\
      exists B, deref m b = Some B /\ elementsCompletelyDequeued B = 0
  | PConstruct _ t => t = idx T
  | PPublish v t =>
      t = idx T /\ exists b B, tailBlock p = Some b /\ deref m b = Some B /\
        elements B !! (T mod 32)%nat = Some (Some v)
  | PFault => False
  end.

(** The block the enqueuing thread has taken from the pool and not yet put to use. *)
Definition private_of (pc : ppc A) : option nat :=
  match pc with PReset _ _ _ b | PValue _ _ _ b => Some b | _ => None end.

Record producer_ok (g : ghost) (p : ImplicitProducer) (m : Pool A) (pc : ppc A) : Prop := {
  pr_size :
    if mid pc then (length (elems g) < 32 * length (binfo g) <= length (elems g) + 32)%nat
    else (length (elems g) <= 32 * length (binfo g) < length (elems g) + 32)%nat;
  pr_tail :
    (length (elems g) < 32 * length (binfo g))%nat ->
    exists b st, tailBlock p = Some b /\ binfo g !! (length (elems g) / 32)%nat = Some (b, st);
  pr_current :
    (blockIndex p = None /\ ents g = [] /\ indexless pc = true) \/
    exists i H, current (ents g) (lo g) (tops g) (binfo g) p i H
                  (if advanced pc then S (length (binfo g)) else length (binfo g)) /\
      (length (ents g) = S (length (binfo g)) -> advanced pc = false ->
       exists e, ents g !! length (binfo g) = Some e /\
         index_at H ((header_tail H + 1) mod capacity H) = Some e /\
         (unset pc = false -> exists E, entries p !! e = Some E /\ value E = None));
  pr_locals : locals g p m pc;
  pr_private b : own g !! b = Some OwnPrivate -> private_of pc = Some b;
  pr_last b st : binfo g !! (length (binfo g) - 1)%nat = Some (b, st) -> tailBlock p = Some b }.

Record inv (N : nat) (s : sys A) (g : ghost) : Prop := {
  v_bound : (length (elems g) + length (claims g) <= N)%nat;
  v_tail : tailIndex (producer s) = idx (length (elems g));
  v_head : headIndex (producer s) = idx (length (heads g));
  v_optimistic : dequeueOptimisticCount (producer s) = idx (length (claims g));
  v_overcommit : dequeueOvercommit (producer s) = u64 (Z.of_nat (count is_lost (claims g)));
  v_tickets : tickets (claims g) (gcs g) (length (elems g)) (length (heads g));
  v_indices : indices (heads g) (gcs g);
  v_blocks : blocks_ok (elems g) (heads g) (binfo g) (gcs g) (pool s) (own g);
  v_pool : pool_ok (pool s) (own g);
  v_index : index_ok start (ents g) (lo g) (tops g) (binfo g) (producer s);
  v_producer : producer_ok g (producer s) (pool s) (enqueuer s);
  v_conc tid : conc g (producer s) (gcs g tid) (consumers s tid) }.

(** The list of elements a ghost stands for. *)
Definition abs (g : ghost) : atomic A :=
  mkAtomic (drop (length (heads g)) (elems g))
    (fun tid => taken_index (gcs g tid) ≫= fun k => elems g !! k).

(** ** Facts shared by the steps *)

Lemma taken_lt N s g tid k :
  inv N s g -> taken_index (gcs g tid) = Some k ->
  (k < length (heads g))%nat /\ (k < length (elems g))%nat /\ (k / 32 < length (binfo g))%nat.
Proof.
  intros Hv Hk.
  assert (k < length (heads g))%nat as Hh.
  { assert (exists x, index_of tid (gcs g tid) = Some (k, x)) as [x Hx].
    { destruct (gcs g tid); simplify_eq/=; eauto. }
    apply (ix_index _ _ (v_indices _ _ _ Hv)) in Hx. by eapply lookup_lt_Some. }
  pose proof (tickets_head _ _ _ _ (v_tickets _ _ _ Hv)).
  pose proof (pr_size _ _ _ _ (v_producer _ _ _ Hv)) as Hs.
  split; [done|]. split; [lia|]. apply Nat.Div0.div_lt_upper_bound. destruct (mid _); lia.
Qed.

(** A later ghost state and producer: what a thread that does not move relies on. *)
Record later (g g' : ghost) (p p' : ImplicitProducer) : Prop := {
  lt_ents : exists l, ents g' = ents g ++ l;
  lt_elems : exists l, elems g' = elems g ++ l;
  lt_binfo n b st : binfo g !! n = Some (b, st) -> exists st', binfo g' !! n = Some (b, st');
  lt_tops h c n :
    tops g !! h = Some c -> (n < c)%nat -> (n < length (binfo g))%nat ->
    exists c', tops g' !! h = Some c' /\ (n < c')%nat;
  lt_headers h H :
    headers p !! h = Some H ->
    exists H', headers p' !! h = Some H' /\ capacity H' = capacity H /\ header_index H' = header_index H }.

Lemma conc_later g g' p p' x pc :
  later g g' p p' -> (forall k, taken_index x = Some k -> (k / 32 < length (binfo g))%nat) ->
  conc g p x pc -> conc g' p' x pc.
Proof.
  intros [[le Hents] [lv Hel] Hb Ht Hh] Hk. unfold conc. destruct x; try done; simpl in *.
  - intros [-> (c & Hc & Hlt)]. split; [done|]. eapply Ht; eauto.
  - intros (-> & HJ & H & HH & H1 & H2). split; [done|]. rewrite Hents, length_app.
    split; [lia|]. destruct (Hh _ _ HH) as (H' & HH' & Hcap & Hidx). exists H'. split; [done|].
    unfold index_at in *. rewrite Hcap, Hidx, H1, H2.
    split; symmetry; apply lookup_app_l; lia.
  - intros (e & -> & He). exists e. split; [done|]. rewrite Hents. by apply lookup_app_l_Some.
  - intros (e & b & st & -> & He & Hbi). destruct (Hb _ _ _ Hbi) as [st' Hb']. exists e, b, st'.
    split; [done|]. split; [|done]. rewrite Hents. by apply lookup_app_l_Some.
  - intros (e & b & st & v & -> & He & Hbi & Hv). destruct (Hb _ _ _ Hbi) as [st' Hb'].
    exists e, b, st', v. rewrite Hents, Hel.
    split; [done|]. split; [by apply lookup_app_l_Some|]. split; [done|by apply lookup_app_l_Some].
  - intros (e & b & st & v & -> & He & Hbi & Hv). destruct (Hb _ _ _ Hbi) as [st' Hb'].
    exists e, b, st', v. rewrite Hents, Hel.
    split; [done|]. split; [by apply lookup_app_l_Some|]. split; [done|by apply lookup_app_l_Some].
  - intros (b & st & v & -> & Hbi & Hv). destruct (Hb _ _ _ Hbi) as [st' Hb'].
    exists b, st', v. rewrite Hel. split; [done|]. split; [done|by apply lookup_app_l_Some].
Qed.

Definition with_gcs (f : nat -> gpc) (g : ghost) : ghost :=
  mkGhost (elems g) (claims g) (heads g) (binfo g) (ents g) (lo g) (tops g) (own g) f.

(** What a dequeuing thread may change under the enqueuing one. *)
Record quiet (g g' : ghost) (p p' : ImplicitProducer) (m m' : Pool A) : Prop := {
  qt_elems : elems g' = elems g;
  qt_ents : ents g' = ents g;
  qt_lo : lo g' = lo g;
  qt_tops : tops g' = tops g;
  qt_length : length (binfo g') = length (binfo g);
  qt_binfo n b st : binfo g !! n = Some (b, st) -> exists st', binfo g' !! n = Some (b, st');
  qt_index : blockIndex p' = blockIndex p;
  qt_headers : headers p' = headers p;
  qt_next : nextBlockIndexCapacity p' = nextBlockIndexCapacity p;
  qt_tail : tailBlock p' = tailBlock p;
  qt_entries e E :
    entries p !! e = Some E ->
    exists E', entries p' !! e = Some E' /\ key E' = key E /\ (value E = None -> value E' = None);
  qt_private b : own g !! b = Some OwnPrivate -> own g' !! b = Some OwnPrivate /\ deref m' b = deref m b;
  qt_slot b B v st :
    binfo g !! (length (elems g) / 32)%nat = Some (b, st) -> deref m b = Some B ->
    elements B !! (length (elems g) mod 32)%nat = Some (Some v) ->
    exists B', deref m' b = Some B' /\ elements B' !! (length (elems g) mod 32)%nat = Some (Some v);
  qt_owned b : own g' !! b = Some OwnPrivate -> own g !! b = Some OwnPrivate }.

Lemma quiet_later g g' p p' m m' : quiet g g' p p' m m' -> later g g' p p'.
Proof.
  intros [He Hn Hl Ht Hlen Hb Hi Hh _ _ _ _ _ _]. split; [| |done| |].
  - exists []. by rewrite app_nil_r.
  - exists []. by rewrite app_nil_r.
  - intros h c n Hc Hn' _. rewrite Ht. eauto.
  - intros h H HH. rewrite Hh. eauto.
Qed.

Lemma producer_quiet g g' p p' m m' pc :
  quiet g g' p p' m m' -> producer_ok g p m pc -> producer_ok g' p' m' pc.
Proof.
  intros [He Hn Hl Ht Hlen Hb Hi Hh Hx Htl Hen Hpr Hsl Hown] [Hsize Htail Hcur Hloc Hpriv Hlast].
  assert (forall i H c, current (ents g) (lo g) (tops g) (binfo g) p i H c <->
                        current (ents g') (lo g') (tops g') (binfo g') p' i H c) as Hcc.
  { intros i H c. rewrite Hn, Hl, Ht.
    split; intros Hc; (eapply current_length; [|first [exact Hlen|symmetry; exact Hlen]]);
      (eapply current_same; [..|exact Hc]); congruence. }
  assert (next_entry p' = next_entry p) as Hne by (unfold next_entry; by rewrite Hi, Hh).
  split.
  - by rewrite He, Hlen.
  - rewrite He, Hlen, Htl. intros Hlt. destruct (Htail Hlt) as (b & st & Htb & Hbi).
    destruct (Hb _ _ _ Hbi) as [st' Hb']. eauto.
  - rewrite Hi, Hn, Hlen. destruct Hcur as [?|(i & H & Hc & Hres)]; [by left|right].
    exists i, H. split; [rewrite <- Hn; by apply Hcc|]. intros H1 H2.
    destruct (Hres H1 H2) as (e & He1 & He2 & Hv). exists e. split; [done|]. split; [done|].
    intros Hu. destruct (Hv Hu) as (E & HE & HvE). destruct (Hen _ _ HE) as (E' & HE' & _ & Hv'). eauto.
  - unfold locals in *. rewrite He, Hlen, Hn, Hne, Htl.
    destruct pc; try done; [|..].
    + destruct Hloc as (-> & HT & Hnx & E & HE & Hu). do 3 (split; [done|]).
      destruct (Hen _ _ HE) as (E' & HE' & Hk & Hv). exists E'. rewrite Hk. intuition.
    + destruct Hloc as (-> & HT & Hle & Hg). do 3 (split; [done|]).
      intros i H c Hc. rewrite Hl. rewrite <- Hn in Hc. apply Hcc in Hc. by eapply Hg.
    + destruct Hloc as (-> & HT & Hee & Hob). do 3 (split; [done|]). by apply Hpr.
    + destruct Hloc as (-> & HT & Hee & Hob & B & HB & Hc). do 3 (split; [done|]).
      destruct (Hpr _ Hob) as [Ho' Hd']. split; [done|]. exists B. by rewrite Hd'.
    + destruct Hloc as (-> & b & B & Htb & HB & Hs). split; [done|].
      destruct (Htail ltac:(simpl in Hsize; lia)) as (b' & st & Htb' & Hbi). simplify_eq.
      destruct (Hsl _ _ _ _ Hbi HB Hs) as (B' & HB' & Hs'). eauto.
  - intros b Hb'. by apply Hpriv, Hown.
  - intros b st Hbl. rewrite Htl. rewrite Hlen in Hbl.
    destruct (lookup_lt_is_Some_2 (binfo g) (length (binfo g) - 1)%nat) as [[b0 st0] H0].
    { rewrite <- Hlen. apply lookup_lt_Some in Hbl. by rewrite <- Hlen in Hbl. }
    destruct (Hb _ _ _ H0) as [st1 H1]. rewrite Hbl in H1. injection H1 as -> _. by eapply Hlast.
Qed.

(** All the threads that do not move. *)
Lemma conc_move N s g g' p' tid x' c' :
  inv N s g -> later g g' (producer s) p' -> gcs g' = <[tid := x']> (gcs g) -> conc g' p' x' c' ->
  forall t, conc g' p' (gcs g' t) (<[tid := c']> (consumers s) t).
Proof.
  intros Hv Hl Hg Hc t. rewrite Hg. by_thread tid t; [done|].
  eapply conc_later; [done| |apply (v_conc _ _ _ Hv)].
  intros k Hk. by eapply taken_lt.
Qed.

Lemma quiet_gcs g f p m : quiet g (with_gcs f g) p p m m.
Proof. split; simpl; eauto. Qed.

(** Steps that read shared memory only. *)
Lemma inv_local N p m pc cs g tid x' c' :
  inv N (mkSys p m pc cs) g ->
  claim_of tid (gcs g tid) = None -> claim_of tid x' = None ->
  regs_ok (claims g) (length (elems g)) x' ->
  index_of tid x' = index_of tid (gcs g tid) -> blk_of tid x' = blk_of tid (gcs g tid) ->
  conc g p x' c' ->
  inv N (mkSys p m pc (<[tid := c']> cs)) (with_gcs (<[tid := x']> (gcs g)) g).
Proof.
  intros Hv Hc1 Hc2 Hr Hi Hb Hconc.
  pose proof (quiet_gcs g (<[tid := x']> (gcs g)) p m) as Hq.
  pose proof (conc_move _ _ _ (with_gcs (<[tid := x']> (gcs g)) g) p tid x' c' Hv
                (quiet_later _ _ _ _ _ _ Hq) eq_refl) as Hm.
  destruct Hv. split; simpl in *; try done.
  - by apply tickets_local.
  - apply indices_local; [done|by left].
  - by apply blocks_local.
  - by eapply producer_quiet.
  - intros t. apply Hm. exact Hconc.
Qed.

Lemma inv_mono N N' s g : (N <= N')%nat -> inv N s g -> inv N' s g.
Proof. intros HN []. split; try done. lia. Qed.

(** What the other users of the pool rely on: a step leaves their blocks alone. *)
Definition respects (g : ghost) (m : Pool A) (g' : ghost) (m' : Pool A) : Prop :=
  others m' = others m /\
  forall b, (own g !! b = Some OwnOther -> own g' !! b = Some OwnOther /\ deref m' b = deref m b) /\
            (own g' !! b = Some OwnOther -> own g !! b = Some OwnOther).

Lemma respects_same g m g' : own g' = own g -> respects g m g' m.
Proof. intros Ho. split; [done|]. intros b. by rewrite Ho. Qed.

Lemma respects_store g m g' b B :
  own g' = own g -> own g !! b <> Some OwnOther -> is_Some (deref m b) ->
  respects g m g' (store_block b B m).
Proof.
  intros Ho Hb Hd. split; [done|]. intros b'. rewrite Ho. split; [|done]. intros Hb'. split; [done|].
  rewrite deref_store by done. rewrite decide_False; [done|]. by intros ->.
Qed.

Lemma respects_trans g1 m1 g2 m2 g3 m3 :
  respects g1 m1 g2 m2 -> respects g2 m2 g3 m3 -> respects g1 m1 g3 m3.
Proof.
  intros [Ho1 H1] [Ho2 H2]. split; [congruence|]. intros b. specialize (H1 b). specialize (H2 b).
  split; [|naive_solver]. intros Hb. destruct H1 as [H1 _], H2 as [H2 _].
  destruct (H1 Hb) as [Hb2 Hd2]. destruct (H2 Hb2) as [Hb3 Hd3]. split; [done|]. congruence.
Qed.

(** The outcome of a step: a new invariant, and the effect of the events; and of a step of this
    sub-queue. *)
Definition outcome (N : nat) (g : ghost) (ev : list (event A)) (s' : sys A) : Prop :=
  exists g', inv (S N) s' g' /\ atomic_steps (abs g) ev (abs g').

Definition good (N : nat) (g : ghost) (m : Pool A) (ev : list (event A)) (s' : sys A) : Prop :=
  exists g', inv (S N) s' g' /\ atomic_steps (abs g) ev (abs g') /\ respects g m g' (pool s').

Lemma good_outcome N g m ev s' : good N g m ev s' -> outcome N g ev s'.
Proof. intros (g' & Hv & Ha & _). by exists g'. Qed.

(** A call changes nothing but the place of its thread. *)
Definition silent_event (e : event A) : bool :=
  match e with ECallEnqueue _ | ECallDequeue _ => true | _ => false end.

Lemma good_silent_event N g m e s' : silent_event e = true -> good N g m [] s' -> good N g m [e] s'.
Proof.
  intros He (g' & Hv & [Hi Hp] & Hre). exists g'. split; [done|]. split; [|done].
  exists (abs g'). split; [|by split]. by destruct e.
Qed.

Lemma abs_silent g g' :
  elems g' = elems g -> length (heads g') = length (heads g) ->
  (forall t, taken_index (gcs g' t) = taken_index (gcs g t)) -> atomic_steps (abs g) [] (abs g').
Proof. intros He Hh Hg. split; simpl; [by rewrite He, Hh|]. intros t _. simpl. by rewrite He, Hg. Qed.

Lemma abs_return g g' tid x' r :
  elems g' = elems g -> length (heads g') = length (heads g) -> gcs g' = <[tid := x']> (gcs g) ->
  taken_index x' = None -> taken_index (gcs g tid) ≫= (fun k => elems g !! k) = r ->
  atomic_steps (abs g) [EDequeue tid r] (abs g').
Proof.
  intros He Hh Hg Hx Hr. exists (abs g'). split; [|by split].
  repeat split; simpl; [by rewrite He, Hh|done| |].
  - by rewrite Hg, fn_lookup_insert, Hx.
  - intros t Ht. simpl. rewrite He, Hg, fn_lookup_insert_ne; done.
Qed.

(** A step that reads shared memory only, and its result. *)
Lemma good_local N p m pc cs g tid x' c' ev :
  inv N (mkSys p m pc cs) g ->
  claim_of tid (gcs g tid) = None -> claim_of tid x' = None ->
  regs_ok (claims g) (length (elems g)) x' ->
  index_of tid x' = index_of tid (gcs g tid) -> blk_of tid x' = blk_of tid (gcs g tid) ->
  conc g p x' c' ->
  taken_index x' = taken_index (gcs g tid) ->
  (ev = [] \/ ev = [EDequeue tid None] /\ taken_index (gcs g tid) = None) ->
  good N g m ev (mkSys p m pc (<[tid := c']> cs)).
Proof.
  intros Hv Hc1 Hc2 Hr Hi Hb Hc Ht Hev.
  exists (with_gcs (<[tid := x']> (gcs g)) g). split; [|split; [|by apply respects_same]].
  - eapply inv_mono; [|by apply inv_local]. lia.
  - destruct Hev as [->|[-> Hn]].
    + apply abs_silent; [done..|]. intros t. simpl. by_thread tid t; done.
    + eapply abs_return; [done..|by rewrite Ht|by rewrite Hn].
Qed.

(** Arithmetic on indices within the bound. *)
Lemma idx_succ k : u64 (idx k + 1) = idx (S k).
Proof. unfold idx. rewrite u64_add_l. f_equal. lia. Qed.

Lemma idx_sub_lt (a b t : nat) :
  Z.of_nat a < 2 ^ 61 -> Z.of_nat b < 2 ^ 61 -> Z.of_nat t < 2 ^ 61 ->
  circular_less_than (u64 (idx a - u64 (Z.of_nat b))) (idx t) = (Z.of_nat a - Z.of_nat b <? Z.of_nat t).
Proof.
  intros Ha Hb Ht. unfold idx. autorewrite with l3u64.
  rewrite circular_less_than_spec by lia.
  apply eq_true_iff_eq. rewrite !Z.ltb_lt. lia.
Qed.

(** ** The steps of a dequeuing thread *)

Section Dequeue.
Context (N : nat) (p : ImplicitProducer) (m : Pool A) (pc : ppc A) (cs : nat -> cpc A) (g : ghost) (tid : nat).
Context (Hv : inv N (mkSys p m pc cs) g) (HN : Z.of_nat N < 2 ^ 60).

Lemma tail_eq : tailIndex p = idx (length (elems g)).
Proof. apply (v_tail _ _ _ Hv). Qed.
Lemma head_eq : headIndex p = idx (length (heads g)).
Proof. apply (v_head _ _ _ Hv). Qed.
Lemma overcommit_eq : dequeueOvercommit p = u64 (Z.of_nat (count is_lost (claims g))).
Proof. apply (v_overcommit _ _ _ Hv). Qed.

Lemma conc_idle x c : conc g p x c -> (~ running c \/ c = CDequeue) -> x = GIdle.
Proof. destruct x; simpl; [done|..]; intros H [Hr|Hr]; naive_solver. Qed.

Lemma deq_call : ~ running (cs tid) -> good N g m [ECallDequeue tid] (mkSys p m pc (<[tid := CDequeue]> cs)).
Proof.
  intros Hr. assert (gcs g tid = GIdle) as Hg.
  { eapply conc_idle; [apply (v_conc _ _ _ Hv)|by left]. }
  apply good_silent_event; [done|].
  eapply (good_local _ _ _ _ _ _ _ GIdle); rewrite ?Hg; try done; [by right|by left].
Qed.

Lemma deq_start : cs tid = CDequeue -> good N g m [] (mkSys p m pc (<[tid := COvercommit (tailIndex p)]> cs)).
Proof.
  intros Hr. assert (gcs g tid = GIdle) as Hg.
  { eapply conc_idle; [apply (v_conc _ _ _ Hv)|by right]. }
  eapply (good_local _ _ _ _ _ _ _ (GOvercommit (length (elems g)))); rewrite ?Hg; try done; try (by left); try (simpl; lia).
  simpl. by rewrite tail_eq.
Qed.

Lemma deq_overcommit ti :
  gcs g tid = GOvercommit ti ->
  good N g m [] (mkSys p m pc (<[tid := COptimistic (idx ti) (dequeueOvercommit p)]> cs)).
Proof.
  intros Hg. pose proof (tk_regs _ _ _ _ (v_tickets _ _ _ Hv) tid) as Hr. rewrite Hg in Hr.
  eapply (good_local _ _ _ _ _ _ _ (GOptimistic ti (count is_lost (claims g)))); rewrite ?Hg; try done; try (by left).
  simpl. by rewrite overcommit_eq.
Qed.

Lemma deq_optimistic ti oi (b : bool) :
  gcs g tid = GOptimistic ti oi ->
  let c' := if b then CClaim (u64 (Z.of_nat oi)) else CRet None in
  good N g m (dequeue_event tid (COptimistic (idx ti) (u64 (Z.of_nat oi))) c') (mkSys p m pc (<[tid := c']> cs)).
Proof.
  intros Hg c'. pose proof (tk_regs _ _ _ _ (v_tickets _ _ _ Hv) tid) as Hr. rewrite Hg in Hr.
  destruct Hr as [_ Hr].
  eapply (good_local _ _ _ _ _ _ _ (if b then GClaim oi else GIdle)); rewrite ?Hg; unfold c'; destruct b;
    try done; [left; by intros []|by left|by right].
Qed.

Lemma deq_claim oi :
  gcs g tid = GClaim oi ->
  good N g m [] (mkSys (set_dequeueOptimisticCount (u64 (dequeueOptimisticCount p + 1)) p) m pc
                 (<[tid := CTest (u64 (Z.of_nat oi)) (dequeueOptimisticCount p)]> cs)).
Proof.
  intros Hg.
  set (g' := mkGhost (elems g) (claims g ++ [Undecided tid]) (heads g) (binfo g) (ents g) (lo g) (tops g)
               (own g) (<[tid := GTest oi (length (claims g))]> (gcs g))).
  assert (quiet g g' p (set_dequeueOptimisticCount (u64 (dequeueOptimisticCount p + 1)) p) m m) as Hq
    by (split; simpl; eauto).
  exists g'. split; [|split; [|by apply respects_same]].
  - pose proof (conc_move _ _ _ g' _ tid _ (CTest (u64 (Z.of_nat oi)) (dequeueOptimisticCount p)) Hv
                  (quiet_later _ _ _ _ _ _ Hq) eq_refl) as Hm.
    destruct Hv as [Hb Ht Hh Ho Hc Htk Hi Hbk Hpo Hin Hpr Hco]. simpl in *. split; simpl; try done.
    + rewrite length_app. simpl. lia.
    + rewrite Ho, idx_succ, length_app. simpl. f_equal. lia.
    + rewrite count_app. simpl. by rewrite Nat.add_0_r.
    + by apply tickets_claim.
    + apply indices_local; [done|]. left. by rewrite Hg.
    + apply blocks_local; [done|]. by rewrite Hg.
    + by eapply index_same; [..|exact Hin].
    + by eapply producer_quiet.
    + intros t. apply Hm. simpl. by rewrite Ho.
  - apply abs_silent; [done..|]. intros t. simpl. by_thread tid t; [by rewrite Hg|done].
Qed.

(** A ticket is decided or redeemed: what changes besides the counters. *)
Lemma deq_ticket p' c' x' mi c cl hd ev :
  claim_of tid (gcs g tid) = Some (mi, c) ->
  let g' := mkGhost (elems g) (<[mi := cl]> (claims g)) hd (binfo g) (ents g) (lo g) (tops g)
              (own g) (<[tid := x']> (gcs g)) in
  claim_of tid x' = (fun _ => (mi, cl)) <$> claim_tid cl ->
  claim_tid cl = None \/ claim_tid cl = Some tid ->
  (is_won cl = true ->
     is_won c = true \/ (mi + 1 <= length (elems g) + count is_lost (take mi (claims g)))%nat) ->
  regs_ok (claims g) (length (elems g)) x' ->
  (claims g !! mi = Some c -> count is_taken (<[mi := cl]> (claims g)) = length hd) ->
  quiet g g' p p' m m -> tailIndex p' = tailIndex p -> entries p' = entries p ->
  headIndex p' = idx (length hd) -> dequeueOptimisticCount p' = dequeueOptimisticCount p ->
  (claims g !! mi = Some c ->
     dequeueOvercommit p' = u64 (Z.of_nat (count is_lost (<[mi := cl]> (claims g))))) ->
  indices hd (<[tid := x']> (gcs g)) ->
  blocks_ok (elems g) hd (binfo g) (<[tid := x']> (gcs g)) m (own g) ->
  conc g' p' x' c' -> atomic_steps (abs g) ev (abs g') ->
  good N g m ev (mkSys p' m pc (<[tid := c']> cs)).
Proof.
  intros Hold g' Hnew Hname Hwon Hregs Htaken Hq Hti Hen Hhi Hdo Hov Hix Hbl Hco' Hev.
  exists g'. split; [|split; [done|by apply respects_same]].
  pose proof (conc_move _ _ _ g' _ tid _ c' Hv (quiet_later _ _ _ _ _ _ Hq) eq_refl Hco') as Hm.
  destruct Hv as [Hb Ht Hh Ho Hc Htk Hi Hbk Hpo Hin Hpr Hco]. simpl in *.
  assert (claims g !! mi = Some c) as Hmi.
  { apply (tk_claim _ _ _ _ Htk mi c tid); [|done]. destruct (gcs g tid); simplify_eq/=; done. }
  edestruct (tickets_update _ _ _ _ (length hd) _ x' _ _ cl Htk Hold) as [_ Htk']; [done..|by apply Htaken|].
  split; simpl; try done; rewrite ?length_insert.
  - lia.
  - by rewrite Hti.
  - by rewrite Hdo, Ho.
  - by apply Hov.
  - eapply index_same; [apply (qt_headers _ _ _ _ _ _ Hq)|done|done].
  - by eapply producer_quiet.
Qed.

Lemma counters_small (k : nat) :
  (k <= length (elems g))%nat \/ (k <= length (claims g))%nat -> Z.of_nat k < 2 ^ 60.
Proof. pose proof (v_bound _ _ _ Hv). lia. Qed.

Lemma deq_test oi mi :
  gcs g tid = GTest oi mi ->
  let won := circular_less_than (u64 (idx mi - u64 (Z.of_nat oi))) (tailIndex p) in
  good N g m [] (mkSys p m pc (<[tid := if won then CTake else CGiveUp]> cs)).
Proof.
  intros Hg won. pose proof (tk_regs _ _ _ _ (v_tickets _ _ _ Hv) tid) as Hr. rewrite Hg in Hr. simpl in Hr.
  assert (claims g !! mi = Some (Undecided tid)) as Hmi.
  { apply (tk_claim _ _ _ _ (v_tickets _ _ _ Hv) _ _ tid); [done|]. by rewrite Hg. }
  pose proof (lookup_lt_Some _ _ _ Hmi) as Hlt.
  pose proof (count_take_le is_lost (claims g) mi). pose proof (count_le is_lost (take mi (claims g))) as Hcl.
  rewrite length_take in Hcl.
  assert (won = (Z.of_nat mi - Z.of_nat oi <? Z.of_nat (length (elems g)))) as Hw.
  { unfold won. rewrite tail_eq. pose proof (v_bound _ _ _ Hv). apply idx_sub_lt; lia. }
  pose proof (count_insert is_taken (claims g) mi _ (if won then Winner tid else Loser tid) Hmi) as Hct.
  pose proof (count_insert is_lost (claims g) mi _ (if won then Winner tid else Loser tid) Hmi) as Hcn.
  pose proof (tk_taken _ _ _ _ (v_tickets _ _ _ Hv)) as Htk.
  apply (deq_ticket p _ (if won then GTake mi else GGiveUp mi) mi (Undecided tid)
           (if won then Winner tid else Loser tid) (heads g)); try done.
  - by rewrite Hg.
  - by destruct won.
  - right. by destruct won.
  - intros Hwon. right. destruct won; [|done]. symmetry in Hw. apply Z.ltb_lt in Hw. lia.
  - by destruct won.
  - intros _. destruct won; simpl in *; lia.
  - split; simpl; eauto.
  - apply head_eq.
  - intros _. rewrite overcommit_eq. do 2 f_equal. destruct won; simpl in *; lia.
  - apply indices_local; [apply (v_indices _ _ _ Hv)|]. left. rewrite Hg. by destruct won.
  - apply blocks_local; [apply (v_blocks _ _ _ Hv)|]. rewrite Hg. by destruct won.
  - by destruct won.
  - apply abs_silent; [done..|]. intros t. simpl. by_thread tid t; [|done]. rewrite Hg. by destruct won.
Qed.

Lemma deq_giveup mi :
  gcs g tid = GGiveUp mi ->
  good N g m [EDequeue tid None]
    (mkSys (set_dequeueOvercommit (u64 (dequeueOvercommit p + 1)) p) m pc (<[tid := CRet None]> cs)).
Proof.
  intros Hg.
  assert (claims g !! mi = Some (Loser tid)) as Hmi.
  { apply (tk_claim _ _ _ _ (v_tickets _ _ _ Hv) _ _ tid); [done|]. by rewrite Hg. }
  pose proof (count_insert is_taken (claims g) mi _ Lost Hmi) as Hct.
  pose proof (count_insert is_lost (claims g) mi _ Lost Hmi) as Hcn.
  pose proof (tk_taken _ _ _ _ (v_tickets _ _ _ Hv)) as Htk. simpl in *.
  apply (deq_ticket _ _ GIdle mi (Loser tid) Lost (heads g)); try done.
  - by rewrite Hg.
  - by left.
  - intros _. lia.
  - split; simpl; eauto.
  - apply head_eq.
  - intros _. simpl. rewrite overcommit_eq, u64_add_l. f_equal. lia.
  - apply indices_local; [apply (v_indices _ _ _ Hv)|]. left. by rewrite Hg.
  - apply blocks_local; [apply (v_blocks _ _ _ Hv)|]. by rewrite Hg.
  - left. by intros [].
  - eapply abs_return; [done..|by rewrite Hg].
Qed.

Lemma deq_take mi :
  gcs g tid = GTake mi ->
  good N g m [ETake tid]
    (mkSys (set_headIndex (u64 (headIndex p + 1)) p) m pc (<[tid := CIndex (headIndex p)]> cs)).
Proof.
  intros Hg.
  assert (claims g !! mi = Some (Winner tid)) as Hmi.
  { apply (tk_claim _ _ _ _ (v_tickets _ _ _ Hv) _ _ tid); [done|]. by rewrite Hg. }
  pose proof (count_insert is_taken (claims g) mi _ Taken Hmi) as Hct.
  pose proof (count_insert is_lost (claims g) mi _ Taken Hmi) as Hcn.
  pose proof (tk_taken _ _ _ _ (v_tickets _ _ _ Hv)) as Htk.
  pose proof (tickets_bound _ _ _ _ (v_tickets _ _ _ Hv)) as Hbd.
  pose proof (count_won_taken _ _ _ Hmi) as Hwt. simpl in *.
  destruct (lookup_lt_is_Some_2 (elems g) (length (heads g)) ltac:(lia)) as [v Hvl].
  apply (deq_ticket _ _ (GIndex (length (heads g))) mi (Winner tid) Taken (heads g ++ [Held tid])); try done.
  - by rewrite Hg.
  - by left.
  - by left.
  - intros _. rewrite length_app. simpl. lia.
  - split; simpl; eauto.
  - simpl. rewrite head_eq, idx_succ, length_app. simpl. f_equal. lia.
  - intros _. simpl. rewrite overcommit_eq. do 2 f_equal. lia.
  - apply indices_take; [apply (v_indices _ _ _ Hv)| |done]. by rewrite Hg.
  - apply blocks_local; [apply blocks_take, (v_blocks _ _ _ Hv)|]. by rewrite Hg.
  - simpl. by rewrite head_eq.
  - eexists (abs _). split; [|by split]. exists v. repeat split; simpl.
    + rewrite (drop_S _ _ _ Hvl), length_app. simpl. do 2 f_equal. lia.
    + by rewrite Hg.
    + by rewrite fn_lookup_insert.
    + intros t Ht. simpl. by rewrite fn_lookup_insert_ne.
Qed.

Lemma deq_index k :
  gcs g tid = GIndex k ->
  exists h, blockIndex p = Some h /\ good N g m [] (mkSys p m pc (<[tid := CTail (idx k) h]> cs)).
Proof.
  intros Hg. destruct (taken_lt _ _ _ tid k Hv ltac:(by rewrite Hg)) as (Hh & He & Hb).
  destruct (pr_current _ _ _ _ (v_producer _ _ _ Hv)) as [(Hn & Hnil & _)|(h & H & Hc & _)].
  - pose proof (in_ents _ _ _ _ _ _ (v_index _ _ _ Hv)) as Hents. rewrite Hnil in Hents. simpl in Hents. lia.
  - exists h. split; [apply (cu_index _ _ _ _ _ _ _ _ Hc)|].
    eapply (good_local _ _ _ _ _ _ _ (GTail k h)); rewrite ?Hg; try done; [|by left].
    simpl. split; [done|]. eexists. split; [apply (cu_top _ _ _ _ _ _ _ _ Hc)|].
    simpl. destruct (advanced pc); lia.
Qed.

(** The block of an index a thread holds is in use and can be found. *)
Lemma holding_live k x :
  index_of tid (gcs g tid) = Some (k, x) -> x <> Done ->
  exists b e E, binfo g !! (k / 32)%nat = Some (b, Live) /\ (lo g <= k / 32)%nat /\
    ents g !! (k / 32)%nat = Some e /\ entries p !! e = Some E /\ value E = Some b.
Proof.
  intros Hk Hx.
  assert (heads g !! k = Some x) as Hhk by (by apply (ix_index _ _ (v_indices _ _ _ Hv) k _ tid)).
  destruct (taken_lt _ _ _ tid k Hv) as (Hh & He & Hb).
  { destruct (gcs g tid); simplify_eq/=; done. }
  pose proof (v_index _ _ _ Hv) as Hi. simpl in Hi.
  destruct (lookup_lt_is_Some_2 (binfo g) (k / 32)%nat Hb) as [[b st] Hbi].
  assert (st = Live) as ->.
  { apply (bk_live _ _ _ _ _ _ (v_blocks _ _ _ Hv) _ _ _ Hbi).
    apply (count_seg_lt _ _ _ k); [done|]. intros y Hy. assert (y = x) as -> by congruence. by destruct x. }
  assert (lo g <= k / 32)%nat as Hlo.
  { destruct (decide (lo g <= k / 32)%nat); [done|].
    destruct (in_cleared _ _ _ _ _ _ Hi (k / 32)%nat ltac:(lia)) as (b' & st & Hbi' & Hst). by simplify_eq. }
  pose proof (in_ents _ _ _ _ _ _ Hi).
  destruct (lookup_lt_is_Some_2 (ents g) (k / 32)%nat ltac:(lia)) as [e Hen].
  destruct (in_value _ _ _ _ _ _ Hi _ _ _ _ Hlo Hen Hbi) as (E & HE & HvE). by exists b, e, E.
Qed.

Lemma deq_tail k h :
  gcs g tid = GTail k h ->
  exists H, headers p !! h = Some H /\
    good N g m [] (mkSys p m pc (<[tid := CBase (idx k) h (header_tail H)]> cs)).
Proof.
  intros Hg. pose proof (v_conc _ _ _ Hv tid) as Hc. rewrite Hg in Hc. destruct Hc as [Hpc (c & Htop & Hlt)].
  destruct (taken_lt _ _ _ tid k Hv ltac:(by rewrite Hg)) as (Hh & He & Hb).
  pose proof (v_index _ _ _ Hv) as Hi. simpl in Hi. pose proof (in_tops _ _ _ _ _ _ Hi) as Hlen.
  destruct (lookup_lt_is_Some_2 (headers p) h) as [H HH].
  { rewrite <- Hlen. by eapply lookup_lt_Some. }
  exists H. split; [done|]. pose proof (in_hdr _ _ _ _ _ _ Hi h H c HH Htop) as Hh'.
  pose proof (cap_bounds _ _ _ _ _ Hh') as Hcap. pose proof (hk_top _ _ _ _ _ Hh').
  destruct (holding_live k (Held tid)) as (_ & _ & _ & _ & Hlo & _); [by rewrite Hg|done|].
  eapply (good_local _ _ _ _ _ _ _ (GBase k h (header_tail H) (c - 1))); rewrite ?Hg; try done; [|by left].
  simpl. split; [done|]. split; [lia|]. exists H. split; [done|]. split.
  - rewrite <- (hk_index _ _ _ _ _ Hh') by lia.
    pose proof (hk_tail _ _ _ _ _ Hh') as Ht.
    replace (header_tail H - _) with (header_tail H) by lia. by rewrite Z.mod_small by lia.
  - rewrite <- (hk_index _ _ _ _ _ Hh') by lia. do 3 f_equal. lia.
Qed.

Lemma slot_idx k : start mod 32 = 0 -> slot (idx k) = (k mod 32)%nat.
Proof.
  intros Hs. unfold slot, idx, BLOCK_SIZE. change (32 - 1) with (2 ^ 5 - 1).
  rewrite land_mask, u64_mod_pow2 by lia. change (2 ^ 5) with 32.
  rewrite Zplus_mod, Hs, Z.add_0_l, Zmod_mod.
  rewrite <- (Nat2Z.id (k mod 32)), Nat2Z.inj_mod. done.
Qed.

Context (Hstart : start mod 32 = 0).

Lemma deq_base k h t J :
  gcs g tid = GBase k h t J ->
  exists H te E e, headers p !! h = Some H /\ index_at H t = Some te /\ entries p !! te = Some E /\
    index_at H (block_index_position (idx k) t (key E) (capacity H)) = Some e /\
    good N g m [] (mkSys p m pc (<[tid := CValue (idx k) e]> cs)).
Proof.
  intros Hg. pose proof (v_conc _ _ _ Hv tid) as Hc. rewrite Hg in Hc.
  destruct Hc as (Hpc & HJ & H & HH & Ht & He). simpl in *.
  destruct (holding_live k (Held tid)) as (b & e & E0 & Hbi & Hlo & Hen & HE0 & HvE0); [by rewrite Hg|done|].
  destruct (lookup_lt_is_Some_2 (ents g) J ltac:(lia)) as [te Hte].
  pose proof (v_index _ _ _ Hv) as Hi. simpl in Hi.
  destruct (in_key _ _ _ _ _ _ Hi J te ltac:(lia) Hte) as (E & HE & Hk).
  exists H, te, E, e. rewrite Ht. do 3 (split; [done|]). split.
  - destruct (lookup_lt_is_Some_2 (tops g) h) as [c Htop].
    { rewrite (in_tops _ _ _ _ _ _ Hi). by eapply lookup_lt_Some. }
    pose proof (in_hdr _ _ _ _ _ _ Hi h H c HH Htop) as Hh'.
    destruct (hk_cap _ _ _ _ _ Hh') as (kk & Hkk & Hcap).
    pose proof (in_ents _ _ _ _ _ _ Hi) as Hlen.
    pose proof (pr_size _ _ _ _ (v_producer _ _ _ Hv)) as Hsz. simpl in Hsz.
    pose proof (v_bound _ _ _ Hv) as Hbd.
    assert (Z.of_nat J < 2 ^ 57) by (destruct (mid pc); lia).
    rewrite Hk, Hcap. unfold idx. rewrite block_index_position_spec; [|done|lia| |lia].
    + rewrite <- Hen, <- He, Hcap. do 3 f_equal. rewrite Nat2Z.inj_div. lia.
    + change 32 with (Z.of_nat 32). rewrite <- Nat2Z.inj_div. lia.
  - eapply (good_local _ _ _ _ _ _ _ (GValue k)); rewrite ?Hg; try done; [|by left]. simpl. eauto.
Qed.

Lemma deq_value k e :
  gcs g tid = GValue k -> ents g !! (k / 32)%nat = Some e ->
  exists E b, entries p !! e = Some E /\ value E = Some b /\
    good N g m [] (mkSys p m pc (<[tid := CMove (idx k) e b]> cs)).
Proof.
  intros Hg He.
  destruct (holding_live k (Held tid)) as (b & e' & E & Hbi & Hlo & Hen & HE & HvE); [by rewrite Hg|done|].
  assert (e' = e) as -> by congruence. exists E, b. do 2 (split; [done|]).
  eapply (good_local _ _ _ _ _ _ _ (GMove k)); rewrite ?Hg; try done; [|by left]. simpl. eauto 10.
Qed.

(** Writes to a block in use leave private blocks and the tail slot alone. *)
Lemma quiet_store g' b B B' n st :
  elems g' = elems g -> ents g' = ents g -> lo g' = lo g -> tops g' = tops g -> own g' = own g ->
  length (binfo g') = length (binfo g) ->
  (forall n b st, binfo g !! n = Some (b, st) -> exists st', binfo g' !! n = Some (b, st')) ->
  binfo g !! n = Some (b, st) -> st <> Gone -> deref m b = Some B ->
  (n = (length (elems g) / 32)%nat ->
     elements B' !! (length (elems g) mod 32)%nat = elements B !! (length (elems g) mod 32)%nat) ->
  quiet g g' p p m (store_block b B' m).
Proof.
  intros He Hn Hl Ht Ho Hlen Hb Hbi Hst HB Hsl.
  pose proof (bk_own _ _ _ _ _ _ (v_blocks _ _ _ Hv) _ _ _ Hbi Hst) as Hown. simpl in Hown.
  split; try done; try (by eauto).
  - intros b0 Hb0. rewrite Ho, deref_store, decide_False; [done|congruence|done].
  - intros b0 B0 v st0 Hb0 HB0 Hs0. rewrite deref_store by done.
    case_decide as Hd; [|by exists B0]. subst b0. exists B'. split; [done|].
    rewrite Hsl; [congruence|].
    assert (st0 <> Gone) as Hst0.
    { intros ->. pose proof (bk_live _ _ _ _ _ _ (v_blocks _ _ _ Hv) _ _ _ Hb0) as Hlive.
      assert (done_in (heads g) (length (elems g) / 32) < 32)%nat as Hd.
      { apply (count_seg_lt _ _ _ (length (elems g))); [done|]. intros x Hx.
        apply lookup_lt_Some in Hx. pose proof (tickets_head _ _ _ _ (v_tickets _ _ _ Hv)). lia. }
      by apply Hlive in Hd. }
    pose proof (bk_own _ _ _ _ _ _ (v_blocks _ _ _ Hv) _ _ _ Hb0 Hst0) as Hown'. simpl in Hown'. congruence.
  - intros b0. by rewrite Ho.
Qed.

Lemma deq_move k e b :
  gcs g tid = GMove k -> ents g !! (k / 32)%nat = Some e ->
  (exists st, binfo g !! (k / 32)%nat = Some (b, st)) ->
  exists B el, deref m b = Some B /\ elements B !! slot (idx k) = Some (Some el) /\
    good N g m [] (mkSys p (store_block b (set_slot (idx k) None B) m) pc (<[tid := CEmpty (idx k) e b el]> cs)).
Proof.
  intros Hg He [st' Hb'].
  destruct (holding_live k (Held tid)) as (b' & e' & E & Hbi & Hlo & Hen & HE & HvE); [by rewrite Hg|done|].
  rewrite Hb' in Hbi. injection Hbi as <- ->.
  destruct (taken_lt _ _ _ tid k Hv ltac:(by rewrite Hg)) as (Hh & Hke & _).
  assert (heads g !! k = Some (Held tid)) as Hhk
    by (apply (ix_index _ _ (v_indices _ _ _ Hv) k _ tid); by rewrite Hg).
  pose proof (bk_own _ _ _ _ _ _ (v_blocks _ _ _ Hv) _ _ _ Hb' ltac:(done)) as Hown. simpl in Hown.
  destruct (bk_mem _ _ _ _ _ _ (v_blocks _ _ _ Hv) _ _ _ Hb' ltac:(done)) as (B & HB & Hlen & Hc & Hs).
  simpl in HB. destruct (lookup_lt_is_Some_2 (elems g) k Hke) as [el Hel].
  exists B, el. split; [done|]. split.
  { rewrite slot_idx by done. rewrite (Hs k) by (done || (intros x Hx; simplify_eq; eauto)). by rewrite Hel. }
  set (g' := mkGhost (elems g) (claims g) (<[k := Moved tid]> (heads g)) (binfo g) (ents g) (lo g) (tops g)
               (own g) (<[tid := GEmpty k]> (gcs g))).
  set (m' := store_block b (set_slot (idx k) None B) m).
  assert (quiet g g' p p m m') as Hq.
  { eapply quiet_store; [done..|eauto|done|done|done|]. intros Hn. simpl.
    rewrite slot_idx by done. rewrite list_lookup_insert_ne; [done|]. intros Heq.
    assert (k = length (elems g)) by (by apply div_mod_inj). lia. }
  exists g'. split; [|split; [|apply respects_store; [done|intros Hx; simpl in Hx; congruence|by rewrite HB]]].
  - pose proof (conc_move _ _ _ g' _ tid _ (CEmpty (idx k) e b el) Hv (quiet_later _ _ _ _ _ _ Hq) eq_refl) as Hm.
    destruct Hv as [Hb Ht Hhd Ho Hco Htk Hi Hbk Hpo Hin Hpr Hcc]. simpl in *. split; simpl; try done.
    + lia.
    + by rewrite length_insert.
    + rewrite length_insert. apply tickets_local; by rewrite ?Hg.
    + eapply indices_update; [done|by rewrite Hg|done|by left|by right].
    + apply blocks_local; [|by rewrite Hg]. eapply blocks_move; [done..|by apply slot_idx].
    + apply pool_store; [done|by exists B|]. simpl. by rewrite length_insert.
    + by eapply producer_quiet.
    + intros t. apply Hm. simpl. exists e, b, Live, el. done.
  - apply abs_silent; [done|simpl; by rewrite length_insert|]. intros t. simpl.
    by_thread tid t; [by rewrite Hg|done].
Qed.

Lemma insert_binfo n b st st' :
  binfo g !! n = Some (b, st) ->
  forall n0 b0 st0, binfo g !! n0 = Some (b0, st0) ->
    exists st1, <[n := (b, st')]> (binfo g) !! n0 = Some (b0, st1).
Proof.
  intros Hn n0 b0 st0 H0. destruct (decide (n = n0)) as [<-|].
  - rewrite list_lookup_insert_eq by (by eapply lookup_lt_Some). simplify_eq. eauto.
  - rewrite list_lookup_insert_ne by done. eauto.
Qed.

Lemma deq_empty k e b el :
  gcs g tid = GEmpty k -> ents g !! (k / 32)%nat = Some e ->
  (exists st, binfo g !! (k / 32)%nat = Some (b, st)) -> elems g !! k = Some el ->
  exists B, deref m b = Some B /\
    let c' := if fst (set_empty B) then CClear (idx k) e b el else CRet (Some el) in
    good N g m (dequeue_event tid (CEmpty (idx k) e b el) c')
      (mkSys p (store_block b (snd (set_empty B)) m) pc (<[tid := c']> cs)).
Proof.
  intros Hg He [st' Hb'] Hel.
  destruct (holding_live k (Moved tid)) as (b' & e' & E & Hbi & Hlo & Hen & HE & HvE); [by rewrite Hg|done|].
  rewrite Hb' in Hbi. injection Hbi as <- ->.
  assert (heads g !! k = Some (Moved tid)) as Hhk
    by (apply (ix_index _ _ (v_indices _ _ _ Hv) k _ tid); by rewrite Hg).
  pose proof (bk_own _ _ _ _ _ _ (v_blocks _ _ _ Hv) _ _ _ Hb' ltac:(done)) as Hown. simpl in Hown.
  destruct (bk_mem _ _ _ _ _ _ (v_blocks _ _ _ Hv) _ _ _ Hb' ltac:(done)) as (B & HB & Hlen & Hc & Hs).
  simpl in HB. exists B. split; [done|]. intros c'.
  set (last := fst (set_empty B)) in *.
  set (binfo' := if last then <[(k / 32)%nat := (b, Clearing tid)]> (binfo g) else binfo g).
  set (x' := if last then GClear k else GIdle).
  set (g' := mkGhost (elems g) (claims g) (<[k := Done]> (heads g)) binfo' (ents g) (lo g) (tops g)
               (own g) (<[tid := x']> (gcs g))).
  set (m' := store_block b (snd (set_empty B)) m).
  assert (length binfo' = length (binfo g)) as Hblen by (unfold binfo'; destruct last; [apply length_insert|done]).
  assert (quiet g g' p p m m') as Hq.
  { eapply quiet_store; [done..| |done|done|done|done].
    simpl. unfold binfo'. destruct last; [by eapply insert_binfo|eauto]. }
  exists g'. split; [|split; [|apply respects_store; [done|intros Hx; simpl in Hx; congruence|by rewrite HB]]].
  - pose proof (conc_move _ _ _ g' _ tid _ c' Hv (quiet_later _ _ _ _ _ _ Hq) eq_refl) as Hm.
    destruct Hv as [Hb Ht Hhd Ho Hco Htk Hi Hbk Hpo Hin Hpr Hcc]. simpl in *. split; simpl; try done.
    + lia.
    + by rewrite length_insert.
    + rewrite length_insert. unfold x'. apply tickets_local; rewrite ?Hg; by destruct last.
    + eapply indices_update; [done|by rewrite Hg|done| |by left].
      unfold x'. destruct last; [by left|by right].
    + by apply blocks_empty.
    + apply pool_store; [done|by exists B|done].
    + unfold binfo'. destruct last; [|done].
      eapply index_status; [exact Hin|exact Hb'|done].
    + by eapply producer_quiet.
    + intros t. apply Hm. unfold c', x'. destruct last; [|left; by intros []].
      simpl. exists e, b, (Clearing tid), el. repeat split; try done. unfold g', binfo'. simpl.
      apply list_lookup_insert_eq. by eapply lookup_lt_Some.
  - unfold c'. destruct last eqn:Hlast.
    + apply abs_silent; [done|simpl; by rewrite length_insert|]. intros t. simpl.
      by_thread tid t; [by rewrite Hg|done].
    + eapply abs_return; [done|simpl; by rewrite length_insert|done|done|]. by rewrite Hg.
Qed.

(** The thread that emptied a block holds it. *)
Lemma clearing_binfo n st : blk_of tid (gcs g tid) = Some (n, st) -> exists b, binfo g !! n = Some (b, st).
Proof.
  intros Hb. apply (bk_tid _ _ _ _ _ _ (v_blocks _ _ _ Hv) n st tid); [|done].
  destruct (gcs g tid); simplify_eq/=; done.
Qed.

Lemma deq_clear k e b el :
  gcs g tid = GClear k -> ents g !! (k / 32)%nat = Some e ->
  (exists st, binfo g !! (k / 32)%nat = Some (b, st)) -> elems g !! k = Some el ->
  good N g m [] (mkSys (store_value e None p) m pc (<[tid := CFree (idx k) b el]> cs)).
Proof.
  intros Hg He [st' Hb'] Hel.
  destruct (clearing_binfo (k / 32) (Clearing tid)) as [b' Hbi]; [by rewrite Hg|].
  rewrite Hb' in Hbi. injection Hbi as <- ->.
  pose proof (lookup_lt_Some _ _ _ Hb') as Hblt.
  set (g' := mkGhost (elems g) (claims g) (heads g) (<[(k / 32)%nat := (b, Freeing tid)]> (binfo g))
               (ents g) (lo g) (tops g) (own g) (<[tid := GFree k]> (gcs g))).
  assert (quiet g g' p (store_value e None p) m m) as Hq.
  { split; simpl; try done; [by rewrite length_insert|by eapply insert_binfo| |eauto].
    intros e0 E0 HE0. rewrite list_lookup_alter. case_decide as Hd; [|eauto].
    subst e0. rewrite HE0. simpl. by eexists. }
  exists g'. split; [|split; [|by apply respects_same]].
  - pose proof (conc_move _ _ _ g' _ tid _ (CFree (idx k) b el) Hv (quiet_later _ _ _ _ _ _ Hq) eq_refl) as Hm.
    destruct Hv as [Hb Ht Hhd Ho Hco Htk Hi Hbk Hpo Hin Hpr Hcc]. simpl in *. split; simpl; try done.
    + lia.
    + apply tickets_local; by rewrite ?Hg.
    + apply indices_local; [done|]. left. by rewrite Hg.
    + eapply blocks_status; [exact Hbk|exact Hb'|done|done|by rewrite Hg|done|by right|by eauto|].
      intros b0 n0 Hn0. split; [done|by right].
    + eapply index_store_value; [exact Hin|done| | | |..]; rewrite ?length_insert; try done.
      * destruct (decide (lo g <= k / 32)%nat); [done|].
        destruct (in_cleared _ _ _ _ _ _ Hin (k / 32)%nat ltac:(lia)) as (b' & st & Hbi' & Hst). by simplify_eq.
      * apply (in_ents _ _ _ _ _ _ Hin).
      * intros n0 b0 st0 Hne. by rewrite list_lookup_insert_ne.
      * intros n0 b0 st0 Hne. by rewrite list_lookup_insert_ne.
      * intros b0 st0. rewrite list_lookup_insert_eq by done. by intros [= <- <-].
    + by eapply producer_quiet.
    + intros t. apply Hm. simpl. exists b, (Freeing tid), el. split; [done|]. split; [|done].
      by apply list_lookup_insert_eq.
  - apply abs_silent; [done..|]. intros t. simpl. by_thread tid t; [by rewrite Hg|done].
Qed.

Lemma deq_free k b el :
  gcs g tid = GFree k -> (exists st, binfo g !! (k / 32)%nat = Some (b, st)) -> elems g !! k = Some el ->
  exists m', add_block_to_free_list b m = Some m' /\
    good N g m [EDequeue tid (Some el)] (mkSys p m' pc (<[tid := CRet (Some el)]> cs)).
Proof.
  intros Hg [st' Hb'] Hel.
  destruct (clearing_binfo (k / 32) (Freeing tid)) as [b' Hbi]; [by rewrite Hg|].
  rewrite Hb' in Hbi. injection Hbi as <- ->.
  pose proof (lookup_lt_Some _ _ _ Hb') as Hblt.
  pose proof (bk_own _ _ _ _ _ _ (v_blocks _ _ _ Hv) _ _ _ Hb' ltac:(done)) as Hown. simpl in Hown.
  destruct (give_back_ok m (own g) b (OwnBlock (k / 32))) as (m' & own' & Hadd & Hpool' & Hoth & Hsame & Hgone);
    [apply (v_pool _ _ _ Hv)|done|done|done|..].
  { intros Hin. apply (po_others _ _ (v_pool _ _ _ Hv)) in Hin. simpl in Hin. congruence. }
  exists m'. split; [done|].
  set (g' := mkGhost (elems g) (claims g) (heads g) (<[(k / 32)%nat := (b, Gone)]> (binfo g))
               (ents g) (lo g) (tops g) own' (<[tid := GIdle]> (gcs g))).
  assert (forall x, x <> b -> deref m' x = deref m x) as Hder.
  { intros x. by apply give_back_deref. }
  assert (forall n0 b0 st0, binfo g !! n0 = Some (b0, st0) -> st0 <> Gone -> n0 <> (k / 32)%nat -> b0 <> b) as Hdist.
  { intros n0 b0 st0 H0 Hst0 Hne ->.
    pose proof (bk_own _ _ _ _ _ _ (v_blocks _ _ _ Hv) _ _ _ H0 Hst0) as Ho'. simpl in Ho'. congruence. }
  assert (quiet g g' p p m m') as Hq.
  { split; simpl; try done; try (by eauto); [by rewrite length_insert|by eapply insert_binfo| | |].
    - intros b0 Hb0. assert (b0 <> b) by congruence. by rewrite Hsame, Hder.
    - intros b0 B0 v st0 Hb0 HB0 Hs0. exists B0. split; [|done]. rewrite Hder; [done|].
      assert (done_in (heads g) (length (elems g) / 32) < 32)%nat as Hd.
      { apply (count_seg_lt _ _ _ (length (elems g))); [done|]. intros x Hx.
        apply lookup_lt_Some in Hx. pose proof (tickets_head _ _ _ _ (v_tickets _ _ _ Hv)). lia. }
      apply (bk_live _ _ _ _ _ _ (v_blocks _ _ _ Hv) _ _ _ Hb0) in Hd. subst st0.
      eapply Hdist; [done|done|]. intros Heq. rewrite Heq in Hb0. congruence.
    - intros b0 Hb0. assert (b0 <> b) as Hne by (intros ->; destruct Hgone; congruence). by rewrite Hsame in Hb0. }
  exists g'. split; [|split].
  - pose proof (conc_move _ _ _ g' _ tid _ (CRet (Some el)) Hv (quiet_later _ _ _ _ _ _ Hq) eq_refl) as Hm.
    destruct Hv as [Hb Ht Hhd Ho Hco Htk Hi Hbk Hpo Hin Hpr Hcc]. simpl in *. split; simpl; try done.
    + lia.
    + apply tickets_local; by rewrite ?Hg.
    + apply indices_local; [done|]. right. split; [done|]. right. rewrite Hg. by eexists.
    + eapply blocks_status; [exact Hbk|exact Hb'|done|done|by rewrite Hg|done|by left|..].
      * intros b0 n0 Hn0 [Hne|?]; [|done]. by rewrite Hsame, Hder.
      * intros b0 n0 Hn0. assert (b0 <> b) as Hne by (intros ->; destruct Hgone; congruence).
        rewrite Hsame in Hn0 by done. split; [done|by left].
    + eapply index_status; [exact Hin|exact Hb'|done].
    + by eapply producer_quiet.
    + intros t. apply Hm. left. by intros [].
  - eapply abs_return; [done..|]. by rewrite Hg.
  - split; [done|]. intros x. simpl. destruct (decide (x = b)) as [->|Hx].
    + split; intros Hx; [congruence|]. destruct Hgone; congruence.
    + by rewrite Hsame, Hder.
Qed.

(** Every step of a dequeuing thread. *)
Lemma dequeue_good p' m' c' :
  running (cs tid) -> dequeue_step p m (cs tid) = (p', m', c') ->
  good N g m (dequeue_event tid (cs tid) c') (mkSys p' m' pc (<[tid := c']> cs)).
Proof.
  intros Hr Hstep. pose proof (v_conc _ _ _ Hv tid) as Hc. simpl in Hc.
  destruct (gcs g tid) as [|ti|ti oi|oi|oi mi|mi|mi|k|k h|k h t J|k|k|k|k|k] eqn:Hg; simpl in Hc.
  - destruct Hc as [|Hc]; [done|]. rewrite Hc in Hr, Hstep |- *. simpl in Hstep |- *. injection Hstep as <- <- <-. by apply deq_start.
  - rewrite Hc in Hr, Hstep |- *. simpl in Hstep |- *. injection Hstep as <- <- <-. by apply deq_overcommit.
  - rewrite Hc in Hr, Hstep |- *. cbn [dequeue_step] in Hstep. injection Hstep as <- <- <-. by apply deq_optimistic.
  - rewrite Hc in Hr, Hstep |- *. simpl in Hstep |- *. injection Hstep as <- <- <-. by apply deq_claim.
  - rewrite Hc in Hr, Hstep |- *. cbn [dequeue_step] in Hstep. injection Hstep as <- <- <-.
    destruct (circular_less_than _ _) eqn:E; pose proof (deq_test _ _ Hg) as Ht; cbv zeta in Ht;
      rewrite E in Ht; done.
  - rewrite Hc in Hr, Hstep |- *. simpl in Hstep |- *. injection Hstep as <- <- <-. by eapply deq_take.
  - rewrite Hc in Hr, Hstep |- *. simpl in Hstep |- *. injection Hstep as <- <- <-. by eapply deq_giveup.
  - rewrite Hc in Hr, Hstep |- *. destruct (deq_index _ Hg) as (h & Hh & Hgood). simpl in Hstep |- *. rewrite Hh in Hstep. by injection Hstep as <- <- <-.
  - destruct Hc as [Hc _]. rewrite Hc in Hr, Hstep |- *. destruct (deq_tail _ _ Hg) as (H & HH & Hgood). simpl in Hstep |- *.
    rewrite HH in Hstep. by injection Hstep as <- <- <-.
  - destruct Hc as [Hc _]. rewrite Hc in Hr, Hstep |- *.
    destruct (deq_base _ _ _ _ Hg) as (H & te & E & e & HH & Hte & HE & He & Hgood).
    cbn [dequeue_step] in Hstep. rewrite HH, Hte, HE, He in Hstep. by injection Hstep as <- <- <-.
  - destruct Hc as (e & Hc & He). rewrite Hc in Hr, Hstep |- *.
    destruct (deq_value _ _ Hg He) as (E & b & HE & HvE & Hgood). simpl in Hstep |- *. rewrite HE, HvE in Hstep. by injection Hstep as <- <- <-.
  - destruct Hc as (e & b & st & Hc & He & Hb). rewrite Hc in Hr, Hstep |- *.
    destruct (deq_move _ _ _ Hg He (ex_intro _ _ Hb)) as (B & el & HB & Hs & Hgood).
    cbn [dequeue_step] in Hstep. rewrite HB, Hs in Hstep. by injection Hstep as <- <- <-.
  - destruct Hc as (e & b & st & v & Hc & He & Hb & Hel). rewrite Hc in Hr, Hstep |- *.
    destruct (deq_empty _ _ _ _ Hg He (ex_intro _ _ Hb) Hel) as (B & HB & Hgood).
    cbn [dequeue_step] in Hstep. rewrite HB in Hstep. destruct (set_empty B) as [last B']. simpl in Hgood.
    injection Hstep as <- <- <-. done.
  - destruct Hc as (e & b & st & v & Hc & He & Hb & Hel). rewrite Hc in Hr, Hstep |- *.
    cbn [dequeue_step] in Hstep. injection Hstep as <- <- <-. eapply deq_clear; eauto.
  - destruct Hc as (b & st & v & Hc & Hb & Hel). rewrite Hc in Hr, Hstep |- *.
    destruct (deq_free _ _ _ Hg (ex_intro _ _ Hb) Hel) as (m1 & Hadd & Hgood).
    cbn [dequeue_step] in Hstep. rewrite Hadd in Hstep. by injection Hstep as <- <- <-.
Qed.

End Dequeue.

(** ** The steps of the enqueuing thread *)

Section Enqueue.
Context (N : nat) (p : ImplicitProducer) (m : Pool A) (pc : ppc A) (cs : nat -> cpc A) (g : ghost).
Context (Hv : inv N (mkSys p m pc cs) g) (HN : Z.of_nat N < 2 ^ 60) (Hstart : start mod 32 = 0).

Definition with_index (binfo' : list (nat * blk_state)) (ents' : list nat) (lo' : nat) (tops' : list nat)
    (own' : gmap nat owner) : ghost :=
  mkGhost (elems g) (claims g) (heads g) binfo' ents' lo' tops' own' (gcs g).

(** A step that changes the index and the blocks but publishes nothing. *)
Lemma silent_inv binfo' ents' lo' tops' own' p' m' pc' :
  let g' := with_index binfo' ents' lo' tops' own' in
  tailIndex p' = tailIndex p -> headIndex p' = headIndex p ->
  dequeueOptimisticCount p' = dequeueOptimisticCount p -> dequeueOvercommit p' = dequeueOvercommit p ->
  blocks_ok (elems g) (heads g) binfo' (gcs g) m' own' -> pool_ok m' own' ->
  index_ok start ents' lo' tops' binfo' p' -> producer_ok g' p' m' pc' -> later g g' p p' ->
  inv (S N) (mkSys p' m' pc' cs) g' /\ atomic_steps (abs g) [] (abs g').
Proof.
  intros g' Ht Hh Hd Ho Hbk Hpo Hin Hpr Hl. split; [|by apply abs_silent].
  assert (forall t, conc g' p' (gcs g t) (cs t)) as Hc.
  { intros t. eapply conc_later; [exact Hl| |apply (v_conc _ _ _ Hv t)].
    intros k Hk. by eapply taken_lt. }
  destruct Hv as [Hb Ht' Hhd Ho' Hco Htk Hi _ _ _ _ _]. simpl in *.
  split; simpl; try done; [lia|congruence..].
Qed.

Lemma good_silent binfo' ents' lo' tops' own' p' m' pc' ev :
  let g' := with_index binfo' ents' lo' tops' own' in
  tailIndex p' = tailIndex p -> headIndex p' = headIndex p ->
  dequeueOptimisticCount p' = dequeueOptimisticCount p -> dequeueOvercommit p' = dequeueOvercommit p ->
  blocks_ok (elems g) (heads g) binfo' (gcs g) m' own' -> pool_ok m' own' ->
  index_ok start ents' lo' tops' binfo' p' -> producer_ok g' p' m' pc' -> later g g' p p' ->
  respects g m g' m' ->
  (ev = [] \/ exists b, ev = [EEnqueue b]) -> good N g m ev (mkSys p' m' pc' cs).
Proof.
  intros g' Ht Hh Hd Ho Hbk Hpo Hin Hpr Hl Hre Hev.
  destruct (silent_inv _ _ _ _ _ _ _ _ Ht Hh Hd Ho Hbk Hpo Hin Hpr Hl) as [Hv' Habs].
  exists g'. split; [done|]. split; [|done].
  destruct Hev as [->|[b ->]]; [done|]. exists (abs g'). split; [done|]. by split.
Qed.

(** A step of the program counter only. *)
Lemma good_pc pc' ev :
  producer_ok g p m pc' -> (ev = [] \/ exists b, ev = [EEnqueue b]) -> good N g m ev (mkSys p m pc' cs).
Proof.
  intros Hpr Hev. destruct Hv. simpl in *.
  apply (good_silent (binfo g) (ents g) (lo g) (tops g) (own g)); try done.
  - by destruct Hpr.
  - split; [exists []; by rewrite app_nil_r..|eauto|eauto|eauto].
Qed.

Lemma producer_inv : producer_ok g p m pc.
Proof. apply (v_producer _ _ _ Hv). Qed.
Lemma index_inv : index_ok start (ents g) (lo g) (tops g) (binfo g) p.
Proof. apply (v_index _ _ _ Hv). Qed.

(** A producer that has no block index has enqueued nothing. *)
Lemma no_index : ents g = [] -> length (elems g) = 0%nat /\ length (binfo g) = 0%nat.
Proof.
  intros Hn. pose proof (in_ents _ _ _ _ _ _ index_inv) as He. rewrite Hn in He. simpl in He.
  pose proof (pr_size _ _ _ _ producer_inv) as Hs. destruct (mid pc); lia.
Qed.

Lemma idx_aligned T : Z.land (idx T) (BLOCK_SIZE - 1) =? 0 = bool_decide (T mod 32 = 0)%nat.
Proof.
  unfold idx, BLOCK_SIZE. change (32 - 1) with (2 ^ 5 - 1). rewrite land_mask, u64_mod_pow2 by lia.
  change (2 ^ 5) with 32. rewrite Zplus_mod, Hstart, Z.add_0_l, Zmod_mod.
  change 32 with (Z.of_nat 32). rewrite <- Nat2Z.inj_mod.
  case_bool_decide; [apply Z.eqb_eq|apply Z.eqb_neq]; lia.
Qed.

Lemma aligned_full T n : (T mod 32 = 0 -> T <= 32 * n < T + 32 -> T = 32 * n)%nat.
Proof. intros Hm Hn. pose proof (Nat.div_mod T 32 ltac:(done)). lia. Qed.

Lemma no_private b : private_of pc = None -> own g !! b <> Some OwnPrivate.
Proof. intros Hpc Hb. apply (pr_private _ _ _ _ producer_inv) in Hb. congruence. Qed.

Ltac keep_private :=
  try match goal with
      | |- forall b, _ !! b = Some OwnPrivate -> _ =>
          let b := fresh in let Hb := fresh in
          intros b Hb; exfalso; apply (no_private b); [|exact Hb];
          first [match goal with H : pc = _ |- _ => rewrite H; reflexivity end|by destruct pc]
      end.

Lemma enq_call v : ~ enqueuing pc -> good N g m [ECallEnqueue v] (mkSys p m (PEnqueue v) cs).
Proof.
  intros Hpc. apply good_silent_event; [done|]. apply good_pc; [|by left]. destruct producer_inv as [Hs Ht Hc Hl].
  destruct pc; try (by destruct Hpc); split; done.
Qed.

Lemma enq_start v :
  pc = PEnqueue v ->
  let pc' := if Z.land (tailIndex p) (BLOCK_SIZE - 1) =? 0 then PHead v (tailIndex p) else PConstruct v (tailIndex p) in
  good N g m [] (mkSys p m pc' cs).
Proof.
  intros Hpc. cbv zeta. assert (tailIndex p = idx (length (elems g))) as -> by apply (v_tail _ _ _ Hv).
  rewrite idx_aligned. apply good_pc; [|by left]. destruct producer_inv as [Hs Ht Hc Hl]. rewrite Hpc in Hs, Hc, Hl. simpl in Hs, Hc, Hl.
  case_bool_decide as Hm.
  - split; simpl; try done; keep_private. split; [done|]. by apply aligned_full.
  - assert (length (elems g) <> 32 * length (binfo g))%nat.
    { intros Heq. apply Hm. rewrite Heq, Nat.mul_comm. apply Nat.Div0.mod_mul. }
    split; simpl; try done; keep_private; [lia|]. right. destruct Hc as [(_ & Hn & _)|Hc]; [|done].
    apply no_index in Hn as [? ?]. lia.
Qed.

Lemma enq_head v t (b : bool) :
  pc = PHead v t -> good N g m (if b then [EEnqueue false] else [])
    (mkSys p m (if b then PRet false else PInsert v t) cs).
Proof.
  intros Hpc. apply good_pc; [|destruct b; [right; eauto|by left]].
  destruct producer_inv as [Hs Ht Hc Hl]. rewrite Hpc in Hs, Hc, Hl. simpl in Hs, Hc, Hl. destruct b; split; try done; keep_private.
Qed.

(** The test of [insert_block_index_entry]: an entry that is not usable is the oldest block of
    a full index. *)
Lemma enq_insert v t :
  pc = PInsert v t ->
  good N g m (enqueue_event (PInsert v t) (insert_test v t p)) (mkSys p m (insert_test v t p) cs).
Proof.
  intros Hpc. destruct producer_inv as [Hs Ht Hc Hl]. rewrite Hpc in Hs, Hc, Hl. simpl in Hs, Hl. destruct Hl as [-> HT].
  unfold insert_test. destruct Hc as [(Hb & Hn & _)|(i & H & Hcur & Hres)].
  { rewrite Hb. simpl. apply good_pc; [|by right; eauto]. split; simpl; try done; keep_private. by left. }
  rewrite (cu_index _ _ _ _ _ _ _ _ Hcur).
  destruct (next_entry_spec _ _ _ _ _ _ _ _ _ index_inv Hcur) as (e & He & Hlt & Hne). rewrite Hne.
  destruct (lookup_lt_is_Some_2 (entries p) e Hlt) as [E HE]. rewrite HE.
  simpl in Hcur, Hres.
  destruct ((key E =? INVALID_BLOCK_BASE) || bool_decide (value E = None)) eqn:Hu; simpl.
  - apply good_pc; [|by left]. split; simpl; try done; keep_private; [by right; exists i, H|].
    do 3 (split; [done|]). exists E. split; [done|].
    apply orb_true_iff in Hu as [Hu|Hu]; [left|right]; bool_prop; done.
  - apply orb_false_iff in Hu as [Hu1 Hu2]. bool_prop.
    pose proof (current_hdr _ _ _ _ _ _ _ _ _ index_inv Hcur) as Hh.
    assert (length (ents g) <> S (length (binfo g))) as Hnr.
    { intros Hr. destruct (Hres Hr eq_refl) as (e' & He' & Hi' & Hv').
      assert (e' = e) as -> by congruence. destruct (Hv' eq_refl) as (E' & HE' & HvE'). congruence. }
    pose proof (in_ents _ _ _ _ _ _ index_inv).
    assert (Z.of_nat (length (binfo g)) - Z.of_nat (lo g) = capacity H) as Hfull.
    { destruct (decide (e ∈ drop (lo g) (ents g))) as [Hin|Hnin].
      - apply list_elem_of_lookup in Hin as [j Hj]. rewrite lookup_drop in Hj.
        pose proof (lookup_lt_Some _ _ _ Hj).
        pose proof (next_slot _ _ _ _ _ (lo g + j) e Hh He ltac:(lia) Hj).
        pose proof (cu_room _ _ _ _ _ _ _ _ Hcur). lia.
      - by destruct (in_junk _ _ _ _ _ _ index_inv e E Hnin HE). }
    apply good_pc; [|by left]. split; simpl; try done; keep_private; [by right; exists i, H|].
    do 2 (split; [done|]). split; [lia|]. intros i' H' c' Hc'.
    rewrite <- Hfull in *. destruct Hc', Hcur. simplify_eq. done.
Qed.

Lemma later_refl_index ents' lo' binfo' own' p' :
  (exists l, ents' = ents g ++ l) ->
  (forall n b st, binfo g !! n = Some (b, st) -> exists st', binfo' !! n = Some (b, st')) ->
  headers p' = headers p -> later g (with_index binfo' ents' lo' (tops g) own') p p'.
Proof.
  intros He Hb Hh. split; simpl; [done|exists []; by rewrite app_nil_r|done|eauto|]. rewrite Hh. eauto.
Qed.

Lemma blocks_inv : blocks_ok (elems g) (heads g) (binfo g) (gcs g) m (own g).
Proof. apply (v_blocks _ _ _ Hv). Qed.
Lemma pool_inv : pool_ok m (own g).
Proof. apply (v_pool _ _ _ Hv). Qed.

Lemma enq_key v t h nt e :
  pc = PKey v t h nt e -> good N g m [] (mkSys (store_key e t p) m (PTail v t h nt e) cs).
Proof.
  intros Hpc. destruct producer_inv as [Hs Ht Hc Hl]. rewrite Hpc in Hs, Hc, Hl. simpl in Hs, Hc, Hl.
  destruct Hl as (-> & HT & Hne & E & HE & Hu). destruct Hc as [(_ & _ & ?)|(i & H & Hcur & Hres)]; [done|].
  destruct (next_entry_spec _ _ _ _ _ _ _ _ _ index_inv Hcur) as (e' & He' & Hlt & Hne').
  rewrite Hne in Hne'. injection Hne' as -> -> ->.
  replace (idx (length (elems g))) with (u64 (start + 32 * Z.of_nat (length (binfo g))))
    by (unfold idx; f_equal; lia).
  destruct (index_store_key start Hstart _ _ _ _ _ _ _ _ _ index_inv Hcur He' HE Hu)
    as (ents' & lo' & Hlo & Hext & Hlen & He2 & Hok & Hcur').
  { intros Hr. destruct (Hres ltac:(lia) eq_refl) as (e2 & He2 & Hi2 & _). congruence. }
  apply (good_silent (binfo g) ents' lo' (tops g) (own g)); try done; [apply blocks_inv|apply pool_inv| | |by left].
  - split; simpl; try done; keep_private.
    + right. exists i, H. split; [done|]. intros _ _. exists e'. by split.
    + split; [unfold idx; f_equal; lia|]. done.
  - apply later_refl_index; [done|eauto|done].
Qed.

Lemma enq_tail v t h nt e :
  pc = PTail v t h nt e -> good N g m [] (mkSys (store_tail h nt p) m (PBlock v t e) cs).
Proof.
  intros Hpc. destruct producer_inv as [Hs Ht Hc Hl]. rewrite Hpc in Hs, Hc, Hl. simpl in Hs, Hc, Hl.
  destruct Hl as (-> & HT & Hne & He). destruct Hc as [(_ & _ & ?)|(i & H & Hcur & Hres)]; [done|].
  destruct (next_entry_spec _ _ _ _ _ _ _ _ _ index_inv Hcur) as (e' & He' & Hlt & Hne').
  rewrite Hne in Hne'. injection Hne' as -> -> ->.
  pose proof (current_hdr _ _ _ _ _ _ _ _ _ index_inv Hcur) as Hh.
  pose proof (lookup_lt_Some _ _ _ He) as Hel.
  assert (hdr_ok (ents g) (lo g) (length (entries p))
            (mkHeader (capacity H) ((header_tail H + 1) mod capacity H) (header_index H)) (S (length (binfo g)))) as Hh'.
  { eapply hdr_advance; [done..|]. pose proof (cu_room _ _ _ _ _ _ _ _ Hcur). lia. }
  destruct (index_store_tail _ _ _ _ _ _ _ _ _ _ _ index_inv Hcur Hh') as [Hok Hcur'].
  apply (good_silent (binfo g) (ents g) (lo g) (<[i := S (length (binfo g))]> (tops g)) (own g)); try done;
    [apply blocks_inv|apply pool_inv| | |by left].
  - split; simpl; try done; keep_private. right. eexists i, _. split; [exact Hcur'|done].
  - pose proof (cu_top _ _ _ _ _ _ _ _ Hcur) as Htop.
    split; simpl; [exists []; by rewrite app_nil_r..|eauto| |].
    + intros h c n Hc Hn _. destruct (decide (i = h)) as [<-|].
      * rewrite list_lookup_insert_eq by (by eapply lookup_lt_Some). eexists. split; [done|].
        rewrite Htop in Hc. injection Hc as <-. lia.
      * rewrite list_lookup_insert_ne by done. eauto.
    + intros h H0 HH0. rewrite list_lookup_alter. case_decide as Hd; [|eauto].
      subst h. rewrite HH0. simpl. by eexists.
Qed.

Lemma enq_grow v t :
  pc = PGrow v t ->
  exists h nt e, next_entry (new_block_index raw_value p) = Some (h, nt, e) /\
    good N g m [] (mkSys (new_block_index raw_value p) m (PKey v t h nt e) cs).
Proof.
  intros Hpc. destruct producer_inv as [Hs Ht Hc Hl]. rewrite Hpc in Hs, Hc, Hl. simpl in Hs, Hc, Hl.
  destruct Hl as (-> & HT & Hlen & Hfull). destruct Hc as [(_ & _ & ?)|(i & H & Hcur & Hres)]; [done|].
  specialize (Hfull _ _ _ Hcur).
  assert (capacity H <= 2 ^ 60) as Hsmall by (pose proof (v_bound _ _ _ Hv); lia).
  destruct (index_grow _ _ _ _ _ _ _ _ raw_value index_inv Hcur Hsmall Hfull Hlen) as (Hok & Hcur' & e & E & He & HE & HkE).
  destruct (next_entry_spec _ _ _ _ _ _ _ _ _ Hok Hcur') as (e' & He' & Hlt & Hne').
  rewrite He in He'. injection He' as <-.
  eexists _, _, e. split; [exact Hne'|].
  apply (good_silent (binfo g) (ents g) (lo g) (tops g ++ [length (binfo g)]) (own g)); try done;
    [apply blocks_inv|apply pool_inv| | |by left].
  - split; simpl; try done; keep_private.
    + right. eexists _, _. split; [exact Hcur'|]. intros ?. lia.
    + do 3 (split; [done|]). exists E. split; [done|by left].
  - destruct (new_block_index_spec _ _ _ _ _ _ _ _ _ raw_value index_inv Hcur Hsmall) as (Hh' & _).
    split; [exists []; by rewrite app_nil_r..|intros n b st Hb; by exists st| |].
    + intros h c n Hc Hn _. exists c. split; [by apply lookup_app_l_Some|done].
    + intros h H0 HH0. rewrite Hh'. exists H0. split; [by apply lookup_app_l_Some|done].
Qed.

Lemma enq_fail v t : pc = PGrow v t -> good N g m [EEnqueue false] (mkSys p m (PRet false) cs).
Proof.
  intros Hpc. apply good_pc; [|right; eauto]. destruct producer_inv as [Hs Ht Hc Hl].
  rewrite Hpc in Hs, Hc, Hl. simpl in Hs, Hc, Hl. destruct Hl as (-> & HT & Hlen & Hfull).
  split; simpl; try done; keep_private. destruct Hc as [(_ & _ & ?)|(i & H & Hcur & Hres)]; [done|].
  right. by exists i, H.
Qed.

Lemma enq_block v t e a b m' :
  pc = PBlock v t e -> requisition_block a m = (Some b, m') ->
  good N g m [] (mkSys p m' (PReset v t e b) cs).
Proof.
  intros Hpc Hreq. destruct producer_inv as [Hs Ht Hc Hl]. rewrite Hpc in Hs, Hc, Hl. simpl in Hs, Hc, Hl.
  destruct Hl as (-> & HT & He).
  destruct (requisition_ok _ _ _ OwnPrivate _ _ pool_inv Hreq ltac:(by left)) as (Hpo & Hfr & Hfree & Hot).
  apply (good_silent (binfo g) (ents g) (lo g) (tops g) (<[b := OwnPrivate]> (own g))); try done;
    [|apply index_inv| | | |by left].
  - eapply blocks_frame; [apply blocks_inv|..].
    + intros b' n Hn. apply Hfr; [done|]. intros ->. by destruct (Hfree _ Hn).
    + intros b' n. destruct (decide (b' = b)) as [->|]; [by rewrite lookup_insert_eq|by rewrite lookup_insert_ne].
  - split; simpl; try done; [do 3 (split; [done|]); by rewrite lookup_insert_eq|]. intros b' Hb'.
    destruct (decide (b' = b)) as [->|Hne]; [done|]. rewrite lookup_insert_ne in Hb' by done.
    by destruct (no_private b' ltac:(by rewrite Hpc)).
  - apply later_refl_index; [exists []; by rewrite app_nil_r|eauto|done].
  - split; [done|]. intros x. simpl. destruct (decide (x = b)) as [->|Hx].
    + rewrite lookup_insert_eq. split; [|done]. intros Hb. by destruct (Hfree _ Hb).
    + rewrite lookup_insert_ne by done. split; [|done]. intros Hb. split; [done|].
      by eapply requisition_deref.
Qed.

Lemma enq_noblock v t e : pc = PBlock v t e -> good N g m [] (mkSys p m (PRewind e) cs).
Proof.
  intros Hpc. apply good_pc; [|by left]. destruct producer_inv as [Hs Ht Hc Hl].
  rewrite Hpc in Hs, Hc, Hl. simpl in Hs, Hc, Hl. destruct Hl as (_ & HT & He). split; try done; keep_private.
Qed.

Lemma enq_rewind e :
  pc = PRewind e ->
  exists p', rewind_block_index_tail p = Some p' /\ good N g m [] (mkSys p' m (PUnset e) cs).
Proof.
  intros Hpc. destruct producer_inv as [Hs Ht Hc Hl]. rewrite Hpc in Hs, Hc, Hl. simpl in Hs, Hc, Hl.
  destruct Hl as (HT & He). destruct Hc as [(_ & _ & ?)|(i & H & Hcur & Hres)]; [done|].
  pose proof (current_hdr _ _ _ _ _ _ _ _ _ index_inv Hcur) as Hh.
  pose proof (in_lo _ _ _ _ _ _ index_inv) as Hlo.
  destruct (hdr_rewind _ _ _ _ _ _ Hh He Hlo) as [Hh' Hnext].
  destruct (index_store_tail _ _ _ _ _ _ _ _ _ _ _ index_inv Hcur Hh') as [Hok Hcur'].
  unfold rewind_block_index_tail.
  rewrite (cu_index _ _ _ _ _ _ _ _ Hcur), (cu_header _ _ _ _ _ _ _ _ Hcur), (mask_header _ _ _ _ _ _ Hh).
  eexists. split; [done|].
  apply (good_silent (binfo g) (ents g) (lo g) (<[i := length (binfo g)]> (tops g)) (own g)); try done;
    [apply blocks_inv|apply pool_inv| | |by left].
  - split; simpl; try done; keep_private. right. eexists i, _. split; [exact Hcur'|]. intros _ _. by exists e.
  - pose proof (cu_top _ _ _ _ _ _ _ _ Hcur) as Htop.
    split; simpl; [exists []; by rewrite app_nil_r..|eauto| |].
    + intros h c n Hc Hn Hnb. destruct (decide (i = h)) as [<-|].
      * rewrite list_lookup_insert_eq by (by eapply lookup_lt_Some). by eexists.
      * rewrite list_lookup_insert_ne by done. eauto.
    + intros h H0 HH0. rewrite list_lookup_alter. case_decide as Hd; [|eauto].
      subst h. rewrite HH0. simpl. by eexists.
Qed.

Lemma enq_unset e : pc = PUnset e -> good N g m [EEnqueue false] (mkSys (store_value e None p) m (PRet false) cs).
Proof.
  intros Hpc. destruct producer_inv as [Hs Ht Hc Hl]. rewrite Hpc in Hs, Hc, Hl. simpl in Hs, Hc, Hl.
  destruct Hl as (HT & He). destruct Hc as [(_ & _ & ?)|(i & H & Hcur & Hres)]; [done|].
  pose proof (in_ents _ _ _ _ _ _ index_inv) as Hlen. pose proof (lookup_lt_Some _ _ _ He) as Hel.
  pose proof (in_bound _ _ _ _ _ _ index_inv e (list_elem_of_lookup_2 _ _ _ He)) as Hbd.
  destruct (lookup_lt_is_Some_2 (entries p) e Hbd) as [E HE].
  apply (good_silent (binfo g) (ents g) (lo g) (tops g) (own g)); try done;
    [apply blocks_inv|apply pool_inv| | | |right; eauto].
  - eapply index_store_value; [apply index_inv|exact He|apply (in_lo _ _ _ _ _ _ index_inv)|done|done|done|done|].
    intros b st Hb. apply lookup_lt_Some in Hb. lia.
  - split; simpl; try done; keep_private. right. exists i, H. split; [by eapply current_store_value|].
    intros Hr _. destruct (Hres ltac:(lia) eq_refl) as (e' & He' & Hi' & _).
    assert (e' = e) as -> by congruence. exists e. split; [done|]. split; [done|]. intros _.
    rewrite list_lookup_alter_eq, HE. simpl. by eexists.
  - apply later_refl_index; [exists []; by rewrite app_nil_r|eauto|done].
Qed.

Lemma enq_reset v t e b :
  pc = PReset v t e b ->
  exists B, deref m b = Some B /\
    good N g m [] (mkSys p (store_block b (reset_empty B) m) (PValue v t e b) cs).
Proof.
  intros Hpc. destruct producer_inv as [Hs Ht Hc Hl]. rewrite Hpc in Hs, Hc, Hl. simpl in Hs, Hc, Hl.
  destruct Hl as (-> & HT & He & Hown). destruct (po_live _ _ pool_inv _ _ Hown) as (B & HB & Hlen).
  exists B. split; [done|].
  apply (good_silent (binfo g) (ents g) (lo g) (tops g) (own g)); try done; [|..|by left].
  - eapply blocks_frame; [apply blocks_inv|..|done]. intros b' n Hn. split; [done|].
    rewrite deref_store, decide_False; [done|congruence|done].
  - apply pool_store; [apply pool_inv|by exists B|done].
  - apply index_inv.
  - split; simpl; try done.
    + do 4 (split; [done|]). exists (reset_empty B). rewrite deref_store, decide_True by done. done.
    + intros b' Hb'. apply (pr_private _ _ _ _ producer_inv) in Hb'. by rewrite Hpc in Hb'.
  - apply later_refl_index; [exists []; by rewrite app_nil_r|eauto|done].
  - apply respects_store; [done|congruence|by rewrite HB].
Qed.

Lemma enq_value v t e b :
  pc = PValue v t e b ->
  good N g m [] (mkSys (set_tailBlock (Some b) (store_value e (Some b) p)) m (PConstruct v t) cs).
Proof.
  intros Hpc. destruct producer_inv as [Hs Ht Hc Hl]. rewrite Hpc in Hs, Hc, Hl. simpl in Hs, Hc, Hl.
  destruct Hl as (-> & HT & He & Hown & B & HB & HcB). destruct (po_live _ _ pool_inv _ _ Hown) as (B' & HB' & Hlen).
  assert (B' = B) as -> by congruence.
  destruct Hc as [(_ & _ & ?)|(i & H & Hcur & _)]; [done|].
  pose proof (in_ents _ _ _ _ _ _ index_inv) as Hle. pose proof (lookup_lt_Some _ _ _ He) as Hel.
  pose proof (tickets_head _ _ _ _ (v_tickets _ _ _ Hv)) as Hhead.
  set (binfo' := binfo g ++ [(b, Live)]).
  assert (length binfo' = S (length (binfo g))) as Hlen' by (unfold binfo'; rewrite length_app; simpl; lia).
  assert (binfo' !! length (binfo g) = Some (b, Live)) as Hlast
    by (unfold binfo'; by rewrite lookup_app_r, Nat.sub_diag by lia).
  apply (good_silent binfo' (ents g) (lo g) (tops g) (<[b := OwnBlock (length (binfo g))]> (own g))); try done;
    [|..|by left].
  - eapply blocks_new; [apply blocks_inv|done|done|done|done|done|lia].
  - eapply pool_reown; [apply pool_inv|done..].
  - apply (index_same start _ _ _ _ (store_value e (Some b) p)); [done..|].
    eapply (index_store_value start _ _ _ (binfo g)); [apply index_inv|exact He|apply (in_lo _ _ _ _ _ _ index_inv)|lia|lia|..].
    + intros n' b' st' Hn' [Hb'|[Hb' [? ?]%list_lookup_singleton_Some]]%lookup_app_Some; [done|lia].
    + intros n' b' st' Hn' Hb'. by apply lookup_app_l_Some.
    + rewrite Hlast. by intros b' st' [= <- <-].
  - split; simpl.
    + rewrite Hlen'. lia.
    + intros _. exists b, Live. split; [done|]. replace (length (elems g) / 32)%nat with (length (binfo g)); [done|].
      rewrite HT, Nat.mul_comm. symmetry. by apply Nat.div_mul.
    + right. exists i, H. split.
      * rewrite Hlen'. apply (current_same _ _ _ _ (store_value e (Some b) p)); [done..|].
        eapply current_store_value; [exact Hcur|lia].
      * intros ? _. lia.
    + done.
    + intros b'. destruct (decide (b' = b)) as [->|Hne]; [by rewrite lookup_insert_eq|]. rewrite lookup_insert_ne by done.
      intros Hb'. apply (pr_private _ _ _ _ producer_inv) in Hb'. rewrite Hpc in Hb'. simpl in Hb'. congruence.
    + intros b' st'. rewrite Hlen'. simpl. rewrite Nat.sub_0_r, Hlast. by intros [= <- _].
  - apply later_refl_index; [exists []; by rewrite app_nil_r| |done].
    intros n' b' st' Hb'. exists st'. by apply lookup_app_l_Some.
  - split; [done|]. intros x. simpl. destruct (decide (x = b)) as [->|Hx].
    + rewrite lookup_insert_eq. split; [congruence|done].
    + rewrite lookup_insert_ne by done. done.
Qed.

Lemma enq_construct v t :
  pc = PConstruct v t ->
  exists b B, tailBlock p = Some b /\ deref m b = Some B /\
    good N g m [] (mkSys p (store_block b (set_slot t (Some v) B) m) (PPublish v t) cs).
Proof.
  intros Hpc. destruct producer_inv as [Hs Ht Hc Hl]. rewrite Hpc in Hs, Hc, Hl. simpl in Hs, Hc, Hl. subst t.
  destruct (Ht ltac:(lia)) as (b & st & Htb & Hbi).
  assert (st = Live) as ->.
  { apply (bk_live _ _ _ _ _ _ blocks_inv _ _ _ Hbi). apply (count_seg_lt _ _ _ (length (elems g))); [done|].
    intros x Hx. apply lookup_lt_Some in Hx. pose proof (tickets_head _ _ _ _ (v_tickets _ _ _ Hv)). lia. }
  destruct (bk_mem _ _ _ _ _ _ blocks_inv _ _ _ Hbi ltac:(done)) as (B & HB & Hlen & _).
  exists b, B. do 2 (split; [done|]).
  apply (good_silent (binfo g) (ents g) (lo g) (tops g) (own g)); try done; [|..|by left].
  - eapply blocks_construct; [apply blocks_inv|done|done|done|done|by apply slot_idx].
  - apply pool_store; [apply pool_inv|by exists B|]. simpl. by rewrite length_insert.
  - apply index_inv.
  - split; simpl; try done; keep_private. split; [done|]. exists b, (set_slot (idx (length (elems g))) (Some v) B).
    rewrite deref_store, decide_True by done. do 2 (split; [done|]). simpl. rewrite slot_idx by done.
    apply list_lookup_insert_eq. rewrite Hlen. by apply Nat.mod_upper_bound.
  - apply later_refl_index; [exists []; by rewrite app_nil_r|eauto|done].
  - pose proof (bk_own _ _ _ _ _ _ blocks_inv _ _ _ Hbi ltac:(done)).
    apply respects_store; [done|congruence|by rewrite HB].
Qed.

Lemma enq_publish v t :
  pc = PPublish v t ->
  good N g m [EPush v; EEnqueue true] (mkSys (set_tailIndex (u64 (1 + t)) p) m (PRet true) cs).
Proof.
  intros Hpc. destruct producer_inv as [Hs Ht Hc Hl]. rewrite Hpc in Hs, Hc, Hl. simpl in Hs, Hc, Hl.
  destruct Hl as (-> & b & B & Htb & HB & Hsl).
  set (g' := mkGhost (elems g ++ [v]) (claims g) (heads g) (binfo g) (ents g) (lo g) (tops g) (own g) (gcs g)).
  pose proof (tickets_head _ _ _ _ (v_tickets _ _ _ Hv)) as Hhead.
  exists g'. split; [|split; [|by apply respects_same]].
  - assert (forall t, conc g' (set_tailIndex (u64 (1 + idx (length (elems g)))) p) (gcs g t) (cs t)) as Hco.
    { intros t. eapply conc_later; [|intros k Hk; by eapply taken_lt|apply (v_conc _ _ _ Hv t)].
      split; simpl; [exists []; by rewrite app_nil_r|by eexists|eauto|eauto|eauto]. }
    pose proof (v_bound _ _ _ Hv) as Hb. pose proof (v_head _ _ _ Hv) as Hh.
    pose proof (v_optimistic _ _ _ Hv) as Ho. pose proof (v_overcommit _ _ _ Hv) as Hov.
    split; simpl; rewrite ?length_app; simpl; try done.
    + lia.
    + rewrite Z.add_comm, idx_succ. f_equal. lia.
    + apply tickets_push, (v_tickets _ _ _ Hv).
    + apply (v_indices _ _ _ Hv).
    + apply blocks_push; [apply blocks_inv|]. intros b' st' Hb'.
      destruct (Ht ltac:(lia)) as (b0 & st0 & Htb0 & Hbi0). simplify_eq. by exists B.
    + apply pool_inv.
    + eapply index_same; [..|apply index_inv]; done.
    + split; simpl; rewrite ?length_app; simpl; try done; keep_private.
      * lia.
      * intros Hlt. destruct (Ht ltac:(lia)) as (b0 & st0 & Htb0 & Hbi0). exists b0, st0. split; [done|].
        rewrite <- Hbi0. f_equal.
        assert (length (elems g) / 32 = length (binfo g) - 1)%nat as ->
          by (symmetry; apply (Nat.div_unique _ 32 _ (length (elems g) - 32 * (length (binfo g) - 1))); lia).
        symmetry. apply (Nat.div_unique _ 32 _ (length (elems g) + 1 - 32 * (length (binfo g) - 1))); lia.
      * destruct Hc as [(_ & _ & ?)|(i & H & Hcur & Hres)]; [done|]. right. exists i, H.
        split; [by eapply current_same; [..|exact Hcur]|done].
  - exists (abs g'). split; [|exists (abs g'); split; [by split|by split]].
    split; simpl; [by rewrite drop_app_le|].
    intros t _. simpl. destruct (taken_index (gcs g t)) as [k|] eqn:Hk; [|done]. simpl.
    apply lookup_app_l. by eapply taken_lt.
Qed.

(** Every step of the enqueuing thread. *)
Lemma enqueue_good a p' m' pc' :
  enqueuing pc -> enqueue_step raw_value a p m pc = (p', m', pc') ->
  good N g m (enqueue_event pc pc') (mkSys p' m' pc' cs).
Proof.
  intros Hen Hstep. assert (exists q, pc = q) as [q Hq] by eauto. rewrite Hq in Hen, Hstep |- *.
  destruct q as [|v|v t|v t|v t h nt e|v t h nt e|v t|v t e|e|e|v t e b|v t e b|v t|v t|ok|];
    try done; cbn [enqueue_step] in Hstep.
  - injection Hstep as <- <- <-. pose proof (enq_start v Hq) as Hg. cbv zeta in Hg. by destruct (_ =? 0).
  - pose proof (enq_head v t (negb (circular_less_than (headIndex p) (u64 (t + BLOCK_SIZE)))) Hq) as Hg.
    destruct (negb _); by injection Hstep as <- <- <-.
  - injection Hstep as <- <- <-. by apply enq_insert.
  - injection Hstep as <- <- <-. by apply enq_key.
  - injection Hstep as <- <- <-. by apply enq_tail.
  - destruct (mem a); [|injection Hstep as <- <- <-; by eapply enq_fail].
    destruct (enq_grow v t Hq) as (h & nt & e & Hne & Hg). rewrite Hne in Hstep. by injection Hstep as <- <- <-.
  - destruct (requisition_block a m) as [[b|] m1] eqn:Hreq; injection Hstep as <- <- <-.
    + by eapply enq_block.
    + apply requisition_none in Hreq as [-> _]. by eapply enq_noblock.
  - destruct (enq_rewind e Hq) as (p1 & Hre & Hg). rewrite Hre in Hstep. by injection Hstep as <- <- <-.
  - injection Hstep as <- <- <-. by apply enq_unset.
  - destruct (enq_reset v t e b Hq) as (B & HB & Hg). rewrite HB in Hstep. by injection Hstep as <- <- <-.
  - injection Hstep as <- <- <-. by eapply enq_value.
  - destruct (enq_construct v t Hq) as (b & B & Htb & HB & Hg). rewrite Htb, HB in Hstep.
    by injection Hstep as <- <- <-.
  - injection Hstep as <- <- <-. by apply enq_publish.
  - pose proof (pr_locals _ _ _ _ producer_inv) as Hl. by rewrite Hq in Hl.
Qed.

End Enqueue.

(** ** The steps of the other sub-queues, and the start *)

(** The pool changes outside the blocks of this sub-queue. *)
Lemma other_inv N p m pc cs g m' own' :
  inv N (mkSys p m pc cs) g -> pool_ok m' own' ->
  (forall b o, own g !! b = Some o -> o = OwnPrivate \/ (exists n, o = OwnBlock n) ->
     own' !! b = Some o /\ deref m' b = deref m b) ->
  (forall b o, own' !! b = Some o -> o = OwnPrivate \/ (exists n, o = OwnBlock n) -> own g !! b = Some o) ->
  let g' := with_index g (binfo g) (ents g) (lo g) (tops g) own' in
  inv (S N) (mkSys p m' pc cs) g' /\ atomic_steps (abs g) [] (abs g').
Proof.
  intros Hv Hpo Hf Hf' g'. assert (quiet g g' p p m m') as Hq.
  { split; simpl; try done; try (by eauto).
    intros b B v st Hb HB Hs. exists B. split; [|done].
    assert (st = Live) as ->.
    { apply (bk_live _ _ _ _ _ _ (v_blocks _ _ _ Hv) _ _ _ Hb).
      apply (count_seg_lt _ _ _ (length (elems g))); [done|]. intros x Hx.
      apply lookup_lt_Some in Hx. pose proof (tickets_head _ _ _ _ (v_tickets _ _ _ Hv)). lia. }
    pose proof (bk_own _ _ _ _ _ _ (v_blocks _ _ _ Hv) _ _ _ Hb ltac:(done)) as Ho.
    by rewrite (proj2 (Hf _ _ Ho ltac:(eauto))). }
  eapply (silent_inv _ _ _ _ _ _ Hv (binfo g) (ents g) (lo g) (tops g) own'); try done.
  - eapply blocks_frame; [apply (v_blocks _ _ _ Hv)|..]; intros b n Hb; [apply Hf|apply Hf']; eauto.
  - apply (v_index _ _ _ Hv).
  - eapply producer_quiet; [exact Hq|apply (v_producer _ _ _ Hv)].
  - by eapply quiet_later.
Qed.

Lemma other_good N p m pc cs g m' own' :
  inv N (mkSys p m pc cs) g -> pool_ok m' own' ->
  (forall b o, own g !! b = Some o -> o = OwnPrivate \/ (exists n, o = OwnBlock n) ->
     own' !! b = Some o /\ deref m' b = deref m b) ->
  (forall b o, own' !! b = Some o -> o = OwnPrivate \/ (exists n, o = OwnBlock n) -> own g !! b = Some o) ->
  outcome N g [] (mkSys p m' pc cs).
Proof. intros Hv Hpo Hf Hf'. eexists. by eapply other_inv. Qed.

Lemma step_good N s g ev s' :
  start mod 32 = 0 -> Z.of_nat N < 2 ^ 60 -> inv N s g -> step raw_value s ev s' -> outcome N g ev s'.
Proof.
  intros Hstart HN Hv Hstep. destruct Hstep as
    [p m pc cs v Hpc|p m pc cs a p' m' pc' Hpc Hs|p m pc cs tid Hr|p m pc cs tid p' m' c' Hr Hs
    |p m pc cs a b m' Hreq|p m pc cs b B0 B Hb HB0 Hdyn Hlen|p m pc cs b m' Hb Hadd].
  - by eapply good_outcome, enq_call.
  - by eapply good_outcome, enqueue_good.
  - by eapply good_outcome, deq_call.
  - by eapply good_outcome, dequeue_good.
  - destruct (requisition_ok _ _ _ OwnOther _ _ (v_pool _ _ _ Hv) Hreq ltac:(by right)) as (Hpo & Hfr & Hfree & Hot).
    eapply (other_good _ _ _ _ _ _ _ (<[b := OwnOther]> (own g)) Hv).
    + destruct Hpo as [Hlive Hnd Hfr' Hoth Hpool Hsize Howned Hhome Hstat Hcount]. split; simpl; try done.
      intros b' [->|Hb']%elem_of_cons; [by rewrite lookup_insert_eq|by apply Hoth].
    + intros b' o Ho Hkind. simpl in *. assert (b' <> b) as Hne by (intros ->; destruct (Hfree _ Ho); naive_solver).
      rewrite lookup_insert_ne by done. split; [done|].
      destruct Hkind as [->|[n ->]]; [|by eapply Hfr].
      by rewrite <- (requisition_deref _ _ _ _ _ Hreq Hne).
    + intros b' o. destruct (decide (b' = b)) as [->|Hne]; [|by rewrite lookup_insert_ne].
      rewrite lookup_insert_eq. naive_solver.
  - pose proof (po_others _ _ (v_pool _ _ _ Hv) _ Hb) as Ho. simpl in Ho.
    eapply (other_good _ _ _ _ _ _ _ (own g) Hv); [..|done].
    + apply pool_store; [apply (v_pool _ _ _ Hv)|by exists B0|done].
    + intros b' o Ho' Hkind. split; [done|]. rewrite deref_store, decide_False; [done| |by rewrite HB0].
      naive_solver.
  - pose proof (po_others _ _ (v_pool _ _ _ Hv) _ Hb) as Ho. simpl in Ho.
    destruct (give_back_ok (with_others (filter (fun x => x <> b) (others m)) m) (own g) b OwnOther)
      as (m1 & own' & Hadd' & Hpo & Hot & Hsame & Hgone); [|done|done|done|..].
    + destruct (v_pool _ _ _ Hv) as [Hlive Hnd Hfree Hoth Hpool Hsize Howned Hhome Hstat Hcount]. split; simpl; try done.
      intros b' [_ Hb']%list_elem_of_filter. by apply Hoth.
    + simpl. intros [? _]%list_elem_of_filter. done.
    + rewrite Hadd in Hadd'. injection Hadd' as <-. eapply (other_good _ _ _ _ _ _ _ own' Hv Hpo).
      * intros b' o Ho' Hkind. assert (b' <> b) as Hne by (intros ->; naive_solver).
        rewrite Hsame by done. split; [done|]. by rewrite (give_back_deref _ _ _ _ Hadd Hne).
      * intros b' o Ho' Hkind. assert (b' <> b) as Hne by (intros ->; naive_solver). by rewrite Hsame in Ho' by done.
Qed.

End Lin.
