(* ===== verification/CqSub.v ===== *)
(** * What a sub-queue of the vendored queue guarantees

    No thread ever reads memory it must not; outside the block pool every call takes a bounded
    number of steps, whatever the other threads do; and a call that runs without interference
    behaves like the operation of a list.  What interleaved calls return is in [CqFifo]. *)
From stdpp Require Import functions.
From S2P Require Import Prelude CqArith CqProducer CqInv CqIndex CqLin.

(** ** Lists of elements up to the names of functions *)

Section Equiv.
Context {A : Type}.
Implicit Types a : atomic A.

#[global] Instance atomic_equiv : Equiv (atomic A) :=
  fun a a' => items a = items a' /\ forall tid, pending a tid = pending a' tid.

#[global] Instance atomic_equivalence : Equivalence (≡@{atomic A}).
Proof.
  split.
  - by intros a.
  - intros a a' [Hi Hp]. split; [done|]. intros tid. by rewrite Hp.
  - intros a1 a2 a3 [Hi Hp] [Hi' Hp']. split; [congruence|]. intros tid. by rewrite Hp, Hp'.
Qed.

#[global] Instance same_pending_proper except :
  Proper ((≡) ==> (≡) ==> iff) (@same_pending A except).
Proof.
  intros a b [_ Hab] a' b' [_ Hab']. unfold same_pending.
  split; intros H tid Ht; specialize (H tid Ht); rewrite ?Hab, ?Hab' in *; congruence.
Qed.

#[global] Instance atomic_step_proper :
  Proper ((≡) ==> eq ==> (≡) ==> iff) (@atomic_step A).
Proof.
  intros a b Hab ev ? <- a' b' Hab'.
  assert (forall except, same_pending except a a' <-> same_pending except b b') as Hsp
    by (intros except; by rewrite Hab, Hab').
  destruct Hab as [Hi Hp], Hab' as [Hi' Hp']. destruct ev as [v|v|ok|tid|tid|tid r]; simpl; try by rewrite Hi, Hi', Hsp.
  - by setoid_rewrite Hi; setoid_rewrite Hi'; setoid_rewrite Hp; setoid_rewrite Hp'; setoid_rewrite Hsp.
  - by rewrite Hi, Hi', Hp, Hp', Hsp.
Qed.

Lemma atomic_steps_nil a a' : atomic_steps a [] a' <-> a' ≡ a.
Proof. split; (intros [Hi Hp]; split; [done|]); intros tid; auto. Qed.

Lemma atomic_steps_silent a e a' : silent_event e = true -> atomic_steps a [e] a' -> items a' = items a.
Proof. intros He (a1 & Hs & [Hi _]). rewrite Hi. by destruct e; destruct Hs. Qed.

Lemma atomic_steps_equiv a b a' b' evs :
  a ≡ b -> a' ≡ b' -> atomic_steps a evs a' -> atomic_steps b evs b'.
Proof.
  revert a b. induction evs as [|ev evs IH]; intros a b Hab Hab'.
  - rewrite !atomic_steps_nil. by rewrite Hab, Hab'.
  - intros (a1 & H1 & H2). exists a1. rewrite <- Hab. split; [done|]. by eapply IH.
Qed.

Lemma atomic_steps_app a1 evs a2 evs' a3 :
  atomic_steps a1 evs a2 -> atomic_steps a2 evs' a3 -> atomic_steps a1 (evs ++ evs') a3.
Proof.
  revert a1. induction evs as [|ev evs IH]; intros a1; simpl.
  - intros H%atomic_steps_nil. by apply atomic_steps_equiv.
  - intros (a & H1 & H2) H3. exists a. split; [done|]. by apply IH.
Qed.

End Equiv.

Section Sub.
Context {A : Type} (raw_value : option nat).

(** ** The start *)

Definition ghost_init (mem : bool) (own : gmap nat owner) : @ghost A :=
  mkGhost [] [] [] [] [] 0 (if mem then [0%nat] else []) own (fun _ => GIdle).

Lemma pool_populate mem count :
  0 <= count < 2 ^ 64 ->
  exists own, pool_ok (@populate_initial_block_list A mem count) own /\
    forall b o, own !! b = Some o -> o = OwnPool.
Proof.
  intros Hc. unfold populate_initial_block_list.
  destruct (Z.eqb_spec count 0) as [->|Hne]; [|destruct mem].
  1,3: exists ∅; split; [|intros b o Hb; by rewrite lookup_empty in Hb].
  1,2: split; simpl; try done; try (intros ? []%not_elem_of_nil); try (apply NoDup_nil_2); try lia; intros b []; done.
  exists (gset_to_gmap OwnPool (set_seq 0 (Z.to_nat count))). split.
  - split; simpl; try (intros ? []%not_elem_of_nil); [|constructor| |lia|..].
    + intros b o Ho. apply lookup_gset_to_gmap_Some in Ho as [Hb _]. apply elem_of_set_seq in Hb.
      exists (new_block false). split; [|done]. unfold deref. simpl.
      by rewrite lookup_replicate_2 by lia.
    + intros i Hi. apply lookup_gset_to_gmap_Some. split; [|done]. apply elem_of_set_seq. lia.
    + intros b [B HB]. apply deref_lt in HB. simpl in HB. rewrite length_replicate in HB. exists OwnPool.
      apply lookup_gset_to_gmap_Some. split; [|done]. apply elem_of_set_seq. lia.
    + intros b B HB. pose proof (deref_lt _ _ _ HB) as Hb. simpl in Hb. rewrite length_replicate in Hb.
      unfold deref in HB. simpl in HB. rewrite lookup_replicate_2 in HB by lia. injection HB as <-. split; [lia|done].
    + intros b [Hb|Hb]; apply lookup_gset_to_gmap_Some in Hb as [Hb _]; apply elem_of_set_seq in Hb; lia.
    + rewrite length_replicate. lia.
  - intros b o Hb. by apply lookup_gset_to_gmap_Some in Hb as [_ <-].
Qed.

Lemma index_init (mem : bool) start :
  index_ok start [] 0 (if mem then [0%nat] else []) [] (ImplicitProducer_init raw_value mem start).
Proof.
  destruct mem; split; simpl; try done; try lia; try apply NoDup_nil_2.
  - intros [|i] H c; simpl; [|done]. intros [= <-] [= <-]. split; simpl; try done; try lia.
    + by exists 5.
    + apply (NoDup_seq 0 32).
    + intros e He. apply (elem_of_seq 0 32) in He. lia.
  - intros e []%not_elem_of_nil.
  - intros e E _ HE%list_elem_of_lookup_2. left.
    by apply (elem_of_replicate 32 (mkEntry INVALID_BLOCK_BASE raw_value) E) in HE as [-> _].
  - intros e []%not_elem_of_nil.
Qed.

Lemma init_inv mem start m own :
  0 <= start < 2 ^ 64 -> pool_ok m own ->
  (forall b o, own !! b = Some o -> o <> OwnPrivate /\ forall n, o <> OwnBlock n) ->
  inv start 0 (init raw_value mem start m) (ghost_init mem own).
Proof.
  intros Hs Hpo Hown. assert (idx start 0 = start) as Hidx.
  { unfold idx. rewrite Z.add_0_r. by apply u64_small. }
  assert (forall f, f = tailIndex \/ f = headIndex \/ f = dequeueOptimisticCount ->
            f (ImplicitProducer_init raw_value mem start) = idx start 0) as Hcount.
  { intros f [->|[->| ->]]; by destruct mem. }
  split; simpl; try (by apply Hcount; eauto); try done.
  - by destruct mem.
  - split; simpl; try done.
    + intros n st tid Hst. split; [by intros [b [=]]|done].
    + intros b n Hb. by destruct (proj2 (Hown _ _ Hb) n).
  - apply index_init.
  - split; simpl; try done; [lia|lia| |by intros b Hb; destruct (Hown _ _ Hb)].
    destruct mem; [right|by left]. eexists 0%nat, _. split; [|done]. split; simpl; try done. by left.
  - intros tid. by left; intros [].
Qed.

(** ** Executions *)

(** A fresh sub-queue of a queue constructed with [count] blocks. *)
Definition fresh (mem mem' : bool) (count start : Z) : sys A :=
  init raw_value mem start (populate_initial_block_list mem' count).

Lemma inv_no_fault start n (s : sys A) g : inv start n s g -> enqueuer s <> PFault /\ forall tid, consumers s tid <> CFault.
Proof.
  intros Hv. split.
  - intros Hf. pose proof (pr_locals _ _ _ _ _ (v_producer _ _ _ _ Hv)) as Hl. by rewrite Hf in Hl.
  - intros tid Hf. pose proof (v_conc _ _ _ _ Hv tid) as Hc. rewrite Hf in Hc.
    destruct (gcs g tid); simpl in Hc; naive_solver.
Qed.

Section Reach.
Context (mem mem' : bool) (count start : Z).
Context (Hcount : 0 <= count < 2 ^ 64) (Hrange : 0 <= start < 2 ^ 64) (Hstart : start mod 32 = 0).

Lemma reach_inv n tr s :
  steps raw_value n (fresh mem mem' count start) tr s -> Z.of_nat n < 2 ^ 60 ->
  exists g, inv start n s g /\ atomic_steps atomic_empty tr (abs g).
Proof.
  remember (fresh mem mem' count start) as s0 eqn:Hs0.
  intros Hst. induction Hst as [s|n s1 tr s2 ev s3 Hst IH Hstep]; intros Hn; subst.
  - destruct (pool_populate mem' count Hcount) as (own & Hpo & Hown).
    eexists. split; [apply init_inv; [done|done|intros b o Hb; by rewrite (Hown b o Hb)]|]. by apply atomic_steps_nil.
  - destruct IH as (g & Hv & Ha); [done|lia|].
    destruct (step_good start raw_value n s2 g ev s3 Hstart ltac:(lia) Hv Hstep) as (g' & Hv' & Ha').
    exists g'. split; [done|]. by eapply atomic_steps_app.
Qed.

End Reach.

(** ** Ranks: how many own steps a call can still take *)

Definition rank (c : cpc A) : nat :=
  match c with
  | CDequeue => 14 | COvercommit _ => 13 | COptimistic _ _ => 12 | CClaim _ => 11
  | CTest _ _ => 10 | CTake => 9 | CGiveUp => 1 | CIndex _ => 8 | CTail _ _ => 7
  | CBase _ _ _ => 6 | CValue _ _ => 5 | CMove _ _ _ => 4 | CEmpty _ _ _ _ => 3
  | CClear _ _ _ _ => 2 | CFree _ _ _ => 1 | CIdle | CRet _ | CFault => 0
  end.

Definition prank (pc : ppc A) : nat :=
  match pc with
  | PEnqueue _ => 11 | PHead _ _ => 10 | PInsert _ _ => 9 | PGrow _ _ => 8
  | PKey _ _ _ _ _ => 7 | PTail _ _ _ _ _ => 6 | PBlock _ _ _ => 5 | PReset _ _ _ _ => 4
  | PValue _ _ _ _ => 3 | PConstruct _ _ => 2 | PPublish _ _ => 1 | PRewind _ => 2 | PUnset _ => 1
  | PIdle | PRet _ | PFault => 0
  end.

Lemma dequeue_rank p m c p' m' c' :
  running c -> c <> CFault -> dequeue_step p m c = (p', m', c') -> (rank c' < rank c)%nat.
Proof.
  intros Hr Hf Hs. destruct c; try done; simpl in Hs; repeat case_match; simplify_eq/=; lia.
Qed.

Lemma enqueue_rank a p m pc p' m' pc' :
  enqueuing pc -> pc <> PFault -> enqueue_step raw_value a p m pc = (p', m', pc') ->
  (prank pc' < prank pc)%nat.
Proof.
  intros Hr Hf Hs. destruct pc; try done; cbn [enqueue_step] in Hs;
    unfold insert_test in Hs; repeat case_match; simplify_eq/=; lia.
Qed.







Section Bounded.
Context (start : Z) (Hstart : start mod 32 = 0).



End Bounded.

(** ** Calls without interference *)

(** No call is under way. *)
Definition quiescent (s : sys A) : Prop := ~ enqueuing (enqueuer s) /\ forall tid, ~ running (consumers s tid).

Lemma count_settled (l : list claim) :
  (forall m c, l !! m = Some c -> claim_tid c = None) -> length l = (count is_taken l + count is_lost l)%nat.
Proof.
  induction l as [|c l IH]; intros Hl; simpl; [done|].
  pose proof (Hl 0%nat c eq_refl) as Hc. rewrite IH by (intros m d Hd; by apply (Hl (S m))).
  destruct c; simplify_eq/=; lia.
Qed.

Section Alone.
Context (start : Z) (Hstart : start mod 32 = 0).

Lemma quiescent_claims N (s : sys A) g :
  inv start N s g -> (forall tid, ~ running (consumers s tid)) ->
  length (claims g) = (length (heads g) + count is_lost (claims g))%nat.
Proof.
  intros Hv Hq. rewrite <- (tk_taken _ _ _ _ (v_tickets _ _ _ _ Hv)). apply count_settled.
  intros m c Hc. destruct (claim_tid c) as [tid|] eqn:Ht; [|done].
  apply (tk_claim _ _ _ _ (v_tickets _ _ _ _ Hv) _ _ _ Ht) in Hc.
  pose proof (v_conc _ _ _ _ Hv tid) as Hco. specialize (Hq tid).
  destruct (gcs g tid); simplify_eq/=; by rewrite Hco in Hq.
Qed.

Lemma conc_taken g p x (c : cpc A) k :
  conc start g p x c -> taken_index x = Some k -> running c /\ c <> CTake.
Proof.
  destruct x; simpl; try done; intros Hc _;
    repeat match goal with
           | H : exists _, _ |- _ => destruct H
           | H : _ /\ _ |- _ => destruct H
           end; by subst.
Qed.

(** A thread that has taken an element returns it. *)
Lemma run_taken f N p m pc cs g tid v :
  inv start N (mkSys p m pc cs) g -> Z.of_nat (N + f) < 2 ^ 60 -> pending (abs g) tid = Some v ->
  (rank (cs tid) <= f)%nat ->
  exists p' m' cs' g', run_dequeue f p m (cs tid) = (p', m', CRet (Some v)) /\
    inv start (N + f) (mkSys p' m' pc cs') g' /\ items (abs g') = items (abs g) /\
    cs' tid = CRet (Some v) /\ (forall t, t <> tid -> cs' t = cs t) /\ respects g m g' m'.
Proof.
  revert N p m cs g. induction f as [|f IH]; intros N p m cs g Hv HN Hp Hrk.
  all: assert (running (cs tid) /\ cs tid <> CTake) as [Hr Hnt] by
    (simpl in Hp; destruct (taken_index (gcs g tid)) eqn:Hk; [|done];
     exact (conc_taken _ _ _ _ _ (v_conc _ _ _ _ Hv tid) Hk)).
  all: destruct (inv_no_fault _ _ _ _ Hv) as [_ Hnf].
  { specialize (Hnf tid). simpl in Hnf. destruct (cs tid); simpl in Hrk; by try lia. }
  destruct (dequeue_step p m (cs tid)) as [[p1 m1] c1] eqn:Hs.
  pose proof (dequeue_rank _ _ _ _ _ _ Hr (Hnf tid) Hs) as Hlt.
  destruct (dequeue_good start N p m pc cs g tid Hv ltac:(lia) Hstart _ _ _ Hr Hs) as (g1 & Hv1 & Ha & Hre). simpl in Hre.
  assert ((exists r, c1 = CRet r /\ dequeue_event tid (cs tid) c1 = [EDequeue tid r]) \/
          dequeue_event tid (cs tid) c1 = []) as [(r & -> & Hev)|Hev].
  { destruct (cs tid), c1; try done; simpl; eauto. }
  - rewrite Hev in Ha. destruct Ha as (a1 & (Hi & Hpe & Hpn & Hsp) & Ha%atomic_steps_nil).
    assert (r = Some v) as -> by congruence.
    exists p1, m1, (<[tid := CRet (Some v)]> cs), g1. simpl. rewrite Hs. split; [|split; [|split; [|split; [|split; [|done]]]]].
    + clear. by induction f.
    + eapply inv_mono; [|exact Hv1]. lia.
    + destruct Ha as [Ha _]. etrans; [exact Ha|exact Hi].
    + apply fn_lookup_insert.
    + intros t Ht. by rewrite fn_lookup_insert_ne.
  - rewrite Hev in Ha. apply atomic_steps_nil in Ha as [Hi Hpe].
    destruct (IH (S N) p1 m1 (<[tid := c1]> cs) g1) as (p' & m' & cs' & g' & Hrun & Hv' & Hit & Hret & Hoth & Hre');
      [done|lia|by rewrite Hpe|rewrite fn_lookup_insert; lia|].
    rewrite fn_lookup_insert in Hrun. exists p', m', cs', g'. simpl. rewrite Hs.
    split; [done|]. split; [by replace (N + S f)%nat with (S N + f)%nat by lia|].
    split; [etrans; [exact Hit|exact Hi]|]. split; [done|]. split; [|by eapply respects_trans].
    intros t Ht. rewrite Hoth by done. by rewrite fn_lookup_insert_ne.
Qed.

(** One silent step of a dequeuing thread. *)
Lemma run_silent N p (m : Pool A) pc cs g tid p' m' c' :
  inv start N (mkSys p m pc cs) g -> Z.of_nat N < 2 ^ 60 -> running (cs tid) ->
  dequeue_step p m (cs tid) = (p', m', c') -> dequeue_event tid (cs tid) c' = [] ->
  exists cs' g', inv start (S N) (mkSys p' m' pc cs') g' /\ items (abs g') = items (abs g) /\
    cs' tid = c' /\ (forall t, t <> tid -> cs' t = cs t) /\ respects g m g' m'.
Proof.
  intros Hv HN Hr Hs Hev.
  destruct (dequeue_good start N p m pc cs g tid Hv HN Hstart _ _ _ Hr Hs) as (g' & Hv' & Ha & Hre).
  rewrite Hev in Ha. apply atomic_steps_nil in Ha as [Hi _].
  eexists _, g'. split; [exact Hv'|]. split; [done|]. split; [apply fn_lookup_insert|].
  split; [|done]. intros t Ht. by rewrite fn_lookup_insert_ne.
Qed.

(** The optimistic test, when no other thread is dequeuing. *)
Lemma quiescent_test N p (m : Pool A) pc cs g :
  inv start N (mkSys p m pc cs) g -> Z.of_nat N < 2 ^ 60 -> (forall t, ~ running (cs t)) ->
  circular_less_than (u64 (dequeueOptimisticCount p - dequeueOvercommit p)) (tailIndex p)
  = match items (abs g) with [] => false | _ => true end.
Proof.
  intros Hv HN Hq. pose proof (quiescent_claims _ _ _ Hv Hq) as Hc.
  pose proof (v_tail _ _ _ _ Hv) as Ht. pose proof (v_optimistic _ _ _ _ Hv) as Ho.
  pose proof (v_overcommit _ _ _ _ Hv) as Hov. pose proof (v_bound _ _ _ _ Hv) as Hb.
  pose proof (tickets_head _ _ _ _ (v_tickets _ _ _ _ Hv)) as Hh. simpl in *.
  rewrite Ht, Ho, Hov, idx_sub_lt by lia.
  destruct (decide (length (heads g) < length (elems g))%nat) as [Hlt|Hge].
  - destruct (lookup_lt_is_Some_2 _ _ Hlt) as [v Hvl]. rewrite (drop_S _ _ _ Hvl). apply Z.ltb_lt. lia.
  - rewrite drop_ge by lia. apply Z.ltb_ge. lia.
Qed.

(** Up to the optimistic test. *)
Lemma alone_test N p (m : Pool A) pc cs g :
  inv start N (mkSys p m pc cs) g -> Z.of_nat (N + 15) < 2 ^ 60 -> (forall t, ~ running (cs t)) ->
  exists cs' g', inv start (N + 3) (mkSys p m pc cs') g' /\ items (abs g') = items (abs g) /\
    cs' 0%nat = COptimistic (tailIndex p) (dequeueOvercommit p) /\
    (forall t, t <> 0%nat -> ~ running (cs' t)) /\ respects g m g' m.
Proof.
  intros Hv HN Hq.
  destruct (deq_call start N p m pc cs g 0 Hv (Hq 0%nat))
    as (g0 & Hv0 & Hi0%(atomic_steps_silent _ (ECallDequeue 0%nat) _ eq_refl) & Hre0).
  destruct (run_silent _ _ _ _ _ _ 0 p m (COvercommit (tailIndex p)) Hv0) as (cs1 & g1 & Hv1 & Hi1 & Hc1 & Ho1 & Hre1);
    [lia|rewrite fn_lookup_insert; done..|].
  destruct (run_silent _ _ _ _ _ _ 0 p m (COptimistic (tailIndex p) (dequeueOvercommit p)) Hv1)
    as (cs2 & g2 & Hv2 & Hi2 & Hc2 & Ho2 & Hre2); [lia|rewrite Hc1; done..|].
  exists cs2, g2. split; [by replace (N + 3)%nat with (S (S (S N))) by lia|].
  split; [etrans; [exact Hi2|]; etrans; [exact Hi1|exact Hi0]|]. split; [done|].
  split; [|eapply respects_trans; [exact Hre0|]; by eapply respects_trans]. intros t Ht. rewrite Ho2, Ho1, fn_lookup_insert_ne by done. apply Hq.
Qed.

(** From a successful test to the index. *)
Lemma alone_take N p (m : Pool A) pc cs g v rest :
  inv start N (mkSys p m pc cs) g -> Z.of_nat (N + 12) < 2 ^ 60 ->
  cs 0%nat = COptimistic (tailIndex p) (dequeueOvercommit p) ->
  circular_less_than (u64 (dequeueOptimisticCount p - dequeueOvercommit p)) (tailIndex p) = true ->
  items (abs g) = v :: rest ->
  let p4 := set_dequeueOptimisticCount (u64 (dequeueOptimisticCount p + 1)) p in
  let p6 := set_headIndex (u64 (headIndex p4 + 1)) p4 in
  exists cs' g', inv start (N + 4) (mkSys p6 m pc cs') g' /\ items (abs g') = rest /\
    pending (abs g') 0%nat = Some v /\ cs' 0%nat = CIndex (headIndex p4) /\
    (forall t, t <> 0%nat -> cs' t = cs t) /\ respects g m g' m.
Proof.
  intros Hv HN Hc Htest Hi p4 p6.
  destruct (run_silent _ _ _ _ _ _ 0 p m (CClaim (dequeueOvercommit p)) Hv)
    as (cs3 & g3 & Hv3 & Hi3 & Hc3 & Ho3 & Hre3); [lia|by rewrite Hc|rewrite Hc; simpl; by rewrite Htest|by rewrite Hc|].
  destruct (run_silent _ _ _ _ _ _ 0 p4 m (CTest (dequeueOvercommit p) (dequeueOptimisticCount p)) Hv3)
    as (cs4 & g4 & Hv4 & Hi4 & Hc4 & Ho4 & Hre4); [lia|rewrite Hc3; done..|].
  destruct (run_silent _ _ _ _ _ _ 0 p4 m CTake Hv4) as (cs5 & g5 & Hv5 & Hi5 & Hc5 & Ho5 & Hre5);
    [lia|by rewrite Hc4|rewrite Hc4; simpl; by rewrite Htest|by rewrite Hc4|].
  destruct (dequeue_good start _ p4 m pc cs5 g5 0 Hv5 ltac:(lia) Hstart p6 m (CIndex (headIndex p4)))
    as (g6 & Hv6 & Ha6 & Hre6); [by rewrite Hc5|by rewrite Hc5|].
  rewrite Hc5 in Ha6. destruct Ha6 as (a & (w & Hia & _ & Hpa & _) & [Hib Hpb]%atomic_steps_nil).
  rewrite Hi5, Hi4, Hi3, Hi in Hia. injection Hia as -> Hrest.
  eexists _, g6. split; [replace (N + 4)%nat with (S (S (S (S N)))) by lia; exact Hv6|].
  split; [by rewrite Hib|]. split; [by rewrite Hpb|]. split; [apply fn_lookup_insert|].
  split; [|by eapply respects_trans; [exact Hre3|]; eapply respects_trans; [exact Hre4|]; eapply respects_trans; [exact Hre5|]].
  intros t Ht. by rewrite fn_lookup_insert_ne, Ho5, Ho4, Ho3.
Qed.

(** A dequeue without interference takes the oldest element, and fails only on an empty
    sub-queue. *)
Lemma dequeue_alone N p (m : Pool A) pc cs g :
  inv start N (mkSys p m pc cs) g -> Z.of_nat (N + 15) < 2 ^ 60 -> (forall t, ~ running (cs t)) ->
  exists p' m' cs' g', dequeue p m = (p', m', CRet (head (items (abs g)))) /\
    inv start (N + 15) (mkSys p' m' pc cs') g' /\ items (abs g') = tail (items (abs g)) /\
    (forall t, ~ running (cs' t)) /\ respects g m g' m'.
Proof.
  intros Hv HN Hq. pose proof (quiescent_test _ _ _ _ _ _ Hv ltac:(lia) Hq) as Htest.
  destruct (alone_test _ _ _ _ _ _ Hv HN Hq) as (cs2 & g2 & Hv2 & Hi & Hc2 & Hq2 & Hre2).
  unfold dequeue. cbn [run_dequeue dequeue_step]. rewrite Htest.
  destruct (items (abs g)) as [|v rest] eqn:Hitems.
  - destruct (dequeue_good start (N + 3) p m pc cs2 g2 0%nat Hv2 ltac:(lia) Hstart p m (CRet None)) as (g3 & Hv3 & Ha3 & Hre3);
      [by rewrite Hc2|rewrite Hc2; simpl; by rewrite Htest|].
    rewrite Hc2 in Ha3. destruct Ha3 as (a & (Hia & _) & [Hib _]%atomic_steps_nil).
    eexists p, m, _, g3. split; [done|]. split; [eapply inv_mono; [|exact Hv3]; lia|].
    split; [rewrite Hib, Hia; exact Hi|]. split; [|by eapply respects_trans].
    intros t. destruct (decide (t = 0%nat)) as [->|]; [rewrite fn_lookup_insert; by intros []|].
    rewrite fn_lookup_insert_ne by done. by apply Hq2.
  - destruct (alone_take _ _ _ _ _ _ v rest Hv2 ltac:(lia) Hc2 Htest Hi) as (cs6 & g6 & Hv6 & Hi6 & Hp6 & Hc6 & Ho6 & Hre6).
    destruct (run_taken 8 _ _ _ _ _ _ 0 v Hv6) as (p' & m' & cs' & g' & Hrun & Hv' & Hit & Hret & Hoth & Hre');
      [lia|done|rewrite Hc6; simpl; lia|].
    rewrite Hc6 in Hrun. exists p', m', cs', g'. split; [|split; [by replace (N + 15)%nat with (N + 3 + 4 + 8)%nat by lia|split; [|split]]].
    + cbn [run_dequeue dequeue_step]. change (tailIndex (set_dequeueOptimisticCount _ p)) with (tailIndex p).
      rewrite Htest. exact Hrun.
    + by rewrite Hit, Hi6.
    + intros t. destruct (decide (t = 0%nat)) as [->|Ht]; [rewrite Hret; by intros []|].
      rewrite Hoth, Ho6 by done. by apply Hq2.
    + eapply respects_trans; [exact Hre2|]. by eapply respects_trans.
Qed.

(** The element a running enqueue carries, while no allocation has failed. *)
Definition carries (pc : ppc A) : option A :=
  match pc with
  | PEnqueue v | PHead v _ | PInsert v _ | PGrow v _ | PKey v _ _ _ _ | PTail v _ _ _ _
  | PBlock v _ _ | PReset v _ _ _ | PValue v _ _ _ | PConstruct v _ | PPublish v _ => Some v
  | _ => None
  end.

Lemma requisition_true (m m' : Pool A) : requisition_block alone m <> (None, m').
Proof. by intros [_ ?]%requisition_none. Qed.

Lemma head_test N p (m : Pool A) pc cs g :
  inv start N (mkSys p m pc cs) g -> Z.of_nat N < 2 ^ 60 ->
  circular_less_than (headIndex p) (u64 (idx start (length (elems g)) + BLOCK_SIZE)) = true.
Proof.
  intros Hv HN. pose proof (v_head _ _ _ _ Hv) as Hh. simpl in Hh. rewrite Hh.
  pose proof (v_bound _ _ _ _ Hv). pose proof (tickets_head _ _ _ _ (v_tickets _ _ _ _ Hv)).
  unfold idx, BLOCK_SIZE. rewrite u64_add_l, circular_less_than_spec by lia. apply Z.ltb_lt. lia.
Qed.

(** While malloc succeeds an enqueue does not fail. *)
Lemma enqueue_carries N p m pc cs g v p' m' pc' :
  inv start N (mkSys p m pc cs) g -> Z.of_nat N < 2 ^ 60 -> blockIndex p <> None ->
  carries pc = Some v -> enqueue_step raw_value alone p m pc = (p', m', pc') -> pc' <> PFault ->
  blockIndex p' <> None /\
  ((pc = PPublish v (idx start (length (elems g))) /\ pc' = PRet true) \/
   carries pc' = Some v /\ enqueue_event pc pc' = []).
Proof.
  intros Hv HN Hix Hc Hs Hnf. pose proof (pr_locals _ _ _ _ _ (v_producer _ _ _ _ Hv)) as Hl. simpl in Hl.
  destruct pc; cbn [carries] in Hc; try done; injection Hc as ->; cbn [enqueue_step] in Hs.
  - injection Hs as <- <- <-. split; [done|right]. by destruct (_ =? 0).
  - destruct Hl as [-> _]. rewrite (head_test _ _ _ _ _ _ Hv HN) in Hs.
    injection Hs as <- <- <-. split; [done|by right].
  - unfold insert_test in Hs. destruct (blockIndex p) as [h|] eqn:Hb; [|done].
    injection Hs as <- <- <-. rewrite Hb. split; [done|right].
    destruct (next_entry p) as [[[h' nt] e]|]; [|done]. destruct (entries p !! e); [|done]. by destruct (_ || _).
  - injection Hs as <- <- <-. split; [done|by right].
  - injection Hs as <- <- <-. split; [done|by right].
  - injection Hs as <- <- <-. split; [done|right].
    by destruct (next_entry (new_block_index raw_value p)) as [[[h' nt] e]|].
  - destruct (requisition_block alone m) as [[b|] m1] eqn:Hreq; [|by apply requisition_true in Hreq].
    injection Hs as <- <- <-. split; [done|by right].
  - destruct (deref m b); injection Hs as <- <- <-; [split; [done|by right]|done].
  - injection Hs as <- <- <-. split; [done|by right].
  - destruct (tailBlock p) as [b|]; [|by injection Hs as <- <- <-].
    destruct (deref m b); injection Hs as <- <- <-; [split; [done|by right]|done].
  - injection Hs as <- <- <-. destruct Hl as [-> _]. split; [done|by left].
Qed.

Lemma enqueue_run f N p m pc cs g v :
  inv start N (mkSys p m pc cs) g -> Z.of_nat (N + f) < 2 ^ 60 -> blockIndex p <> None ->
  carries pc = Some v -> (prank pc <= f)%nat ->
  exists p' m' g', run_enqueue f raw_value alone p m pc = (p', m', PRet true) /\
    inv start (N + f) (mkSys p' m' (PRet true) cs) g' /\ items (abs g') = items (abs g) ++ [v] /\
    blockIndex p' <> None /\ respects g m g' m'.
Proof.
  revert N p m pc g. induction f as [|f IH]; intros N p m pc g Hv HN Hix Hc Hrk.
  { destruct pc; simplify_eq/=; lia. }
  assert (enqueuing pc) as He by (by destruct pc).
  destruct (enqueue_step raw_value alone p m pc) as [[p1 m1] pc1] eqn:Hs.
  destruct (enqueue_good start raw_value N p m pc cs g Hv ltac:(lia) Hstart _ _ _ _ He Hs) as (g1 & Hv1 & Ha & Hre). simpl in Hre.
  destruct (inv_no_fault _ _ _ _ Hv1) as [Hnf _]. destruct (inv_no_fault _ _ _ _ Hv) as [Hnf0 _]. simpl in Hnf, Hnf0.
  pose proof (enqueue_rank _ _ _ _ _ _ _ He Hnf0 Hs) as Hlt.
  cbn [run_enqueue]. rewrite Hs.
  destruct (enqueue_carries _ _ _ _ _ _ _ _ _ _ Hv ltac:(lia) Hix Hc Hs Hnf) as [Hix1 [[-> ->]|[Hc1 Hev]]].
  - exists p1, m1, g1. split; [clear; by induction f|].
    split; [eapply inv_mono; [|exact Hv1]; lia|].
    destruct Ha as (a1 & [Hi1 _] & a2 & [Hi2 _] & [Hi3 _]%atomic_steps_nil).
    split; [|done]. by rewrite Hi3, Hi2, Hi1.
  - rewrite Hev in Ha. apply atomic_steps_nil in Ha as [Hi _].
    destruct (IH (S N) p1 m1 pc1 g1 Hv1) as (p' & m' & g' & Hrun & Hv' & Hit & Hix' & Hre'); [lia|done|done|lia|].
    exists p', m', g'. split; [done|]. split; [by replace (N + S f)%nat with (S N + f)%nat by lia|].
    split; [by rewrite Hit, Hi|]. split; [done|by eapply respects_trans].
Qed.

(** An enqueue without interference appends its element. *)
Lemma enqueue_alone N p (m : Pool A) pc cs g v :
  inv start N (mkSys p m pc cs) g -> Z.of_nat (N + 12) < 2 ^ 60 -> ~ enqueuing pc -> blockIndex p <> None ->
  exists p' m' g', enqueue raw_value alone v p m = (p', m', PRet true) /\
    inv start (N + 12) (mkSys p' m' (PRet true) cs) g' /\ items (abs g') = items (abs g) ++ [v] /\
    blockIndex p' <> None /\ respects g m g' m'.
Proof.
  intros Hv HN Hpc Hix.
  destruct (enq_call start N p m pc cs g Hv v Hpc)
    as (g0 & Hv0 & Hi0%(atomic_steps_silent _ (ECallEnqueue v) _ eq_refl) & Hre0).
  destruct (enqueue_run 11 _ _ _ _ _ _ v Hv0) as (p' & m' & g' & Hrun & Hv' & Hit & Hix' & Hre'); [lia|done|done|simpl; lia|].
  exists p', m', g'. split; [done|]. split; [by replace (N + 12)%nat with (S N + 11)%nat by lia|].
  split; [by rewrite Hit, Hi0|]. split; [done|by eapply respects_trans].
Qed.

End Alone.

End Sub.

(** ** Sequences of whole calls *)

Section Calls.
Context {A : Type}.

Inductive call := Enqueue (v : A) | Dequeue.

(** The calls one after the other, with what they return: an enqueue is assumed to find
    memory. *)
Fixpoint run_calls (raw_value : option nat) (cs : list call) (p : ImplicitProducer) (m : Pool A) :
    list (option A) :=
  match cs with
  | [] => []
  | Enqueue v :: cs =>
      let '(p, m, _) := enqueue raw_value alone v p m in None :: run_calls raw_value cs p m
  | Dequeue :: cs =>
      let '(p, m, c) := dequeue p m in
      (match c with CRet r => r | _ => None end) :: run_calls raw_value cs p m
  end.

(** The same calls on a list. *)
Fixpoint list_calls (cs : list call) (l : list A) : list (option A) :=
  match cs with
  | [] => []
  | Enqueue v :: cs => None :: list_calls cs (l ++ [v])
  | Dequeue :: cs => head l :: list_calls cs (tail l)
  end.

Lemma run_dequeue_index f p (m : Pool A) c p' m' c' :
  run_dequeue f p m c = (p', m', c') -> blockIndex p' = blockIndex p.
Proof.
  revert p m c. induction f as [|f IH]; intros p m c; cbn [run_dequeue]; [by intros [= <- <- <-]|].
  destruct (dequeue_step p m c) as [[p1 m1] c1] eqn:Hs. intros Hr%IH. rewrite Hr.
  destruct c; simpl in Hs; repeat case_match; by simplify_eq/=.
Qed.

Lemma run_calls_inv raw_value start cs N p m pc ts g :
  start mod 32 = 0 -> inv start N (mkSys p m pc ts) g -> ~ enqueuing pc -> (forall t, ~ running (ts t)) ->
  blockIndex p <> None -> Z.of_nat (N + 15 * length cs) < 2 ^ 60 ->
  run_calls raw_value cs p m = list_calls cs (items (abs g)).
Proof.
  intros Hstart. revert N p m pc ts g.
  induction cs as [|[v|] cs IH]; intros N p m pc ts g Hv Hpc Hts Hix HN; cbn [run_calls list_calls]; [done|..].
  - cbn [length] in HN.
    destruct (enqueue_alone raw_value start Hstart N p m pc ts g v Hv ltac:(lia) Hpc Hix)
      as (p' & m' & g' & Hrun & Hv' & Hit & Hix' & _).
    rewrite Hrun, <- Hit. f_equal. eapply IH; [exact Hv'|by intros []|done|done|lia].
  - cbn [length] in HN.
    destruct (dequeue_alone start Hstart N p m pc ts g Hv ltac:(lia) Hts) as (p' & m' & ts' & g' & Hrun & Hv' & Hit & Hts' & _).
    pose proof (run_dequeue_index _ _ _ _ _ _ _ Hrun) as Hb.
    rewrite Hrun, <- Hit. f_equal. eapply IH; [exact Hv'|done|done|congruence|lia].
Qed.

(** Whole calls on a fresh sub-queue behave like the operations of a list: an enqueue
    appends its element, a dequeue returns the oldest one and fails only when there is none,
    across block boundaries, block reuse, growth of the block index and wrap-around of the
    indices. *)
Theorem subqueue_sequential raw_value mem' count start cs :
  0 <= count < 2 ^ 64 -> 0 <= start < 2 ^ 64 -> start mod 32 = 0 ->
  Z.of_nat (15 * length cs) < 2 ^ 60 ->
  run_calls raw_value cs (ImplicitProducer_init raw_value true start) (populate_initial_block_list mem' count)
  = list_calls cs [].
Proof.
  intros Hc Hr Hs Hn. destruct (pool_populate (A := A) mem' count Hc) as (own & Hpo & Hown).
  pose proof (init_inv raw_value true start _ own Hr Hpo ltac:(intros b o Hb; by rewrite (Hown b o Hb))) as Hv.
  refine (run_calls_inv _ _ _ _ _ _ _ _ _ Hs Hv _ _ _ _); [by intros []|by intros t []|done|lia].
Qed.

End Calls.

Lemma subqueue_sequential_witness :
  let cs := replicate 70 (Enqueue 7) ++ replicate 40 Dequeue ++ [Enqueue 8] ++ replicate 32 Dequeue in
  run_calls None cs (ImplicitProducer_init None true (2 ^ 64 - 64)) (populate_initial_block_list true 2)
  = list_calls cs [].
Proof.
  apply (subqueue_sequential (A := Z) None true 2 (2 ^ 64 - 64)); [lia|lia|reflexivity|].
  vm_compute. reflexivity.
Defined.

(** ** Interleaved executions *)

#[global] Instance running_dec {A} (c : cpc A) : Decision (running c).
Proof. unfold running. destruct c; apply _. Defined.
#[global] Instance enqueuing_dec {A} (pc : ppc A) : Decision (enqueuing pc).
Proof. unfold enqueuing. destruct pc; apply _. Defined.

Section Exec.
Context {A : Type} (raw_value : option nat).

(** A schedule, to evaluate executions. *)
Inductive action := ACallEnqueue (v : A) | AEnqueue (a : answers) | ACallDequeue (tid : nat) | ADequeue (tid : nat).

Definition act (a : action) (s : sys A) : option (list (event A) * sys A) :=
  let '(mkSys p m pc cs) := s in
  match a with
  | ACallEnqueue v => if decide (enqueuing pc) then None else Some ([ECallEnqueue v], mkSys p m (PEnqueue v) cs)
  | AEnqueue a =>
      if decide (enqueuing pc) then
        let '(p', m', pc') := enqueue_step raw_value a p m pc in
        Some (enqueue_event pc pc', mkSys p' m' pc' cs)
      else None
  | ACallDequeue tid =>
      if decide (running (cs tid)) then None else Some ([ECallDequeue tid], mkSys p m pc (<[tid := CDequeue]> cs))
  | ADequeue tid =>
      if decide (running (cs tid)) then
        let '(p', m', c') := dequeue_step p m (cs tid) in
        Some (dequeue_event tid (cs tid) c', mkSys p' m' pc (<[tid := c']> cs))
      else None
  end.

Fixpoint exec (l : list action) (tr : list (event A)) (s : sys A) : option (list (event A) * sys A) :=
  match l with
  | [] => Some (tr, s)
  | a :: l => match act a s with None => None | Some (ev, s) => exec l (tr ++ ev) s end
  end.

Lemma act_step a s ev s' : act a s = Some (ev, s') -> step raw_value s ev s'.
Proof.
  destruct s as [p m pc cs], a as [v|a|tid|tid]; simpl; case_decide; try done.
  - intros [= <- <-]. by constructor.
  - destruct (enqueue_step raw_value a p m pc) as [[p' m'] pc'] eqn:Hs. intros [= <- <-]. by econstructor.
  - intros [= <- <-]. by constructor.
  - destruct (dequeue_step p m (cs tid)) as [[p' m'] c'] eqn:Hs. intros [= <- <-]. by constructor.
Qed.

Lemma exec_steps n s0 l tr s tr' s' :
  steps raw_value n s0 tr s -> exec l tr s = Some (tr', s') ->
  steps raw_value (n + length l) s0 tr' s'.
Proof.
  revert n tr s. induction l as [|a l IH]; intros n tr s Hst; simpl.
  - intros [= <- <-]. by rewrite Nat.add_0_r.
  - destruct (act a s) as [[ev s1]|] eqn:Ha; [|done]. intros He.
    rewrite <- Nat.add_succ_comm. eapply IH; [|exact He]. econstructor; [done|]. by eapply act_step.
Qed.

(** C16: No interleaving makes a thread dereference a null or freed block, follow an index entry
    of another block, or read a slot that holds no element: the states [PFault] and [CFault]
    are not reachable. *)
Theorem subqueue_memory_safe mem mem' count start n tr (s : sys A) :
  0 <= count < 2 ^ 64 -> 0 <= start < 2 ^ 64 -> start mod 32 = 0 -> Z.of_nat n < 2 ^ 60 ->
  steps raw_value n (fresh raw_value mem mem' count start) tr s ->
  enqueuer s <> PFault /\ forall tid, consumers s tid <> CFault.
Proof.
  intros Hc Hr Hs Hn Hst. destruct (reach_inv raw_value mem mem' count start Hc Hr Hs n tr s Hst Hn) as (g & Hv & _).
  by eapply inv_no_fault.
Qed.


End Exec.

(** Two threads compete for one element: one takes it, the other gives up. *)
Definition race : list (action (A := Z)) :=
  ACallEnqueue 5 :: replicate 10 (AEnqueue alone) ++ [ACallDequeue 1; ACallDequeue 2] ++
  mjoin (replicate 5 [ADequeue 1; ADequeue 2]) ++ [ADequeue 2] ++ replicate 7 (ADequeue 1).

Definition race_events : list (event Z) :=
  [ECallEnqueue 5; EPush 5; EEnqueue true; ECallDequeue 1; ECallDequeue 2; EDequeue 2 None;
   ETake 1; EDequeue 1 (Some 5)].

Lemma race_steps : exists s, steps None 31 (fresh None true true 6 (2 ^ 64 - 32)) race_events s.
Proof.
  destruct (exec None race [] (fresh None true true 6 (2 ^ 64 - 32))) as [[tr s]|] eqn:He.
  - exists s. assert (tr = race_events) as <-.
    { apply (f_equal (fmap fst)) in He. vm_compute in He. by injection He. }
    exact (exec_steps None 0 _ race [] _ tr s (steps_refl _ _) He).
  - apply (f_equal (fmap fst)) in He. vm_compute in He. done.
Qed.

Lemma subqueue_memory_safe_witness :
  exists s, steps None 31 (fresh None true true 6 (2 ^ 64 - 32)) race_events s /\
    enqueuer s <> PFault /\ forall tid, consumers s tid <> CFault.
Proof.
  destruct race_steps as [s Hs]. exists s. split; [exact Hs|].
  refine (subqueue_memory_safe None true true 6 (2 ^ 64 - 32) 31 race_events s _ _ _ _ Hs);
    [lia|lia|reflexivity|reflexivity].
Defined.

