(* ===== verification/CqFifo.v ===== *)
(** * What interleaved calls of a sub-queue return

    The specification is a deterministic machine on the events of [CqProducer.sys]: one
    enqueuing thread, any number of dequeuing threads.  Elements are published in the order of
    the enqueues and taken in the order of publication; an enqueue answers true exactly when
    its element was published, a dequeue returns exactly the element it took.

    A dequeue may find nothing while elements are queued: it counts the tickets of its rivals
    before it knows whether they will be honoured ([dequeueOptimisticCount] runs ahead until
    [dequeueOvercommit] corrects it).  The specification bounds this: [waiting] holds, for
    every dequeue under way that has not taken an element yet, how many elements were queued
    at its call beyond the rivals that were after them then (dequeues under way without an
    element) and those that called since.  As long as this number is positive the dequeue
    cannot come back with nothing. *)
From stdpp Require Import gmap functions.
From S2P Require Import Prelude CqArith CqProducer CqInv CqIndex CqLin CqSub.

(** ** The specification *)

Section Spec.
Context {A : Type} `{EqDecision A}.

(** The enqueuing thread: outside a call; with its argument; with its element published. *)
Inductive offer := Quiet | Offered (v : A) | Published.

Record fifo := mkFifo {
  queue : list A;
  offering : offer;
  waiting : gmap nat Z;
  holding : gmap nat A }.

Definition fifo_empty : fifo := mkFifo [] Quiet ∅ ∅.

Definition fifo_step (e : event A) (f : fifo) : option fifo :=
  let '(mkFifo q o w h) := f in
  match e with
  | ECallEnqueue v => match o with Quiet => Some (mkFifo q (Offered v) w h) | _ => None end
  | EPush v =>
      match o with
      | Offered v' => if decide (v = v') then Some (mkFifo (q ++ [v]) Published w h) else None
      | _ => None
      end
  | EEnqueue ok =>
      match o, ok with
      | Published, true | Offered _, false => Some (mkFifo q Quiet w h)
      | _, _ => None
      end
  | ECallDequeue t =>
      match w !! t, h !! t with
      | None, None =>
          Some (mkFifo q o (<[t := zlen q - Z.of_nat (size w)]> (Z.pred <$> w)) h)
      | _, _ => None
      end
  | ETake t =>
      match w !! t, q with
      | Some _, v :: q => Some (mkFifo q o (delete t w) (<[t := v]> h))
      | _, _ => None
      end
  | EDequeue t (Some v) =>
      match h !! t with
      | Some v' => if decide (v = v') then Some (mkFifo q o w (delete t h)) else None
      | None => None
      end
  | EDequeue t None =>
      match w !! t with
      | Some surplus => if surplus <=? 0 then Some (mkFifo q o (delete t w) h) else None
      | None => None
      end
  end.

Fixpoint fifo_run (f : fifo) (tr : list (event A)) : option fifo :=
  match tr with
  | [] => Some f
  | e :: tr => match fifo_step e f with None => None | Some f => fifo_run f tr end
  end.

Lemma fifo_run_app f tr tr' :
  fifo_run f (tr ++ tr') = match fifo_run f tr with None => None | Some f => fifo_run f tr' end.
Proof. revert f. induction tr as [|e tr IH]; intros f; simpl; [done|]. destruct (fifo_step e f); [apply IH|done]. Qed.

End Spec.
Arguments fifo : clear implicits.
Arguments offer : clear implicits.

(** ** Counters *)

Section Refine.
Context {A : Type} `{EqDecision A} (start : Z) (raw_value : option nat).

(** The counters of the sub-queue relative to its first index. *)
Definition pushed (p : ImplicitProducer) : Z := u64 (tailIndex p - start).
Definition taken (p : ImplicitProducer) : Z := u64 (headIndex p - start).
Definition claimed (p : ImplicitProducer) : Z := u64 (dequeueOptimisticCount p - start).
Definition lost (p : ImplicitProducer) : Z := dequeueOvercommit p.

Lemma from_start k : Z.of_nat k < 2 ^ 64 -> u64 (idx start k - start) = Z.of_nat k.
Proof.
  intros Hk. unfold idx. rewrite u64_sub_l. replace (start + Z.of_nat k - start) with (Z.of_nat k) by lia.
  apply u64_small. lia.
Qed.

Lemma counters N s (g : @ghost A) :
  inv start N s g -> Z.of_nat N < 2 ^ 60 ->
  pushed (producer s) = zlen (elems g) /\ taken (producer s) = zlen (heads g) /\
  claimed (producer s) = zlen (claims g) /\ lost (producer s) = Z.of_nat (count is_lost (claims g)) /\
  zlen (items (abs g)) = zlen (elems g) - zlen (heads g).
Proof.
  intros Hv HN. pose proof (v_bound _ _ _ _ Hv) as Hb. pose proof (count_le is_lost (claims g)).
  pose proof (tickets_head _ _ _ _ (v_tickets _ _ _ _ Hv)) as Hh.
  unfold pushed, taken, claimed, lost, zlen.
  rewrite (v_tail _ _ _ _ Hv), (v_head _ _ _ _ Hv), (v_optimistic _ _ _ _ Hv), (v_overcommit _ _ _ _ Hv).
  rewrite !from_start, (u64_small (Z.of_nat (count is_lost (claims g)))) by lia. do 4 (split; [done|]). simpl. rewrite length_drop. lia.
Qed.

(** ** Tickets under way *)

(** Program points between the call of a dequeue and its taking of an element; those that hold
    a ticket. *)
Definition waits (c : cpc A) : bool :=
  match c with
  | CDequeue | COvercommit _ | COptimistic _ _ | CClaim _ | CTest _ _ | CTake | CGiveUp => true
  | _ => false
  end.
Definition claiming (c : cpc A) : bool :=
  match c with CTest _ _ | CTake | CGiveUp => true | _ => false end.

Lemma count_under_way (l : list claim) :
  length l = (count is_taken l + count is_lost l + length (omap claim_tid l))%nat.
Proof. induction l as [|c l IH]; [done|]. simpl. unfold omap in *. rewrite IH. destruct c; simpl; lia. Qed.

Lemma claim_tids_unique (l : list claim) :
  (forall i j c d tid, l !! i = Some c -> l !! j = Some d -> claim_tid c = Some tid ->
     claim_tid d = Some tid -> i = j) -> NoDup (omap claim_tid l).
Proof.
  induction l as [|c l IH]; intros Hu; [apply NoDup_nil_2|].
  assert (NoDup (omap claim_tid l)) as Hl
    by (apply IH; intros i j d e tid Hi Hj Hd He; injection (Hu (S i) (S j) d e tid Hi Hj Hd He); done).
  simpl. destruct (claim_tid c) as [tid|] eqn:Hc; [|done]. apply NoDup_cons_2; [|done].
  intros (d & Hd & Htd)%list_elem_of_omap. apply list_elem_of_lookup in Hd as [j Hj].
  by specialize (Hu 0%nat (S j) c d tid eq_refl Hj Hc Htd).
Qed.

(** No more tickets are under way than threads that hold one. *)
Lemma tickets_under_way N s g (X : gset nat) :
  inv start N s g -> (forall t, claiming (consumers s t) = true -> t ∈ X) ->
  (length (claims g) <= length (heads g) + count is_lost (claims g) + size X)%nat.
Proof.
  intros Hv HX. rewrite (count_under_way (claims g)), (tk_taken _ _ _ _ (v_tickets _ _ _ _ Hv)).
  assert (length (omap claim_tid (claims g)) <= size X)%nat; [|lia].
  pose proof (tk_claim _ _ _ _ (v_tickets _ _ _ _ Hv)) as Htk.
  rewrite <- (size_list_to_set (C := gset nat)); [apply subseteq_size|].
  - intros t. rewrite elem_of_list_to_set. intros (c & Hc & Ht)%list_elem_of_omap.
    apply list_elem_of_lookup in Hc as [m Hm]. apply HX.
    apply (Htk m c t Ht) in Hm. pose proof (v_conc _ _ _ _ Hv t) as Hco.
    destruct (gcs g t); simplify_eq/=; by rewrite Hco.
  - apply claim_tids_unique. intros i j c d t Hi Hj Hc Hd.
    apply (Htk i c t Hc) in Hi. apply (Htk j d t Hd) in Hj. congruence.
Qed.

(** ** The simulation *)

(** What a waiting thread knows of [B], the number of elements ever published plus the number of
    tickets ever given up at the time of its call. *)
Definition local (c : cpc A) (p : ImplicitProducer) (B : Z) : Prop :=
  match c with
  | CDequeue => B <= pushed p + lost p
  | COvercommit tail => u64 (tail - start) <= pushed p /\ B <= u64 (tail - start) + lost p
  | COptimistic tail overcommit =>
      u64 (tail - start) <= pushed p /\ overcommit <= lost p /\ B <= u64 (tail - start) + overcommit
  | CClaim overcommit | CTest overcommit _ => overcommit <= lost p /\ B <= pushed p + overcommit
  | CGiveUp => B + 1 <= claimed p
  | _ => True
  end.

Lemma local_mono c p p' B :
  pushed p <= pushed p' -> lost p <= lost p' -> claimed p <= claimed p' -> local c p B -> local c p' B.
Proof. destruct c; simpl; lia. Qed.

(** What the enqueuing thread has announced. *)
Definition offers (pc : ppc A) (o : offer A) : Prop :=
  match pc with
  | PIdle | PRet _ => o = Quiet
  | PEnqueue v | PHead v _ | PInsert v _ | PKey v _ _ _ _ | PTail v _ _ _ _ | PGrow v _ | PBlock v _ _
  | PReset v _ _ _ | PValue v _ _ _ | PConstruct v _ | PPublish v _ => o = Offered v
  | PRewind _ | PUnset _ => exists v, o = Offered v
  | PFault => True
  end.

Record sim (s : sys A) (g : ghost) (f : fifo A) : Prop := {
  sim_queue : queue f = items (abs g);
  sim_holding t : holding f !! t = pending (abs g) t;
  sim_offer : offers (enqueuer s) (offering f);
  sim_waiting t : is_Some (waiting f !! t) <-> waits (consumers s t) = true;
  sim_surplus t z :
    waiting f !! t = Some z ->
    exists B, z + taken (producer s) + lost (producer s) + Z.of_nat (size (waiting f)) - 1 <= B /\
      local (consumers s t) (producer s) B }.

(** A thread without an element is not holding one. *)
Lemma waits_pending N s g t : inv start N s g -> waits (consumers s t) = true -> pending (abs g) t = None.
Proof.
  intros Hv Hw. simpl. pose proof (v_conc _ _ _ _ Hv t) as Hc.
  destruct (taken_index (gcs g t)) as [k|] eqn:Hk; [|done]. exfalso.
  destruct (gcs g t); simplify_eq/=;
    repeat match goal with
           | H : exists _, _ |- _ => destruct H
           | H : _ /\ _ |- _ => destruct H
           end; simplify_eq; match goal with H : consumers s t = _ |- _ => by rewrite H in Hw end.
Qed.

(** Steps an observer does not see. *)
Lemma sim_silent s g f s' g' :
  sim s g f -> atomic_steps (abs g) [] (abs g') ->
  (offers (enqueuer s) (offering f) -> offers (enqueuer s') (offering f)) ->
  (forall t, waits (consumers s' t) = waits (consumers s t)) ->
  taken (producer s') = taken (producer s) -> lost (producer s') = lost (producer s) ->
  (forall t B, waits (consumers s t) = true -> local (consumers s t) (producer s) B ->
     local (consumers s' t) (producer s') B) ->
  sim s' g' f.
Proof.
  intros [Hq Hh Ho Hw Hs] [Hi Hp]%atomic_steps_nil Hoff Hwt Ht Hl Hloc. split.
  - by rewrite Hq.
  - intros t. by rewrite Hh, Hp.
  - auto.
  - intros t. by rewrite Hw, Hwt.
  - intros t z Hz. destruct (Hs t z Hz) as (B & HB & Hlc). exists B. rewrite Ht, Hl. split; [done|].
    apply Hloc; [|done]. apply Hw. eauto.
Qed.

(** A dequeue that comes back with nothing had no more elements than rivals. *)
Lemma nothing_left N s g f t z B :
  inv start N s g -> Z.of_nat N < 2 ^ 60 -> sim s g f -> waiting f !! t = Some z ->
  z + taken (producer s) + lost (producer s) + Z.of_nat (size (waiting f)) - 1 <= B ->
  (claiming (consumers s t) = false /\ B <= claimed (producer s) \/ B + 1 <= claimed (producer s)) -> z <= 0.
Proof.
  intros Hv HN Hsim Hz HB Hcl. destruct (counters _ _ _ Hv HN) as (_ & Ht & Hc & Hl & _).
  assert (forall t, claiming (consumers s t) = true -> t ∈ dom (waiting f)) as Hdom.
  { intros t' Ht'. apply elem_of_dom, (sim_waiting _ _ _ Hsim). by destruct (consumers s t'). }
  rewrite Ht, Hl in HB. unfold zlen in *. destruct Hcl as [[Hnc Hle]|Hle].
  - pose proof (tickets_under_way _ _ _ (dom (waiting f) ∖ {[t]}) Hv) as Hu.
    rewrite size_difference, size_singleton, size_dom in Hu
      by (apply singleton_subseteq_l, elem_of_dom; eauto).
    assert (0 < size (waiting f))%nat.
    { destruct (size (waiting f)) eqn:Hsz; [|lia]. apply map_size_empty_inv in Hsz. by rewrite Hsz, lookup_empty in Hz. }
    assert (length (claims g) <= length (heads g) + count is_lost (claims g) + (size (waiting f) - 1))%nat; [|lia].
    apply Hu. intros t' Ht'. apply elem_of_difference. split; [by apply Hdom|].
    intros ->%elem_of_singleton. congruence.
  - pose proof (tickets_under_way _ _ _ (dom (waiting f)) Hv Hdom) as Hu. rewrite size_dom in Hu. lia.
Qed.

(** The producer's steps: silent, or a failed call, or the publication. *)
Lemma enqueue_shape a p m pc p' m' pc' :
  enqueuing pc -> pc' <> PFault -> enqueue_step raw_value a p m pc = (p', m', pc') ->
  headIndex p' = headIndex p /\ dequeueOptimisticCount p' = dequeueOptimisticCount p /\
  dequeueOvercommit p' = dequeueOvercommit p /\
  ((enqueue_event pc pc' = [] /\ tailIndex p' = tailIndex p /\ forall o, offers pc o -> offers pc' o) \/
   (enqueue_event pc pc' = [EEnqueue false] /\ tailIndex p' = tailIndex p /\ pc' = PRet false /\
    forall o, offers pc o -> exists v, o = Offered v) \/
   (exists v t, pc = PPublish v t /\ pc' = PRet true)).
Proof.
  intros Hr Hf Hs. destruct pc; try done; cbn [enqueue_step] in Hs;
    unfold insert_test, rewind_block_index_tail in Hs; repeat case_match; simplify_eq/=; naive_solver.
Qed.

(** The steps of a dequeue that has its element. *)
Lemma dequeue_taken_shape tid p m c p' m' c' :
  running c -> waits c = false -> c' <> CFault -> dequeue_step p m c = (p', m', c') ->
  waits c' = false /\ tailIndex p' = tailIndex p /\ headIndex p' = headIndex p /\
  dequeueOptimisticCount p' = dequeueOptimisticCount p /\ dequeueOvercommit p' = dequeueOvercommit p /\
  (dequeue_event tid c c' = [] \/ exists v, dequeue_event tid c c' = [EDequeue tid (Some v)]).
Proof.
  intros Hr Hw Hf Hs. destruct c; try done; cbn [dequeue_step] in Hs; repeat case_match; simplify_eq/=; naive_solver.
Qed.

Lemma sim_enqueue N s g f a p' m' pc' g' :
  inv start N s g -> Z.of_nat N + 1 < 2 ^ 60 -> sim s g f -> enqueuing (enqueuer s) ->
  enqueue_step raw_value a (producer s) (pool s) (enqueuer s) = (p', m', pc') ->
  inv start (S N) (mkSys p' m' pc' (consumers s)) g' ->
  atomic_steps (abs g) (enqueue_event (enqueuer s) pc') (abs g') ->
  exists f', fifo_run f (enqueue_event (enqueuer s) pc') = Some f' /\ sim (mkSys p' m' pc' (consumers s)) g' f'.
Proof.
  intros Hv HN Hsim Hen Hs Hv' Ha. destruct (inv_no_fault _ _ _ _ Hv') as [Hnf _].
  destruct (counters _ _ _ Hv ltac:(lia)) as (Hcp & Hct & _ & _ & Hci).
  destruct (counters _ _ _ Hv' ltac:(lia)) as (Hcp' & Hct' & _ & _ & Hci').
  pose proof (sim_offer _ _ _ Hsim) as Hoff. simpl in *.
  destruct (enqueue_shape _ _ _ _ _ _ _ Hen Hnf Hs)
    as (Hh & Ho & Hl & [(Hev & Ht & Hk)|[(Hev & Ht & -> & Hk)|(v & t & Hpc & ->)]]).
  - rewrite Hev in *. exists f. split; [done|].
    apply (sim_silent _ _ _ _ _ Hsim Ha); simpl; unfold taken, lost; rewrite ?Hh, ?Hl; auto.
    intros t B _. apply local_mono; unfold pushed, lost, claimed; rewrite ?Hh, ?Ho, ?Hl, ?Ht; lia.
  - rewrite Hev in *. destruct (Hk _ Hoff) as [v Hv0]. destruct f as [q o w h]. simpl in *. subst o.
    eexists. split; [done|]. destruct Ha as (a1 & [Hi1 Hp1] & [Hi2 Hp2]).
    destruct Hsim as [Hq Hho _ Hw Hsu]. split; simpl in *; [congruence| |done|done|].
    + intros t. exact (eq_trans (Hho t) (eq_sym (eq_trans (Hp2 t id) (Hp1 t id)))).
    + intros t z Hz. destruct (Hsu t z Hz) as (B & HB & Hlo). exists B. unfold taken, lost in *. rewrite Hh, Hl.
      split; [done|]. revert Hlo. apply local_mono; unfold pushed, lost, claimed; rewrite ?Hh, ?Ho, ?Hl, ?Ht; lia.
  - rewrite Hpc in *. simpl in *. destruct f as [q o w h]. simpl in *. subst o. rewrite decide_True by done.
    eexists. split; [done|]. destruct Ha as (a1 & [Hi1 Hp1] & a2 & [Hi2 Hp2] & [Hi3 Hp3]).
    destruct Hsim as [Hq Hho _ Hw Hsu]. split; simpl in *; [congruence| |done|done|].
    + intros t'. exact (eq_trans (Hho t') (eq_sym (eq_trans (Hp3 t' id) (eq_trans (Hp2 t' id) (Hp1 t' id))))).
    + assert (taken p' = taken (producer s) /\ lost p' = lost (producer s) /\ claimed p' = claimed (producer s))
        as (Htk & Hlo & Hcl) by (unfold taken, lost, claimed; by rewrite Hh, Ho, Hl).
      assert (pushed (producer s) <= pushed p').
      { assert (zlen (drop (length (heads g')) (elems g')) = zlen (drop (length (heads g)) (elems g)) + 1)
          by (rewrite Hi3, Hi2, Hi1, zlen_app, zlen_cons, zlen_nil; lia). lia. }
      intros t' z Hz. destruct (Hsu t' z Hz) as (B & HB & Hlc). exists B. rewrite Htk, Hlo. split; [done|].
      revert Hlc. apply local_mono; lia.
Qed.

(** A call of a dequeue: its surplus is what the queue holds beyond the rivals. *)
Lemma sim_call N s g f tid g' :
  inv start N s g -> Z.of_nat N < 2 ^ 60 -> sim s g f -> ~ running (consumers s tid) ->
  atomic_steps (abs g) [ECallDequeue tid] (abs g') ->
  exists f', fifo_run f [ECallDequeue tid] = Some f' /\
    sim (mkSys (producer s) (pool s) (enqueuer s) (<[tid := CDequeue]> (consumers s))) g' f'.
Proof.
  intros Hv HN Hsim Hr (a1 & [Hi1 Hp1] & [Hi2 Hp2]).
  destruct (counters _ _ _ Hv HN) as (Hcp & Hct & _ & _ & Hci).
  destruct Hsim as [Hq Hho Hoff Hw Hsu]. destruct f as [q o w h]. simpl in Hq, Hho, Hoff, Hw, Hsu.
  assert (w !! tid = None) as Hwn.
  { apply eq_None_not_Some. rewrite Hw. by destruct (consumers s tid). }
  assert (h !! tid = None) as Hhn.
  { rewrite Hho. pose proof (v_conc _ _ _ _ Hv tid) as Hc.
    by rewrite (conc_idle _ _ _ _ _ Hc (or_introl Hr)). }
  cbn [fifo_run fifo_step]. rewrite Hwn, Hhn. eexists. split; [done|].
  assert (size (<[tid := zlen q - Z.of_nat (size w)]> (Z.pred <$> w)) = S (size w)) as Hsz.
  { rewrite map_size_insert_None by (by rewrite lookup_fmap, Hwn). by rewrite map_size_fmap. }
  split; cbn [queue offering waiting holding producer enqueuer consumers]; [exact (eq_trans Hq (eq_sym (eq_trans Hi2 Hi1)))| |done|..].
  - intros t. rewrite Hho. exact (eq_sym (eq_trans (Hp2 t id) (Hp1 t id))).
  - intros t. by_thread tid t; [by rewrite lookup_insert_eq|].
    rewrite lookup_insert_ne, lookup_fmap, fmap_is_Some by done. apply Hw.
  - intros t z. rewrite Hsz. by_thread tid t.
    + rewrite lookup_insert_eq. intros [= <-]. exists (pushed (producer s) + lost (producer s)).
      simpl in *. split; [|lia]. rewrite Hq, Hci, Hct, Hcp. simpl. lia.
    + rewrite lookup_insert_ne, lookup_fmap by done. intros (z0 & Hz & ->)%fmap_Some.
      destruct (Hsu t z0 Hz) as (B & HB & Hlo). exists B. split; [lia|done].
Qed.

Section Dequeue.
Context (N : nat) (p : ImplicitProducer) (m : Pool A) (pc : ppc A) (cs : nat -> cpc A) (g : @ghost A) (f : fifo A).
Context (Hv : inv start N (mkSys p m pc cs) g) (HN : Z.of_nat N + 1 < 2 ^ 60) (Hsim : sim (mkSys p m pc cs) g f).

(** A dequeue goes on looking. *)
Lemma sim_looking tid p' m' c' g' :
  atomic_steps (abs g) [] (abs g') -> waits c' = waits (cs tid) ->
  taken p' = taken p -> lost p' = lost p -> pushed p' = pushed p -> claimed p <= claimed p' ->
  (forall B, local (cs tid) p B -> local c' p' B) ->
  sim (mkSys p' m' pc (<[tid := c']> cs)) g' f.
Proof.
  intros Ha Hwt Ht Hl Hp Hc Hloc. apply (sim_silent _ _ _ _ _ Hsim Ha); simpl; [done| |done|done|].
  - intros t. by by_thread tid t.
  - intros t B _. by_thread tid t; [apply Hloc|]. apply local_mono; lia.
Qed.

(** It comes back with nothing. *)
Lemma sim_nothing tid p' m' g' :
  atomic_steps (abs g) [EDequeue tid None] (abs g') -> waits (cs tid) = true ->
  taken p' = taken p -> pushed p' = pushed p -> claimed p' = claimed p -> lost p <= lost p' <= lost p + 1 ->
  (forall B, local (cs tid) p B -> claiming (cs tid) = false /\ B <= claimed p \/ B + 1 <= claimed p) ->
  exists f', fifo_run f [EDequeue tid None] = Some f' /\ sim (mkSys p' m' pc (<[tid := CRet None]> cs)) g' f'.
Proof.
  intros (a1 & (Hi1 & Hpe & Hpn & Hp1) & [Hi2 Hp2]) Hwt Ht Hp Hc Hl Hloc.
  destruct (proj2 (sim_waiting _ _ _ Hsim tid) Hwt) as [z Hz].
  destruct (sim_surplus _ _ _ Hsim tid z Hz) as (B & HB & Hlo).
  pose proof (nothing_left _ _ _ _ _ _ _ Hv ltac:(lia) Hsim Hz HB (Hloc _ Hlo)) as Hz0.
  destruct Hsim as [Hq Hho Hoff Hw Hsu]. destruct f as [q o w h]. simpl in Hq, Hho, Hoff, Hw, Hsu, Hz.
  cbn [fifo_run fifo_step]. rewrite Hz. destruct (Z.leb_spec z 0); [|lia]. eexists. split; [done|].
  assert (size (delete tid w) = pred (size w)) as Hsz by (by rewrite map_size_delete, Hz).
  assert (size w <> 0%nat) as Hnz by (intros Hs0%map_size_empty_inv; by rewrite Hs0, lookup_empty in Hz).
  split; cbn [queue offering waiting holding producer enqueuer consumers]; [exact (eq_trans Hq (eq_sym (eq_trans Hi2 Hi1)))| |done|..].
  - intros t. rewrite Hho. destruct (decide (t = tid)) as [->|Hne].
    + exact (eq_trans Hpe (eq_sym (eq_trans (Hp2 tid id) Hpn))).
    + exact (eq_sym (eq_trans (Hp2 t id) (Hp1 t ltac:(congruence)))).
  - intros t. by_thread tid t; [rewrite lookup_delete_eq; split; [by intros [? [=]]|done]|].
    rewrite lookup_delete_ne by done. apply Hw.
  - intros t z'. rewrite Hsz. by_thread tid t; [by rewrite lookup_delete_eq|].
    rewrite lookup_delete_ne by done. intros Hz'. destruct (Hsu t z' Hz') as (B' & HB' & Hlo'). exists B'.
    split; [lia|]. revert Hlo'. apply local_mono; lia.
Qed.

(** It takes the first element. *)
Lemma sim_take tid p' m' c' g' :
  atomic_steps (abs g) [ETake tid] (abs g') -> waits (cs tid) = true -> waits c' = false ->
  taken p' = taken p + 1 -> pushed p' = pushed p -> claimed p' = claimed p -> lost p' = lost p ->
  exists f', fifo_run f [ETake tid] = Some f' /\ sim (mkSys p' m' pc (<[tid := c']> cs)) g' f'.
Proof.
  intros (a1 & (v & Hiv & Hpe & Hpn & Hp1) & [Hi2 Hp2]) Hwt Hwt' Ht Hp Hc Hl.
  destruct (proj2 (sim_waiting _ _ _ Hsim tid) Hwt) as [z Hz].
  destruct Hsim as [Hq Hho Hoff Hw Hsu]. destruct f as [q o w h]. simpl in Hq, Hho, Hoff, Hw, Hsu, Hz.
  simpl in Hiv. rewrite Hiv in Hq. subst q. cbn [fifo_run fifo_step]. rewrite Hz. eexists. split; [done|].
  assert (size (delete tid w) = pred (size w)) as Hsz by (by rewrite map_size_delete, Hz).
  assert (size w <> 0%nat) as Hnz by (intros Hs0%map_size_empty_inv; by rewrite Hs0, lookup_empty in Hz).
  split; cbn [queue offering waiting holding producer enqueuer consumers]; [exact (eq_sym Hi2)| |done|..].
  - intros t. destruct (decide (t = tid)) as [->|Hne].
    + rewrite lookup_insert_eq. exact (eq_sym (eq_trans (Hp2 tid id) Hpn)).
    + rewrite lookup_insert_ne, Hho by done. exact (eq_sym (eq_trans (Hp2 t id) (Hp1 t ltac:(congruence)))).
  - intros t. by_thread tid t; [rewrite lookup_delete_eq, Hwt'; split; [by intros [? [=]]|done]|].
    rewrite lookup_delete_ne by done. apply Hw.
  - intros t z'. rewrite Hsz. by_thread tid t; [by rewrite lookup_delete_eq|].
    rewrite lookup_delete_ne by done. intros Hz'. destruct (Hsu t z' Hz') as (B' & HB' & Hlo'). exists B'.
    split; [lia|]. revert Hlo'. apply local_mono; lia.
Qed.

(** It comes back with its element. *)
Lemma sim_return tid p' m' c' v g' :
  atomic_steps (abs g) [EDequeue tid (Some v)] (abs g') -> waits (cs tid) = false -> waits c' = false ->
  taken p' = taken p -> pushed p' = pushed p -> claimed p' = claimed p -> lost p' = lost p ->
  exists f', fifo_run f [EDequeue tid (Some v)] = Some f' /\ sim (mkSys p' m' pc (<[tid := c']> cs)) g' f'.
Proof.
  intros (a1 & (Hi1 & Hpe & Hpn & Hp1) & [Hi2 Hp2]) Hwt Hwt' Ht Hp Hc Hl.
  destruct Hsim as [Hq Hho Hoff Hw Hsu]. destruct f as [q o w h]. simpl in Hq, Hho, Hoff, Hw, Hsu.
  assert (h !! tid = Some v) as Hh by (rewrite Hho; exact Hpe).
  cbn [fifo_run fifo_step]. rewrite Hh, decide_True by done. eexists. split; [done|].
  split; cbn [queue offering waiting holding producer enqueuer consumers]; [exact (eq_trans Hq (eq_sym (eq_trans Hi2 Hi1)))| |done|..].
  - intros t. destruct (decide (t = tid)) as [->|Hne].
    + rewrite lookup_delete_eq. exact (eq_sym (eq_trans (Hp2 tid id) Hpn)).
    + rewrite lookup_delete_ne, Hho by done. exact (eq_sym (eq_trans (Hp2 t id) (Hp1 t ltac:(congruence)))).
  - intros t. by_thread tid t; [|apply Hw]. rewrite Hwt', <- Hwt. apply Hw.
  - intros t z Hz. assert (waits (cs t) = true) as Hwz by (apply Hw; eauto).
    by_thread tid t; [congruence|]. destruct (Hsu t z Hz) as (B & HB & Hlo). exists B.
    split; [lia|]. revert Hlo. apply local_mono; lia.
Qed.

End Dequeue.

Lemma sim_dequeue N s g f tid p' m' c' g' :
  inv start N s g -> Z.of_nat N + 1 < 2 ^ 60 -> sim s g f -> running (consumers s tid) ->
  dequeue_step (producer s) (pool s) (consumers s tid) = (p', m', c') ->
  inv start (S N) (mkSys p' m' (enqueuer s) (<[tid := c']> (consumers s))) g' ->
  atomic_steps (abs g) (dequeue_event tid (consumers s tid) c') (abs g') ->
  exists f', fifo_run f (dequeue_event tid (consumers s tid) c') = Some f' /\
    sim (mkSys p' m' (enqueuer s) (<[tid := c']> (consumers s))) g' f'.
Proof.
  intros Hv HN Hsim Hr Hs Hv' Ha. destruct s as [p m pc cs]. cbn [producer pool enqueuer consumers] in *.
  destruct (inv_no_fault _ _ _ _ Hv') as [_ Hnf]. specialize (Hnf tid). cbn [consumers] in Hnf.
  rewrite fn_lookup_insert in Hnf.
  destruct (counters _ _ _ Hv ltac:(lia)) as (Hcp & Hct & Hcc & Hcl & _).
  destruct (counters _ _ _ Hv' ltac:(lia)) as (Hcp' & Hct' & Hcc' & Hcl' & _).
  pose proof (v_bound _ _ _ _ Hv) as Hb. pose proof (count_le is_lost (claims g)) as Hcle.
  pose proof (v_conc _ _ _ _ Hv tid) as Hco. pose proof (tk_regs _ _ _ _ (v_tickets _ _ _ _ Hv) tid) as Hrg.
  pose proof (v_head _ _ _ _ Hv) as Hvh. pose proof (v_optimistic _ _ _ _ Hv) as Hvo.
  pose proof (tickets_head _ _ _ _ (v_tickets _ _ _ _ Hv)) as Hth.
  cbn [producer consumers] in *. unfold zlen in *.
  destruct (waits (cs tid)) eqn:Hwt; [|
    destruct (dequeue_taken_shape tid _ _ _ _ _ _ Hr Hwt Hnf Hs) as (Hw' & Ht & Hh & Ho & Hl & Hev);
    assert (taken p' = taken p /\ pushed p' = pushed p /\ claimed p' = claimed p /\ lost p' = lost p)
      as (E1 & E2 & E3 & E4) by (unfold taken, pushed, claimed, lost; by rewrite Ht, Hh, Ho, Hl);
    destruct Hev as [Hev|[v Hev]]; rewrite Hev in *;
    [exists f; split; [done|]; eapply sim_looking; first [done|congruence|lia|by intros B _; destruct c']
    |by eapply sim_return]].
  destruct (cs tid) as [| |tail|tail ov|ov|ov mine| | | | | | | | | | | | ] eqn:Hcs; try done; cbn [dequeue_step] in Hs.
  - injection Hs as <- <- <-. exists f. split; [done|].
    eapply sim_looking; rewrite ?Hcs; try done; intros B; simpl; unfold pushed; lia.
  - injection Hs as <- <- <-. exists f. split; [done|].
    eapply sim_looking; rewrite ?Hcs; try done; intros B; simpl; unfold lost; lia.
  - destruct (gcs g tid) as [| |ti oi| | | | | | | | | | | |]; simpl in Hco; try naive_solver lia.
    injection Hco as -> ->. simpl in Hrg. rewrite Hvo, idx_sub_lt in Hs by lia.
    destruct (Z.ltb_spec (Z.of_nat (length (claims g)) - Z.of_nat oi) (Z.of_nat ti)) as [Hlt|Hge];
      injection Hs as <- <- <-.
    + exists f. split; [done|]. eapply sim_looking; rewrite ?Hcs; try done. intros B. simpl.
      rewrite from_start, u64_small by lia. lia.
    + eapply (sim_nothing N); rewrite ?Hcs; try done; [lia|]. intros B. simpl.
      rewrite from_start, u64_small by lia. lia.
  - injection Hs as <- <- <-. exists f. split; [done|].
    eapply sim_looking; rewrite ?Hcs; try done. unfold claimed. simpl.
    rewrite Hvo, idx_succ, !from_start by lia. lia.
  - destruct (gcs g tid) as [| | | |oi mi| | | | | | | | | |] eqn:Hg; simpl in Hco; try naive_solver lia.
    injection Hco as -> ->. simpl in Hrg.
    assert (claims g !! mi = Some (Undecided tid)) as Hmi.
    { apply (tk_claim _ _ _ _ (v_tickets _ _ _ _ Hv) _ _ tid); [done|]. by rewrite Hg. }
    pose proof (lookup_lt_Some _ _ _ Hmi) as Hlt. pose proof (count_take_le is_lost (claims g) mi).
    pose proof (v_tail _ _ _ _ Hv) as Hvt. cbn [producer] in Hvt.
    rewrite Hvt, idx_sub_lt in Hs by lia.
    destruct (Z.ltb_spec (Z.of_nat mi - Z.of_nat oi) (Z.of_nat (length (elems g))));
      injection Hs as <- <- <-; exists f; (split; [done|]); eapply sim_looking; rewrite ?Hcs; try done.
    intros B. simpl. rewrite u64_small by lia. lia.
  - injection Hs as <- <- <-. eapply (sim_take N); rewrite ?Hcs; try done. unfold taken. simpl.
    rewrite Hvh, idx_succ, !from_start by lia. lia.
  - injection Hs as <- <- <-. eapply (sim_nothing N); rewrite ?Hcs; try done.
    + unfold lost in *. simpl in *. rewrite u64_small by lia. lia.
    + intros B. simpl. by right.
Qed.

Lemma sim_step N s g f ev s' g' :
  inv start N s g -> Z.of_nat N + 1 < 2 ^ 60 -> sim s g f -> step raw_value s ev s' ->
  inv start (S N) s' g' -> atomic_steps (abs g) ev (abs g') ->
  exists f', fifo_run f ev = Some f' /\ sim s' g' f'.
Proof.
  intros Hv HN Hsim Hstep Hv' Ha. destruct Hstep as
    [p m pc cs v Hpc|p m pc cs a p' m' pc' Hpc Hs|p m pc cs tid Hr|p m pc cs tid p' m' c' Hr Hs
    |p m pc cs a b m' Hreq|p m pc cs b B0 B Hb HB0 Hdyn Hlen|p m pc cs b m' Hb Hadd].
  - destruct f as [q o w h]. destruct Hsim as [Hq Hho Hoff Hw Hsu]. simpl in Hq, Hho, Hoff, Hw, Hsu.
    assert (o = Quiet) as -> by (destruct pc; by try destruct (Hpc I)). eexists. split; [done|].
    destruct Ha as (a1 & [Hi1 Hp1] & [Hi2 Hp2]). split; simpl; try done.
    + exact (eq_trans Hq (eq_sym (eq_trans Hi2 Hi1))).
    + intros t. exact (eq_trans (Hho t) (eq_sym (eq_trans (Hp2 t id) (Hp1 t id)))).
  - exact (sim_enqueue _ _ _ _ _ _ _ _ _ Hv HN Hsim Hpc Hs Hv' Ha).
  - exact (sim_call _ _ _ _ tid _ Hv ltac:(lia) Hsim Hr Ha).
  - exact (sim_dequeue _ _ _ _ tid _ _ _ _ Hv HN Hsim Hr Hs Hv' Ha).
  - exists f. split; [done|]. by eapply sim_silent.
  - exists f. split; [done|]. by eapply sim_silent.
  - exists f. split; [done|]. by eapply sim_silent.
Qed.

Context (mem mem' : bool) (count : Z).
Context (Hcount : 0 <= count < 2 ^ 64) (Hrange : 0 <= start < 2 ^ 64) (Hstart : start mod 32 = 0).

Lemma reach_sim n tr s :
  steps raw_value n (fresh raw_value mem mem' count start) tr s -> Z.of_nat n < 2 ^ 60 ->
  exists g f, inv start n s g /\ fifo_run fifo_empty tr = Some f /\ sim s g f.
Proof.
  remember (fresh raw_value mem mem' count start) as s0 eqn:Hs0.
  intros Hst. induction Hst as [s|n s1 tr s2 ev s3 Hst IH Hstep]; intros Hn; subst.
  - destruct (pool_populate (A := A) mem' count Hcount) as (own & Hpo & Hown).
    exists (ghost_init mem own), fifo_empty. split; [|split; [done|]].
    + apply init_inv; try done. intros b o Hb. by rewrite (Hown b o Hb).
    + split; try done; intros t. simpl. rewrite lookup_empty. split; [by intros [? [=]]|done].
  - destruct IH as (g & f & Hv & Hf & Hsim); [done|lia|].
    destruct (step_good start raw_value n s2 g ev s3 Hstart ltac:(lia) Hv Hstep) as (g' & Hv' & Ha').
    destruct (sim_step _ _ _ _ _ _ _ Hv ltac:(lia) Hsim Hstep Hv' Ha') as (f' & Hf' & Hsim').
    exists g', f'. split; [done|]. split; [|done]. by rewrite fifo_run_app, Hf.
Qed.

End Refine.

(** C8: In every interleaving of one enqueuing thread, any number of dequeuing threads and the
    other users of the block pool, a sub-queue behaves as the specification [fifo] says: the
    elements are published in the order of the enqueues, between the call of the enqueue and
    its return, and an enqueue answers true exactly when its element is published (it answers
    false when it finds no memory); a dequeue takes the oldest published element between its
    call and its return and returns that element; and it returns nothing only if at its call
    there were at most as many elements in the queue as rival dequeues, those under way without
    an element then and those called since. *)
Theorem subqueue_refines_fifo {A} `{EqDecision A} raw_value mem mem' count start n tr (s : sys A) :
  0 <= count < 2 ^ 64 -> 0 <= start < 2 ^ 64 -> start mod 32 = 0 -> Z.of_nat n < 2 ^ 60 ->
  steps raw_value n (fresh raw_value mem mem' count start) tr s ->
  exists f, fifo_run fifo_empty tr = Some f.
Proof.
  intros Hc Hr Hs Hn Hst.
  destruct (reach_sim start raw_value mem mem' count Hc Hr Hs n tr s Hst Hn) as (g & f & _ & Hf & _).
  by exists f.
Qed.

(** Two threads compete for one element; while the loser has not yet given its ticket back, a
    third one comes back with nothing though another element has been enqueued. *)
Definition crossing : list (action (A := Z)) :=
  ACallEnqueue 5 :: replicate 10 (AEnqueue alone) ++ [ACallDequeue 1; ACallDequeue 2] ++
  mjoin (replicate 5 [ADequeue 1; ADequeue 2]) ++ ACallEnqueue 6 :: replicate 3 (AEnqueue alone) ++
  [ACallDequeue 3; ADequeue 3; ADequeue 3; ADequeue 3; ADequeue 2].

Definition crossing_events : list (event Z) :=
  [ECallEnqueue 5; EPush 5; EEnqueue true; ECallDequeue 1; ECallDequeue 2;
   ECallEnqueue 6; EPush 6; EEnqueue true; ECallDequeue 3; EDequeue 3 None; EDequeue 2 None].

Lemma subqueue_refines_fifo_witness :
  exists s, steps None 32 (fresh None true true 6 (2 ^ 64 - 32)) crossing_events s /\
    exists f, fifo_run fifo_empty crossing_events = Some f.
Proof.
  destruct (exec None crossing [] (fresh None true true 6 (2 ^ 64 - 32))) as [[tr s]|] eqn:He;
    [|apply (f_equal (fmap fst)) in He; vm_compute in He; done].
  assert (tr = crossing_events) as -> by (apply (f_equal (fmap fst)) in He; vm_compute in He; by injection He).
  exists s. pose proof (exec_steps None 0 _ crossing [] _ _ s (steps_refl _ _) He) as Hs.
  split; [exact Hs|].
  refine (subqueue_refines_fifo None true true 6 (2 ^ 64 - 32) 32 crossing_events s _ _ _ _ Hs);
    [lia|lia|reflexivity|reflexivity].
Defined.
