(* ===== verification/CqQueue.v ===== *)
(** * The vendored queue as a whole (lib/concurrentqueue/concurrentqueue.h)

    [ConcurrentQueue] holds its sub-queues in a list, newest first; [try_dequeue] tries the
    largest of the first three that look non-empty and then all the others.  The operations
    are written against an interface of sub-queues, whose laws the [ImplicitProducer]s that
    share one block pool satisfy. *)
From S2P Require Import Prelude CqArith CqProducer CqInv CqIndex CqLin CqSub.

(** ** The interface

    [P] is a sub-queue, [M] the memory all of them share. *)
Class SubQueue (P M A : Type) := {
  sq_size_approx : P -> Z;
  sq_dequeue : P -> M -> P * M * option A;
  sq_enqueue : A -> P -> M -> P * M * bool }.

(** [rep n ps m ls]: the sub-queues [ps] hold the lists [ls]; [n] counts the work done, which
    stays below the range in which indices are unambiguous. *)
Class SubQueueLaws (P M A : Type) `{SubQueue P M A} := {
  rep : nat -> list P -> M -> list (list A) -> Prop;
  limit : Z;
  rep_length n ps m ls : rep n ps m ls -> length ps = length ls;
  rep_mono n n' ps m ls : (n <= n')%nat -> rep n ps m ls -> rep n' ps m ls;
  rep_size n ps m ls i p l :
    rep n ps m ls -> Z.of_nat n < limit -> ps !! i = Some p -> ls !! i = Some l ->
    sq_size_approx p = zlen l;
  rep_dequeue n ps m ls i p l p' m' r :
    rep n ps m ls -> Z.of_nat (n + 15) < limit -> ps !! i = Some p -> ls !! i = Some l ->
    sq_dequeue p m = (p', m', r) ->
    r = head l /\ rep (n + 15) (<[i := p']> ps) m' (<[i := tail l]> ls);
  rep_enqueue n ps m ls i p l v p' m' r :
    rep n ps m ls -> Z.of_nat (n + 15) < limit -> ps !! i = Some p -> ls !! i = Some l ->
    sq_enqueue v p m = (p', m', r) ->
    r = true /\ rep (n + 15) (<[i := p']> ps) m' (<[i := l ++ [v]]> ls) }.

(** ** [ConcurrentQueue::try_dequeue], [try_dequeue_non_interleaved] and [size_approx]

    Sub-queues are numbered by their place in the list. *)
Section Queue.
Context {P M A : Type} `{SubQueue P M A}.

(** The first loop of [try_dequeue]: how many non-empty sub-queues were met (at most 3) and
    the place of the largest of them. *)
Fixpoint scan (ps : list P) (i : nat) (nonEmptyCount : Z) (best : option nat) (bestSize : Z) : Z * option nat :=
  match ps with
  | [] => (nonEmptyCount, best)
  | p :: ps =>
      if nonEmptyCount <? 3 then
        let size := sq_size_approx p in
        if 0 <? size then
          if bestSize <? size then scan ps (S i) (nonEmptyCount + 1) (Some i) size
          else scan ps (S i) (nonEmptyCount + 1) best bestSize
        else scan ps (S i) nonEmptyCount best bestSize
      else (nonEmptyCount, best)
  end.

(** The loop over all sub-queues, from place [i] on, [skip] excepted. *)
Fixpoint try_all (fuel i : nat) (skip : option nat) (ps : list P) (m : M) : list P * M * option A :=
  match fuel with
  | O => (ps, m, None)
  | S fuel =>
      if bool_decide (skip = Some i) then try_all fuel (S i) skip ps m
      else
        match ps !! i with
        | None => (ps, m, None)
        | Some p =>
            match sq_dequeue p m with
            | (p, m, Some v) => (<[i := p]> ps, m, Some v)
            | (p, m, None) => try_all fuel (S i) skip (<[i := p]> ps) m
            end
        end
  end.

Definition try_dequeue (ps : list P) (m : M) : list P * M * option A :=
  let '(nonEmptyCount, best) := scan ps 0 0 None 0 in
  if 0 <? nonEmptyCount then
    match best with
    | None => (ps, m, None)
    | Some b =>
        match ps !! b with
        | None => (ps, m, None)
        | Some p =>
            match sq_dequeue p m with
            | (p, m, Some v) => (<[b := p]> ps, m, Some v)
            | (p, m, None) => try_all (length ps) 0 best (<[b := p]> ps) m
            end
        end
    end
  else (ps, m, None).

Definition try_dequeue_non_interleaved (ps : list P) (m : M) : list P * M * option A :=
  try_all (length ps) 0 None ps m.

Definition queue_size_approx (ps : list P) : Z :=
  fold_left (fun size p => u64 (size + sq_size_approx p)) ps 0.

(** ** What they compute *)

Context `{!SubQueueLaws P M A}.

Lemma scan_spec n ps0 m ls ps i cnt best bestSize :
  rep n ps0 m ls -> Z.of_nat n < limit -> (forall j, ps !! j = ps0 !! (i + j)%nat) -> 0 <= cnt -> 0 <= bestSize ->
  (cnt = 0 -> best = None /\ bestSize = 0) ->
  (0 < cnt -> exists b l, best = Some b /\ (b < i)%nat /\ ls !! b = Some l /\ l <> []) ->
  let '(cnt', best') := scan ps i cnt best bestSize in
  (cnt' = 0 /\ cnt = 0 /\ forall j l, (i <= j)%nat -> ls !! j = Some l -> l = []) \/
  (0 < cnt' /\ exists b l, best' = Some b /\ (b < i + length ps)%nat /\ ls !! b = Some l /\ l <> []).
Proof.
  intros Hrep Hn. revert i cnt best bestSize.
  induction ps as [|p ps IH]; intros i cnt best bestSize Hps Hcnt Hbs Hz Hp; cbn [scan].
  - destruct (Z.eq_dec cnt 0) as [->|Hne].
    + left. split; [done|]. split; [done|]. intros j l Hj Hl. exfalso.
      pose proof (lookup_lt_Some _ _ _ Hl) as Hlt. rewrite <- (rep_length _ _ _ _ Hrep) in Hlt.
      specialize (Hps (j - i)%nat). replace (i + (j - i))%nat with j in Hps by lia.
      symmetry in Hps. apply lookup_ge_None in Hps. lia.
    + right. split; [lia|]. destruct Hp as (b & l & -> & Hb & Hl); [lia|]. exists b, l. simpl.
      split; [done|]. split; [lia|done].
  - destruct (Z.ltb_spec cnt 3); cycle 1.
    { right. split; [lia|]. destruct Hp as (b & l & -> & Hb & Hl); [lia|]. exists b, l. simpl.
      split; [done|]. split; [lia|done]. }
    pose proof (Hps 0%nat) as Hp0. rewrite Nat.add_0_r in Hp0. simpl in Hp0. symmetry in Hp0.
    destruct (lookup_lt_is_Some_2 ls i) as [l Hl].
    { rewrite <- (rep_length _ _ _ _ Hrep). by eapply lookup_lt_Some. }
    pose proof (rep_size _ _ _ _ _ _ _ Hrep Hn Hp0 Hl) as Hsz. pose proof (zlen_nonneg l).
    assert (forall j, ps !! j = ps0 !! (S i + j)%nat) as Hps'.
    { intros j. specialize (Hps (S j)). simpl in Hps. rewrite Hps. f_equal. lia. }
    set (sz := sq_size_approx p) in *. clearbody sz.
    destruct (Z.ltb_spec 0 sz) as [Hpos|Hneg].
    + assert (l <> []) as Hne by (intros ->; rewrite zlen_nil in Hsz; lia).
      destruct (Z.ltb_spec bestSize sz) as [Hbig|Hsmall].
      * specialize (IH (S i) (cnt + 1) (Some i) sz Hps' ltac:(lia) ltac:(lia) ltac:(intros; exfalso; lia)).
        destruct (scan _ _ _ _ _) as [cnt' best']. destruct IH as [?|(? & b & l' & ? & ? & ?)]; [|lia|].
        -- intros _. exists i, l. split; [done|]. split; [lia|done].
        -- right. split; [done|]. exists b, l'. simpl. split; [done|]. split; [lia|done].
      * assert (0 < cnt) as Hc by (destruct (Z.eq_dec cnt 0) as [->|]; [destruct (Hz eq_refl); lia|lia]).
        specialize (IH (S i) (cnt + 1) best bestSize Hps' ltac:(lia) ltac:(lia) ltac:(intros; exfalso; lia)).
        destruct (scan _ _ _ _ _) as [cnt' best']. destruct IH as [?|(? & b & l' & ? & ? & ?)]; [|lia|].
        -- intros _. destruct (Hp Hc) as (b & l' & -> & Hb & Hl'). exists b, l'. split; [done|]. split; [lia|done].
        -- right. split; [done|]. exists b, l'. simpl. split; [done|]. split; [lia|done].
    + assert (l = []) as -> by (destruct l as [|? l]; [done|rewrite zlen_cons in Hsz; pose proof (zlen_nonneg l); lia]).
      specialize (IH (S i) cnt best bestSize Hps' Hcnt Hbs Hz).
      destruct (scan _ _ _ _ _) as [cnt' best']. destruct IH as [(-> & -> & Hall)|(? & b & l' & ? & ? & ?)].
      * intros Hc. destruct (Hp Hc) as (b & l' & -> & Hb & Hl'). exists b, l'. split; [done|]. split; [lia|done].
      * left. split; [done|]. split; [done|]. intros j l' Hj Hl'.
        destruct (decide (j = i)) as [->|]; [congruence|]. apply (Hall j); [lia|done].
      * right. split; [done|]. exists b, l'. simpl. split; [done|]. split; [lia|done].
Qed.

(** The contents after a successful dequeue from sub-queue [i]. *)
Definition takes (ls : list (list A)) (v : A) (ls' : list (list A)) : Prop :=
  exists i l, ls !! i = Some (v :: l) /\ ls' = <[i := l]> ls.

Lemma insert_tail_nil (ls : list (list A)) i : ls !! i = Some [] -> <[i := tail []]> ls = ls.
Proof. intros Hl. by apply list_insert_id. Qed.

Lemma try_all_spec n ps m ls fuel i skip ps' m' r :
  rep n ps m ls -> Z.of_nat (n + 15 * fuel) < limit ->
  (fuel + i = length ls)%nat -> (forall j l, (j < i)%nat \/ skip = Some j -> ls !! j = Some l -> l = []) ->
  try_all fuel i skip ps m = (ps', m', r) ->
  match r with
  | Some v => exists ls', takes ls v ls' /\ rep (n + 15 * fuel) ps' m' ls'
  | None => (forall j l, ls !! j = Some l -> l = []) /\ rep (n + 15 * fuel) ps' m' ls
  end.
Proof.
  revert n ps m i. induction fuel as [|fuel IH]; intros n ps m i Hrep Hn Hlen Hdone; cbn [try_all].
  { intros [= <- <- <-]. split; [|eapply rep_mono; [|done]; lia]. intros j l Hl. apply (Hdone j); [|done].
    left. apply lookup_lt_Some in Hl. lia. }
  case_bool_decide as Hskip.
  - intros Hrun. specialize (IH n ps m (S i) Hrep ltac:(lia) ltac:(lia)).
    assert (match r with
            | Some v => exists ls', takes ls v ls' /\ rep (n + 15 * fuel) ps' m' ls'
            | None => (forall j l, ls !! j = Some l -> l = []) /\ rep (n + 15 * fuel) ps' m' ls end) as Hres.
    { apply IH; [|done]. intros j l Hj. apply Hdone. destruct (decide (j = i)) as [->|]; [by right|].
      destruct Hj; [left; lia|by right]. }
    destruct r; [destruct Hres as (ls' & ? & ?); exists ls'|destruct Hres]; split; try done;
      (eapply rep_mono; [|done]; lia).
  - destruct (lookup_lt_is_Some_2 ls i ltac:(lia)) as [l Hl].
    destruct (lookup_lt_is_Some_2 ps i) as [p Hp]; [rewrite (rep_length _ _ _ _ Hrep); lia|]. rewrite Hp.
    destruct (sq_dequeue p m) as [[p1 m1] r1] eqn:Hd.
    destruct (rep_dequeue _ _ _ _ _ _ _ _ _ _ Hrep ltac:(lia) Hp Hl Hd) as [Hr1 Hrep1].
    destruct l as [|v l]; simpl in Hr1; subst r1.
    + rewrite insert_tail_nil in Hrep1 by done. intros Hrun.
      assert (match r with
              | Some v => exists ls', takes ls v ls' /\ rep (n + 15 + 15 * fuel) ps' m' ls'
              | None => (forall j l, ls !! j = Some l -> l = []) /\ rep (n + 15 + 15 * fuel) ps' m' ls end) as Hres.
      { apply (IH (n + 15)%nat (<[i := p1]> ps) m1 (S i)); [exact Hrep1|lia|lia| |exact Hrun]. intros j l' Hj Hl'.
        destruct (decide (j = i)) as [->|]; [congruence|]. apply (Hdone j); [|done].
        destruct Hj; [left; lia|by right]. }
      by replace (n + 15 * S fuel)%nat with (n + 15 + 15 * fuel)%nat by lia.
    + intros [= <- <- <-]. exists (<[i := l]> ls). split; [by exists i, l|].
      eapply rep_mono; [|exact Hrep1]. lia.
Qed.

(** [try_dequeue] returns an element whenever there is one: the oldest of some sub-queue,
    which it removes and nothing else; it returns nothing only when all sub-queues are
    empty. *)
Lemma try_dequeue_takes n ps m ls ps' m' r :
  rep n ps m ls -> Z.of_nat (n + 15 * (1 + length ls)) < limit -> try_dequeue ps m = (ps', m', r) ->
  match r with
  | Some v => exists ls', takes ls v ls' /\ rep (n + 15 * (1 + length ls)) ps' m' ls'
  | None => (forall j l, ls !! j = Some l -> l = []) /\ rep (n + 15 * (1 + length ls)) ps' m' ls
  end.
Proof.
  intros Hrep Hn. unfold try_dequeue.
  pose proof (scan_spec n ps m ls ps 0 0 None 0 Hrep ltac:(lia) ltac:(done) ltac:(lia) ltac:(lia) ltac:(done) ltac:(intros; exfalso; lia)) as Hscan.
  destruct (scan ps 0 0 None 0) as [cnt best].
  destruct Hscan as [(-> & _ & Hall)|(Hc & b & l & -> & Hb & Hl & Hne)]; simpl.
  - intros [= <- <- <-]. split; [intros j l; apply Hall; lia|]. eapply rep_mono; [|exact Hrep]. lia.
  - rewrite (proj2 (Z.ltb_lt _ _) Hc).
    destruct (lookup_lt_is_Some_2 ps b) as [p Hp]; [rewrite (rep_length _ _ _ _ Hrep); by eapply lookup_lt_Some|].
    rewrite Hp. destruct (sq_dequeue p m) as [[p1 m1] r1] eqn:Hd.
    destruct (rep_dequeue _ _ _ _ _ _ _ _ _ _ Hrep ltac:(lia) Hp Hl Hd) as [Hr1 Hrep1].
    destruct l as [|v l]; [done|]. simpl in Hr1. subst r1. intros [= <- <- <-].
    exists (<[b := l]> ls). split; [by exists b, l|]. eapply rep_mono; [|exact Hrep1]. lia.
Qed.

(** The estimate of the size is exact when no call is under way. *)
Lemma queue_size_spec n ps m ls :
  rep n ps m ls -> Z.of_nat n < limit -> queue_size_approx ps = u64 (zlen (mjoin ls)).
Proof.
  intros Hrep Hn.
  assert (forall ps0 ls0 acc, Forall2 (fun p l => sq_size_approx p = zlen (l : list A)) ps0 ls0 ->
    fold_left (fun size p => u64 (size + sq_size_approx p)) ps0 (u64 acc) = u64 (acc + zlen (mjoin ls0))) as Hfold.
  { intros ps0 ls0 acc Hf. revert acc. induction Hf as [|p l ps0 ls0 Hpl Hf IH]; intros acc; simpl.
    - by rewrite zlen_nil, Z.add_0_r.
    - rewrite u64_add_l, IH, Hpl. change (mjoin (l :: ls0)) with (l ++ mjoin ls0). rewrite zlen_app.
      f_equal. lia. }
  unfold queue_size_approx. change 0 with (u64 0) at 1. rewrite (Hfold _ ls); [done|].
  apply Forall2_same_length_lookup_2; [by apply (rep_length _ _ _ _ Hrep)|].
  intros i p l Hp Hl. by eapply rep_size.
Qed.

(** ** Sequences of calls

    A queue seen from outside is one list per enqueuing thread: an enqueue appends to the
    list of its thread, a dequeue takes the head of some list. *)
Inductive qcall := QEnqueue (i : nat) (v : A) | QDequeue.
Inductive qres := QEnqueued (ok : bool) | QDequeued (r : option A).

Fixpoint run_queue (cs : list qcall) (ps : list P) (m : M) : list qres :=
  match cs with
  | [] => []
  | QEnqueue i v :: cs =>
      match ps !! i with
      | None => []
      | Some p => let '(p, m, ok) := sq_enqueue v p m in QEnqueued ok :: run_queue cs (<[i := p]> ps) m
      end
  | QDequeue :: cs => let '(ps, m, r) := try_dequeue ps m in QDequeued r :: run_queue cs ps m
  end.

Inductive fifos : list (list A) -> list qcall -> list qres -> Prop :=
| fifos_nil ls : fifos ls [] []
| fifos_enqueue ls i l v cs rs :
    ls !! i = Some l -> fifos (<[i := l ++ [v]]> ls) cs rs ->
    fifos ls (QEnqueue i v :: cs) (QEnqueued true :: rs)
| fifos_dequeue ls i v l cs rs :
    ls !! i = Some (v :: l) -> fifos (<[i := l]> ls) cs rs ->
    fifos ls (QDequeue :: cs) (QDequeued (Some v) :: rs)
| fifos_empty ls cs rs :
    (forall j l, ls !! j = Some l -> l = []) -> fifos ls cs rs ->
    fifos ls (QDequeue :: cs) (QDequeued None :: rs).

Definition on_thread (k : nat) (c : qcall) : Prop := match c with QEnqueue i _ => (i < k)%nat | QDequeue => True end.

Lemma run_queue_fifos cs n ps m ls :
  rep n ps m ls -> Z.of_nat (n + length cs * (15 * (1 + length ls))) < limit ->
  Forall (on_thread (length ls)) cs -> fifos ls cs (run_queue cs ps m).
Proof.
  revert n ps m ls. induction cs as [|[i v|] cs IH]; intros n ps m ls Hrep Hn Hcs; cbn [run_queue]; [constructor|..];
    apply Forall_cons in Hcs as [Hc Hcs]; cbn [length] in Hn.
  - destruct (lookup_lt_is_Some_2 ls i Hc) as [l Hl].
    destruct (lookup_lt_is_Some_2 ps i) as [p Hp]; [by rewrite (rep_length _ _ _ _ Hrep)|].
    rewrite Hp. destruct (sq_enqueue v p m) as [[p' m'] ok] eqn:He.
    destruct (rep_enqueue _ _ _ _ _ _ _ _ _ _ _ Hrep ltac:(lia) Hp Hl He) as [-> Hrep'].
    econstructor; [done|]. apply (IH (n + 15)%nat); [done| |]; rewrite length_insert; [lia|done].
  - destruct (try_dequeue ps m) as [[ps' m'] r] eqn:Hd.
    pose proof (try_dequeue_takes n ps m ls ps' m' r Hrep ltac:(lia) Hd) as Hspec. destruct r as [v|].
    + destruct Hspec as (ls' & (i & l & Hl & ->) & Hrep'). econstructor; [done|].
      eapply IH; [exact Hrep'| |]; rewrite length_insert; [lia|done].
    + destruct Hspec as [Hempty Hrep']. constructor; [done|]. eapply IH; [exact Hrep'|lia|done].
Qed.

End Queue.
#[global] Arguments qcall : clear implicits.
#[global] Arguments qres : clear implicits.

(** ** Implicit producers satisfy the interface *)

Section Implicit.
Context {A : Type} (raw_value : option nat).

#[export] Instance implicit_subqueue : SubQueue ImplicitProducer (Pool A) A := {|
  sq_size_approx := size_approx;
  sq_dequeue p m :=
    let '(p, m, c) := dequeue p m in (p, m, match c with CRet r => r | _ => None end);
  sq_enqueue v p m :=
    let '(p, m, pc) := enqueue raw_value alone v p m in
    (p, m, match pc with PRet ok => ok | _ => false end) |}.

(** Two views of who owns a block: a block in use by one sub-queue is another's to the
    others. *)
Definition compat1 (x y : option owner) : Prop :=
  match x, y with
  | None, None | Some OwnFree, Some OwnFree | Some OwnPool, Some OwnPool
  | Some OwnOther, Some (OwnOther | OwnPrivate | OwnBlock _)
  | Some (OwnPrivate | OwnBlock _), Some OwnOther => True
  | _, _ => False
  end.

Definition compat (o o' : gmap nat owner) : Prop := forall b, compat1 (o !! b) (o' !! b).

(** The view of another sub-queue after a step that left the view [o']. *)
Definition transfer (o' oj : gmap nat owner) : gmap nat owner :=
  map_imap (fun b x => match x with
                       | OwnOther => oj !! b
                       | OwnPrivate | OwnBlock _ => Some OwnOther
                       | x => Some x
                       end) o'.

Lemma lookup_transfer o' oj b :
  transfer o' oj !! b =
  match o' !! b with
  | Some OwnOther => oj !! b
  | Some (OwnPrivate | OwnBlock _) => Some OwnOther
  | x => x
  end.
Proof. unfold transfer. rewrite map_lookup_imap. by destruct (o' !! b) as [[]|]. Qed.

Lemma compat_sym o o' : compat o o' -> compat o' o.
Proof. intros Hc b. specialize (Hc b). by destruct (o !! b) as [[]|], (o' !! b) as [[]|]. Qed.

Lemma compat_transfer (g g' : @ghost A) m m' oj :
  compat (own g) oj -> respects g m g' m' -> compat (own g') (transfer (own g') oj).
Proof.
  intros Hc [_ Hr] b. rewrite lookup_transfer. specialize (Hc b). destruct (Hr b) as [_ Hr2].
  destruct (own g' !! b) as [[]|]; simpl; try done.
  rewrite (Hr2 eq_refl) in Hc. by destruct (oj !! b) as [[]|].
Qed.

Lemma compat_transfers o' oj ok :
  compat oj ok -> compat (transfer o' oj) (transfer o' ok).
Proof.
  intros Hc b. rewrite !lookup_transfer. specialize (Hc b). by destruct (o' !! b) as [[]|].
Qed.

(** A step of one sub-queue is a step of the environment for another. *)
Lemma transfer_frame (g g' : @ghost A) m m' oj b o :
  compat (own g) oj -> respects g m g' m' -> oj !! b = Some o ->
  o = OwnPrivate \/ (exists n, o = OwnBlock n) ->
  transfer (own g') oj !! b = Some o /\ deref m' b = deref m b.
Proof.
  intros Hc [_ Hr] Hb Ho. specialize (Hc b). rewrite Hb in Hc.
  assert (own g !! b = Some OwnOther) as Hg.
  { destruct Ho as [->|[n ->]]; by destruct (own g !! b) as [[]|]. }
  destruct (Hr b) as [Hr1 _]. destruct (Hr1 Hg) as [Hg' Hd]. by rewrite lookup_transfer, Hg', Hb.
Qed.

Lemma pool_transfer m o' oj :
  pool_ok m o' -> others m = [] -> (forall b, o' !! b = Some OwnOther -> is_Some (oj !! b) /\ oj !! b <> Some OwnFree /\ oj !! b <> Some OwnPool) ->
  pool_ok (A := A) m (transfer o' oj).
Proof.
  intros [Hlive Hnd Hfree Hoth Hpool Hsize Howned Hhome Hstat Hcount] Hn Hoj. split; try done.
  - intros b o. rewrite lookup_transfer. destruct (o' !! b) as [x|] eqn:E; [|done]. intros _. by eapply Hlive.
  - intros b Hb. by rewrite lookup_transfer, (Hfree _ Hb).
  - rewrite Hn. intros b []%not_elem_of_nil.
  - intros i Hi. by rewrite lookup_transfer, (Hpool _ Hi).
  - intros b Hb. rewrite lookup_transfer. destruct (Howned b Hb) as [o Ho]. rewrite Ho. destruct o; eauto. by apply Hoj.
  - intros b Hb. rewrite lookup_transfer in Hb. destruct (o' !! b) as [[]|] eqn:E; try (by destruct Hb); [by apply Hstat; left|..].
    + destruct (Hoj b E) as (_ & ? & ?). by destruct Hb.
    + by apply Hstat; right.
Qed.

(** What is another's to one view is in use to each compatible view. *)
Lemma compat_other (g g' : @ghost A) m m' oj b :
  compat (own g) oj -> respects g m g' m' -> own g' !! b = Some OwnOther ->
  is_Some (oj !! b) /\ oj !! b <> Some OwnFree /\ oj !! b <> Some OwnPool.
Proof.
  intros Hc [_ Hr] Hb. destruct (Hr b) as [_ Hr2]. specialize (Hc b). rewrite (Hr2 Hb) in Hc.
  destruct (oj !! b) as [[]|]; try done; eauto.
Qed.

(** A sub-queue with no call under way. *)
Definition resting (N : nat) (p : ImplicitProducer) (m : Pool A) (g : ghost) : Prop :=
  exists pc cs, inv 0 N (mkSys p m pc cs) g /\ ~ enqueuing pc /\ (forall t, ~ running (cs t)) /\
    blockIndex p <> None.

Definition mine (o : owner) : Prop := o = OwnPrivate \/ exists n, o = OwnBlock n.

(** Sub-queues with the contents [ls] that share one pool. *)
Definition shared (N : nat) (ps : list ImplicitProducer) (m : Pool A) (ls : list (list A)) : Prop :=
  others m = [] /\
  exists (o0 : gmap nat owner) (gs : list ghost),
    pool_ok m o0 /\ (forall b o, o0 !! b = Some o -> o <> OwnPrivate /\ forall n, o <> OwnBlock n) /\
    length gs = length ps /\ ls = (fun g => items (abs g)) <$> gs /\
    (forall i p g, ps !! i = Some p -> gs !! i = Some g -> resting N p m g /\ compat o0 (own g)) /\
    (forall i j gi gj, i <> j -> gs !! i = Some gi -> gs !! j = Some gj -> compat (own gi) (own gj)) /\
    (forall b, o0 !! b = Some OwnOther -> exists i g o, gs !! i = Some g /\ own g !! b = Some o /\ mine o).

Definition view (g' h : @ghost A) : ghost :=
  with_index h (binfo h) (ents h) (lo h) (tops h) (transfer (own g') (own h)).

Lemma resting_transfer N N' p m g m' h ph :
  resting N ph m h -> compat (own g) (own h) -> pool_ok m' (own p) -> others m' = [] ->
  respects g m p m' -> (N < N')%nat ->
  resting N' ph m' (view p h) /\ items (abs (view p h)) = items (abs h).
Proof.
  intros (pc & cs & Hv & Hpc & Hcs & Hix) Hc Hpo Hn Hr HN.
  destruct (other_inv 0 N ph m pc cs h m' (transfer (own p) (own h)) Hv) as [Hv' Ha].
  - apply pool_transfer; [done|done|]. intros b. by eapply compat_other.
  - intros b o Hb Ho. by eapply transfer_frame.
  - intros b o. rewrite lookup_transfer. destruct (own p !! b) as [[]|]; naive_solver.
  - split; [|by destruct Ha]. exists pc, cs. split; [|done]. eapply inv_mono; [|exact Hv']. lia.
Qed.

(** One sub-queue acts. *)
Lemma shared_act N N' ps m ls i p g p' m' g' o0 gs :
  others m = [] -> pool_ok m o0 -> (forall b o, o0 !! b = Some o -> o <> OwnPrivate /\ forall n, o <> OwnBlock n) ->
  length gs = length ps -> ls = (fun g => items (abs g)) <$> gs ->
  (forall i p g, ps !! i = Some p -> gs !! i = Some g -> resting N p m g /\ compat o0 (own g)) ->
  (forall i j gi gj, i <> j -> gs !! i = Some gi -> gs !! j = Some gj -> compat (own gi) (own gj)) ->
  (forall b, o0 !! b = Some OwnOther -> exists i g o, gs !! i = Some g /\ own g !! b = Some o /\ mine o) ->
  ps !! i = Some p -> gs !! i = Some g ->
  resting N' p' m' g' -> respects g m g' m' -> (N < N')%nat ->
  shared N' (<[i := p']> ps) m' (<[i := items (abs g')]> ls).
Proof.
  intros Hn Hpo Ho0 Hlen -> Hall Hcc Hex Hp Hg Hrest Hr HN.
  assert (others m' = []) as Hn' by (destruct Hr as [Hr _]; congruence).
  assert (pool_ok m' (own g')) as Hpo' by (destruct Hrest as (pc & cs & Hv & _); apply (v_pool _ _ _ _ Hv)).
  assert (compat (own g) o0) as Hc0 by (apply compat_sym; by eapply Hall).
  assert (forall j h, j <> i -> gs !! j = Some h -> compat (own g) (own h)) as Hch
    by (intros j h Hj Hh; eapply (Hcc i j); [done|done|done]).
  split; [done|]. exists (transfer (own g') o0), (<[i := g']> (view g' <$> gs)).
  assert (forall j h, (<[i := g']> (view g' <$> gs)) !! j = Some h ->
    j = i /\ h = g' \/ j <> i /\ exists h0, gs !! j = Some h0 /\ h = view g' h0) as Hgs.
  { intros j h. destruct (decide (j = i)) as [->|Hj].
    - rewrite list_lookup_insert_eq; [naive_solver|]. rewrite length_fmap. by eapply lookup_lt_Some.
    - rewrite list_lookup_insert_ne, list_lookup_fmap by done. destruct (gs !! j); naive_solver. }
  split; [apply pool_transfer; [done|done|]; intros b; by eapply compat_other|].
  split; [|split; [|split; [|split; [|split]]]].
  - intros b o. rewrite lookup_transfer. destruct (own g' !! b) as [[]|]; naive_solver.
  - by rewrite !length_insert, length_fmap.
  - apply list_eq. intros j. rewrite list_lookup_fmap. destruct (decide (j = i)) as [->|Hj].
    + rewrite !list_lookup_insert_eq by (rewrite length_fmap; by eapply lookup_lt_Some). done.
    + rewrite !list_lookup_insert_ne, !list_lookup_fmap by done. by destruct (gs !! j).
  - intros j q h Hq [(-> & ->)|(Hj & h0 & Hh0 & ->)]%Hgs.
    + rewrite list_lookup_insert_eq in Hq by (by eapply lookup_lt_Some). simplify_eq.
      split; [done|]. apply compat_sym. by eapply compat_transfer.
    + rewrite list_lookup_insert_ne in Hq by done. destruct (Hall _ _ _ Hq Hh0) as [Hrh Hch0].
      split; [|by apply compat_transfers].
      eapply (resting_transfer N N' g' m g m' h0 q); try done. by eapply Hch.
  - intros j k gj gk Hjk [(-> & ->)|(Hj & h0 & Hh0 & ->)]%Hgs [(-> & ->)|(Hk & h1 & Hh1 & ->)]%Hgs; [done|..].
    + eapply compat_transfer; [|done]. by eapply Hch.
    + apply compat_sym. eapply compat_transfer; [|done]. by eapply Hch.
    + apply compat_transfers. by eapply (Hcc j k).
  - intros b. rewrite lookup_transfer. destruct (own g' !! b) as [o|] eqn:E; [|done].
    assert (mine o -> exists j h o', (<[i := g']> (view g' <$> gs)) !! j = Some h /\ own h !! b = Some o' /\ mine o') as Hmine.
    { intros Hm. exists i, g', o. split; [|done]. apply list_lookup_insert_eq. rewrite length_fmap. by eapply lookup_lt_Some. }
    destruct o; try done; [intros _; apply Hmine; right; by eexists|intros _; apply Hmine; by left|].
    intros (j & h & o & Hh & Hb & Hm)%Hex. destruct (decide (j = i)) as [->|Hj].
    + exfalso. rewrite Hg in Hh. injection Hh as ->. destruct Hr as [_ Hr]. destruct (Hr b) as [_ Hr2]. rewrite (Hr2 E) in Hb.
      injection Hb as <-. destruct Hm as [?|[? ?]]; done.
    + exists j, (view g' h), o. rewrite list_lookup_insert_ne, list_lookup_fmap, Hh by done. split; [done|]. split; [|done].
      simpl. by rewrite lookup_transfer, E.
Qed.

Lemma size_resting N p m g : resting N p m g -> Z.of_nat N < 2 ^ 60 -> size_approx p = zlen (items (abs g)).
Proof.
  intros (pc & cs & Hv & _) HN. unfold size_approx.
  pose proof (v_tail _ _ _ _ Hv) as Ht. pose proof (v_head _ _ _ _ Hv) as Hh.
  pose proof (v_bound _ _ _ _ Hv). pose proof (tickets_head _ _ _ _ (v_tickets _ _ _ _ Hv)).
  simpl in Ht, Hh. rewrite Ht, Hh. unfold idx. rewrite circular_less_than_spec by lia.
  unfold zlen. simpl. rewrite length_drop.
  destruct (Z.ltb_spec (0 + Z.of_nat (length (heads g))) (0 + Z.of_nat (length (elems g)))); [|lia].
  rewrite u64_sub_l, u64_sub_r, u64_small; lia.
Qed.

#[export] Instance implicit_laws : SubQueueLaws ImplicitProducer (Pool A) A.
Proof.
  refine {| rep := shared; limit := 2 ^ 60 |}.
  - intros n ps m ls (_ & o0 & gs & _ & _ & Hlen & -> & _). by rewrite length_fmap.
  - intros n n' ps m ls Hn (Ho & o0 & gs & Hpo & Ho0 & Hlen & Hls & Hall & Hcc & Hex). split; [done|].
    exists o0, gs. do 4 (split; [done|]). split; [|by split]. intros i p g Hp Hg.
    destruct (Hall i p g Hp Hg) as [(pc & cs & Hv & Hrest) Hc]. split; [|done]. exists pc, cs.
    split; [|done]. by eapply inv_mono.
  - intros n ps m ls i p l (Ho & o0 & gs & Hpo & Ho0 & Hlen & -> & Hall & Hcc & Hex) Hn Hp Hl.
    rewrite list_lookup_fmap in Hl. destruct (gs !! i) as [g|] eqn:Hg; [|done]. injection Hl as <-.
    eapply size_resting; [by eapply Hall|done].
  - intros n ps m ls i p l p' m' r (Ho & o0 & gs & Hpo & Ho0 & Hlen & Hls & Hall & Hcc & Hex) Hn Hp Hl.
    pose proof Hl as Hl'. rewrite Hls, list_lookup_fmap in Hl'. destruct (gs !! i) as [g|] eqn:Hg; [|done].
    injection Hl' as <-. destruct (Hall i p g Hp Hg) as [(pc & cs & Hv & Hpc & Hcs & Hix) Hc].
    destruct (dequeue_alone 0 eq_refl n p m pc cs g Hv Hn Hcs) as (p1 & m1 & cs1 & g1 & Hrun & Hv1 & Hit & Hcs1 & Hr).
    pose proof (run_dequeue_index _ _ _ _ _ _ _ Hrun) as Hb.
    cbn [sq_dequeue implicit_subqueue]. rewrite Hrun. intros [= <- <- <-]. split; [done|]. change (drop _ _) with (items (abs g)). rewrite <- Hit.
    eapply (shared_act n); try done; [|lia]. exists pc, cs1. split; [done|]. split; [done|]. split; [done|congruence].
  - intros n ps m ls i p l v p' m' r (Ho & o0 & gs & Hpo & Ho0 & Hlen & Hls & Hall & Hcc & Hex) Hn Hp Hl.
    pose proof Hl as Hl'. rewrite Hls, list_lookup_fmap in Hl'. destruct (gs !! i) as [g|] eqn:Hg; [|done].
    injection Hl' as <-. destruct (Hall i p g Hp Hg) as [(pc & cs & Hv & Hpc & Hcs & Hix) Hc].
    destruct (enqueue_alone raw_value 0 eq_refl n p m pc cs g v Hv ltac:(lia) Hpc Hix)
      as (p1 & m1 & g1 & Hrun & Hv1 & Hit & Hix1 & Hr).
    cbn [sq_enqueue implicit_subqueue]. rewrite Hrun. intros [= <- <- <-]. split; [done|]. change (drop _ _) with (items (abs g)). rewrite <- Hit.
    eapply (shared_act n); try done; [|lia]. exists (PRet true), cs.
    split; [eapply inv_mono; [|exact Hv1]; lia|]. split; [by intros []|done].
Defined.

(** The queue as constructed, and a new sub-queue at the head of the list. *)
Lemma shared_empty mem count : 0 <= count < 2 ^ 64 -> shared 0 [] (populate_initial_block_list mem count) [].
Proof.
  intros Hc. destruct (pool_populate (A := A) mem count Hc) as (own & Hpo & Hown). split.
  - unfold populate_initial_block_list. by destruct (count =? 0), mem.
  - exists own, []. split; [done|]. split; [intros b o Hb; by rewrite (Hown b o Hb)|]. do 4 (split; [done|]).
    intros b Hb. by apply Hown in Hb.
Qed.

Lemma shared_new N ps m ls :
  shared N ps m ls -> shared N (ImplicitProducer_init raw_value true 0 :: ps) m ([] :: ls).
Proof.
  intros (Ho & o0 & gs & Hpo & Ho0 & Hlen & -> & Hall & Hcc & Hex). split; [done|].
  exists o0, (ghost_init true o0 :: gs). split; [done|]. split; [done|]. split; [simpl; lia|]. split; [done|].
  assert (compat o0 o0) as Hrefl.
  { intros b. destruct (o0 !! b) as [o|] eqn:E; [|done]. destruct (Ho0 b o E) as [Hp Hb].
    destruct o as [n| | | |]; try done. by destruct (Hb n). }
  split; [|split].
  - intros [|i] p g; simpl; [|apply Hall]. intros [= <-] [= <-]. split; [|done].
    exists PIdle, (fun _ => CIdle). split; [|split; [by intros []|split; [by intros t []|done]]].
    eapply inv_mono; [|by apply (init_inv raw_value true 0 m o0); [lia|..]]. lia.
  - assert (forall i g, gs !! i = Some g -> compat o0 (own g)) as Hc0.
    { intros i g Hg. destruct (lookup_lt_is_Some_2 ps i) as [p Hp]; [rewrite <- Hlen; by eapply lookup_lt_Some|].
      by eapply Hall. }
    intros [|i] [|j] gi gj Hij; simpl; [done|..].
    + intros [= <-] Hj. by eapply Hc0.
    + intros Hi [= <-]. apply compat_sym. by eapply Hc0.
    + intros Hi Hj. eapply (Hcc i j); [lia|done..].
  - intros b (i & g & o & Hg & Hb)%Hex. by exists (S i), g, o.
Qed.

Lemma shared_fresh mem count k :
  0 <= count < 2 ^ 64 ->
  shared 0 (replicate k (ImplicitProducer_init raw_value true 0)) (populate_initial_block_list mem count) (replicate k []).
Proof. intros Hc. induction k as [|k IH]; [by apply shared_empty|]. by apply shared_new. Qed.

(** C21: Calls of [enqueue] by [k] threads and of [try_dequeue], in any order, on a queue as
    constructed: every enqueue succeeds, a dequeue returns the oldest element some thread has
    enqueued and nobody has taken, and returns nothing only when all elements have been taken.
    The [k] sub-queues share one pool of blocks, take blocks from it and give them back. *)
Theorem queue_keeps_threads_in_order mem count k (cs : list (qcall A)) :
  0 <= count < 2 ^ 64 -> Forall (on_thread k) cs ->
  Z.of_nat (length cs * (15 * (1 + k))) < 2 ^ 60 ->
  fifos (replicate k []) cs
    (run_queue cs (replicate k (ImplicitProducer_init raw_value true 0)) (populate_initial_block_list mem count)).
Proof.
  intros Hc Hcs Hn. eapply (@run_queue_fifos _ _ _ _ implicit_laws _ 0); [by apply shared_fresh|..];
    by rewrite length_replicate.
Qed.

End Implicit.

(** ** Two enqueuing threads *)

(** A queue of 6 blocks with two sub-queues; 5 is enqueued on the older one first, then 6 on
    the newer one. *)
Definition two_threads : list ImplicitProducer * Pool Z :=
  let p := ImplicitProducer_init None true 0 in
  let '(p1, m, _) := enqueue None alone 5 p (populate_initial_block_list true 6) in
  let '(p0, m, _) := enqueue None alone 6 p m in
  ([p0; p1], m).

Lemma two_threads_rep :
  @rep _ _ _ (implicit_subqueue None) (implicit_laws None) 30 (fst two_threads) (snd two_threads) [[6]; [5]].
Proof.
  pose proof (shared_new None _ _ _ _ (shared_new None _ _ _ _ (shared_empty (A := Z) true 6 ltac:(lia)))) as H0.
  pose (p := ImplicitProducer_init None true 0).
  destruct (@sq_enqueue _ _ _ (implicit_subqueue None) 5 p (populate_initial_block_list true 6)) as [[p1 m1] r1] eqn:E1.
  destruct (@rep_enqueue _ _ _ _ (implicit_laws None) 0 _ _ _ 1 p [] 5 p1 m1 r1 H0 ltac:(simpl; lia) eq_refl eq_refl E1) as [-> H1].
  destruct (@sq_enqueue _ _ _ (implicit_subqueue None) 6 p m1) as [[p0 m0] r0] eqn:E0.
  destruct (@rep_enqueue _ _ _ _ (implicit_laws None) 15 _ _ _ 0 p [] 6 p0 m0 r0 H1 ltac:(simpl; lia) eq_refl eq_refl E0) as [-> H2].
  unfold two_threads. cbn [sq_enqueue implicit_subqueue] in E1, E0. fold p.
  destruct (enqueue None alone 5 p (populate_initial_block_list true 6)) as [[q1 n1] c1].
  injection E1 as -> -> _. destruct (enqueue None alone 6 p m1) as [[q0 n0] c0]. injection E0 as -> -> _.
  exact H2.
Qed.

(** Order is kept per enqueuing thread only: the element enqueued last comes out first. *)
Lemma threads_not_ordered :
  snd (@try_dequeue _ _ _ (implicit_subqueue None) (fst two_threads) (snd two_threads)) = Some 6.
Proof. vm_compute. reflexivity. Qed.

Lemma queue_keeps_threads_in_order_witness :
  let cs := replicate 40 (QEnqueue 1 5) ++ [QEnqueue 0 6] ++ replicate 42 QDequeue in
  fifos (replicate 2 []) cs
    (@run_queue _ _ _ (implicit_subqueue None) cs (replicate 2 (ImplicitProducer_init None true 0))
       (populate_initial_block_list true 1)) /\
  @run_queue _ _ _ (implicit_subqueue None) cs (replicate 2 (ImplicitProducer_init None true 0))
       (populate_initial_block_list true 1) =
  replicate 41 (QEnqueued true) ++ replicate 39 (QDequeued (Some 5)) ++
    [QDequeued (Some 6); QDequeued (Some 5); QDequeued None].
Proof.
  intros cs. split; [|vm_compute; reflexivity].
  apply (queue_keeps_threads_in_order None true 1 2 cs); [lia| |vm_compute; reflexivity].
  unfold cs. rewrite !Forall_app. repeat split; repeat (constructor; [simpl; lia|]); constructor.
Defined.
