(* ===== verification/CqDtor.v ===== *)
(** * Destroying the queue (lib/concurrentqueue/concurrentqueue.h)

    [~ImplicitProducer] destroys the elements nobody has taken and gives the blocks of the
    sub-queue back; [~ConcurrentQueue] destroys the sub-queues, the blocks of the free list that
    were allocated one by one, and the initial block pool.  No other thread uses the queue
    then.  [None] is an access to freed memory or to an empty slot.  The block index of a
    sub-queue and the tables from threads to sub-queues go with their owner. *)
From stdpp Require Import functions.
From S2P Require Import Prelude CqArith CqProducer CqInv CqIndex CqLin CqSub CqQueue.

(** The next step of an option program. *)
Ltac run := cbn [mbind option_bind mjoin option_join].

Section Dtor.
Context {A : Type}.

(** [get_block_index_entry_for_index(index)->value]. *)
Definition block_for_index (p : ImplicitProducer) (index : Z) : option nat :=
  h ← blockIndex p;
  H ← headers p !! h;
  te ← index_at H (header_tail H);
  E ← entries p !! te;
  e ← index_at H (block_index_position index (header_tail H) (key E) (capacity H));
  E ← entries p !! e;
  value E.

(** The block of [index], after giving back the one before it at a block boundary. *)
Definition next_block (p : ImplicitProducer) (index : Z) (block : option nat) (m : Pool A) : option (nat * Pool A) :=
  match block with
  | Some b =>
      if Z.land index (BLOCK_SIZE - 1) =? 0
      then m ← add_block_to_free_list b m; b ← block_for_index p index; Some (b, m)
      else Some (b, m)
  | None => b ← block_for_index p index; Some (b, m)
  end.

(** The loop over the remaining elements; the list holds the destroyed ones. *)
Fixpoint destroy_elements (fuel : nat) (p : ImplicitProducer) (index tail : Z) (block : option nat) (m : Pool A) :
    option (list A * Pool A) :=
  if index =? tail then Some ([], m)
  else
    match fuel with
    | O => None
    | S fuel =>
        '(b, m) ← next_block p index block m;
        B ← deref m b;
        v ← mjoin (elements B !! slot index);
        '(vs, m) ← destroy_elements fuel p (u64 (index + 1)) tail (Some b) (store_block b (set_slot index None B) m);
        Some (v :: vs, m)
    end.

Definition ImplicitProducer_dtor (p : ImplicitProducer) (m : Pool A) : option (list A * Pool A) :=
  let tail := tailIndex p in
  let index := headIndex p in
  let forceFreeLastBlock := negb (index =? tail) in
  '(vs, m) ← destroy_elements (Z.to_nat (u64 (tail - index))) p index tail None m;
  match tailBlock p with
  | Some b =>
      if forceFreeLastBlock || negb (Z.land tail (BLOCK_SIZE - 1) =? 0)
      then m ← add_block_to_free_list b m; Some (vs, m)
      else Some (vs, m)
  | None => Some (vs, m)
  end.

(** The producers, newest first. *)
Fixpoint destroy_producers (ps : list ImplicitProducer) (m : Pool A) : option (list A * Pool A) :=
  match ps with
  | [] => Some ([], m)
  | p :: ps =>
      '(vs, m) ← ImplicitProducer_dtor p m;
      '(vs', m) ← destroy_producers ps m;
      Some (vs ++ vs', m)
  end.

Fixpoint destroy_free_list (l : list nat) (m : Pool A) : option (Pool A) :=
  match l with
  | [] => Some m
  | b :: l =>
      B ← deref m b;
      destroy_free_list l (if dynamicallyAllocated B then with_blocks (fun bs => <[b := None]> bs) m else m)
  end.

(** [destroy_array(initialBlockPool, initialBlockPoolSize)]. *)
Definition destroy_initial_pool (m : Pool A) : Pool A :=
  with_blocks (imap (fun b B => if Z.of_nat b <? initialBlockPoolSize m then None else B)) m.

Definition ConcurrentQueue_dtor (ps : list ImplicitProducer) (m : Pool A) : option (list A * Pool A) :=
  '(vs, m) ← destroy_producers ps m;
  m ← destroy_free_list (freeList m) m;
  Some (vs, destroy_initial_pool m).

(** ** The state a destructor meets *)

Section Rest.
Context (start : Z) (Hstart : start mod 32 = 0).
Context (N : nat) (p : ImplicitProducer) (m : Pool A) (pc : ppc A) (cs : nat -> cpc A) (g : @ghost A).
Context (Hv : inv start N (mkSys p m pc cs) g) (HN : Z.of_nat N < 2 ^ 60).
Context (Hpc : ~ enqueuing pc) (Hcs : forall t, ~ running (cs t)).

Notation top := (length (elems g)).
Notation bot := (length (heads g)).

Lemma rest_idle t : gcs g t = GIdle.
Proof.
  pose proof (v_conc _ _ _ _ Hv t) as Hc. specialize (Hcs t). simpl in Hc.
  destruct (gcs g t); simpl in Hc; try done;
    repeat match goal with H : exists _, _ |- _ => destruct H | H : _ /\ _ |- _ => destruct H end;
    match goal with H : cs t = _ |- _ => rewrite H in Hcs end; by destruct Hcs.
Qed.

Lemma rest_done k x : heads g !! k = Some x -> x = Done.
Proof.
  intros Hk. destruct x as [tid|tid|]; [..|done];
    apply (ix_tid _ _ (v_indices _ _ _ _ Hv) _ _ tid) in Hk; try done; by rewrite rest_idle in Hk.
Qed.

Lemma rest_size : (bot <= top <= 32 * length (binfo g) /\ 32 * length (binfo g) < top + 32)%nat.
Proof.
  pose proof (tickets_head _ _ _ _ (v_tickets _ _ _ _ Hv)). pose proof (pr_size _ _ _ _ _ (v_producer _ _ _ _ Hv)) as Hs.
  simpl in Hs. destruct pc; simpl in Hs; try done; try lia; by destruct Hpc.
Qed.

(** The blocks that are still in use start with the one of the oldest element. *)
Lemma rest_block n b st :
  binfo g !! n = Some (b, st) -> st = (if decide (bot / 32 <= n)%nat then Live else Gone).
Proof.
  intros Hn. pose proof (bk_live _ _ _ _ _ _ (v_blocks _ _ _ _ Hv) _ _ _ Hn) as Hl. simpl in Hl.
  assert (st = Live \/ st = Gone) as Hor.
  { destruct st as [|t|t|]; [by left|exfalso|exfalso|by right];
      [assert (blk_of t (gcs g t) = Some (n, Clearing t)) as Hx|assert (blk_of t (gcs g t) = Some (n, Freeing t)) as Hx];
      try (apply (bk_tid _ _ _ _ _ _ (v_blocks _ _ _ _ Hv)); [done|by exists b]); by rewrite rest_idle in Hx. }
  destruct (decide (bot / 32 <= n)%nat) as [Hle|Hgt].
  - apply Hl. pose proof (Nat.div_mod bot 32 ltac:(done)). pose proof (Nat.mod_upper_bound bot 32 ltac:(done)).
    apply (count_seg_lt _ _ _ (32 * n + 31)%nat).
    + symmetry. apply (Nat.div_unique _ 32 n 31); lia.
    + intros x Hx. apply lookup_lt_Some in Hx. lia.
  - destruct Hor as [-> | ->]; [exfalso|done]. assert (done_in (heads g) n < 32)%nat as Hlt by (by apply Hl).
    pose proof (Nat.div_mod bot 32 ltac:(done)).
    assert (done_in (heads g) n = 32)%nat; [|lia]. unfold done_in.
    assert (length (seg n (heads g)) = 32)%nat as Hlen by (unfold seg; rewrite length_take, length_drop; lia).
    rewrite <- Hlen. assert (forall l : list idx_state, (forall x, x ∈ l -> x = Done) -> count is_done l = length l) as Hall.
    { induction l as [|y l IH]; intros Hx; simpl; [done|]. rewrite (Hx y) by left. simpl. f_equal. apply IH. intros z Hz. apply Hx. by right. }
    apply Hall. intros x Hx. unfold seg in Hx. apply elem_of_take in Hx as (i & Hi & _). rewrite lookup_drop in Hi.
    by eapply rest_done.
Qed.

(** The block of an element that nobody has taken, as the index finds it. *)
Lemma rest_find k :
  (bot <= k < top)%nat ->
  exists b, binfo g !! (k / 32)%nat = Some (b, Live) /\ block_for_index p (idx start k) = Some b.
Proof.
  intros Hk. pose proof rest_size as Hs. pose proof (v_index _ _ _ _ Hv) as Hi. simpl in Hi.
  assert (k / 32 < length (binfo g))%nat as Hlt by (apply Nat.Div0.div_lt_upper_bound; lia).
  destruct (lookup_lt_is_Some_2 (binfo g) (k / 32)%nat Hlt) as [[b st] Hbi]. exists b.
  assert (st = Live) as ->.
  { rewrite (rest_block _ _ _ Hbi), decide_True; [done|]. apply Nat.Div0.div_le_mono. lia. }
  split; [done|].
  assert (lo g <= k / 32)%nat as Hlo.
  { destruct (decide (lo g <= k / 32)%nat); [done|].
    destruct (in_cleared _ _ _ _ _ _ Hi (k / 32)%nat ltac:(lia)) as (b' & st & Hbi' & Hst). by simplify_eq. }
  pose proof (in_ents _ _ _ _ _ _ Hi) as Hents.
  destruct (lookup_lt_is_Some_2 (ents g) (k / 32)%nat ltac:(lia)) as [e He].
  destruct (in_value _ _ _ _ _ _ Hi _ _ _ _ Hlo He Hbi) as (E & HE & HvE).
  destruct (pr_current _ _ _ _ _ (v_producer _ _ _ _ Hv)) as [(_ & Hn & _)|(i & Hd & Hcur & _)].
  { rewrite Hn in He. done. }
  assert (advanced pc = false) as Hadv by (destruct pc; try done; by destruct Hpc). simpl in Hcur. rewrite Hadv in Hcur.
  pose proof (current_hdr _ _ _ _ _ _ _ _ _ Hi Hcur) as Hh. pose proof (hk_tail _ _ _ _ _ Hh) as Ht.
  destruct (lookup_lt_is_Some_2 (ents g) (length (binfo g) - 1)%nat ltac:(lia)) as [te Hte].
  destruct (in_key _ _ _ _ _ _ Hi (length (binfo g) - 1)%nat te ltac:(lia) Hte) as (E' & HE' & Hk').
  destruct (hk_cap _ _ _ _ _ Hh) as (kk & Hkk & Hcap). pose proof (v_bound _ _ _ _ Hv) as Hbd.
  unfold block_for_index. rewrite (cu_index _ _ _ _ _ _ _ _ Hcur). simpl. rewrite (cu_header _ _ _ _ _ _ _ _ Hcur). simpl.
  assert (index_at Hd (header_tail Hd) = Some te) as ->.
  { rewrite <- Hte, <- (hk_index _ _ _ _ _ Hh) by lia. f_equal.
    replace (header_tail Hd - _) with (header_tail Hd) by lia. by rewrite Z.mod_small by lia. }
  simpl. rewrite HE'. simpl. rewrite Hk', Hcap. unfold idx. rewrite block_index_position_spec; [|done|lia| |lia].
  - assert (index_at Hd ((header_tail Hd - (Z.of_nat (length (binfo g) - 1) - Z.of_nat k / 32)) mod 2 ^ kk) = Some e) as ->.
    { rewrite <- He, <- (hk_index _ _ _ _ _ Hh) by lia. rewrite Hcap. do 2 f_equal.
      rewrite Nat2Z.inj_div. lia. }
    simpl. by rewrite HE.
  - change 32 with (Z.of_nat 32). rewrite <- Nat2Z.inj_div. lia.
Qed.

(** ** Clearing

    The elements from number [k] on are in their slots, the blocks from number [f] on are still
    the sub-queue's. *)
Record clearing (f k : nat) (m' : Pool A) (o : gmap nat owner) : Prop := {
  cl_pool : pool_ok m' o;
  cl_others : others m' = others m;
  cl_own n b st : binfo g !! n = Some (b, st) -> (f <= n)%nat -> o !! b = Some (OwnBlock n);
  cl_back b n : o !! b = Some (OwnBlock n) -> (f <= n)%nat /\ own g !! b = Some (OwnBlock n);
  cl_slot k' b st :
    (k <= k' < top)%nat -> binfo g !! (k' / 32)%nat = Some (b, st) ->
    exists B, deref m' b = Some B /\ elements B !! (k' mod 32)%nat = Some (elems g !! k');
  cl_keep b : own g !! b = Some OwnOther -> o !! b = Some OwnOther /\ deref m' b = deref m b;
  cl_other b : o !! b = Some OwnOther -> own g !! b = Some OwnOther;
  cl_private b : o !! b <> Some OwnPrivate }.

Lemma clearing_start : clearing (bot / 32) bot m (own g).
Proof.
  pose proof (v_blocks _ _ _ _ Hv) as Hb. pose proof rest_size as Hs. simpl in Hb.
  assert (forall n b st, binfo g !! n = Some (b, st) -> (bot / 32 <= n)%nat -> st = Live) as Hlive.
  { intros n b st Hn Hle. by rewrite (rest_block _ _ _ Hn), decide_True. }
  split; try done.
  - apply (v_pool _ _ _ _ Hv).
  - intros n b st Hn Hle. eapply (bk_own _ _ _ _ _ _ Hb); [done|]. by rewrite (Hlive _ _ _ Hn Hle).
  - intros b n Hown. split; [|done]. destruct (bk_back _ _ _ _ _ _ Hb _ _ Hown) as (st & Hn & Hst).
    rewrite (rest_block _ _ _ Hn) in Hst. by destruct (decide _).
  - intros k b st Hk Hn. assert (bot / 32 <= k / 32)%nat as Hle by (apply Nat.Div0.div_le_mono; lia).
    destruct (bk_mem _ _ _ _ _ _ Hb _ _ _ Hn) as (B & HB & _ & _ & Hsl); [by rewrite (Hlive _ _ _ Hn Hle)|].
    exists B. split; [done|]. apply Hsl; [done|lia|]. intros x Hx. apply lookup_lt_Some in Hx. lia.
  - intros b Hx. apply (pr_private _ _ _ _ _ (v_producer _ _ _ _ Hv)) in Hx. simpl in Hx.
    destruct pc; try done; by destruct Hpc.
Qed.

(** A block whose elements are all destroyed is given back. *)
Lemma clearing_free f k m' o b st :
  clearing f k m' o -> binfo g !! f = Some (b, st) -> (forall k', (k <= k' < top)%nat -> (f < k' / 32)%nat) ->
  exists m1 o1, add_block_to_free_list b m' = Some m1 /\ clearing (S f) k m1 o1.
Proof.
  intros [Hpo Hot Hown Hback Hsl Hkeep Hother Hpriv] Hf Hk. pose proof (Hown _ _ _ Hf ltac:(lia)) as Hb.
  destruct (give_back_ok m' o b (OwnBlock f)) as (m1 & o1 & Hadd & Hpo1 & Hot1 & Hsame & Hgone); [done|done|done|done|..].
  { intros Hin. apply (po_others _ _ Hpo) in Hin. congruence. }
  exists m1, o1. split; [done|].
  assert (forall b', b' <> b -> deref m1 b' = deref m' b') as Hder by (intros b' Hne; by eapply give_back_deref).
  assert (forall b' x, o1 !! b' = Some x -> x <> OwnFree -> b' <> b /\ o !! b' = Some x) as Hold.
  { intros b' x Hx Hne. assert (b' <> b) as Hbb by (intros ->; destruct Hgone; congruence). by rewrite Hsame in Hx. }
  assert (forall n b' st', binfo g !! n = Some (b', st') -> (f <= n)%nat -> n <> f -> b' <> b) as Hdist.
  { intros n b' st' Hn Hle Hne ->. pose proof (Hown _ _ _ Hn Hle). congruence. }
  split; [done|congruence|..].
  - intros n b' st' Hn Hle. assert (b' <> b) as Hne by (eapply Hdist; [done|lia|lia]). rewrite Hsame by done. eapply Hown; [done|lia].
  - intros b' n [Hbb Hx]%Hold; [|done]. destruct (Hback _ _ Hx) as [Hle Hg]. split; [|done].
    destruct (decide (n = f)) as [->|]; [|lia]. exfalso. apply Hbb.
    destruct (bk_back _ _ _ _ _ _ (v_blocks _ _ _ _ Hv) _ _ Hg) as (st' & Hn & _). congruence.
  - intros k' b' st' Hk' Hn. destruct (Hsl k' b' st' Hk' Hn) as (B & HB & Hel). exists B. split; [|done].
    specialize (Hk k' Hk'). rewrite Hder; [done|]. eapply Hdist; [done|lia|lia].
  - intros b' Hx. destruct (Hkeep _ Hx) as [H1 H2]. assert (b' <> b) as Hne by congruence. by rewrite Hsame, Hder.
  - intros b' [_ Hx]%Hold; [|done]. by apply Hother.
  - intros b' [_ Hx]%Hold; [|done]. by apply (Hpriv b').
Qed.

(** An element is destroyed. *)
Lemma clearing_take f k m' o b :
  clearing f k m' o -> (k < top)%nat -> (f <= k / 32)%nat -> binfo g !! (k / 32)%nat = Some (b, Live) ->
  exists B v, deref m' b = Some B /\ elements B !! slot (idx start k) = Some (Some v) /\ elems g !! k = Some v /\
    clearing f (S k) (store_block b (set_slot (idx start k) None B) m') o.
Proof.
  intros [Hpo Hot Hown Hback Hsl Hkeep Hother Hpriv] Hk Hf Hb.
  destruct (Hsl k b Live ltac:(lia) Hb) as (B & HB & Hel). destruct (lookup_lt_is_Some_2 (elems g) k Hk) as [v Hvk].
  exists B, v. rewrite slot_idx by done. split; [done|]. split; [congruence|]. split; [done|].
  pose proof (Hown _ _ _ Hb Hf) as Ho.
  assert (forall b', deref (store_block b (set_slot (idx start k) None B) m') b' =
    if decide (b = b') then Some (set_slot (idx start k) None B) else deref m' b') as Hder by (intros b'; apply deref_store; by rewrite HB).
  split; try done.
  - apply pool_store; [done|by exists B|]. simpl. rewrite length_insert.
    destruct (po_live _ _ Hpo _ _ Ho) as (B' & HB' & Hlen). congruence.
  - intros k' b' st Hk' Hn. destruct (Hsl k' b' st ltac:(lia) Hn) as (B' & HB' & Hel'). rewrite Hder.
    case_decide as Hd; [|by exists B']. subst b'. assert (B' = B) as -> by congruence. eexists. split; [done|].
    cbn [set_slot elements]. rewrite slot_idx by done. rewrite list_lookup_insert_ne; [done|]. intros Hm.
    assert (k' / 32 = k / 32)%nat as Hdiv.
    { assert (f <= k' / 32)%nat as Hle by (pose proof (Nat.Div0.div_le_mono k k' 32 ltac:(lia)); lia).
      pose proof (Hown _ _ _ Hn Hle). congruence. }
    pose proof (Nat.div_mod k' 32 ltac:(done)). pose proof (Nat.div_mod k 32 ltac:(done)). lia.
  - intros b' Hx. destruct (Hkeep _ Hx) as [H1 H2]. split; [done|]. rewrite Hder, decide_False by congruence. done.
Qed.

Lemma idx_eqb k t : (k <= t)%nat -> Z.of_nat t < 2 ^ 60 -> (idx start k =? idx start t) = bool_decide (k = t).
Proof.
  intros Hk Ht. case_bool_decide as Hd; [subst; apply Z.eqb_refl|]. apply Z.eqb_neq. unfold idx, u64. intros Heq.
  assert ((Z.of_nat t - Z.of_nat k) mod 2 ^ 64 = 0) as H0.
  { replace (Z.of_nat t - Z.of_nat k) with ((start + Z.of_nat t) - (start + Z.of_nat k)) by lia.
    rewrite Zminus_mod, Heq, Z.sub_diag. done. }
  rewrite Z.mod_small in H0; lia.
Qed.

(** Where the loop stands before element [k]: the block it works on. *)
Definition at_block (k f : nat) (block : option nat) : Prop :=
  match block with
  | None => f = (k / 32)%nat
  | Some b => (0 < k)%nat /\ f = ((k - 1) / 32)%nat /\ binfo g !! f = Some (b, Live)
  end.

Lemma clearing_next f k m' o block :
  clearing f k m' o -> (bot <= k < top)%nat -> at_block k f block ->
  exists b m1 o1, next_block p (idx start k) block m' = Some (b, m1) /\ clearing (k / 32) k m1 o1 /\
    binfo g !! (k / 32)%nat = Some (b, Live).
Proof.
  intros Hc Hk Hat. destruct (rest_find k Hk) as (b & Hb & Hfind). unfold next_block.
  destruct block as [b0|]; [|exists b, m', o; rewrite Hfind; simpl in *; by subst].
  destruct Hat as (Hpos & Hf & Hb0). rewrite (idx_aligned start N Hstart).
  case_bool_decide as Hal.
  - assert (f = k / 32 - 1 /\ 0 < k / 32)%nat as [Hf' Hk0].
    { pose proof (Nat.div_mod k 32 ltac:(done)). split; [|lia]. rewrite Hf.
      symmetry. apply (Nat.div_unique _ 32 _ 31); lia. }
    destruct (clearing_free f k m' o b0 Live Hc Hb0) as (m1 & o1 & Hadd & Hc1).
    { intros k' Hk'. pose proof (Nat.Div0.div_le_mono k k' 32 ltac:(lia)). lia. }
    exists b, m1, o1. split; [by rewrite Hadd; simpl; rewrite Hfind|]. split; [|done].
    by replace (k / 32)%nat with (S f) by lia.
  - assert (f = k / 32)%nat as Hf'.
    { pose proof (Nat.div_mod k 32 ltac:(done)). pose proof (Nat.mod_upper_bound k 32 ltac:(done)). rewrite Hf. symmetry.
      apply (Nat.div_unique _ 32 _ (k mod 32 - 1)); lia. }
    exists b0, m', o. rewrite <- Hf'. by split.
Qed.

Lemma clearing_loop n k f m' o block :
  (k + n = top)%nat -> (bot <= k)%nat -> clearing f k m' o -> at_block k f block ->
  exists m1 o1, destroy_elements n p (idx start k) (idx start top) block m' = Some (drop k (elems g), m1) /\
    clearing (if decide (n = 0)%nat then f else ((top - 1) / 32)%nat) top m1 o1.
Proof.
  revert k f m' o block. induction n as [|n IH]; intros k f m' o block Hn Hk Hc Hat;
    pose proof (v_bound _ _ _ _ Hv) as Hbd; cbn [destroy_elements]; rewrite idx_eqb by lia.
  - rewrite bool_decide_true by lia. exists m', o. replace k with top in * by lia. by rewrite drop_all.
  - rewrite bool_decide_false by lia.
    destruct (clearing_next f k m' o block Hc ltac:(lia) Hat) as (b & m1 & o1 & Hnx & Hc1 & Hb). rewrite Hnx. run.
    destruct (clearing_take _ _ _ _ _ Hc1 ltac:(lia) ltac:(done) Hb) as (B & v & HB & Hel & Hvk & Hc2).
    rewrite HB. run. rewrite Hel. run. rewrite idx_succ.
    destruct (IH (S k) (k / 32)%nat (store_block b (set_slot (idx start k) None B) m1) o1 (Some b)) as (m2 & o2 & Hd & Hc3);
      [lia|lia|done|split; [lia|]; split; [f_equal; lia|done]|].
    rewrite Hd. run. exists m2, o2. split; [by rewrite (drop_S _ _ _ Hvk)|].
    rewrite decide_False by done. destruct (decide (n = 0)%nat) as [->|]; [|done].
    replace (top - 1)%nat with k by lia. done.
Qed.

Lemma clearing_rest m' o b n : clearing (length (binfo g)) top m' o -> o !! b <> Some (OwnBlock n).
Proof.
  intros Hc [Hle Hg]%(cl_back _ _ _ _ Hc). destruct (bk_back _ _ _ _ _ _ (v_blocks _ _ _ _ Hv) _ _ Hg) as (st & Hn & _).
  apply lookup_lt_Some in Hn. lia.
Qed.

(** The destructor destroys the elements that were left, in order, and no block stays with the
    sub-queue. *)
Lemma subqueue_dtor_ok :
  exists m' o', ImplicitProducer_dtor p m = Some (drop bot (elems g), m') /\ clearing (length (binfo g)) top m' o'.
Proof.
  pose proof (v_tail _ _ _ _ Hv) as Ht. pose proof (v_head _ _ _ _ Hv) as Hh. simpl in Ht, Hh.
  pose proof (v_bound _ _ _ _ Hv) as Hbd. pose proof rest_size as Hs.
  assert (Z.to_nat (u64 (tailIndex p - headIndex p)) = top - bot)%nat as Hfuel.
  { rewrite Ht, Hh. unfold idx. rewrite u64_sub_l, u64_sub_r, u64_small; lia. }
  unfold ImplicitProducer_dtor. rewrite Hfuel, Ht, Hh, idx_eqb by lia.
  destruct (clearing_loop (top - bot) bot (bot / 32) m (own g) None) as (m1 & o1 & Hd & Hc);
    [lia|done|apply clearing_start|done|].
  rewrite Hd. run. rewrite (idx_aligned start N Hstart).
  pose proof (Nat.div_mod top 32 ltac:(done)) as Hdm. pose proof (Nat.mod_upper_bound top 32 ltac:(done)) as Hmb.
  destruct (decide (bot = top /\ top mod 32 = 0)%nat) as [[He Hm]|Hlast].
  - rewrite bool_decide_true, bool_decide_true by done. cbn [negb orb]. exists m1, o1. split; [by destruct (tailBlock p)|].
    rewrite decide_True in Hc by lia. rewrite He in Hc. by replace (length (binfo g)) with (top / 32)%nat by lia.
  - assert ((if decide (top - bot = 0)%nat then (bot / 32)%nat else ((top - 1) / 32)%nat) = (length (binfo g) - 1)%nat
      /\ (0 < length (binfo g))%nat) as [HF Hpos].
    { destruct (decide (top - bot = 0)%nat).
      - replace bot with top by lia. assert (top mod 32 <> 0)%nat by (intros ?; apply Hlast; split; lia). lia.
      - split; [|lia]. symmetry. apply (Nat.div_unique _ 32 _ (top - 1 - 32 * (length (binfo g) - 1))); lia. }
    rewrite HF in Hc. destruct (lookup_lt_is_Some_2 (binfo g) (length (binfo g) - 1)%nat ltac:(lia)) as [[b st] Hb].
    pose proof (pr_last _ _ _ _ _ (v_producer _ _ _ _ Hv) _ _ Hb) as Htb. simpl in Htb. rewrite Htb.
    destruct (clearing_free _ _ _ _ _ _ Hc Hb) as (m2 & o2 & Hadd & Hc2); [intros k' Hk'; lia|].
    replace (S (length (binfo g) - 1)) with (length (binfo g)) in Hc2 by lia.
    exists m2, o2. split; [|done].
    assert (negb (bool_decide (bot = top)) || negb (bool_decide (top mod 32 = 0)%nat) = true) as ->.
    { repeat case_bool_decide; try done. by destruct Hlast. }
    by rewrite Hadd.
Qed.

End Rest.

(** ** The sub-queues of a queue, one after the other *)

Lemma shared_destroy N p ps m ls :
  shared N (p :: ps) m ls -> Z.of_nat N < 2 ^ 60 ->
  exists l ls' m', ls = l :: ls' /\ ImplicitProducer_dtor p m = Some (l, m') /\ shared (S N) ps m' ls'.
Proof.
  intros (Ho & o0 & gs & Hpo & Ho0 & Hlen & -> & Hall & Hcc & Hex) HN. destruct gs as [|g gs]; [done|].
  destruct (Hall 0%nat p g eq_refl eq_refl) as [(pc & cs & Hv & Hpc & Hcs & _) Hc0].
  destruct (subqueue_dtor_ok 0 eq_refl N p m pc cs g Hv HN Hpc Hcs) as (m' & o' & Hd & Hcl).
  pose proof (fun b n => clearing_rest 0 N p m pc cs g Hv m' o' b n Hcl) as Hnone. apply compat_sym in Hc0.
  destruct Hcl as [Hpo' Hot _ _ _ Hkeep Hother Hpriv].
  set (g' := with_index g (binfo g) (ents g) (lo g) (tops g) o').
  assert (respects g m g' m') as Hr by (split; [done|]; intros b; split; [apply Hkeep|apply Hother]).
  assert (forall j h, gs !! j = Some h -> compat (own g) (own h)) as Hch by (intros j h Hh; by apply (Hcc 0%nat (S j))).
  exists (drop (length (heads g)) (elems g)), ((fun g => items (abs g)) <$> gs), m'. split; [done|]. split; [done|]. split; [congruence|].
  exists (transfer o' o0), (view g' <$> gs).
  split; [apply (pool_transfer m' o' o0); [done|congruence|]; intros b; by apply (compat_other g g' m m')|].
  split; [|split; [|split; [|split; [|split]]]].
  - intros b o. rewrite lookup_transfer. destruct (o' !! b) as [[]|]; naive_solver.
  - rewrite length_fmap. by injection Hlen.
  - rewrite <- list_fmap_compose. apply list_fmap_ext. by intros.
  - intros i q h Hq. rewrite list_lookup_fmap. destruct (gs !! i) as [h0|] eqn:Hh; [|done]. intros [= <-].
    destruct (Hall (S i) q h0 Hq Hh) as [Hrest Hc]. split; [|by apply compat_transfers].
    eapply (resting_transfer N (S N) g' m g m' h0 q); try done; [by eapply Hch|congruence|lia].
  - intros i j gi gj Hij. rewrite !list_lookup_fmap.
    destruct (gs !! i) as [hi|] eqn:Hi, (gs !! j) as [hj|] eqn:Hj; try done. intros [= <-] [= <-].
    apply compat_transfers. apply (Hcc (S i) (S j)); [lia|done|done].
  - intros b. rewrite lookup_transfer. destruct (o' !! b) as [[n| | | |]|] eqn:E; try done; [by destruct (Hnone b n)|by destruct (Hpriv b)|].
    intros (j & h & o & Hh & Hb & Hm)%Hex. destruct j as [|j]; simpl in Hh.
    + injection Hh as <-. rewrite (Hother _ E) in Hb. injection Hb as <-. destruct Hm as [?|[? ?]]; done.
    + exists j, (view g' h), o. rewrite list_lookup_fmap, Hh. split; [done|]. split; [|done].
      simpl. by rewrite lookup_transfer, E.
Qed.

Lemma destroy_producers_ok ps N m ls :
  shared N ps m ls -> Z.of_nat (N + length ps) < 2 ^ 60 ->
  exists m' o, destroy_producers ps m = Some (mjoin ls, m') /\ pool_ok m' o /\
    forall b x, o !! b = Some x -> x = OwnFree \/ x = OwnPool.
Proof.
  revert N m ls. induction ps as [|p ps IH]; intros N m ls Hsh HN; cbn [destroy_producers].
  - destruct Hsh as (_ & o0 & gs & Hpo & Ho0 & Hlen & -> & _ & _ & Hex). destruct gs; [|done].
    exists m, o0. split; [done|]. split; [done|]. intros b x Hb. destruct (Ho0 b x Hb) as [Hp Hn].
    destruct x as [n| | | |]; auto; [by destruct (Hn n)|done|]. by apply Hex in Hb as (? & ? & ? & ? & _).
  - destruct (shared_destroy N p ps m ls Hsh) as (l & ls' & m1 & -> & Hd & Hsh'); [simpl in HN; lia|].
    rewrite Hd. run. destruct (IH (S N) m1 ls' Hsh') as (m2 & o & Hd' & Hpo & Ho); [simpl in HN; lia|].
    rewrite Hd'. run. by exists m2, o.
Qed.

(** The blocks of the free list are those of the initial pool. *)
Lemma destroy_free_list_ok (m : Pool A) o l :
  pool_ok m o -> (forall b, b ∈ l -> b ∈ freeList m) -> destroy_free_list l m = Some m.
Proof.
  intros Hpo. induction l as [|b l IH]; intros Hl; cbn [destroy_free_list]; [done|].
  pose proof (po_free _ _ Hpo b (Hl b (list_elem_of_here _ _))) as Hb. destruct (po_live _ _ Hpo _ _ Hb) as (B & HB & _).
  rewrite HB. run. rewrite (proj2 (po_home _ _ Hpo _ _ HB)); [|apply (po_static _ _ Hpo); by left].
  apply IH. intros b' Hb'. apply Hl. by right.
Qed.

Lemma destroy_initial_pool_deref (m : Pool A) b :
  deref (destroy_initial_pool m) b = if Z.of_nat b <? initialBlockPoolSize m then None else deref m b.
Proof.
  unfold deref, destroy_initial_pool, with_blocks. cbn [blocks]. rewrite list_lookup_imap.
  destruct (blocks m !! b) as [B|]; [|by destruct (_ <? _)]. simpl. by destruct (_ <? _).
Qed.

(** The destructor of the queue destroys all the elements left and frees all blocks. *)
Lemma ConcurrentQueue_dtor_ok N ps m ls :
  shared N ps m ls -> Z.of_nat (N + length ps) < 2 ^ 60 ->
  exists m', ConcurrentQueue_dtor ps m = Some (mjoin ls, m') /\ forall b, deref m' b = None.
Proof.
  intros Hsh HN. destruct (destroy_producers_ok ps N m ls Hsh HN) as (m1 & o & Hd & Hpo & Ho).
  unfold ConcurrentQueue_dtor. rewrite Hd. run. rewrite (destroy_free_list_ok m1 o) by done. run.
  eexists. split; [done|]. intros b. rewrite destroy_initial_pool_deref. destruct (Z.ltb_spec (Z.of_nat b) (initialBlockPoolSize m1)); [done|].
  destruct (deref m1 b) as [B|] eqn:HB; [exfalso|done].
  destruct (po_owned _ _ Hpo b ltac:(by rewrite HB)) as [x Hx]. pose proof (po_static _ _ Hpo b) as Hs.
  rewrite Hx in Hs. destruct (Ho _ _ Hx) as [-> | ->]; [specialize (Hs (or_introl eq_refl))|specialize (Hs (or_intror eq_refl))]; lia.
Qed.

End Dtor.

(** ** The whole life of a queue *)

Section Life.
Context {P M A : Type} `{SubQueue P M A}.

(** The state after the calls of [run_queue]. *)
Fixpoint queue_after (cs : list (qcall A)) (ps : list P) (m : M) : list P * M :=
  match cs with
  | [] => (ps, m)
  | QEnqueue i v :: cs =>
      match ps !! i with
      | None => (ps, m)
      | Some p => let '(p, m, _) := sq_enqueue v p m in queue_after cs (<[i := p]> ps) m
      end
  | QDequeue :: cs => let '(ps, m, _) := try_dequeue ps m in queue_after cs ps m
  end.

Definition enqueued (cs : list (qcall A)) : list A :=
  omap (fun c => match c with QEnqueue _ v => Some v | QDequeue => None end) cs.

Definition dequeued (rs : list (qres A)) : list A :=
  omap (fun r => match r with QDequeued r => r | QEnqueued _ => None end) rs.

Lemma mjoin_insert (ls : list (list A)) i l l' k :
  ls !! i = Some l -> k ++ l' ≡ₚ l -> k ++ mjoin (<[i := l']> ls) ≡ₚ mjoin ls.
Proof.
  revert i. induction ls as [|x ls IH]; intros [|i] Hi Hp; try done; cbn [list_insert insert].
  - injection Hi as ->. change (k ++ l' ++ mjoin ls ≡ₚ l ++ mjoin ls). by rewrite app_assoc, Hp.
  - change (k ++ x ++ mjoin (<[i := l']> ls) ≡ₚ x ++ mjoin ls). rewrite <- (IH i Hi Hp). by rewrite !app_assoc, (Permutation_app_comm k x).
Qed.

Context `{!SubQueueLaws P M A}.

Lemma queue_after_rep cs n ps m ls :
  rep n ps m ls -> Z.of_nat (n + length cs * (15 * (1 + length ls))) < limit ->
  Forall (on_thread (length ls)) cs ->
  exists ls', length ls' = length ls /\
    rep (n + length cs * (15 * (1 + length ls))) (fst (queue_after cs ps m)) (snd (queue_after cs ps m)) ls' /\
    dequeued (run_queue cs ps m) ++ mjoin ls' ≡ₚ mjoin ls ++ enqueued cs.
Proof.
  revert n ps m ls. induction cs as [|[i v|] cs IH]; intros n ps m ls Hrep Hn Hcs; cbn [run_queue queue_after length] in *;
    [exists ls; rewrite Nat.add_0_r, app_nil_r; by split|..]; apply Forall_cons in Hcs as [Hc Hcs].
  - destruct (lookup_lt_is_Some_2 ls i Hc) as [l Hl].
    destruct (lookup_lt_is_Some_2 ps i) as [p Hp]; [by rewrite (rep_length _ _ _ _ Hrep)|].
    rewrite Hp. destruct (sq_enqueue v p m) as [[p' m'] ok] eqn:He.
    destruct (rep_enqueue _ _ _ _ _ _ _ _ _ _ _ Hrep ltac:(lia) Hp Hl He) as [-> Hrep'].
    destruct (IH (n + 15)%nat _ _ _ Hrep') as (ls' & Hlen & Hrep2 & Hperm); rewrite ?length_insert in *; [lia|done|].
    exists ls'. split; [done|]. split; [eapply rep_mono; [|exact Hrep2]; lia|].
    change (dequeued (run_queue cs (<[i:=p']> ps) m') ++ mjoin ls' ≡ₚ mjoin ls ++ v :: enqueued cs).
    rewrite Hperm, <- (Permutation_middle (mjoin ls)), app_comm_cons. f_equiv.
    pose proof (mjoin_insert (<[i := l ++ [v]]> ls) i (l ++ [v]) l [v]) as Hj.
    rewrite list_insert_insert_eq, (list_insert_id ls i l Hl) in Hj. symmetry. apply Hj.
    + rewrite list_lookup_insert_eq by (by eapply lookup_lt_Some). done.
    + apply Permutation_app_comm.
  - destruct (try_dequeue ps m) as [[ps' m'] r] eqn:Hd.
    pose proof (try_dequeue_takes n ps m ls ps' m' r Hrep ltac:(lia) Hd) as Hspec. destruct r as [v|].
    + destruct Hspec as (ls1 & (i & l & Hl & ->) & Hrep').
      destruct (IH _ _ _ _ Hrep') as (ls' & Hlen & Hrep2 & Hperm); rewrite ?length_insert in *; [lia|done|].
      exists ls'. split; [done|]. split; [eapply rep_mono; [|exact Hrep2]; lia|].
      change ([v] ++ (dequeued (run_queue cs ps' m') ++ mjoin ls') ≡ₚ mjoin ls ++ enqueued cs).
      rewrite Hperm, app_assoc. f_equiv. by apply (mjoin_insert ls i (v :: l)).
    + destruct Hspec as [Hempty Hrep'].
      destruct (IH _ _ _ _ Hrep') as (ls' & Hlen & Hrep2 & Hperm); [lia|done|].
      exists ls'. split; [done|]. split; [eapply rep_mono; [|exact Hrep2]; lia|done].
Qed.

End Life.

(** C22: The life of a queue: constructed, used by [k] enqueuing threads and any dequeuing ones,
    one call after the other, and destroyed.  The destructor reads no freed block and no empty
    slot; each enqueued element is either returned by exactly one dequeue or destroyed exactly
    once; and all blocks are freed, those of the initial pool and those allocated later. *)
Theorem queue_destroyed {A : Type} raw_value mem count k (cs : list (qcall A)) :
  let sq := implicit_subqueue raw_value in
  let ps := replicate k (ImplicitProducer_init raw_value true 0) in
  let m := populate_initial_block_list mem count in
  0 <= count < 2 ^ 64 -> Forall (on_thread k) cs -> Z.of_nat (length cs * (15 * (1 + k)) + k) < 2 ^ 60 ->
  exists vs m', ConcurrentQueue_dtor (fst (queue_after cs ps m)) (snd (queue_after cs ps m)) = Some (vs, m') /\
    dequeued (run_queue cs ps m) ++ vs ≡ₚ enqueued cs /\ forall b, deref m' b = None.
Proof.
  intros sq ps m Hc Hcs Hn. pose proof (shared_fresh (A := A) raw_value mem count k Hc) as H0.
  destruct (@queue_after_rep _ _ _ sq (implicit_laws raw_value) cs 0 ps m _ H0) as (ls & Hlen & Hrep & Hperm);
    rewrite ?length_replicate in *; [cbn; lia|done|].
  assert (length (fst (queue_after cs ps m)) = k) as Hk by (rewrite (rep_length _ _ _ _ Hrep); done).
  destruct (ConcurrentQueue_dtor_ok _ _ _ _ Hrep) as (m' & Hd & Hm); [rewrite Hk; lia|].
  exists (mjoin ls), m'. split; [done|]. split; [|done]. rewrite Hperm.
  assert (mjoin (replicate k (@nil A)) = []) as -> by (clear; by induction k). done.
Qed.

(** 73 elements of two threads, more than the initial pool holds; 33 are left to destroy. *)
Lemma queue_destroyed_witness :
  let cs := replicate 70 (QEnqueue 0 5) ++ replicate 3 (QEnqueue 1 6) ++ replicate 40 QDequeue in
  let sq := implicit_subqueue (A := Z) None in
  let ps := replicate 2 (ImplicitProducer_init None true 0) in
  let m := populate_initial_block_list true 2 in
  (exists vs m', ConcurrentQueue_dtor (fst (queue_after cs ps m)) (snd (queue_after cs ps m)) = Some (vs, m') /\
    dequeued (run_queue cs ps m) ++ vs ≡ₚ enqueued cs /\ forall b, deref m' b = None) /\
  option_map fst (ConcurrentQueue_dtor (fst (queue_after cs ps m)) (snd (queue_after cs ps m))) =
    Some (replicate 30 5 ++ replicate 3 6).
Proof.
  intros cs sq ps m. split; [|vm_compute; reflexivity].
  apply (queue_destroyed None true 2 2 cs); [lia| |vm_compute; reflexivity].
  unfold cs. rewrite !Forall_app. repeat split; repeat (constructor; [simpl; lia|]); constructor.
Defined.
