(* ===== verification/CqBlocking.v ===== *)
(** * The blocking queue (lib/concurrentqueue/blockingconcurrentqueue.h)

    [BlockingConcurrentQueue] adds a semaphore that counts the elements,
    so that a dequeuing thread sleeps while there is none.  The semaphore
    (lightweightsemaphore.h) is not part of the sources: it is a class with its documented
    behaviour.

    As in the engine, where only the thread of a shard dequeues from its queue, there is one
    dequeuing thread and any number of enqueuing ones.  [try_dequeue] goes through the
    sub-queues one after the other while the others enqueue: one step is one call of one
    sub-queue or of the semaphore.  (With several dequeuing threads [try_dequeue] may miss
    elements, which is why the source calls it in a loop.) *)
From S2P Require Import Prelude CqArith CqProducer CqInv CqIndex CqLin CqSub CqQueue.

(** ** The semaphore *)

Class Semaphore (Sem : Type) := {
  sema_init : Z -> Sem;
  available : Sem -> Z;
  signal : Sem -> Sem;
  (** [wait timeout]; the flag is whether the timeout expires before a signal arrives. *)
  sema_wait : bool -> Sem -> bool * Sem }.

Class SemaphoreLaws (Sem : Type) `{Semaphore Sem} := {
  sema_init_spec n : 0 <= n -> available (sema_init n) = n;
  signal_spec s : available (signal s) = available s + 1;
  wait_ok expired s s' :
    sema_wait expired s = (true, s') -> 0 < available s /\ available s' = available s - 1;
  wait_expired expired s s' :
    sema_wait expired s = (false, s') -> available s <= 0 /\ available s' = available s }.

(** A counter. *)
#[export] Instance counter_semaphore : Semaphore Z := {|
  sema_init n := n;
  available s := s;
  signal s := s + 1;
  sema_wait _ s := if 0 <? s then (true, s - 1) else (false, s) |}.

#[export] Instance counter_laws : SemaphoreLaws Z.
Proof.
  split; simpl; [done|done|..]; intros expired s s'; destruct (Z.ltb_spec 0 s); intros [= <-]; lia.
Qed.

Section Blocking.
Context {P M A Sem : Type} `{SubQueueLaws P M A} `{SemaphoreLaws Sem}.

(** ** [BlockingConcurrentQueue] *)

Record BlockingConcurrentQueue := mkBlocking { inner : list P; inner_mem : M; sema : Sem }.

(** Where a call stands: outside; before [sema->signal()] in [enqueue]; in the loop
    [while (!inner.try_dequeue(item))] with a permit; after the timeout. *)
Inductive bpc :=
| BIdle
| BSignal
| BLoop
| BTimeout.

(** [enqueue], up to the signal: thread's sub-queue [i]. *)
Definition enqueue_inner (i : nat) (v : A) (q : BlockingConcurrentQueue) : option (BlockingConcurrentQueue * bpc) :=
  match inner q !! i with
  | None => None
  | Some p =>
      match sq_enqueue v p (inner_mem q) with
      | (p, m, true) => Some (mkBlocking (<[i := p]> (inner q)) m (sema q), BSignal)
      | (p, m, false) => Some (mkBlocking (<[i := p]> (inner q)) m (sema q), BIdle)
      end
  end.

Definition enqueue_signal (q : BlockingConcurrentQueue) : BlockingConcurrentQueue * bpc :=
  (mkBlocking (inner q) (inner_mem q) (signal (sema q)), BIdle).

(** [wait_dequeue_timed], up to the loop. *)
Definition dequeue_wait (expired : bool) (q : BlockingConcurrentQueue) : BlockingConcurrentQueue * bpc :=
  let '(ok, s) := sema_wait expired (sema q) in
  (mkBlocking (inner q) (inner_mem q) s, if ok then BLoop else BTimeout).

(** [BlockingConcurrentQueue::size_approx]. *)
Definition blocking_size_approx (q : BlockingConcurrentQueue) : Z := available (sema q).

(** ** The dequeuing thread, sub-queue by sub-queue *)

(** Where it stands: outside a call; in the first loop of [try_dequeue] at place [i] with its
    local variables; before [best->dequeue(item)]; in the second loop at place [i]; with the
    result of [try_dequeue]. *)
Inductive dqpc :=
| DIdle
| DScan (i : nat) (nonEmptyCount : Z) (best : option nat) (bestSize : Z)
| DBest (b : nat)
| DAll (i b : nat)
| DGot (v : A)
| DMiss.

Definition sub_dequeue (i : nat) (miss : dqpc) (q : BlockingConcurrentQueue) : BlockingConcurrentQueue * dqpc :=
  match inner q !! i with
  | None => (q, DMiss)
  | Some p =>
      let '(p, m, r) := sq_dequeue p (inner_mem q) in
      (mkBlocking (<[i := p]> (inner q)) m (sema q), match r with Some v => DGot v | None => miss end)
  end.

Definition scan_step (q : BlockingConcurrentQueue) (d : dqpc) : BlockingConcurrentQueue * dqpc :=
  match d with
  | DScan i cnt best bestSize =>
      match (if cnt <? 3 then inner q !! i else None) with
      | Some p =>
          let size := sq_size_approx p in
          (q, if 0 <? size then
                if bestSize <? size then DScan (S i) (cnt + 1) (Some i) size
                else DScan (S i) (cnt + 1) best bestSize
              else DScan (S i) cnt best bestSize)
      | None => (q, if 0 <? cnt then match best with Some b => DBest b | None => DMiss end else DMiss)
      end
  | DBest b => sub_dequeue b (DAll 0 b) q
  | DAll i b => if (i =? b)%nat then (q, DAll (S i) b) else sub_dequeue i (DAll (S i) b) q
  | DMiss => (q, DScan 0 0 None 0)
  | DIdle | DGot _ => (q, d)
  end.

(** The loop [while (!inner.try_dequeue(item))], when the other threads pause. *)
Fixpoint run_scan (fuel : nat) (q : BlockingConcurrentQueue) (d : dqpc) : BlockingConcurrentQueue * dqpc :=
  match fuel with
  | O => (q, d)
  | S fuel => let '(q, d) := scan_step q d in run_scan fuel q d
  end.

(** The dequeuing thread holds a permit it has not turned into an element. *)
Definition permit (d : dqpc) : bool :=
  match d with DScan _ _ _ _ | DBest _ | DAll _ _ | DMiss => true | DIdle | DGot _ => false end.

(** The dequeuing thread and the enqueuing ones taking turns. *)
Record bsys := mkBsys {
  bqueue : BlockingConcurrentQueue;
  dequeuer : dqpc;
  enqueuers : list bpc }.

Inductive bstep : bsys -> bsys -> Prop :=
| bstep_enqueue q d pcs t i v q' c :
    pcs !! t = Some BIdle -> enqueue_inner i v q = Some (q', c) ->
    bstep (mkBsys q d pcs) (mkBsys q' d (<[t := c]> pcs))
| bstep_signal q d pcs t q' c :
    pcs !! t = Some BSignal -> enqueue_signal q = (q', c) ->
    bstep (mkBsys q d pcs) (mkBsys q' d (<[t := c]> pcs))
| bstep_wait q d pcs expired q' c :
    permit d = false -> dequeue_wait expired q = (q', c) ->
    bstep (mkBsys q d pcs) (mkBsys q' (match c with BLoop => DScan 0 0 None 0 | _ => DIdle end) pcs)
| bstep_scan q d pcs q' d' :
    permit d = true -> scan_step q d = (q', d') ->
    bstep (mkBsys q d pcs) (mkBsys q' d' pcs).

Inductive bsteps : nat -> bsys -> bsys -> Prop :=
| bsteps_refl s : bsteps 0 s s
| bsteps_snoc n s1 s2 s3 : bsteps n s1 s2 -> bstep s2 s3 -> bsteps (1 + n) s1 s3.

(** ** The permits and the elements *)

Definition owes (c : bpc) : bool := match c with BSignal | BLoop => true | _ => false end.

Lemma zlen_join_insert (ls : list (list A)) i l l' :
  ls !! i = Some l -> zlen (mjoin (<[i := l']> ls)) = zlen (mjoin ls) - zlen l + zlen l'.
Proof.
  revert i. induction ls as [|x ls IH]; intros [|i] Hi; simplify_eq/=; rewrite !zlen_app; [lia|].
  rewrite (IH i) by done. lia.
Qed.

Lemma count_owes_insert pcs t c c' :
  pcs !! t = Some c ->
  Z.of_nat (count owes (<[t := c']> pcs)) =
  Z.of_nat (count owes pcs) - Z.b2z (owes c) + Z.b2z (owes c').
Proof.
  intros Ht. pose proof (count_insert owes pcs t c c' Ht) as Hc.
  destruct (owes c), (owes c'); simpl in *; lia.
Qed.

Lemma takes_length (ls : list (list A)) v ls' : takes ls v ls' -> length ls' = length ls /\ zlen (mjoin ls') = zlen (mjoin ls) - 1.
Proof.
  intros (i & l & Hl & ->). rewrite length_insert. split; [done|].
  rewrite (zlen_join_insert _ _ _ _ Hl), zlen_cons. lia.
Qed.

(** The call of the inner queue in [enqueue]. *)
Lemma enqueue_rep n q i v q' c ls :
  rep n (inner q) (inner_mem q) ls -> Z.of_nat (n + 15) < limit -> enqueue_inner i v q = Some (q', c) ->
  exists l, ls !! i = Some l /\ c = BSignal /\ sema q' = sema q /\
    rep (n + 15) (inner q') (inner_mem q') (<[i := l ++ [v]]> ls).
Proof.
  intros Hrep Hn He. unfold enqueue_inner in He. destruct (inner q !! i) as [p|] eqn:Hp; [|done].
  destruct (lookup_lt_is_Some_2 ls i) as [l Hl].
  { rewrite <- (rep_length _ _ _ _ Hrep). by eapply lookup_lt_Some. }
  destruct (sq_enqueue v p (inner_mem q)) as [[p' m'] r] eqn:Hq.
  destruct (rep_enqueue _ _ _ _ _ _ _ _ _ _ _ Hrep Hn Hp Hl Hq) as [-> Hrep'].
  injection He as <- <-. by exists l.
Qed.

(** ** The invariant *)

Definition nonempty (ls : list (list A)) (i : nat) : Prop := exists l, ls !! i = Some l /\ l <> [].

(** What the dequeuing thread knows: while it has met no element there is one ahead; the best
    sub-queue it has met still has one, since nobody else dequeues. *)
Definition scan_ok (d : dqpc) (ls : list (list A)) : Prop :=
  match d with
  | DScan i cnt best bestSize =>
      0 <= cnt /\ 0 <= bestSize /\
      (cnt = 0 -> best = None /\ bestSize = 0 /\ exists j, (i <= j)%nat /\ nonempty ls j) /\
      (0 < cnt -> exists b, best = Some b /\ nonempty ls b)
  | DBest b => nonempty ls b
  | DAll _ _ | DMiss => False
  | DIdle | DGot _ => True
  end.

(** Every element is counted by the semaphore, promised to the thread that holds a permit, or
    about to be signalled. *)
Record balanced (n : nat) (s : bsys) (ls : list (list A)) : Prop := {
  ba_rep : rep n (inner (bqueue s)) (inner_mem (bqueue s)) ls;
  ba_avail : 0 <= available (sema (bqueue s));
  ba_count : zlen (mjoin ls) =
    available (sema (bqueue s)) + Z.of_nat (count owes (enqueuers s)) + Z.b2z (permit (dequeuer s));
  ba_scan : scan_ok (dequeuer s) ls }.

Lemma nonempty_push ls i j l v : ls !! i = Some l -> nonempty ls j -> nonempty (<[i := l ++ [v]]> ls) j.
Proof.
  intros Hl (l' & Hj & Hne). destruct (decide (i = j)) as [->|Hij].
  - exists (l ++ [v]). rewrite list_lookup_insert_eq by (by eapply lookup_lt_Some). split; [done|]. by destruct l.
  - exists l'. by rewrite list_lookup_insert_ne.
Qed.

Lemma scan_ok_push d ls i l v : ls !! i = Some l -> scan_ok d ls -> scan_ok d (<[i := l ++ [v]]> ls).
Proof.
  intros Hl. pose proof (fun j => nonempty_push ls i j l v Hl) as Hp. destruct d; simpl; [done| |auto|done..].
  intros (? & ? & Hz0 & Hz1). split; [done|]. split; [done|]. split.
  - intros Hz. destruct (Hz0 Hz) as (? & ? & j & ? & ?). eauto 6.
  - intros Hz. destruct (Hz1 Hz) as (b & ? & ?). eauto.
Qed.

Lemma join_nonempty (ls : list (list A)) : 0 < zlen (mjoin ls) -> exists j, nonempty ls j.
Proof.
  induction ls as [|l ls IH]; [done|]. destruct l as [|v l].
  - simpl. intros Hl. destruct (IH Hl) as (j & l & Hj & Hne). by exists (S j), l.
  - intros _. by exists 0%nat, (v :: l).
Qed.

(** How many steps the scan has left. *)
Definition scan_rank (k : nat) (d : dqpc) : nat :=
  match d with DScan i _ _ _ => k - i + 2 | DBest _ => 1 | _ => 0 end.

(** The first loop of [try_dequeue]: the step at place [i]. *)
Lemma scan_loop_ok n q i cnt best bs ls q' d' :
  rep n (inner q) (inner_mem q) ls -> Z.of_nat n < limit -> scan_ok (DScan i cnt best bs) ls ->
  scan_step q (DScan i cnt best bs) = (q', d') ->
  q' = q /\ permit d' = true /\ scan_ok d' ls /\ (scan_rank (length ls) d' < scan_rank (length ls) (DScan i cnt best bs))%nat.
Proof.
  intros Hrep Hn (Hc0 & Hb0 & Hz & Hpos) Hs. pose proof (rep_length _ _ _ _ Hrep) as Hlen. cbn [scan_step] in Hs.
  destruct (if cnt <? 3 then inner q !! i else None) as [p|] eqn:Hlk.
  - destruct (Z.ltb_spec cnt 3); [|done]. pose proof (lookup_lt_Some _ _ _ Hlk) as Hi.
    destruct (lookup_lt_is_Some_2 ls i) as [l Hl]; [lia|].
    rewrite (rep_size _ _ _ _ _ _ _ Hrep Hn Hlk Hl) in Hs.
    assert (0 < zlen l -> nonempty ls i) as Hne by (intros ?; exists l; split; [done|]; by intros ->).
    pose proof (zlen_nonneg l).
    destruct (Z.ltb_spec 0 (zlen l)) as [Hlp|Hle]; [destruct (Z.ltb_spec bs (zlen l))|]; injection Hs as <- <-;
      (split; [done|]); (split; [done|]); (split; [|simpl; lia]); simpl; (split; [lia|]); (split; [lia|]);
      (split; [intros Hcz|intros Hcp]); try lia; eauto.
    + destruct (Z.eq_dec cnt 0) as [Hcz|]; [destruct (Hz Hcz) as (_ & ? & _); lia|]. apply Hpos. lia.
    + destruct (Hz Hcz) as (? & ? & j & Hj & l' & Hl' & Hnel). split; [done|]. split; [done|]. exists j.
      split; [|by exists l']. destruct (decide (j = i)) as [->|]; [|lia].
      assert (l' = l) as -> by congruence. destruct l as [|x l]; [done|]. rewrite zlen_cons in Hle.
      pose proof (zlen_nonneg l). lia.
  - injection Hs as <- <-. destruct (Z.ltb_spec 0 cnt) as [Hcp|].
    + destruct (Hpos Hcp) as (b & -> & Hb). split; [done|]. split; [done|]. split; [done|simpl; lia].
    + destruct (Hz ltac:(lia)) as (_ & _ & j & Hj & l & Hl & _). exfalso.
      destruct (Z.ltb_spec cnt 3); [|lia]. apply lookup_ge_None in Hlk. apply lookup_lt_Some in Hl. lia.
Qed.

(** A step of the only dequeuing thread with a permit: it goes on, or takes an element. *)
Lemma scan_step_ok n q d ls q' d' :
  rep n (inner q) (inner_mem q) ls -> Z.of_nat (n + 15) < limit -> permit d = true -> scan_ok d ls ->
  scan_step q d = (q', d') ->
  sema q' = sema q /\
  ((permit d' = true /\ (scan_rank (length ls) d' < scan_rank (length ls) d)%nat /\ scan_ok d' ls /\
    rep (n + 15) (inner q') (inner_mem q') ls) \/
   (exists v ls', d' = DGot v /\ takes ls v ls' /\ rep (n + 15) (inner q') (inner_mem q') ls')).
Proof.
  intros Hrep Hn Hp Hsc Hs. destruct d as [|i cnt best bs|b|i b|v|]; try done.
  - destruct (scan_loop_ok n _ _ _ _ _ ls _ _ Hrep ltac:(lia) Hsc Hs) as (-> & Hp' & Hsc' & Hrk).
    split; [done|left]. do 3 (split; [done|]). eapply rep_mono; [|exact Hrep]; lia.
  - destruct Hsc as (l & Hl & Hne). cbn [scan_step] in Hs. unfold sub_dequeue in Hs.
    destruct (lookup_lt_is_Some_2 (inner q) b) as [p Hpb].
    { rewrite (rep_length _ _ _ _ Hrep). by eapply lookup_lt_Some. }
    rewrite Hpb in Hs. destruct (sq_dequeue p (inner_mem q)) as [[p1 m1] r1] eqn:Hd.
    destruct (rep_dequeue _ _ _ _ _ _ _ _ _ _ Hrep Hn Hpb Hl Hd) as [Hr1 Hrep1].
    destruct l as [|v l]; [done|]. simpl in Hr1. subst r1. injection Hs as <- <-.
    split; [done|right]. exists v, (<[b := l]> ls). split; [done|]. split; [by exists b, l|done].
Qed.

Lemma scan_balanced n q d pcs ls q' d' :
  balanced n (mkBsys q d pcs) ls -> Z.of_nat (n + 15) < limit -> permit d = true -> scan_step q d = (q', d') ->
  exists ls', balanced (n + 15) (mkBsys q' d' pcs) ls' /\ length ls' = length ls.
Proof.
  intros [Hrep Hav Hbal Hsc] Hn Hp Hs. simpl in *.
  destruct (scan_step_ok _ _ _ _ _ _ Hrep Hn Hp Hsc Hs) as [Hse [(Hp' & _ & Hsc' & Hrep')|(v & ls' & -> & Ht & Hrep')]].
  - exists ls. split; [|done]. split; simpl; rewrite ?Hse, ?Hp'; [done|done| |done]. by rewrite Hbal, Hp.
  - destruct (takes_length _ _ _ Ht) as [Hlen Hz]. exists ls'. split; [|done].
    split; simpl; rewrite ?Hse; [done|done| |done]. rewrite Hz, Hbal, Hp. simpl. lia.
Qed.

Lemma bstep_balanced n s s' ls :
  balanced n s ls -> Z.of_nat (n + 15) < limit -> bstep s s' ->
  exists ls', balanced (n + 15) s' ls' /\ length ls' = length ls.
Proof.
  intros Hb Hn Hs. destruct Hs as [q d pcs t i v q' c Ht He|q d pcs t q' c Ht He|q d pcs expired q' c Hd He
    |q d pcs q' d' Hp Hs]; [..|by eapply scan_balanced]; pose proof Hb as [Hrep Hav Hbal Hsc]; simpl in *.
  - destruct (enqueue_rep _ _ _ _ _ _ _ Hrep Hn He) as (l & Hl & -> & Hse & Hrep').
    exists (<[i := l ++ [v]]> ls). rewrite length_insert. split; [|done].
    split; simpl; [done|by rewrite Hse| |by apply scan_ok_push].
    rewrite Hse, (zlen_join_insert _ _ _ _ Hl), (count_owes_insert _ _ _ _ Ht), zlen_app, zlen_cons, zlen_nil. simpl. lia.
  - injection He as <- <-. exists ls. split; [|done].
    split; simpl; [eapply rep_mono; [|exact Hrep]; lia|rewrite signal_spec; lia| |done].
    rewrite signal_spec, (count_owes_insert _ _ _ _ Ht). simpl. lia.
  - unfold dequeue_wait in He. destruct (sema_wait expired (sema q)) as [ok s] eqn:Hw. injection He as <- <-.
    exists ls. split; [|done]. assert (rep (n + 15) (inner q) (inner_mem q) ls) by (eapply rep_mono; [|exact Hrep]; lia).
    rewrite Hd in Hbal. destruct ok; simpl in *.
    + apply wait_ok in Hw as [? ?]. split; simpl; [done|lia|lia|].
      destruct (join_nonempty ls ltac:(lia)) as [j Hj].
      split; [lia|]. split; [lia|]. split; [|lia]. intros _. split; [done|]. split; [done|]. exists j. split; [lia|done].
    + apply wait_expired in Hw as [? ?]. split; simpl; [done|lia|lia|done].
Qed.

Lemma bsteps_balanced k s s' n ls :
  balanced n s ls -> Z.of_nat (n + k * 15) < limit -> bsteps k s s' ->
  exists ls', balanced (n + k * 15) s' ls' /\ length ls' = length ls.
Proof.
  intros Hb Hn Hs. revert Hn. induction Hs as [s|k s1 s2 s3 Hs IH Hst]; intros Hn.
  - exists ls. by rewrite Nat.add_0_r.
  - destruct IH as (ls' & Hb' & Hlen); [done|lia|].
    destruct (bstep_balanced _ _ _ _ Hb' ltac:(lia) Hst) as (ls'' & Hb'' & Hlen'').
    exists ls''. split; [|congruence]. by replace (n + (1 + k) * 15)%nat with (n + k * 15 + 15)%nat by lia.
Qed.

(** Alone, the thread with a permit comes to an element at the first sub-queue it tries. *)
Lemma scan_gets f n q d ls :
  rep n (inner q) (inner_mem q) ls -> Z.of_nat (n + f * 15) < limit -> permit d = true -> scan_ok d ls ->
  (scan_rank (length ls) d <= f)%nat -> exists v, snd (run_scan f q d) = DGot v.
Proof.
  revert n q d. induction f as [|f IH]; intros n q d Hrep Hn Hp Hsc Hrk; [destruct d; simpl in *; by try lia|].
  cbn [run_scan]. destruct (scan_step q d) as [q1 d1] eqn:Hs.
  destruct (scan_step_ok _ _ _ _ _ _ Hrep ltac:(lia) Hp Hsc Hs) as [_ [(Hp' & Hlt & Hsc' & Hrep')|(v & _ & -> & _)]].
  - eapply (IH (n + 15)%nat); [exact Hrep'|lia|done|done|lia].
  - exists v. clear. by induction f.
Qed.

End Blocking.
#[global] Arguments BlockingConcurrentQueue : clear implicits.
#[global] Arguments dqpc : clear implicits.
#[global] Arguments bsys : clear implicits.

Section Permits.
Context {A Sem : Type} (raw_value : option nat) `{SemaphoreLaws Sem}.
#[local] Instance producers : SubQueue ImplicitProducer (Pool A) A := implicit_subqueue raw_value.
#[local] Instance producers_laws : SubQueueLaws ImplicitProducer (Pool A) A := implicit_laws raw_value.

(** The queue as constructed; [k] threads enqueue, [t] threads take part. *)
Definition new_blocking (mem : bool) (count : Z) (k : nat) : BlockingConcurrentQueue ImplicitProducer (Pool A) Sem :=
  mkBlocking (replicate k (ImplicitProducer_init raw_value true 0)) (populate_initial_block_list mem count) (sema_init 0).

Lemma zlen_replicate_nil k : zlen (mjoin (replicate k ([] : list A))) = 0.
Proof. by induction k. Qed.

(** The system as constructed; [k] threads enqueue, [t] of them take part. *)
Definition blocking_start (mem : bool) (count : Z) (k t : nat) : bsys ImplicitProducer (Pool A) A Sem :=
  mkBsys (new_blocking mem count k) DIdle (replicate t BIdle).

Lemma blocking_start_balanced mem count k t :
  0 <= count < 2 ^ 64 -> balanced (A := A) 0 (blocking_start mem count k t) (replicate k []).
Proof.
  intros Hc. split; cbn [blocking_start bqueue dequeuer enqueuers sema new_blocking]; [by apply shared_fresh|..|done].
  - rewrite sema_init_spec; lia.
  - rewrite sema_init_spec, zlen_replicate_nil, count_none; [done|by intros c [-> _]%elem_of_replicate|lia].
Qed.

(** C25: The loop [while (!inner.try_dequeue(item))] of [wait_dequeue] and
    [wait_dequeue_timed] does not spin for the only thread that dequeues: whatever calls the
    enqueuing threads make while it goes through the [k] sub-queues, a thread that holds a
    permit of the semaphore never comes back from [try_dequeue] with nothing, not even from the
    sub-queue it has chosen (so the second loop of [try_dequeue] is not entered), and it is at
    most [k] + 2 of its steps away from an element; and the size the queue reports never exceeds
    the number of elements in it. *)
Theorem permits_are_elements mem count k t n q d pcs :
  0 <= count < 2 ^ 64 -> Z.of_nat ((n + k + 2) * 15) < 2 ^ 60 ->
  bsteps n (blocking_start mem count k t) (mkBsys q d pcs) ->
  d <> DMiss /\ (forall i b, d <> DAll i b) /\
  (permit d = true -> exists v, snd (run_scan (k + 2) q d) = DGot v) /\
  exists ls, rep (n * 15) (inner q) (inner_mem q) ls /\
    0 <= blocking_size_approx q <= zlen (mjoin ls).
Proof.
  intros Hc Hn Hs.
  assert (Z.of_nat (0 + n * 15) < limit) as Hn1 by (change limit with (2 ^ 60); lia).
  assert (Z.of_nat (0 + n * 15 + (k + 2) * 15) < limit) as Hn2 by (change limit with (2 ^ 60); lia).
  destruct (bsteps_balanced _ _ _ _ _ (blocking_start_balanced mem count k t Hc) Hn1 Hs) as (ls & Hb & Hlen).
  rewrite length_replicate in Hlen. pose proof Hb as [Hrep Hav Hbal Hsc]. simpl in *.
  split; [by intros ->|]. split; [by intros i b ->|]. split.
  - intros Hp. eapply scan_gets; [exact Hrep|exact Hn2|done|done|]. destruct d; simpl; lia.
  - exists ls. split; [done|]. unfold blocking_size_approx. destruct (permit d); simpl in Hbal; lia.
Qed.

End Permits.

(** Two threads enqueue 7 and 8; the third is about to try the first sub-queue's size when a
    further element arrives. *)
Lemma permits_are_elements_witness :
  exists q d, bsteps (A := Z) (H := implicit_subqueue None) 4
      (blocking_start (Sem := Z) None true 6 2 2) (mkBsys q d [BIdle; BSignal]) /\
    exists v, snd (@run_scan _ _ _ _ (implicit_subqueue None) 4 q d) = DGot v.
Proof.
  destruct (@enqueue_inner _ _ Z Z (implicit_subqueue None) 0 7 (new_blocking None true 6 2)) as [[q1 c1]|] eqn:E1;
    [|vm_compute in E1; discriminate].
  assert (c1 = BSignal) as -> by (apply (f_equal (fmap snd)) in E1; vm_compute in E1; congruence).
  destruct (enqueue_signal q1) as [q2 c2] eqn:E2.
  assert (c2 = BIdle) as -> by (injection E2; congruence).
  destruct (dequeue_wait true q2) as [q3 c3] eqn:E3.
  assert (c3 = BLoop) as ->.
  { assert (sema q1 = 0) as Hs by (unfold enqueue_inner in E1; simpl in E1; repeat case_match; simplify_eq; done).
    change c3 with (snd (q3, c3)). rewrite <- E3. injection E2 as <-. unfold dequeue_wait. simpl. by rewrite Hs. }
  destruct (@enqueue_inner _ _ Z Z (implicit_subqueue None) 1 8 q3) as [[q4 c4]|] eqn:E4.
  all: pose proof E1 as E1'; apply (f_equal (fmap fst)) in E1'; vm_compute in E1'; injection E1' as E1'.
  all: pose proof E2 as E2'; rewrite <- E1' in E2'; vm_compute in E2'; injection E2' as E2'.
  all: pose proof E3 as E3'; rewrite <- E2' in E3'; vm_compute in E3'; injection E3' as E3'.
  all: pose proof E4 as E4'; rewrite <- E3' in E4'; apply (f_equal (fmap snd)) in E4'; vm_compute in E4'.
  2: discriminate.
  assert (c4 = BSignal) as -> by (by injection E4').
  exists q4, (DScan 0 0 None 0).
  assert (bsteps (A := Z) (H := implicit_subqueue None) 4
      (blocking_start (Sem := Z) None true 6 2 2) (mkBsys q4 (DScan 0 0 None 0) [BIdle; BSignal])) as Hs.
  { apply (bsteps_snoc 3 _ (mkBsys q3 (DScan 0 0 None 0) [BIdle; BIdle])).
    - apply (bsteps_snoc 2 _ (mkBsys q2 DIdle [BIdle; BIdle])).
      + apply (bsteps_snoc 1 _ (mkBsys q1 DIdle [BSignal; BIdle])).
        * apply (bsteps_snoc 0 _ (blocking_start None true 6 2 2)); [constructor|].
          by apply (bstep_enqueue _ DIdle [BIdle; BIdle] 0 0 7 q1 BSignal).
        * by apply (bstep_signal _ DIdle [BSignal; BIdle] 0).
      + by apply (bstep_wait _ DIdle [BIdle; BIdle] true q3 BLoop).
    - by apply (bstep_enqueue _ _ [BIdle; BIdle] 1 1 8 q4 BSignal). }
  split; [exact Hs|].
  refine (proj1 (proj2 (proj2 (permits_are_elements None true 6 2 2 4 q4 (DScan 0 0 None 0) [BIdle; BSignal] _ _ Hs))) eq_refl);
    [lia|reflexivity].
Defined.
