(* ===== verification/CqExit.v ===== *)
(** * Threads that exit (lib/concurrentqueue/concurrentqueue.h, ThreadExitNotifier)

    A sub-queue asks to be told when its thread exits: its listener is put on a singly linked
    list that the thread owns, [subscribe]; destroying the sub-queue takes it off,
    [unsubscribe]; the exiting thread walks its list and calls every listener,
    [~ThreadExitNotifier], whose callback marks the sub-queue inactive, so that another thread
    may take it over or a destructor may free it without a word to the notifier.  One mutex is
    held by all three.  [subscribe] and [unsubscribe] are one step each here; the walk of the
    exiting thread is one step per access to a listener, since the callback gives the listener
    away while the walk still stands on it.  Addresses are not reused, so that an access to freed
    memory shows. *)
From S2P Require Import Prelude.

Module ThreadExit.

(** ** State *)

(** The part of an implicit producer that takes part: its [threadExitListener] ([next] and
    [chain]; the callback and its argument are always the same) and its flag [inactive].  A
    pointer to a listener is the number of its producer, that to a notifier its thread. *)
Record Listener := mkListener { next : option nat; chain : option nat; inactive : bool }.

Definition set_next (n : option nat) (x : Listener) : Listener := mkListener n (chain x) (inactive x).
Definition set_chain (c : option nat) (x : Listener) : Listener := mkListener (next x) c (inactive x).
Definition set_inactive (b : bool) (x : Listener) : Listener := mkListener (next x) (chain x) b.

(** Where a thread stands: before [subscribe(p)]; in [~ThreadExitNotifier] at the test of
    [ptr], at the callback of [p], at [ptr = ptr->next]; exited; in [~ImplicitProducer] of [p]
    before the test of [inactive], before [unsubscribe], before the memory is freed. *)
Inductive epc :=
| EIdle
| ESubscribe (p : nat)
| EVisit (ptr : option nat)
| ECall (p : nat)
| EAdvance (p : nat)
| EDead
| ECheck (p : nat)
| EUnsubscribe (p : nat)
| EFree (p : nat).

#[export] Instance epc_eq_dec : EqDecision epc.
Proof. solve_decision. Defined.

(** [tails] holds the [tail] of every notifier that is constructed; [dying] the producers that
    are being or have been destroyed. *)
Record St := mkSt {
  listeners : gmap nat Listener;
  tails : gmap nat (option nat);
  mutex : option nat;
  pcs : gmap nat epc;
  fresh : nat;
  dying : gset nat }.

Definition pc_of (t : nat) (s : St) : epc := default EIdle (pcs s !! t).
Definition set_listeners (h : gmap nat Listener) (s : St) : St := mkSt h (tails s) (mutex s) (pcs s) (fresh s) (dying s).
Definition set_tails (h : gmap nat (option nat)) (s : St) : St := mkSt (listeners s) h (mutex s) (pcs s) (fresh s) (dying s).
Definition set_mutex (m : option nat) (s : St) : St := mkSt (listeners s) (tails s) m (pcs s) (fresh s) (dying s).
Definition goto (t : nat) (c : epc) (s : St) : St :=
  mkSt (listeners s) (tails s) (mutex s) (<[t := c]> (pcs s)) (fresh s) (dying s).
Definition set_dying (d : gset nat) (s : St) : St := mkSt (listeners s) (tails s) (mutex s) (pcs s) (fresh s) d.

Definition initial : St := mkSt ∅ ∅ None ∅ 0 ∅.

(** ** Operations; [None] is an access to freed memory *)

(** The notifier of a thread is constructed, empty, at its first use. *)
Definition instance (t : nat) (s : St) : option nat := default None (tails s !! t).

Definition write_listener (p : nat) (f : Listener -> Listener) (s : St) : option St :=
  match listeners s !! p with
  | Some x => Some (set_listeners (<[p := f x]> (listeners s)) s)
  | None => None
  end.

Definition subscribe (t p : nat) (s : St) : option St :=
  let tail := instance t s in
  match write_listener p (fun x => set_chain (Some t) (set_next tail x)) s with
  | Some s => Some (set_tails (<[t := Some p]> (tails s)) s)
  | None => None
  end.

(** [*prev = n]: [prev] points to the tail of notifier [t], or to the [next] of a listener. *)
Definition write_prev (t : nat) (prev : option nat) (n : option nat) (s : St) : option St :=
  match prev with
  | None => Some (set_tails (<[t := n]> (tails s)) s)
  | Some q => write_listener q (set_next n) s
  end.

(** The loop of [unsubscribe] from [ptr] on. *)
Fixpoint unlink (fuel t listener : nat) (prev ptr : option nat) (s : St) : option St :=
  match fuel with
  | O => None
  | S fuel =>
      match ptr with
      | None => Some s
      | Some q =>
          match listeners s !! q with
          | None => None
          | Some x => if decide (q = listener) then write_prev t prev (next x) s
                      else unlink fuel t listener (Some q) (next x) s
          end
      end
  end.

(** The list has no listener twice, so that its length is at most the number of listeners. *)
Definition unsubscribe (p : nat) (s : St) : option St :=
  match listeners s !! p with
  | None => None
  | Some x =>
      match chain x with
      | None => Some s
      | Some t =>
          match tails s !! t with
          | None => None
          | Some tail =>
              let s := set_listeners (<[p := set_chain None x]> (listeners s)) s in
              unlink (S (size (listeners s))) t p None tail s
          end
      end
  end.

(** ** Threads *)

(** What a thread is asked to do next: [Create] a producer, whose listener is not
    initialised; [Take] over an inactive one; [Destroy] one, which its owner may ask for when no
    thread is about to use it; [Exit]; or [Go] on with what it is doing. *)
Inductive request :=
| Create (n c : option nat)
| Take (p : nat)
| Destroy (p : nat)
| Exit
| Go.

Inductive label :=
| Subscribed (t p : nat)
| Unsubscribed (p : nat)
| Notified (t p : nat)
| Exited (t : nat).

Inductive outcome := Blocked | Fault | Next (s : St) (ls : list label).

Definition made (o : option St) (f : St -> St) (ls : list label) : outcome :=
  match o with Some s => Next (f s) ls | None => Fault end.

(** No thread is between taking or creating [p] and subscribing it. *)
Definition unused (p : nat) (s : St) : bool :=
  bool_decide (map_Forall (fun _ c => c <> ESubscribe p) (pcs s)).

Definition request_step (t : nat) (r : request) (s : St) : outcome :=
  match r with
  | Create n c =>
      let p := fresh s in
      Next (goto t (ESubscribe p)
              (mkSt (<[p := mkListener n c false]> (listeners s)) (tails s) (mutex s) (pcs s) (S p) (dying s))) []
  | Take p =>
      match listeners s !! p with
      | Some x => if inactive x && negb (bool_decide (p ∈ dying s))
                  then made (write_listener p (set_inactive false) s) (goto t (ESubscribe p)) []
                  else Blocked
      | None => Blocked
      end
  | Destroy p =>
      if bool_decide (is_Some (listeners s !! p)) && negb (bool_decide (p ∈ dying s)) && unused p s
      then Next (goto t (ECheck p) (set_dying ({[p]} ∪ dying s) s)) []
      else Blocked
  | Exit =>
      match tails s !! t, mutex s with
      | None, _ => Next (goto t EDead s) [Exited t]
      | Some tail, None => Next (goto t (EVisit tail) (set_mutex (Some t) s)) []
      | Some _, Some _ => Blocked
      end
  | Go => Blocked
  end.

Definition step (t : nat) (r : request) (s : St) : outcome :=
  match pc_of t s, r with
  | EIdle, _ => request_step t r s
  | EDead, _ => Blocked
  | ESubscribe p, Go =>
      match mutex s with
      | None => made (subscribe t p s) (goto t EIdle) [Subscribed t p]
      | Some _ => Blocked
      end
  | EVisit None, Go => Next (goto t EDead (set_mutex None (set_tails (delete t (tails s)) s))) [Exited t]
  | EVisit (Some p), Go => made (write_listener p (set_chain None) s) (goto t (ECall p)) []
  | ECall p, Go => made (write_listener p (set_inactive true) s) (goto t (EAdvance p)) [Notified t p]
  | EAdvance p, Go =>
      match listeners s !! p with
      | Some x => Next (goto t (EVisit (next x)) s) []
      | None => Fault
      end
  | ECheck p, Go =>
      match listeners s !! p with
      | Some x => Next (goto t (if inactive x then EFree p else EUnsubscribe p) s) []
      | None => Fault
      end
  | EUnsubscribe p, Go =>
      match mutex s with
      | None => made (unsubscribe p s) (goto t (EFree p)) [Unsubscribed p]
      | Some _ => Blocked
      end
  | EFree p, Go =>
      match listeners s !! p with
      | Some _ => Next (goto t EIdle (set_listeners (delete p (listeners s)) s)) []
      | None => Fault
      end
  | _, _ => Blocked
  end.

(** A schedule; [None]: a thread has touched freed memory. *)
Fixpoint run (sched : list (nat * request)) (s : St) : option St * list label :=
  match sched with
  | [] => (Some s, [])
  | (t, r) :: sched =>
      match step t r s with
      | Blocked => run sched s
      | Fault => (None, [])
      | Next s ls => let '(o, ls') := run sched s in (o, ls ++ ls')
      end
  end.

(** ** Specification *)

(** Each thread has a list of listeners.  An exiting thread calls the newest first and takes
    it off; it is gone when its list is empty. *)
Definition Chains : Type := nat -> list nat.

Definition spec_step (l : label) (A : Chains) : option Chains :=
  match l with
  | Subscribed t p => Some (fun u => if decide (u = t) then p :: A u else A u)
  | Unsubscribed p => Some (fun u => filter (fun q => q <> p) (A u))
  | Notified t p =>
      match A t with
      | q :: rest => if decide (q = p) then Some (fun u => if decide (u = t) then rest else A u) else None
      | [] => None
      end
  | Exited t => match A t with [] => Some A | _ :: _ => None end
  end.

Fixpoint spec_run (ls : list label) (A : Chains) : option Chains :=
  match ls with
  | [] => Some A
  | l :: ls => A ← spec_step l A; spec_run ls A
  end.

(** A listener's chain is read in its own right. *)
Fixpoint seg (h : gmap nat Listener) (ptr : option nat) (l : list nat) : Prop :=
  match l with
  | [] => ptr = None
  | p :: l => ptr = Some p /\ exists x, h !! p = Some x /\ seg h (next x) l
  end.

(** ** Lists of listeners *)

Lemma seg_ext h h' l : forall ptr,
  (forall p x, p ∈ l -> h !! p = Some x -> exists x', h' !! p = Some x' /\ next x' = next x) ->
  seg h ptr l -> seg h' ptr l.
Proof.
  induction l as [|p l IH]; intros ptr Hh; [done|]. intros (-> & x & Hx & Hs). split; [done|].
  destruct (Hh p x) as (x' & Hx' & E); [left|done|]. exists x'. split; [done|]. rewrite E.
  apply IH; [|done]. intros q y Hq. apply Hh. by right.
Qed.

Lemma seg_same h h' ptr l : (forall p, p ∈ l -> h' !! p = h !! p) -> seg h ptr l -> seg h' ptr l.
Proof. intros Hh. apply seg_ext. intros p x Hp Hx. exists x. by rewrite Hh. Qed.

Lemma seg_length h ptr l : NoDup l -> seg h ptr l -> (length l <= size h)%nat.
Proof.
  intros Hnd Hs. rewrite <- size_dom, <- (size_list_to_set (C := gset nat) l) by done. apply subseteq_size.
  intros p. rewrite elem_of_list_to_set, elem_of_dom. clear Hnd. revert ptr Hs.
  induction l as [|q l IH]; intros ptr; [by intros _ ?%elem_of_nil|].
  intros (-> & x & Hx & Hs) [->|Hp]%elem_of_cons; [by exists x|by eapply IH].
Qed.

(** The fields other than [next]. *)
Definition rest_of (x : Listener) : option nat * bool := (chain x, inactive x).

(** The state without the lists. *)
Definition others (s : St) : option nat * gmap nat epc * nat * gset nat := (mutex s, pcs s, fresh s, dying s).

(** The cell [*prev] holds [ptr]. *)
Definition points (s : St) (t : nat) (prev ptr : option nat) : Prop :=
  match prev with
  | None => tails s !! t = Some ptr
  | Some q => next <$> listeners s !! q = Some ptr
  end.

Lemma filter_absent (p : nat) (l : list nat) : p ∉ l -> filter (fun q => q <> p) l = l.
Proof.
  induction l as [|q l IH]; intros Hp; [done|]. rewrite not_elem_of_cons in Hp. destruct Hp as [Hne Hp].
  rewrite filter_cons_True by congruence. by rewrite IH.
Qed.

Lemma unlink_spec fuel t p : forall l prev ptr s,
  (length l < fuel)%nat -> seg (listeners s) ptr l -> NoDup l -> points s t prev ptr ->
  (forall q, prev = Some q -> q ∉ l) ->
  exists s' ptr', unlink fuel t p prev ptr s = Some s' /\ points s' t prev ptr' /\
    seg (listeners s') ptr' (filter (fun q => q <> p) l) /\ others s' = others s /\
    (forall u, u <> t -> tails s' !! u = tails s !! u) /\ (is_Some (tails s !! t) -> is_Some (tails s' !! t)) /\
    (prev <> None -> tails s' = tails s) /\
    (forall q, q ∉ l -> prev <> Some q -> listeners s' !! q = listeners s !! q) /\
    (forall q, rest_of <$> listeners s' !! q = rest_of <$> listeners s !! q).
Proof.
  induction fuel as [|fuel IH]; intros l prev ptr s Hf Hs Hnd Hpt Hprev; [lia|].
  destruct l as [|q l].
  { cbn in Hs. subst ptr. exists s, None. by repeat (split; [done|]). }
  destruct Hs as (-> & x & Hx & Hs). apply NoDup_cons in Hnd as [Hq Hnd]. cbn [unlink]. rewrite Hx.
  destruct (decide (q = p)) as [->|Hne].
  - rewrite filter_cons_False by (intros E; by apply E). rewrite filter_absent by done.
    destruct prev as [q0|]; cbn [write_prev points] in *.
    + assert (q0 ∉ p :: l) as Hq0 by (by apply Hprev). unfold write_listener.
      destruct (listeners s !! q0) as [x0|] eqn:Hx0; [|done].
      eexists _, (next x). split; [reflexivity|]. cbn [set_listeners listeners tails].
      rewrite lookup_insert_eq. split; [done|]. split.
      { eapply seg_same; [|exact Hs]. intros r Hr. apply lookup_insert_ne. intros ->. apply Hq0. by right. }
      split; [done|]. split; [done|]. split; [done|]. split; [done|]. split.
      * intros r _ Hr. apply lookup_insert_ne. congruence.
      * intros r. destruct (decide (r = q0)) as [->|]; [by rewrite lookup_insert_eq, Hx0|by rewrite lookup_insert_ne].
    + eexists _, (next x). split; [reflexivity|]. cbn [set_tails listeners tails]. rewrite lookup_insert_eq.
      split; [done|]. split; [done|]. split; [done|]. split; [intros u Hu; by apply lookup_insert_ne|]. by split.
  - rewrite filter_cons_True by done.
    destruct (IH l (Some q) (next x) s) as (s' & ptr' & E & Hp' & Hs' & Ho & Hu & Ht & Htl & Hsame & Hrest); [cbn in Hf; lia|done|done| | |].
    { cbn. by rewrite Hx. }
    { intros r [= <-]. done. }
    exists s', (Some q). split; [done|]. cbn [points] in Hp'. assert (tails s' = tails s) as Ets by (by apply Htl).
    split.
    { destruct prev as [q0|]; cbn [points] in *; [|by rewrite Ets]. assert (q0 ∉ q :: l) as Hq0 by (by apply Hprev).
      rewrite not_elem_of_cons in Hq0. rewrite Hsame; [done|tauto|]. intros [= <-]. tauto. }
    split. { destruct (listeners s' !! q) as [x'|] eqn:Hx'; [|done]. injection Hp' as <-. split; [done|]. by exists x'. }
    split; [done|]. split; [done|]. split; [done|]. split; [done|]. split; [|done].
    intros r Hr _. rewrite not_elem_of_cons in Hr. apply Hsame; [tauto|]. intros [= <-]. tauto.
Qed.

(** ** Invariant *)

(** In [~ThreadExitNotifier], with the mutex. *)
Definition walking (c : epc) : bool :=
  match c with EVisit _ | ECall _ | EAdvance _ => true | _ => false end.

(** The thread is the only one that may use the producer's listener. *)
Definition holds (c : epc) : option nat :=
  match c with ESubscribe p | ECall p | EFree p => Some p | _ => None end.

Definition destroying (c : epc) : option nat :=
  match c with ECheck p | EUnsubscribe p | EFree p => Some p | _ => None end.

Definition pc_ok (s : St) (L : Chains) (t : nat) (c : epc) : Prop :=
  match c with
  | EIdle | EDead => True
  | ESubscribe p => (exists x, listeners s !! p = Some x /\ inactive x = false) /\ p ∉ dying s
  | EVisit ptr => seg (listeners s) ptr (L t)
  | ECall p => exists x, listeners s !! p = Some x /\ inactive x = false /\ chain x = None /\ seg (listeners s) (next x) (L t)
  | EAdvance p => (p < fresh s)%nat /\ forall x, listeners s !! p = Some x -> seg (listeners s) (next x) (L t)
  | ECheck p | EUnsubscribe p | EFree p => p ∈ dying s /\ is_Some (listeners s !! p)
  end.

(** [L] holds what is still on the lists. *)
Record inv (s : St) (L : Chains) : Prop := {
  iv_tail t tail : tails s !! t = Some tail -> mutex s <> Some t -> seg (listeners s) tail (L t);
  iv_none t : tails s !! t = None -> L t = [];
  iv_elem t p : p ∈ L t -> exists x, listeners s !! p = Some x /\ chain x = Some t /\ inactive x = false;
  iv_nodup t : NoDup (L t);
  iv_chain p x t : listeners s !! p = Some x -> chain x = Some t -> p ∈ L t \/ exists u, pc_of u s = ESubscribe p;
  iv_mutex t : mutex s = Some t <-> walking (pc_of t s) = true;
  iv_pc t : pc_ok s L t (pc_of t s);
  iv_held t p : holds (pc_of t s) = Some p -> forall u, p ∉ L u;
  iv_holds t u p : holds (pc_of t s) = Some p -> holds (pc_of u s) = Some p -> t = u;
  iv_destroy t u p : destroying (pc_of t s) = Some p -> destroying (pc_of u s) = Some p -> t = u;
  iv_fresh p : (fresh s <= p)%nat -> listeners s !! p = None;
  iv_dying p : p ∈ dying s -> (p < fresh s)%nat }.

Lemma inv_initial : inv initial (fun _ => []).
Proof.
  split; unfold pc_of; cbn [initial listeners tails mutex pcs fresh dying]; intros *; rewrite ?lookup_empty; cbn;
    try done; try (by intros ?%elem_of_nil); by intros; apply NoDup_nil_2.
Qed.

Lemma pc_goto u t c s : pc_of u (goto t c s) = if decide (u = t) then c else pc_of u s.
Proof.
  unfold pc_of, goto. cbn [pcs]. case_decide as E; [subst; by rewrite lookup_insert_eq|by rewrite lookup_insert_ne by congruence].
Qed.

(** A thread is not disturbed by what the others do. *)
Lemma pc_ok_frame s s' L L' u c :
  pc_ok s L u c -> (fresh s <= fresh s')%nat ->
  (forall p, holds c = Some p -> listeners s' !! p = listeners s !! p) ->
  (forall p, destroying c = Some p -> is_Some (listeners s !! p) -> is_Some (listeners s' !! p)) ->
  dying s ⊆ dying s' -> (forall p, c = ESubscribe p -> p ∉ dying s -> p ∉ dying s') ->
  (walking c = true -> L' u = L u /\
    (forall p x, p ∈ L u -> listeners s !! p = Some x -> exists x', listeners s' !! p = Some x' /\ next x' = next x) /\
    forall p x', c = EAdvance p -> (p < fresh s)%nat -> listeners s' !! p = Some x' ->
      exists x, listeners s !! p = Some x /\ next x = next x') ->
  pc_ok s' L' u c.
Proof.
  intros Hok Hfr Hh Hd Hdy Hsub Hw. destruct c as [|p|ptr|p|p| |p|p|p]; cbn [pc_ok holds destroying walking] in *; try done.
  - destruct Hok as [(x & Hx & Hi) Hn]. split; [exists x; by rewrite Hh|by apply Hsub].
  - destruct Hw as (-> & Hk & _); [done|]. by eapply seg_ext.
  - destruct Hw as (-> & Hk & _); [done|]. destruct Hok as (x & Hx & Hi & Hc & Hs). exists x. rewrite Hh by done.
    repeat split; try done. by eapply seg_ext.
  - destruct Hw as (-> & Hk & Ha); [done|]. destruct Hok as [Hp Hs]. split; [lia|]. intros x' Hx'.
    destruct (Ha p x' eq_refl Hp Hx') as (x & Hx & <-). eapply seg_ext; [exact Hk|by apply Hs].
  - destruct Hok as [H1 H2]. split; [by apply Hdy|by apply Hd].
  - destruct Hok as [H1 H2]. split; [by apply Hdy|by apply Hd].
  - destruct Hok as [H1 H2]. split; [by apply Hdy|by apply Hd].
Qed.

(** The other threads, when thread [t] goes from [pc_of t s] to [c'] and the state from [s] to [s']. *)
Lemma inv_threads s s' L L' t c' :
  inv s L -> (forall u, pc_of u s' = if decide (u = t) then c' else pc_of u s) ->
  (forall u p, u <> t -> holds (pc_of u s) = Some p -> holds c' <> Some p) ->
  (forall u p, u <> t -> destroying (pc_of u s) = Some p -> destroying c' <> Some p) ->
  (forall u p, p ∈ L' u -> holds c' <> Some p) ->
  (forall u p, p ∈ L' u -> p ∈ L u \/ holds (pc_of t s) = Some p) ->
  pc_ok s' L' t c' ->
  (forall u, u <> t -> pc_ok s L u (pc_of u s) -> pc_ok s' L' u (pc_of u s)) ->
  (forall u, pc_ok s' L' u (pc_of u s')) /\
  (forall u p, holds (pc_of u s') = Some p -> forall v, p ∉ L' v) /\
  (forall u v p, holds (pc_of u s') = Some p -> holds (pc_of v s') = Some p -> u = v) /\
  (forall u v p, destroying (pc_of u s') = Some p -> destroying (pc_of v s') = Some p -> u = v).
Proof.
  intros Hi Hpc Hh Hd HL HL' Hme Hoth. split_and!.
  - intros u. rewrite Hpc. case_decide as E; [by subst|]. apply Hoth; [done|apply (iv_pc _ _ Hi)].
  - intros u p. rewrite Hpc. case_decide as E; intros Hu v Hv; [by apply (HL v p)|].
    destruct (HL' v p Hv) as [Hv'|Ht]; [by apply (iv_held _ _ Hi u p Hu v)|]. by apply E, (iv_holds _ _ Hi u t p).
  - intros u v p. rewrite !Hpc. case_decide; case_decide; intros Hu Hv; subst; try done;
      [by destruct (Hh v p)|by destruct (Hh u p)|by apply (iv_holds _ _ Hi u v p)].
  - intros u v p. rewrite !Hpc. case_decide; case_decide; intros Hu Hv; subst; try done;
      [by destruct (Hd v p)|by destruct (Hd u p)|by apply (iv_destroy _ _ Hi u v p)].
Qed.

(** A step that changes neither memory nor lists. *)
Lemma inv_goto s L t c' :
  inv s L -> walking c' = walking (pc_of t s) -> pc_ok s L t c' ->
  (forall p, pc_of t s <> ESubscribe p) ->
  (forall p, holds c' = Some p -> (forall u, p ∉ L u) /\ forall u, u <> t -> holds (pc_of u s) <> Some p) ->
  (forall p, destroying c' = Some p -> destroying (pc_of t s) = Some p) ->
  inv (goto t c' s) L.
Proof.
  intros Hi Hw Hok Hns Hh Hd.
  assert (forall u, pc_of u (goto t c' s) = if decide (u = t) then c' else pc_of u s) as Hpc by (intros; apply pc_goto).
  assert (forall u c, pc_ok s L u c -> pc_ok (goto t c' s) L u c) as Hfr by (by intros u []).
  destruct (inv_threads s (goto t c' s) L L t c' Hi Hpc) as (H1 & H2 & H3 & H4); auto.
  { intros u p Hu Hp Hc. by apply (proj2 (Hh p Hc) u). }
  { intros u p Hu Hp Hc. apply Hu, (iv_destroy _ _ Hi u t p Hp). by apply Hd. }
  { intros u p Hp Hc. by apply (proj1 (Hh p Hc) u). }
  destruct Hi. split; try done.
  - intros p x u Hx Hc. destruct (iv_chain0 p x u Hx Hc) as [?|(v & Hv)]; [by left|]. right. exists v. rewrite pc_goto.
    case_decide as E; [|done]. subst. by destruct (Hns p).
  - intros u. cbn [goto mutex]. rewrite iv_mutex0, pc_goto. case_decide as E; [by rewrite E, Hw|done].
Qed.

Lemma listed s L u p : inv s L -> p ∈ L u -> is_Some (listeners s !! p).
Proof. intros Hi Hp. destruct (iv_elem _ _ Hi u p Hp) as (x & Hx & _). by exists x. Qed.

Lemma held_alive s L u p : inv s L -> holds (pc_of u s) = Some p -> is_Some (listeners s !! p).
Proof.
  intros Hi Hp. pose proof (iv_pc _ _ Hi u) as Hok. destruct (pc_of u s); cbn in *; try done; injection Hp as ->.
  - destruct Hok as [(x & Hx & _) _]. by exists x.
  - destruct Hok as (x & Hx & _). by exists x.
  - apply Hok.
Qed.

Lemma destroyed_alive s L u p : inv s L -> destroying (pc_of u s) = Some p -> is_Some (listeners s !! p) /\ p ∈ dying s.
Proof.
  intros Hi Hp. pose proof (iv_pc _ _ Hi u) as Hok. destruct (pc_of u s); cbn in *; try done; injection Hp as ->; split; apply Hok.
Qed.

Lemma not_held s L p : inv s L -> listeners s !! p = None -> forall u, holds (pc_of u s) <> Some p.
Proof. intros Hi Hn u Hp. destruct (held_alive _ _ _ _ Hi Hp) as [x Hx]. congruence. Qed.

Lemma create_inv s L t n c :
  inv s L -> pc_of t s = EIdle ->
  inv (goto t (ESubscribe (fresh s))
        (mkSt (<[fresh s := mkListener n c false]> (listeners s)) (tails s) (mutex s) (pcs s) (S (fresh s)) (dying s))) L.
Proof.
  intros Hi Ht. set (s1 := mkSt _ _ _ _ _ _). set (p := fresh s) in *.
  assert (listeners s !! p = None) as Hp by (by apply (iv_fresh _ _ Hi)).
  assert (forall q, is_Some (listeners s !! q) -> listeners s1 !! q = listeners s !! q) as Hsame.
  { intros q [x Hq]. cbn. apply lookup_insert_ne. congruence. }
  assert (forall u ptr, seg (listeners s) ptr (L u) -> seg (listeners s1) ptr (L u)) as Hseg.
  { intros u ptr. apply seg_same. intros q Hq. apply Hsame. by eapply listed. }
  destruct (inv_threads s (goto t (ESubscribe p) s1) L L t (ESubscribe p) Hi) as (H1 & H2 & H3 & H4).
  - intros u. rewrite pc_goto. reflexivity.
  - intros u q _ Hq [= <-]. by apply (not_held _ _ p Hi Hp u).
  - done.
  - intros u q Hq [= <-]. destruct (listed _ _ _ _ Hi Hq). congruence.
  - auto.
  - cbn. split; [rewrite lookup_insert_eq; by eexists|]. intros Hd%(iv_dying _ _ Hi). unfold p in Hd. lia.
  - intros u _ Hok. apply (pc_ok_frame s _ L L u _ Hok); cbn [goto fresh dying listeners s1]; [lia| |..].
    + intros q Hq. apply Hsame. by eapply held_alive.
    + intros q Hq Hs. rewrite Hsame by done. done.
    + done.
    + done.
    + intros _. split; [done|]. split; [intros q x Hq Hx; exists x; by rewrite Hsame by (by exists x)|].
      intros q x' _ Hlt Hx'. exists x'. split; [|done]. rewrite lookup_insert_ne in Hx'; [done|]. unfold p. lia.
  - split; try done; cbn [goto listeners tails mutex fresh dying s1].
    + intros u tail Hu Hm. apply Hseg. by apply (iv_tail _ _ Hi).
    + apply (iv_none _ _ Hi).
    + intros u q Hq. destruct (iv_elem _ _ Hi u q Hq) as (x & Hx & Hr). exists x. rewrite lookup_insert_ne; [done|congruence].
    + apply (iv_nodup _ _ Hi).
    + intros q x u Hx Hc. destruct (decide (q = p)) as [->|Hne].
      { right. exists t. rewrite pc_goto. by rewrite decide_True. }
      rewrite lookup_insert_ne in Hx by done. destruct (iv_chain _ _ Hi q x u Hx Hc) as [?|(v & Hv)]; [by left|].
      right. exists v. rewrite pc_goto. case_decide; [congruence|done].
    + intros u. rewrite (iv_mutex _ _ Hi), pc_goto. case_decide; [subst; by rewrite Ht|done].
    + intros q Hq. rewrite lookup_insert_ne by (unfold p; lia). apply (iv_fresh _ _ Hi). unfold p in *. lia.
    + intros q Hq%(iv_dying _ _ Hi). lia.
Qed.

(** A listener outside the lists that nobody holds changes its flags. *)
Lemma write_inv s L t c' p x x' :
  inv s L -> listeners s !! p = Some x -> next x' = next x -> (chain x' = chain x \/ chain x' = None) ->
  (forall u, p ∉ L u) -> (forall u, u <> t -> holds (pc_of u s) <> Some p) ->
  walking c' = walking (pc_of t s) -> (forall q, pc_of t s <> ESubscribe q) ->
  (forall q, holds c' = Some q -> q = p) -> destroying c' = None ->
  (forall s', listeners s' = <[p := x']> (listeners s) -> dying s' = dying s -> fresh s' = fresh s ->
     (forall ptr, seg (listeners s) ptr (L t) -> seg (listeners s') ptr (L t)) -> pc_ok s' L t c') ->
  inv (goto t c' (set_listeners (<[p := x']> (listeners s)) s)) L.
Proof.
  intros Hi Hx Hn Hc Hp Hh Hw Hns Hhc Hdc Hok. set (s1 := set_listeners _ _).
  assert (forall q, q <> p -> listeners s1 !! q = listeners s !! q) as Hsame by (intros q Hq; by apply lookup_insert_ne).
  assert (forall u ptr, seg (listeners s) ptr (L u) -> seg (listeners s1) ptr (L u)) as Hseg.
  { intros u ptr. apply seg_same. intros q Hq. apply Hsame. intros ->. by apply (Hp u). }
  destruct (inv_threads s (goto t c' s1) L L t c' Hi) as (H1 & H2 & H3 & H4).
  - intros u. rewrite pc_goto. reflexivity.
  - intros u q Hu Hq Hq'. apply Hhc in Hq' as ->. by apply (Hh u).
  - intros u q _ _. by rewrite Hdc.
  - intros u q Hq Hq'. apply Hhc in Hq' as ->. by apply (Hp u).
  - auto.
  - apply Hok; try done. apply Hseg.
  - intros u Hu Hu'. apply (pc_ok_frame s _ L L u _ Hu'); cbn [goto fresh dying listeners s1 set_listeners]; [lia| |..].
    + intros q Hq. apply Hsame. intros ->. by apply (Hh u).
    + intros q _ Hs. destruct (decide (q = p)) as [->|]; [rewrite lookup_insert_eq; by eexists|by rewrite lookup_insert_ne].
    + done.
    + done.
    + intros _. split; [done|]. split.
      * intros q y Hq Hy. exists y. rewrite lookup_insert_ne; [done|]. intros ->. by apply (Hp u).
      * intros q y _ _ Hy. destruct (decide (q = p)) as [->|]; [|exists y; by rewrite lookup_insert_ne in Hy].
        rewrite lookup_insert_eq in Hy. injection Hy as <-. by exists x.
  - split; try done; cbn [goto listeners tails mutex fresh dying s1 set_listeners].
    + intros u tail Hu Hm. apply Hseg. by apply (iv_tail _ _ Hi).
    + apply (iv_none _ _ Hi).
    + intros u q Hq. destruct (iv_elem _ _ Hi u q Hq) as (y & Hy & Hr). exists y. rewrite lookup_insert_ne; [done|].
      intros ->. by apply (Hp u).
    + apply (iv_nodup _ _ Hi).
    + intros q y u Hy Hcy. assert (exists z, listeners s !! q = Some z /\ chain z = Some u) as (z & Hz & Hcz).
      { destruct (decide (q = p)) as [->|]; [|exists y; by rewrite lookup_insert_ne in Hy].
        rewrite lookup_insert_eq in Hy. injection Hy as <-. exists x. split; [done|]. destruct Hc; congruence. }
      destruct (iv_chain _ _ Hi q z u Hz Hcz) as [?|(v & Hv)]; [by left|]. right. exists v. rewrite pc_goto.
      case_decide; [subst; by destruct (Hns q)|done].
    + intros u. rewrite (iv_mutex _ _ Hi), pc_goto. case_decide; [subst; by rewrite Hw|done].
    + intros q Hq. rewrite lookup_insert_ne; [by apply (iv_fresh _ _ Hi)|]. intros ->. rewrite (iv_fresh _ _ Hi) in Hx; [done|lia].
    + apply (iv_dying _ _ Hi).
Qed.

Lemma destroy_inv s L t p :
  inv s L -> pc_of t s = EIdle -> is_Some (listeners s !! p) -> p ∉ dying s -> (forall u, pc_of u s <> ESubscribe p) ->
  inv (goto t (ECheck p) (set_dying ({[p]} ∪ dying s) s)) L.
Proof.
  intros Hi Ht Hp Hd Hu. set (s1 := set_dying _ s).
  destruct (inv_threads s (goto t (ECheck p) s1) L L t (ECheck p) Hi) as (H1 & H2 & H3 & H4); try done.
  - intros u. rewrite pc_goto. reflexivity.
  - intros u q _ Hq [= <-]. by apply Hd, (destroyed_alive s L u).
  - auto.
  - split; [set_solver|done].
  - intros u Hne Hok. apply (pc_ok_frame s _ L L u _ Hok); cbn [goto fresh dying listeners s1 set_dying]; try done; [set_solver| |].
    + intros q Hq Hdq. assert (q <> p) by (intros ->; by apply (Hu u)). set_solver.
    + intros _. split; [done|]. split; [intros q x _ Hx; by exists x|]. intros q x _ _ Hx. by exists x.
  - destruct Hi. split; try done; cbn [goto listeners tails mutex fresh dying s1 set_dying].
    + intros q x u Hx Hc. destruct (iv_chain0 q x u Hx Hc) as [?|(v & Hv)]; [by left|]. right. exists v. rewrite pc_goto.
      case_decide; [congruence|done].
    + intros u. rewrite iv_mutex0, pc_goto. case_decide; [subst; by rewrite Ht|done].
    + intros q [->%elem_of_singleton|Hq]%elem_of_union; [|by apply iv_dying0]. destruct Hp as [x Hp].
      destruct (decide (p < fresh s)%nat); [done|]. rewrite iv_fresh0 in Hp; [done|lia].
Qed.

(** ** The walk *)

Lemma lock_inv s L t tail :
  inv s L -> pc_of t s = EIdle -> tails s !! t = Some tail -> mutex s = None ->
  inv (goto t (EVisit tail) (set_mutex (Some t) s)) L.
Proof.
  intros Hi Ht Htl Hm. set (s1 := set_mutex _ s).
  destruct (inv_threads s (goto t (EVisit tail) s1) L L t (EVisit tail) Hi) as (H1 & H2 & H3 & H4); try done.
  - intros u. rewrite pc_goto. reflexivity.
  - auto.
  - apply (iv_tail _ _ Hi _ _ Htl). by rewrite Hm.
  - destruct Hi. split; try done;
      cbn [goto listeners tails mutex fresh dying s1 set_mutex].
    + intros u tl Hu _. apply (iv_tail0 _ _ Hu). by rewrite Hm.
    + intros q x u Hx Hc. destruct (iv_chain0 q x u Hx Hc) as [?|(v & Hv)]; [by left|]. right. exists v. rewrite pc_goto.
      case_decide; [congruence|done].
    + intros u. rewrite pc_goto. case_decide as E; [by subst|]. pose proof (iv_mutex0 u) as Hiff. rewrite Hm in Hiff.
      split; [congruence|]. intros Hw%Hiff. done.
Qed.

(** The walking thread is the one with the mutex. *)
Lemma only_walker s L t u : inv s L -> walking (pc_of t s) = true -> walking (pc_of u s) = true -> t = u.
Proof. intros Hi Ht%(iv_mutex _ _ Hi) Hu%(iv_mutex _ _ Hi). congruence. Qed.

Lemma nobody_walks s L u : inv s L -> mutex s = None -> walking (pc_of u s) = false.
Proof. intros Hi Hm. destruct (walking _) eqn:E; [|done]. apply (iv_mutex _ _ Hi) in E. congruence. Qed.

Lemma unlock_inv s L t :
  inv s L -> pc_of t s = EVisit None ->
  L t = [] /\ inv (goto t EDead (set_mutex None (set_tails (delete t (tails s)) s))) L.
Proof.
  intros Hi Ht. set (s1 := set_mutex _ _). pose proof (iv_pc _ _ Hi t) as Hok. rewrite Ht in Hok. cbn in Hok.
  assert (L t = []) as HL by (destruct (L t); [done|by destruct Hok]). split; [done|].
  destruct (inv_threads s (goto t EDead s1) L L t EDead Hi) as (H1 & H2 & H3 & H4); try done.
  - intros u. rewrite pc_goto. reflexivity.
  - auto.
  - assert (mutex s = Some t) as Hm by (apply (iv_mutex _ _ Hi); by rewrite Ht). pose proof (only_walker s L t) as How.
    destruct Hi. split; try done; cbn [goto listeners tails mutex fresh dying s1 set_mutex set_tails].
    + intros u tl Hu _. rewrite lookup_delete_Some in Hu. destruct Hu as [Hne Hu]. apply (iv_tail0 _ _ Hu). congruence.
    + intros u. destruct (decide (u = t)) as [->|Hne]; [done|]. rewrite lookup_delete_ne by done. apply iv_none0.
    + intros q x u Hx Hc. destruct (iv_chain0 q x u Hx Hc) as [?|(v & Hv)]; [by left|]. right. exists v. rewrite pc_goto.
      case_decide; [congruence|done].
    + intros u. rewrite pc_goto. case_decide as E; [by subst|]. split; [done|]. intros Hw.
      change (walking (pc_of u s) = true) in Hw. apply iv_mutex0 in Hw. congruence.
Qed.

Lemma visit_inv s L t p x :
  inv s L -> pc_of t s = EVisit (Some p) -> listeners s !! p = Some x ->
  exists rest, L t = p :: rest /\
    inv (goto t (ECall p) (set_listeners (<[p := set_chain None x]> (listeners s)) s)) (fun u => if decide (u = t) then rest else L u).
Proof.
  intros Hi Ht Hx. pose proof (iv_pc _ _ Hi t) as Hok. rewrite Ht in Hok. cbn in Hok.
  destruct (L t) as [|p' rest] eqn:HL; [done|]. destruct Hok as ([= <-] & x' & Hx' & Hseg). rewrite Hx in Hx'. injection Hx' as <-.
  exists rest. split; [done|]. set (L' := fun u => _). set (s1 := set_listeners _ _).
  assert (p ∈ L t) as Hin by (rewrite HL; left).
  destruct (iv_elem _ _ Hi t p Hin) as (x' & Hx' & Hc & Hia). rewrite Hx in Hx'. injection Hx' as <-.
  pose proof (iv_nodup _ _ Hi t) as Hnd. rewrite HL in Hnd. apply NoDup_cons in Hnd as [Hnp Hnd].
  assert (forall u q, q ∈ L' u -> q ∈ L u /\ q <> p) as HL'.
  { intros u q. unfold L'. case_decide as E; [subst; rewrite HL; intros Hq; split; [by right|congruence]|].
    intros Hq. split; [done|]. intros ->. destruct (iv_elem _ _ Hi u p Hq) as (y & Hy & Hcy & _). congruence. }
  assert (forall q, q <> p -> listeners s1 !! q = listeners s !! q) as Hsame by (intros q Hq; by apply lookup_insert_ne).
  assert (forall u q, holds (pc_of u s) = Some q -> q <> p) as Hnh.
  { intros u q Hq ->. by apply (iv_held _ _ Hi u p Hq t). }
  assert (forall u ptr l, (forall q, q ∈ l -> q ∈ L' u) -> seg (listeners s) ptr l -> seg (listeners s1) ptr l) as Hkeep.
  { intros u ptr l Hl. apply seg_same. intros q Hq. apply Hsame. by apply (HL' u q), Hl. }
  destruct (inv_threads s (goto t (ECall p) s1) L L' t (ECall p) Hi) as (H1 & H2 & H3 & H4); try done.
  - intros u. rewrite pc_goto. reflexivity.
  - intros u q _ Hq [= <-]. by apply (Hnh u p).
  - intros u q Hq [= <-]. by apply (HL' u p).
  - intros u q Hq. left. by apply HL'.
  - cbn. exists (set_chain None x). rewrite lookup_insert_eq. repeat split; try done. cbn.
    apply (Hkeep t); unfold L'; rewrite decide_True by done; auto.
  - intros u Hne Hok. apply (pc_ok_frame s _ L L' u _ Hok); cbn [goto fresh dying listeners s1 set_listeners]; [lia| |..]; try done.
    + intros q Hq. apply Hsame. by apply (Hnh u).
    + intros q _ Hs. destruct (decide (q = p)) as [->|]; [rewrite lookup_insert_eq; by eexists|by rewrite lookup_insert_ne].
    + intros Hw. destruct Hne. symmetry. apply (only_walker s L t u Hi); [by rewrite Ht|done].
  - split; try done; cbn [goto listeners tails mutex fresh dying s1 set_listeners].
    + assert (mutex s = Some t) as Hm by (apply (iv_mutex _ _ Hi); by rewrite Ht).
      intros u tl Hu Hmu. apply (Hkeep u); [done|]. unfold L'. rewrite decide_False by congruence. by apply (iv_tail _ _ Hi).
    + intros u Hu. pose proof (iv_none _ _ Hi u Hu) as E. unfold L'. case_decide; [subst; by rewrite HL in E|done].
    + intros u q Hq. destruct (HL' u q Hq) as [Hq1 Hq2]. rewrite lookup_insert_ne by done. by apply (iv_elem _ _ Hi).
    + intros u. unfold L'. case_decide; [done|apply (iv_nodup _ _ Hi)].
    + intros q y u Hy Hcy. destruct (decide (q = p)) as [->|Hne].
      { rewrite lookup_insert_eq in Hy. injection Hy as <-. done. }
      rewrite lookup_insert_ne in Hy by done. destruct (iv_chain _ _ Hi q y u Hy Hcy) as [Hq|(v & Hv)].
      * left. unfold L'. case_decide; [|done]. subst. rewrite HL in Hq. by apply elem_of_cons in Hq as [|].
      * right. exists v. rewrite pc_goto. case_decide; [congruence|done].
    + intros u. rewrite (iv_mutex _ _ Hi), pc_goto. case_decide; [subst; by rewrite Ht|done].
    + intros q Hq. rewrite lookup_insert_ne; [by apply (iv_fresh _ _ Hi)|]. intros ->. rewrite (iv_fresh _ _ Hi) in Hx; [done|lia].
    + apply (iv_dying _ _ Hi).
Qed.

(** ** Under the mutex *)

Lemma subscribe_inv s L t p :
  inv s L -> pc_of t s = ESubscribe p -> mutex s = None ->
  exists s', subscribe t p s = Some s' /\ pcs s' = pcs s /\ inv (goto t EIdle s') (fun u => if decide (u = t) then p :: L u else L u).
Proof.
  intros Hi Ht Hm. pose proof (iv_pc _ _ Hi t) as Hok. rewrite Ht in Hok. destruct Hok as [(x & Hx & Hia) Hd].
  assert (forall u, p ∉ L u) as Hp by (apply (iv_held _ _ Hi t); by rewrite Ht).
  unfold subscribe, write_listener. rewrite Hx. eexists. split; [reflexivity|]. split; [reflexivity|].
  set (tail := instance t s). set (x' := set_chain (Some t) (set_next tail x)). set (s1 := set_tails _ _). set (L' := fun u => _).
  assert (forall q, q <> p -> listeners s1 !! q = listeners s !! q) as Hsame by (intros q Hq; by apply lookup_insert_ne).
  assert (forall u ptr, seg (listeners s) ptr (L u) -> seg (listeners s1) ptr (L u)) as Hseg.
  { intros u ptr. apply seg_same. intros q Hq. apply Hsame. intros ->. by apply (Hp u). }
  assert (seg (listeners s) tail (L t)) as Htl.
  { unfold tail, instance. destruct (tails s !! t) as [tl|] eqn:E; [apply (iv_tail _ _ Hi); [done|by rewrite Hm]|].
    by rewrite (iv_none _ _ Hi t E). }
  destruct (inv_threads s (goto t EIdle s1) L L' t EIdle Hi) as (H1 & H2 & H3 & H4); try done.
  - intros u. rewrite pc_goto. reflexivity.
  - intros u q. unfold L'. case_decide; [|auto]. intros [->|Hq]%elem_of_cons; [right; by rewrite Ht|by left].
  - intros u Hne Hok. apply (pc_ok_frame s _ L L' u _ Hok); try done; cbn [goto listeners s1 set_listeners set_tails].
    + intros q Hq. apply Hsame. intros ->. apply Hne, (iv_holds _ _ Hi u t p Hq). by rewrite Ht.
    + intros q _ Hs. destruct (decide (q = p)) as [->|]; [rewrite lookup_insert_eq; by eexists|by rewrite lookup_insert_ne].
    + by rewrite (nobody_walks s L u Hi Hm).
  - split; try done; cbn [goto listeners tails mutex fresh dying s1 set_listeners set_tails].
    + intros u tl Hu _. unfold L'. destruct (decide (u = t)) as [->|Hne].
      * rewrite lookup_insert_eq in Hu. injection Hu as <-. split; [done|]. exists x'. rewrite lookup_insert_eq. split; [done|].
        by apply Hseg.
      * rewrite lookup_insert_ne in Hu by done. apply Hseg. apply (iv_tail _ _ Hi _ _ Hu). by rewrite Hm.
    + intros u. destruct (decide (u = t)) as [->|Hne]; [by rewrite lookup_insert_eq|]. rewrite lookup_insert_ne by done.
      unfold L'. rewrite decide_False by done. apply (iv_none _ _ Hi).
    + intros u q Hq. assert (u = t /\ q = p \/ q ∈ L u) as [[-> ->]|Hq'].
      { unfold L' in Hq. case_decide; [|by right]. apply elem_of_cons in Hq as [->|Hq]; [by left|by right]. }
      * exists x'. by rewrite lookup_insert_eq.
      * rewrite lookup_insert_ne by (intros ->; by apply (Hp u)). by apply (iv_elem _ _ Hi).
    + intros u. unfold L'. case_decide; [|apply (iv_nodup _ _ Hi)]. apply NoDup_cons. split; [apply Hp|apply (iv_nodup _ _ Hi)].
    + intros q y u Hy Hcy. destruct (decide (q = p)) as [->|Hne].
      { rewrite lookup_insert_eq in Hy. injection Hy as <-. cbn in Hcy. injection Hcy as <-. left. unfold L'. rewrite decide_True by done. left. }
      rewrite lookup_insert_ne in Hy by done. destruct (iv_chain _ _ Hi q y u Hy Hcy) as [Hq|(v & Hv)].
      * left. unfold L'. case_decide; [by right|done].
      * right. exists v. rewrite pc_goto. case_decide; [congruence|done].
    + intros u. rewrite (iv_mutex _ _ Hi), pc_goto. case_decide; [subst; by rewrite Ht|done].
    + intros q Hq. rewrite lookup_insert_ne; [by apply (iv_fresh _ _ Hi)|]. intros ->. rewrite (iv_fresh _ _ Hi) in Hx; [done|lia].
    + apply (iv_dying _ _ Hi).
Qed.

Lemma inv_ext s L L' : (forall u, L' u = L u) -> inv s L -> inv s L'.
Proof.
  intros E Hi. split; try apply Hi.
  - intros u. rewrite E. apply Hi.
  - intros u. rewrite E. apply Hi.
  - intros u. rewrite E. apply Hi.
  - intros u. rewrite E. apply Hi.
  - intros p x u. rewrite E. apply Hi.
  - intros u. pose proof (iv_pc _ _ Hi u) as H. unfold pc_ok in *. by rewrite E.
  - intros u p Hp v. rewrite E. by apply (iv_held _ _ Hi u).
Qed.

(** The mutex is free, and the lists lose [p]: only [next] fields change, and the chain of [p]. *)
Lemma unlinked_inv s s' L t p :
  inv s L -> mutex s = None -> pc_of t s = EUnsubscribe p -> others s' = others s ->
  (forall q, q <> p -> rest_of <$> listeners s' !! q = rest_of <$> listeners s !! q) ->
  (forall x, listeners s' !! p = Some x -> chain x = None) -> is_Some (listeners s' !! p) ->
  (forall q, (forall u, q ∉ L u) -> q <> p -> listeners s' !! q = listeners s !! q) ->
  (forall u, is_Some (tails s !! u) -> is_Some (tails s' !! u)) ->
  (forall u tail, tails s' !! u = Some tail -> seg (listeners s') tail (filter (fun q => q <> p) (L u))) ->
  inv (goto t (EFree p) s') (fun u => filter (fun q => q <> p) (L u)).
Proof.
  intros Hi Hm Ht Ho Hrest Hpc [xp Hxp] Hsame Hts Hseg. set (L' := fun u => _). injection Ho as Em Ep Ef Ed.
  destruct (destroyed_alive s L t p Hi) as [[x0 Hx0] Hdp]; [by rewrite Ht|].
  assert (forall q, is_Some (listeners s !! q) -> is_Some (listeners s' !! q)) as Halive.
  { intros q Hq. destruct (decide (q = p)) as [->|Hne]; [by eexists|]. pose proof (Hrest q Hne) as E. destruct Hq as [y Hy].
    rewrite Hy in E. by destruct (listeners s' !! q). }
  assert (forall q y, listeners s' !! q = Some y -> q <> p -> exists z, listeners s !! q = Some z /\ chain z = chain y /\ inactive z = inactive y) as Hback.
  { intros q y Hy Hne. pose proof (Hrest q Hne) as E. rewrite Hy in E. destruct (listeners s !! q) as [z|]; [|done].
    injection E as E1 E2. by exists z. }
  assert (forall u q, q ∈ L' u <-> q <> p /\ q ∈ L u) as HL' by (intros u q; unfold L'; by rewrite list_elem_of_filter).
  assert (forall u, pc_of u s' = pc_of u s) as Epc by (intros u; unfold pc_of; by rewrite Ep).
  assert (forall u, pc_of u s <> ESubscribe p) as Hnsub.
  { intros u Hu. pose proof (iv_pc _ _ Hi u) as Hok. rewrite Hu in Hok. by apply (proj2 Hok). }
  assert (forall u q, u <> t -> holds (pc_of u s) = Some q -> q <> p) as Hnh.
  { intros u q Hne Hq ->. pose proof (nobody_walks s L u Hi Hm) as Hw. destruct (pc_of u s) eqn:Hu; try done; injection Hq as ->.
    - by apply (Hnsub u).
    - apply Hne, (iv_destroy _ _ Hi u t p); [by rewrite Hu|by rewrite Ht]. }
  destruct (inv_threads s (goto t (EFree p) s') L L' t (EFree p) Hi) as (H1 & H2 & H3 & H4).
  - intros u. rewrite pc_goto, Epc. done.
  - intros u q Hne Hq [= <-]. by apply (Hnh u p).
  - intros u q Hne Hq [= <-]. apply Hne, (iv_destroy _ _ Hi u t p Hq). by rewrite Ht.
  - intros u q Hq [= <-]. by apply HL' in Hq as [].
  - intros u q [_ Hq]%HL'. by left.
  - cbn. rewrite Ed, Hxp. by split.
  - intros u Hne Hok. apply (pc_ok_frame s _ L L' u _ Hok); cbn [goto listeners fresh dying]; rewrite ?Ef, ?Ed; try done.
    + intros q Hq. apply Hsame; [by apply (iv_held _ _ Hi u)|by apply (Hnh u)].
    + auto.
    + by rewrite (nobody_walks s L u Hi Hm).
  - split; try done; cbn [goto listeners tails mutex fresh dying]; rewrite ?Em, ?Ef, ?Ed.
    + intros u tl Hu _. by apply Hseg.
    + intros u Hu. unfold L'. rewrite (iv_none _ _ Hi); [done|]. destruct (tails s !! u) eqn:E; [|done].
      destruct (Hts u) as [? ?]; [by eexists|congruence].
    + intros u q [Hne Hq]%HL'. destruct (iv_elem _ _ Hi u q Hq) as (y & Hy & Hcy & Hiy). pose proof (Hrest q Hne) as E.
      rewrite Hy in E. destruct (listeners s' !! q) as [z|]; [|done]. injection E as E1 E2. exists z. split; [done|]. split; congruence.
    + intros u. apply NoDup_filter, (iv_nodup _ _ Hi).
    + intros q y u Hy Hcy. destruct (decide (q = p)) as [->|Hne]; [rewrite (Hpc y Hy) in Hcy; done|].
      destruct (Hback q y Hy Hne) as (z & Hz & Ez & _). destruct (iv_chain _ _ Hi q z u Hz) as [Hq|(v & Hv)]; [congruence|left; by apply HL'|].
      right. exists v. rewrite pc_goto, Epc. case_decide; [congruence|done].
    + intros u. rewrite (iv_mutex _ _ Hi), pc_goto, Epc. case_decide; [subst; by rewrite Ht|done].
    + intros q Hq. destruct (listeners s' !! q) as [y|] eqn:Hy; [|done]. pose proof (iv_fresh _ _ Hi q Hq) as Hn.
      destruct (decide (q = p)) as [->|Hne]; [congruence|]. destruct (Hback q y Hy Hne) as (z & Hz & _). congruence.
    + apply (iv_dying _ _ Hi).
Qed.

Lemma unsubscribe_inv s L t p :
  inv s L -> pc_of t s = EUnsubscribe p -> mutex s = None ->
  exists s', unsubscribe p s = Some s' /\ pcs s' = pcs s /\ inv (goto t (EFree p) s') (fun u => filter (fun q => q <> p) (L u)).
Proof.
  intros Hi Ht Hm. destruct (destroyed_alive s L t p Hi) as [[x Hx] Hd]; [by rewrite Ht|]. unfold unsubscribe. rewrite Hx.
  destruct (chain x) as [v|] eqn:Hc.
  - assert (p ∈ L v) as Hp.
    { destruct (iv_chain _ _ Hi p x v Hx Hc) as [?|(u & Hu)]; [done|]. pose proof (iv_pc _ _ Hi u) as Hok. rewrite Hu in Hok. by destruct (proj2 Hok). }
    destruct (tails s !! v) as [tail|] eqn:Htl; [|rewrite (iv_none _ _ Hi v Htl) in Hp; by apply elem_of_nil in Hp].
    set (s1 := set_listeners _ s).
    assert (forall ptr l, seg (listeners s) ptr l -> seg (listeners s1) ptr l) as Hs1.
    { intros ptr l. apply seg_ext. intros q y Hq Hy. cbn. destruct (decide (q = p)) as [->|Hne].
      - rewrite lookup_insert_eq. exists (set_chain None x). split; [done|]. rewrite Hx in Hy. by injection Hy as <-.
      - exists y. by rewrite lookup_insert_ne. }
    assert (seg (listeners s1) tail (L v)) as Hseg by (apply Hs1, (iv_tail _ _ Hi); [done|by rewrite Hm]).
    destruct (unlink_spec (S (size (listeners s1))) v p (L v) None tail s1) as (s' & tail' & E & Hpt & Hs' & Ho & Hu & Hv & _ & Hsame & Hrest);
      [by pose proof (seg_length _ _ _ (iv_nodup _ _ Hi v) Hseg); lia|done|apply (iv_nodup _ _ Hi)|done|done|].
    exists s'. split; [done|]. split; [by injection Ho|].
    assert (rest_of <$> listeners s' !! p = Some (None, inactive x)) as Hpx by (rewrite Hrest; cbn; by rewrite lookup_insert_eq).
    apply (unlinked_inv s s' L t p); try done.
    + intros q Hq. rewrite Hrest. cbn. by rewrite lookup_insert_ne.
    + intros y Hy. rewrite Hy in Hpx. by injection Hpx as E1 _.
    + by destruct (listeners s' !! p).
    + intros q Hq Hne. rewrite Hsame by done. cbn. by rewrite lookup_insert_ne.
    + intros u Hsu. destruct (decide (u = v)) as [->|Hne]; [by apply Hv|by rewrite Hu].
    + intros u tl Htu. destruct (decide (u = v)) as [->|Hne]; [cbn in Hpt; by rewrite Htu in Hpt; injection Hpt as ->|].
      rewrite Hu in Htu by done. assert (forall q, q ∈ L u -> q ∉ L v) as Hdisj.
      { intros q Hq1 Hq2. destruct (iv_elem _ _ Hi u q Hq1) as (y & Hy & Hcy & _), (iv_elem _ _ Hi v q Hq2) as (y' & Hy' & Hcy' & _). congruence. }
      rewrite filter_absent by (intros Hpu; by apply (Hdisj p)).
      eapply seg_same; [|apply Hs1, (iv_tail _ _ Hi u); [exact Htu|by rewrite Hm]]. intros q Hq. apply Hsame; [by apply Hdisj|done].
  - exists s. split; [done|]. split; [done|]. assert (forall u, p ∉ L u) as Hp.
    { intros u Hpu. destruct (iv_elem _ _ Hi u p Hpu) as (y & Hy & Hcy & _). congruence. }
    apply (unlinked_inv s s L t p); try done; [intros y Hy; congruence|].
    intros u tl Hu. rewrite filter_absent by done. apply (iv_tail _ _ Hi); [done|by rewrite Hm].
Qed.

Lemma free_inv s L t p :
  inv s L -> pc_of t s = EFree p -> inv (goto t EIdle (set_listeners (delete p (listeners s)) s)) L.
Proof.
  intros Hi Ht. set (s1 := set_listeners _ s).
  assert (forall u, p ∉ L u) as Hp by (apply (iv_held _ _ Hi t); by rewrite Ht).
  assert (forall u q, u <> t -> holds (pc_of u s) = Some q -> q <> p) as Hnh.
  { intros u q Hne Hq ->. apply Hne, (iv_holds _ _ Hi u t p Hq). by rewrite Ht. }
  assert (forall u q, u <> t -> destroying (pc_of u s) = Some q -> q <> p) as Hnd.
  { intros u q Hne Hq ->. apply Hne, (iv_destroy _ _ Hi u t p Hq). by rewrite Ht. }
  assert (forall q, q <> p -> listeners s1 !! q = listeners s !! q) as Hsame by (intros q Hq; by apply lookup_delete_ne).
  assert (forall q x, listeners s1 !! q = Some x -> listeners s !! q = Some x) as Hback by (intros q x; cbn; by rewrite lookup_delete_Some; intros []).
  destruct (inv_threads s (goto t EIdle s1) L L t EIdle Hi) as (H1 & H2 & H3 & H4); try done.
  - intros u. rewrite pc_goto. reflexivity.
  - auto.
  - intros u Hne Hok. apply (pc_ok_frame s _ L L u _ Hok); try done; cbn [goto fresh dying listeners].
    + intros q Hq. apply Hsame. by apply (Hnh u).
    + intros q Hq Hs. rewrite Hsame; [done|by apply (Hnd u)].
    + intros _. split; [done|]. split; [|by intros q x _ _ Hx%Hback; exists x].
      intros q x Hq Hx. exists x. rewrite Hsame; [done|]. intros ->. by apply (Hp u).
  - split; try done; cbn [goto listeners tails mutex fresh dying].
    + intros u tl Hu Hmu. eapply seg_same; [|by apply (iv_tail _ _ Hi u)]. intros q Hq. apply Hsame. intros ->. by apply (Hp u).
    + apply (iv_none _ _ Hi).
    + intros u q Hq. rewrite Hsame by (intros ->; by apply (Hp u)). by apply (iv_elem _ _ Hi).
    + apply (iv_nodup _ _ Hi).
    + intros q x u Hx%Hback Hc. destruct (iv_chain _ _ Hi q x u Hx Hc) as [?|(v & Hv)]; [by left|]. right. exists v. rewrite pc_goto.
      case_decide; [congruence|done].
    + intros u. rewrite pc_goto. change (mutex s1) with (mutex s). rewrite (iv_mutex _ _ Hi). case_decide; [subst; by rewrite Ht|done].
    + intros q Hq. destruct (listeners s1 !! q) eqn:E; [|done]. apply Hback in E. by rewrite (iv_fresh _ _ Hi) in E.
    + apply (iv_dying _ _ Hi).
Qed.

(** ** Every step *)

(** The listeners the specification has for each thread: the one being called, and those on
    the list. *)
Definition abs (s : St) (L : Chains) : Chains :=
  fun t => match pc_of t s with ECall p => p :: L t | _ => L t end.

Lemma abs_goto s t c' s' L' u :
  pcs s' = <[t := c']> (pcs s) ->
  abs s' L' u = if decide (u = t) then match c' with ECall p => p :: L' u | _ => L' u end
                else match pc_of u s with ECall p => p :: L' u | _ => L' u end.
Proof.
  intros E. unfold abs, pc_of. rewrite E. case_decide as Eu; [subst; by rewrite lookup_insert_eq|by rewrite lookup_insert_ne by congruence].
Qed.

(** No walk has to read a listener that is gone. *)
Definition alive (s : St) : Prop := forall t p, pc_of t s = EAdvance p -> is_Some (listeners s !! p).

(** A sub-queue is freed only while no thread is exiting. *)
Definition free_allowed (t : nat) (s : St) : bool :=
  match pc_of t s with EFree _ => bool_decide (mutex s = None) | _ => true end.

Lemma alive_goto s s' t c' :
  alive s -> (forall u, pc_of u s' = if decide (u = t) then c' else pc_of u s) ->
  (forall p, is_Some (listeners s !! p) -> is_Some (listeners s' !! p)) ->
  (forall p, c' = EAdvance p -> is_Some (listeners s' !! p)) -> alive s'.
Proof.
  intros Ha Hpc Hk Hc u p. rewrite Hpc. case_decide; [apply Hc|]. intros Hu. by apply Hk, (Ha u).
Qed.

Lemma alive_free s L s' t c' :
  inv s L -> mutex s = None -> pcs s' = <[t := c']> (pcs s) -> walking c' = false -> alive s'.
Proof.
  intros Hi Hm E Hw u p Hu. exfalso. unfold pc_of in Hu. rewrite E in Hu. destruct (decide (u = t)) as [->|Hne].
  - rewrite lookup_insert_eq in Hu. cbn in Hu. by subst.
  - rewrite lookup_insert_ne in Hu by done. pose proof (nobody_walks s L u Hi Hm) as Hn. unfold pc_of in Hn. by rewrite Hu in Hn.
Qed.

(** What a step must do. *)
Definition step_ok (t : nat) (s : St) (L : Chains) (o : outcome) : Prop :=
  match o with
  | Blocked => True
  | Fault => exists p, pc_of t s = EAdvance p /\ listeners s !! p = None
  | Next s' ls =>
      exists L', inv s' L' /\ (alive s -> free_allowed t s = true -> alive s') /\
        forall A, (forall u, A u = abs s L u) -> exists A', spec_run ls A = Some A' /\ forall u, A' u = abs s' L' u
  end.

Lemma silent_ok t s L s' L' c' :
  inv s' L' -> (alive s -> free_allowed t s = true -> alive s') -> pcs s' = <[t := c']> (pcs s) ->
  (forall u, u <> t -> L' u = L u) ->
  match c' with ECall p => p :: L' t | _ => L' t end = abs s L t -> step_ok t s L (Next s' []).
Proof.
  intros Hi Ha Hp HL Ht. exists L'. split; [done|]. split; [done|]. intros A HA. exists A. split; [done|]. intros u.
  rewrite HA, (abs_goto s t c' s' L' u Hp). case_decide; [subst; by rewrite <- Ht|]. unfold abs. by rewrite HL.
Qed.

Lemma goto_ok t s L c' :
  inv (goto t c' s) L -> (forall p, c' = EAdvance p -> is_Some (listeners s !! p)) ->
  match c' with ECall p => p :: L t | _ => L t end = abs s L t -> step_ok t s L (Next (goto t c' s) []).
Proof.
  intros Hi Ha Ht. apply (silent_ok t s L _ L c'); try done. intros Hal _. apply (alive_goto s _ t c'); try done. intros u. apply pc_goto.
Qed.

(** The mutex is free. *)
Lemma locked_ok t s L s' L' c' l A' :
  inv s L -> inv s' L' -> mutex s = None -> pcs s' = <[t := c']> (pcs s) -> walking c' = false ->
  (forall A, (forall u, A u = L u) -> exists A1, spec_step l A = Some A1 /\ forall u, A1 u = A' u) -> (forall u, A' u = L' u) ->
  step_ok t s L (Next s' [l]).
Proof.
  intros Hi Hi' Hm Hp Hw Hl HA'. exists L'. split; [done|]. split; [intros _ _; by apply (alive_free s L s' t c')|]. intros A HA.
  destruct (Hl A) as (A1 & E & H1).
  { intros u. rewrite HA. unfold abs. pose proof (nobody_walks s L u Hi Hm) as Hn. by destruct (pc_of u s). }
  exists A1. cbn [spec_run]. rewrite E. split; [done|]. intros u. rewrite H1, HA', (abs_goto s t c' s' L' u Hp).
  case_decide; [by destruct c'|]. pose proof (nobody_walks s L u Hi Hm) as Hn. by destruct (pc_of u s).
Qed.

Lemma request_ok t r s L : inv s L -> pc_of t s = EIdle -> step_ok t s L (request_step t r s).
Proof.
  intros Hi Ht. assert (abs s L t = L t) as Habs by (unfold abs; by rewrite Ht). destruct r as [n c|p|p| |]; cbn [request_step]; [..|done].
  - apply (silent_ok t s L _ L (ESubscribe (fresh s))); try done; [by apply create_inv|].
    intros Ha _. apply (alive_goto s _ t (ESubscribe (fresh s)) Ha); try done; [intros u; by rewrite pc_goto|].
    intros p [x Hp]. cbn. rewrite lookup_insert_ne; [by exists x|]. intros <-. by rewrite (iv_fresh _ _ Hi) in Hp.
  - destruct (listeners s !! p) as [x|] eqn:Hx; [|done]. destruct (inactive x) eqn:Hia; [|done]. cbn [andb].
    case_bool_decide as Hd; [done|]. cbn [negb]. unfold write_listener. rewrite Hx. cbn [made].
    assert (forall u, p ∉ L u) as Hp.
    { intros u Hp. destruct (iv_elem _ _ Hi u p Hp) as (y & Hy & _ & Hiy). congruence. }
    apply (silent_ok t s L _ L (ESubscribe p)); try done.
    + apply (write_inv s L t (ESubscribe p) p x); try done; [by left| |by rewrite Ht|by rewrite Ht|by intros q [= <-]|].
      * intros u Hu Hq. pose proof (iv_pc _ _ Hi u) as Hok. destruct (pc_of u s); cbn in Hok, Hq; try done; injection Hq as ->.
        -- destruct Hok as [(y & Hy & Hiy) _]. congruence.
        -- destruct Hok as (y & Hy & Hiy & _). congruence.
        -- by apply Hd, (proj1 Hok).
      * intros s' El Ed _ _. cbn. rewrite El, Ed, lookup_insert_eq. split; [by eexists|done].
    + intros Ha _. apply (alive_goto s _ t (ESubscribe p) Ha); try done; [intros u; by rewrite pc_goto|].
      intros q Hq. cbn. destruct (decide (q = p)) as [->|]; [rewrite lookup_insert_eq; by eexists|by rewrite lookup_insert_ne].
  - case_bool_decide as Hp; [|done]. case_bool_decide as Hd; [done|]. cbn [negb andb]. destruct (unused p s) eqn:Hu; [|done].
    apply (silent_ok t s L _ L (ECheck p)); try done.
    + apply destroy_inv; try done. intros u Hs. unfold unused in Hu. apply bool_decide_eq_true in Hu. unfold pc_of in Hs.
      destruct (pcs s !! u) as [c|] eqn:E; [|done]. cbn in Hs. by apply (Hu u c E).
    + intros Ha _. apply (alive_goto s _ t (ECheck p) Ha); try done. intros u. by rewrite pc_goto.
  - destruct (tails s !! t) as [tail|] eqn:Htl.
    + destruct (mutex s) eqn:Hm; [done|]. apply (silent_ok t s L _ L (EVisit tail)); try done; [by apply lock_inv|].
      intros Ha _. apply (alive_goto s _ t (EVisit tail) Ha); try done. intros u. by rewrite pc_goto.
    + exists L. split; [apply inv_goto; try done; by rewrite Ht|]. split.
      { intros Ha _. apply (alive_goto s _ t EDead Ha); try done. intros u. by rewrite pc_goto. }
      intros A HA. exists A. cbn [spec_run spec_step]. rewrite HA, Habs, (iv_none _ _ Hi t Htl). split; [done|]. intros u.
      rewrite HA, (abs_goto s t EDead (goto t EDead s) L u) by done. case_decide; [subst; done|done].
Qed.

Lemma steps_ok t r s L : inv s L -> step_ok t s L (step t r s).
Proof.
  intros Hi. unfold step. destruct (pc_of t s) eqn:Ht; [by apply request_ok|..].
  all: assert (abs s L t = match pc_of t s with ECall p => p :: L t | _ => L t end) as Habs by done; rewrite Ht in Habs.
  all: pose proof (iv_pc _ _ Hi t) as Hok; rewrite Ht in Hok; cbn [pc_ok] in Hok.
  all: try (destruct r; try done; []).
  - (* subscribe *) destruct (mutex s) eqn:Hm; [done|]. destruct (subscribe_inv s L t p Hi Ht Hm) as (s' & E & Ep & Hi'). rewrite E. cbn [made].
    apply (locked_ok t s L _ _ EIdle _ (fun u => if decide (u = t) then p :: L u else L u) Hi Hi' Hm); try done.
    + cbn. by rewrite Ep.
    + intros A HA. eexists. split; [done|]. intros u. cbn. by rewrite HA.
  - (* EVisit *) destruct ptr as [p|], r; try done.
    + destruct (L t) as [|p' rest] eqn:HL; [done|]. destruct Hok as ([= <-] & x & Hx & _). unfold write_listener. rewrite Hx.
      destruct (visit_inv s L t p x Hi Ht Hx) as (rest' & E & Hi'). rewrite HL in E. injection E as <-.
      eapply (silent_ok t s L _ _ (ECall p) Hi'); try done.
      * intros Ha _. apply (alive_goto s _ t (ECall p) Ha); try done; [intros u; by rewrite pc_goto|].
        intros q Hq. cbn. destruct (decide (q = p)) as [->|]; [rewrite lookup_insert_eq; by eexists|by rewrite lookup_insert_ne].
      * intros u Hu. by rewrite decide_False.
      * by rewrite decide_True, Habs by done.
    + destruct (unlock_inv s L t Hi Ht) as [HL Hi']. exists L. split; [done|]. split.
      { intros Ha _. apply (alive_goto s _ t EDead Ha); try done. intros u. by rewrite pc_goto. }
      intros A HA. exists A. cbn [spec_run spec_step]. rewrite HA, Habs, HL. split; [done|]. intros u.
      rewrite HA. unfold abs. rewrite pc_goto. case_decide; [subst; by rewrite Ht|done].
  - (* ECall *) destruct Hok as (x & Hx & Hia & Hc & Hs). unfold write_listener. rewrite Hx. cbn [made].
    assert (forall u, p ∉ L u) as Hp by (apply (iv_held _ _ Hi t); by rewrite Ht).
    exists L. split; [|split].
    + apply (write_inv s L t (EAdvance p) p x); try done; [by left| |by rewrite Ht|by rewrite Ht|].
      * intros u Hu Hq. apply Hu, (iv_holds _ _ Hi u t p Hq). by rewrite Ht.
      * intros s' El _ Ef Hseg. cbn. rewrite El, Ef. split.
        { destruct (decide (p < fresh s)%nat); [done|]. rewrite (iv_fresh _ _ Hi) in Hx; [done|lia]. }
        intros y. rewrite lookup_insert_eq. intros [= <-]. rewrite <- El. by apply Hseg.
    + intros Ha _. apply (alive_goto s _ t (EAdvance p) Ha); [intros u; by rewrite pc_goto| |].
      * intros q Hq. cbn. destruct (decide (q = p)) as [->|]; [rewrite lookup_insert_eq; by eexists|by rewrite lookup_insert_ne].
      * intros q [= <-]. cbn. rewrite lookup_insert_eq. by eexists.
    + intros A HA. cbn [spec_run spec_step]. rewrite HA, Habs, decide_True by done. eexists. split; [done|]. intros u. cbn.
      unfold abs. rewrite pc_goto. case_decide; [by subst|]. rewrite HA. done.
  - (* EAdvance *) destruct (listeners s !! p) as [x|] eqn:Hx; [|by exists p]. destruct Hok as [_ Hs].
    apply goto_ok; [|done|by rewrite Habs].
    apply inv_goto; try done; [by rewrite Ht|by apply Hs|by rewrite Ht].
  - by destruct r.
  - (* ECheck *) destruct Hok as [Hd (x & Hx)]. rewrite Hx.
    apply goto_ok; [|by destruct (inactive x)|rewrite Habs; by destruct (inactive x)].
    apply inv_goto; try done.
    + rewrite Ht. by destruct (inactive x).
    + destruct (inactive x); (split; [done|by exists x]).
    + by rewrite Ht.
    + intros q Hq. destruct (inactive x) eqn:Hia; [|done]. injection Hq as <-. split.
      * intros u Hu. destruct (iv_elem _ _ Hi u p Hu) as (y & Hy & _ & Hiy). congruence.
      * intros u Hu Hq. pose proof (iv_pc _ _ Hi u) as Hok. destruct (pc_of u s) eqn:Eu; cbn in Hok, Hq; try done; injection Hq as ->.
        -- by apply (proj2 Hok).
        -- destruct Hok as (y & Hy & Hiy & _). congruence.
        -- apply Hu, (iv_destroy _ _ Hi u t p); [by rewrite Eu|by rewrite Ht].
    + intros q Hq. rewrite Ht. by destruct (inactive x).
  - (* EUnsubscribe *) destruct (mutex s) eqn:Hm; [done|]. destruct (unsubscribe_inv s L t p Hi Ht Hm) as (s' & E & Ep & Hi'). rewrite E. cbn [made].
    apply (locked_ok t s L _ _ (EFree p) _ (fun u => filter (fun q => q <> p) (L u)) Hi Hi' Hm); try done.
    + cbn. by rewrite Ep.
    + intros A HA. eexists. split; [done|]. intros u. cbn. by rewrite HA.
  - (* EFree *) destruct Hok as [Hd (x & Hx)]. rewrite Hx. pose proof (free_inv s L t p Hi Ht) as Hi'.
    apply (silent_ok t s L _ L EIdle); try done. intros _ Hf. unfold free_allowed in Hf. rewrite Ht in Hf.
    apply bool_decide_eq_true in Hf. by eapply (alive_free s L _ t EIdle).
Qed.

Lemma spec_run_app l1 : forall l2 A, spec_run (l1 ++ l2) A = A' ← spec_run l1 A; spec_run l2 A'.
Proof. induction l1 as [|l l1 IH]; intros l2 A; cbn; [done|]. destruct (spec_step l A); [apply IH|done]. Qed.

(** Sub-queues are freed only while no thread is exiting. *)
Fixpoint calm (sched : list (nat * request)) (s : St) : bool :=
  match sched with
  | [] => true
  | (t, r) :: sched =>
      match step t r s with
      | Blocked => calm sched s
      | Fault => true
      | Next s' _ => free_allowed t s && calm sched s'
      end
  end.

Lemma schedule_ok sched : forall s L A, inv s L -> (forall u, A u = abs s L u) ->
  exists A', spec_run (run sched s).2 A = Some A' /\
    (forall s', (run sched s).1 = Some s' -> exists L', inv s' L' /\ forall u, A' u = abs s' L' u) /\
    (alive s -> calm sched s = true -> is_Some (run sched s).1).
Proof.
  induction sched as [|[t r] sched IH]; intros s L A Hi HA; cbn [run calm].
  { exists A. split; [done|]. split; [intros s' [= <-]; by exists L|by eexists]. }
  pose proof (steps_ok t r s L Hi) as Hok. destruct (step t r s) as [| |s1 ls]; cbn [step_ok] in Hok; [by apply (IH s L)| |].
  - exists A. split; [done|]. split; [done|]. intros Ha _. destruct Hok as (p & Hp & Hn). destruct (Ha t p Hp). congruence.
  - destruct Hok as (L1 & Hi1 & Ha1 & Hsim). destruct (Hsim A HA) as (A1 & E1 & HA1).
    destruct (IH s1 L1 A1 Hi1 HA1) as (A2 & E2 & H2 & H3). destruct (run sched s1) as [o ls']. cbn [fst snd] in *.
    exists A2. split; [rewrite spec_run_app, E1; exact E2|]. split; [done|]. intros Ha Hc. apply andb_true_iff in Hc as [Hf Hc]. auto.
Qed.

(** ** Theorems *)

(** The thread-exit notifier implements its specification, whatever the order in which
    threads create sub-queues, take them over, destroy them and exit.  What happens is allowed
    by the specification: an exiting thread calls each listener that is subscribed with it
    once, the newest first, none that has been unsubscribed, and is gone only when none is left;
    and the list in memory of a thread that is not exiting holds the listeners that the
    specification has for it. *)
Theorem exit_notifier_refines sched :
  let '(o, ls) := run sched initial in
  exists A, spec_run ls (fun _ => []) = Some A /\
    forall s, o = Some s -> forall t, mutex s <> Some t ->
      match tails s !! t with
      | Some tail => seg (listeners s) tail (A t)
      | None => A t = []
      end.
Proof.
  destruct (schedule_ok sched initial (fun _ => []) (fun _ => []) inv_initial) as (A & E & H & _); [done|].
  destruct (run sched initial) as [o ls]. cbn [fst snd] in *. exists A. split; [done|]. intros s Hs t Hm.
  destruct (H s Hs) as (L & Hi & HA). rewrite HA.
  assert (abs s L t = L t) as ->.
  { unfold abs. destruct (pc_of t s) eqn:Ht; try done. destruct Hm. apply (iv_mutex _ _ Hi). by rewrite Ht. }
  destruct (tails s !! t) as [tail|] eqn:Htl; [by apply (iv_tail _ _ Hi)|by apply (iv_none _ _ Hi)].
Qed.

(** C24: When sub-queues are freed only while no thread is exiting, no thread touches freed
    memory, whatever else happens in whatever order. *)
Theorem exit_memory_safe sched : calm sched initial = true -> is_Some (run sched initial).1.
Proof.
  destruct (schedule_ok sched initial (fun _ => []) (fun _ => []) inv_initial) as (A & _ & _ & H); [done|].
  apply H. by intros t p.
Qed.

(** Two sub-queues of thread 1, of which thread 2 destroys the first before thread 1 exits;
    thread 3 takes over the other. *)
Definition calm_schedule : list (nat * request) :=
  [(1, Create None None); (1, Go); (1, Create None None); (1, Go); (2, Destroy 0); (2, Go); (2, Go); (2, Go);
   (1, Exit); (1, Go); (1, Go); (1, Go); (1, Go); (3, Take 1); (3, Go)]%nat.

Example calm_labels :
  (run calm_schedule initial).2 = [Subscribed 1 0; Subscribed 1 1; Unsubscribed 0; Notified 1 1; Exited 1; Subscribed 3 1]%nat.
Proof. vm_compute. reflexivity. Qed.

Lemma exit_memory_safe_witness : calm calm_schedule initial = true /\ is_Some (run calm_schedule initial).1.
Proof. split; [vm_compute; reflexivity|]. apply exit_memory_safe. vm_compute. reflexivity. Defined.

(** A sub-queue may be freed while the thread that exits still stands on its listener: the
    callback has marked it inactive, [~ImplicitProducer] therefore does not ask the notifier, and
    the walk reads [ptr->next] from freed memory. *)
Definition late_schedule : list (nat * request) :=
  [(1, Create None None); (1, Go); (1, Exit); (1, Go); (1, Go); (2, Destroy 0); (2, Go); (2, Go); (1, Go)]%nat.

Theorem exit_reads_freed_listener : (run late_schedule initial).1 = None.
Proof. vm_compute. reflexivity. Qed.

End ThreadExit.
