(* ===== verification/CqBulk.v ===== *)
(** * Bulk operations of a sub-queue (lib/concurrentqueue/concurrentqueue.h)

    [ImplicitProducer::dequeue_bulk] takes many elements with one claim of tickets and one
    lookup in the block index, walks the blocks by stepping through the index, and accounts
    for the emptied slots of a block at once.  This file translates it as a whole call
    without interference and shows that it equals the single dequeues one after the other,
    down to the memory it leaves behind.  The element type's moves do not throw. *)
From stdpp Require Import functions.
From S2P Require Import Prelude CqArith CqProducer CqInv CqIndex CqLin CqSub CqDtor.

Section Bulk.
Context {A : Type}.

(** ** [dequeue_bulk] *)

(** [Block::set_many_empty<implicit_context>]: whether the block is now empty. *)
Definition set_many_empty (count : Z) (b : Block A) : bool * Block A :=
  let prevVal := elementsCompletelyDequeued b in
  (u64 (prevVal + count) =? BLOCK_SIZE,
   mkBlock (elements b) (u64 (prevVal + count)) (dynamicallyAllocated b)).

(** [get_block_index_index_for_index]; [None] is a null or invalid pointer. *)
Definition get_block_index_index_for_index (index : Z) (p : ImplicitProducer) : option (Z * BlockIndexHeader) :=
  h ← blockIndex p;
  H ← headers p !! h;
  te ← index_at H (header_tail H);
  E ← entries p !! te;
  Some (block_index_position index (header_tail H) (key E) (capacity H), H).

(** The end of the block of [index], or of the elements to take. *)
Definition chunk_end (index last : Z) : Z :=
  let endIndex := u64 (Z.land index (u64 (Z.lnot (BLOCK_SIZE - 1))) + BLOCK_SIZE) in
  if circular_less_than last endIndex then last else endIndex.

(** The loop that moves the elements out of one block. *)
Fixpoint take_slots (fuel : nat) (index endIndex : Z) (B : Block A) : option (list A * Block A) :=
  if index =? endIndex then Some ([], B)
  else
    match fuel with
    | O => None
    | S fuel =>
        el ← mjoin (elements B !! slot index);
        '(els, B) ← take_slots fuel (u64 (index + 1)) endIndex (set_slot index None B);
        Some (el :: els, B)
    end.

(** The loop over the blocks, from [index] to [last]; [indexIndex] is the block's position in
    the index [H]. *)
Fixpoint bulk_loop (fuel : nat) (H : BlockIndexHeader) (last index indexIndex : Z) (p : ImplicitProducer) (m : Pool A) :
    option (list A * ImplicitProducer * Pool A) :=
  match fuel with
  | O => None
  | S fuel =>
      let endIndex := chunk_end index last in
      e ← index_at H indexIndex;
      E ← entries p !! e;
      block ← value E;
      B ← deref m block;
      '(els, B) ← take_slots (Z.to_nat BLOCK_SIZE) index endIndex B;
      let '(empty, B) := set_many_empty (u64 (endIndex - index)) B in
      let m := store_block block B m in
      '(p, m) ← (if empty then
                   m ← add_block_to_free_list block m;
                   Some (store_value e None p, m)
                 else Some (p, m));
      let indexIndex := Z.land (u64 (indexIndex + 1)) (u64 (capacity H - 1)) in
      if endIndex =? last then Some (els, p, m)
      else
        '(els', p, m) ← bulk_loop fuel H last endIndex indexIndex p m;
        Some (els ++ els', p, m)
  end.

(** The whole call; the loop makes at most one round per started block. *)
Definition dequeue_bulk (max : Z) (p : ImplicitProducer) (m : Pool A) : option (list A * ImplicitProducer * Pool A) :=
  let tail := tailIndex p in
  let overcommit := dequeueOvercommit p in
  let desiredCount := u64 (tail - u64 (dequeueOptimisticCount p - overcommit)) in
  if circular_less_than 0 desiredCount then
    let desiredCount := if desiredCount <? max then desiredCount else max in
    let myDequeueCount := dequeueOptimisticCount p in
    let p := set_dequeueOptimisticCount (u64 (myDequeueCount + desiredCount)) p in
    let tail := tailIndex p in
    let actualCount := u64 (tail - u64 (myDequeueCount - overcommit)) in
    if circular_less_than 0 actualCount then
      let actualCount := if desiredCount <? actualCount then desiredCount else actualCount in
      let p := if actualCount <? desiredCount
               then set_dequeueOvercommit (u64 (dequeueOvercommit p + (desiredCount - actualCount))) p else p in
      let firstIndex := headIndex p in
      let p := set_headIndex (u64 (firstIndex + actualCount)) p in
      '(indexIndex, H) ← get_block_index_index_for_index firstIndex p;
      bulk_loop (S (S (Z.to_nat (actualCount / BLOCK_SIZE)))) H (u64 (firstIndex + actualCount)) firstIndex indexIndex p m
    else Some ([], set_dequeueOvercommit (u64 (dequeueOvercommit p + desiredCount)) p, m)
  else Some ([], p, m).

(** ** The reference: single dequeues *)

Fixpoint dequeues (n : nat) (p : ImplicitProducer) (m : Pool A) : option (list A * ImplicitProducer * Pool A) :=
  match n with
  | O => Some ([], p, m)
  | S n =>
      match dequeue p m with
      | (p, m, CRet (Some v)) => '(vs, p, m) ← dequeues n p m; Some (v :: vs, p, m)
      | _ => None
      end
  end.

(** What a caller without the bulk operation would write: single dequeues until [n] elements
    are taken or none is left. *)
Fixpoint dequeue_upto (n : nat) (p : ImplicitProducer) (m : Pool A) : option (list A * ImplicitProducer * Pool A) :=
  match n with
  | O => Some ([], p, m)
  | S n =>
      match dequeue p m with
      | (p, m, CRet (Some v)) => '(vs, p, m) ← dequeue_upto n p m; Some (v :: vs, p, m)
      | (p, m, CRet None) => Some ([], p, m)
      | _ => None
      end
  end.

Lemma dequeues_S n p (m : Pool A) :
  dequeues (S n) p m = match dequeue p m with
                       | (p, m, CRet (Some v)) => '(vs, p, m) ← dequeues n p m; Some (v :: vs, p, m)
                       | _ => None
                       end.
Proof. reflexivity. Qed.

(** ** Blocks *)

(** [d] more elements taken out. *)
Definition bump (d : Z) (B : Block A) : Block A :=
  mkBlock (elements B) (u64 (elementsCompletelyDequeued B + d)) (dynamicallyAllocated B).

Lemma take_slots_bump d endIndex fuel : forall index B,
  take_slots fuel index endIndex (bump d B) = (fun r => (r.1, bump d r.2)) <$> take_slots fuel index endIndex B.
Proof.
  induction fuel as [|fuel IH]; intros index B; cbn [take_slots]; destruct (index =? endIndex); try done.
  change (elements (bump d B)) with (elements B). destruct (mjoin _) as [el|]; [|done]. cbn [mbind option_bind].
  change (set_slot index None (bump d B)) with (bump d (set_slot index None B)). rewrite IH.
  by destruct (take_slots fuel _ _ _) as [[els B']|].
Qed.

Lemma take_slots_counter endIndex fuel : forall index B els B',
  take_slots fuel index endIndex B = Some (els, B') -> elementsCompletelyDequeued B' = elementsCompletelyDequeued B.
Proof.
  induction fuel as [|fuel IH]; intros index B els B'; cbn [take_slots]; destruct (index =? endIndex); try done;
    [by intros [= <- <-]..|]. destruct (mjoin _) as [el|]; [|done]. cbn [mbind option_bind].
  destruct (take_slots fuel _ _ _) as [[els1 B1]|] eqn:E; [|done]. intros [= _ <-]. by apply IH in E.
Qed.

Lemma bump_bump d d' B : bump d (bump d' B) = bump (d' + d) B.
Proof. unfold bump. cbn. f_equal. rewrite u64_add_l. f_equal. lia. Qed.

Lemma set_many_bump c d B : set_many_empty c (bump d B) = set_many_empty (d + c) B.
Proof.
  unfold set_many_empty, bump. cbn. rewrite u64_add_l. by replace (elementsCompletelyDequeued B + d + c)
    with (elementsCompletelyDequeued B + (d + c)) by lia.
Qed.

(** ** The producer's counters *)

(** [n] more tickets and indices taken. *)
Definition advance (n : Z) (p : ImplicitProducer) : ImplicitProducer :=
  set_headIndex (u64 (headIndex p + n)) (set_dequeueOptimisticCount (u64 (dequeueOptimisticCount p + n)) p).

Lemma advance_advance n k p : advance n (advance k p) = advance (k + n) p.
Proof. unfold advance. cbn. rewrite !u64_add_l, !Z.add_assoc. reflexivity. Qed.

Lemma store_value_advance e v n p : store_value e v (advance n p) = advance n (store_value e v p).
Proof. reflexivity. Qed.

Lemma bulk_loop_advance n H last fuel : forall index i p m,
  bulk_loop fuel H last index i (advance n p) m =
  (fun r => (r.1.1, advance n r.1.2, r.2)) <$> bulk_loop fuel H last index i p m.
Proof.
  induction fuel as [|fuel IH]; intros index i p m; cbn [bulk_loop]; [done|].
  change (entries (advance n p)) with (entries p). destruct (index_at H i) as [e|]; [|done]. cbn [mbind option_bind].
  destruct (entries p !! e) as [E|]; [|done]. cbn [mbind option_bind]. destruct (value E) as [b|]; [|done]. cbn [mbind option_bind].
  destruct (deref m b) as [B|]; [|done]. cbn [mbind option_bind].
  destruct (take_slots _ _ _ _) as [[els B']|]; [|done]. cbn [mbind option_bind].
  destruct (set_many_empty _ B') as [[] B2]; cbn [mbind option_bind].
  - destruct (add_block_to_free_list b _) as [m'|]; [|done]. cbn [mbind option_bind].
    destruct (_ =? last); [done|]. rewrite store_value_advance, IH. by destruct (bulk_loop fuel _ _ _ _ _ _) as [[[? ?] ?]|].
  - destruct (_ =? last); [done|]. rewrite IH. by destruct (bulk_loop fuel _ _ _ _ _ _) as [[[? ?] ?]|].
Qed.

(** ** A single dequeue as a whole *)

(** The effect of emptying [d] slots of block [b], whose index entry is [e]. *)
Definition settle (e b : nat) (full : bool) (B : Block A) (p : ImplicitProducer) (m : Pool A) : option (ImplicitProducer * Pool A) :=
  let m := store_block b B m in
  if full then m ← add_block_to_free_list b m; Some (store_value e None p, m) else Some (p, m).

Lemma store_store (b : nat) (B B' : Block A) (m : Pool A) : store_block b B (store_block b B' m) = store_block b B m.
Proof. unfold store_block, with_blocks. cbn. by rewrite list_insert_insert_eq. Qed.

Lemma deref_store_eq (b : nat) (B B' : Block A) (m : Pool A) : deref m b = Some B -> deref (store_block b B' m) b = Some B'.
Proof.
  unfold deref, store_block, with_blocks. cbn. intros Hd. destruct (blocks m !! b) as [x|] eqn:Hb; [|done].
  rewrite list_lookup_insert_eq; [done|]. by eapply lookup_lt_Some.
Qed.

(** Counters are 64-bit values. *)
Definition counters_ok (m : Pool A) : Prop :=
  forall b B, deref m b = Some B -> 0 <= elementsCompletelyDequeued B < 2 ^ 64.

Lemma dequeue_effect p m p' m' v :
  counters_ok m -> dequeue p m = (p', m', CRet (Some v)) ->
  exists i H e E b B,
    get_block_index_index_for_index (headIndex p) p = Some (i, H) /\ index_at H i = Some e /\
    entries p !! e = Some E /\ value E = Some b /\ deref m b = Some B /\
    mjoin (elements B !! slot (headIndex p)) = Some v /\
    let '(full, B') := set_many_empty 1 (set_slot (headIndex p) None B) in
    settle e b full B' (advance 1 p) m = Some (p', m').
Proof.
  intros Hcount.
  unfold dequeue, get_block_index_index_for_index. cbn [run_dequeue dequeue_step].
  destruct (circular_less_than _ (tailIndex p)) eqn:Ht; [|done]. cbn [dequeue_step tailIndex set_dequeueOptimisticCount].
  change (tailIndex (set_dequeueOptimisticCount _ p)) with (tailIndex p). rewrite Ht. cbn [dequeue_step].
  set (p1 := set_headIndex _ _). change (blockIndex p1) with (blockIndex p). change (headIndex (set_dequeueOptimisticCount _ p)) with (headIndex p).
  destruct (blockIndex p) as [h|]; [|done]. cbn [dequeue_step mbind option_bind]. change (headers p1) with (headers p). change (entries p1) with (entries p).
  destruct (headers p !! h) as [H|] eqn:EH; [|done]. cbn [dequeue_step mbind option_bind]. change (headers p1) with (headers p). rewrite EH.
  destruct (index_at H (header_tail H)) as [te|]; [|done]. cbn [mbind option_bind]. change (entries p1) with (entries p).
  destruct (entries p !! te) as [E0|]; [|done]. cbn [mbind option_bind].
  destruct (index_at H (block_index_position _ _ _ _)) as [e|] eqn:Ee; [|done]. cbn [dequeue_step].
  change (entries p1) with (entries p). destruct (entries p !! e) as [E|] eqn:EE; [|done].
  destruct (value E) as [b|] eqn:Eb; [|done]. cbn [dequeue_step]. destruct (deref m b) as [B|] eqn:EB; [|done].
  destruct (elements B !! slot (headIndex p)) as [[el|]|] eqn:Eel; [|done|done]. cbn [dequeue_step].
  rewrite (deref_store_eq _ _ _ _ EB). unfold set_empty. rewrite store_store.
  set (B1 := set_slot (headIndex p) None B).
  change (elementsCompletelyDequeued B1) with (elementsCompletelyDequeued B).
  assert ((elementsCompletelyDequeued B =? BLOCK_SIZE - 1) = (u64 (elementsCompletelyDequeued B + 1) =? BLOCK_SIZE)) as ->.
  { pose proof (Hcount b B EB). unfold BLOCK_SIZE, u64. destruct (Z.eqb_spec (elementsCompletelyDequeued B) (32 - 1)) as [->|Hne]; [done|].
    symmetry. apply Z.eqb_neq. destruct (Z.eq_dec (elementsCompletelyDequeued B) (2 ^ 64 - 1)) as [->|]; [done|].
    rewrite Z.mod_small by lia. lia. }
  intros Hrun. exists (block_index_position (headIndex p) (header_tail H) (key E0) (capacity H)), H, e, E, b, B.
  split; [done|]. split; [done|]. split; [done|]. split; [done|]. split; [done|]. rewrite Eel.
  unfold set_many_empty, settle.
  change (elementsCompletelyDequeued (set_slot (headIndex p) None B)) with (elementsCompletelyDequeued B).
  change (elementsCompletelyDequeued B1) with (elementsCompletelyDequeued B) in Hrun.
  destruct (u64 (elementsCompletelyDequeued B + 1) =? BLOCK_SIZE); cbn [dequeue_step] in Hrun.
  - destruct (add_block_to_free_list b _) as [m1|] eqn:Ea; [|done]. injection Hrun as <- <- ->. cbn [mjoin option_join].
    split; [done|]. reflexivity.
  - injection Hrun as <- <- ->. done.
Qed.

(** ** The block index during a bulk operation *)

Section Start.
Context (start : Z) (Hstart : start mod 32 = 0).

(** The current header is [H], whose tail entry is that of block number [tb]. *)
Record indexed (p : ImplicitProducer) (H : BlockIndexHeader) (tb : nat) : Prop := {
  ix_header : exists h, blockIndex p = Some h /\ headers p !! h = Some H;
  ix_tail : exists te E, index_at H (header_tail H) = Some te /\ entries p !! te = Some E /\
    key E = u64 (start + 32 * Z.of_nat tb);
  ix_cap : exists k, 0 <= k <= 63 /\ capacity H = 2 ^ k;
  ix_small : Z.of_nat tb < 2 ^ 57 }.

(** Where the entry of element [x]'s block is. *)
Definition position (H : BlockIndexHeader) (tb x : nat) : Z :=
  (header_tail H - (Z.of_nat tb - Z.of_nat (x / 32))) mod capacity H.

Lemma indexed_get p H tb x :
  indexed p H tb -> (x / 32 <= tb)%nat ->
  get_block_index_index_for_index (idx start x) p = Some (position H tb x, H).
Proof.
  intros [(h & Hh & HH) (te & E & Hte & HE & Hk) (k & Hk1 & Hcap) Hs] Hx. unfold get_block_index_index_for_index.
  rewrite Hh. cbn [mbind option_bind]. rewrite HH. cbn [mbind option_bind]. rewrite Hte. cbn [mbind option_bind]. rewrite HE.
  cbn [mbind option_bind]. rewrite Hk, Hcap. unfold idx, position. rewrite Hcap. do 2 f_equal.
  assert (Z.of_nat x / 32 = Z.of_nat (x / 32)) as Ex by (by rewrite Nat2Z.inj_div).
  rewrite block_index_position_spec by (try done; rewrite Ex; lia). by rewrite Ex.
Qed.

Lemma indexed_advance n p H tb : indexed p H tb -> indexed (advance n p) H tb.
Proof. intros []. by split. Qed.

Lemma indexed_store_value e v p H tb : indexed p H tb -> indexed (store_value e v p) H tb.
Proof.
  intros [H1 (te & E & Hte & HE & Hk) H3 H4]. split; try done. exists te.
  destruct (decide (te = e)) as [->|Hne].
  - exists (mkEntry (key E) v). split; [done|]. split; [|done]. cbn. by rewrite list_lookup_alter_eq, HE.
  - exists E. split; [done|]. split; [|done]. cbn. by rewrite list_lookup_alter_ne by done.
Qed.

Lemma indexed_settle e b full B p m p' m' H tb :
  indexed p H tb -> settle e b full B p m = Some (p', m') -> indexed p' H tb.
Proof.
  intros Hi. unfold settle. destruct full; [|by intros [= <- _]]. destruct (add_block_to_free_list _ _); [|done].
  cbn [mbind option_bind]. intros [= <- _]. by apply indexed_store_value.
Qed.

Lemma settle_head e b full B p m p' m' : settle e b full B p m = Some (p', m') -> headIndex p' = headIndex p.
Proof.
  unfold settle. destruct full; [|by intros [= <- _]]. destruct (add_block_to_free_list _ _); [|done].
  cbn [mbind option_bind]. by intros [= <- _].
Qed.

Lemma free_deref (b : nat) (m m' : Pool A) b' B' :
  add_block_to_free_list b m = Some m' -> deref m' b' = Some B' -> deref m b' = Some B'.
Proof.
  unfold add_block_to_free_list. destruct (deref m b) as [B|]; [|done]. intros [= <-].
  destruct (dynamicallyAllocated B); [|done]. unfold deref, with_blocks. cbn.
  destruct (decide (b = b')) as [->|Hne]; [|by rewrite list_lookup_insert_ne].
  destruct (decide (b' < length (blocks m))%nat); [by rewrite list_lookup_insert_eq|].
  by rewrite list_insert_ge by lia.
Qed.

Lemma store_deref (b : nat) (B : Block A) (m : Pool A) b' B' :
  deref (store_block b B m) b' = Some B' -> B' = B \/ deref m b' = Some B'.
Proof.
  unfold deref, store_block, with_blocks. cbn. destruct (decide (b = b')) as [->|Hne]; [|rewrite list_lookup_insert_ne; by auto].
  destruct (decide (b' < length (blocks m))%nat); [rewrite list_lookup_insert_eq by done; intros [= <-]; by left|].
  rewrite list_insert_ge by lia. by right.
Qed.

Lemma settle_counters e b full B p (m : Pool A) p' m' :
  counters_ok m -> 0 <= elementsCompletelyDequeued B < 2 ^ 64 -> settle e b full B p m = Some (p', m') -> counters_ok m'.
Proof.
  intros Hc HB. assert (counters_ok (store_block b B m)) as Hs.
  { intros b' B' [->|Hd]%store_deref; [done|by apply (Hc b')]. }
  unfold settle. destruct full; [|by intros [= _ <-]]. destruct (add_block_to_free_list _ _) as [m1|] eqn:Ha; [|done].
  cbn [mbind option_bind]. intros [= _ <-]. intros b' B' Hd. apply (Hs b'). by eapply free_deref.
Qed.

Lemma settle_store e b full B B0 p (m : Pool A) : settle e b full B p (store_block b B0 m) = settle e b full B p m.
Proof. unfold settle. by rewrite store_store. Qed.

(** ** One block *)

Lemma position_same H tb x y : (x / 32 = y / 32)%nat -> position H tb x = position H tb y.
Proof. intros E. unfold position. by rewrite E. Qed.

Lemma chunk_dequeues H tb c : forall x p (m : Pool A) vs p' m' e E b B fuel,
  (x mod 32 + S c <= 32)%nat -> Z.of_nat (x + S c) < 2 ^ 60 -> (x / 32 <= tb)%nat ->
  counters_ok m -> indexed p H tb -> headIndex p = idx start x ->
  index_at H (position H tb x) = Some e -> entries p !! e = Some E -> value E = Some b -> deref m b = Some B ->
  dequeues (S c) p m = Some (vs, p', m') -> (S c <= fuel)%nat ->
  exists B1, take_slots fuel (idx start x) (idx start (x + S c)) B = Some (vs, B1) /\
    let '(full, B2) := set_many_empty (Z.of_nat (S c)) B1 in
    settle e b full B2 (advance (Z.of_nat (S c)) p) m = Some (p', m').
Proof.
  induction c as [|c IH]; intros x p m vs p' m' e E b B fuel Hx Hb Htb Hc Hix Hh He HE Hv HB; rewrite dequeues_S;
    (destruct (dequeue p m) as [[p1 m1] [| | | | | | | | | | | | | | | |[v|]|]] eqn:Hd; try done); intros Hrun Hf;
    destruct (dequeue_effect p m p1 m1 v Hc Hd) as (i & H' & e' & E' & b' & B' & Hg & He' & HE' & Hv' & HB' & Hel & Hs);
    rewrite Hh, (indexed_get p H tb x Hix Htb) in Hg; injection Hg as <- <-; rewrite He in He'; injection He' as <-;
    rewrite HE in HE'; injection HE' as <-; rewrite Hv in Hv'; injection Hv' as <-; rewrite HB in HB'; injection HB' as <-;
    rewrite Hh in Hel, Hs; (destruct fuel as [|fuel]; [lia|]).
  all: cbn [take_slots]; rewrite (idx_eqb start 0 x (x + _)) by lia; rewrite bool_decide_eq_false_2 by lia; rewrite Hel, idx_succ; cbn [mbind option_bind].
  - cbn [dequeues mbind option_bind] in Hrun. injection Hrun as <- <- <-. exists (set_slot (idx start x) None B).
    replace (x + 1)%nat with (S x) by lia. split; [|exact Hs].
    destruct fuel; cbn [take_slots]; by rewrite Z.eqb_refl.
  - destruct (dequeues (S c) p1 m1) as [[[vs2 p2] m2]|] eqn:Hd2; [|done]. cbn [mbind option_bind] in Hrun. injection Hrun as <- <- <-.
    assert ((S x / 32 = x / 32)%nat /\ (S x mod 32 = x mod 32 + 1)%nat) as [Hdiv Hmod].
    { pose proof (Nat.div_mod_eq x 32). pose proof (Nat.div_mod_eq (S x) 32). pose proof (Nat.mod_upper_bound (S x) 32 ltac:(lia)). nia. }
    assert (0 <= elementsCompletelyDequeued (bump 1 (set_slot (idx start x) None B)) < 2 ^ 64) as Hr by apply u64_range.
    change (set_many_empty 1 (set_slot (idx start x) None B)) with
      (u64 (elementsCompletelyDequeued B + 1) =? BLOCK_SIZE, bump 1 (set_slot (idx start x) None B)) in Hs.
    pose proof (settle_counters _ _ _ _ _ _ _ _ Hc Hr Hs) as Hc1.
    pose proof (indexed_settle _ _ _ _ _ _ _ _ _ _ (indexed_advance 1 _ _ _ Hix) Hs) as Hix1.
    assert (headIndex p1 = idx start (S x)) as Hh1.
    { rewrite (settle_head _ _ _ _ _ _ _ _ Hs). cbn. by rewrite Hh, idx_succ. }
    destruct (u64 (elementsCompletelyDequeued B + 1) =? BLOCK_SIZE).
    + exfalso. unfold settle in Hs. destruct (add_block_to_free_list b _); [|done]. cbn [mbind option_bind] in Hs. injection Hs as Ep _.
      rewrite dequeues_S in Hd2. destruct (dequeue p1 m1) as [[p3 m3] [| | | | | | | | | | | | | | | |[v3|]|]] eqn:Hd3; try done.
      destruct (dequeue_effect p1 m1 p3 m3 v3 Hc1 Hd3) as (i & H' & e' & E' & b' & B' & Hg & He' & HE' & Hv' & _).
      rewrite Hh1, (indexed_get p1 H tb (S x) Hix1) in Hg by lia. injection Hg as <- <-.
      rewrite (position_same H tb (S x) x Hdiv), He in He'. injection He' as <-. rewrite <- Ep in HE'. cbn in HE'.
      rewrite list_lookup_alter_eq, HE in HE'. injection HE' as <-. done.
    + injection Hs as <- <-.
      destruct (IH (S x) (advance 1 p) (store_block b (bump 1 (set_slot (idx start x) None B)) m) vs2 p2 m2 e E b
        (bump 1 (set_slot (idx start x) None B)) fuel) as (B1 & Ht & Hs2); try done; try lia.
      { by rewrite (position_same H tb (S x) x Hdiv). }
      { by eapply deref_store_eq. }
      rewrite take_slots_bump in Ht. replace (S x + S c)%nat with (x + S (S c))%nat in Ht by lia.
      destruct (take_slots fuel (idx start (S x)) (idx start (x + S (S c))) (set_slot (idx start x) None B)) as [[els B2]|]; [|done].
      injection Ht as -> <-. exists B2. split; [done|].
      rewrite set_many_bump in Hs2. replace (1 + Z.of_nat (S c)) with (Z.of_nat (S (S c))) in Hs2 by lia.
      rewrite advance_advance in Hs2. replace (1 + Z.of_nat (S c)) with (Z.of_nat (S (S c))) in Hs2 by lia.
      destruct (set_many_empty _ B2) as [full B3]. by rewrite settle_store in Hs2.
Qed.

(** ** Several blocks *)

Lemma dequeues_app n k : forall p (m : Pool A),
  dequeues (n + k) p m = '(vs, p, m) ← dequeues n p m; '(vs', p, m) ← dequeues k p m; Some (vs ++ vs', p, m).
Proof.
  induction n as [|n IH]; intros p m; cbn [Nat.add]; [cbn; by destruct (dequeues k p m) as [[[? ?] ?]|]|].
  rewrite !dequeues_S. destruct (dequeue p m) as [[p1 m1] [| | | | | | | | | | | | | | | |[v|]|]]; try done.
  rewrite IH. destruct (dequeues n p1 m1) as [[[vs p2] m2]|]; [|done]. cbn [mbind option_bind].
  by destruct (dequeues k p2 m2) as [[[? ?] ?]|].
Qed.

Lemma settle_advance n e b full B p (m : Pool A) :
  settle e b full B (advance n p) m = (fun r => (advance n r.1, r.2)) <$> settle e b full B p m.
Proof. unfold settle. destruct full; [|done]. by destruct (add_block_to_free_list b _). Qed.

Lemma chunk_end_spec x n c :
  (0 < n)%nat -> Z.of_nat (x + n) < 2 ^ 60 -> c = (n `min` (32 - x mod 32))%nat ->
  chunk_end (idx start x) (idx start (x + n)) = idx start (x + c).
Proof.
  intros Hn Hb ->. unfold chunk_end, BLOCK_SIZE.
  assert (u64 (Z.land (idx start x) (u64 (Z.lnot (32 - 1))) + 32) = u64 (start + Z.of_nat (x + (32 - x mod 32)))) as ->.
  { unfold idx at 1. change (32 - 1) with (BLOCK_SIZE - 1). rewrite block_base, u64_add_l. f_equal.
    pose proof (Nat.div_mod_eq x 32). pose proof (Nat.mod_upper_bound x 32 ltac:(lia)).
    assert ((start + Z.of_nat x) / 32 = start / 32 + Z.of_nat (x / 32)) as -> by (Z.div_mod_to_equations; lia).
    Z.div_mod_to_equations; lia. }
  unfold idx. rewrite circular_less_than_spec by lia.
  destruct (Z.ltb_spec (start + Z.of_nat (x + n)) (start + Z.of_nat (x + (32 - x mod 32)))); do 2 f_equal; lia.
Qed.

Lemma idx_distance x c : Z.of_nat c < 2 ^ 60 -> u64 (idx start (x + c) - idx start x) = Z.of_nat c.
Proof. intros Hc. unfold idx. rewrite u64_sub_l, u64_sub_r. unfold u64. rewrite Z.mod_small; lia. Qed.

Lemma position_next H tb k x y :
  0 <= k <= 63 -> capacity H = 2 ^ k -> (y / 32 = x / 32 + 1)%nat ->
  Z.land (u64 (position H tb x + 1)) (u64 (capacity H - 1)) = position H tb y.
Proof.
  intros Hk Hcap Hy. rewrite Hcap, mask_pos by done. unfold position. rewrite Hcap, Hy.
  rewrite Zplus_mod_idemp_l. f_equal. lia.
Qed.

(** The loop does what the single dequeues do. *)
Lemma bulk_loop_dequeues H tb fuel : forall n x p (m : Pool A) vs p' m',
  (0 < n)%nat -> Z.of_nat (x + n) < 2 ^ 60 -> ((x + n - 1) / 32 <= tb)%nat -> ((x + n - 1) / 32 - x / 32 < fuel)%nat ->
  counters_ok m -> indexed p H tb -> headIndex p = idx start x -> dequeues n p m = Some (vs, p', m') ->
  bulk_loop fuel H (idx start (x + n)) (idx start x) (position H tb x) (advance (Z.of_nat n) p) m = Some (vs, p', m').
Proof.
  induction fuel as [|fuel IH]; intros n x p m vs p' m' Hn Hb Htb Hf Hc Hix Hh Hd; [lia|].
  pose proof (Nat.div_mod_eq x 32) as Hdx. pose proof (Nat.mod_upper_bound x 32 ltac:(lia)) as Hmx.
  set (c := (n `min` (32 - x mod 32))%nat). assert (n = (c + (n - c))%nat /\ (0 < c)%nat) as [Hnc Hc0] by lia.
  rewrite Hnc, dequeues_app in Hd. destruct (dequeues c p m) as [[[vs1 p1] m1]|] eqn:Hd1; [|done]. cbn [mbind option_bind] in Hd.
  destruct (dequeues (n - c) p1 m1) as [[[vs2 p2] m2]|] eqn:Hd2; [|done]. cbn [mbind option_bind] in Hd. injection Hd as <- <- <-.
  assert (x / 32 <= (x + n - 1) / 32)%nat as Hmono by (apply Nat.Div0.div_le_mono; lia).
  destruct c as [|c'] eqn:Ec; [lia|]. pose proof Hd1 as Hfirst. rewrite dequeues_S in Hfirst.
  destruct (dequeue p m) as [[pf mf] [| | | | | | | | | | | | | | | |[v|]|]] eqn:Hdf; try done. clear Hfirst.
  destruct (dequeue_effect p m pf mf v Hc Hdf) as (i & H' & e & E & b & B & Hg & He & HE & Hvv & HB & _).
  rewrite Hh, (indexed_get p H tb x Hix ltac:(lia)) in Hg. injection Hg as <- <-.
  destruct (chunk_dequeues H tb c' x p m vs1 p1 m1 e E b B (Z.to_nat BLOCK_SIZE)) as (B1 & Ht & Hs); try done; try lia.
  { unfold BLOCK_SIZE. lia. }
  destruct (set_many_empty (Z.of_nat (S c')) B1) as [full B2] eqn:Hset.
  assert (0 <= elementsCompletelyDequeued B2 < 2 ^ 64) as HB2 by (injection Hset as _ <-; apply u64_range).
  pose proof (settle_counters _ _ _ _ _ _ _ _ Hc HB2 Hs) as Hc1.
  pose proof (indexed_settle _ _ _ _ _ _ _ _ _ _ (indexed_advance _ _ _ _ Hix) Hs) as Hix1.
  assert (headIndex p1 = idx start (x + S c')) as Hh1.
  { rewrite (settle_head _ _ _ _ _ _ _ _ Hs). cbn. rewrite Hh. unfold idx. rewrite u64_add_l. f_equal. lia. }
  cbn [bulk_loop]. rewrite (chunk_end_spec x n (S c')) by lia. rewrite He. cbn [mbind option_bind].
  change (entries (advance _ p)) with (entries p). rewrite HE. cbn [mbind option_bind]. rewrite Hvv. cbn [mbind option_bind].
  rewrite HB. cbn [mbind option_bind]. rewrite Ht. cbn [mbind option_bind]. rewrite idx_distance by lia. rewrite Hset.
  rewrite (idx_eqb start 0 (x + S c') (x + n)) by lia. case_bool_decide as Hlast.
  - assert (n = S c') as -> by lia. unfold settle in Hs. rewrite Hs. cbn [mbind option_bind].
    rewrite Nat.sub_diag in Hd2. injection Hd2 as <- <- <-. by rewrite app_nil_r.
  - assert (settle e b full B2 (advance (Z.of_nat n) p) m = Some (advance (Z.of_nat (n - S c')) p1, m1)) as Hsn.
    { replace (Z.of_nat n) with (Z.of_nat (S c') + Z.of_nat (n - S c')) by lia. by rewrite <- advance_advance, settle_advance, Hs. }
    unfold settle in Hsn. rewrite Hsn. cbn [mbind option_bind].
    assert ((x + S c') / 32 = x / 32 + 1)%nat as Hnext by (symmetry; apply (Nat.div_unique _ 32 _ 0); lia).
    destruct (ix_cap _ _ _ Hix) as (k & Hk & Hcap). rewrite (position_next H tb k x (x + S c') Hk Hcap Hnext).
    assert ((x + S c') / 32 <= (x + n - 1) / 32)%nat as Hmore by (apply Nat.Div0.div_le_mono; lia).
    assert (x + S c' + (n - S c') = x + n)%nat as Hxn by lia. rewrite <- Hxn.
    rewrite (IH (n - S c')%nat (x + S c')%nat p1 m1 vs2 p2 m2); rewrite ?Hxn, ?Hnext; try done; lia.
Qed.

End Start.

(** ** Counters stay 64-bit values in every interleaving *)

Lemma counters_store b B (m : Pool A) :
  counters_ok m -> 0 <= elementsCompletelyDequeued B < 2 ^ 64 -> counters_ok (store_block b B m).
Proof. intros Hc HB b' B' [->|Hd]%store_deref; [done|by apply (Hc b')]. Qed.

Lemma counters_free b (m m' : Pool A) : counters_ok m -> add_block_to_free_list b m = Some m' -> counters_ok m'.
Proof. intros Hc Ha b' B' Hd. apply (Hc b'). by eapply free_deref. Qed.

Lemma counters_requisition a (m : Pool A) r m' : counters_ok m -> requisition_block a m = (r, m') -> counters_ok m'.
Proof.
  intros Hc Hr. destruct (requisition_cases _ _ _ _ Hr) as [(y & _ & Hi)|[(y & _ & Hf)|[(_ & ->)|(_ & -> & _)]]]; [..|done].
  - unfold try_get_block_from_initial_pool in Hi. repeat case_match; simplify_eq; exact Hc.
  - unfold try_get_block_from_free_list in Hf. destruct (pick a) as [i|]; [|done].
    destruct (freeList m !! i); simplify_eq; exact Hc.
  - intros b B. unfold deref, with_blocks. cbn. destruct (decide (b < length (blocks m))%nat) as [Hb|Hb].
    + rewrite lookup_app_l by done. apply (Hc b).
    + rewrite lookup_app_r by lia. destruct (b - length (blocks m))%nat as [|k]; [intros [= <-]; cbn; lia|by destruct k].
Qed.

Lemma counters_enqueue raw_value a p (m : Pool A) pc p' m' pc' :
  counters_ok m -> enqueue_step raw_value a p m pc = (p', m', pc') -> counters_ok m'.
Proof.
  intros Hc Hs. destruct pc; cbn [enqueue_step] in Hs; try by injection Hs as _ <- _.
  - destruct (negb _); by injection Hs as _ <- _.
  - destruct (CqProducer.mem a); by injection Hs as _ <- _.
  - destruct (requisition_block a m) as [[b|] m1] eqn:Hr; injection Hs as _ <- _; by eapply counters_requisition.
  - destruct (rewind_block_index_tail p); by injection Hs as _ <- _.
  - destruct (deref m b) as [B|]; injection Hs as _ <- _; [|done]. apply counters_store; [done|]. cbn. lia.
  - destruct (tailBlock p) as [b|]; [|by injection Hs as _ <- _].
    destruct (deref m b) as [B|] eqn:HB; injection Hs as _ <- _; [|done]. apply counters_store; [done|]. exact (Hc b B HB).
Qed.

Lemma counters_dequeue p (m : Pool A) c p' m' c' :
  counters_ok m -> dequeue_step p m c = (p', m', c') -> counters_ok m'.
Proof.
  intros Hc Hs. destruct c; cbn [dequeue_step] in Hs; try by injection Hs as _ <- _.
  - destruct (deref m b) as [B|] eqn:HB; [|by injection Hs as _ <- _].
    destruct (elements B !! slot index) as [[el|]|]; injection Hs as _ <- _; try done.
    apply counters_store; [done|]. exact (Hc b B HB).
  - destruct (deref m b) as [B|] eqn:HB; [|by injection Hs as _ <- _].
    unfold set_empty in Hs. injection Hs as _ <- _. apply counters_store; [done|]. apply u64_range.
  - destruct (add_block_to_free_list b m) as [m1|] eqn:Ha; injection Hs as _ <- _; [|done]. by eapply counters_free.
Qed.

Lemma counters_steps raw_value n (s0 : sys A) tr s :
  steps raw_value n s0 tr s -> counters_ok (pool s0) -> counters_ok (pool s).
Proof.
  induction 1 as [|n s1 tr s2 ev s3 _ IH Hstep]; [done|]. intros Hc. specialize (IH Hc). clear Hc.
  destruct Hstep; cbn [pool] in *; try done.
  - by eapply counters_enqueue.
  - by eapply counters_dequeue.
  - change (counters_ok m'). by eapply counters_requisition.
  - apply counters_store; assumption.
  - eapply counters_free; [|eassumption]. exact IH.
Qed.

Lemma counters_init mem count : counters_ok (@populate_initial_block_list A mem count).
Proof.
  intros b B. unfold populate_initial_block_list, deref. destruct (count =? 0); [by destruct b|].
  destruct mem; [|by destruct b]. cbn. destruct (_ !! b) as [x|] eqn:Hx; [|done].
  apply list_elem_of_lookup_2, elem_of_replicate in Hx as [-> _]. intros [= <-]. cbn. lia.
Qed.

(** ** At rest *)

Section Rest.
Context (start : Z) (Hstart : start mod 32 = 0).

(** Single dequeues without interference take the oldest elements. *)
Lemma dequeues_alone n : forall N p (m : Pool A) pc cs g,
  inv start N (mkSys p m pc cs) g -> Z.of_nat (N + 15 * n) < 2 ^ 60 -> (forall t, ~ running (cs t)) ->
  let k := (n `min` length (items (abs g)))%nat in
  exists p' m', dequeues k p m = Some (take n (items (abs g)), p', m') /\
    dequeue_upto n p m = Some (take n (items (abs g)), p', m').
Proof.
  induction n as [|n IH]; intros N p m pc cs g Hv HN Hq; [by exists p, m|].
  destruct (dequeue_alone start Hstart N p m pc cs g Hv ltac:(lia) Hq) as (p1 & m1 & cs1 & g1 & Hd & Hv1 & Hi1 & Hq1 & _).
  pose proof (quiescent_test start N p m pc cs g Hv ltac:(lia) Hq) as Htest.
  destruct (items (abs g)) as [|v l] eqn:Hitems; cbn [head tail length] in *.
  - exists p, m. split; [done|]. cbn [dequeue_upto take]. unfold dequeue. cbn [run_dequeue dequeue_step]. by rewrite Htest.
  - destruct (IH (N + 15)%nat p1 m1 pc cs1 g1 Hv1 ltac:(lia) Hq1) as (p' & m' & H1 & H2). rewrite Hi1 in H1, H2.
    exists p', m'. rewrite <- Nat.succ_min_distr, dequeues_S. cbn [dequeue_upto]. by rewrite Hd, H1, H2.
Qed.

Lemma rest_indexed N p (m : Pool A) pc cs g :
  inv start N (mkSys p m pc cs) g -> Z.of_nat N < 2 ^ 60 -> ~ enqueuing pc -> (forall t, ~ running (cs t)) ->
  (length (heads g) < length (elems g))%nat ->
  exists H, indexed start p H (length (binfo g) - 1).
Proof.
  intros Hv HN Hpc Hcs Hne. pose proof (rest_size start N p m pc cs g Hv Hpc) as Hs.
  pose proof (v_index _ _ _ _ Hv) as Hi. pose proof (v_bound _ _ _ _ Hv) as Hbd. simpl in Hi, Hbd.
  destruct (lookup_lt_is_Some_2 (binfo g) (length (binfo g) - 1)%nat ltac:(lia)) as [[b st] Hbi].
  pose proof (rest_block start N p m pc cs g Hv Hcs _ _ _ Hbi) as Hst.
  rewrite decide_True in Hst by (apply Nat.lt_succ_r; apply Nat.Div0.div_lt_upper_bound; lia). subst st.
  assert (lo g <= length (binfo g) - 1)%nat as Hlo.
  { destruct (decide (lo g <= length (binfo g) - 1)%nat); [done|].
    destruct (in_cleared _ _ _ _ _ _ Hi (length (binfo g) - 1)%nat ltac:(lia)) as (b' & st & Hbi' & Hst). by simplify_eq. }
  pose proof (in_ents _ _ _ _ _ _ Hi) as Hents.
  destruct (pr_current _ _ _ _ _ (v_producer _ _ _ _ Hv)) as [(_ & Hn & _)|(i & H & Hcur & _)].
  { rewrite Hn in Hents. simpl in Hents. lia. }
  assert (advanced pc = false) as Hadv by (destruct pc; try done; by destruct Hpc). simpl in Hcur. rewrite Hadv in Hcur.
  pose proof (current_hdr _ _ _ _ _ _ _ _ _ Hi Hcur) as Hh. pose proof (hk_tail _ _ _ _ _ Hh) as Ht.
  destruct (lookup_lt_is_Some_2 (ents g) (length (binfo g) - 1)%nat ltac:(lia)) as [te Hte].
  destruct (in_key _ _ _ _ _ _ Hi (length (binfo g) - 1)%nat te ltac:(lia) Hte) as (E' & HE' & Hk').
  destruct (hk_cap _ _ _ _ _ Hh) as (kk & Hkk & Hcap). exists H. split.
  - exists i. split; [exact (cu_index _ _ _ _ _ _ _ _ Hcur)|exact (cu_header _ _ _ _ _ _ _ _ Hcur)].
  - exists te, E'. split; [|done]. rewrite <- Hte, <- (hk_index _ _ _ _ _ Hh) by lia. f_equal.
    replace (header_tail H - _) with (header_tail H) by lia. by rewrite Z.mod_small by lia.
  - exists kk. split; [lia|done].
  - lia.
Qed.

(** The claim of tickets and the lookup in the index, when nobody interferes. *)
Lemma bulk_alone N p (m : Pool A) pc cs g max :
  inv start N (mkSys p m pc cs) g -> Z.of_nat N < 2 ^ 60 -> Z.of_nat max < 2 ^ 60 ->
  ~ enqueuing pc -> (forall t, ~ running (cs t)) ->
  let size := length (items (abs g)) in
  let k := (max `min` size)%nat in
  (size = 0%nat -> dequeue_bulk (Z.of_nat max) p m = Some ([], p, m)) /\
  ((0 < size)%nat -> exists H tb, indexed start p H tb /\ ((length (heads g) + size - 1) / 32 <= tb)%nat /\
    dequeue_bulk (Z.of_nat max) p m =
    bulk_loop (S (S (Z.to_nat (Z.of_nat k / BLOCK_SIZE)))) H (idx start (length (heads g) + k)) (idx start (length (heads g)))
      (position H tb (length (heads g))) (advance (Z.of_nat k) p) m).
Proof.
  intros Hv HN Hmax Hpc Hcs size k. pose proof (quiescent_claims start _ _ _ Hv Hcs) as Hc.
  pose proof (v_tail _ _ _ _ Hv) as Ht. pose proof (v_head _ _ _ _ Hv) as Hhd. pose proof (v_optimistic _ _ _ _ Hv) as Ho.
  pose proof (v_overcommit _ _ _ _ Hv) as Hov. pose proof (v_bound _ _ _ _ Hv) as Hb.
  pose proof (tickets_head _ _ _ _ (v_tickets _ _ _ _ Hv)) as Hh. simpl in Ht, Hhd, Ho, Hov, Hb, Hh.
  assert (size = length (elems g) - length (heads g))%nat as Hsize by (unfold size; simpl; apply length_drop).
  assert (u64 (tailIndex p - u64 (dequeueOptimisticCount p - dequeueOvercommit p)) = Z.of_nat size) as Hcount.
  { rewrite Ht, Ho, Hov. unfold idx.
    rewrite (u64_sub_l (start + Z.of_nat (length (claims g)))), (u64_sub_r (start + Z.of_nat (length (claims g)))).
    autorewrite with l3u64.
    match goal with |- u64 ?x = _ => replace x with (Z.of_nat size) by lia end. apply u64_small. lia. }
  assert (circular_less_than 0 (Z.of_nat size) = (0 <? Z.of_nat size)) as Hlt.
  { rewrite <- (u64_small 0), <- (u64_small (Z.of_nat size)) at 1 by lia. apply circular_less_than_spec. lia. }
  unfold dequeue_bulk. rewrite Hcount, Hlt. split; [intros ->; done|]. intros Hpos.
  destruct (rest_indexed _ _ _ _ _ _ Hv HN Hpc Hcs ltac:(lia)) as [H Hix].
  exists H, (length (binfo g) - 1)%nat. split; [done|].
  pose proof (rest_size start N p m pc cs g Hv Hpc) as Hrs. split.
  { apply Nat.lt_succ_r. apply Nat.Div0.div_lt_upper_bound. lia. }
  assert ((if Z.of_nat size <? Z.of_nat max then Z.of_nat size else Z.of_nat max) = Z.of_nat k) as -> by (case_match; lia).
  rewrite (proj2 (Z.ltb_lt 0 _)) by lia. cbn [tailIndex set_dequeueOptimisticCount headIndex dequeueOvercommit].
  rewrite Hcount, Hlt, (proj2 (Z.ltb_lt 0 _)) by lia.
  assert ((if Z.of_nat k <? Z.of_nat size then Z.of_nat k else Z.of_nat size) = Z.of_nat k) as -> by (case_match; lia).
  rewrite Z.ltb_irrefl. cbn [tailIndex set_dequeueOptimisticCount headIndex dequeueOvercommit].
  set (p1 := set_headIndex _ _). change p1 with (advance (Z.of_nat k) p).
  change (get_block_index_index_for_index (headIndex p) (advance (Z.of_nat k) p)) with
    (get_block_index_index_for_index (headIndex p) p).
  rewrite Hhd, (indexed_get start Hstart p H _ (length (heads g)) Hix)
    by (apply Nat.lt_succ_r, Nat.Div0.div_lt_upper_bound; lia).
  cbn [mbind option_bind].
  assert (u64 (idx start (length (heads g)) + Z.of_nat k) = idx start (length (heads g) + k)) as ->; [|reflexivity].
  unfold idx. rewrite u64_add_l. f_equal. lia.
Qed.

Lemma bulk_dequeues N p (m : Pool A) pc cs g max :
  inv start N (mkSys p m pc cs) g -> Z.of_nat (N + 15 * max) < 2 ^ 60 -> (0 < max)%nat -> counters_ok m ->
  ~ enqueuing pc -> (forall t, ~ running (cs t)) ->
  exists p' m', dequeue_bulk (Z.of_nat max) p m = Some (take max (items (abs g)), p', m') /\
    dequeue_upto max p m = Some (take max (items (abs g)), p', m').
Proof.
  intros Hv HN Hmax Hc Hpc Hcs.
  destruct (dequeues_alone max N p m pc cs g Hv HN Hcs) as (p' & m' & Hd & Hu).
  destruct (bulk_alone N p m pc cs g max Hv ltac:(lia) ltac:(lia) Hpc Hcs) as [Hnone Hsome].
  destruct (decide (length (items (abs g)) = 0%nat)) as [Hz|Hnz].
  - rewrite Hz, Nat.min_0_r in Hd. cbn [dequeues] in Hd. exists p, m. rewrite (Hnone Hz). split; congruence.
  - destruct Hsome as (H & tb & Hix & Htb & ->); [lia|]. exists p', m'. split; [|exact Hu].
    set (k := (max `min` length (items (abs g)))%nat) in *.
    pose proof (v_bound _ _ _ _ Hv) as Hb. pose proof (tickets_head _ _ _ _ (v_tickets _ _ _ _ Hv)) as Hh. simpl in Hb, Hh.
    assert (length (items (abs g)) = length (elems g) - length (heads g))%nat as Hlen by (simpl; apply length_drop).
    assert ((length (heads g) + k - 1) / 32 <= (length (heads g) + length (items (abs g)) - 1) / 32)%nat
      by (apply Nat.Div0.div_le_mono; lia).
    apply (bulk_loop_dequeues start Hstart); try done; try lia.
    + change BLOCK_SIZE with (Z.of_nat 32). rewrite <- (Nat2Z.inj_div k 32), Nat2Z.id.
      pose proof (Nat.div_mod_eq k 32). pose proof (Nat.mod_upper_bound k 32 ltac:(lia)).
      assert ((length (heads g) + k - 1) / 32 < length (heads g) / 32 + k / 32 + 2)%nat; [|lia].
      apply Nat.Div0.div_lt_upper_bound.
      pose proof (Nat.div_mod_eq (length (heads g)) 32). pose proof (Nat.mod_upper_bound (length (heads g)) 32 ltac:(lia)). lia.
    + exact (v_head _ _ _ _ Hv).
Qed.

End Rest.

End Bulk.

(** C23: A bulk dequeue that meets no other call returns the elements that single dequeues would
    return one after the other, up to [max] of them or until none is left, and leaves behind the
    same sub-queue and the same block pool: counters, index entries, slots, freed blocks and the
    order of the free list.  It holds in every state a concurrent execution can come to rest in,
    across block boundaries, wrap-around of the indices and of the positions in the block index.
    The bulk dequeue claims all its tickets at once, walks the blocks by stepping through the
    index and counts the slots of a block in one go. *)
Theorem dequeue_bulk_is_dequeues {A : Type} (raw_value : option nat) mem mem' count start n tr (s : sys A) (max : nat) :
  0 <= count < 2 ^ 64 -> 0 <= start < 2 ^ 64 -> start mod 32 = 0 ->
  steps raw_value n (fresh raw_value mem mem' count start) tr s -> quiescent s ->
  (0 < max)%nat -> Z.of_nat (n + 15 * max) < 2 ^ 60 ->
  exists vs p m, dequeue_bulk (Z.of_nat max) (producer s) (pool s) = Some (vs, p, m) /\
    dequeue_upto max (producer s) (pool s) = Some (vs, p, m).
Proof.
  intros Hc Hr Hs Hst [Hpc Hcs] Hmax Hn.
  destruct (reach_inv raw_value mem mem' count start Hc Hr Hs n tr s Hst ltac:(lia)) as (g & Hv & _).
  assert (counters_ok (pool s)) as Hcount by (eapply counters_steps; [exact Hst|apply counters_init]).
  destruct s as [p m pc cs]. destruct (bulk_dequeues start Hs n p m pc cs g max Hv Hn Hmax Hcount Hpc Hcs) as (p' & m' & H1 & H2).
  by exists (take max (items (abs g))), p', m'.
Qed.

(** 35 elements enqueued, the first three of them dequeued, near the wrap-around of the index;
    the bulk call then takes 31 elements from two blocks. *)
Definition fill : list (action (A := Z)) :=
  mjoin (map (fun v => ACallEnqueue (Z.of_nat v) :: replicate (if decide (v mod 32 = 0)%nat then 10 else 3) (AEnqueue alone)) (seq 0 35)) ++
  mjoin (replicate 3 (ACallDequeue 0 :: replicate 12 (ADequeue 0))).

Lemma fill_steps : exists tr s, steps None 193 (fresh None true true 2 (2 ^ 64 - 32)) tr s /\ quiescent s /\
  option_map (fun r => r.1.1) (dequeue_bulk 31 (producer s) (pool s)) = Some (map Z.of_nat (seq 3 31)).
Proof.
  destruct (exec None fill [] (fresh None true true 2 (2 ^ 64 - 32))) as [[tr s]|] eqn:He; [|by vm_compute in He].
  exists tr, s. split; [exact (exec_steps None 0 _ fill [] _ tr s (steps_refl _ _) He)|].
  assert (s = default s (snd <$> exec None fill [] (fresh None true true 2 (2 ^ 64 - 32)))) as -> by (by rewrite He).
  clear He. vm_compute. split; [|reflexivity]. split; [by intros []|]. intros [|t] [].
Qed.

Lemma dequeue_bulk_is_dequeues_witness :
  exists tr (s : sys Z), steps None 193 (fresh None true true 2 (2 ^ 64 - 32)) tr s /\
    exists vs p m, dequeue_bulk 31 (producer s) (pool s) = Some (vs, p, m) /\
      dequeue_upto 31 (producer s) (pool s) = Some (vs, p, m).
Proof.
  destruct fill_steps as (tr & s & Hs & Hq & _). exists tr, s. split; [exact Hs|].
  refine (dequeue_bulk_is_dequeues None true true 2 (2 ^ 64 - 32) 193 tr s 31 _ _ _ Hs Hq _ _); [lia|lia|reflexivity|lia|reflexivity].
Defined.
