(* ===== verification/ShardLoop.v ===== *)
(** * The thread of a shard and the shutdown of the engine (src/engine/store.hpp)

    A shard has a queue of tasks and one thread that executes them; [submit_to_shard_idx] and
    [submit_async] enqueue tasks, [~Engine] sets the stop flag, enqueues an empty message and
    joins the thread.  Threads interleave at the granularity of one access to the flag or one
    call of a sub-queue or the semaphore. *)
From S2P Require Import Prelude CqArith CqProducer CqInv CqIndex CqLin CqSub CqQueue CqBlocking.

Section Loop.
Context {P M T St Sem : Type} `{SubQueueLaws P M (option T)} `{SemaphoreLaws Sem}.
(** What a task does to the state of the shard, exceptions included (they are caught). *)
Context (run : T -> St -> St).

(** ** State *)

(** [std::function] may be empty: the message of [~Engine]. *)
#[local] Abbreviation CoreMessage := (option T).

(** The shard thread: before [stop_flag.load()], before [size_approx()], before the wait of
    [wait_dequeue_timed], in its loop at a place of [try_dequeue], before [msg.task()], after the
    loop. *)
Inductive lpc := LStop | LSize | LWait | LRound (d : dqpc CoreMessage) | LTask (msg : CoreMessage) | LExit.

(** The thread in [~Engine]: before it, after the store to the flag, before the signal of
    [enqueue({})], in [join()], after it. *)
Inductive dpc := DAlive | DStopped | DSignal | DJoin | DJoined.

(** [sent] and [taken] are the messages enqueued (with the sub-queue of the sender) and
    dequeued so far. *)
Record shard_sys := mkShardSys {
  messages : BlockingConcurrentQueue P M Sem;
  stop_flag : bool;
  core : lpc;
  core_state : St;
  submitters : list (bpc);
  dtor : dpc;
  sent : list (nat * CoreMessage);
  taken : list CoreMessage }.

(** ** Steps *)

Definition run_msg (st : St) (msg : CoreMessage) : St :=
  match msg with None => st | Some t => run t st end.

(** The loop of [core_thread]; [expired]: the timeout of 50 ms passes without a message. *)
Definition core_step (expired : bool) (s : shard_sys) : shard_sys :=
  let '(mkShardSys q stop c st subs d sn tk) := s in
  match c with
  | LStop => mkShardSys q stop (if stop then LSize else LWait) st subs d sn tk
  | LSize => mkShardSys q stop (if 0 <? blocking_size_approx q then LWait else LExit) st subs d sn tk
  | LWait =>
      let '(q, r) := dequeue_wait expired q in
      mkShardSys q stop (match r with BLoop => LRound (DScan 0 0 None 0) | _ => LStop end) st subs d sn tk
  | LRound at_ =>
      match scan_step q at_ with
      | (q, DGot msg) => mkShardSys q stop (LTask msg) st subs d sn (tk ++ [msg])
      | (q, at_) => mkShardSys q stop (LRound at_) st subs d sn tk
      end
  | LTask msg => mkShardSys q stop LStop (run_msg st msg) subs d sn tk
  | LExit => s
  end.

(** [submit_async] (and [submit_to_shard_idx]) by submitter [c], whose sub-queue is [i]. *)
Definition submit_inner (c i : nat) (t : T) (s : shard_sys) : option shard_sys :=
  let '(mkShardSys q stop l st subs d sn tk) := s in
  match enqueue_inner i (Some t) q with
  | None => None
  | Some (q, r) => Some (mkShardSys q stop l st (<[c := r]> subs) d (sn ++ [(i, Some t)]) tk)
  end.

Definition submit_signal (c : nat) (s : shard_sys) : shard_sys :=
  let '(mkShardSys q stop l st subs d sn tk) := s in
  let '(q, r) := enqueue_signal q in
  mkShardSys q stop l st (<[c := r]> subs) d sn tk.

(** [~Engine] for one shard; the thread's sub-queue is [i].  [None]: blocked in [join]. *)
Definition dtor_step (i : nat) (s : shard_sys) : option shard_sys :=
  let '(mkShardSys q stop l st subs d sn tk) := s in
  match d with
  | DAlive => Some (mkShardSys q true l st subs DStopped sn tk)
  | DStopped =>
      match enqueue_inner i (None : CoreMessage) q with
      | Some (q, BSignal) => Some (mkShardSys q stop l st subs DSignal (sn ++ [(i, None)]) tk)
      | Some (q, _) => Some (mkShardSys q stop l st subs DJoin sn tk)
      | None => None
      end
  | DSignal => let '(q, _) := enqueue_signal q in Some (mkShardSys q stop l st subs DJoin sn tk)
  | DJoin => match l with LExit => Some (mkShardSys q stop l st subs DJoined sn tk) | _ => None end
  | DJoined => None
  end.

(** Nobody submits to an engine that is being destroyed. *)
Inductive shard_step : shard_sys -> shard_sys -> Prop :=
| shard_core s expired :
    core s <> LExit -> shard_step s (core_step expired s)
| shard_submit s s' c i t :
    dtor s = DAlive -> submitters s !! c = Some BIdle -> submit_inner c i t s = Some s' -> shard_step s s'
| shard_signal s c :
    submitters s !! c = Some BSignal -> shard_step s (submit_signal c s)
| shard_dtor s s' i :
    (dtor s = DAlive -> Forall (eq BIdle) (submitters s)) -> dtor_step i s = Some s' -> shard_step s s'.

Inductive shard_steps : nat -> shard_sys -> shard_sys -> Prop :=
| shard_steps_refl s : shard_steps 0 s s
| shard_steps_snoc n s1 s2 s3 : shard_steps n s1 s2 -> shard_step s2 s3 -> shard_steps (1 + n) s1 s3.

(** The shard thread alone, through the outcomes [es] of its waits. *)
Definition core_run (es : list bool) (s : shard_sys) : shard_sys :=
  fold_left (fun s expired => core_step expired s) es s.

(** ** Invariant *)

Definition sent_by (i : nat) (l : list (nat * CoreMessage)) : list CoreMessage :=
  (filter (fun x => x.1 = i) l).*2.

Lemma sent_by_app i l l' : sent_by i (l ++ l') = sent_by i l ++ sent_by i l'.
Proof. unfold sent_by. by rewrite filter_app, fmap_app. Qed.

Lemma sent_by_one i j m : sent_by i [(j, m)] = if decide (j = i) then [m] else [].
Proof. unfold sent_by. rewrite filter_cons, filter_nil. simpl. by case_decide. Qed.

Definition in_round (c : lpc) : bool := match c with LRound _ => true | _ => false end.
Definition in_signal (d : dpc) : bool := match d with DSignal => true | _ => false end.
Definition pending (c : lpc) : list CoreMessage := match c with LTask msg => [msg] | _ => [] end.

(** The messages taken, with the sub-queues [who] they were taken from: what is left of each
    sub-queue is what its thread has sent and is not taken yet. *)
Definition histories (sn : list (nat * CoreMessage)) (tk : list CoreMessage) (ls : list (list CoreMessage)) : Prop :=
  exists who, who.*2 = tk /\ Forall (fun x => (x.1 < length ls)%nat) who /\
    forall i l, ls !! i = Some l -> sent_by i sn = sent_by i who ++ l.

(** What the shard thread knows while it goes through the sub-queues. *)
Definition round_ok (c : lpc) (ls : list (list CoreMessage)) : Prop :=
  match c with LRound d => permit d = true /\ scan_ok d ls | _ => True end.

Record loop_ok (st0 : St) (n : nat) (s : shard_sys) (ls : list (list CoreMessage)) : Prop := {
  ok_rep : rep n (inner (messages s)) (inner_mem (messages s)) ls;
  ok_avail : 0 <= available (sema (messages s));
  ok_count : zlen (mjoin ls) =
    available (sema (messages s)) + Z.of_nat (count owes (submitters s)) +
    Z.b2z (in_round (core s)) + Z.b2z (in_signal (dtor s));
  ok_subs : forall c r, submitters s !! c = Some r -> r = BIdle \/ (r = BSignal /\ dtor s = DAlive);
  ok_hist : histories (sent s) (taken s) ls;
  ok_state : exists done, taken s = done ++ pending (core s) /\ core_state s = fold_left run_msg done st0;
  ok_flag : stop_flag s = negb (match dtor s with DAlive => true | _ => false end);
  ok_size : core s = LSize \/ core s = LExit -> stop_flag s = true;
  ok_exit : core s = LExit ->
    zlen (mjoin ls) <= match dtor s with DStopped => 0 | _ => 1 end;
  ok_joined : dtor s = DJoined -> core s = LExit;
  ok_round : round_ok (core s) ls }.

Lemma round_ok_push c ls i l m : ls !! i = Some l -> round_ok c ls -> round_ok c (<[i := l ++ [m]]> ls).
Proof. intros Hl. destruct c; simpl; try done. intros [Hp Hsc]. split; [done|]. by apply scan_ok_push. Qed.

Lemma histories_send sn tk ls i l m :
  ls !! i = Some l -> histories sn tk ls -> histories (sn ++ [(i, m)]) tk (<[i := l ++ [m]]> ls).
Proof.
  intros Hl (who & Hw & Hb & Hi). exists who. split; [done|]. rewrite length_insert. split; [done|].
  intros j lj Hj. rewrite sent_by_app, sent_by_one. destruct (decide (i = j)) as [<-|Hne].
  - rewrite list_lookup_insert_eq in Hj by (by eapply lookup_lt_Some). injection Hj as <-.
    by rewrite (Hi _ _ Hl), (assoc_L (++)).
  - rewrite list_lookup_insert_ne in Hj by done. by rewrite app_nil_r, (Hi _ _ Hj).
Qed.

Lemma histories_take sn tk ls m ls' :
  takes ls m ls' -> histories sn tk ls -> histories sn (tk ++ [m]) ls'.
Proof.
  intros (i & l & Hl & ->) (who & Hw & Hb & Hi). exists (who ++ [(i, m)]). rewrite length_insert.
  split; [by rewrite fmap_app, Hw|]. split.
  - apply Forall_app. split; [done|]. constructor; [by eapply lookup_lt_Some|done].
  - intros j lj Hj. rewrite sent_by_app, sent_by_one. destruct (decide (i = j)) as [<-|Hne].
    + rewrite list_lookup_insert_eq in Hj by (by eapply lookup_lt_Some). injection Hj as <-.
      by rewrite (Hi _ _ Hl), <- (assoc_L (++)).
    + rewrite list_lookup_insert_ne in Hj by done. by rewrite app_nil_r, (Hi _ _ Hj).
Qed.

(** ** Every step keeps the invariant *)

Lemma owes_quiet (subs : list (bpc)) :
  (forall c r, subs !! c = Some r -> r = BIdle) -> count owes subs = 0%nat.
Proof. intros Hs. apply count_none. intros r [c Hc]%list_elem_of_lookup. by rewrite (Hs c r Hc). Qed.

(** The fields a step leaves alone or that speak of another program point. *)
Ltac ok_fields :=
  split; simpl; first [assumption | by intros [?|?] | by intros ? | by intros -> | lia | by eauto | idtac].

Lemma core_ok st0 n s ls expired :
  loop_ok st0 n s ls -> Z.of_nat (n + 15 * (1 + length ls)) < limit -> core s <> LExit ->
  exists ls', loop_ok st0 (n + 15 * (1 + length ls)) (core_step expired s) ls' /\ length ls' = length ls.
Proof.
  intros [Hrep Hav Hcnt Hsubs Hhist (dn & Htk & Hst) Hfl Hsz Hex Hj Hro] Hn Hc.
  destruct s as [q stop c st subs d sn tk]. simpl in *.
  assert (rep (n + 15 * (1 + length ls)) (inner q) (inner_mem q) ls) as Hrep' by (eapply rep_mono; [|exact Hrep]; lia).
  assert (d <> DJoined) as Hd by (intros ->; by apply Hc, Hj).
  destruct c as [| | |at_|msg|]; cbn [core_step] in *; simpl in Hcnt, Hsz, Hex, Htk, Hst, Hro; [..|done].
  - exists ls. split; [|done]. by destruct stop; ok_fields.
  - exists ls. split; [|done]. unfold blocking_size_approx.
    destruct (Z.ltb_spec 0 (available (sema q))); ok_fields.
    intros _. assert (count owes subs = 0%nat) as Hq.
    { apply owes_quiet. intros k r Hr. destruct (Hsubs k r Hr) as [?|[_ ->]]; [done|]. by rewrite (Hsz (or_introl eq_refl)) in Hfl. }
    destruct d; simpl in *; lia.
  - unfold dequeue_wait. destruct (sema_wait expired (sema q)) as [ok se] eqn:Hw. exists ls. split; [|done].
    destruct ok; [apply wait_ok in Hw|apply wait_expired in Hw];
      ok_fields.
    assert (0 <= Z.b2z (in_signal d)) by (by destruct d).
    destruct (join_nonempty ls ltac:(lia)) as [j Hj']. split; [done|]. split; [lia|]. split; [lia|].
    split; [|lia]. intros _. split; [done|]. split; [done|]. exists j. split; [lia|done].
  - destruct Hro as [Hp Hsc]. destruct (scan_step q at_) as [q' d'] eqn:Hs.
    destruct (scan_step_ok _ _ _ _ _ _ Hrep ltac:(lia) Hp Hsc Hs) as [Hse [(Hp' & _ & Hsc' & Hrep1)|(v & ls' & -> & Htake & Hrep1)]].
    + assert (rep (n + 15 * (1 + length ls)) (inner q') (inner_mem q') ls) as Hrep2 by (eapply rep_mono; [|exact Hrep1]; lia).
      exists ls. split; [|done]. destruct d'; try done; ok_fields; rewrite ?Hse; try done; by eauto.
    + assert (rep (n + 15 * (1 + length ls)) (inner q') (inner_mem q') ls') as Hrep2 by (eapply rep_mono; [|exact Hrep1]; lia).
      destruct (takes_length _ _ _ Htake) as [Hlen Hz]. exists ls'. split; [|done].
      ok_fields; rewrite ?Hse; [lia|lia|..].
      * by eapply histories_take.
      * exists tk. rewrite Htk, app_nil_r. by subst.
  - exists ls. split; [|done]. ok_fields.
    exists tk. rewrite app_nil_r. split; [done|]. by rewrite Htk, fold_left_app, <- Hst.
Qed.

Lemma submit_ok st0 n s s' ls c i t :
  loop_ok st0 n s ls -> Z.of_nat (n + 15 * (1 + length ls)) < limit ->
  dtor s = DAlive -> submitters s !! c = Some BIdle -> submit_inner c i t s = Some s' ->
  exists ls', loop_ok st0 (n + 15 * (1 + length ls)) s' ls' /\ length ls' = length ls.
Proof.
  intros [Hrep Hav Hcnt Hsubs Hhist Hst Hfl Hsz Hex Hj Hro] Hn Hd Hc Hs.
  destruct s as [q stop l st subs d sn tk]. simpl in *. subst d. simpl in *.
  destruct (enqueue_inner i (Some t) q) as [[q' r]|] eqn:He; [|done]. injection Hs as <-.
  destruct (enqueue_rep _ _ _ _ _ _ _ Hrep ltac:(lia) He) as (li & Hl & -> & Hse & Hrep').
  exists (<[i := li ++ [Some t]]> ls). rewrite length_insert. split; [|done].
  split; simpl; rewrite ?Hse; eauto.
  - eapply rep_mono; [|exact Hrep']. lia.
  - rewrite (zlen_join_insert _ _ _ _ Hl), (count_owes_insert _ _ _ _ Hc), zlen_app, zlen_cons, zlen_nil. simpl. lia.
  - intros k r Hk. destruct (decide (k = c)) as [->|Hne].
    + rewrite list_lookup_insert_eq in Hk by (by eapply lookup_lt_Some). injection Hk as <-. by right.
    + rewrite list_lookup_insert_ne in Hk by done. by eapply Hsubs.
  - by apply histories_send.
  - intros Hl'. by rewrite (Hsz (or_intror Hl')) in Hfl.
  - by apply round_ok_push.
Qed.

Lemma signal_ok st0 n s ls c :
  loop_ok st0 n s ls -> submitters s !! c = Some BSignal -> loop_ok st0 n (submit_signal c s) ls.
Proof.
  intros [Hrep Hav Hcnt Hsubs Hhist Hst Hfl Hsz Hex Hj Hro] Hc.
  destruct s as [q stop l st subs d sn tk]. simpl in *. split; simpl; rewrite ?signal_spec; eauto; [lia|..].
  - rewrite (count_owes_insert _ _ _ _ Hc). simpl. lia.
  - intros k r Hk. destruct (decide (k = c)) as [->|Hne].
    + rewrite list_lookup_insert_eq in Hk by (by eapply lookup_lt_Some). injection Hk as <-. by left.
    + rewrite list_lookup_insert_ne in Hk by done. by eapply Hsubs.
Qed.

Lemma dtor_ok st0 n s s' ls i :
  loop_ok st0 n s ls -> Z.of_nat (n + 15 * (1 + length ls)) < limit ->
  (dtor s = DAlive -> Forall (eq BIdle) (submitters s)) -> dtor_step i s = Some s' ->
  exists ls', loop_ok st0 (n + 15 * (1 + length ls)) s' ls' /\ length ls' = length ls.
Proof.
  intros [Hrep Hav Hcnt Hsubs Hhist Hst Hfl Hsz Hex Hj Hro] Hn Hidle Hs.
  destruct s as [q stop l st subs d sn tk]. simpl in *.
  assert (rep (n + 15 * (1 + length ls)) (inner q) (inner_mem q) ls) as Hrep' by (eapply rep_mono; [|exact Hrep]; lia).
  assert (d <> DAlive -> forall c r, subs !! c = Some r -> r = BIdle) as Hquiet.
  { intros Hd c r Hr. by destruct (Hsubs c r Hr) as [?|[_ ?]]. }
  destruct d; simpl in *.
  - injection Hs as <-. exists ls. split; [|done]. specialize (Hidle eq_refl). split; simpl; eauto; try done.
    + intros c r Hr. left. symmetry. by eapply Forall_lookup_1 in Hidle.
    + intros ->. by rewrite (Hsz (or_intror eq_refl)) in Hfl.
  - destruct (enqueue_inner i (None : CoreMessage) q) as [[q' r]|] eqn:He; [|done].
    destruct (enqueue_rep _ _ _ _ _ _ _ Hrep ltac:(lia) He) as (li & Hl & -> & Hse & Hrep1). injection Hs as <-.
    exists (<[i := li ++ [None]]> ls). rewrite length_insert. split; [|done].
    assert (zlen (mjoin (<[i := li ++ [None]]> ls)) = zlen (mjoin ls) + 1) as Hz.
    { rewrite (zlen_join_insert _ _ _ _ Hl), zlen_app, zlen_cons, zlen_nil. lia. }
    split; simpl; rewrite ?Hse, ?Hz; eauto; try done; try lia.
    + eapply rep_mono; [|exact Hrep1]. lia.
    + by apply histories_send.
    + intros Hl'. specialize (Hex Hl'). lia.
    + by apply round_ok_push.
  - injection Hs as <-. exists ls. split; [|done]. split; simpl; rewrite ?signal_spec; eauto; try done; lia.
  - destruct l; try done. injection Hs as <-. exists ls. split; [|done]. by split; simpl; eauto.
  - done.
Qed.

Lemma shard_step_ok st0 n s s' ls :
  loop_ok st0 n s ls -> Z.of_nat (n + 15 * (1 + length ls)) < limit -> shard_step s s' ->
  exists ls', loop_ok st0 (n + 15 * (1 + length ls)) s' ls' /\ length ls' = length ls.
Proof.
  intros Hok Hn Hs. destruct Hs as [s expired Hc|s s' c i t Hd Hc Hs|s c Hc|s s' i Hidle Hs].
  - by apply core_ok.
  - by eapply submit_ok.
  - exists ls. split; [|done]. eapply signal_ok in Hok; [|done].
    destruct Hok as [Hrep ? ? ? ? ? ? ? ? ? ?]. split; eauto. eapply rep_mono; [|exact Hrep]. lia.
  - by eapply dtor_ok.
Qed.

Lemma shard_steps_ok st0 n0 k n s s' ls :
  loop_ok st0 n0 s ls -> length ls = k -> Z.of_nat (n0 + n * (15 * (1 + k))) < limit -> shard_steps n s s' ->
  exists ls', loop_ok st0 (n0 + n * (15 * (1 + k))) s' ls' /\ length ls' = k.
Proof.
  intros Hok Hlen Hn Hs. revert Hn. induction Hs as [s|n s1 s2 s3 Hs IH Hst]; intros Hn.
  - exists ls. by rewrite Nat.add_0_r.
  - destruct IH as (ls' & Hok' & Hlen'); [done|lia|].
    destruct (shard_step_ok _ _ _ _ _ Hok' ltac:(lia) Hst) as (ls'' & Hok'' & Hlen'').
    exists ls''. split; [|congruence]. rewrite Hlen' in Hok''.
    by replace (n0 + (1 + n) * (15 * (1 + k)))%nat with (n0 + n * (15 * (1 + k)) + 15 * (1 + k))%nat by lia.
Qed.

(** ** The loop ends

    What the shard thread still has to do once the flag is set and [~Engine] waits for it. *)
Definition work (s : shard_sys) : nat :=
  let a := Z.to_nat (available (sema (messages s))) in
  let k := length (inner (messages s)) in
  match core s with
  | LExit => 0
  | LSize => (k + 6) * a + 1
  | LStop => (k + 6) * a + 2
  | LTask _ => (k + 6) * a + 3
  | LRound d => (k + 6) * a + 3 + scan_rank k d
  | LWait => match a with O => 3 | _ => (k + 6) * a end
  end.

Lemma core_step_work st0 n s ls expired :
  loop_ok st0 n s ls -> Z.of_nat (n + 15 * (1 + length ls)) < limit ->
  dtor s = DJoin -> core s <> LExit ->
  (work (core_step expired s) < work s)%nat /\ dtor (core_step expired s) = DJoin /\
  sent (core_step expired s) = sent s /\
  (core (core_step expired s) = LExit -> available (sema (messages (core_step expired s))) <= 0).
Proof.
  intros [Hrep Hav Hcnt Hsubs Hhist Hst Hfl Hsz Hex Hj Hro] Hn Hd Hc.
  destruct s as [q stop c st subs d sn tk]. simpl in *. subst d. simpl in *. subst stop. unfold work. simpl.
  pose proof (rep_length _ _ _ _ Hrep) as Hk.
  destruct c as [| | |at_|msg|]; cbn [core_step] in *; simpl in Hcnt, Hro; [..|done].
  - split; [simpl; lia|done].
  - unfold blocking_size_approx. destruct (Z.ltb_spec 0 (available (sema q))); simpl; (split; [|done]); [|lia].
    destruct (Z.to_nat (available (sema q))) eqn:E; lia.
  - unfold dequeue_wait. destruct (sema_wait expired (sema q)) as [ok se] eqn:Hw.
    destruct ok; [apply wait_ok in Hw as [Hp Hse]|apply wait_expired in Hw as [Hp Hse]]; simpl;
      (split; [rewrite Hse|done]); destruct (Z.to_nat (available (sema q))) as [|a] eqn:E;
      try replace (Z.to_nat (available (sema q) - 1)) with a by lia; lia.
  - destruct Hro as [Hp Hsc]. destruct (scan_step q at_) as [q' d'] eqn:Hs.
    destruct (scan_step_ok _ _ _ _ _ _ Hrep ltac:(lia) Hp Hsc Hs) as [Hse [(Hp' & Hrk & _ & Hrep1)|(v & ls' & -> & Ht & Hrep1)]];
      pose proof (rep_length _ _ _ _ Hrep1) as Hk'.
    + destruct d'; try done; simpl; rewrite Hse, Hk', Hk; (split; [simpl in Hrk; lia|done]).
    + destruct (takes_length _ _ _ Ht) as [Hlt _]. simpl. rewrite Hse, Hk', Hlt, Hk. split; [|done].
      destruct at_; simpl in *; try done; lia.
  - split; [simpl; lia|done].
Qed.

Lemma core_run_exit es s : core s = LExit -> core_run es s = s.
Proof.
  intros Hc. induction es as [|e es IH]; [done|]. simpl.
  replace (core_step e s) with s; [done|]. destruct s. simpl in Hc. by subst.
Qed.

Lemma quiet_empty st0 n s ls :
  loop_ok st0 n s ls -> dtor s = DJoin -> core s = LExit -> available (sema (messages s)) <= 0 -> mjoin ls = [].
Proof.
  intros Hok Hd Hc Ha. pose proof (ok_count _ _ _ _ Hok) as Hcnt. rewrite Hd, Hc in Hcnt. simpl in Hcnt.
  rewrite owes_quiet in Hcnt.
  - destruct (mjoin ls) as [|x l]; [done|]. rewrite zlen_cons in Hcnt. pose proof (zlen_nonneg l). lia.
  - intros c r Hr. destruct (ok_subs _ _ _ _ Hok c r Hr) as [?|[_ ?]]; [done|congruence].
Qed.

Lemma core_run_ends st0 es : forall n s ls,
  loop_ok st0 n s ls -> Z.of_nat (n + length es * (15 * (1 + length ls))) < limit ->
  dtor s = DJoin -> core s <> LExit -> (work s <= length es)%nat ->
  core (core_run es s) = LExit /\ sent (core_run es s) = sent s /\
  exists n' ls', loop_ok st0 n' (core_run es s) ls' /\ length ls' = length ls /\ mjoin ls' = [].
Proof.
  induction es as [|e es IH]; intros n s ls Hok Hn Hd Hc Hw; cbn [length] in *.
  { unfold work in Hw. destruct (core s); simpl in *; try lia; [|done].
    destruct (Z.to_nat (available (sema (messages s)))); lia. }
  destruct (core_step_work _ _ _ _ e Hok ltac:(lia) Hd Hc) as (Hw' & Hd' & Hsent & Hexit).
  destruct (core_ok _ _ _ _ e Hok ltac:(lia) Hc) as (ls' & Hok' & Hlen).
  change (core_run (e :: es) s) with (core_run es (core_step e s)).
  destruct (decide (work (core_step e s) = 0%nat)) as [Hz|Hnz].
  - assert (core (core_step e s) = LExit) as Hce.
    { unfold work in Hz. destruct (core (core_step e s)); simpl in *; try lia; [|done].
      destruct (Z.to_nat (available (sema (messages (core_step e s))))); lia. }
    rewrite core_run_exit by done. split; [done|]. split; [done|]. eexists _, ls'. split; [done|]. split; [done|].
    eapply quiet_empty; eauto.
  - assert (core (core_step e s) <> LExit) as Hce by (intros Hce; apply Hnz; unfold work; by rewrite Hce).
    rewrite <- Hsent, <- Hlen. eapply (IH _ _ ls'); eauto; [|lia]. rewrite Hlen. lia.
Qed.

End Loop.
#[global] Arguments shard_sys : clear implicits.
#[global] Arguments lpc : clear implicits.

(** ** The engine's shard *)

Section Shutdown.
Context {T St Sem : Type} (raw_value : option nat) `{SemaphoreLaws Sem} (run : T -> St -> St).
#[local] Instance task_producers : SubQueue ImplicitProducer (Pool (option T)) (option T) := implicit_subqueue raw_value.
#[local] Instance task_laws : SubQueueLaws ImplicitProducer (Pool (option T)) (option T) := implicit_laws raw_value.

(** A shard as constructed, with [c] threads that submit and [k] sub-queues. *)
Definition new_shard (mem : bool) (count : Z) (k c : nat) (st : St) : shard_sys ImplicitProducer (Pool (option T)) T St Sem :=
  mkShardSys (new_blocking raw_value mem count k) false LStop st (replicate c BIdle) DAlive [] [].

Lemma new_shard_ok mem count k c st :
  0 <= count < 2 ^ 64 -> loop_ok run st 0 (new_shard mem count k c st) (replicate k []).
Proof.
  intros Hc. destruct (blocking_start_balanced (A := option T) (Sem := Sem) raw_value mem count k c Hc) as [Hrep Hav Hcnt _].
  simpl in Hrep, Hav, Hcnt. split; simpl; try done.
  - rewrite Hcnt. lia.
  - intros i r [-> _]%lookup_replicate. by left.
  - exists []. split; [done|]. split; [by constructor|]. intros i l [-> _]%lookup_replicate. done.
  - by exists [].
  - by intros [?|?].
Qed.

Lemma shard_reach mem count k c st n s :
  0 <= count < 2 ^ 64 -> Z.of_nat (n * (15 * (1 + k))) < 2 ^ 60 ->
  shard_steps run n (new_shard mem count k c st) s ->
  exists ls, loop_ok run st (n * (15 * (1 + k))) s ls /\ length ls = k.
Proof.
  intros Hc Hn Hs.
  eapply (shard_steps_ok run st 0 k n _ _ _ (new_shard_ok mem count k c st Hc)); [apply length_replicate|done|done].
Qed.

(** C20: The thread of a shard executes every task exactly once and the tasks of one submitting
    thread in the order of their submission; when it has ended at shutdown, at most one message
    is left in the queue. *)
Theorem shard_thread_executes mem count k c st n s :
  0 <= count < 2 ^ 64 -> Z.of_nat (n * (15 * (1 + k))) < 2 ^ 60 ->
  shard_steps run n (new_shard mem count k c st) s ->
  exists who left done,
    who.*2 = taken s /\ taken s = done ++ pending (core s) /\ core_state s = fold_left (run_msg run) done st /\
    length left = k /\ Forall (fun x => (x.1 < k)%nat) who /\
    (forall i l, left !! i = Some l -> sent_by i (sent s) = sent_by i who ++ l) /\
    (core s = LExit -> zlen (mjoin left) <= 1).
Proof.
  intros Hc Hn Hs. destruct (shard_reach _ _ _ _ _ _ _ Hc Hn Hs) as (ls & Hok & <-).
  destruct (ok_hist _ _ _ _ _ Hok) as (who & Hw & Hb & Hi). destruct (ok_state _ _ _ _ _ Hok) as (dn & Htk & Hst).
  exists who, ls, dn. do 6 (split; [done|]). intros He. pose proof (ok_exit _ _ _ _ _ Hok He). destruct (dtor s); lia.
Qed.

(** C9: Shutdown terminates and loses nothing if the thread of the shard has not ended when
    [~Engine] signals its message (it can end before the signal and drop a task:
    [shutdown_can_drop_task] below): whatever else the state of the shard, its thread then ends
    after at most [work s] of its own steps, having executed all the messages of every thread in
    order. *)
Theorem shutdown_drains mem count k c st n s es :
  0 <= count < 2 ^ 64 -> Z.of_nat ((n + length es) * (15 * (1 + k))) < 2 ^ 60 ->
  shard_steps run n (new_shard mem count k c st) s ->
  dtor s = DJoin -> core s <> LExit -> (work s <= length es)%nat ->
  let s' := core_run run es s in
  core s' = LExit /\ core_state s' = fold_left (run_msg run) (taken s') st /\
  exists who, who.*2 = taken s' /\ forall i, (i < k)%nat -> sent_by i (sent s) = sent_by i who.
Proof.
  intros Hc Hn Hs Hd He Hw. destruct (shard_reach mem count k c st n s Hc ltac:(lia) Hs) as (ls & Hok & Hlen).
  destruct (core_run_ends run st es _ _ _ Hok) as (Hexit & Hsent & n' & ls' & Hok' & Hlen' & Hemp); [|done..|].
  { rewrite Hlen. change limit with (2 ^ 60). lia. }
  split; [done|]. destruct (ok_state _ _ _ _ _ Hok') as (dn & Htk & Hst). rewrite Hexit in Htk. simpl in Htk.
  rewrite app_nil_r in Htk. rewrite Htk. split; [done|].
  destruct (ok_hist _ _ _ _ _ Hok') as (who & Hwho & _ & Hi). exists who. split; [congruence|]. intros i Hik.
  destruct (lookup_lt_is_Some_2 ls' i) as [l Hl]; [lia|]. rewrite <- Hsent, (Hi i l Hl).
  assert (l = []) as ->; [|apply app_nil_r].
  apply (list_elem_of_lookup_2 ls' i) in Hl. destruct l as [|x l]; [done|].
  assert (x ∈ mjoin ls') as Hx; [|by rewrite Hemp in Hx; apply not_elem_of_nil in Hx].
  apply list_elem_of_join. exists (x :: l). split; [by left|done].
Qed.

End Shutdown.

(** ** Schedules *)

Inductive shard_action := ACore (expired : bool) | ASubmit (c i : nat) (t : Z) | ASignal (c : nat) | ADtor (i : nat).

(** Tasks are numbers, which the state of the shard collects. *)
Definition collect (t : Z) (st : list Z) : list Z := st ++ [t].

#[local] Instance number_producers : SubQueue ImplicitProducer (Pool (option Z)) (option Z) := implicit_subqueue None.

Definition number_shard : Type := shard_sys ImplicitProducer (Pool (option Z)) Z (list Z) Z.

Definition is_exit (l : lpc Z) : bool := match l with LExit => true | _ => false end.
Definition is_alive (d : dpc) : bool := match d with DAlive => true | _ => false end.
Definition is_idle (r : bpc) : bool := match r with BIdle => true | _ => false end.

Definition shard_act (a : shard_action) (s : number_shard) : option number_shard :=
  match a with
  | ACore expired => if is_exit (core s) then None else Some (core_step collect expired s)
  | ASubmit c i t =>
      match submitters s !! c with
      | Some BIdle => if is_alive (dtor s) then submit_inner c i t s else None
      | _ => None
      end
  | ASignal c => match submitters s !! c with Some BSignal => Some (submit_signal c s) | _ => None end
  | ADtor i => if is_alive (dtor s) && negb (forallb is_idle (submitters s)) then None else dtor_step i s
  end.

Fixpoint shard_exec (l : list shard_action) (s : number_shard) : option number_shard :=
  match l with
  | [] => Some s
  | a :: l => match shard_act a s with Some s => shard_exec l s | None => None end
  end.

Lemma shard_act_step a s s' : shard_act a s = Some s' -> shard_step collect s s'.
Proof.
  destruct a as [expired|c i t|c|i]; simpl.
  - destruct (core s) eqn:E; simpl; intros [= <-]; constructor; by rewrite E.
  - destruct (submitters s !! c) as [[]|] eqn:E; try done. destruct (dtor s) eqn:Ed; try done.
    cbn [is_alive]. intros Hs. exact (shard_submit collect s s' c i t Ed E Hs).
  - destruct (submitters s !! c) as [[]|] eqn:E; try done. intros [= <-]. by constructor.
  - destruct (is_alive (dtor s) && negb (forallb is_idle (submitters s))) eqn:E; [done|]. intros Hs.
    eapply shard_dtor; [|done]. intros Hd. rewrite Hd in E. simpl in E. apply negb_false_iff in E.
    rewrite forallb_forall in E. apply Forall_forall. intros r Hr%list_elem_of_In. specialize (E r Hr).
    by destruct r.
Qed.

Lemma shard_exec_steps l n s0 s s' :
  shard_steps collect n s0 s -> shard_exec l s = Some s' -> shard_steps collect (length l + n) s0 s'.
Proof.
  revert n s. induction l as [|a l IH]; intros n s Hs; simpl; [by intros [= <-]|].
  destruct (shard_act a s) as [s1|] eqn:Ha; [|done]. intros He.
  replace (S (length l + n)) with (length l + (1 + n))%nat by lia.
  eapply (IH (1 + n)%nat s1); [|done]. econstructor; [done|]. by eapply shard_act_step.
Qed.

(** What of a state can be compared. *)
Definition observe (s : number_shard) := 
  (core s, core_state s, dtor s, sent s, taken s, available (sema (messages s)), length (inner (messages s))).

Lemma observe_exec l s o :
  observe <$> shard_exec l s = Some o -> exists s', shard_steps collect (length l) s s' /\ observe s' = o.
Proof.
  destruct (shard_exec l s) as [s'|] eqn:E; [|done]. intros [= Ho]. exists s'. split; [|done].
  replace (length l) with (length l + 0)%nat by lia. by eapply shard_exec_steps; [constructor|].
Qed.

Definition start_shard : number_shard := new_shard None true 6 2 1 [].

(** The task 7 is submitted; [~Engine] has enqueued its empty message and has not signalled
    it yet. *)
Definition before_signal : list shard_action := [ASubmit 0 1 7; ASignal 0; ADtor 0; ADtor 0].

(** The shard thread takes the empty message with the permit of the task, finds the queue
    empty by the count of permits, and ends: the task is lost. *)
Lemma shutdown_can_drop_task :
  exists s, shard_steps collect 14 start_shard s /\
    observe s = (LExit, [], DSignal, [(1%nat, Some 7); (0%nat, None)], [None], 0, 2%nat).
Proof. apply (observe_exec (before_signal ++ replicate 10 (ACore true))). vm_compute. reflexivity. Qed.

Lemma shard_thread_executes_witness :
  exists s, shard_steps collect 14 start_shard s /\ core s = LExit /\
    exists left : list (list (option Z)), length left = 2%nat /\ zlen (mjoin left) <= 1.
Proof.
  destruct shutdown_can_drop_task as (s & Hs & Ho). exists s. split; [exact Hs|].
  injection Ho as Hc _ _ _ _ _ _. split; [exact Hc|].
  destruct (shard_thread_executes None collect true 6 2 1 [] 14 s ltac:(lia) ltac:(reflexivity) Hs)
    as (who & left & dn & _ & _ & _ & Hl & _ & _ & He).
  exists left. split; [exact Hl|exact (He Hc)].
Defined.

(** With the signal in time, the task is executed. *)
Lemma shutdown_drains_witness :
  exists s, shard_steps collect 5 start_shard s /\
    core (core_run collect (replicate 18 true) s) = LExit /\
    exists who, forall i, (i < 2)%nat -> sent_by i [(1%nat, Some 7); (0%nat, None)] = sent_by i who.
Proof.
  destruct (observe_exec (before_signal ++ [ADtor 0]) start_shard
    (LStop, [], DJoin, [(1%nat, Some 7); (0%nat, None)], [], 2, 2%nat)) as (s & Hs & Ho); [vm_compute; reflexivity|].
  injection Ho as Hc _ Hd Hsent _ Ha Hk. exists s. split; [exact Hs|].
  assert (work s <= length (replicate 18 true))%nat as Hw by (unfold work; rewrite Hc, Ha, Hk; vm_compute; lia).
  assert (core s <> LExit) as He by (rewrite Hc; discriminate).
  destruct (shutdown_drains None collect true 6 2 1 [] 5 s (replicate 18 true) ltac:(lia) ltac:(reflexivity) Hs Hd He Hw)
    as (Hexit & _ & who & _ & Hi).
  split; [exact Hexit|]. exists who. rewrite <- Hsent. exact Hi.
Defined.
